(* ===== verification/_CoqProject ===== *)
-Q . S2P
Prelude.v
Relational.v
IoRead.v
RustStr.v
Errors.v
Profile.v
Varint.v
Proxy.v
Frag.v
PortUnion.v
Net.v
Netstack.v
Obfs.v
ClientConfig.v
Tls.v
Hop.v
Http.v
UdpSession.v
Transport.v
Socket.v
Tunnel.v
Link.v
Dial.v
Store.v
Model.v
Secrets.v
Session.v
Flow.v
Counting.v
Dataplane.v
Brutal.v
App.v
Socks5.v
Tun.v
WireTests.v
ClientTests.v
AppTests.v
