(* ===== verification/Prelude.v ===== *)
(** * The verification of hysteria-ui

    hysteria-ui is a Hysteria 2 VPN client: a Rust workspace ([src/crates])
    behind native apps. This library models its logic as executable functions
    and step relations over the data the code has, and proves what makes each
    part correct. Nothing is assumed: code outside the workspace is an argument
    of the definitions that use it, through a type class with the laws of its
    documentation.

    ** The program and the files

    A native app holds an [App] object. Its calls become commands of the model
    actor, which owns the profile store and tells the app, through callbacks,
    what to show and what to ask of the OS. Once a tunnel is wanted, a profile
    becomes a client configuration, the client connects and authenticates, and
    a front-end (the dataplane behind a TUN device, or the SOCKS5 server)
    relays TCP flows over streams and UDP flows over fragmented datagrams.

    Shared vocabulary
    - [Prelude] (this file): [outcome] (a Rust [Result] or a panic), the
      state-and-outcome monad [stm] with its weakest-precondition rule and
      [wp_step], unsigned machine integers ([is_u w], wrap-around), bytes,
      big-endian numbers, the list and arithmetic lemmas, the hint databases.
    - [Relational]: two runs of a computation of [stm] compared, the monad's
      constructors being morphisms of the comparison.
    - [RustStr]: [str] as its UTF-8 bytes: validity, [split_once], [trim],
      [parse::<uN>], [to_string].
    - [IoRead]: [std::io::Read] over a buffer; the class [StreamParser].
    - [Net]: socket addresses, quinn's [Transmit] and [RecvMeta], tokio's
      [ReadBuf], [AsyncRead] and [AsyncWrite].

    The client crate ([crates/hysteria])
    - [Varint], [Proxy] ([padding.rs], [proxy.rs]), [Frag], [PortUnion],
      [Http], [Brutal]: the files of [internal/].
    - [Obfs]: [internal/obfs.rs] and the datagram path of
      [client/obfs_socket.rs].
    - [Hop]: [client/hop_socket.rs] with its background task.
    - [ClientConfig]: [client/config.rs]; [Tls]: [client/tls.rs].
    - [Errors]: [errors.rs], [client/connect_error.rs], the [conn-error] crate
      and [anyhow]'s chains of messages.
    - [UdpSession]: [client/udp.rs].
    - [Transport]: [client/transport.rs].
    - [Socket]: the two socket wrappers whole, and the stack of them that
      [build_endpoint] composes.
    - [Tunnel]: what [Proxy], [Frag], [UdpSession] and [Transport] make
      together, from one end of a connection to the other; the background task
      [run] of [client/udp.rs].

    The app crates
    - [Profile], [Link] (the [config] crate), [Store], [Model], [App]
      ([ffi-app]). [Dial] follows a link through the client crate to the
      datagrams of its connection. [Secrets] compares two runs of the actor whose profiles
      differ in their secrets.
    - [Netstack] (the pumps, the UDP writer and the builder of the [netstack]
      crate), [Session] and [Counting] ([dataplane/src/session.rs], [count.rs]),
      [Dataplane] (the rest of the [dataplane] crate). [Flow] puts the NAT and
      the client's UDP sessions together.
    - [Socks5] and [Tun]: the two front-ends, [transport-socks5] and
      [transport-tun].

    Tests
    - [WireTests], [ClientTests], [AppTests]: the unit tests of the crates, each
      a boolean definition of the test's name, evaluated on the model.

    Each file has one Module of its own name with the source's record, enum and
    function names (the tests have one per crate or file tested). A method on
    [&mut self] is a computation of [stm]; a function whose failure is an error
    type returns an [outcome]. Indexing, slicing, [unwrap] and checked
    arithmetic that fail are [Panic], so that the theorems which say "does not
    panic" have content.

    ** Interfaces between the parts

    A class states what a client relies on, its theorems are proved over the
    class, and where the other side is in this workspace an instance discharges
    it.
    - [IoRead.StreamParser]: a parser's answer does not change when more bytes
      arrive. [Varint.read] and [Proxy.read_tcp_response] are instances;
      [Transport] derives from it that the retrying reader is independent of
      how a stream is cut into chunks.
    - [UdpSession.UdpIo]: what the session layer asks of a datagram transport.
      [Transport.Transport.quinn_udp_io] discharges it for [QuinnUdpIo], over
      [Datagrams], the promise of any datagram service; [Tunnel] puts the two
      together.
    - [Secrets.Disguise]: what the comparison of [Secrets] asks of the codec and
      the secure store.
    - [Session.Upstream] and [Session.Downstream]: the seams of the NAT. A
      delivery has two phases, the call and the polls of its await; each seam
      says what its far end may do on its own.
      [recording_downstream] and [tapped_upstream] are instances over any
      instance that write down what crosses the seam: the NAT's theorem is
      about these recordings.
      [udp_upstream] makes the UDP session manager an upstream (over
      [QuinnUdpIo] in [Flow]),
      [reply_downstream] the netstack's bounded reply queue a downstream; the
      orchestrator and the reply path are proved over the pair.
    - [Net.AsyncRead] and [Net.AsyncWrite]: [Counting] is an instance over any
      instance, [Transport.TcpConn] reads and writes through its stream.
    - [Socket.AsyncUdpSocket]: quinn's socket trait as a record of operations;
      each wrapper is a function on it.
    - [Store.SecureStore]: where secrets live. [dev_secure_store] is the
      in-memory one, [App.secure_store_adapter] the one that calls out to
      [App.ForeignStore], the app's.
    - [Http.Header]: a header map; a finite map is an instance, and so is
      [Transport.HeaderMap], the [http] crate's.
    - Outside the workspace: [Obfs.Blake2b256] (only the digest length is used),
      [Net.SocketAddrText], [ClientConfig.Resolver], [Tls.Rustls],
      [Link.PercentEncoding] and [Link.FormUrlencoded], [Store.Codec] (the
      derived JSON codec and UUIDs), [Transport.Quic] (QUIC, TLS, HTTP/3, the
      OS) and [Socks5.Socks5Framing]. Concrete instances evaluate the witnesses
      and the tests; those of the percent and form coding are the standard ones.

    ** What is shown

    Wire formats. A varint is written as RFC 9000 says and read back
    ([Varint]). A TCP response and a UDP message are read back from what the
    peer or the client writes, the reader takes a bounded prefix and never
    panics ([Proxy]). Obfuscation is undone by the other side per datagram, and
    a batch receive drops what it cannot decode ([Obfs]); a datagram goes
    through the whole stack of sockets that a configuration builds, sealed and
    for a configured port, and comes back as its payload from one peer
    ([Socket]).

    Fragmentation. [frag_udp_message] numbers the fragments of a message that
    does not fit and each one fits; [feed] returns the message whatever the
    order and the repetition of its fragments; its state is bounded. The [u8]
    counters overflow exactly where the theorems say ([Frag]).

    Concurrency. The UDP session manager, the hopping socket, the netstack's
    pumps, the NAT, the dataplane, the model and the app are step relations
    whose steps are the atomic sections of the code (a section under the mutex,
    an iteration of the loop, a poll), interleaved without restriction. The
    invariants hold at every point of every run: what a consumer has received,
    has queued and will get is what was accepted for its session, in order, and
    every field keeps its width; caps are never exceeded; a reply task belongs
    to the entry of its source, and what the app is handed is what its session
    received; each pump carries a prefix of what it was given,
    unchanged; counters are the sums of what happened; every hop destination is
    configured ([UdpSession], [Netstack], [Session], [Dataplane], [Hop]). The
    orchestrator's loop is left exactly for a closed stream, an ended task or
    the signal, and then its teardown terminates, whatever the tasks do in
    between ([Dataplane]); the shared counters of a relay add up to the
    bytes that crossed it ([Counting]). Commands to the model are serialised in
    the order they were accepted ([Model]), and the foreign side sees the
    model's run, field by field, a stats update going to the observer the gate
    found when it looked, which may be unsubscribed before the call ([App]).

    Configuration. Validation accepts exactly the valid configurations once
    defaulted, a profile becomes the configuration it describes ([ClientConfig]);
    the TLS configuration verifies by the given certificate or by the platform,
    and never does without ([Tls]); a port spec parses to the normal form of its
    set of ports, or is rejected for a part that is no port and no range
    ([PortUnion]); a profile and its link determine each other
    exactly when it can be written in a link ([Link]).

    Connecting. What holds of a successful connection, and the category of each
    failure by the first stage that fails ([Transport], [Errors]); the stack of sockets built for a
    configuration ([Socket]).

    End to end. A connection hands out the bytes the server sent, all of them
    and in order, however they were cut, with fast open as without, and a
    refusal is the dial error ([tcp_tunnel]); a session's consumer gets the
    datagrams that were sent, whole and in order, if each can be carried (within
    4096 bytes and 255 fragments of the path's size), whatever else arrives ([datagrams_delivered], [Tunnel]). A new UDP flow of
    the device goes out on a session of its own, and what the server echoes
    there is handed back to its source as replies from the destinations
    ([udp_flow_echo], [Flow]). A pasted link leads to the address, the server
    name, the credential, the ports and the obfuscation that it names
    ([link_to_wire], [Dial]).

    Persistence. The store's document, memory and secrets stay consistent over
    any operations, restarts and I/O failures; each operation's result is
    specified on every branch; a crash between any two changes of the disk or
    the secure store leaves the list before the operation or the one after it,
    every listed profile with its secret ([Store]). The actor adds what a link import and
    an export mean together, and answers each query once, by the state that
    the commands before it lead to ([Model]). What the app shows, asks of the OS
    and writes to the document does not depend on the secrets of the profiles
    ([Secrets]).

    Congestion control. The acknowledgement rate and the window are those of
    the last five seconds' samples ([Brutal]).

    Front-ends. A SOCKS5 client gets one answer, the one its command and its
    tunnel earned, and an association serves the address that it is pinned to
    ([Socks5]). The TUN program prints the link, the device and at the end the
    counters of what it carried ([Tun]).

    Some theorems state a behaviour that its authors may not have wanted: the
    names [feed_duplicate_overflow], [manager_drop_strands_receivers],
    [short_psk_reported_unreachable], [read_after_failed_response_panics] and
    [refused_flow_counts_as_opened] say which.

    ** Bounds and fuel

    - An integer of the source is a [Z] (or a [nat] for a length) with its
      width in the statements: [is_u 8], [is_u 16], [is_u 64]. Where the source
      uses the plain operators the parameter [oc] says whether overflow checks
      are on (a panic if so, a wrap if not), and [dbg] whether a debug assertion
      is compiled in. Theorems cover both unless they say which.
    - [Frag.frag_loop] gets as many turns as the payload has bytes plus one; a
      turn takes at least one byte, [frag_loop_spec] shows that is enough.
    - [Transport.read_tcp_response] gets [stream_reads] turns: a read takes at
      least a byte of a chunk, a pending event or the end of the stream, and
      that counts them all. [await_response] gets one poll per event and one
      more; [await_response_chunking] shows that it then returns the parser's
      answer on all the bytes.
    - [RustStr.to_dec] prints at most 20 digits, enough for a [u64].
    - [Tunnel.run] takes a datagram a turn, so one turn more than there are
      reads is enough ([run_parsed]).
    - A file-system call consumes one element of the world's [faults], [None]
      (or the end of the list) being success: quantifying over the list reaches
      every error path of every run. Randomness, the clock and the branch a
      [select!] takes are arguments in the same way.
    - A [Duration] and an instant are numbers of nanoseconds; an [f64] is a
      [spec_float] at binary64.

    ** What is not modelled

    - The libraries that the workspace calls: the smoltcp stack behind
      [netstack], the tokio runtime and its stream copy, quinn and its pacing,
      rustls, [fast-socks5]'s framing, [clap].
    - [serde] derivations and the UniFFI scaffolding, which are generated, and
      the rendering of a [Debug] tree by the formatter; the tests of JSON texts
      and of rendered [Debug] output go with them.
    - The three [main] functions, which hand the parsed command line to the
      modelled [run]s or call a generator; the native apps.
    - A crash of the machine is considered at the changes of the disk and of the
      secure store; a rename that was made is durable, and one of a file that
      was not flushed may leave the document empty.
    - A poll is atomic and a task that was aborted is not polled again, as tokio
      has it; a run of the dataplane stops at a panic of its loop. *)
From Stdlib Require Export Strings.Byte ZArith Lia.
From Stdlib Require Strings.String.
From stdpp Require Export base tactics list numbers gmap strings.

#[export] Set Warnings "-clear-no-such-hyp".

(** ** Outcomes: success, a Rust [Err], or a panic *)

Inductive outcome (E A : Type) : Type :=
| Ok (a : A)
| Err (e : E)
| Panic.
Arguments Ok {E A} a.
Arguments Err {E A} e.
Arguments Panic {E A}.

#[export] Instance outcome_ret E : MRet (outcome E) := fun _ a => Ok a.
#[export] Instance outcome_bind E : MBind (outcome E) := fun _ _ f m =>
  match m with Ok a => f a | Err e => Err e | Panic => Panic end.
#[export] Instance outcome_fmap E : FMap (outcome E) := fun _ _ f m =>
  match m with Ok a => Ok (f a) | Err e => Err e | Panic => Panic end.
#[export] Instance outcome_eq_dec E A `{EqDecision E, EqDecision A} :
  EqDecision (outcome E A).
Proof. solve_decision. Defined.

(** An indexing or slicing expression that panics out of range. *)
Definition or_panic {E A} (o : option A) : outcome E A :=
  match o with Some a => Ok a | None => Panic end.

(** [Option::ok_or]. *)
Definition ok_or {E A} (e : E) (o : option A) : outcome E A :=
  match o with Some a => Ok a | None => Err e end.

(** [Result::map_err]. *)
Definition map_err {E F A} (f : E → F) (m : outcome E A) : outcome F A :=
  match m with Ok a => Ok a | Err e => Err (f e) | Panic => Panic end.

Definition is_ok {E A} (m : outcome E A) : bool :=
  match m with Ok _ => true | _ => false end.

Section outcome_laws.
Context {E : Type}.

Lemma bind_ok_inv {A B} (m : outcome E A) (f : A → outcome E B) b :
  m ≫= f = Ok b ↔ ∃ a, m = Ok a ∧ f a = Ok b.
Proof.
  split.
  - intros H. destruct m as [a| |]; [by exists a|discriminate H..].
  - by intros (a & -> & H).
Qed.

Lemma bind_err_inv {A B} (m : outcome E A) (f : A → outcome E B) e :
  m ≫= f = Err e ↔ m = Err e ∨ ∃ a, m = Ok a ∧ f a = Err e.
Proof.
  split.
  - intros H. destruct m as [a|e'|]; [right; by exists a|left|discriminate H].
    cbn in H. congruence.
  - by intros [->|(a & -> & H)].
Qed.

Lemma bind_ret_l {A B} (a : A) (f : A → outcome E B) : mret a ≫= f = f a.
Proof. done. Qed.

Lemma bind_assoc {A B C} (m : outcome E A) (f : A → outcome E B) (g : B → outcome E C) :
  (m ≫= f) ≫= g = m ≫= (λ a, f a ≫= g).
Proof. by destruct m. Qed.
End outcome_laws.

(** ** Fallible code over a mutable state: [&mut self] methods

    The state survives an error, as it does in the code: what was written
    before the early return stays written. *)

Definition stm (St E A : Type) : Type := St → outcome E A * St.

#[export] Instance stm_ret St E : MRet (stm St E) := fun _ a s => (Ok a, s).
#[export] Instance stm_bind St E : MBind (stm St E) := fun _ _ f m s =>
  match m s with
  | (Ok a, s) => f a s
  | (Err e, s) => (Err e, s)
  | (Panic, s) => (Panic, s)
  end.

Section stm_ops.
Context {St E : Type}.
Definition gets {A} (f : St → A) : stm St E A := fun s => (Ok (f s), s).
Definition modify (f : St → St) : stm St E () := fun s => (Ok (), f s).
(** A pure fallible computation. *)
Definition lift {A} (m : outcome E A) : stm St E A := fun s => (m, s).
Definition throw {A} (e : E) : stm St E A := lift (Err e).
End stm_ops.

Lemma stm_bind_ok {St E A B} (m : stm St E A) (k : A → stm St E B) s b s' :
  (m ≫= k) s = (Ok b, s') ↔ ∃ a s1, m s = (Ok a, s1) ∧ k a s1 = (Ok b, s').
Proof.
  unfold mbind, stm_bind. destruct (m s) as [[a|e|] s1]; [|naive_solver..].
  split; [by eexists _, _|naive_solver].
Qed.

Lemma stm_bind_err {St E A B} (m : stm St E A) (k : A → stm St E B) s e s' :
  (m ≫= k) s = (Err e, s') ↔
  m s = (Err e, s') ∨ ∃ a s1, m s = (Ok a, s1) ∧ k a s1 = (Err e, s').
Proof.
  unfold mbind, stm_bind. destruct (m s) as [[a|x|] s1]; [|naive_solver..].
  split; [right; by eexists _, _|naive_solver].
Qed.

(** A bind ends where its first part failed, or goes on from there. *)
Lemma stm_bind_inv {St E A B} (m : stm St E A) (k : A → stm St E B) s r s' :
  (m ≫= k) s = (r, s') →
  (∃ a s1, m s = (Ok a, s1) ∧ k a s1 = (r, s')) ∨
  (∃ e, m s = (Err e, s') ∧ r = Err e) ∨
  (m s = (Panic, s') ∧ r = Panic).
Proof.
  unfold mbind, stm_bind. destruct (m s) as [[a|e|] s1]; [|naive_solver..].
  intros Hk. left. by exists a, s1.
Qed.

(** ** Weakest preconditions of stateful code

    [wp m Q s]: run from [s], [m] ends in a result and state satisfying [Q],
    errors and panics included. *)

Definition wp {St E A} (m : stm St E A) (Q : outcome E A → St → Prop) (s : St) : Prop :=
  Q (m s).1 (m s).2.

Section wp_rules.
Context {St E : Type}.

Lemma wp_run {A} (m : stm St E A) Q s r s' : wp m Q s → m s = (r, s') → Q r s'.
Proof. unfold wp. intros Hw Hr. by rewrite Hr in Hw. Qed.

Lemma wp_of_run {A} (m : stm St E A) (Q : outcome E A → St → Prop) s :
  (∀ r s', m s = (r, s') → Q r s') → wp m Q s.
Proof. unfold wp. intros Hq. apply Hq, surjective_pairing. Qed.

Lemma wp_mono {A} (m : stm St E A) (Q R : outcome E A → St → Prop) s :
  wp m Q s → (∀ r s', Q r s' → R r s') → wp m R s.
Proof. unfold wp. auto. Qed.

Lemma wp_bind {A B} (m : stm St E A) (k : A → stm St E B) Q s :
  wp m (λ r s', match r with Ok a => wp (k a) Q s' | Err e => Q (Err e) s' | Panic => Q Panic s' end) s →
  wp (m ≫= k) Q s.
Proof. unfold wp, mbind, stm_bind. by destruct (m s) as [[a|e|] s1]. Qed.

Lemma wp_ret {A} (a : A) Q s : Q (Ok a) s → wp (mret a : stm St E A) Q s.
Proof. done. Qed.

Lemma wp_gets {A} (f : St → A) Q s : Q (Ok (f s)) s → wp (gets f : stm St E A) Q s.
Proof. done. Qed.

Lemma wp_modify (f : St → St) Q s : Q (Ok ()) (f s) → wp (modify f : stm St E ()) Q s.
Proof. done. Qed.

Lemma wp_lift {A} (m : outcome E A) (Q : outcome E A → St → Prop) s : Q m s → wp (lift m) Q s.
Proof. done. Qed.

Lemma wp_throw {A} (e : E) (Q : outcome E A → St → Prop) s : Q (Err e) s → wp (throw e) Q s.
Proof. done. Qed.
End wp_rules.

#[global] Arguments wp : simpl never.

(** A computation's result, its final state left as it is. *)
Lemma run_result {St E A} (m : stm St E A) s r : (m s).1 = r → m s = (r, (m s).2).
Proof. intros <-. by destruct (m s). Qed.

(** One step of a proof by weakest preconditions. *)
Ltac wp_step :=
  lazymatch goal with
  | |- wp (mbind _ _) _ _ => simple apply wp_bind
  | |- wp (mret _) _ _ => simple apply wp_ret
  | |- wp (gets _) _ _ => simple apply wp_gets
  | |- wp (modify _) _ _ => simple apply wp_modify
  | |- wp (lift _) _ _ => simple apply wp_lift
  | |- wp (throw _) _ _ => simple apply wp_throw
  end.

(** [map_err] on a stateful computation. *)
Definition map_err_m {St E F A} (f : E → F) (m : stm St E A) : stm St F A :=
  fun s => let '(r, s) := m s in (map_err f r, s).

(** A method called on the field [get]/[set] of the state. *)
Definition zoom {St F E A} (get : St → F) (set : F → St → St) (m : stm F E A) : stm St E A :=
  fun s => let '(r, f) := m (get s) in (r, set f s).

(** ** Bytes and machine-width integers *)

#[export] Instance byte_eq_dec : EqDecision byte := Byte.byte_eq_dec.
#[export] Program Instance byte_countable : Countable byte :=
  inj_countable Byte.to_N Byte.of_N _.
Next Obligation. apply Byte.of_to_N. Qed.

(** The value of a byte, and [as u8] (truncation). *)
Definition b2z (b : byte) : Z := Z.of_N (Byte.to_N b).
Definition z2b (z : Z) : byte := default x00 (Byte.of_N (Z.to_N (z mod 256))).

Definition wrap (w z : Z) : Z := z mod 2 ^ w.
Definition is_u (w z : Z) : Prop := (0 ≤ z < 2 ^ w)%Z.
#[export] Instance is_u_dec w z : Decision (is_u w z).
Proof. unfold is_u. apply _. Defined.

(** [a + b] at width [w]: with overflow checks ([oc], a debug build) an
    overflow panics, without them (release) it wraps. *)
Definition add_u {E} (w : Z) (oc : bool) (a b : Z) : outcome E Z :=
  if (a + b <? 2 ^ w)%Z then Ok (a + b)%Z
  else if oc then Panic else Ok (wrap w (a + b)).

(** [saturating_sub] and [div_ceil] on unsigned integers. *)
Definition saturating_sub (a b : Z) : Z := Z.max 0 (a - b).
Definition div_ceil (a b : Z) : Z := (a + b - 1) / b.

Lemma b2z_range b : (0 ≤ b2z b < 256)%Z.
Proof. unfold b2z. pose proof (Byte.to_N_bounded b). lia. Qed.

Lemma z2b_b2z b : z2b (b2z b) = b.
Proof.
  unfold z2b. rewrite Z.mod_small by apply b2z_range.
  unfold b2z. by rewrite N2Z.id, Byte.of_to_N.
Qed.

Lemma b2z_z2b z : b2z (z2b z) = (z mod 256)%Z.
Proof.
  unfold z2b, b2z. pose proof (Z.mod_pos_bound z 256 eq_refl) as Hb.
  destruct (Byte.of_N (Z.to_N (z mod 256))) as [b|] eqn:Hof; cbn.
  - apply Byte.to_of_N in Hof. rewrite Hof. lia.
  - apply Byte.of_N_None_iff in Hof. lia.
Qed.

Lemma b2z_inj a b : b2z a = b2z b → a = b.
Proof. intros H. by rewrite <-(z2b_b2z a), <-(z2b_b2z b), H. Qed.

Lemma b2z_z2b_small z : (0 ≤ z < 256)%Z → b2z (z2b z) = z.
Proof. intros H. rewrite b2z_z2b. by apply Z.mod_small. Qed.

Lemma add_u_ok {E} w oc a b : (a + b < 2 ^ w)%Z → @add_u E w oc a b = Ok (a + b)%Z.
Proof. intros H. unfold add_u. by rewrite (proj2 (Z.ltb_lt _ _) H). Qed.

(** ** Big-endian integers ([to_be_bytes] / [from_be_bytes]) *)

Fixpoint to_be (n : nat) (z : Z) : list byte :=
  match n with
  | O => []
  | S n => z2b (z / 256 ^ Z.of_nat n) :: to_be n z
  end.

Fixpoint from_be_acc (acc : Z) (bs : list byte) : Z :=
  match bs with
  | [] => acc
  | b :: bs => from_be_acc (acc * 256 + b2z b) bs
  end.
Definition from_be (bs : list byte) : Z := from_be_acc 0 bs.

Lemma length_to_be n z : length (to_be n z) = n.
Proof. induction n; cbn; lia. Qed.

Lemma from_be_acc_to_be n acc z :
  from_be_acc acc (to_be n z) = (acc * 256 ^ Z.of_nat n + z mod 256 ^ Z.of_nat n)%Z.
Proof.
  revert acc. induction n as [|n IH]; intros acc; cbn [to_be from_be_acc].
  - rewrite Z.pow_0_r, Z.mod_1_r. lia.
  - rewrite IH, b2z_z2b, Nat2Z.inj_succ, Z.pow_succ_r by lia.
    set (p := (256 ^ Z.of_nat n)%Z). assert (0 < p)%Z by (apply Z.pow_pos_nonneg; lia).
    rewrite (Z.mul_comm 256 p), Z.rem_mul_r by lia. lia.
Qed.

Lemma from_be_to_be n z : (0 ≤ z < 256 ^ Z.of_nat n)%Z → from_be (to_be n z) = z.
Proof. intros H. unfold from_be. rewrite from_be_acc_to_be, Z.mod_small; lia. Qed.

(** ** Slices: [buf[off..off+n].copy_from_slice(src)] *)

Definition slice_write {A} (buf : list A) (off : nat) (src : list A) : option (list A) :=
  if decide (off + length src ≤ length buf)%nat
  then Some (take off buf ++ src ++ drop (off + length src) buf)
  else None.

(** [&buf[off..]] and [&buf[..n]]. *)
Definition slice_from {A} (buf : list A) (off : nat) : option (list A) :=
  if decide (off ≤ length buf)%nat then Some (drop off buf) else None.
Definition slice_to {A} (buf : list A) (n : nat) : option (list A) :=
  if decide (n ≤ length buf)%nat then Some (take n buf) else None.

(** [l[k] = x]. *)
Definition set_at {E A} (k : nat) (x : A) (l : list A) : outcome E (list A) :=
  if decide (k < length l)%nat then Ok (<[k:=x]> l) else Panic.

#[global] Arguments set_at : simpl never.
#[global] Arguments add_u : simpl never.

Lemma set_at_ok {E A} k (x : A) l :
  (k < length l)%nat → @set_at E A k x l = Ok (<[k:=x]> l).
Proof. intros H. unfold set_at. by rewrite decide_True. Qed.

Lemma slice_write_in {A} (buf : list A) off src :
  (off + length src ≤ length buf)%nat →
  slice_write buf off src = Some (take off buf ++ src ++ drop (off + length src) buf).
Proof. intros H. unfold slice_write. by rewrite decide_True. Qed.

Lemma length_slice_write {A} (buf buf' : list A) off src :
  slice_write buf off src = Some buf' → length buf' = length buf.
Proof.
  unfold slice_write. case_decide; [|done]. intros [= <-].
  rewrite !length_app, length_take, length_drop. lia.
Qed.

(** Writing right after an already written prefix extends that prefix: the
    shape of every serializer in the code. *)
Lemma slice_write_prefix {A} (pre rest src : list A) :
  (length src ≤ length rest)%nat →
  slice_write (pre ++ rest) (length pre) src
  = Some ((pre ++ src) ++ drop (length src) rest).
Proof.
  intros H. rewrite slice_write_in by (rewrite length_app; lia).
  rewrite take_app_length, <-drop_drop, drop_app_length. by rewrite app_assoc.
Qed.

Lemma slice_from_prefix {A} (pre rest : list A) :
  slice_from (pre ++ rest) (length pre) = Some rest.
Proof.
  unfold slice_from. rewrite decide_True by (rewrite length_app; lia).
  by rewrite drop_app_length.
Qed.

Lemma slice_to_app {A} (pre rest : list A) n :
  length pre = n → slice_to (pre ++ rest) n = Some pre.
Proof.
  intros <-. unfold slice_to. rewrite decide_True by (rewrite length_app; lia).
  by rewrite take_app_length.
Qed.

(** ** Rust strings: their UTF-8 bytes *)

Abbreviation rstr := (list byte).

Definition lit (s : string) : rstr := String.list_byte_of_string s.

(** Any countable type has an injective encoding as bytes; the examples
    instantiate text and binary formats with it. *)
Fixpoint pos_bytes (p : positive) : list byte :=
  match p with xH => [] | xO p => x00 :: pos_bytes p | xI p => x01 :: pos_bytes p end.
Fixpoint bytes_pos (bs : list byte) : positive :=
  match bs with [] => xH | x00 :: bs => xO (bytes_pos bs) | _ :: bs => xI (bytes_pos bs) end.

Lemma bytes_pos_bytes p : bytes_pos (pos_bytes p) = p.
Proof. induction p; cbn; congruence. Qed.

(** ** Bitwise arithmetic *)

(** [(a << n) | b] concatenates bit fields. *)
Lemma lor_shiftl_add a b n :
  (0 ≤ n)%Z → (0 ≤ b < 2 ^ n)%Z → Z.lor (Z.shiftl a n) b = (a * 2 ^ n + b)%Z.
Proof.
  intros Hn Hb.
  assert (Hd : Z.land (Z.shiftl a n) b = 0%Z).
  { apply Z.bits_inj'. intros k Hk. rewrite Z.land_spec, Z.bits_0.
    destruct (Z.ltb_spec k n).
    - by rewrite Z.shiftl_spec_low.
    - rewrite <-(Z.mod_small b (2 ^ n)) by done.
      rewrite Z.mod_pow2_bits_high by lia. by rewrite andb_false_r. }
  rewrite <-Z.lxor_lor, <-Z.add_nocarry_lxor by done.
  by rewrite Z.shiftl_mul_pow2.
Qed.

(** ** Filtering maps *)

Lemma omap_snoc {A B} (f : A → option B) l x : omap f (l ++ [x]) = omap f l ++ option_list (f x).
Proof. rewrite omap_app. cbn. by destruct (f x). Qed.

Lemma omap_none {A B} (f : A → option B) l : (∀ x, x ∈ l → f x = None) → omap f l = [].
Proof.
  induction l as [|x l IH]; [done|]. intros Hf. cbn. rewrite (Hf x) by set_solver.
  apply IH. set_solver.
Qed.

(** ** Randomness

    [rand::rng()] is an oracle of raw draws; [random_range(lo..hi)] is a draw
    brought into the half-open range, so every in-range value arises. *)

Definition random_range (lo hi d : Z) : Z := lo + d mod (hi - lo).

Lemma random_range_bound lo hi d :
  (lo < hi)%Z → (lo ≤ random_range lo hi d < hi)%Z.
Proof.
  intros H. unfold random_range.
  pose proof (Z.mod_pos_bound d (hi - lo) ltac:(lia)). lia.
Qed.

Lemma random_range_onto lo hi z :
  (lo ≤ z < hi)%Z → random_range lo hi (z - lo) = z.
Proof. intros H. unfold random_range. rewrite Z.mod_small; lia. Qed.

(** ** Automation *)

(** Split hypotheses on monadic equations down to their steps. *)
Ltac inv_ok :=
  repeat match goal with
  | H : (_ ≫= _) = Ok _ |- _ => apply bind_ok_inv in H as (? & ? & H)
  | H : Ok _ = Ok _ |- _ => injection H as H
  | H : or_panic ?o = Ok _ |- _ => destruct o eqn:?; cbn in H
  | H : ok_or _ ?o = Ok _ |- _ => destruct o eqn:?; cbn in H
  | H : Err _ = Ok _ |- _ => discriminate H
  | H : Panic = Ok _ |- _ => discriminate H
  | H : _ ∧ _ |- _ => destruct H
  | H : ∃ _, _ |- _ => destruct H
  end; simplify_eq/=.

(** Boolean integer comparisons in the goal or the context become facts. *)
Ltac bool_cases :=
  repeat match goal with
  | |- context [(?a <=? ?b)%Z] => destruct (Z.leb_spec a b)
  | |- context [(?a <? ?b)%Z] => destruct (Z.ltb_spec a b)
  | |- context [(?a =? ?b)%Z] => destruct (Z.eqb_spec a b)
  | H : context [(?a <=? ?b)%Z] |- _ => destruct (Z.leb_spec a b)
  | H : context [(?a <? ?b)%Z] |- _ => destruct (Z.ltb_spec a b)
  | H : context [(?a =? ?b)%Z] |- _ => destruct (Z.eqb_spec a b)
  end.

Create HintDb hy discriminated.
#[export] Hint Resolve b2z_range : hy.
Create Rewrite HintDb hy_len.
#[export] Hint Rewrite @length_app @length_take @length_drop length_to_be
  @length_cons @length_nil : hy_len.

Ltac len := autorewrite with hy_len; cbn [length]; try lia.
