(* ===== verification/Relational.v ===== *)
(** * Relational: two runs of a stateful computation, compared

    A relation on states and one on results lift to computations: from related
    states two related computations end in related states with related results,
    fail with the same error, or panic together. Every constructor of the monad
    is a morphism for the lifted relation, so that two runs of the same code are
    related by applying the instances; [rel_step] does. *)
From S2P Require Import Prelude.

Definition outcome_rel {E A B} (R : A → B → Prop) (m : outcome E A) (m' : outcome E B) : Prop :=
  match m, m' with
  | Ok a, Ok b => R a b
  | Err e, Err e' => e = e'
  | Panic, Panic => True
  | _, _ => False
  end.

Definition stm_rel {St E A} (RS : relation St) (RA : relation A) : relation (stm St E A) := fun m m' =>
  ∀ s s', RS s s' → outcome_rel RA (m s).1 (m' s').1 ∧ RS (m s).2 (m' s').2.

Section outcomes.
Context {E A B : Type} (RA : relation A) (RB : relation B).

#[export] Instance outcome_rel_refl : Reflexive RA → Reflexive (outcome_rel (E:=E) RA).
Proof. intros ? m. by destruct m; cbn. Qed.

#[export] Instance map_err_rel {F} (f : E → F) : Proper (outcome_rel RA ==> outcome_rel RA) (map_err f).
Proof. intros m m' Hm. by destruct m, m'; cbn in *; rewrite ?Hm. Qed.

#[export] Instance outcome_fmap_rel : Proper ((RA ==> RB) ==> outcome_rel (E:=E) RA ==> outcome_rel RB) fmap.
Proof. intros f f' Hf m m' Hm. destruct m, m'; cbn in *; try done. by apply Hf. Qed.

#[export] Instance outcome_bind_rel :
  Proper ((RA ==> outcome_rel (E:=E) RB) ==> outcome_rel RA ==> outcome_rel RB) mbind.
Proof. intros f f' Hf m m' Hm. destruct m, m'; cbn in *; try done. by apply Hf. Qed.

Lemma or_panic_rel o o' : option_Forall2 RA o o' → outcome_rel (E:=E) RA (or_panic o) (or_panic o').
Proof. by intros []. Qed.
End outcomes.

Section computations.
Context {St E A B : Type} (RS : relation St) (RA : relation A) (RB : relation B).

#[export] Instance ret_rel : Proper (RA ==> stm_rel (E:=E) RS RA) mret.
Proof. by intros a a' Ha s s' Hs. Qed.

#[export] Instance bind_rel :
  Proper ((RA ==> stm_rel (E:=E) RS RB) ==> stm_rel RS RA ==> stm_rel RS RB) mbind.
Proof.
  intros f f' Hf m m' Hm s s' Hs. destruct (Hm s s' Hs) as [Hr Hs1]. unfold mbind, stm_bind.
  destruct (m s) as [[a|e|] s1], (m' s') as [[a'|e'|] s1']; cbn in *; try done. by apply Hf.
Qed.

#[export] Instance gets_rel : Proper ((RS ==> RA) ==> stm_rel (E:=E) RS RA) gets.
Proof. intros f f' Hf s s' Hs. split; [by apply Hf|done]. Qed.

#[export] Instance modify_rel : Proper ((RS ==> RS) ==> stm_rel (E:=E) RS eq) modify.
Proof. intros f f' Hf s s' Hs. split; [done|by apply Hf]. Qed.

#[export] Instance lift_rel : Proper (outcome_rel RA ==> stm_rel (E:=E) RS RA) lift.
Proof. by intros m m' Hm s s' Hs. Qed.

Lemma throw_rel (e : E) : stm_rel RS RA (throw e) (throw e).
Proof. by intros s s' Hs. Qed.

(** The same test in both runs. *)
Lemma if_rel (b : bool) (m1 m1' m2 m2' : stm St E A) :
  stm_rel RS RA m1 m1' → stm_rel RS RA m2 m2' →
  stm_rel RS RA (if b then m1 else m2) (if b then m1' else m2').
Proof. by destruct b. Qed.
End computations.

(** The method of a field, when reading and writing the field respect the
    relations. *)
#[export] Instance zoom_rel {St F E A} (RS : relation St) (RF : relation F) (RA : relation A) :
  Proper ((RS ==> RF) ==> (RF ==> RS ==> RS) ==> stm_rel (E:=E) RF RA ==> stm_rel RS RA) zoom.
Proof.
  intros get get' Hget set set' Hset m m' Hm s s' Hs. destruct (Hm _ _ (Hget s s' Hs)) as [Hr Hf].
  unfold zoom. destruct (m (get s)) as [r f], (m' (get' s')) as [r' f']. cbn in *. split; [done|by apply Hset].
Qed.

(** One step through the code of two related runs; the relation between the
    results of a bound computation is [RA]. *)
Tactic Notation "rel_bind" uconstr(RA) "as" simple_intropattern(H) := eapply (bind_rel _ RA); [intros ?x ?x' H|].
Tactic Notation "rel_bind" uconstr(RA) := rel_bind RA as ?.
Ltac rel_step :=
  lazymatch goal with
  | |- stm_rel _ _ (mret _) (mret _) => apply ret_rel
  | |- stm_rel _ _ (gets _) (gets _) => apply gets_rel; intros ? ? ?
  | |- stm_rel _ _ (modify _) (modify _) => apply modify_rel; intros ? ? ?
  | |- stm_rel _ _ (lift _) (lift _) => apply lift_rel
  | |- stm_rel _ _ (throw _) (throw _) => apply throw_rel
  end.
