(* ===== verification/IoRead.v ===== *)
(** * IoRead: [std::io::Read] over an in-memory buffer

    The parsers of [internal/protocol] run over [io::Cursor].  A parser is a
    function from the unread bytes to a value and the bytes left.  The class
    [StreamParser] states what the transport's retry loop relies on: a result
    that is not "more bytes needed" does not change when bytes are appended. *)
From S2P Require Import Prelude.

Inductive io_error :=
| UnexpectedEof
| InvalidData (message : rstr)
| OtherIo (message : rstr).
#[export] Instance io_error_eq_dec : EqDecision io_error.
Proof. solve_decision. Defined.

Abbreviation parser A := (list byte → outcome io_error (A * list byte)).

(** [read_exact]: the bytes read and the rest of the input. *)
Definition read_exact (n : nat) : parser (list byte) := fun r =>
  if decide (n ≤ length r)%nat then Ok (take n r, drop n r) else Err UnexpectedEof.

Lemma read_exact_app n bs r :
  length bs = n → read_exact n (bs ++ r) = Ok (bs, r).
Proof.
  intros <-. unfold read_exact. rewrite decide_True by (rewrite length_app; lia).
  by rewrite take_app_length, drop_app_length.
Qed.

Lemma read_exact_ok n r bs r' :
  read_exact n r = Ok (bs, r') ↔ r = bs ++ r' ∧ length bs = n.
Proof.
  split.
  - unfold read_exact. case_decide; intros [=]; subst.
    by rewrite take_drop, length_take, Nat.min_l.
  - intros [-> Hl]. by apply read_exact_app.
Qed.

Lemma read_exact_err n r e :
  read_exact n r = Err e ↔ e = UnexpectedEof ∧ (length r < n)%nat.
Proof.
  unfold read_exact. case_decide; split; try done.
  - intros [_ ?]. lia.
  - intros [= <-]. split; [done|lia].
  - by intros [-> _].
Qed.

(** What the retrying reader in [client/transport.rs] needs of a parser. *)
Class StreamParser {A} (f : parser A) : Prop := {
  sp_ok_mono r a r' s : f r = Ok (a, r') → f (r ++ s) = Ok (a, r' ++ s);
  sp_err_mono r e s : f r = Err e → e ≠ UnexpectedEof → f (r ++ s) = Err e;
  sp_consume r a r' : f r = Ok (a, r') → ∃ c, r = c ++ r';
  sp_no_panic r : f r ≠ Panic;
}.

#[export] Instance sp_ret {A} (a : A) : StreamParser (fun r => Ok (a, r)).
Proof.
  split; try done.
  - by intros r b r' s [= -> ->].
  - intros r b r' [= -> ->]. by exists [].
Qed.

#[export] Instance sp_fail {A} e : StreamParser (A := A) (fun _ => Err e).
Proof. by split. Qed.

#[export] Instance sp_read_exact n : StreamParser (read_exact n).
Proof.
  split.
  - intros r bs r' s [-> Hl]%read_exact_ok. rewrite <-app_assoc. by apply read_exact_app.
  - by intros r e s [-> _]%read_exact_err.
  - intros r bs r' [-> _]%read_exact_ok. eauto.
  - intros r. unfold read_exact. by case_decide.
Qed.

#[export] Instance sp_bind {A B} (f : parser A) (g : A → parser B) :
  StreamParser f → (∀ a, StreamParser (g a)) →
  StreamParser (fun r => '(a, r) ← f r; g a r).
Proof.
  intros Hf Hg. split.
  - intros r b r' s H. apply bind_ok_inv in H as ([a r1] & Ha & Hb).
    rewrite (sp_ok_mono _ _ _ s Ha). cbn. by apply sp_ok_mono.
  - intros r e s H He. apply bind_err_inv in H as [H|([a r1] & Ha & Hb)].
    + by rewrite (sp_err_mono _ _ s H He).
    + rewrite (sp_ok_mono _ _ _ s Ha). cbn. by apply sp_err_mono.
  - intros r b r' H. apply bind_ok_inv in H as ([a r1] & Ha & Hb).
    destruct (sp_consume _ _ _ Ha) as [c1 ->]. destruct (sp_consume _ _ _ Hb) as [c2 ->].
    exists (c1 ++ c2). by rewrite app_assoc.
  - intros r. pose proof (sp_no_panic (f := f) r) as Hn.
    destruct (f r) as [[a r1]| |]; cbn; [apply sp_no_panic|done..].
Qed.

#[export] Instance sp_if {A} (b : bool) (f g : parser A) :
  StreamParser f → StreamParser g → StreamParser (fun r => if b then f r else g r).
Proof. by destruct b. Qed.

(** The laws only depend on the parser's graph. *)
#[export] Instance StreamParser_proper {A} :
  Proper (pointwise_relation _ eq ==> iff) (@StreamParser A).
Proof.
  assert (Hmp : ∀ f g : parser A, (∀ r, f r = g r) → StreamParser f → StreamParser g).
  { intros f g He Hf. split; intros *; rewrite <-!He.
    - apply sp_ok_mono.
    - apply sp_err_mono.
    - apply sp_consume.
    - apply sp_no_panic. }
  intros f g He. split; apply Hmp; [exact He|intros r; symmetry; apply He].
Qed.
