(* ===== verification/RustStr.v ===== *)
(** * RustStr: the [str] and integer-parsing functions the source uses

    A [String] or [&str] is the list of its UTF-8 bytes ([rstr]); [utf8_valid]
    is [String::from_utf8]'s check.  Every pattern the source splits on is
    ASCII, so splitting the bytes is splitting the string. *)
From S2P Require Import Prelude.

Module RustStr.

(** ** UTF-8 validation ([core::str::from_utf8]) *)

Definition in_range (b : byte) (lo hi : Z) : bool := (lo <=? b2z b)%Z && (b2z b <=? hi)%Z.
Definition cont (b : byte) : bool := in_range b 0x80 0xBF.

(** The admissible second byte after a given 3- or 4-byte lead. *)
Definition second3 (b0 b1 : byte) : bool :=
  if (b2z b0 =? 0xE0)%Z then in_range b1 0xA0 0xBF
  else if (b2z b0 =? 0xED)%Z then in_range b1 0x80 0x9F
  else cont b1.
Definition second4 (b0 b1 : byte) : bool :=
  if (b2z b0 =? 0xF0)%Z then in_range b1 0x90 0xBF
  else if (b2z b0 =? 0xF4)%Z then in_range b1 0x80 0x8F
  else cont b1.

Fixpoint utf8_valid (s : rstr) : bool :=
  match s with
  | [] => true
  | b0 :: s =>
    if in_range b0 0x00 0x7F then utf8_valid s
    else if in_range b0 0xC2 0xDF then
      match s with b1 :: s => cont b1 && utf8_valid s | _ => false end
    else if in_range b0 0xE0 0xEF then
      match s with b1 :: b2 :: s => second3 b0 b1 && cont b2 && utf8_valid s | _ => false end
    else if in_range b0 0xF0 0xF4 then
      match s with
      | b1 :: b2 :: b3 :: s => second4 b0 b1 && cont b2 && cont b3 && utf8_valid s
      | _ => false
      end
    else false
  end.

Definition from_utf8 (s : list byte) : option rstr :=
  if utf8_valid s then Some s else None.

(** ** Splitting *)

(** [str::split_once(c)]: around the first [c]. *)
Fixpoint split_once (c : byte) (s : rstr) : option (rstr * rstr) :=
  match s with
  | [] => None
  | b :: s =>
    if decide (b = c) then Some ([], s)
    else '(a, r) ← split_once c s; Some (b :: a, r)
  end.

(** [str::rsplit_once(c)]: around the last [c]. *)
Definition rsplit_once (c : byte) (s : rstr) : option (rstr * rstr) :=
  '(a, r) ← split_once c (reverse s); Some (reverse r, reverse a).

(** [str::split(|b| sep b)]: never empty. *)
Fixpoint split_on (sep : byte → bool) (s : rstr) : list rstr :=
  match s with
  | [] => [[]]
  | b :: s =>
    if sep b then [] :: split_on sep s
    else match split_on sep s with
         | [] => [[b]]
         | p :: ps => (b :: p) :: ps
         end
  end.
Definition split (c : byte) : rstr → list rstr := split_on (fun b => bool_decide (b = c)).

(** [str::strip_prefix] with a string pattern. *)
Fixpoint strip_prefix (p s : rstr) : option rstr :=
  match p, s with
  | [], _ => Some s
  | a :: p, b :: s => if decide (a = b) then strip_prefix p s else None
  | _ :: _, [] => None
  end.

(** [str::split_once] with a string pattern. *)
Fixpoint split_once_str (p s : rstr) : option (rstr * rstr) :=
  match strip_prefix p s with
  | Some r => Some ([], r)
  | None =>
    match s with
    | [] => None
    | b :: s => '(a, r) ← split_once_str p s; Some (b :: a, r)
    end
  end.

Definition contains (c : byte) (s : rstr) : bool := bool_decide (c ∈ s).

(** ** Case *)

Definition to_ascii_lowercase (b : byte) : byte :=
  if in_range b 0x41 0x5A then z2b (b2z b + 32) else b.
Definition eq_ignore_ascii_case (a b : rstr) : bool :=
  bool_decide (to_ascii_lowercase <$> a = to_ascii_lowercase <$> b).

(** [u8::is_ascii_alphanumeric]. *)
Definition is_alnum (b : byte) : bool :=
  in_range b 0x30 0x39 || in_range b 0x41 0x5A || in_range b 0x61 0x7A.

(** ** [str::trim]: Unicode White_Space at both ends *)

(** The encodings of the White_Space characters. *)
Definition ws1 (b : byte) : bool := in_range b 0x09 0x0D || (b2z b =? 0x20)%Z.
Definition ws2 (b0 b1 : byte) : bool :=
  (b2z b0 =? 0xC2)%Z && ((b2z b1 =? 0x85)%Z || (b2z b1 =? 0xA0)%Z).
Definition ws3 (b0 b1 b2 : byte) : bool :=
  let '(x, y, z) := (b2z b0, b2z b1, b2z b2) in
  ((x =? 0xE1) && (y =? 0x9A) && (z =? 0x80)
   || (x =? 0xE2) && (y =? 0x80) && (in_range b2 0x80 0x8A || in_range b2 0xA8 0xA9 || (z =? 0xAF))
   || (x =? 0xE2) && (y =? 0x81) && (z =? 0x9F)
   || (x =? 0xE3) && (y =? 0x80) && (z =? 0x80))%Z.

Fixpoint trim_start (s : rstr) : rstr :=
  match s with
  | b0 :: s1 =>
    if ws1 b0 then trim_start s1
    else match s1 with
    | b1 :: s2 =>
      if ws2 b0 b1 then trim_start s2
      else match s2 with
      | b2 :: s3 => if ws3 b0 b1 b2 then trim_start s3 else s
      | [] => s
      end
    | [] => s
    end
  | [] => []
  end.

(** The same scan over the reversed string. *)
Fixpoint trim_rev (s : rstr) : rstr :=
  match s with
  | b0 :: s1 =>
    if ws1 b0 then trim_rev s1
    else match s1 with
    | b1 :: s2 =>
      if ws2 b1 b0 then trim_rev s2
      else match s2 with
      | b2 :: s3 => if ws3 b2 b1 b0 then trim_rev s3 else s
      | [] => s
      end
    | [] => s
    end
  | [] => []
  end.
Definition trim (s : rstr) : rstr := reverse (trim_rev (reverse (trim_start s))).

(** ** Integers: [str::parse::<uN>] and [to_string] *)

Definition digit (b : byte) : option Z :=
  if in_range b 0x30 0x39 then Some (b2z b - 0x30)%Z else None.

Fixpoint parse_digits (w acc : Z) (s : rstr) : option Z :=
  match s with
  | [] => Some acc
  | b :: s =>
    d ← digit b;
    let acc := (acc * 10 + d)%Z in
    if (acc <? 2 ^ w)%Z then parse_digits w acc s else None
  end.

(** An unsigned [w]-bit integer: an optional ['+'], then at least one digit. *)
Definition parse_uint (w : Z) (s : rstr) : option Z :=
  let s := default s (strip_prefix (lit "+") s) in
  if bool_decide (s = []) then None else parse_digits w 0 s.

(** Decimal digits, most significant first; [fuel] bounds their number. *)
Fixpoint dec_digits (fuel : nat) (z : Z) (acc : rstr) : rstr :=
  match fuel with
  | O => acc
  | S fuel =>
    let acc := z2b (0x30 + z mod 10) :: acc in
    if (z <? 10)%Z then acc else dec_digits fuel (z / 10) acc
  end.
(** 20 digits hold any [u64]. *)
Definition to_dec (z : Z) : rstr := dec_digits 20 z [].

(** ** Laws *)

Lemma split_once_Some c s a r :
  split_once c s = Some (a, r) ↔ s = a ++ c :: r ∧ c ∉ a.
Proof.
  revert a r. induction s as [|b s IH]; intros a r; cbn.
  - split; [done|]. by intros [He%app_cons_not_nil _].
  - case_decide as Hb.
    + subst b. split.
      * intros [= <- <-]. split; [done|apply not_elem_of_nil].
      * intros [He Ha]. destruct a as [|a0 a]; [by injection He as ->|].
        injection He as <- _. by destruct Ha; left.
    + split.
      * destruct (split_once c s) as [[a' r']|] eqn:Hs; cbn; [|done].
        intros [= <- <-]. destruct (proj1 (IH a' r') eq_refl) as [-> Hc]. split; [done|].
        rewrite not_elem_of_cons. split; [by intros ->|done].
      * intros [He Ha]. destruct a as [|a0 a]; [by injection He as ->|].
        injection He as <- ->. apply not_elem_of_cons in Ha as [_ Ha].
        by rewrite (proj2 (IH a r) (conj eq_refl Ha)).
Qed.

Lemma split_once_None c s : split_once c s = None ↔ c ∉ s.
Proof.
  induction s as [|b s IH]; cbn.
  - split; [intros _; apply not_elem_of_nil|done].
  - rewrite not_elem_of_cons. case_decide as Hb; [naive_solver|].
    destruct (split_once c s) as [[a r]|]; naive_solver.
Qed.

Lemma split_once_app c a r : c ∉ a → split_once c (a ++ c :: r) = Some (a, r).
Proof. intros. by apply split_once_Some. Qed.

Lemma rsplit_once_Some c s a r :
  rsplit_once c s = Some (a, r) ↔ s = a ++ c :: r ∧ c ∉ r.
Proof.
  unfold rsplit_once. split.
  - destruct (split_once c (reverse s)) as [[x y]|] eqn:Hs; [|done].
    cbn. intros [= <- <-]. apply split_once_Some in Hs as [Hs Hx].
    apply (f_equal reverse) in Hs. rewrite reverse_involutive in Hs.
    rewrite Hs, reverse_app, reverse_cons, <-app_assoc.
    by rewrite elem_of_reverse.
  - intros [-> Hr]. rewrite reverse_app, reverse_cons, <-app_assoc. cbn.
    rewrite split_once_app by (by rewrite elem_of_reverse).
    cbn. by rewrite !reverse_involutive.
Qed.

Lemma rsplit_once_None c s : rsplit_once c s = None ↔ c ∉ s.
Proof.
  transitivity (c ∉ reverse s); [|by rewrite elem_of_reverse].
  unfold rsplit_once. rewrite <-split_once_None.
  by destruct (split_once c (reverse s)) as [[x y]|].
Qed.

Lemma rsplit_once_app c a r : c ∉ r → rsplit_once c (a ++ c :: r) = Some (a, r).
Proof. intros. by apply rsplit_once_Some. Qed.

Lemma split_on_not_nil sep s : split_on sep s ≠ [].
Proof. destruct s; cbn; [done|]. case_match; [done|]. by case_match. Qed.

Lemma split_on_no_sep sep s : Forall (λ b, sep b = false) s → split_on sep s = [s].
Proof. induction 1 as [|b s Hb Hs IH]; cbn; [done|]. by rewrite Hb, IH. Qed.

Lemma split_on_app sep s c r :
  Forall (λ b, sep b = false) s → sep c = true →
  split_on sep (s ++ c :: r) = s :: split_on sep r.
Proof. intros Hs Hc. induction Hs as [|b s Hb Hs IH]; cbn; [by rewrite Hc|]. by rewrite Hb, IH. Qed.

(** The head of a split is the prefix before the first separator. *)
Lemma split_on_head sep s p ps :
  split_on sep s = p :: ps → Forall (λ b, sep b = false) p ∧ p `prefix_of` s.
Proof.
  revert p ps. induction s as [|b s IH]; intros p ps; cbn.
  - intros [= <- <-]. split; [constructor|apply prefix_nil].
  - destruct (sep b) eqn:Hb.
    + intros [= <- <-]. split; [constructor|apply prefix_nil].
    + destruct (split_on sep s) as [|q qs] eqn:Hs; [by apply split_on_not_nil in Hs|].
      intros [= <- <-]. destruct (IH q qs eq_refl) as [Hq Hp].
      split; [by constructor|by apply prefix_cons].
Qed.

(** The text before the first separator. *)
Fixpoint until (sep : byte → bool) (s : rstr) : rstr :=
  match s with
  | [] => []
  | b :: s => if sep b then [] else b :: until sep s
  end.

Lemma head_split_on sep s : head (split_on sep s) = Some (until sep s).
Proof.
  induction s as [|b s IH]; cbn; [done|]. destruct (sep b); [done|].
  destruct (split_on sep s); [done|]. cbn in *. by injection IH as ->.
Qed.

Lemma until_until f g s : until f (until g s) = until (λ b, f b || g b) s.
Proof.
  induction s as [|b s IH]; cbn; [done|].
  destruct (g b); cbn; [by rewrite orb_true_r|]. rewrite orb_false_r.
  destruct (f b); [done|]. by rewrite IH.
Qed.

Lemma until_ext f g s : (∀ b, f b = g b) → until f s = until g s.
Proof. intros Hfg. induction s as [|b s IH]; cbn; [done|]. by rewrite Hfg, IH. Qed.

Lemma until_no_sep sep s : Forall (λ b, sep b = false) s → until sep s = s.
Proof. induction 1 as [|b s Hb Hs IH]; cbn; [done|]. by rewrite Hb, IH. Qed.

Lemma strip_prefix_Some p s r : strip_prefix p s = Some r ↔ s = p ++ r.
Proof.
  revert s. induction p as [|a p IH]; intros s; cbn; [naive_solver|].
  destruct s as [|b s]; [naive_solver|]. case_decide; [|naive_solver].
  rewrite IH. naive_solver.
Qed.

(** A text is its part before the first separator, and the rest. *)
Lemma until_split sep s :
  ∃ rest, s = until sep s ++ rest ∧ Forall (λ b, sep b = false) (until sep s) ∧
    (rest = [] ∨ ∃ b tl, rest = b :: tl ∧ sep b = true).
Proof.
  induction s as [|b s (rest & Hs & Hn & Hr)]; [exists []; split_and!; [done|constructor|by left]|].
  cbn. destruct (sep b) eqn:Hb.
  - exists (b :: s). split_and!; [done|constructor|]. right. eauto.
  - exists rest. split_and!; [cbn; by rewrite <-Hs|by constructor|done].
Qed.

(** [str::split(c)] in two. *)
Lemma split_two c s a b :
  split c s = [a; b] ↔ s = a ++ c :: b ∧ (c ∉ a) ∧ (c ∉ b).
Proof.
  assert (Hf : ∀ l, c ∉ l → Forall (λ x, bool_decide (x = c) = false) l).
  { intros l Hl. apply Forall_forall. intros x Hx. apply bool_decide_eq_false. by intros ->. }
  unfold split. split.
  - revert a. induction s as [|x s IH]; intros a; cbn; [done|]. case_bool_decide as Hx.
    + subst x. intros [= <- Hs]. pose proof (split_on_head _ _ _ _ Hs) as [Hb _].
      destruct (split_once c s) as [[l r]|] eqn:Ho.
      * apply split_once_Some in Ho as [-> Hl]. rewrite split_on_app in Hs; [|by apply Hf|by apply bool_decide_eq_true].
        injection Hs as _ Hs. by apply split_on_not_nil in Hs.
      * apply split_once_None in Ho. rewrite split_on_no_sep in Hs by by apply Hf. injection Hs as ->.
        split_and!; [done|apply not_elem_of_nil|done].
    + destruct (split_on _ s) as [|q qs] eqn:Hs; [done|]. intros [= <- ->].
      destruct (IH q eq_refl) as (-> & Hq & Hb). split_and!; [done| |done].
      intros [Heq|Hin]%elem_of_cons; [by apply Hx|done].
  - intros (-> & Ha & Hb). rewrite split_on_app; [|by apply Hf|by apply bool_decide_eq_true].
    by rewrite split_on_no_sep by by apply Hf.
Qed.

(** ** [to_string] then [parse] is the identity on unsigned integers *)

Lemma digit_ascii d : (0 ≤ d < 10)%Z → digit (z2b (0x30 + d)) = Some d.
Proof.
  intros Hd. unfold digit, in_range. rewrite b2z_z2b_small by lia.
  bool_cases; cbn; try lia. f_equal. lia.
Qed.

Lemma dec_digits_S fuel z acc :
  dec_digits (S fuel) z acc =
  if (z <? 10)%Z then z2b (0x30 + z mod 10) :: acc
  else dec_digits fuel (z / 10) (z2b (0x30 + z mod 10) :: acc).
Proof. done. Qed.

Lemma parse_dec_digits w fuel z acc :
  (0 ≤ z < 10 ^ Z.of_nat (S fuel))%Z → (z < 2 ^ w)%Z →
  parse_digits w 0 (dec_digits (S fuel) z acc) = parse_digits w z acc.
Proof.
  revert z acc. induction fuel as [|fuel IH]; intros z acc Hz Hw; rewrite dec_digits_S.
  - change (10 ^ Z.of_nat 1)%Z with 10%Z in Hz.
    rewrite (proj2 (Z.ltb_lt z 10)) by lia. cbn [parse_digits].
    rewrite Z.mod_small, digit_ascii by lia.
    cbn [mbind option_bind]. rewrite Z.mul_0_l, Z.add_0_l.
    by rewrite (proj2 (Z.ltb_lt z (2 ^ w))).
  - destruct (Z.ltb_spec z 10).
    + cbn [parse_digits]. rewrite Z.mod_small, digit_ascii by lia.
    cbn [mbind option_bind]. rewrite Z.mul_0_l, Z.add_0_l.
      by rewrite (proj2 (Z.ltb_lt z (2 ^ w))).
    + assert (0 ≤ z / 10 < 10 ^ Z.of_nat (S fuel))%Z.
      { rewrite (Nat2Z.inj_succ (S fuel)), Z.pow_succ_r in Hz by lia.
        split; [apply Z.div_pos|apply Z.div_lt_upper_bound]; lia. }
      rewrite IH; [|done|Z.to_euclidean_division_equations; lia].
      cbn [parse_digits]. pose proof (Z.mod_pos_bound z 10 eq_refl).
      rewrite digit_ascii by lia. cbn [mbind option_bind].
      replace (z / 10 * 10 + z mod 10)%Z with z
        by (Z.to_euclidean_division_equations; lia).
      by rewrite (proj2 (Z.ltb_lt z (2 ^ w))).
Qed.

Lemma dec_digits_head fuel z acc :
  (0 ≤ z)%Z → ∃ d ds, (0 ≤ d < 10)%Z ∧ dec_digits (S fuel) z acc = z2b (0x30 + d) :: ds.
Proof.
  revert z acc. induction fuel as [|fuel IH]; intros z acc Hz; rewrite dec_digits_S.
  - pose proof (Z.mod_pos_bound z 10 eq_refl). case_match; cbn [dec_digits]; eauto.
  - pose proof (Z.mod_pos_bound z 10 eq_refl). case_match; [eauto|].
    apply IH. apply Z.div_pos; lia.
Qed.

Lemma parse_to_dec w z :
  (0 ≤ z < 2 ^ 64)%Z → (z < 2 ^ w)%Z → parse_uint w (to_dec z) = Some z.
Proof.
  intros Hz Hw. unfold parse_uint, to_dec.
  destruct (dec_digits_head 19 z [] ltac:(lia)) as (d & ds & Hd & He).
  assert (Hp : strip_prefix (lit "+") (dec_digits 20 z []) = None).
  { rewrite He. change (lit "+") with [x2b]. cbn.
    rewrite decide_False; [done|]. intros Hc. apply (f_equal b2z) in Hc.
    rewrite b2z_z2b_small in Hc by lia. change (b2z x2b) with 43%Z in Hc. lia. }
  rewrite Hp. cbn [default]. rewrite bool_decide_eq_false_2 by (by rewrite He).
  by rewrite parse_dec_digits by (cbn; lia).
Qed.

Lemma dec_digits_ascii fuel z acc :
  Forall (λ b, in_range b 0x30 0x39 = true) acc →
  Forall (λ b, in_range b 0x30 0x39 = true) (dec_digits fuel z acc).
Proof.
  revert z acc. induction fuel as [|fuel IH]; intros z acc Hacc; [done|].
  rewrite dec_digits_S.
  assert (in_range (z2b (0x30 + z mod 10)) 0x30 0x39 = true).
  { pose proof (Z.mod_pos_bound z 10 eq_refl). unfold in_range.
    rewrite b2z_z2b_small by lia. apply andb_true_iff. lia. }
  destruct (z <? 10)%Z; [by constructor|]. apply IH. by constructor.
Qed.

Lemma digit_range b d : digit b = Some d → (0 ≤ d < 10)%Z.
Proof.
  unfold digit, in_range. destruct (_ && _) eqn:H; [|done]. intros [= <-].
  apply andb_true_iff in H. lia.
Qed.

Lemma parse_digits_range w acc s z :
  (0 ≤ acc < 2 ^ w)%Z → parse_digits w acc s = Some z → is_u w z.
Proof.
  revert acc. induction s as [|b s IH]; intros acc Ha; cbn [parse_digits].
  - by intros [= <-].
  - destruct (digit b) as [d|] eqn:Hd; cbn [mbind option_bind]; [|done].
    apply digit_range in Hd. destruct (Z.ltb_spec (acc * 10 + d) (2 ^ w)); [|done].
    apply IH. lia.
Qed.

Lemma parse_uint_range w s z : (0 ≤ w)%Z → parse_uint w s = Some z → is_u w z.
Proof.
  intros Hw. unfold parse_uint. case_bool_decide; [done|]. apply parse_digits_range.
  split; [done|]. apply Z.pow_pos_nonneg; lia.
Qed.
End RustStr.
