(* ===== verification/Errors.v ===== *)
(** * Errors: the error types and the categories that cross the FFI wall

    Models [hysteria/src/errors.rs] (the protocol's error types and their
    [Display] text), [client/connect_error.rs] ([ConnectFailure] and its map to
    a category) and the [conn-error] crate ([ConnError], the stable integer
    codes). A boxed cause is the text it displays. *)
From S2P Require Import Prelude RustStr.
Local Open Scope Z_scope.

Module Errors.
Import RustStr.

(** ** [errors.rs] *)

Record ConfigError := { field : rstr; reason : rstr }.
#[export] Instance ConfigError_eq_dec : EqDecision ConfigError.
Proof. solve_decision. Defined.
Record ConnectError := { connect_err : rstr }.
Record AuthError := { status_code : Z }.
Record DialError := { dial_message : rstr }.
Record ClosedError := { closed_err : option rstr }.
Record ProtocolError := { protocol_message : rstr }.

(** [Display] of an [i32]. *)
Definition i32_to_string (z : Z) : rstr :=
  if z <? 0 then lit "-" ++ to_dec (- z) else to_dec z.

Definition config_error_display (e : ConfigError) : rstr :=
  lit "invalid config: " ++ field e ++ lit ": " ++ reason e.
Definition connect_error_display (e : ConnectError) : rstr :=
  lit "connect error: " ++ connect_err e.
Definition auth_error_display (e : AuthError) : rstr :=
  lit "authentication error, HTTP status code: " ++ i32_to_string (status_code e).
Definition dial_error_display (e : DialError) : rstr :=
  lit "dial error: " ++ dial_message e.
Definition protocol_error_display (e : ProtocolError) : rstr :=
  lit "protocol error: " ++ protocol_message e.
Definition closed_error_display (e : ClosedError) : rstr :=
  match closed_err e with
  | None => lit "connection closed"
  | Some err => lit "connection closed: " ++ err
  end.

Definition closed_error_source (e : ClosedError) : option rstr := closed_err e.

(** ** [anyhow]

    An error is the chain of its messages, the outermost first: [context] puts a
    message in front of a cause, and of a chain. *)
Definition chain : Type := list rstr.
Definition context {A} (c : rstr) (m : outcome rstr A) : outcome chain A := map_err (λ e, [c; e]) m.
Definition wrap_err {A} (c : rstr) (m : outcome chain A) : outcome chain A := map_err (cons c) m.

(** ** [conn-error] *)

Inductive ConnError := Unknown | AuthFailed | ServerUnreachable | Timeout.
#[export] Instance ConnError_eq_dec : EqDecision ConnError.
Proof. solve_decision. Defined.

Definition default_conn_error : ConnError := Unknown.

Definition code (e : ConnError) : Z :=
  match e with Unknown => 0 | AuthFailed => 1 | ServerUnreachable => 2 | Timeout => 4 end.

Definition from_code (c : Z) : ConnError :=
  if c =? 1 then AuthFailed
  else if c =? 2 then ServerUnreachable
  else if c =? 4 then Timeout
  else Unknown.

Definition conn_error_display (e : ConnError) : rstr :=
  match e with
  | Unknown => lit "unknown error"
  | AuthFailed => lit "authentication failed"
  | ServerUnreachable => lit "server unreachable"
  | Timeout => lit "connection timed out"
  end.

(** ** [connect_error.rs] *)

Inductive ConnectFailure :=
| FConfig (cause : rstr)
| FUnreachable (cause : rstr)
| FTimeout (cause : rstr)
| FAuth (cause : rstr).

Definition connect_failure_display (f : ConnectFailure) : rstr :=
  match f with
  | FConfig c => lit "invalid configuration: " ++ c
  | FUnreachable c => lit "server unreachable: " ++ c
  | FTimeout c => lit "connection timed out: " ++ c
  | FAuth c => lit "authentication failed: " ++ c
  end.

Definition from_failure (f : ConnectFailure) : ConnError :=
  match f with
  | FConfig _ => Unknown
  | FUnreachable _ => ServerUnreachable
  | FTimeout _ => Timeout
  | FAuth _ => AuthFailed
  end.

(** The code of an error identifies it, and reading any integer back yields
    the error it is the code of, [Unknown] when there is none. *)
Lemma from_code_spec c :
  from_code c = match find (λ e, code e =? c) [AuthFailed; ServerUnreachable; Timeout] with
                | Some e => e
                | None => Unknown
                end.
Proof.
  unfold from_code. cbn [find code]. rewrite (Z.eqb_sym 1), (Z.eqb_sym 2), (Z.eqb_sym 4).
  by repeat case_match.
Qed.

Lemma from_code_code e : from_code (code e) = e.
Proof. by destruct e. Qed.

Lemma from_code_inj c : code (from_code c) = c ∨ from_code c = Unknown.
Proof. unfold from_code. bool_cases; subst; auto. Qed.

End Errors.
