(* ===== verification/Profile.v ===== *)
(** * Profile: the parsed connection profile

    Models the [profile] crate: the data every other component is built from
    and the hand-written [Debug] output. The [serde] implementations are
    derived; the store takes them as an interface. *)
From S2P Require Import Prelude.

#[local] Set Warnings "-register-all".

Module Profile.

Record Tls := { sni : rstr }.
#[export] Instance Tls_eq_dec : EqDecision Tls.
Proof. solve_decision. Defined.

Record Obfs := { obfs_type : rstr; password : rstr }.
#[export] Instance Obfs_eq_dec : EqDecision Obfs.
Proof. solve_decision. Defined.

Record Profile := {
  server : rstr;
  auth : rstr;
  tls : Tls;
  obfs : option Obfs;
  fast_open : bool;
}.
#[export] Instance Profile_eq_dec : EqDecision Profile.
Proof. solve_decision. Defined.

(** [Profile::default]. *)
Definition default_profile : Profile :=
  {| server := []; auth := []; tls := {| sni := [] |}; obfs := None; fast_open := false |}.

(** What a [Debug] implementation hands the formatter: a value whose own
    [Debug] is printed, a nested struct, or an option. *)
Inductive debug :=
| DebugValue (A : Type) (a : A)
| DebugStruct (name : rstr) (fields : list (rstr * debug))
| DebugOption (o : option debug).

Definition redacted : debug := DebugValue rstr (lit "<redacted>").

Definition debug_tls (t : Tls) : debug :=
  DebugStruct (lit "Tls") [(lit "sni", DebugValue rstr (sni t))].

Definition debug_obfs (o : Obfs) : debug :=
  DebugStruct (lit "Obfs")
    [(lit "obfs_type", DebugValue rstr (obfs_type o)); (lit "password", redacted)].

Definition debug_profile (p : Profile) : debug :=
  DebugStruct (lit "Profile")
    [(lit "server", DebugValue rstr (server p));
     (lit "auth", redacted);
     (lit "tls", debug_tls (tls p));
     (lit "obfs", DebugOption (debug_obfs <$> obfs p));
     (lit "fast_open", DebugValue bool (fast_open p))].

(** Two profiles an observer without the secrets cannot tell apart. *)
Definition same_public (p q : Profile) : Prop :=
  server p = server q ∧ tls p = tls q ∧ fast_open p = fast_open q ∧
  (obfs_type <$> obfs p) = (obfs_type <$> obfs q).

(** The [Debug] output is a function of the public fields. *)
Lemma debug_profile_public p q : same_public p q → debug_profile p = debug_profile q.
Proof.
  intros (Hs & Ht & Hf & Ho). unfold debug_profile. rewrite Hs, Ht, Hf.
  destruct (obfs p), (obfs q); cbn in *; simplify_eq; unfold debug_obfs; congruence.
Qed.

End Profile.
