(* ===== verification/Varint.v ===== *)
(** * Varint: the QUIC variable-length integer codec

    Models [crates/hysteria/src/internal/protocol/varint.rs]: [len], [put] and
    [read], with slices that panic out of range.  [encode] is the RFC 9000
    wire format written as a reference function; [put] is proved to write it
    and [read] to invert it. *)
From S2P Require Import Prelude IoRead.
Local Open Scope Z_scope.

Module Varint.

Definition MAX_VAR_INT1 : Z := 63.
Definition MAX_VAR_INT2 : Z := 16383.
Definition MAX_VAR_INT4 : Z := 1073741823.
Definition MAX_VAR_INT8 : Z := 4611686018427387903.

Definition len (i : Z) : nat :=
  if i <=? MAX_VAR_INT1 then 1
  else if i <=? MAX_VAR_INT2 then 2
  else if i <=? MAX_VAR_INT4 then 4
  else 8.

(** [(i >> n) as u8]. *)
Definition shr8 (i n : Z) : byte := z2b (Z.shiftr i n).

(** [x | tag] on bytes. *)
Definition orb8 (x : byte) (tag : Z) : byte := z2b (Z.lor (b2z x) tag).

Definition put {E} (b : list byte) (i : Z) : outcome E (list byte * nat) :=
  if i <=? MAX_VAR_INT1 then
    b ← set_at 0 (z2b i) b; mret (b, 1%nat)
  else if i <=? MAX_VAR_INT2 then
    b ← set_at 0 (orb8 (shr8 i 8) 0x40) b;
    b ← set_at 1 (z2b i) b; mret (b, 2%nat)
  else if i <=? MAX_VAR_INT4 then
    b ← set_at 0 (orb8 (shr8 i 24) 0x80) b;
    b ← set_at 1 (shr8 i 16) b;
    b ← set_at 2 (shr8 i 8) b;
    b ← set_at 3 (z2b i) b; mret (b, 4%nat)
  else if i <=? MAX_VAR_INT8 then
    b ← set_at 0 (orb8 (shr8 i 56) 0xc0) b;
    b ← set_at 1 (shr8 i 48) b;
    b ← set_at 2 (shr8 i 40) b;
    b ← set_at 3 (shr8 i 32) b;
    b ← set_at 4 (shr8 i 24) b;
    b ← set_at 5 (shr8 i 16) b;
    b ← set_at 6 (shr8 i 8) b;
    b ← set_at 7 (z2b i) b; mret (b, 8%nat)
  else Panic.

(** The loop [for _ in 1..length] of [read]; [u64] shifts drop high bits. *)
Fixpoint read_rest (n : nat) (value : Z) (r : list byte) : outcome io_error (Z * list byte) :=
  match n with
  | O => Ok (value, r)
  | S n =>
    '(byte, r) ← read_exact 1 r;
    read_rest n (Z.lor (wrap 64 (Z.shiftl value 8)) (b2z (hd x00 byte))) r
  end.

Definition read (r : list byte) : outcome io_error (Z * list byte) :=
  '(first, r) ← read_exact 1 r;
  let f := b2z (hd x00 first) in
  let length := Z.shiftl 1 (Z.shiftr (Z.land f 0xc0) 6) in
  read_rest (Z.to_nat (length - 1)) (Z.land f 0x3f) r.

(** ** The wire format as a reference function *)

(** The two tag bits of a [len i]-byte encoding. *)
Definition tag (i : Z) : Z :=
  if i <=? MAX_VAR_INT1 then 0
  else if i <=? MAX_VAR_INT2 then 1
  else if i <=? MAX_VAR_INT4 then 2
  else 3.

(** RFC 9000, section 16: big-endian with the tag in the two top bits. *)
Definition encode (i : Z) : list byte :=
  to_be (len i) (tag i * 2 ^ (8 * Z.of_nat (len i) - 2) + i).

Lemma length_encode i : length (encode i) = len i.
Proof. apply length_to_be. Qed.

Lemma len_cases i :
  (len i = 1 ∨ len i = 2 ∨ len i = 4 ∨ len i = 8)%nat.
Proof. unfold len. bool_cases; auto. Qed.

Lemma len_pos i : (1 ≤ len i ≤ 8)%nat.
Proof. destruct (len_cases i) as [->|[->|[->| ->]]]; lia. Qed.

(** ** [put] writes [encode] *)

Lemma set_at_cons {E} k x c b :
  @set_at E byte (S k) x (c :: b) = b' ← set_at k x b; mret (c :: b').
Proof. unfold set_at. cbn [length]. do 2 case_decide; done || lia. Qed.

Lemma set_at_0 {E} x c b : @set_at E byte 0 x (c :: b) = Ok (x :: b).
Proof. done. Qed.

Lemma orb8_tag x t :
  0 ≤ x < 64 → 0 ≤ t < 4 → orb8 (z2b x) (t * 64) = z2b (t * 64 + x).
Proof.
  intros Hx Ht. unfold orb8. rewrite b2z_z2b_small, Z.lor_comm by lia.
  change 64 with (2 ^ 6). rewrite <-(Z.shiftl_mul_pow2 t 6), lor_shiftl_add by lia.
  by rewrite Z.shiftl_mul_pow2 by lia.
Qed.

Lemma z2b_mod_eq a b : a mod 256 = b mod 256 → z2b a = z2b b.
Proof. unfold z2b. by intros ->. Qed.

(** Bytes above the width of [to_be] do not matter. *)
Lemma to_be_tagged k a i : to_be k (a * 256 ^ Z.of_nat k + i) = to_be k i.
Proof.
  enough (∀ j, (j ≤ k)%nat → to_be j (a * 256 ^ Z.of_nat k + i) = to_be j i) by eauto.
  induction j as [|j IH]; intros Hj; cbn [to_be]; [done|].
  rewrite IH by lia. f_equal. apply z2b_mod_eq.
  replace (Z.of_nat k) with ((Z.of_nat k - Z.of_nat j - 1) + 1 + Z.of_nat j) by lia.
  rewrite !Z.pow_add_r, Z.mul_assoc, Z.div_add_l by lia.
  change (256 ^ 1) with 256. by rewrite Z.mul_assoc, Z.add_comm, Z_mod_plus_full.
Qed.

(** The first byte carries the tag and the high bits, the others are plain. *)
Lemma encode_cons i k :
  len i = S k → encode i = z2b (tag i * 64 + i / 256 ^ Z.of_nat k) :: to_be k i.
Proof.
  intros Hl. unfold encode. rewrite Hl. cbn [to_be].
  replace (2 ^ (8 * Z.of_nat (S k) - 2)) with (64 * 256 ^ Z.of_nat k).
  - rewrite Z.mul_assoc, to_be_tagged, Z.div_add_l by (apply Z.pow_nonzero; lia). done.
  - change 64 with (2 ^ 6). change 256 with (2 ^ 8).
    rewrite <-Z.pow_mul_r, <-Z.pow_add_r by lia. f_equal. lia.
Qed.

Lemma shr8_div i k : shr8 i (8 * Z.of_nat k) = z2b (i / 256 ^ Z.of_nat k).
Proof.
  unfold shr8. change 256 with (2 ^ 8). rewrite <-Z.pow_mul_r by lia.
  by rewrite Z.shiftr_div_pow2 by lia.
Qed.

Lemma orb8_shr8 i k t :
  0 ≤ i < 64 * 256 ^ Z.of_nat k → 0 ≤ t < 4 →
  orb8 (shr8 i (8 * Z.of_nat k)) (t * 64) = z2b (t * 64 + i / 256 ^ Z.of_nat k).
Proof.
  intros Hi Ht. rewrite shr8_div. apply orb8_tag; [|done].
  assert (0 < 256 ^ Z.of_nat k) by (apply Z.pow_pos_nonneg; lia).
  split; [apply Z.div_pos; lia|apply Z.div_lt_upper_bound; lia].
Qed.

Ltac set_cells :=
  repeat (rewrite ?set_at_0, ?set_at_cons, ?bind_ret_l; cbn [mbind outcome_bind]).

Lemma put_encode {E} b i :
  0 ≤ i ≤ MAX_VAR_INT8 → (len i ≤ length b)%nat →
  @put E b i = Ok (encode i ++ drop (len i) b, len i).
Proof.
  intros Hi Hl. pose proof (encode_cons i) as He.
  unfold put, len, tag, MAX_VAR_INT1, MAX_VAR_INT2, MAX_VAR_INT4, MAX_VAR_INT8 in *.
  bool_cases; try lia.
  - destruct b as [|? b]; [cbn in Hl; lia|]. set_cells. rewrite (He 0%nat eq_refl).
    by rewrite Z.div_1_r.
  - do 2 (destruct b as [|? b]; [cbn in Hl; lia|]). set_cells.
    rewrite (He 1%nat eq_refl). cbn [to_be]. rewrite <-(orb8_shr8 i 1 1) by lia.
    by rewrite Z.div_1_r.
  - do 4 (destruct b as [|? b]; [cbn in Hl; lia|]). set_cells.
    rewrite (He 3%nat eq_refl). cbn [to_be]. rewrite <-(orb8_shr8 i 3 2), <-!shr8_div by lia.
    unfold shr8. by rewrite Z.shiftr_0_r.
  - do 8 (destruct b as [|? b]; [cbn in Hl; lia|]). set_cells.
    rewrite (He 7%nat eq_refl). cbn [to_be]. rewrite <-(orb8_shr8 i 7 3), <-!shr8_div by lia.
    unfold shr8. by rewrite Z.shiftr_0_r.
Qed.

(** ** [read] inverts [encode] *)

Lemma land_low6 f : Z.land f 0x3f = f mod 64.
Proof. change 0x3f with (Z.ones 6). by rewrite Z.land_ones. Qed.

Lemma shr_top2 f : 0 ≤ f < 256 → Z.shiftr (Z.land f 0xc0) 6 = f / 64.
Proof.
  intros Hf. rewrite Z.shiftr_land. change (Z.shiftr 0xc0 6) with (Z.ones 2).
  rewrite Z.land_ones, Z.shiftr_div_pow2 by lia. change (2 ^ 6) with 64.
  apply Z.mod_small. split; [apply Z.div_pos|apply Z.div_lt_upper_bound]; lia.
Qed.

Lemma from_be_acc_bound bs v :
  0 ≤ v → v ≤ from_be_acc v bs < (v + 1) * 256 ^ Z.of_nat (length bs).
Proof.
  revert v. induction bs as [|b bs IH]; intros v Hv; cbn [from_be_acc length]; [lia|].
  pose proof (b2z_range b). specialize (IH (v * 256 + b2z b) ltac:(lia)).
  rewrite Nat2Z.inj_succ, Z.pow_succ_r by lia.
  assert (0 < 256 ^ Z.of_nat (length bs)) by (apply Z.pow_pos_nonneg; lia). nia.
Qed.

Lemma read_rest_app bs v r :
  0 ≤ v → (v + 1) * 256 ^ Z.of_nat (length bs) ≤ 2 ^ 64 →
  read_rest (length bs) v (bs ++ r) = Ok (from_be_acc v bs, r).
Proof.
  revert v. induction bs as [|b bs IH]; intros v Hv Hb; cbn [length read_rest from_be_acc] in *; [done|].
  rewrite Nat2Z.inj_succ, Z.pow_succ_r in Hb by lia.
  assert (0 < 256 ^ Z.of_nat (length bs)) by (apply Z.pow_pos_nonneg; lia).
  pose proof (b2z_range b).
  change ((b :: bs) ++ r) with ([b] ++ (bs ++ r)).
  rewrite read_exact_app by done. cbn [mbind outcome_bind hd].
  unfold wrap. rewrite Z.shiftl_mul_pow2, Z.mod_small by nia.
  rewrite <-Z.shiftl_mul_pow2, lor_shiftl_add by lia.
  apply IH; nia.
Qed.

Lemma read_tagged t h bs r :
  0 ≤ t < 4 → 0 ≤ h < 64 → length bs = Z.to_nat (2 ^ t - 1) →
  read (z2b (t * 64 + h) :: bs ++ r) = Ok (from_be_acc h bs, r).
Proof.
  intros Ht Hh Hl. unfold read.
  change (?b :: bs ++ r) with ([b] ++ (bs ++ r)).
  rewrite read_exact_app by done. cbn [mbind outcome_bind hd].
  rewrite b2z_z2b_small by lia. rewrite shr_top2, land_low6 by lia.
  replace ((t * 64 + h) / 64) with t by (Z.to_euclidean_division_equations; lia).
  replace ((t * 64 + h) mod 64) with h by (Z.to_euclidean_division_equations; lia).
  rewrite Z.shiftl_1_l, <-Hl. apply read_rest_app; [lia|]. rewrite Hl.
  assert (t = 0 ∨ t = 1 ∨ t = 2 ∨ t = 3) as [->|[->|[->| ->]]] by lia;
    match goal with |- _ * ?p ≤ _ => let v := eval vm_compute in p in change p with v end;
    lia.
Qed.

(** [len] and [tag] agree: the tag is the logarithm of the length. *)
Lemma len_tag i : len i = S (Z.to_nat (2 ^ tag i - 1)) ∧ 0 ≤ tag i < 4.
Proof. unfold len, tag. bool_cases; cbn; lia. Qed.

Lemma encode_high i :
  0 ≤ i ≤ MAX_VAR_INT8 → 0 ≤ i / 256 ^ Z.of_nat (pred (len i)) < 64.
Proof.
  unfold len, MAX_VAR_INT1, MAX_VAR_INT2, MAX_VAR_INT4, MAX_VAR_INT8. intros Hi.
  bool_cases; cbn [pred]; (split; [apply Z.div_pos|apply Z.div_lt_upper_bound]);
    try lia; cbn; lia.
Qed.

Lemma read_encode i r :
  0 ≤ i ≤ MAX_VAR_INT8 → read (encode i ++ r) = Ok (i, r).
Proof.
  intros Hi. destruct (len_tag i) as [Hl Ht]. set (k := Z.to_nat _) in Hl.
  rewrite (encode_cons i k Hl). pose proof (encode_high i Hi) as Hh.
  rewrite Hl in Hh. cbn [pred] in Hh.
  change ((?b :: ?l) ++ r) with (b :: l ++ r).
  rewrite read_tagged by (done || apply length_to_be).
  f_equal. f_equal. rewrite from_be_acc_to_be, Z.mul_comm.
  symmetry. apply Z.div_mod. apply Z.pow_nonzero; lia.
Qed.

#[export] Instance sp_read_rest n v : StreamParser (read_rest n v).
Proof.
  revert v. induction n as [|n IH]; intros v; cbn [read_rest]; [apply sp_ret|].
  apply (sp_bind (read_exact 1) (fun b => read_rest n _)); [apply _|eauto].
Qed.

#[export] Instance sp_read : StreamParser read.
Proof.
  apply (sp_bind (read_exact 1) (fun first => read_rest _ _)); [apply _|].
  intros. apply sp_read_rest.
Qed.

(** A read value is the 6 low bits of the first byte followed by the rest. *)
Lemma read_rest_ok n v r x r' :
  (0 ≤ v)%Z → (v + 1) * 256 ^ Z.of_nat n ≤ 2 ^ 64 →
  read_rest n v r = Ok (x, r') →
  ∃ bs, r = bs ++ r' ∧ length bs = n ∧ x = from_be_acc v bs.
Proof.
  intros Hv Hb H.
  destruct (decide (n ≤ length r)%nat) as [Hle|Hlt].
  - exists (take n r). rewrite <-(take_drop n r) in H.
    assert (Ht : length (take n r) = n) by (rewrite length_take; lia).
    rewrite <-Ht in H at 1. rewrite read_rest_app in H by (rewrite ?Ht; lia).
    injection H as <- <-. by rewrite take_drop.
  - exfalso. clear Hb Hv. revert v r H Hlt.
    induction n as [|n IH]; intros v r H Hlt; [cbn in Hlt; lia|].
    cbn [read_rest] in H. apply bind_ok_inv in H as ([b r1] & Hr & H).
    apply read_exact_ok in Hr as [-> Hl]. rewrite length_app in Hlt.
    apply IH in H; [done|lia].
Qed.

Lemma read_ok r x r' :
  read r = Ok (x, r') →
  ∃ c, r = c ++ r' ∧ 0 ≤ x ≤ MAX_VAR_INT8 ∧
    (length c = 1 ∨ length c = 2 ∨ length c = 4 ∨ length c = 8)%nat.
Proof.
  unfold read. intros H. apply bind_ok_inv in H as ([first r1] & Hr & H).
  apply read_exact_ok in Hr as [-> Hl].
  destruct first as [|b [|]]; try discriminate Hl. cbn [hd] in H.
  pose proof (b2z_range b) as Hb. rewrite shr_top2, land_low6 in H by lia.
  assert (Ht : 0 ≤ b2z b / 64 < 4) by (Z.to_euclidean_division_equations; lia).
  assert (Hh : 0 ≤ b2z b mod 64 < 64) by (apply Z.mod_pos_bound; lia).
  set (t := b2z b / 64) in *. set (h := b2z b mod 64) in *. rewrite Z.shiftl_1_l in H.
  assert (Hw : (h + 1) * 256 ^ Z.of_nat (Z.to_nat (2 ^ t - 1)) ≤ 2 ^ 62).
  { assert (t = 0 ∨ t = 1 ∨ t = 2 ∨ t = 3) as [->|[->|[->| ->]]] by lia;
      match goal with |- _ * ?p ≤ _ => let v := eval vm_compute in p in change p with v end;
      lia. }
  apply read_rest_ok in H as (bs & -> & Hn & ->); [|lia..].
  exists ([b] ++ bs). rewrite app_assoc. split; [done|split].
  - pose proof (from_be_acc_bound bs h ltac:(lia)) as [Hlo Hhi]. rewrite Hn in Hhi.
    unfold MAX_VAR_INT8. lia.
  - cbn [length app]. rewrite Hn.
    assert (t = 0 ∨ t = 1 ∨ t = 2 ∨ t = 3) as [->|[->|[->| ->]]] by lia; cbn; auto.
Qed.

Lemma read_err r e : read r = Err e → e = UnexpectedEof.
Proof.
  assert (Hr : ∀ n v r e, read_rest n v r = Err e → e = UnexpectedEof).
  { induction n as [|n IH]; intros v s e'; cbn [read_rest]; [done|].
    intros H. apply bind_err_inv in H as [H|([b r1] & _ & H)]; [|eauto].
    by apply read_exact_err in H as [-> _]. }
  intros H. apply bind_err_inv in H as [H|([b r1] & _ & H)]; [|eauto].
  by apply read_exact_err in H as [-> _].
Qed.

Lemma put_panic {E} b i :
  0 ≤ i → (MAX_VAR_INT8 < i ∨ (length b < len i)%nat) → @put E b i = Panic.
Proof.
  intros Hi H. unfold put, len in *.
  unfold MAX_VAR_INT1, MAX_VAR_INT2, MAX_VAR_INT4, MAX_VAR_INT8 in *.
  bool_cases; try done; try lia.
  all: do 8 (destruct b as [|? b]; [done|cbn [length] in H; try lia]).
Qed.

(** ** Properties *)

(** [put] either writes exactly the RFC 9000 encoding of the value into the
    front of the slice, leaving the rest alone, or panics; it panics exactly
    when the value needs more than 62 bits or the slice is shorter than
    [len]. *)
Theorem put_spec (b : list byte) (i : Z) (Hi : is_u 64 i) :
  @put io_error b i =
  if decide (i ≤ MAX_VAR_INT8 ∧ (len i ≤ length b)%nat)
  then Ok (encode i ++ drop (len i) b, len i) else Panic.
Proof.
  destruct Hi as [Hi _]. case_decide as H.
  - apply put_encode; lia.
  - apply put_panic; lia.
Qed.

Lemma put_spec_witness :
  is_u 64 494878333 ∧
  @put io_error (replicate 5 x00) 494878333 = Ok ([x9d; x7f; x3e; x7d; x00], 4%nat).
Proof.
  split; [by vm_compute|].
  rewrite (put_spec (replicate 5 x00) 494878333); [|by vm_compute].
  vm_compute. reflexivity.
Defined.

(** A value put at the front of a buffer is read back, with whatever
    follows the encoding left unread. *)
Theorem put_read_roundtrip (b : list byte) (i : Z)
    (Hi : 0 ≤ i ≤ MAX_VAR_INT8) (Hb : (len i ≤ length b)%nat) :
  ∃ b' n, @put io_error b i = Ok (b', n) ∧ n = len i ∧ length b' = length b ∧
    read b' = Ok (i, drop n b).
Proof.
  exists (encode i ++ drop (len i) b), (len i). split_and!; [by apply put_encode|done| |].
  - rewrite length_app, length_encode, length_drop. lia.
  - by apply read_encode.
Qed.

Lemma put_read_roundtrip_witness :
  ∃ b', @put io_error [x01; x02; x03] 15293 = Ok (b', 2%nat) ∧ read b' = Ok (15293, [x03]).
Proof.
  destruct (put_read_roundtrip [x01; x02; x03] 15293) as (b' & n & Hp & -> & _ & Hr).
  - vm_compute. split; discriminate.
  - vm_compute. repeat constructor.
  - exists b'. split; [exact Hp|exact Hr].
Defined.

(** [read] is total: it yields a 62-bit value after consuming 1, 2, 4 or 8
    bytes, or reports the end of input; it neither panics nor fails otherwise. *)
Theorem read_total (r : list byte) :
  match read r with
  | Ok (v, r') => 0 ≤ v ≤ MAX_VAR_INT8 ∧ ∃ c, r = c ++ r' ∧
      (length c = 1 ∨ length c = 2 ∨ length c = 4 ∨ length c = 8)%nat
  | Err e => e = UnexpectedEof
  | Panic => False
  end.
Proof.
  destruct (read r) as [[v r']|e|] eqn:Hr.
  - apply read_ok in Hr as (c & -> & Hv & Hl). eauto.
  - by apply read_err in Hr.
  - by apply sp_no_panic in Hr.
Qed.
End Varint.
