(* ===== verification/Proxy.v ===== *)
(** * Proxy: TCP request/response framing and UDP messages

    Models [internal/protocol/padding.rs] ([Padding]) and
    [internal/protocol/proxy.rs]: [write_tcp_request], [read_tcp_response],
    [UdpMessage] with [header_size]/[size]/[serialize], and
    [parse_udp_message].  Buffers are byte lists updated in place; slicing and
    indexing panic out of range. *)
From S2P Require Import Prelude IoRead RustStr Varint.

Module Padding.
Definition PADDING_CHARS : list byte :=
  lit "abcdefghijklmnopqrstuvwxyzABCDEFGHIJKLMNOPQRSTUVWXYZ0123456789".

Record Padding := { min : nat; max : nat }.

Definition pick (d : Z) : byte :=
  nth (Z.to_nat (random_range 0 (Z.of_nat (length PADDING_CHARS)) d)) PADDING_CHARS x00.

(** [string]: draw 0 picks the length, the later draws the characters. *)
Definition string (p : Padding) (rng : nat → Z) : rstr :=
  let extra := max p - min p in
  let n := min p + (if decide (extra = 0) then 0
                    else Z.to_nat (random_range 0 (Z.of_nat extra) (rng 0))) in
  (λ k, pick (rng (S k))) <$> seq 0 n.

Definition AUTH_REQUEST_PADDING : Padding := {| min := 256; max := 2048 |}.
Definition TCP_REQUEST_PADDING : Padding := {| min := 64; max := 512 |}.

Lemma pick_in d : pick d ∈ PADDING_CHARS.
Proof.
  unfold pick. apply list_elem_of_In, nth_In.
  pose proof (random_range_bound 0 (Z.of_nat (length PADDING_CHARS)) d eq_refl). lia.
Qed.

Lemma string_spec p rng :
  Forall (.∈ PADDING_CHARS) (string p rng) ∧ min p ≤ length (string p rng) ∧
  (min p < max p → length (string p rng) < max p) ∧
  (max p ≤ min p → length (string p rng) = min p).
Proof.
  split_and!.
  - apply Forall_fmap, Forall_forall. intros k _. apply pick_in.
  - unfold string. rewrite length_fmap, length_seq. lia.
  - intros H. unfold string. rewrite length_fmap, length_seq, decide_False by lia.
    pose proof (random_range_bound 0 (Z.of_nat (max p - min p)) (rng 0) ltac:(lia)). lia.
  - intros H. unfold string. rewrite length_fmap, length_seq, decide_True by lia. lia.
Qed.
End Padding.

Module Proxy.
Import RustStr Varint.

Definition FRAME_TYPE_TCP_REQUEST : Z := 0x401.
Definition MAX_MESSAGE_LENGTH : Z := 2048.
Definition MAX_PADDING_LENGTH : Z := 4096.
Definition MAX_UDP_SIZE : nat := 4096.

(** [ProtocolError { message }.into()]: an [io::Error] of kind [InvalidData]. *)
Definition protocol_error {A} (message : string) : outcome io_error A :=
  Err (InvalidData (lit message)).

Definition discard_exact (n : Z) : parser unit := fun r =>
  let copied := Nat.min (Z.to_nat n) (length r) in
  if (Z.of_nat copied <? n)%Z then Err UnexpectedEof else Ok (tt, drop copied r).

(** [varint::put(&mut buf[i..], v)]: the buffer and the new index. *)
Definition put_at {E} (i : nat) (v : Z) (buf : list byte) : outcome E (list byte * nat) :=
  rest ← or_panic (slice_from buf i);
  '(rest, n) ← put rest v;
  mret (take i buf ++ rest, i + n).

(** [buf[i..i + src.len()].copy_from_slice(src)]. *)
Definition copy_at {E} (i : nat) (src buf : list byte) : outcome E (list byte) :=
  or_panic (slice_write buf i src).

(** The bytes handed to [w.write_all]. *)
Definition write_tcp_request (rng : nat → Z) (addr : rstr) : outcome io_error (list byte) :=
  let padding := Padding.string Padding.TCP_REQUEST_PADDING rng in
  let padding_len := length padding in
  let addr_len := length addr in
  let sz := len FRAME_TYPE_TCP_REQUEST + len (Z.of_nat addr_len) + addr_len
            + len (Z.of_nat padding_len) + padding_len in
  let buf := replicate sz x00 in
  '(buf, i) ← put_at 0 FRAME_TYPE_TCP_REQUEST buf;
  '(buf, i) ← put_at i (Z.of_nat addr_len) buf;
  buf ← copy_at i addr buf;
  let i := i + addr_len in
  '(buf, i) ← put_at i (Z.of_nat padding_len) buf;
  buf ← copy_at i padding buf;
  mret buf.

Definition read_tcp_response : parser (bool * rstr) := fun r =>
  '(status, r) ← read_exact 1 r;
  '(msg_len, r) ← read r;
  if (MAX_MESSAGE_LENGTH <? msg_len)%Z then protocol_error "invalid message length" else
  '(msg_buf, r) ← (if (0 <? msg_len)%Z then read_exact (Z.to_nat msg_len) r else Ok ([], r));
  '(padding_len, r) ← read r;
  if (MAX_PADDING_LENGTH <? padding_len)%Z then protocol_error "invalid padding length" else
  '(_, r) ← (if (0 <? padding_len)%Z then discard_exact padding_len r else Ok (tt, r));
  match from_utf8 msg_buf with
  | None => protocol_error "invalid message encoding"
  | Some msg => Ok ((bool_decide (status = [x00]), msg), r)
  end.

Record UdpMessage := {
  session_id : Z;
  packet_id : Z;
  frag_id : Z;
  frag_count : Z;
  addr : rstr;
  data : list byte;
}.
#[export] Instance UdpMessage_eq_dec : EqDecision UdpMessage.
Proof. solve_decision. Defined.

(** The field types: [u32], [u16], [u8], [u8], [String]. *)
Definition wf_msg (m : UdpMessage) : Prop :=
  is_u 32 (session_id m) ∧ is_u 16 (packet_id m) ∧ is_u 8 (frag_id m) ∧
  is_u 8 (frag_count m) ∧ utf8_valid (addr m) = true.

Definition header_size (m : UdpMessage) : nat :=
  let l_addr := length (addr m) in
  4 + 2 + 1 + 1 + len (Z.of_nat l_addr) + l_addr.

Definition size (m : UdpMessage) : nat := header_size m + length (data m).

(** [serialize]: [None] when [buf] is too small, else the buffer and the count. *)
Definition serialize {E} (m : UdpMessage) (buf : list byte) :
    outcome E (option (list byte * nat)) :=
  if decide (length buf < size m) then mret None else
  buf ← copy_at 0 (to_be 4 (session_id m)) buf;
  buf ← copy_at 4 (to_be 2 (packet_id m)) buf;
  buf ← set_at 6 (z2b (frag_id m)) buf;
  buf ← set_at 7 (z2b (frag_count m)) buf;
  '(buf, i) ← put_at 8 (Z.of_nat (length (addr m))) buf;
  buf ← copy_at i (addr m) buf;
  let i := i + length (addr m) in
  buf ← copy_at i (data m) buf;
  let i := i + length (data m) in
  mret (Some (buf, i)).

Definition parse_udp_message (msg : list byte) : outcome io_error UdpMessage :=
  '(header, r) ← read_exact 8 msg;
  let session_id := from_be (take 4 header) in
  let packet_id := from_be (take 2 (drop 4 header)) in
  let frag_id := b2z (nth 6 header x00) in
  let frag_count := b2z (nth 7 header x00) in
  '(l_addr, r) ← read r;
  if (l_addr =? 0)%Z || (MAX_MESSAGE_LENGTH <? l_addr)%Z
  then protocol_error "invalid address length" else
  let l_addr := Z.to_nat l_addr in
  let pos := length msg - length r in
  rest ← or_panic (slice_from msg pos);
  if decide (length rest ≤ l_addr) then protocol_error "invalid message length" else
  match from_utf8 (take l_addr rest) with
  | None => protocol_error "invalid address encoding"
  | Some addr =>
    Ok {| session_id := session_id; packet_id := packet_id; frag_id := frag_id;
          frag_count := frag_count; addr := addr; data := drop l_addr rest |}
  end.

(** ** Writers

    Every serializer fills a buffer front to back: [over w buf] is [buf] with
    [w] written over its first bytes, and each write extends [w]. *)

Definition over (w buf : list byte) : list byte := w ++ drop (length w) buf.

Lemma over_nil buf : buf = over [] buf.
Proof. done. Qed.

Lemma over_exact w buf : length buf = length w → over w buf = w.
Proof. intros H. unfold over. rewrite drop_ge by lia. apply app_nil_r. Qed.

Lemma length_over w buf : length w ≤ length buf → length (over w buf) = length buf.
Proof. intros H. unfold over. len. Qed.

Lemma copy_over {E} i w src buf :
  i = length w → length w + length src ≤ length buf →
  @copy_at E i src (over w buf) = Ok (over (w ++ src) buf).
Proof.
  intros -> H. unfold copy_at, over. rewrite slice_write_prefix by len.
  cbn. by rewrite drop_drop, length_app.
Qed.

Lemma set_over {E} i w x buf :
  i = length w → length w < length buf →
  @set_at E byte i x (over w buf) = Ok (over (w ++ [x]) buf).
Proof.
  intros -> H. unfold set_at, over. rewrite decide_True by len.
  destruct (drop (length w) buf) as [|c rest] eqn:Hd.
  { apply (f_equal length) in Hd. rewrite length_drop in Hd. cbn in Hd. lia. }
  rewrite insert_app_r_alt, Nat.sub_diag by lia. cbn [insert list_insert].
  rewrite length_app, <-drop_drop, Hd. cbn. by rewrite <-app_assoc.
Qed.

Lemma put_over {E} i w v buf :
  i = length w → (0 ≤ v ≤ MAX_VAR_INT8)%Z → length w + len v ≤ length buf →
  @put_at E i v (over w buf) = Ok (over (w ++ encode v) buf, length (w ++ encode v)).
Proof.
  intros -> Hv H. unfold put_at, over. rewrite slice_from_prefix. cbn [or_panic mbind outcome_bind].
  rewrite put_encode by (done || len). cbn.
  rewrite take_app_length, app_assoc, length_app, length_encode, drop_drop. done.
Qed.

(** Run a chain of writes. *)
Ltac write_step :=
  first [ rewrite copy_over by (len; rewrite ?length_encode; lia)
        | rewrite set_over by len
        | rewrite put_over by (len; rewrite ?length_encode; lia) ];
  cbn [mbind outcome_bind mret outcome_ret].

(** ** The wire formats *)

(** TCP request: type, address length, address, padding length, padding. *)
Definition tcp_request_bytes (addr padding : list byte) : list byte :=
  encode FRAME_TYPE_TCP_REQUEST ++ encode (Z.of_nat (length addr)) ++ addr
  ++ encode (Z.of_nat (length padding)) ++ padding.

(** UDP message: session, packet, fragment, count, address length, address, data. *)
Definition udp_header_bytes (m : UdpMessage) : list byte :=
  to_be 4 (session_id m) ++ to_be 2 (packet_id m) ++ [z2b (frag_id m); z2b (frag_count m)]
  ++ encode (Z.of_nat (length (addr m))) ++ addr m.
Definition udp_message_bytes (m : UdpMessage) : list byte := udp_header_bytes m ++ data m.

Lemma length_udp_header_bytes m : length (udp_header_bytes m) = header_size m.
Proof. unfold udp_header_bytes, header_size. len. rewrite length_encode. lia. Qed.

Lemma length_udp_message_bytes m : length (udp_message_bytes m) = size m.
Proof. unfold udp_message_bytes, size. by rewrite length_app, length_udp_header_bytes. Qed.

(** A length that fits [u62], as every real buffer's does. *)
Abbreviation short l := (Z.of_nat (length l) ≤ MAX_VAR_INT8)%Z.

Lemma serialize_bytes {E} m buf :
  short (addr m) → size m ≤ length buf →
  @serialize E m buf = Ok (Some (over (udp_message_bytes m) buf, size m)).
Proof.
  intros Ha Hs. unfold serialize. rewrite decide_False by lia.
  assert (Hz : size m = 8 + len (Z.of_nat (length (addr m))) + length (addr m) + length (data m))
    by (unfold size, header_size; lia).
  rewrite (over_nil buf) at 1. do 6 write_step. write_step.
  rewrite <-length_udp_message_bytes. unfold udp_message_bytes, udp_header_bytes.
  unfold mret, outcome_ret. rewrite !app_nil_l, <-!app_assoc. cbn [app].
  do 3 f_equal. len.
Qed.

Lemma write_tcp_request_bytes rng addr :
  short addr →
  write_tcp_request rng addr =
  Ok (tcp_request_bytes addr (Padding.string Padding.TCP_REQUEST_PADDING rng)).
Proof.
  intros Ha. unfold write_tcp_request.
  set (padding := Padding.string _ rng).
  assert (Hp : length padding < 512).
  { destruct (Padding.string_spec Padding.TCP_REQUEST_PADDING rng) as (_ & _ & H & _).
    apply H. cbn. lia. }
  assert (Hf : (0 ≤ FRAME_TYPE_TCP_REQUEST ≤ MAX_VAR_INT8)%Z) by done.
  assert (Hps : short padding) by (unfold MAX_VAR_INT8; lia).
  set (buf := replicate _ x00).
  assert (Hb : length buf = len FRAME_TYPE_TCP_REQUEST + len (Z.of_nat (length addr))
    + length addr + len (Z.of_nat (length padding)) + length padding) by apply length_replicate.
  rewrite (over_nil buf) at 1. do 5 write_step.
  rewrite over_exact by (len; rewrite !length_encode; lia).
  unfold tcp_request_bytes. by rewrite app_nil_l, <-!app_assoc.
Qed.

(** ** Parsers *)

Lemma discard_exact_read n r :
  discard_exact n r = '(_, r) ← read_exact (Z.to_nat n) r; Ok (tt, r).
Proof.
  unfold discard_exact, read_exact. case_decide; bool_cases; try lia; [|done].
  cbn. by rewrite Nat.min_l.
Qed.

#[export] Instance sp_discard_exact n : StreamParser (discard_exact n).
Proof.
  assert (pointwise_relation _ eq (discard_exact n)
    (fun r => '(_, r) ← read_exact (Z.to_nat n) r; Ok (tt, r))) as ->.
  { intros r. apply discard_exact_read. }
  apply (sp_bind (read_exact _) (fun _ r => Ok (tt, r))); apply _.
Qed.

#[export] Instance sp_from_utf8 {A} (bs : list byte) (f : parser A) (g : rstr → parser A) :
  StreamParser f → (∀ s, StreamParser (g s)) →
  StreamParser (fun r => match from_utf8 bs with None => f r | Some s => g s r end).
Proof. intros. by destruct (from_utf8 bs). Qed.

Ltac parser_step :=
  first [ apply sp_ret | apply sp_fail | apply sp_read_exact | apply sp_read
        | apply sp_discard_exact | apply sp_if | apply sp_from_utf8
        | eapply sp_bind | intros ? ].

#[export] Instance sp_read_tcp_response : StreamParser read_tcp_response.
Proof. unfold read_tcp_response, protocol_error. repeat parser_step. Qed.

Lemma parse_udp_message_bytes m :
  wf_msg m → 0 < length (addr m) ≤ 2048 → data m ≠ [] →
  parse_udp_message (udp_message_bytes m) = Ok m.
Proof.
  intros (Hs & Hp & Hi & Hc & Hu) Ha Hd. unfold is_u in *.
  set (hd8 := to_be 4 (session_id m) ++ to_be 2 (packet_id m) ++
              [z2b (frag_id m); z2b (frag_count m)]).
  assert (Hm : udp_message_bytes m =
    hd8 ++ encode (Z.of_nat (length (addr m))) ++ addr m ++ data m).
  { unfold udp_message_bytes, udp_header_bytes, hd8. by rewrite <-!app_assoc. }
  assert (H8 : length hd8 = 8) by (unfold hd8; len).
  unfold parse_udp_message. rewrite Hm, read_exact_app by done.
  cbn [mbind outcome_bind]. rewrite read_encode by (unfold MAX_VAR_INT8; lia).
  cbn [mbind outcome_bind]. rewrite (proj2 (Z.eqb_neq _ 0)) by lia.
  rewrite (proj2 (Z.ltb_ge MAX_MESSAGE_LENGTH _)) by (unfold MAX_MESSAGE_LENGTH; lia).
  cbn [orb]. rewrite Nat2Z.id.
  replace (length (hd8 ++ _) - length (addr m ++ data m))
    with (length (hd8 ++ encode (Z.of_nat (length (addr m))))) by len.
  rewrite app_assoc, slice_from_prefix. cbn [or_panic mbind outcome_bind].
  rewrite decide_False by (destruct (data m); [done|len]).
  rewrite take_app_length, drop_app_length. unfold from_utf8. rewrite Hu.
  unfold hd8. rewrite (take_app_length' _ _ 4), (drop_app_length' _ _ 4) by len.
  rewrite (take_app_length' _ _ 2) by len. rewrite !from_be_to_be by (cbn; lia).
  change (nth 6 _ x00) with (z2b (frag_id m)). change (nth 7 _ x00) with (z2b (frag_count m)).
  rewrite !b2z_z2b_small by lia. by destruct m.
Qed.

Lemma from_be_range bs : (0 ≤ from_be bs < 256 ^ Z.of_nat (length bs))%Z.
Proof. pose proof (from_be_acc_bound bs 0 ltac:(lia)). unfold from_be. lia. Qed.

(** What an accepted datagram looks like. *)
Lemma parse_udp_inv msg m :
  parse_udp_message msg = Ok m →
  wf_msg m ∧ 0 < length (addr m) ≤ 2048 ∧ data m ≠ [] ∧
  ∃ h c, msg = h ++ c ++ addr m ++ data m ∧ length h = 8 ∧ length c ≤ 8.
Proof.
  unfold parse_udp_message. intros H.
  apply bind_ok_inv in H as ([header r] & Hh & H).
  apply read_exact_ok in Hh as [-> H8].
  apply bind_ok_inv in H as ([l r1] & Hl & H).
  apply read_ok in Hl as (c & -> & Hrange & Hc).
  destruct ((l =? 0)%Z || (MAX_MESSAGE_LENGTH <? l)%Z) eqn:Hg; [done|].
  apply orb_false_iff in Hg as [H0%Z.eqb_neq Hmax%Z.ltb_ge]. unfold MAX_MESSAGE_LENGTH in Hmax.
  replace (length (header ++ c ++ r1) - length r1) with (length (header ++ c)) in H by len.
  rewrite app_assoc, slice_from_prefix in H. cbn [or_panic mbind outcome_bind] in H.
  case_decide as Hlen; [done|]. unfold from_utf8 in H.
  destruct (utf8_valid (take (Z.to_nat l) r1)) eqn:Hu; [|done].
  injection H as <-. cbn [addr data]. unfold wf_msg, is_u; cbn [session_id packet_id frag_id frag_count addr].
  split_and!; try apply b2z_range; try done.
  - apply from_be_range.
  - pose proof (from_be_range (take 4 header)) as Hb. rewrite length_take, H8 in Hb. apply Hb.
  - apply from_be_range.
  - pose proof (from_be_range (take 2 (drop 4 header))) as Hb.
    rewrite length_take, length_drop, H8 in Hb. apply Hb.
  - len.
  - len.
  - intros Hd. apply (f_equal length) in Hd. rewrite length_drop in Hd. cbn in Hd. lia.
  - exists header, c. rewrite take_drop. split_and!; [done|done|lia].
Qed.

Lemma parse_udp_no_panic msg : parse_udp_message msg ≠ Panic.
Proof.
  unfold parse_udp_message. destruct (read_exact 8 msg) as [[h r]| |] eqn:Hh;
    cbn [mbind outcome_bind]; [|done|by apply sp_no_panic in Hh].
  apply read_exact_ok in Hh as [-> _].
  destruct (read r) as [[l r1]| |] eqn:Hl; cbn [mbind outcome_bind]; [|done|by apply sp_no_panic in Hl].
  apply read_ok in Hl as (c & -> & _ & _).
  case_match; [done|].
  replace (length (h ++ c ++ r1) - length r1) with (length (h ++ c)) by len.
  rewrite app_assoc, slice_from_prefix. cbn [or_panic mbind outcome_bind].
  case_decide; [done|]. by case_match.
Qed.

(** TCP response: status, message length, message, padding length, padding. *)
Definition tcp_response_bytes (status : byte) (msg padding : list byte) : list byte :=
  [status] ++ encode (Z.of_nat (length msg)) ++ msg
  ++ encode (Z.of_nat (length padding)) ++ padding.

(** An optional fixed-length field, as the response reader takes it. *)
Lemma read_field n bs r :
  n = Z.of_nat (length bs) →
  (if (0 <? n)%Z then read_exact (Z.to_nat n) (bs ++ r) else Ok ([], bs ++ r)) = Ok (bs, r).
Proof.
  intros ->. destruct (Z.ltb_spec 0 (Z.of_nat (length bs))).
  - apply read_exact_app. lia.
  - destruct bs; [done|cbn [length] in *; lia].
Qed.

Lemma discard_field n bs r :
  n = Z.of_nat (length bs) →
  (if (0 <? n)%Z then discard_exact n (bs ++ r) else Ok (tt, bs ++ r)) = Ok (tt, r).
Proof.
  intros ->. destruct (Z.ltb_spec 0 (Z.of_nat (length bs))).
  - rewrite discard_exact_read, read_exact_app by lia. done.
  - destruct bs; [done|cbn [length] in *; lia].
Qed.

Lemma read_tcp_response_bytes status msg padding r :
  utf8_valid msg = true → length msg ≤ 2048 → length padding ≤ 4096 →
  read_tcp_response (tcp_response_bytes status msg padding ++ r) =
  Ok ((bool_decide (status = x00), msg), r).
Proof.
  intros Hu Hm Hp. unfold tcp_response_bytes, read_tcp_response.
  rewrite <-!app_assoc, read_exact_app by done. cbn [mbind outcome_bind].
  rewrite read_encode by (unfold MAX_VAR_INT8; lia). cbn [mbind outcome_bind].
  rewrite (proj2 (Z.ltb_ge MAX_MESSAGE_LENGTH _)) by (unfold MAX_MESSAGE_LENGTH; lia).
  rewrite read_field by done. cbn [mbind outcome_bind].
  rewrite read_encode by (unfold MAX_VAR_INT8; lia). cbn [mbind outcome_bind].
  rewrite (proj2 (Z.ltb_ge MAX_PADDING_LENGTH _)) by (unfold MAX_PADDING_LENGTH; lia).
  rewrite discard_field by done. cbn [mbind outcome_bind].
  unfold from_utf8. rewrite Hu. repeat f_equal. by apply bool_decide_ext; split; [intros [=]|intros ->].
Qed.

(** A guarded field consumes no more than the guard allows. *)
Lemma read_field_ok n r bs r' :
  (if (0 <? n)%Z then read_exact (Z.to_nat n) r else Ok ([], r)) = Ok (bs, r') →
  r = bs ++ r' ∧ length bs = Z.to_nat n.
Proof.
  destruct (Z.ltb_spec 0 n) as [Hn|Hn]; [by intros Hr%read_exact_ok|].
  intros [= <- <-]. split; [done|]. cbn [length]. lia.
Qed.

Lemma discard_field_ok n r r' u :
  (if (0 <? n)%Z then discard_exact n r else Ok (tt, r)) = Ok (u, r') →
  ∃ bs, r = bs ++ r' ∧ length bs = Z.to_nat n.
Proof.
  destruct (Z.ltb_spec 0 n) as [Hn|Hn].
  - rewrite discard_exact_read. intros H. apply bind_ok_inv in H as ([bs r1] & Hr & [= _ <-]).
    apply read_exact_ok in Hr. eauto.
  - intros [= _ <-]. exists []. split; [done|]. cbn [length]. lia.
Qed.

Lemma read_tcp_response_inv r ok msg r' :
  read_tcp_response r = Ok ((ok, msg), r') →
  utf8_valid msg = true ∧ length msg ≤ 2048 ∧
  ∃ c, r = c ++ r' ∧ length msg < length c ≤ 1 + 8 + 2048 + 8 + 4096.
Proof.
  unfold read_tcp_response. intros H.
  apply bind_ok_inv in H as ([status r1] & Hs & H). apply read_exact_ok in Hs as [-> Hs].
  apply bind_ok_inv in H as ([ml r2] & Hml & H). apply read_ok in Hml as (c1 & -> & _ & Hc1).
  destruct (Z.ltb_spec MAX_MESSAGE_LENGTH ml) as [|Hmax]; [done|].
  unfold MAX_MESSAGE_LENGTH in Hmax.
  apply bind_ok_inv in H as ([mb r3] & Hmb & H). apply read_field_ok in Hmb as [-> Hmb].
  apply bind_ok_inv in H as ([pl r4] & Hpl & H). apply read_ok in Hpl as (c2 & -> & _ & Hc2).
  destruct (Z.ltb_spec MAX_PADDING_LENGTH pl) as [|Hpmax]; [done|].
  unfold MAX_PADDING_LENGTH in Hpmax.
  apply bind_ok_inv in H as ([u r5] & Hd & H). apply discard_field_ok in Hd as (pad & -> & Hpad).
  unfold from_utf8 in H. destruct (utf8_valid mb) eqn:Hu; [|done]. injection H as _ <- <-.
  split; [done|]. split; [lia|].
  exists (status ++ c1 ++ mb ++ c2 ++ pad). rewrite <-!app_assoc. split; [done|].
  rewrite !length_app. lia.
Qed.

(** ** Properties *)

(** C28: A UDP message serialized into any large enough buffer parses back to
    itself, provided its address is non-empty and at most 2048 bytes and its
    payload is non-empty (what the parser insists on). *)
Theorem udp_message_roundtrip (m : UdpMessage) (buf : list byte)
    (Hwf : wf_msg m) (Ha : 0 < length (addr m) ≤ 2048) (Hd : data m ≠ [])
    (Hb : size m ≤ length buf) :
  ∃ buf', @serialize io_error m buf = Ok (Some (buf', size m)) ∧
    length buf' = length buf ∧ drop (size m) buf' = drop (size m) buf ∧
    parse_udp_message (take (size m) buf') = Ok m.
Proof.
  exists (over (udp_message_bytes m) buf).
  assert (Hl := length_udp_message_bytes m). split_and!.
  - apply serialize_bytes; [unfold MAX_VAR_INT8|]; lia.
  - apply length_over. lia.
  - unfold over. rewrite drop_app_length' by done. by rewrite Hl.
  - unfold over. rewrite take_app_length' by done. by apply parse_udp_message_bytes.
Qed.

Definition sample_msg : UdpMessage :=
  {| session_id := 1; packet_id := 1; frag_id := 0; frag_count := 1;
     addr := lit "example.com:80"; data := lit "GET /nothing HTTP/1.1" |}.

Lemma udp_message_roundtrip_witness :
  ∃ buf', @serialize io_error sample_msg (replicate 64 x00) = Ok (Some (buf', 44)) ∧
    parse_udp_message (take 44 buf') = Ok sample_msg.
Proof.
  destruct (udp_message_roundtrip sample_msg (replicate 64 x00)) as (buf' & Hs & _ & _ & Hp).
  - vm_compute. repeat split; discriminate.
  - vm_compute. lia.
  - vm_compute. discriminate.
  - vm_compute. lia.
  - exists buf'. split; [exact Hs|exact Hp].
Defined.

(** [serialize] is total on messages whose address length fits a varint:
    it answers [None] exactly when the buffer is shorter than [size], and
    otherwise reports [size] bytes written, never panicking on a slice. *)
Theorem serialize_total (m : UdpMessage) (buf : list byte)
    (Ha : (Z.of_nat (length (addr m)) ≤ MAX_VAR_INT8)%Z) :
  if decide (length buf < size m) then @serialize io_error m buf = Ok None
  else ∃ buf', @serialize io_error m buf = Ok (Some (buf', size m)) ∧ length buf' = length buf.
Proof.
  case_decide as Hb.
  - unfold serialize. by rewrite decide_True.
  - exists (over (udp_message_bytes m) buf). split; [apply serialize_bytes; lia|].
    apply length_over. rewrite length_udp_message_bytes. lia.
Qed.

Lemma serialize_total_witness :
  @serialize io_error sample_msg (replicate 20 x00) = Ok None.
Proof.
  exact (serialize_total sample_msg (replicate 20 x00) ltac:(vm_compute; discriminate)).
Defined.

(** [parse_udp_message] never panics, and a datagram it accepts carries
    fields of their declared widths, a valid UTF-8 address of 1 to 2048 bytes,
    and a non-empty payload that is the tail of the datagram. *)
Theorem parse_udp_message_sound (msg : list byte) :
  match parse_udp_message msg with
  | Ok m => wf_msg m ∧ 0 < length (addr m) ≤ 2048 ∧ data m ≠ [] ∧
      ∃ pre, msg = pre ++ addr m ++ data m ∧ length pre ≤ 16
  | Err _ => True
  | Panic => False
  end.
Proof.
  destruct (parse_udp_message msg) as [m|e|] eqn:Hp; [|done|by apply parse_udp_no_panic in Hp].
  apply parse_udp_inv in Hp as (Hwf & Ha & Hd & h & c & -> & Hh & Hc).
  split_and!; try done; try lia. exists (h ++ c). rewrite <-!app_assoc. split; [done|len].
Qed.

(** A TCP request is the frame type, the address and 64 to 511 padding
    characters, each string preceded by its varint length, with no bytes left
    over and no panic. *)
Theorem write_tcp_request_format (rng : nat → Z) (addr : rstr)
    (Ha : (Z.of_nat (length addr) ≤ MAX_VAR_INT8)%Z) :
  ∃ padding, 64 ≤ length padding < 512 ∧ Forall (.∈ Padding.PADDING_CHARS) padding ∧
    write_tcp_request rng addr =
    Ok (encode FRAME_TYPE_TCP_REQUEST ++ encode (Z.of_nat (length addr)) ++ addr
        ++ encode (Z.of_nat (length padding)) ++ padding).
Proof.
  exists (Padding.string Padding.TCP_REQUEST_PADDING rng).
  destruct (Padding.string_spec Padding.TCP_REQUEST_PADDING rng) as (Hc & Hlo & Hhi & _).
  specialize (Hhi ltac:(cbn; lia)).
  change (Padding.min _) with 64 in Hlo. change (Padding.max _) with 512 in Hhi.
  split; [lia|]. split; [done|]. by apply write_tcp_request_bytes.
Qed.

Lemma write_tcp_request_format_witness :
  ∃ padding, 64 ≤ length padding < 512 ∧
    write_tcp_request (λ k, 3 * Z.of_nat k)%Z (lit "google.com:443") =
    Ok ([x44; x01; x0e] ++ lit "google.com:443"
        ++ encode (Z.of_nat (length padding)) ++ padding).
Proof.
  destruct (write_tcp_request_format (λ k, 3 * Z.of_nat k)%Z (lit "google.com:443"))
    as (padding & Hl & _ & Hw).
  - vm_compute. discriminate.
  - exists padding. split; [exact Hl|exact Hw].
Defined.

(** A response in the wire format is read back as its status and message,
    whatever stream bytes follow it. *)
Theorem read_tcp_response_roundtrip (status : byte) (msg padding rest : list byte)
    (Hu : utf8_valid msg = true) (Hm : length msg ≤ 2048) (Hp : length padding ≤ 4096) :
  read_tcp_response (tcp_response_bytes status msg padding ++ rest) =
  Ok ((bool_decide (status = x00), msg), rest).
Proof. by apply read_tcp_response_bytes. Qed.

Lemma read_tcp_response_roundtrip_witness :
  read_tcp_response ([x01; x06] ++ lit "stop!!" ++ [x05] ++ lit "xxxxx" ++ lit "data")
  = Ok ((false, lit "stop!!"), lit "data").
Proof.
  apply (read_tcp_response_roundtrip x01 (lit "stop!!") (lit "xxxxx") (lit "data"));
    [reflexivity|vm_compute; lia|vm_compute; lia].
Defined.

(** C29: The reader's denial-of-service bounds: an accepted response has a valid
    UTF-8 message of at most 2048 bytes and took at most 6161 bytes of the
    stream, and no input makes the reader panic. *)
Theorem read_tcp_response_bounded (r : list byte) :
  match read_tcp_response r with
  | Ok ((_, msg), r') => utf8_valid msg = true ∧ length msg ≤ 2048 ∧
      ∃ c, r = c ++ r' ∧ length msg < length c ≤ 1 + 8 + 2048 + 8 + 4096
  | Err _ => True
  | Panic => False
  end.
Proof.
  destruct (read_tcp_response r) as [[[ok msg] r']|e|] eqn:Hr; [|done|by apply sp_no_panic in Hr].
  by apply read_tcp_response_inv in Hr.
Qed.
End Proxy.
