(* ===== verification/Frag.v ===== *)
(** * Frag: UDP message fragmentation and reassembly

    Models [internal/frag.rs]: [frag_udp_message] and the [Defragger] with its
    [feed].  [u8] arithmetic is kept at its width; the parameter [oc] says
    whether overflow checks are on (a debug build panics, a release build
    wraps). *)
From S2P Require Import Prelude IoRead RustStr Varint Proxy.

Module Frag.
Import Proxy.

Definition with_frag (m : UdpMessage) (fid fcount : Z) (d : list byte) : UdpMessage :=
  {| session_id := session_id m; packet_id := packet_id m; frag_id := fid;
     frag_count := fcount; addr := addr m; data := d |}.

(** The [while off < full_payload.len()] loop; [fuel] bounds its iterations. *)
Fixpoint frag_loop {E} (fuel : nat) (oc : bool) (m : UdpMessage) (frag_count : Z)
    (max_payload_size off : nat) (frag_id : Z) (frags : list UdpMessage) :
    outcome E (list UdpMessage) :=
  match fuel with
  | O => Ok frags
  | S fuel =>
    if decide (off < length (data m)) then
      let payload_size := Nat.min (length (data m) - off) max_payload_size in
      let frag := with_frag m frag_id frag_count (take payload_size (drop off (data m))) in
      frag_id ← add_u 8 oc frag_id 1;
      frag_loop fuel oc m frag_count max_payload_size (off + payload_size) frag_id
        (frags ++ [frag])
    else Ok frags
  end.

(** Every iteration advances [off], so one more than the payload length is
    enough fuel. *)
Definition frag_udp_message {E} (oc : bool) (m : UdpMessage) (max_size : nat) :
    outcome E (list UdpMessage) :=
  if decide (size m ≤ max_size) then Ok [m]
  else if decide (max_size ≤ header_size m) then Ok []
  else
    let max_payload_size := max_size - header_size m in
    let frag_count :=
      wrap 8 (div_ceil (Z.of_nat (length (data m))) (Z.of_nat max_payload_size)) in
    frag_loop (S (length (data m))) oc m frag_count max_payload_size 0 0 [].

Record Defragger := {
  pkt_id : Z;
  frags : list (option UdpMessage);
  count : Z;
  dsize : nat;
}.

(** [Defragger::default()]. *)
Definition defragger_default : Defragger :=
  {| pkt_id := 0; frags := []; count := 0; dsize := 0 |}.

(** [data.extend_from_slice] over the slots that are present. *)
Definition assemble (slots : list (option UdpMessage)) : list byte :=
  concat (data <$> omap id slots).

Definition feed {E} (oc : bool) (d : Defragger) (m : UdpMessage) :
    outcome E (Defragger * option UdpMessage) :=
  if (frag_count m <=? 1)%Z then Ok (d, Some m)
  else if (frag_count m <=? frag_id m)%Z then Ok (d, None)
  else
    let id := Z.to_nat (frag_id m) in
    if bool_decide (packet_id m ≠ pkt_id d)
       || bool_decide (frag_count m ≠ Z.of_nat (length (frags d)))
    then
      slots ← set_at id (Some m) (replicate (Z.to_nat (frag_count m)) None);
      Ok ({| pkt_id := packet_id m; frags := slots; count := 1;
             dsize := length (data m) |}, None)
    else
      slot ← or_panic (frags d !! id);
      match slot with
      | Some _ => Ok (d, None)
      | None =>
        count ← add_u 8 oc (count d) 1;
        let size := dsize d + length (data m) in
        slots ← set_at id (Some m) (frags d);
        let d := {| pkt_id := pkt_id d; frags := slots; count := count; dsize := size |} in
        if bool_decide (count = Z.of_nat (length slots)) then
          let data := assemble slots in
          match slots !! id with
          | Some (Some assembled) =>
            Ok ({| pkt_id := pkt_id d; frags := <[id:=None]> slots; count := count;
                   dsize := size |},
                Some (with_frag assembled 0 1 data))
          | _ => Ok (d, None)
          end
        else Ok (d, None)
      end.

(** Feeding a sequence, collecting the answers. *)
Fixpoint feed_all {E} (oc : bool) (d : Defragger) (ms : list UdpMessage) :
    outcome E (Defragger * list (option UdpMessage)) :=
  match ms with
  | [] => Ok (d, [])
  | m :: ms =>
    '(d, o) ← feed oc d m;
    '(d, os) ← feed_all oc d ms;
    Ok (d, o :: os)
  end.

(** ** Fragmentation *)

(** The payload cut into pieces of at most [k] bytes, as a specification. *)
Fixpoint chunks (fuel k : nat) (l : list byte) : list (list byte) :=
  match fuel, l with
  | S fuel, _ :: _ => take k l :: chunks fuel k (drop k l)
  | _, _ => []
  end.

Definition number (m : UdpMessage) (c : Z) (start : nat) (ps : list (list byte)) :
    list UdpMessage :=
  imap (λ i p, with_frag m (Z.of_nat (start + i)) c p) ps.

Lemma chunks_concat fuel k l :
  0 < k → length l ≤ fuel → concat (chunks fuel k l) = l.
Proof.
  intros Hk. revert l. induction fuel as [|fuel IH]; intros [|b l] Hl; cbn [chunks concat] in *;
    try done; [cbn in Hl; lia|].
  rewrite IH by (rewrite length_drop; cbn [length] in *; lia). apply take_drop.
Qed.

Lemma chunks_bound fuel k l : 0 < k → Forall (λ p, 0 < length p ≤ k) (chunks fuel k l).
Proof.
  intros Hk. revert l. induction fuel as [|fuel IH]; intros [|b l]; cbn [chunks]; constructor; [|apply IH].
  rewrite length_take. cbn [length]. lia.
Qed.

Lemma div_ceil_step n k :
  (0 < k)%Z → (0 < n)%Z → div_ceil n k = (1 + div_ceil (Z.max 0 (n - k)) k)%Z.
Proof.
  intros Hk Hn. unfold div_ceil. destruct (Z.le_gt_cases k n).
  - rewrite Z.max_r by lia. replace (n + k - 1)%Z with (1 * k + (n - k + k - 1))%Z by lia.
    by rewrite Z.div_add_l by lia.
  - rewrite Z.max_l by lia. rewrite (Z.div_small (0 + k - 1) k) by lia.
    symmetry. apply (Z.div_unique _ _ _ (n - 1)); lia.
Qed.

Lemma length_chunks fuel k l :
  0 < k → length l ≤ fuel →
  Z.of_nat (length (chunks fuel k l)) = div_ceil (Z.of_nat (length l)) (Z.of_nat k).
Proof.
  intros Hk. revert l. induction fuel as [|fuel IH]; intros [|b l] Hl; cbn [chunks length] in *; try lia.
  1,2: unfold div_ceil; symmetry; apply Z.div_small; lia.
  rewrite Nat2Z.inj_succ, IH by (rewrite length_drop; cbn [length]; lia).
  rewrite (div_ceil_step (Z.of_nat (S (length l)))), length_drop by lia. cbn [length].
  replace (Z.of_nat (S (length l) - k)) with (Z.max 0 (Z.of_nat (S (length l)) - Z.of_nat k))
    by lia. lia.
Qed.

Lemma length_number m c start ps : length (number m c start ps) = length ps.
Proof. apply length_imap. Qed.

Lemma data_number m c start ps : data <$> number m c start ps = ps.
Proof.
  apply list_eq. intros i. unfold number. rewrite list_lookup_fmap, list_lookup_imap.
  by destruct (ps !! i).
Qed.

Lemma number_cons m c start p ps :
  number m c start (p :: ps) = with_frag m (Z.of_nat start) c p :: number m c (S start) ps.
Proof.
  unfold number. cbn [imap]. rewrite Nat.add_0_r. f_equal. apply imap_ext.
  intros i x _. cbn. do 2 f_equal. lia.
Qed.

Lemma frag_loop_S {E} fuel oc m c k off fid acc :
  @frag_loop E (S fuel) oc m c k off fid acc =
  if decide (off < length (data m)) then
    let n := Nat.min (length (data m) - off) k in
    fid' ← add_u 8 oc fid 1;
    frag_loop fuel oc m c k (off + n) fid'
      (acc ++ [with_frag m fid c (take n (drop off (data m)))])
  else Ok acc.
Proof. done. Qed.

Lemma frag_loop_spec {E} fuel oc m c k off fid acc :
  0 < k → off ≤ length (data m) → length (data m) - off ≤ fuel →
  fid + length (chunks fuel k (drop off (data m))) < 256 →
  @frag_loop E (S fuel) oc m c k off (Z.of_nat fid) acc =
  Ok (acc ++ number m c fid (chunks fuel k (drop off (data m)))).
Proof.
  intros Hk. revert off fid acc. induction fuel as [|fuel IH]; intros off fid acc Hoff Hfuel Hid.
  - rewrite frag_loop_S, decide_False by lia. cbn. by rewrite app_nil_r.
  - rewrite frag_loop_S. case_decide as Hlt; cbn zeta.
    + destruct (drop off (data m)) as [|b l] eqn:Hd.
      { apply (f_equal length) in Hd. rewrite length_drop in Hd. cbn in Hd. lia. }
      cbn [chunks length] in Hid |- *. rewrite number_cons.
      rewrite add_u_ok by lia. cbn [mbind outcome_bind].
      replace (Z.of_nat fid + 1)%Z with (Z.of_nat (S fid)) by lia.
      assert (Hmin : drop (off + Nat.min (length (data m) - off) k) (data m) = drop k (b :: l)).
      { rewrite <-Hd, <-drop_drop. destruct (Nat.le_ge_cases k (length (data m) - off)).
        - by rewrite Nat.min_r.
        - rewrite Nat.min_l by done.
          by rewrite !(drop_ge (drop off (data m))) by (rewrite length_drop; lia). }
      rewrite IH; rewrite ?Hmin; try lia.
      rewrite <-app_assoc. cbn [app]. do 4 f_equal.
      rewrite <-Hd. destruct (Nat.le_ge_cases k (length (data m) - off)).
      * by rewrite Nat.min_r.
      * rewrite Nat.min_l by done.
        by rewrite !(take_ge (drop off (data m))) by (rewrite length_drop; lia).
    + rewrite drop_ge by lia. cbn. by rewrite app_nil_r.
Qed.

(** The number of fragments the payload needs. *)
Definition needed (m : UdpMessage) (max_size : nat) : Z :=
  div_ceil (Z.of_nat (length (data m))) (Z.of_nat (max_size - header_size m)).

Definition pieces (m : UdpMessage) (max_size : nat) : list (list byte) :=
  chunks (length (data m)) (max_size - header_size m) (data m).

Lemma length_pieces m max_size :
  header_size m < max_size → Z.of_nat (length (pieces m max_size)) = needed m max_size.
Proof. intros H. apply length_chunks; lia. Qed.

Lemma needed_two m max_size :
  header_size m < max_size < size m → (2 ≤ needed m max_size)%Z.
Proof.
  intros H. unfold needed, size in *.
  rewrite div_ceil_step by lia. rewrite div_ceil_step by lia.
  assert (0 ≤ div_ceil (Z.max 0 (Z.max 0 (Z.of_nat (length (data m)) -
    Z.of_nat (max_size - header_size m)) - Z.of_nat (max_size - header_size m)))
    (Z.of_nat (max_size - header_size m)))%Z; [|lia].
  unfold div_ceil. apply Z.div_pos; lia.
Qed.

Lemma frag_split {E} oc m max_size :
  header_size m < max_size < size m → (needed m max_size ≤ 255)%Z →
  @frag_udp_message E oc m max_size =
  Ok (number m (needed m max_size) 0 (pieces m max_size)).
Proof.
  intros Hs Hc. unfold frag_udp_message. rewrite !decide_False by lia.
  pose proof (needed_two _ _ Hs). fold (needed m max_size). unfold wrap.
  rewrite Z.mod_small by lia. change 0%Z with (Z.of_nat 0) at 1.
  rewrite frag_loop_spec; rewrite ?drop_0; try lia; [done|].
  pose proof (length_pieces m max_size ltac:(lia)). unfold pieces in *. lia.
Qed.

Lemma header_size_with_frag m fid c d : header_size (with_frag m fid c d) = header_size m.
Proof. done. Qed.

(** ** Reassembly *)

(** [d] is collecting the fragments [fs] of one packet and holds those whose
    index is in [S]. *)
Record collecting (fs : list UdpMessage) (S : gset nat) (d : Defragger) : Prop := {
  col_len : length (frags d) = length fs;
  col_pid : ∀ f, f ∈ fs → packet_id f = pkt_id d;
  col_slot : ∀ i, frags d !! i = (λ f, if decide (i ∈ S) then Some f else None) <$> fs !! i;
  col_count : count d = Z.of_nat (base.size S);
  col_range : ∀ i, i ∈ S → i < length fs;
}.

Lemma collecting_size fs S d : collecting fs S d → base.size S ≤ length fs.
Proof.
  intros H. rewrite <-(size_set_seq (C := gset nat) 0 (length fs)).
  apply subseteq_size. intros i Hi. apply elem_of_set_seq. apply (col_range _ _ _ H) in Hi. lia.
Qed.

Lemma full_set n (S : gset nat) :
  (∀ i, i ∈ S → i < n) → base.size S = n → ∀ i, i < n → i ∈ S.
Proof.
  intros Hr Hs i Hi. assert (S = set_seq 0 n) as ->; [|apply elem_of_set_seq; lia].
  apply set_subseteq_size_eq.
  - intros j Hj. apply elem_of_set_seq. apply Hr in Hj. lia.
  - rewrite size_set_seq. lia.
Qed.

Lemma omap_id_Some {A} (l : list A) : omap id (Some <$> l) = l.
Proof. induction l as [|a l IH]; cbn; [done|]. by f_equal. Qed.

(** [d] has just delivered the packet [fs]: the slot of the last fragment was
    taken, and the counter still says "complete". *)
Record completed (fs : list UdpMessage) (i : nat) (d : Defragger) : Prop := {
  cmp_len : length (frags d) = length fs;
  cmp_pid : ∀ f, f ∈ fs → packet_id f = pkt_id d;
  cmp_slot : frags d !! i = Some None;
  cmp_count : count d = Z.of_nat (length fs);
}.

(** The fragments of one message, numbered from 0. *)
Definition is_frags (m : UdpMessage) (fs : list UdpMessage) : Prop :=
  ∃ ps, fs = number m (Z.of_nat (length ps)) 0 ps ∧ 2 ≤ length ps ≤ 255.

Lemma is_frags_lookup m fs i f :
  is_frags m fs → fs !! i = Some f →
  packet_id f = packet_id m ∧ frag_id f = Z.of_nat i ∧
  frag_count f = Z.of_nat (length fs) ∧
  (∀ d, with_frag f 0 1 d = with_frag m 0 1 d).
Proof.
  intros (ps & -> & _) Hf. rewrite length_number. unfold number in Hf.
  rewrite list_lookup_imap in Hf. destruct (ps !! i); [|done].
  by injection Hf as <-.
Qed.

Lemma is_frags_length m fs : is_frags m fs → 2 ≤ length fs ≤ 255.
Proof. intros (ps & -> & H). by rewrite length_number. Qed.

Lemma collecting_first {E} oc m fs d i f :
  is_frags m fs → fs !! i = Some f →
  packet_id m ≠ pkt_id d ∨ length (frags d) ≠ length fs →
  ∃ d', @feed E oc d f = Ok (d', None) ∧ collecting fs {[i]} d'.
Proof.
  intros Hm Hi Hd. pose proof (is_frags_length _ _ Hm) as Hl.
  pose proof (lookup_lt_Some _ _ _ Hi) as Hlt.
  destruct (is_frags_lookup _ _ _ _ Hm Hi) as (Hp & Hf & Hc & _).
  unfold feed. rewrite (proj2 (Z.leb_gt _ _)), (proj2 (Z.leb_gt _ _)) by lia.
  replace (_ || _) with true.
  2:{ symmetry. apply orb_true_iff. rewrite !bool_decide_eq_true. lia. }
  rewrite Hf, Hc, !Nat2Z.id, set_at_ok by (by rewrite length_replicate).
  eexists. split; [done|]. split; cbn [frags pkt_id count].
  - by rewrite length_insert, length_replicate.
  - intros g Hg. apply list_elem_of_lookup in Hg as [j Hj].
    destruct (is_frags_lookup _ _ _ _ Hm Hj) as [-> _]. done.
  - intros j. destruct (decide (i = j)) as [<-|Hij].
    + rewrite list_lookup_insert_eq by (by rewrite length_replicate).
      rewrite Hi. cbn. by rewrite decide_True by set_solver.
    + rewrite list_lookup_insert_ne by done.
      destruct (fs !! j) as [g|] eqn:Hj; cbn.
      * rewrite decide_False by set_solver. rewrite lookup_replicate_2; [done|].
        by apply lookup_lt_Some in Hj.
      * apply lookup_ge_None in Hj. apply lookup_ge_None. by rewrite length_replicate.
  - by rewrite size_singleton.
  - intros j ->%elem_of_singleton. done.
Qed.

(** The guards of [feed] on a fragment of the packet being collected. *)
Lemma feed_collecting {E} oc m fs S d i f :
  is_frags m fs → collecting fs S d → fs !! i = Some f →
  @feed E oc d f =
  if decide (i ∈ S) then Ok (d, None) else
    c ← add_u 8 oc (count d) 1;
    let slots := <[i := Some f]> (frags d) in
    if bool_decide (c = Z.of_nat (length slots)) then
      Ok ({| pkt_id := pkt_id d; frags := <[i := None]> slots; count := c;
             dsize := dsize d + length (data f) |},
          Some (with_frag f 0 1 (assemble slots)))
    else Ok ({| pkt_id := pkt_id d; frags := slots; count := c;
                dsize := dsize d + length (data f) |}, None).
Proof.
  intros Hm Hd Hi. pose proof (is_frags_length _ _ Hm) as Hl.
  pose proof (lookup_lt_Some _ _ _ Hi) as Hlt.
  destruct (is_frags_lookup _ _ _ _ Hm Hi) as (Hp & Hf & Hc & _).
  unfold feed. rewrite (proj2 (Z.leb_gt _ _)), (proj2 (Z.leb_gt _ _)) by lia.
  rewrite bool_decide_eq_false_2.
  2:{ intros Hn. apply Hn, (col_pid _ _ _ Hd), list_elem_of_lookup. eauto. }
  rewrite bool_decide_eq_false_2 by (rewrite (col_len _ _ _ Hd); lia). cbn [orb].
  rewrite Hf, Nat2Z.id, (col_slot _ _ _ Hd), Hi. cbn.
  case_decide; cbn; [done|]. destruct (add_u 8 oc (count d) 1) as [c| |]; cbn; [|done..].
  rewrite set_at_ok by (by rewrite (col_len _ _ _ Hd)). cbn.
  case_bool_decide; [|done].
  by rewrite list_lookup_insert_eq by (by rewrite (col_len _ _ _ Hd)).
Qed.

Lemma collecting_dup {E} oc m fs S d i f :
  is_frags m fs → collecting fs S d → fs !! i = Some f → i ∈ S →
  @feed E oc d f = Ok (d, None).
Proof. intros Hm Hd Hi HS. rewrite (feed_collecting oc _ _ _ _ _ _ Hm Hd Hi). by rewrite decide_True. Qed.

Lemma collecting_insert fs S d i f c n :
  collecting fs S d → fs !! i = Some f → i ∉ S → c = (count d + 1)%Z →
  collecting fs ({[i]} ∪ S)
    {| pkt_id := pkt_id d; frags := <[i := Some f]> (frags d); count := c; dsize := n |}.
Proof.
  intros Hd Hi HS ->. pose proof (lookup_lt_Some _ _ _ Hi) as Hlt.
  split; cbn [frags pkt_id count].
  - rewrite length_insert. apply Hd.
  - apply Hd.
  - intros j. destruct (decide (i = j)) as [<-|Hij].
    + rewrite list_lookup_insert_eq by (by rewrite (col_len _ _ _ Hd)).
      rewrite Hi. cbn. by rewrite decide_True by set_solver.
    + rewrite list_lookup_insert_ne, (col_slot _ _ _ Hd) by done.
      destruct (fs !! j); cbn; [|done]. f_equal. apply decide_ext. set_solver.
  - rewrite size_union, size_singleton by set_solver. rewrite (col_count _ _ _ Hd). lia.
  - intros j [->%elem_of_singleton|Hj]%elem_of_union; [done|]. by apply (col_range _ _ _ Hd).
Qed.

Lemma collecting_add {E} oc m fs S d i f :
  is_frags m fs → collecting fs S d → fs !! i = Some f → i ∉ S →
  base.size S + 1 < length fs →
  ∃ d', @feed E oc d f = Ok (d', None) ∧ collecting fs ({[i]} ∪ S) d'.
Proof.
  intros Hm Hd Hi HS Hsz. pose proof (is_frags_length _ _ Hm) as Hl.
  pose proof (col_count _ _ _ Hd) as Hcnt.
  rewrite (feed_collecting oc _ _ _ _ _ _ Hm Hd Hi), decide_False by done.
  rewrite add_u_ok by lia. cbn. rewrite length_insert, (col_len _ _ _ Hd).
  rewrite bool_decide_eq_false_2 by lia. eexists. split; [done|]. by apply collecting_insert.
Qed.

Lemma collecting_full_slots fs S d :
  collecting fs S d → (∀ i, i < length fs → i ∈ S) → frags d = Some <$> fs.
Proof.
  intros Hd HS. apply list_eq. intros i. rewrite (col_slot _ _ _ Hd), list_lookup_fmap.
  destruct (fs !! i) eqn:Hi; cbn; [|done].
  rewrite decide_True; [done|]. apply HS. by apply lookup_lt_Some in Hi.
Qed.

Lemma collecting_last {E} oc m fs S d i f :
  is_frags m fs → collecting fs S d → fs !! i = Some f → i ∉ S →
  base.size S + 1 = length fs →
  ∃ d', @feed E oc d f = Ok (d', Some (with_frag m 0 1 (concat (data <$> fs)))) ∧
    completed fs i d'.
Proof.
  intros Hm Hd Hi HS Hsz. pose proof (is_frags_length _ _ Hm) as Hl.
  pose proof (col_count _ _ _ Hd) as Hcnt.
  destruct (is_frags_lookup _ _ _ _ Hm Hi) as (_ & _ & _ & Hw).
  rewrite (feed_collecting oc _ _ _ _ _ _ Hm Hd Hi), decide_False by done.
  rewrite add_u_ok by lia. cbn. rewrite length_insert, (col_len _ _ _ Hd).
  rewrite bool_decide_eq_true_2 by lia. eexists.
  pose proof (collecting_insert _ _ _ _ _ (count d + 1)%Z 0 Hd Hi HS eq_refl) as Hd'.
  assert (Hall : <[i := Some f]> (frags d) = Some <$> fs).
  { apply (collecting_full_slots _ _ _ Hd'), full_set; [by apply (col_range _ _ _ Hd')|].
    rewrite size_union, size_singleton by set_solver. lia. }
  rewrite Hw. unfold assemble. rewrite Hall, omap_id_Some. split; [done|].
  split; cbn [frags pkt_id count]; [|apply Hd| |lia].
  - by rewrite length_insert, length_fmap.
  - rewrite list_lookup_insert_eq; [done|]. rewrite length_fmap. by apply lookup_lt_Some in Hi.
Qed.

(** The indices of a sequence of fragments. *)
Definition pick_frags (fs : list UdpMessage) (ids : list nat) : list UdpMessage :=
  omap (fs !!.) ids.

Lemma pick_frags_cons fs i f ids :
  fs !! i = Some f → pick_frags fs (i :: ids) = f :: pick_frags fs ids.
Proof. intros H. unfold pick_frags. cbn. by rewrite H. Qed.

Lemma pick_all fs : pick_frags fs (seq 0 (length fs)) = fs.
Proof.
  assert (Hd : ∀ pre l, pick_frags (pre ++ l) (seq (length pre) (length l)) = l).
  { intros pre l. revert pre. induction l as [|f l IH]; intros pre; [done|]. cbn [length seq].
    rewrite (pick_frags_cons _ _ f) by (by apply list_lookup_middle). f_equal.
    specialize (IH (pre ++ [f])). rewrite length_app in IH. cbn [length] in IH.
    by rewrite Nat.add_1_r, <-app_assoc in IH. }
  apply (Hd [] fs).
Qed.

(** Any sequence with duplicates that leaves at least one index out. *)
Lemma collecting_seq {E} oc m fs S d ids :
  is_frags m fs → collecting fs S d → Forall (λ i, i < length fs) ids →
  (∃ j, j < length fs ∧ (j ∉ S) ∧ (j ∉ ids)) →
  ∃ d', @feed_all E oc d (pick_frags fs ids) = Ok (d', replicate (length ids) None) ∧
    collecting fs (list_to_set ids ∪ S) d'.
Proof.
  intros Hm Hd His Hj. revert S d Hd Hj.
  induction His as [|i ids Hi His IH]; intros S d Hd (j & Hj & HjS & Hjis).
  - exists d. split; [done|]. by rewrite list_to_set_nil, (left_id_L ∅ (∪)).
  - apply not_elem_of_cons in Hjis as [Hji Hjis].
    destruct (lookup_lt_is_Some_2 _ _ Hi) as [f Hf].
    rewrite (pick_frags_cons _ _ _ _ Hf). cbn [feed_all length replicate].
    assert (∃ d1, @feed E oc d f = Ok (d1, None) ∧ collecting fs ({[i]} ∪ S) d1)
      as (d1 & -> & Hd1).
    { destruct (decide (i ∈ S)) as [HiS|HiS].
      - exists d. split; [by eapply collecting_dup|].
        by replace ({[i]} ∪ S) with S by set_solver.
      - eapply collecting_add; eauto.
        assert (base.size ({[i]} ∪ ({[j]} ∪ S)) ≤ length fs).
        { rewrite <-(size_set_seq (C := gset nat) 0 (length fs)). apply subseteq_size.
          intros x Hx. apply elem_of_set_seq. pose proof (col_range _ _ _ Hd x).
          set_solver by lia. }
        rewrite !size_union, !size_singleton in H by set_solver. lia. }
    destruct (IH ({[i]} ∪ S) d1 Hd1) as (d2 & Hr & Hd2).
    { exists j. set_solver. }
    cbn. rewrite Hr. exists d2. split; [done|].
    by replace ({[i]} ∪ list_to_set ids ∪ S) with (list_to_set ids ∪ ({[i]} ∪ S))
      by set_solver.
Qed.

Lemma feed_all_app {E} oc d ms1 ms2 :
  @feed_all E oc d (ms1 ++ ms2) =
  '(d, os1) ← feed_all oc d ms1; '(d, os2) ← feed_all oc d ms2; Ok (d, os1 ++ os2).
Proof.
  revert d. induction ms1 as [|m ms1 IH]; intros d; cbn.
  - by destruct (feed_all oc d ms2) as [[]| |].
  - destruct (feed oc d m) as [[d1 o]| |]; cbn; [|done..]. rewrite IH.
    destruct (feed_all oc d1 ms1) as [[d2 os1]| |]; cbn; [|done..].
    by destruct (feed_all oc d2 ms2) as [[d3 os2]| |].
Qed.

(** Reassembly of any arrival order that ends with the last missing index. *)
Lemma reassemble {E} oc m fs d ids i :
  is_frags m fs → packet_id m ≠ pkt_id d ∨ length (frags d) ≠ length fs →
  Forall (λ j, j < length fs) (ids ++ [i]) → i ∉ ids →
  (∀ j, j < length fs → j ∈ ids ++ [i]) →
  ∃ d', @feed_all E oc d (pick_frags fs (ids ++ [i])) =
    Ok (d', replicate (length ids) None ++ [Some (with_frag m 0 1 (concat (data <$> fs)))])
    ∧ completed fs i d'.
Proof.
  intros Hm Hd Hr Hi Hall. apply Forall_app in Hr as [Hids Hil].
  apply Forall_cons_1 in Hil as [Hil _]. pose proof (is_frags_length _ _ Hm) as Hl.
  destruct (lookup_lt_is_Some_2 _ _ Hil) as [f Hf].
  assert (Hsplit : pick_frags fs (ids ++ [i]) = pick_frags fs ids ++ [f]).
  { unfold pick_frags. rewrite omap_app. cbn. by rewrite Hf. }
  destruct ids as [|i0 ids].
  { assert (0 ∈ [i] ∧ 1 ∈ [i]) as [H0 H1] by (split; apply Hall; lia). set_solver by lia. }
  apply Forall_cons in Hids as [Hi0 Hids]. apply not_elem_of_cons in Hi as [Hi0i Hi].
  destruct (lookup_lt_is_Some_2 _ _ Hi0) as [f0 Hf0].
  destruct (collecting_first (E := E) oc m fs d i0 f0 Hm Hf0 Hd) as (d1 & Hd1 & Hc1).
  destruct (collecting_seq (E := E) oc m fs {[i0]} d1 ids Hm Hc1 Hids) as (d2 & Hd2 & Hc2).
  { exists i. set_solver. }
  assert (HiS : i ∉ (list_to_set ids ∪ {[i0]} : gset nat)) by set_solver.
  destruct (collecting_last (E := E) oc m fs _ d2 i f Hm Hc2 Hf HiS) as (d3 & Hd3 & Hcmp).
  { assert (Hs : ({[i]} ∪ (list_to_set ids ∪ {[i0]}) : gset nat) = set_seq 0 (length fs)).
    { apply set_eq. intros x. rewrite elem_of_set_seq. specialize (Hall x).
      rewrite Forall_forall in Hids. specialize (Hids x). set_solver by lia. }
    apply (f_equal base.size) in Hs.
    rewrite size_union, size_singleton, size_set_seq in Hs by set_solver. lia. }
  exists d3. rewrite Hsplit, (pick_frags_cons _ _ _ _ Hf0), feed_all_app.
  cbn. rewrite Hd1. cbn. rewrite Hd2. cbn. by rewrite Hd3.
Qed.

Lemma frag_is_frags m max_size :
  header_size m < max_size < size m → (needed m max_size ≤ 255)%Z →
  is_frags m (number m (needed m max_size) 0 (pieces m max_size)).
Proof.
  intros Hs Hc. exists (pieces m max_size). pose proof (needed_two _ _ Hs).
  pose proof (length_pieces m max_size ltac:(lia)) as Hl. rewrite Hl. split; [done|lia].
Qed.

Lemma frag_loop_panic {E} fuel m c k off fid acc :
  0 < k → fid ≤ 255 →
  length (data m) - off ≤ fuel →
  256 ≤ fid + length (chunks fuel k (drop off (data m))) →
  @frag_loop E (S fuel) true m c k off (Z.of_nat fid) acc = Panic.
Proof.
  intros Hk. revert off fid acc. induction fuel as [|fuel IH]; intros off fid acc Hf Hfuel Hid.
  - cbn [chunks length] in Hid. lia.
  - rewrite frag_loop_S. destruct (drop off (data m)) as [|b l] eqn:Hd; [cbn in Hid; lia|].
    assert (Hlt : off < length (data m)).
    { apply (f_equal length) in Hd. rewrite length_drop in Hd. cbn in Hd. lia. }
    rewrite decide_True by done. cbn zeta. unfold add_u. bool_cases; [|done].
    cbn [mbind outcome_bind chunks length] in *.
    replace (Z.of_nat fid + 1)%Z with (Z.of_nat (S fid)) by lia.
    apply IH; [lia|lia|].
    replace (drop (off + _) (data m)) with (drop k (b :: l)); [lia|].
    rewrite <-Hd, <-drop_drop. destruct (Nat.le_ge_cases k (length (data m) - off)).
    + by rewrite Nat.min_r.
    + rewrite Nat.min_l by done.
      by rewrite !(drop_ge (drop off (data m))) by (rewrite length_drop; lia).
Qed.

(** A duplicate of the fragment that completed a 255-fragment message. *)
Lemma completed_duplicate {E} m fs i f d :
  is_frags m fs → fs !! i = Some f → completed fs i d → length fs = 255 →
  @feed E true d f = Panic.
Proof.
  intros Hm Hi Hcmp Hl. pose proof (lookup_lt_Some _ _ _ Hi) as Hlt.
  destruct (is_frags_lookup _ _ _ _ Hm Hi) as (_ & Hfi & Hfc & _).
  unfold feed. rewrite Hfi, Hfc.
  rewrite (proj2 (Z.leb_gt _ _)), (proj2 (Z.leb_gt _ _)) by lia.
  rewrite bool_decide_eq_false_2.
  2:{ intros Hn. apply Hn, (cmp_pid _ _ _ Hcmp), list_elem_of_lookup. eauto. }
  rewrite bool_decide_eq_false_2 by (rewrite (cmp_len _ _ _ Hcmp); lia).
  rewrite Nat2Z.id. cbn [orb]. rewrite (cmp_slot _ _ _ Hcmp). cbn [or_panic mbind outcome_bind].
  by rewrite (cmp_count _ _ _ Hcmp), Hl.
Qed.

Lemma duplicate_overflow {E} m fs d n :
  is_frags m fs → length (frags d) ≠ length fs → length fs = 255 → S n = 255 →
  @feed_all E true d (pick_frags fs (seq 0 (S n) ++ [n])) = Panic.
Proof.
  intros Hm Hd Hl Hn.
  destruct (reassemble (E := E) true m fs d (seq 0 n) n) as (d' & Hf & Hcmp); [done|by right|..].
  - apply Forall_forall. intros j. rewrite elem_of_app, elem_of_seq, list_elem_of_singleton. lia.
  - rewrite elem_of_seq. lia.
  - intros j Hj. rewrite elem_of_app, elem_of_seq, list_elem_of_singleton. lia.
  - destruct (lookup_lt_is_Some_2 fs n ltac:(lia)) as [f Hlast].
    unfold pick_frags in *. rewrite List.seq_S, Nat.add_0_l, omap_app, feed_all_app, Hf.
    cbn [mbind outcome_bind omap list_omap]. rewrite Hlast. cbn [feed_all].
    by rewrite (completed_duplicate _ _ _ _ _ Hm Hlast Hcmp Hl).
Qed.

(** The state a defragger keeps between messages. *)
Definition wf_defragger (d : Defragger) : Prop :=
  length (frags d) ≤ 255 ∧ is_u 8 (count d).

(** ** Properties *)

(** C6: A message that needs fragmenting and can be fragmented (its header is
    shorter than the datagram limit, the whole message is longer, and at most
    255 fragments are needed) is fragmented, and feeding the fragments to a
    defragger that is not already collecting that packet id with that many
    fragments gives it back: in whatever order the fragments arrive, and
    however often fragments other than the last missing one are repeated, every
    earlier arrival answers nothing and the one that completes the set answers
    the original message (as fragment 0 of 1). Nothing is
    claimed of other messages. *)
Theorem frag_defrag_roundtrip (oc : bool) (m : UdpMessage) (max_size : nat)
    (d : Defragger) (order : list nat) (last : nat)
    (Hsize : header_size m < max_size < size m)
    (Hcount : (needed m max_size ≤ 255)%Z)
    (Hfresh : packet_id m ≠ pkt_id d ∨ Z.of_nat (length (frags d)) ≠ needed m max_size)
    (Hrange : ∀ j, j ∈ order ++ [last] ↔ (Z.of_nat j < needed m max_size)%Z)
    (Hlast : last ∉ order) :
  ∃ fs d', @frag_udp_message io_error oc m max_size = Ok fs ∧
    @feed_all io_error oc d (pick_frags fs (order ++ [last])) =
    Ok (d', replicate (length order) None ++ [Some (with_frag m 0 1 (data m))]).
Proof.
  pose proof (frag_is_frags m max_size Hsize Hcount) as Hm.
  pose proof (length_pieces m max_size ltac:(lia)) as Hl.
  set (fs := number m _ 0 _) in *.
  assert (Hfl : length fs = length (pieces m max_size)) by apply length_number.
  destruct (reassemble (E := io_error) oc m fs d order last) as (d' & Hf & _); try done.
  - destruct Hfresh; [by left|right; lia].
  - apply Forall_forall. intros j Hj%Hrange. lia.
  - intros j Hj. apply Hrange. lia.
  - exists fs, d'. split; [by apply frag_split|]. rewrite Hf.
    unfold fs, pieces, size in *. by rewrite data_number, chunks_concat by lia.
Qed.

(** What [frag_udp_message] returns on each branch: the message itself when
    it fits, nothing when the header alone does not, and otherwise (up to 255
    fragments) consecutively numbered non-empty fragments that fit in
    [max_size], keep the session, packet and address, and concatenate to the
    payload. *)
Theorem frag_udp_message_spec (oc : bool) (m : UdpMessage) (max_size : nat)
    (Hcount : (needed m max_size ≤ 255)%Z) :
  ∃ fs, @frag_udp_message io_error oc m max_size = Ok fs ∧
  if decide (size m ≤ max_size) then fs = [m]
  else if decide (max_size ≤ header_size m) then fs = []
  else concat (data <$> fs) = data m ∧
    Z.of_nat (length fs) = needed m max_size ∧
    ∀ i f, fs !! i = Some f →
      f = with_frag m (Z.of_nat i) (needed m max_size) (data f) ∧
      data f ≠ [] ∧ size f ≤ max_size.
Proof.
  case_decide as H1.
  { exists [m]. unfold frag_udp_message. by rewrite decide_True. }
  case_decide as H2.
  { exists []. unfold frag_udp_message. by rewrite decide_False, decide_True. }
  exists (number m (needed m max_size) 0 (pieces m max_size)).
  split; [apply frag_split; lia|]. split_and!.
  - rewrite data_number. apply chunks_concat; lia.
  - rewrite length_number. apply length_pieces. lia.
  - intros i f Hf. unfold number in Hf. rewrite list_lookup_imap in Hf.
    destruct (pieces m max_size !! i) as [p|] eqn:Hp; [|done]. injection Hf as <-.
    assert (Hb : 0 < length p ≤ max_size - header_size m).
    { refine (Forall_lookup_1 _ _ _ _ (chunks_bound _ _ _ _) Hp). lia. }
    split; [done|]. cbn [data with_frag]. split; [intros ->; cbn in Hb; lia|].
    unfold size in *. rewrite header_size_with_frag. cbn [data with_frag]. lia.
Qed.

(** More than 255 fragments overflow the [u8] fragment index: a build with
    overflow checks panics on every such message. *)
Theorem frag_overflow_panics (m : UdpMessage) (max_size : nat)
    (Hsize : header_size m < max_size < size m) (Hcount : (255 < needed m max_size)%Z) :
  @frag_udp_message io_error true m max_size = Panic.
Proof.
  unfold frag_udp_message. rewrite !decide_False by lia.
  apply (frag_loop_panic _ _ _ _ _ 0); [lia|lia|lia|].
  pose proof (length_pieces m max_size ltac:(lia)). rewrite drop_0. unfold pieces in *. lia.
Qed.

(** A defragger's state stays bounded whatever is fed to it (at most 255
    slots), and [feed] without overflow checks never panics; with them it can
    only panic when the fragment counter has reached 255. *)
Theorem feed_safe (oc : bool) (d : Defragger) (m : UdpMessage)
    (Hd : wf_defragger d) (Hm : wf_msg m) :
  match @feed io_error oc d m with
  | Ok (d', _) => wf_defragger d'
  | Err _ => False
  | Panic => oc = true ∧ count d = 255%Z
  end.
Proof.
  destruct Hd as [Hl Hc]. destruct Hm as (_ & _ & Hfi & Hfc & _). unfold is_u in *.
  unfold feed. bool_cases; [done|done|]. destruct (_ || _) eqn:Hg.
  - rewrite set_at_ok by (rewrite length_replicate; lia). cbn.
    split; cbn [frags count]; [rewrite length_insert, length_replicate|unfold is_u]; lia.
  - apply orb_false_iff in Hg as [_ Hg%bool_decide_eq_false].
    assert (Hid : Z.to_nat (frag_id m) < length (frags d)) by lia.
    destruct (lookup_lt_is_Some_2 _ _ Hid) as [slot Hs]. rewrite Hs. cbn.
    destruct slot; [done|].
    destruct (Z.ltb_spec (count d + 1) (2 ^ 8)) as [Hlt|Hge].
    + rewrite add_u_ok by done. cbn. rewrite set_at_ok by done. cbn.
      case_bool_decide; [|by split; cbn; [rewrite length_insert|unfold is_u; lia]].
      rewrite list_lookup_insert_eq by done.
      split; cbn; [rewrite !length_insert; lia|unfold is_u; lia].
    + unfold add_u. rewrite (proj2 (Z.ltb_ge _ _)) by done.
      destruct oc; [cbn; split; [done|lia]|]. cbn. rewrite set_at_ok by done. cbn.
      assert (is_u 8 (wrap 8 (count d + 1))) by (apply Z.mod_pos_bound; lia).
      case_bool_decide; [|by split; cbn; [rewrite length_insert|]].
      rewrite list_lookup_insert_eq by done.
      split; cbn; [rewrite !length_insert; lia|done].
Qed.

(** C37: That panic is reachable from the network: once a message of 255
    fragments has been reassembled, a duplicate of the fragment that completed
    it pushes the [u8] counter past its range. *)
Theorem feed_duplicate_overflow (m : UdpMessage) (max_size : nat)
    (Hsize : header_size m < max_size < size m) (Hcount : needed m max_size = 255%Z) :
  ∃ fs, @frag_udp_message io_error true m max_size = Ok fs ∧ length fs = 255 ∧
    @feed_all io_error true defragger_default (pick_frags fs (seq 0 255 ++ [254])) = Panic.
Proof.
  pose proof (frag_is_frags m max_size Hsize ltac:(lia)) as Hm.
  pose proof (length_pieces m max_size ltac:(lia)) as Hl.
  exists (number m (needed m max_size) 0 (pieces m max_size)).
  assert (Hfl : length (number m (needed m max_size) 0 (pieces m max_size)) = 255)
    by (rewrite length_number; lia).
  split; [apply frag_split; lia|]. split; [done|].
  apply (duplicate_overflow m); [done| |done|done]. cbn. lia.
Qed.

(** ** Witnesses *)

(** [msg(987, 0, 1, data)] of the unit tests: the header is 17 bytes. *)
Definition test_msg (d : list byte) : UdpMessage :=
  {| session_id := 123; packet_id := 987; frag_id := 0; frag_count := 1;
     addr := lit "test:123"; data := d |}.

(** Three fragments arriving as 2, 0, 2, 1. *)
Lemma frag_defrag_roundtrip_witness :
  ∃ fs d', @frag_udp_message io_error true (test_msg (lit "abcdefgh")) 20 = Ok fs ∧
    @feed_all io_error true defragger_default (pick_frags fs [2; 0; 2; 1]) =
    Ok (d', [None; None; None; Some (test_msg (lit "abcdefgh"))]).
Proof.
  destruct (frag_defrag_roundtrip true (test_msg (lit "abcdefgh")) 20 defragger_default
    [2; 0; 2] 1) as (fs & d' & Hf & Hd).
  - vm_compute. lia.
  - vm_compute. discriminate.
  - left. vm_compute. discriminate.
  - intros j. change (needed _ _) with 3%Z. cbn [app]. rewrite !elem_of_cons, elem_of_nil. lia.
  - rewrite !elem_of_cons, elem_of_nil. lia.
  - exists fs, d'. split; [exact Hf|exact Hd].
Defined.

Lemma frag_udp_message_spec_witness :
  ∃ fs, @frag_udp_message io_error true (test_msg (lit "hello")) 20 = Ok fs ∧
    concat (data <$> fs) = lit "hello" ∧ length fs = 2.
Proof.
  destruct (frag_udp_message_spec true (test_msg (lit "hello")) 20) as (fs & Hf & H).
  - vm_compute. discriminate.
  - exists fs. split; [exact Hf|]. rewrite !decide_False in H by (vm_compute; lia).
    destruct H as (Hc & Hl & _). split; [exact Hc|]. change (needed _ _) with 2%Z in Hl. lia.
Defined.

Lemma frag_overflow_panics_witness :
  @frag_udp_message io_error true (test_msg (replicate 256 x61)) 18 = Panic.
Proof. apply frag_overflow_panics; vm_compute; [split; lia|reflexivity]. Defined.

Lemma feed_safe_witness :
  ∃ r, @feed io_error true defragger_default (test_msg (lit "x")) = Ok r ∧ wf_defragger r.1.
Proof.
  pose proof (feed_safe true defragger_default (test_msg (lit "x"))) as H.
  eexists. split; [reflexivity|]. apply H; vm_compute; repeat split; try lia; discriminate.
Defined.

Lemma feed_duplicate_overflow_witness :
  ∃ fs, @frag_udp_message io_error true (test_msg (replicate 255 x61)) 18 = Ok fs ∧
    length fs = 255 ∧
    @feed_all io_error true defragger_default (pick_frags fs (seq 0 255 ++ [254])) = Panic.
Proof.
  apply (feed_duplicate_overflow (test_msg (replicate 255 x61)) 18); vm_compute; [split; lia|reflexivity].
Defined.
End Frag.
