(* ===== verification/PortUnion.v ===== *)
(** * PortUnion: the port spec of port hopping

    Models [internal/portunion.rs]: [parse_port_union], the private
    [normalize], and [PortUnion::ports]/[contains].  A [PortUnion] is the list
    of its ranges; the sort is stdpp's merge sort on the key the source sorts
    by (equal keys are equal ranges, so stability does not matter). *)
From S2P Require Import Prelude RustStr.
From stdpp Require Import sorting.
Local Open Scope Z_scope.

Module PortUnion.
Import RustStr.

Record PortRange := { start : Z; end_ : Z }.
#[export] Instance PortRange_eq_dec : EqDecision PortRange.
Proof. solve_decision. Defined.

Abbreviation t := (list PortRange).

(** The order of the sort key [(start, end)]. *)
Definition key_le (a b : PortRange) : Prop :=
  start a < start b ∨ (start a = start b ∧ end_ a ≤ end_ b).
#[export] Instance key_le_dec : RelDecision key_le.
Proof. unfold RelDecision, key_le. intros a b. apply _. Defined.

(** One turn of the merge loop: extend the last range or push [current]. *)
Definition merge_one (normalized : list PortRange) (current : PortRange) : list PortRange :=
  match last normalized with
  | Some l =>
    if decide (start current ≤ end_ l + 1) then
      if decide (end_ l < end_ current)
      then <[pred (length normalized) := {| start := start l; end_ := end_ current |}]> normalized
      else normalized
    else normalized ++ [current]
  | None => normalized ++ [current]
  end.

Definition normalize (ranges : list PortRange) : t :=
  foldl merge_one [] (merge_sort key_le ranges).

(** One comma-separated part: a port, or two endpoints in either order. *)
Definition parse_part (part : rstr) : option PortRange :=
  if contains x2d part then
    match split x2d part with
    | [a; b] =>
      s ← parse_uint 16 a;
      e ← parse_uint 16 b;
      if decide (e < s) then Some {| start := e; end_ := s |}
      else Some {| start := s; end_ := e |}
    | _ => None
    end
  else
    port ← parse_uint 16 part;
    Some {| start := port; end_ := port |}.

Definition parse_port_union (s : rstr) : option t :=
  if bool_decide (s = lit "all") || bool_decide (s = lit "*")
  then Some [{| start := 0; end_ := 65535 |}]
  else
    result ← mapM parse_part (split x2c s);
    if bool_decide (result = []) then None else Some (normalize result).

(** [start..=end]. *)
Definition range_ports (r : PortRange) : list Z :=
  seqZ (start r) (end_ r - start r + 1).

Definition ports (u : t) : list Z := concat (range_ports <$> u).

Definition contains (u : t) (port : Z) : bool :=
  existsb (λ r, (start r <=? port) && (port <=? end_ r)) u.

(** ** Order and coverage *)

#[export] Instance key_le_trans : Transitive key_le.
Proof. intros a b c. unfold key_le. lia. Qed.
#[export] Instance key_le_total : Total key_le.
Proof. intros a b. unfold key_le. lia. Qed.

(** Endpoints in range and in order. *)
Definition wf_range (r : PortRange) : Prop := 0 ≤ start r ≤ end_ r ∧ end_ r ≤ 65535.

(** Ranges in ascending order with a gap between neighbours. *)
Definition gapped : list PortRange → Prop :=
  StronglySorted (λ a b, end_ a + 1 < start b).

Definition covers (rs : list PortRange) (p : Z) : Prop :=
  ∃ r, r ∈ rs ∧ start r ≤ p ≤ end_ r.

Lemma covers_app rs1 rs2 p : covers (rs1 ++ rs2) p ↔ covers rs1 p ∨ covers rs2 p.
Proof. unfold covers. set_solver. Qed.

Lemma covers_one r p : covers [r] p ↔ start r ≤ p ≤ end_ r.
Proof. unfold covers. set_solver. Qed.

Lemma covers_perm rs1 rs2 p : rs1 ≡ₚ rs2 → covers rs1 p ↔ covers rs2 p.
Proof. intros H. unfold covers. by setoid_rewrite H. Qed.

Lemma contains_covers u p : contains u p = true ↔ covers u p.
Proof.
  unfold contains, covers. rewrite existsb_exists.
  split; intros (r & Hr & Hp); exists r; rewrite <-?list_elem_of_In, ?list_elem_of_In in *;
    (split; [done|]); [apply andb_true_iff in Hp|apply andb_true_iff]; lia.
Qed.

Lemma insert_last {A} (l : list A) x y : <[pred (length (l ++ [x])) := y]> (l ++ [x]) = l ++ [y].
Proof.
  rewrite length_app. cbn. rewrite insert_app_r_alt by lia.
  by replace (pred (length l + 1) - length l)%nat with 0%nat by lia.
Qed.

Lemma merge_one_snoc acc l c :
  merge_one (acc ++ [l]) c =
  if decide (start c ≤ end_ l + 1)
  then acc ++ [{| start := start l; end_ := Z.max (end_ l) (end_ c) |}]
  else acc ++ [l; c].
Proof.
  unfold merge_one. rewrite last_snoc, insert_last.
  case_decide; [|by rewrite <-app_assoc].
  case_decide; do 2 f_equal; [|destruct l]; f_equal; cbn in *; lia.
Qed.

Lemma gapped_snoc acc x :
  gapped (acc ++ [x]) ↔ gapped acc ∧ Forall (λ a, end_ a + 1 < start x) acc.
Proof.
  unfold gapped. rewrite StronglySorted_app. split.
  - intros (H & Ha & _). split; [done|]. apply Forall_forall. intros a Hin. apply H; set_solver.
  - intros [Ha Hf]. rewrite Forall_forall in Hf. split_and!; [set_solver|done|].
    constructor; constructor.
Qed.

(** What the merge loop preserves, [rest] being the ranges still to come. *)
Record merging (acc rest : list PortRange) : Prop := {
  mg_gapped : gapped acc;
  mg_wf : Forall wf_range acc;
  mg_next : ∀ l r, last acc = Some l → r ∈ rest → start l ≤ start r;
}.

Lemma merge_one_ok acc c rest :
  merging acc (c :: rest) → wf_range c → (∀ r, r ∈ rest → start c ≤ start r) →
  merging (merge_one acc c) rest ∧
  ∀ p, covers (merge_one acc c) p ↔ covers (acc ++ [c]) p.
Proof.
  intros [Hg Hwf Hn] Hc Hrest. destruct acc as [|l acc _] using rev_ind.
  { split; [|done]. split; cbn; [apply SSorted_cons; constructor|by constructor|].
    intros l r [= <-]. eauto. }
  rewrite last_snoc in Hn. specialize (Hn l c eq_refl ltac:(left)) as Hlc.
  apply gapped_snoc in Hg as [Hg Hgl]. apply Forall_app in Hwf as [Hwf Hwl].
  apply Forall_cons_1 in Hwl as [Hwl _].
  rewrite merge_one_snoc. case_decide as Hadj.
  - split.
    + split.
      * apply gapped_snoc. split; [done|]. cbn. done.
      * apply Forall_app. split; [done|]. constructor; [|done].
        unfold wf_range in *. cbn. lia.
      * rewrite last_snoc. intros x r [= <-] Hr. cbn. apply (Hn l); [done|by right].
    + intros p. rewrite !covers_app, !covers_one. cbn.
      assert (start l ≤ p ≤ end_ l `max` end_ c ↔ start l ≤ p ≤ end_ l ∨ start c ≤ p ≤ end_ c)
        by (unfold wf_range in *; lia).
      tauto.
  - split.
    + change [l; c] with ([l] ++ [c]). rewrite app_assoc. split.
      * apply gapped_snoc. split; [by apply gapped_snoc|]. apply Forall_app. split.
        -- eapply Forall_impl; [exact Hgl|]. cbn. intros a Ha. lia.
        -- constructor; [lia|done].
      * repeat (apply Forall_app; split); auto.
      * rewrite last_snoc. intros x r [= <-]. eauto.
    + intros p. by rewrite <-app_assoc.
Qed.

Lemma merge_all_ok rest acc :
  merging acc rest → Forall wf_range rest → StronglySorted key_le rest →
  merging (foldl merge_one acc rest) [] ∧
  ∀ p, covers (foldl merge_one acc rest) p ↔ covers (acc ++ rest) p.
Proof.
  revert acc. induction rest as [|c rest IH]; intros acc Hm Hwf Hs; cbn.
  - split; [done|]. intros p. by rewrite app_nil_r.
  - apply Forall_cons in Hwf as [Hc Hwf]. apply StronglySorted_inv in Hs as [Hs Hle].
    destruct (merge_one_ok acc c rest Hm Hc) as [Hm' Hcov].
    { rewrite Forall_forall in Hle. intros r Hr. specialize (Hle r Hr). unfold key_le in Hle. lia. }
    destruct (IH _ Hm' Hwf Hs) as [Hfin Hcov']. split; [done|].
    intros p. rewrite Hcov', covers_app, Hcov, <-covers_app, <-app_assoc. done.
Qed.

Lemma normalize_ok rs :
  Forall wf_range rs →
  gapped (normalize rs) ∧ Forall wf_range (normalize rs) ∧
  ∀ p, covers (normalize rs) p ↔ covers rs p.
Proof.
  intros Hwf. pose proof (merge_sort_Permutation key_le rs) as Hperm.
  destruct (merge_all_ok (merge_sort key_le rs) []) as [[Hg Hw _] Hc].
  - split; [constructor|constructor|done].
  - by rewrite Hperm.
  - apply (StronglySorted_merge_sort key_le).
  - split_and!; [done|done|]. intros p. unfold normalize. rewrite Hc. by apply covers_perm.
Qed.

(** ** [ports] *)

Lemma elem_of_ports u p : p ∈ ports u ↔ covers u p.
Proof.
  unfold ports, covers, range_ports. rewrite list_elem_of_In, in_concat. split.
  - intros (l & Hl & Hp). apply list_elem_of_In in Hl, Hp.
    apply list_elem_of_fmap in Hl as (r & -> & Hr). apply elem_of_seqZ in Hp.
    exists r. split; [done|lia].
  - intros (r & Hr & Hp). exists (seqZ (start r) (end_ r - start r + 1)).
    rewrite <-!list_elem_of_In, elem_of_seqZ, list_elem_of_fmap. split; [eauto|lia].
Qed.

Lemma seqZ_sorted m n : StronglySorted Z.lt (seqZ m n).
Proof.
  destruct (Z.le_gt_cases n 0) as [Hn|Hn]; [rewrite seqZ_nil by lia; constructor|].
  rewrite <-(Z2Nat.id n) by lia. generalize (Z.to_nat n) as k. clear. intros k.
  revert m. induction k as [|k IH]; intros m; [rewrite seqZ_nil by lia; constructor|].
  rewrite seqZ_cons by lia. rewrite Nat2Z.inj_succ, Z.pred_succ. constructor; [apply IH|].
  apply Forall_forall. intros x Hx%elem_of_seqZ. lia.
Qed.

Lemma ports_sorted u : gapped u → Forall wf_range u → StronglySorted Z.lt (ports u).
Proof.
  unfold gapped. induction 1 as [|r u Hu IH Hr]; intros Hwf; [constructor|].
  apply Forall_cons in Hwf as [_ Hwf]. unfold ports in *. cbn. apply StronglySorted_app.
  split; [|split; [apply seqZ_sorted|by apply IH]].
  intros x y Hx Hy. apply elem_of_seqZ in Hx.
  change (concat _) with (ports u) in Hy. apply elem_of_ports in Hy as (r' & Hr' & Hy).
  rewrite Forall_forall in Hr. specialize (Hr r' Hr'). cbn in Hr. lia.
Qed.

(** ** [parse_port_union] *)

Lemma parse_part_wf part r : parse_part part = Some r → wf_range r.
Proof.
  unfold parse_part, wf_range. destruct (RustStr.contains x2d part).
  - destruct (split x2d part) as [|a [|b [|]]]; try done.
    destruct (parse_uint 16 a) as [s|] eqn:Hs; cbn [mbind option_bind]; [|done].
    destruct (parse_uint 16 b) as [e|] eqn:He; cbn [mbind option_bind]; [|done].
    apply parse_uint_range in Hs, He; [|done..]. unfold is_u in *.
    case_decide; intros [= <-]; cbn; lia.
  - destruct (parse_uint 16 part) as [p|] eqn:Hp; cbn [mbind option_bind]; [|done].
    apply parse_uint_range in Hp; [|done]. unfold is_u in *. intros [= <-]. cbn. lia.
Qed.

Definition wildcard (s : rstr) : Prop := s = lit "all" ∨ s = lit "*".
#[export] Instance wildcard_dec s : Decision (wildcard s).
Proof. unfold wildcard. apply _. Defined.

(** What a part may be: a port, or two ports around a dash, in either order. *)
Inductive names : rstr → Z → Z → Prop :=
| names_port part n :
    x2d ∉ part → parse_uint 16 part = Some n → names part n n
| names_range a b m n :
    x2d ∉ a → x2d ∉ b → parse_uint 16 a = Some m → parse_uint 16 b = Some n →
    names (a ++ x2d :: b) (Z.min m n) (Z.max m n).

Lemma parse_part_names part m n :
  names part m n ↔ parse_part part = Some {| start := m; end_ := n |}.
Proof.
  unfold parse_part, RustStr.contains. split.
  - intros [part' k Hd Hk|a b i j Ha Hb Hi Hj].
    + by rewrite bool_decide_eq_false_2, Hk by done.
    + rewrite bool_decide_eq_true_2 by set_solver. rewrite (proj2 (split_two x2d _ a b)) by done.
      rewrite Hi, Hj. cbn. case_decide; f_equal; f_equal; lia.
  - case_bool_decide as Hd.
    + destruct (split x2d part) as [|a [|b [|]]] eqn:Hs; try done. apply split_two in Hs as (-> & Ha & Hb).
      destruct (parse_uint 16 a) as [i|] eqn:Hi; cbn [mbind option_bind]; [|done].
      destruct (parse_uint 16 b) as [j|] eqn:Hj; cbn [mbind option_bind]; [|done].
      pose proof (names_range a b i j Ha Hb Hi Hj) as Hn.
      case_decide; intros [= <- <-]; by rewrite ?Z.min_l, ?Z.max_r, ?Z.min_r, ?Z.max_l in Hn by lia.
    + destruct (parse_uint 16 part) as [k|] eqn:Hk; cbn [mbind option_bind]; [|done].
      intros [= <- <-]. by constructor.
Qed.

(** The ports a comma-separated spec names, part by part. *)
Definition spec_covers (s : rstr) (p : Z) : Prop :=
  ∃ part m n, part ∈ split x2c s ∧ names part m n ∧ m ≤ p ≤ n.

Lemma parse_unfold s :
  parse_port_union s =
  if decide (wildcard s) then Some [{| start := 0; end_ := 65535 |}]
  else normalize <$> mapM parse_part (split x2c s).
Proof.
  unfold parse_port_union. replace (_ || _) with (bool_decide (wildcard s)).
  2:{ apply Bool.eq_iff_eq_true. by rewrite orb_true_iff, !bool_decide_eq_true. }
  case_bool_decide as Hw; [by rewrite decide_True|]. rewrite decide_False by done.
  destruct (mapM parse_part _) as [rs|] eqn:Hm; cbn; [|done].
  rewrite bool_decide_eq_false_2; [done|]. intros ->. apply mapM_Some_1, Forall2_length in Hm.
  destruct (split x2c s) eqn:Hs; [|done]. by apply split_on_not_nil in Hs.
Qed.

Lemma mapM_covers s rs p :
  mapM parse_part (split x2c s) = Some rs → covers rs p ↔ spec_covers s p.
Proof.
  intros Hm%mapM_Some_1. unfold covers, spec_covers. split.
  - intros (r & Hr & Hp). apply list_elem_of_lookup in Hr as [i Hr].
    destruct (Forall2_lookup_r _ _ _ _ _ Hm Hr) as (part & Hi & Hpart).
    exists part, (start r), (end_ r). split; [apply list_elem_of_lookup; eauto|]. split; [|done].
    apply parse_part_names. by destruct r.
  - intros (part & m & n & Hin & Hpart%parse_part_names & Hp). apply list_elem_of_lookup in Hin as [i Hi].
    destruct (Forall2_lookup_l _ _ _ _ _ Hm Hi) as (r' & Hr & Hpart').
    rewrite Hpart in Hpart'. injection Hpart' as <-.
    eexists. split; [apply list_elem_of_lookup; eauto|done].
Qed.

Lemma mapM_wf s rs : mapM parse_part (split x2c s) = Some rs → Forall wf_range rs.
Proof.
  intros Hm%mapM_Some_1. apply Forall_forall. intros r Hr.
  apply list_elem_of_lookup in Hr as [i Hr].
  destruct (Forall2_lookup_r _ _ _ _ _ Hm Hr) as (part & _ & Hp).
  by eapply parse_part_wf.
Qed.

(** The first endpoint written in a part lies in the part's range. *)
Lemma parse_part_first part r port :
  parse_part part = Some r →
  parse_uint 16 (until (λ b, bool_decide (b = x2d)) part) = Some port →
  start r ≤ port ≤ end_ r.
Proof.
  unfold parse_part. destruct (RustStr.contains x2d part) eqn:Hc.
  - pose proof (head_split_on (λ b, bool_decide (b = x2d)) part) as Hh.
    change (split_on _ part) with (split x2d part) in Hh.
    destruct (split x2d part) as [|a [|b [|]]]; try done. injection Hh as <-.
    intros H Hp. rewrite Hp in H. cbn [mbind option_bind] in H.
    destruct (parse_uint 16 b) as [e|]; [|done]. cbn [mbind option_bind] in H.
    case_decide; injection H as <-; cbn; lia.
  - rewrite until_no_sep.
    + intros H Hp. rewrite Hp in H. injection H as <-. cbn. lia.
    + unfold RustStr.contains in Hc. apply bool_decide_eq_false in Hc.
      apply Forall_forall. intros b Hb. apply bool_decide_eq_false. congruence.
Qed.

(** The port a spec starts with belongs to the union it denotes. *)
Lemma parse_port_union_first s u port :
  parse_port_union s = Some u → ¬ wildcard s →
  parse_uint 16 (until (λ b, bool_decide (b = x2d) || bool_decide (b = x2c)) s) = Some port →
  contains u port = true.
Proof.
  rewrite parse_unfold, <-until_until. intros Hu Hw Hp. rewrite decide_False in Hu by done.
  destruct (mapM parse_part (split x2c s)) as [rs|] eqn:Hm; [injection Hu as <-|done].
  destruct (normalize_ok rs (mapM_wf _ _ Hm)) as (_ & _ & Hc).
  apply contains_covers, Hc, (mapM_covers s rs port Hm).
  pose proof (head_split_on (λ b, bool_decide (b = x2c)) s) as Hh.
  change (split_on _ s) with (split x2c s) in Hh. unfold spec_covers.
  destruct (split x2c s) as [|part parts]; [done|]. injection Hh as Hh. rewrite <-Hh in Hp.
  apply mapM_Some_1 in Hm. inversion Hm as [|? r ? rs' Hpart]; subst.
  exists (until (λ b, bool_decide (b = x2c)) s), (start r), (end_ r). split; [left|].
  split; [apply parse_part_names; by destruct r|by eapply parse_part_first].
Qed.

(** ** Properties *)

(** C26: The union a port spec denotes. A spec other than a wildcard is rejected
    exactly when one of its comma-separated parts is neither a port nor two
    ports around one dash, each a decimal below 65536. Otherwise the result is a
    non-empty list of in-range ranges in ascending order with gaps between
    neighbours, and it contains exactly the ports the parts name, the ends of a
    range in either order (all ports for a wildcard). *)
Theorem parse_port_union_spec (s : rstr) :
  (parse_port_union s = None ↔
     ¬ wildcard s ∧ ∃ part, part ∈ split x2c s ∧ ∀ m n, ¬ names part m n) ∧
  ∀ u, parse_port_union s = Some u →
    u ≠ [] ∧ gapped u ∧ Forall wf_range u ∧
    ∀ p, contains u p = true ↔ (wildcard s ∧ 0 ≤ p ≤ 65535) ∨ (¬ wildcard s ∧ spec_covers s p).
Proof.
  rewrite parse_unfold. case_decide as Hw.
  - split; [naive_solver|]. intros u [= <-].
    split_and!; [done|apply SSorted_cons; constructor|repeat constructor; cbn; lia|].
    intros p. rewrite contains_covers, covers_one. cbn. tauto.
  - destruct (mapM parse_part (split x2c s)) as [rs|] eqn:Hm; cbn.
    + split.
      { split; [done|]. intros (_ & part & Hin & Hno). apply mapM_Some_1 in Hm.
        apply list_elem_of_lookup in Hin as [i Hi].
        destruct (Forall2_lookup_l _ _ _ _ _ Hm Hi) as ([m n] & _ & Hp). by destruct (Hno m n (proj2 (parse_part_names _ _ _) Hp)). }
      intros u [= <-]. pose proof (mapM_wf _ _ Hm) as Hwf.
      destruct (normalize_ok rs Hwf) as (Hg & Hn & Hc). split_and!; [|done|done|].
      * intros He. rewrite He in Hc.
        destruct rs as [|r rs]; [apply mapM_Some_1, Forall2_length in Hm|].
        { destruct (split x2c s) eqn:Hs; [by apply split_on_not_nil in Hs|done]. }
        apply Forall_cons in Hwf as [Hr _].
        destruct (proj2 (Hc (start r))) as (r' & Hr' & _); [|set_solver].
        exists r. unfold wf_range in Hr. split; [left|lia].
      * intros p. rewrite contains_covers, Hc, (mapM_covers s rs p Hm). tauto.
    + split; [|done]. split; [|done]. intros _. split; [done|].
      apply mapM_None_1, Exists_exists in Hm as (part & Hin & Hnone). exists part. split; [done|].
      intros m n Hn%parse_part_names. congruence.
Qed.

(** The port list of a union in normal form (sorted ranges with gaps) is
    strictly increasing, so has no duplicates, and lists exactly the ports the
    union contains. *)
Theorem ports_spec (u : PortUnion.t) (Hg : gapped u) (Hwf : Forall wf_range u) :
  StronglySorted Z.lt (ports u) ∧ NoDup (ports u) ∧
  ∀ p, p ∈ ports u ↔ contains u p = true.
Proof.
  pose proof (ports_sorted u Hg Hwf) as Hs. split_and!; [done| |].
  - clear Hg Hwf. induction Hs as [|p ps Hs IH Hp]; constructor; [|done].
    intros Hin. rewrite Forall_forall in Hp. specialize (Hp p Hin). lia.
  - intros p. by rewrite elem_of_ports, contains_covers.
Qed.

(** The order of parts and of range ends does not matter, an empty part does. *)
Lemma parse_port_union_spec_witness :
  parse_port_union (lit "236-234,233") = Some [{| start := 233; end_ := 236 |}] ∧
  spec_covers (lit "236-234,233") 235 ∧ parse_port_union (lit "233,") = None.
Proof.
  split; [vm_compute; reflexivity|]. split.
  - destruct (parse_port_union_spec (lit "236-234,233")) as [_ Hu].
    destruct (Hu [{| start := 233; end_ := 236 |}] ltac:(vm_compute; reflexivity)) as (_ & _ & _ & Hc).
    destruct (proj1 (Hc 235) ltac:(vm_compute; reflexivity)) as [[[Hw|Hw] _]|[_ Hs]]; [discriminate Hw..|exact Hs].
  - vm_compute. reflexivity.
Defined.

Lemma ports_spec_witness :
  parse_port_union (lit "1236-1234,65534-65535,1235") =
    Some [{| start := 1234; end_ := 1236 |}; {| start := 65534; end_ := 65535 |}] ∧
  65535 ∈ ports [{| start := 1234; end_ := 1236 |}; {| start := 65534; end_ := 65535 |}].
Proof.
  split; [vm_compute; reflexivity|].
  apply (ports_spec [{| start := 1234; end_ := 1236 |}; {| start := 65534; end_ := 65535 |}]).
  - repeat first [apply SSorted_cons|constructor]; vm_compute; reflexivity.
  - repeat constructor; vm_compute; discriminate.
  - vm_compute. reflexivity.
Defined.
End PortUnion.
