(* ===== verification/Net.v ===== *)
(** * Net: socket addresses and the datagram types of the UDP socket stack

    [std::net] addresses as values, their text form as an interface, and the
    parts of quinn's [Transmit]/[RecvMeta] the wrappers in [client/] touch, and
    tokio's [AsyncRead] and [AsyncWrite] as classes. *)
From S2P Require Import Prelude.

Module Net.

Inductive IpAddr :=
| V4 (bits : Z)
| V6 (bits : Z).
#[export] Instance IpAddr_eq_dec : EqDecision IpAddr.
Proof. solve_decision. Defined.

(** [flowinfo] and [scope_id] are zero for every address built from an IP and a
    port. *)
Record SocketAddr := { ip : IpAddr; port : Z; flowinfo : Z; scope_id : Z }.
#[export] Instance SocketAddr_eq_dec : EqDecision SocketAddr.
Proof. solve_decision. Defined.

#[export] Program Instance IpAddr_countable : Countable IpAddr :=
  inj_countable' (λ a, match a with V4 z => inl z | V6 z => inr z end)
                 (λ s, match s with inl z => V4 z | inr z => V6 z end) _.
Next Obligation. by intros []. Qed.
#[export] Program Instance SocketAddr_countable : Countable SocketAddr :=
  inj_countable' (λ a, (ip a, port a, flowinfo a, scope_id a))
    (λ '(i, p, f, s), {| ip := i; port := p; flowinfo := f; scope_id := s |}) _.
Next Obligation. by intros []. Qed.

(** [SocketAddr::new]. *)
Definition socket_addr (i : IpAddr) (p : Z) : SocketAddr :=
  {| ip := i; port := p; flowinfo := 0; scope_id := 0 |}.

Definition is_ipv4 (a : SocketAddr) : bool :=
  match ip a with V4 _ => true | V6 _ => false end.

(** [IpAddr::to_canonical]: an IPv4-mapped IPv6 address becomes the IPv4 one. *)
Definition to_canonical (i : IpAddr) : IpAddr :=
  match i with
  | V4 _ => i
  | V6 z => if (Z.shiftr z 32 =? 0xffff)%Z then V4 (z mod 2 ^ 32) else i
  end.

(** [Display] and [FromStr] of a [SocketAddr]: parsing what was printed gives
    the address back. *)
Class SocketAddrText := {
  addr_to_string : SocketAddr → rstr;
  addr_parse : rstr → option SocketAddr;
  addr_parse_to_string a : addr_parse (addr_to_string a) = Some a;
}.

(** The fields of quinn's [Transmit] the wrappers copy. *)
Record Transmit := {
  destination : SocketAddr;
  ecn : option Z;
  contents : list byte;
  segment_size : option nat;
  src_ip : option IpAddr;
}.

(** The fields of quinn's [RecvMeta] the wrappers read or write. *)
Record RecvMeta := {
  meta_addr : SocketAddr;
  meta_len : nat;
  meta_stride : nat;
}.

(** [std::task::Poll]. *)
Inductive Poll (A : Type) :=
| Pending
| Ready (a : A).
Arguments Pending {A}.
Arguments Ready {A} a.

(** [tokio::io::ReadBuf]: what is filled and the room left. *)
Record ReadBuf := { filled : list byte; remaining : nat }.
Definition put_slice (bs : list byte) (buf : ReadBuf) : ReadBuf :=
  {| filled := filled buf ++ bs; remaining := remaining buf - length bs |}.

(** tokio's [AsyncRead] and [AsyncWrite]: a poll may change the stream. *)
Class AsyncRead (S E : Type) :=
  poll_read : ReadBuf → S → Poll (outcome E ()) * ReadBuf * S.
Class AsyncWrite (S E : Type) := {
  poll_write : list byte → S → Poll (outcome E nat) * S;
  poll_flush : S → Poll (outcome E ()) * S;
  poll_shutdown : S → Poll (outcome E ()) * S;
}.

(** One received datagram: its buffer and its metadata. *)
Abbreviation slot := (list byte * RecvMeta)%type.

(** The loop [for i in 0..count] of both [poll_recv] wrappers: [f] runs on the
    first [count] slots, in order, threading the state declared outside the
    loop; indexing past the end panics. *)
Fixpoint for_slots {St E} (f : St → slot → outcome E (St * slot)) (st : St) (count : nat)
    (slots : list slot) : outcome E (list slot) :=
  match count, slots with
  | O, _ => Ok slots
  | S count, s :: slots =>
    '(st, s) ← f st s;
    slots ← for_slots f st count slots;
    Ok (s :: slots)
  | S _, [] => Panic
  end.

(** A loop body that succeeds on every slot satisfying [P], keeps the threaded
    state's invariant [I] and relates each slot to its result by [R]. *)
Lemma for_slots_ok {St E} (f : St → slot → outcome E (St * slot))
    (I : St → Prop) (P : slot → Prop) (R : slot → slot → Prop) st count slots :
  (∀ st s, I st → P s → ∃ st' s', f st s = Ok (st', s') ∧ I st' ∧ R s s') →
  I st → count ≤ length slots → Forall P (take count slots) →
  ∃ slots', for_slots f st count slots = Ok slots' ∧ length slots' = length slots ∧
    (∀ i s, i < count → slots !! i = Some s → ∃ s', slots' !! i = Some s' ∧ R s s') ∧
    (∀ i, count ≤ i → slots' !! i = slots !! i).
Proof.
  intros Hf. revert st slots. induction count as [|count IH]; intros st slots Hst Hc HP.
  { exists slots. split_and!; [done|done| |done]. intros. lia. }
  destruct slots as [|s slots]; cbn in Hc; [lia|]. cbn [take] in HP.
  apply Forall_cons in HP as [Hs HP].
  destruct (Hf st s Hst Hs) as (st' & s' & He & Hst' & HR).
  destruct (IH st' slots Hst' ltac:(lia) HP) as (slots' & Hl & Hlen & Hlow & Hhigh).
  exists (s' :: slots'). cbn [for_slots]. rewrite He. cbn [mbind outcome_bind].
  rewrite Hl. cbn [mbind outcome_bind length]. split_and!; [done|lia| |].
  - intros [|i] x Hi Hx; cbn in *; [naive_solver|]. apply Hlow; [lia|done].
  - intros [|i] Hi; [lia|]. cbn. apply Hhigh. lia.
Qed.
End Net.
