(* ===== verification/Netstack.v ===== *)
(** * Netstack: the packet pumps around the userspace stack

    Models [netstack/src/lib.rs]: [build], the four infrastructure tasks it
    spawns (the runner, the two TUN pumps and the UDP writer) with the bounded
    reply channel, and the halves [TcpAcceptor], [UdpReceiver], [UdpSender] and
    [Infra]. The smoltcp stack and the TUN device are outside: an iteration of a
    task's loop is given the results of its calls on them, and the tasks and the
    callers interleave ([step]). *)
From S2P Require Import Prelude Errors Net.
Import Net Errors.

Module Netstack.

(** ** The data *)

Definition REPLY_CHANNEL : nat := 256.

(** [(data, from, src)]. *)
Definition Reply : Type := list byte * SocketAddr * SocketAddr.
#[global] Instance Reply_eq_dec : EqDecision Reply.
Proof. unfold Reply. apply _. Defined.

Record Config := { mtu : nat; stack_buffer : nat; udp_buffer : nat; tcp_buffer : nat }.

(** The infrastructure tasks. *)
Inductive task := Runner | TunToStack | StackToTun | UdpWriter.
#[global] Instance task_eq_dec : EqDecision task.
Proof. solve_decision. Defined.
#[global] Instance task_countable : Countable task.
Proof.
  refine (inj_countable'
    (λ t, match t with Runner => 0 | TunToStack => 1 | StackToTun => 2 | UdpWriter => 3 end)
    (λ n, match n with 0 => Runner | 1 => TunToStack | 2 => StackToTun | _ => UdpWriter end) _).
  by intros [].
Defined.
Definition all_tasks : gset task := {[Runner; TunToStack; StackToTun; UdpWriter]}.

(** [Sockets] and what its halves share: the TUN pump's buffer, the reply
    channel's queue, whether a [UdpSender] is left, and the [JoinSet] of
    [Infra]: the tasks that run and the number that ended and were not joined. *)
Record net := {
  buf : list byte;
  queue : list Reply;
  senders : bool;
  running : gset task;
  finished : nat;
}.

Definition set_buf (b : list byte) (n : net) : net :=
  {| buf := b; queue := queue n; senders := senders n; running := running n; finished := finished n |}.
Definition set_queue (q : list Reply) (n : net) : net :=
  {| buf := buf n; queue := q; senders := senders n; running := running n; finished := finished n |}.
Definition set_senders (b : bool) (n : net) : net :=
  {| buf := buf n; queue := queue n; senders := b; running := running n; finished := finished n |}.
Definition set_tasks (r : gset task) (f : nat) (n : net) : net :=
  {| buf := buf n; queue := queue n; senders := senders n; running := r; finished := f |}.

(** A task returns. The writer owns the receiving end of the reply channel. *)
Definition end_task (t : task) (n : net) : net :=
  set_tasks (running n ∖ {[t]}) (S (finished n)) (if decide (t = UdpWriter) then set_queue [] n else n).

(** ** [build] *)

(** What the builder is given, and the optional parts it returns. *)
Record StackBuilder := {
  enable_tcp : bool;
  enable_udp : bool;
  enable_icmp : bool;
  builder_mtu : nat;
  stack_buffer_size : nat;
  udp_buffer_size : nat;
  tcp_buffer_size : nat;
}.
Record Built := { runner : bool; udp_socket : bool; tcp_listener : bool }.

Definition build (build_stack : StackBuilder → outcome rstr Built) (config : Config) :
    outcome chain net :=
  built ← context (lit "build netstack") (build_stack
    {| enable_tcp := true; enable_udp := true; enable_icmp := true; builder_mtu := mtu config;
       stack_buffer_size := stack_buffer config; udp_buffer_size := udp_buffer config;
       tcp_buffer_size := tcp_buffer config |});
  if negb (runner built) then Err [lit "netstack runner missing"] else
  if negb (udp_socket built) then Err [lit "netstack UDP socket missing"] else
  if negb (tcp_listener built) then Err [lit "netstack TCP listener missing"] else
  Ok {| buf := replicate (mtu config `max` 1500) x00; queue := []; senders := true;
        running := all_tasks; finished := 0 |}.

(** ** One iteration of each loop *)

Inductive event :=
| ToStack (packet : list byte)
| ToDevice (packet : list byte)
| ToUdp (r : Reply)
| Queued (r : Reply)
| Refused (r : Reply)
| Full
| SomeEnded
| Idle.

Definition net_m := stm net Empty_set.

(** [buf.get(..n)]. *)
Definition get_to (n : nat) (b : list byte) : option (list byte) :=
  if decide (n ≤ length b) then Some (take n b) else None.

(** TUN to stack: [recv] is the count a read returned and the buffer it left,
    [sent] whether the stack took the packet. *)
Definition tun_to_stack (recv : outcome rstr (nat * list byte)) (sent : bool) : net_m event :=
  match recv with
  | Ok (n, b) =>
    _ ← modify (set_buf b);
    b ← gets buf;
    match get_to n b with
    | None => mret Idle
    | Some slice => if sent then mret (ToStack slice) else _ ← modify (end_task TunToStack); mret Idle
    end
  | _ => _ ← modify (end_task TunToStack); mret Idle
  end.

(** Stack to TUN: an item the stack could not produce is skipped. *)
Definition stack_to_tun (next : option (outcome rstr (list byte))) (sent : bool) : net_m event :=
  match next with
  | None => _ ← modify (end_task StackToTun); mret Idle
  | Some (Ok pkt) => if sent then mret (ToDevice pkt) else _ ← modify (end_task StackToTun); mret Idle
  | Some _ => mret Idle
  end.

(** The UDP writer: it waits on an empty channel, and ends once the senders are
    gone too. *)
Definition udp_writer (sent : bool) : net_m event :=
  n ← gets Datatypes.id;
  match queue n with
  | [] => if senders n then mret Idle else _ ← modify (end_task UdpWriter); mret Idle
  | (data, from, src) :: q =>
    _ ← modify (set_queue q);
    if bool_decide (is_ipv4 from ≠ is_ipv4 src) then mret Idle else
    if sent then mret (ToUdp (data, from, src)) else _ ← modify (end_task UdpWriter); mret Idle
  end.

(** ** The halves *)

(** [TcpAcceptor::accept] on the listener's [(stream, local, remote)], and
    [UdpReceiver::recv]. *)
Definition accept {S} (next : option (S * SocketAddr * SocketAddr)) : option (S * SocketAddr) :=
  '(stream, _, remote) ← next; Some (stream, remote).
Definition recv (next : option (list byte * SocketAddr * SocketAddr)) :
    option (list byte * SocketAddr * SocketAddr) := next.

(** [UdpSender::send], polled: [false] once the writer is gone, and a wait while
    the channel is full. *)
Definition udp_sender_send (r : Reply) (n : net) : Poll bool * net :=
  if decide (UdpWriter ∈ running n) then
    if decide (length (queue n) < REPLY_CHANNEL) then (Ready true, set_queue (queue n ++ [r]) n)
    else (Pending, n)
  else (Ready false, n).

(** [Infra::failed], polled: a task that ended is joined; an empty set has
    nothing to wait for. *)
Definition failed (n : net) : Poll () * net :=
  match finished n with
  | S f => (Ready (), set_tasks (running n) f n)
  | O => (if decide (running n = ∅) then Ready () else Pending, n)
  end.

(** [Infra::shutdown]: everything aborted and joined. *)
Definition shutdown (n : net) : net := set_tasks ∅ 0 (set_queue [] n).

(** ** Runs *)

Inductive input :=
| DeviceRecv (recv : outcome rstr (nat * list byte)) (sent : bool)
| StackNext (next : option (outcome rstr (list byte))) (sent : bool)
| WriterTurn (sent : bool)
| RunnerDone
| SenderSend (r : Reply)
| DropSenders
| PollFailed
| Shutdown.

Definition turn (i : input) : net_m event :=
  match i with
  | DeviceRecv r sent => tun_to_stack r sent
  | StackNext next sent => stack_to_tun next sent
  | WriterTurn sent => udp_writer sent
  | RunnerDone => _ ← modify (end_task Runner); mret Idle
  | SenderSend r =>
    n ← gets Datatypes.id;
    let '(p, n) := udp_sender_send r n in
    _ ← modify (const n);
    mret (match p with Ready true => Queued r | Ready false => Refused r | Pending => Full end)
  | DropSenders => _ ← modify (set_senders false); mret Idle
  | PollFailed =>
    n ← gets Datatypes.id;
    let '(p, n) := failed n in
    _ ← modify (const n);
    mret (match p with Ready _ => SomeEnded | Pending => Idle end)
  | Shutdown => _ ← modify shutdown; mret Idle
  end.

(** A task takes turns while it runs; a read fills the buffer in place. *)
Definition enabled (i : input) (n : net) : Prop :=
  match i with
  | DeviceRecv r _ =>
    TunToStack ∈ running n ∧ ∀ k b, r = Ok (k, b) → length b = length (buf n)
  | StackNext _ _ => StackToTun ∈ running n
  | WriterTurn _ => UdpWriter ∈ running n
  | RunnerDone => Runner ∈ running n
  | SenderSend _ | DropSenders => senders n = true
  | PollFailed | Shutdown => True
  end.

Inductive step : net → input * event → net → Prop :=
| step_turn i e n n' : enabled i n → turn i n = (Ok e, n') → step n (i, e) n'.

Inductive runs (n0 : net) : list (input * event) → net → Prop :=
| runs_nil : runs n0 [] n0
| runs_snoc hs n h n' : runs n0 hs n → step n h n' → runs n0 (hs ++ [h]) n'.

(** ** What a run moved *)

(** The packets the device delivered, and the ones the stack got. *)
Definition offered (h : input * event) : option (list byte) :=
  match h.1 with DeviceRecv (Ok (k, b)) _ => get_to k b | _ => None end.
Definition fed (h : input * event) : option (list byte) :=
  match h.2 with ToStack p => Some p | _ => None end.
(** The packets the stack emitted, and the ones the device got. *)
Definition emitted (h : input * event) : option (list byte) :=
  match h.1 with StackNext (Some (Ok p)) _ => Some p | _ => None end.
Definition written (h : input * event) : option (list byte) :=
  match h.2 with ToDevice p => Some p | _ => None end.
(** The replies accepted into the channel, and the ones handed to the stack. *)
Definition queued (h : input * event) : option Reply :=
  match h.2 with Queued r => Some r | _ => None end.
Definition handed (h : input * event) : option Reply :=
  match h.2 with ToUdp r => Some r | _ => None end.

Definition same_family (r : Reply) : Prop := is_ipv4 r.1.2 = is_ipv4 r.2.
#[global] Instance same_family_dec r : Decision (same_family r).
Proof. unfold same_family. apply _. Defined.

(** One direction of a pump: nothing is lost while it runs, and nothing is made
    up or reordered once it has ended. *)
Definition pumped {A} (alive : Prop) (source sink : list A) : Prop :=
  sink `prefix_of` source ∧ (alive → sink = source).

(** One more turn: an item is passed on, or lost by a task that ends. *)
Lemma pumped_snoc {A} (alive alive' : Prop) source sink (a b : option A) :
  pumped alive source sink → (alive' → alive) → (is_Some a → alive) →
  (a = b ∨ b = None ∧ ¬ alive') →
  pumped alive' (source ++ option_list a) (sink ++ option_list b).
Proof.
  intros [Hp He] Hle Ha [<-|[-> Hd]].
  - destruct a as [x|]; cbn; [|rewrite !app_nil_r; split; auto].
    rewrite He by eauto. by split.
  - rewrite app_nil_r. split; [|done]. by apply prefix_app_r.
Qed.

(** What a turn does to the tasks, the buffer and each direction. *)
Record moved (i : input) (e : event) (n n' : net) : Prop := {
  m_running : running n' ⊆ running n;
  m_buf : length (buf n') = length (buf n);
  m_stack : offered (i, e) = fed (i, e) ∨ fed (i, e) = None ∧ TunToStack ∉ running n';
  m_device : emitted (i, e) = written (i, e) ∨ written (i, e) = None ∧ StackToTun ∉ running n';
  m_writer : UdpWriter ∈ running n' →
    ∃ taken, queue n ++ option_list (queued (i, e)) = taken ++ queue n' ∧
      option_list (handed (i, e)) = filter same_family taken;
  m_handed : is_Some (handed (i, e)) → UdpWriter ∈ running n';
  m_queue : length (queue n) ≤ REPLY_CHANNEL → length (queue n') ≤ REPLY_CHANNEL;
  m_queued : ∀ r, queued (i, e) = Some r → i = SenderSend r;
  m_senders : i = DropSenders ∨ senders n' = senders n;
}.

(** A turn that only touches the tasks, the buffer or the senders. *)
Lemma moved_idle i e n n' :
  running n' ⊆ running n → length (buf n') = length (buf n) →
  offered (i, e) = fed (i, e) ∨ fed (i, e) = None ∧ TunToStack ∉ running n' →
  emitted (i, e) = written (i, e) ∨ written (i, e) = None ∧ StackToTun ∉ running n' →
  queued (i, e) = None → handed (i, e) = None →
  queue n' = queue n ∨ queue n' = [] ∧ UdpWriter ∉ running n' →
  (i = DropSenders ∨ senders n' = senders n) → moved i e n n'.
Proof.
  intros Hr Hb Hs Hd Hq Hh Hu Hsn. split; rewrite ?Hq, ?Hh; try done.
  - intros Hw. exists []. split; [|done]. rewrite app_nil_r. destruct Hu as [->|[_ Hn]]; [done|by destruct Hn].
  - intros Hl. destruct Hu as [->|[-> _]]; [done|cbn; lia].
Qed.

Lemma end_task_idle t n :
  running (end_task t n) = running n ∖ {[t]} ∧ buf (end_task t n) = buf n ∧
  senders (end_task t n) = senders n ∧
  (queue (end_task t n) = queue n ∨ queue (end_task t n) = [] ∧ UdpWriter ∉ running (end_task t n)).
Proof.
  unfold end_task. case_decide as Ht; (split_and!; [done..|]); [|by left].
  right. split; [done|]. cbn. rewrite Ht. set_solver.
Qed.

(** Ending [t] without a reply in hand. *)
Lemma moved_end t i e n n1 :
  n1 = n ∨ n1 = set_buf (buf n1) n ∧ length (buf n1) = length (buf n) →
  offered (i, e) = fed (i, e) ∨ fed (i, e) = None ∧ t = TunToStack →
  emitted (i, e) = written (i, e) ∨ written (i, e) = None ∧ t = StackToTun →
  queued (i, e) = None → handed (i, e) = None → moved i e n (end_task t n1).
Proof.
  intros H1 Hs Hd Hq Hh. destruct (end_task_idle t n1) as (Hr & Hb & Hsn & Hqu).
  assert (Hn1 : running n1 = running n ∧ length (buf n1) = length (buf n) ∧ queue n1 = queue n ∧ senders n1 = senders n).
  { destruct H1 as [->|[-> Hl]]; [done|]. split_and!; [done| |done..]. exact Hl. }
  destruct Hn1 as (Hr1 & Hb1 & Hq1 & Hs1).
  apply moved_idle; [rewrite Hr, Hr1; set_solver|by rewrite Hb| | |done..|by rewrite <-Hq1|right; by rewrite Hsn, Hs1].
  - destruct Hs as [Hs|[Hs ->]]; [by left|right]. split; [done|]. rewrite Hr. set_solver.
  - destruct Hd as [Hd|[Hd ->]]; [by left|right]. split; [done|]. rewrite Hr. set_solver.
Qed.

Lemma wp_tun_to_stack r sent n :
  enabled (DeviceRecv r sent) n →
  wp (tun_to_stack r sent) (λ o n', ∃ e, o = Ok e ∧ moved (DeviceRecv r sent) e n n') n.
Proof.
  intros [_ Hlen]. unfold tun_to_stack.
  destruct r as [[k b]|e|]; [|repeat wp_step; eexists; (split; [done|]); apply moved_end; auto..].
  specialize (Hlen k b eq_refl). wp_step. wp_step. wp_step. wp_step. cbn [buf set_buf].
  destruct (get_to k b) as [slice|] eqn:Hg.
  - destruct sent; repeat wp_step; eexists; (split; [done|]).
    + apply moved_idle; auto.
    + apply moved_end; auto.
  - wp_step. eexists. split; [done|]. apply moved_idle; auto.
Qed.

Lemma wp_stack_to_tun next sent n :
  wp (stack_to_tun next sent) (λ o n', ∃ e, o = Ok e ∧ moved (StackNext next sent) e n n') n.
Proof.
  unfold stack_to_tun. destruct next as [[pkt|e|]|]; [destruct sent| | |];
    repeat wp_step; eexists; (split; [done|]); (apply moved_end || apply moved_idle); auto; by left.
Qed.

Lemma wp_udp_writer sent n :
  enabled (WriterTurn sent) n →
  wp (udp_writer sent) (λ o n', ∃ e, o = Ok e ∧ moved (WriterTurn sent) e n n') n.
Proof.
  intros Hw. unfold udp_writer. wp_step. wp_step. cbn [Datatypes.id].
  destruct (queue n) as [|[[data from] src] q] eqn:Hq.
  { destruct (senders n); repeat wp_step; eexists; (split; [done|]); (apply moved_end || apply moved_idle); auto. }
  wp_step. wp_step.
  assert (Hend : moved (WriterTurn sent) Idle n (end_task UdpWriter (set_queue q n))).
  { apply moved_idle; cbn; try set_solver; auto. }

  destruct (bool_decide_reflect (is_ipv4 from ≠ is_ipv4 src)) as [Hne|Heq].
  - wp_step. eexists. split; [done|]. split; cbn; auto; try done.
    + intros _. exists [(data, from, src)]. rewrite Hq, app_nil_r. split; [done|]. by rewrite filter_cons_False.
    + rewrite Hq. cbn. lia.
  - assert (Hfam : same_family (data, from, src)).
    { unfold same_family. cbn. destruct (is_ipv4 from), (is_ipv4 src); naive_solver. }
    destruct sent; repeat wp_step; eexists; (split; [done|]); [|done]. split; cbn; auto; try done.
    + intros _. exists [(data, from, src)]. rewrite Hq, app_nil_r. split; [done|]. by rewrite filter_cons_True.
    + rewrite Hq. cbn. lia.
Qed.

Lemma wp_sender_send r n :
  wp (turn (SenderSend r)) (λ o n', ∃ e, o = Ok e ∧ moved (SenderSend r) e n n') n.
Proof.
  cbn [turn]. wp_step. wp_step. cbn [Datatypes.id]. unfold udp_sender_send.
  repeat case_decide; repeat wp_step; eexists; (split; [done|]); [|apply moved_idle; auto..].
  split; cbn; auto.
  - intros _. by exists [].
  - rewrite length_app. cbn. lia.
  - by intros r' [= <-].
Qed.

Lemma wp_turn i n :
  enabled i n → wp (turn i) (λ o n', ∃ e, o = Ok e ∧ moved i e n n') n.
Proof.
  intros Hen. destruct i as [r sent|next sent|sent| |r| | |].
  - by apply wp_tun_to_stack.
  - apply wp_stack_to_tun.
  - by apply wp_udp_writer.
  - cbn [turn]. repeat wp_step. eexists. split; [done|]. apply moved_end; auto.
  - apply wp_sender_send.
  - cbn [turn]. repeat wp_step. eexists. split; [done|]. apply moved_idle; auto.
  - cbn [turn]. wp_step. wp_step. cbn [Datatypes.id]. unfold failed.
    destruct (finished n); [case_decide|]; repeat wp_step; eexists; (split; [done|]); apply moved_idle; auto.
  - cbn [turn]. repeat wp_step. eexists. split; [done|].
    apply moved_idle; cbn; try set_solver; auto.
Qed.

Lemma step_moved n h n' : step n h n' → moved h.1 h.2 n n' ∧ enabled h.1 n.
Proof.
  intros [i e n1 n1' Hen Ht]. destruct (wp_run _ _ _ _ _ (wp_turn i n1 Hen) Ht) as (e' & [= <-] & Hm).
  by split.
Qed.

(** The state of a run against what it moved. *)
Record inv (len : nat) (hs : list (input * event)) (n : net) : Prop := {
  i_buf : length (buf n) = len;
  i_queue : length (queue n) ≤ REPLY_CHANNEL;
  i_stack : pumped (TunToStack ∈ running n) (omap offered hs) (omap fed hs);
  i_device : pumped (StackToTun ∈ running n) (omap emitted hs) (omap written hs);
  i_replies : UdpWriter ∈ running n →
    ∃ taken, omap queued hs = taken ++ queue n ∧ omap handed hs = filter same_family taken;
  i_handed : omap handed hs `prefix_of` filter same_family (omap queued hs);
}.

Lemma net_inv_step len hs n h n' : inv len hs n → step n h n' → inv len (hs ++ [h]) n'.
Proof.
  intros [Hb Hq Hs Hd Ht Hh] Hst.
  destruct (step_moved _ _ _ Hst) as [[Mr Mb Ms Md Mw Mh Mq Mqd _] Hen].
  assert (Hrun : ∀ t, t ∈ running n' → t ∈ running n) by (intros t; apply Mr).
  destruct h as [i e]; cbn [fst snd] in *. split; rewrite ?omap_snoc.
  - by rewrite Mb.
  - auto.
  - eapply pumped_snoc; [done|auto| |done]. intros [p Hp].
    destruct i; try done. apply Hen.
  - eapply pumped_snoc; [done|auto| |done]. intros [p Hp].
    destruct i; try done.
  - intros Hw. destruct (Ht (Hrun _ Hw)) as (taken & Hqu & Hha), (Mw Hw) as (more & Hmore & Hhm).
    exists (taken ++ more).
    by rewrite Hqu, Hha, Hhm, filter_app, <-!app_assoc, Hmore.
  - destruct (decide (UdpWriter ∈ running n')) as [Hw|Hw].
    + destruct (Ht (Hrun _ Hw)) as (taken & Hqu & Hha), (Mw Hw) as (more & Hmore & Hhm).
      rewrite Hqu, Hha, Hhm, <-app_assoc, Hmore, !filter_app, app_assoc. by apply prefix_app_r.
    + destruct (handed (i, e)) as [r|] eqn:Hr; [by destruct Hw; apply Mh|].
      cbn [option_list]. rewrite app_nil_r, filter_app. by apply prefix_app_r.
Qed.

Lemma net_runs_inv builder config n0 hs n :
  build builder config = Ok n0 → runs n0 hs n → inv (mtu config `max` 1500) hs n.
Proof.
  intros Hb. induction 1 as [|hs n h n' Hr IH Hs]; [|by eapply net_inv_step].
  unfold build in Hb. apply bind_ok_inv in Hb as (b & _ & Hb).
  repeat case_match; try done. injection Hb as <-.
  split; cbn; try by split.
  - apply length_replicate.
  - unfold REPLY_CHANNEL. lia.
  - intros _. by exists [].
  - done.
Qed.

(** A read of the packet [p] into a buffer of [len] bytes: as much as fits. *)
Definition read_into (p : list byte) (len k : nat) (b : list byte) : Prop :=
  k = length p `min` len ∧ length b = len ∧ take k b = take k p.

(** C16: The pumps neither lose, make up nor reorder: while a pump runs, the packets
    it passed on are exactly the ones it was given, and a pump that ended lost
    at most what came last; a packet of up to the larger of the MTU and 1500
    bytes is read whole. The replies handed to the stack are those accepted
    into the channel, in order, less the ones that mix address families and the
    ones still queued, of which there are never more than 256. *)
Theorem pumps_faithful builder config n0 hs n :
  build builder config = Ok n0 → runs n0 hs n →
  pumped (TunToStack ∈ running n) (omap offered hs) (omap fed hs) ∧
  pumped (StackToTun ∈ running n) (omap emitted hs) (omap written hs) ∧
  omap handed hs `prefix_of` filter same_family (omap queued hs) ∧
  (UdpWriter ∈ running n → ∃ taken,
     omap queued hs = taken ++ queue n ∧ omap handed hs = filter same_family taken) ∧
  length (queue n) ≤ REPLY_CHANNEL ∧
  (∀ p k b, length p ≤ mtu config `max` 1500 → read_into p (length (buf n)) k b → get_to k b = Some p).
Proof.
  intros Hb Hr. destruct (net_runs_inv _ _ _ _ _ Hb Hr) as [Hl Hq Hs Hd Ht Hh]. split_and!; [done..|].
  intros p k b Hp (-> & Hlen & Htake). rewrite Hl in *. unfold get_to.
  rewrite decide_True by lia. rewrite Htake. f_equal. apply take_ge. lia.
Qed.

(** ** Failure *)

(** Tasks that run and tasks to join: what the [JoinSet] holds. *)
Definition held (n : net) : nat := finished n + base.size (running n).

Lemma end_task_held t n : t ∈ running n → held (end_task t n) = held n.
Proof.
  intros Ht. unfold held, end_task. cbn [finished running set_tasks].
  rewrite size_difference by set_solver. rewrite size_singleton.
  assert (base.size (running n) ≠ 0) by (intros Hz%size_empty_inv; set_solver). lia.
Qed.

Lemma held_step n i e n' :
  step n (i, e) n' → i ≠ Shutdown → e ≠ SomeEnded → held n' = held n.
Proof.
  intros Hs Hi. inversion Hs as [i' e' n1 n1' Hen Ht]; subst.
  enough (Hw : wp (turn i) (λ o n', o ≠ Ok SomeEnded → held n' = held n) n).
  { intros He. apply (wp_run _ _ _ _ _ Hw Ht). congruence. }
  clear Hs Ht. destruct i as [r sent|next sent|sent| |r| | |]; cbn [turn enabled] in *.
  - destruct Hen as [Hen _]. unfold tun_to_stack. destruct r as [[k b]|x|];
      [|repeat wp_step; intros _; by apply end_task_held..].
    wp_step. wp_step. wp_step. wp_step. cbn [buf set_buf].
    destruct (get_to k b); [destruct sent|]; repeat wp_step; intros _; [done| |done].
    by apply (end_task_held TunToStack (set_buf b n)).
  - unfold stack_to_tun. destruct next as [[pkt|x|]|]; [destruct sent|..]; repeat wp_step; intros _;
      try done; by apply end_task_held.
  - unfold udp_writer. wp_step. wp_step. cbn [Datatypes.id].
    destruct (queue n) as [|[[data from] src] q];
      [destruct (senders n); repeat wp_step; intros _; [done|by apply end_task_held]|].
    wp_step. wp_step. destruct (bool_decide _); [by wp_step|]. destruct sent; repeat wp_step; intros _; [done|].
    by apply (end_task_held UdpWriter (set_queue q n)).
  - repeat wp_step. intros _. by apply end_task_held.
  - wp_step. wp_step. cbn [Datatypes.id]. unfold udp_sender_send. repeat case_decide; by repeat wp_step.
  - by repeat wp_step.
  - wp_step. wp_step. cbn [Datatypes.id]. unfold failed. destruct (finished n) eqn:Hf; [case_decide|]; repeat wp_step; by intros.
  - done.
Qed.

(** A broken data path is noticed, and only that: until it has been reported
    (or the tasks shut down), waiting for a failure is over exactly when one of
    the four tasks has ended; and once the writer has, no reply is accepted. *)
Theorem failure_detected builder config n0 hs n :
  build builder config = Ok n0 → runs n0 hs n →
  (∀ h, h ∈ hs → h.1 ≠ Shutdown ∧ h.2 ≠ SomeEnded) →
  ((failed n).1 = Ready () ↔ running n ≠ all_tasks) ∧
  (UdpWriter ∉ running n → ∀ r, udp_sender_send r n = (Ready false, n)).
Proof.
  intros Hb Hr Hno.
  assert (Hheld : held n = 4 ∧ running n ⊆ all_tasks).
  { revert Hno. induction Hr as [|hs n h n' Hr IH Hs]; intros Hno.
    - unfold build in Hb. apply bind_ok_inv in Hb as (b & _ & Hb).
      repeat case_match; try done. by injection Hb as <-.
    - destruct IH as [Hh Hsub]; [intros x Hx; apply Hno; set_solver|]. destruct h as [i e].
      destruct (Hno (i, e)) as [Hi He]; [set_solver|]. cbn in Hi, He.
      rewrite (held_step _ _ _ _ Hs Hi He). split; [done|].
      destruct (step_moved _ _ _ Hs) as [Hm _]. pose proof (m_running _ _ _ _ Hm). set_solver. }
  destruct Hheld as [Hh Hsub]. split.
  - unfold failed. assert (H4 : base.size all_tasks = 4) by reflexivity. unfold held in Hh. split.
    + intros Hf Heq. rewrite Heq, H4 in Hh. assert (finished n = 0) as Hz by lia. rewrite Hz in Hf.
      rewrite Heq in Hf. by rewrite decide_False in Hf by done.
    + intros Hne. destruct (finished n) as [|f]; [|done]. destruct Hne.
      apply leibniz_equiv, (set_subseteq_size_equiv _ _ Hsub). lia.
  - intros Hw r. unfold udp_sender_send. by rewrite decide_False.
Qed.

(** ** A concrete run *)

Definition ex_config : Config := {| mtu := 1280; stack_buffer := 512; udp_buffer := 128; tcp_buffer := 128 |}.
Definition ex_builder (_ : StackBuilder) : outcome rstr Built :=
  Ok {| runner := true; udp_socket := true; tcp_listener := true |}.
Definition ex_net : net :=
  {| buf := replicate 1500 x00; queue := []; senders := true; running := all_tasks; finished := 0 |}.
Definition ex_reply : Reply := ([x72], socket_addr (V4 0x01010101) 53, socket_addr (V4 0x0a000001) 5000).
Definition ex_mixed : Reply := ([x72], socket_addr (V6 1) 53, socket_addr (V4 0x0a000001) 5000).
Definition ex_read : list byte := x45 :: replicate 1499 x00.
Definition ex_inputs : list input :=
  [SenderSend ex_mixed; SenderSend ex_reply; DeviceRecv (Ok (1, ex_read)) true; WriterTurn true;
   WriterTurn true; StackNext None true].
Definition ex_after (k : nat) : net := foldl (λ n i, (turn i n).2) ex_net (take k ex_inputs).
Definition ex_events : list event :=
  [Queued ex_mixed; Queued ex_reply; ToStack [x45]; Idle; ToUdp ex_reply; Idle].

(** One step of the run, evaluated. *)
Ltac ex_turn := apply step_turn; [repeat split; try (by apply (bool_decide_unpack _); vm_compute); by intros ?? [= <- <-]
  |apply injective_projections; [vm_compute; reflexivity|reflexivity]].

Lemma ex_runs : runs ex_net (zip ex_inputs ex_events) (ex_after 6).
Proof.
  apply (runs_snoc ex_net (zip (take 5 ex_inputs) ex_events) (ex_after 5)); [|ex_turn].
  apply (runs_snoc ex_net (zip (take 4 ex_inputs) ex_events) (ex_after 4)); [|ex_turn].
  apply (runs_snoc ex_net (zip (take 3 ex_inputs) ex_events) (ex_after 3)); [|ex_turn].
  apply (runs_snoc ex_net (zip (take 2 ex_inputs) ex_events) (ex_after 2)); [|ex_turn].
  apply (runs_snoc ex_net (zip (take 1 ex_inputs) ex_events) (ex_after 1)); [|ex_turn].
  apply (runs_snoc ex_net [] ex_net); [apply runs_nil|ex_turn].
Qed.

Lemma pumps_faithful_witness :
  build ex_builder ex_config = Ok ex_net ∧ runs ex_net (zip ex_inputs ex_events) (ex_after 6) ∧
  omap handed (zip ex_inputs ex_events) = [ex_reply] ∧
  ∃ taken, [ex_mixed; ex_reply] = taken ++ queue (ex_after 6) ∧
    [ex_reply] = filter same_family taken.
Proof.
  split; [reflexivity|]. split; [exact ex_runs|]. split; [reflexivity|].
  destruct (pumps_faithful ex_builder ex_config ex_net _ _ eq_refl ex_runs) as (_ & _ & _ & Hw & _).
  destruct Hw as (taken & Hq & Hh); [apply (bool_decide_unpack _); vm_compute; exact I|].
  exists taken. split; [exact Hq|exact Hh].
Defined.

Lemma failure_detected_witness :
  (failed (ex_after 6)).1 = Ready () ∧ StackToTun ∉ running (ex_after 6).
Proof.
  assert (Hn : StackToTun ∉ running (ex_after 6)) by (apply (bool_decide_unpack _); vm_compute; exact I).
  split; [|exact Hn].
  apply (failure_detected ex_builder ex_config ex_net _ _ eq_refl ex_runs).
  - intros h Hh. repeat (apply elem_of_cons in Hh as [->|Hh]; [split; discriminate|]).
    apply elem_of_nil in Hh. destruct Hh.
  - intros Heq. apply Hn. rewrite Heq. apply (bool_decide_unpack _). vm_compute. exact I.
Defined.

End Netstack.
