(* ===== verification/Obfs.v ===== *)
(** * Obfs: Salamander obfuscation and the socket wrapper that applies it

    Models [internal/obfs.rs] ([SalamanderObfuscator]) and
    [client/obfs_socket.rs] ([ObfsUdpSocket]).  BLAKE2b-256 comes from the
    [blake2] crate: it is an interface of which the code only relies on the
    digest length. *)
From S2P Require Import Prelude RustStr IoRead Errors Net.

(** [Blake2b<U32>] over the concatenated input: a 32-byte digest. *)
Class Blake2b256 := {
  blake2b256 : list byte → list byte;
  blake2b256_length x : length (blake2b256 x) = 32;
}.

Module Obfs.
Import Net Errors.

Definition PSK_MIN_LEN : nat := 4.
Definition SALT_LEN : nat := 8.
Definition KEY_LEN : nat := 32.

(** [c ^ k] on bytes. *)
Definition xor8 (c k : byte) : byte := z2b (Z.lxor (b2z c) (b2z k)).

Section obfs.
Context `{Blake2b256}.

(** [SalamanderObfuscator { psk }]. *)
Record SalamanderObfuscator := { psk : list byte }.

Definition new (psk : list byte) : outcome ConfigError SalamanderObfuscator :=
  if decide (length psk < PSK_MIN_LEN)
  then Err {| field := lit "obfs"; reason := lit "PSK must be at least 4 bytes" |}
  else Ok {| psk := psk |}.

Definition key (o : SalamanderObfuscator) (salt : list byte) : list byte :=
  blake2b256 (psk o ++ salt).

(** [out[i + off] = c ^ key[i % KEY_LEN]] for each [(i, c)] of the input. *)
Fixpoint xor_loop {E} (key : list byte) (off i : nat) (input out : list byte) :
    outcome E (list byte) :=
  match input with
  | [] => Ok out
  | c :: input =>
    k ← or_panic (key !! (i mod KEY_LEN));
    out ← set_at (i + off) (xor8 c k) out;
    xor_loop key off (S i) input out
  end.

(** [rand::rng().random()] for a [[u8; SALT_LEN]]. *)
Definition random_salt (rng : nat → Z) : list byte := (λ k, z2b (rng k)) <$> seq 0 SALT_LEN.

Definition obfuscate {E} (o : SalamanderObfuscator) (rng : nat → Z) (input out : list byte) :
    outcome E (list byte * nat) :=
  let out_len := length input + SALT_LEN in
  if decide (length out < out_len) then Ok (out, 0) else
  let salt := random_salt rng in
  out ← or_panic (slice_write out 0 salt);
  let key := key o salt in
  out ← xor_loop key SALT_LEN 0 input out;
  Ok (out, out_len).

Definition deobfuscate {E} (o : SalamanderObfuscator) (input out : list byte) :
    outcome E (list byte * nat) :=
  if decide (length input ≤ SALT_LEN) then Ok (out, 0) else
  let out_len := length input - SALT_LEN in
  if decide (length out < out_len) then Ok (out, 0) else
  let salt := take SALT_LEN input in
  let key := key o salt in
  out ← xor_loop key 0 0 (drop SALT_LEN input) out;
  Ok (out, out_len).

(** ** The wire format as a function *)

(** The payload xored with the repeating key, from key position [i]. *)
Definition xor_key (key : list byte) (i : nat) (input : list byte) : list byte :=
  imap (λ j c, xor8 c (nth ((i + j) mod KEY_LEN) key x00)) input.

Definition seal (o : SalamanderObfuscator) (salt input : list byte) : list byte :=
  salt ++ xor_key (key o salt) 0 input.

Lemma length_xor_key k i input : length (xor_key k i input) = length input.
Proof. apply length_imap. Qed.

Lemma xor_key_cons k i c input :
  xor_key k i (c :: input) = xor8 c (nth (i mod KEY_LEN) k x00) :: xor_key k (S i) input.
Proof.
  unfold xor_key. cbn [imap]. rewrite Nat.add_0_r. f_equal.
  apply imap_ext. intros j x _. unfold compose.
  by replace (i + S j) with (S i + j) by lia.
Qed.

Lemma xor8_involutive c k : xor8 (xor8 c k) k = c.
Proof.
  unfold xor8. rewrite b2z_z2b. apply b2z_inj. rewrite b2z_z2b.
  pose proof (b2z_range c). pose proof (b2z_range k).
  change 256%Z with (2 ^ 8)%Z. rewrite <-!Z.land_ones by lia.
  apply Z.bits_inj'. intros n Hn. rewrite !Z.land_spec, Z.lxor_spec, Z.land_spec, Z.lxor_spec.
  destruct (Z.ltb_spec n 8).
  - rewrite !Z.ones_spec_low by lia. rewrite !andb_true_r.
    by destruct (Z.testbit (b2z c) n), (Z.testbit (b2z k) n).
  - rewrite Z.ones_spec_high by lia. rewrite andb_false_r. symmetry.
    rewrite <-(Z.mod_small (b2z c) (2 ^ 8)) by lia. by apply Z.mod_pow2_bits_high.
Qed.

Lemma xor_key_involutive k i input : xor_key k i (xor_key k i input) = input.
Proof.
  revert i. induction input as [|c input IH]; intros i; [done|].
  by rewrite !xor_key_cons, xor8_involutive, IH.
Qed.

(** The loop writes [xor_key] after the [off + i] bytes already there. *)
Lemma xor_loop_spec {E} k off i input pre rest :
  length k = 32 → length pre = i + off → length input ≤ length rest →
  @xor_loop E k off i input (pre ++ rest) =
  Ok (pre ++ xor_key k i input ++ drop (length input) rest).
Proof.
  intros Hk. revert i pre rest. induction input as [|c input IH]; intros i pre rest Hp Hr; [done|].
  destruct rest as [|r rest]; [cbn in Hr; lia|]. cbn [xor_loop].
  assert (Hi : i mod KEY_LEN < length k) by (rewrite Hk; apply Nat.mod_upper_bound; done).
  destruct (lookup_lt_is_Some_2 _ _ Hi) as [x Hx]. rewrite Hx. cbn [or_panic mbind outcome_bind].
  rewrite set_at_ok by (rewrite length_app; cbn; lia). cbn [mbind outcome_bind].
  rewrite <-Hp, insert_app_r_alt, Nat.sub_diag by lia. cbn [insert list_insert].
  replace (pre ++ xor8 c x :: rest) with ((pre ++ [xor8 c x]) ++ rest) by (by rewrite <-app_assoc).
  rewrite IH; [|len|cbn in Hr; lia].
  rewrite xor_key_cons. erewrite nth_lookup_Some by exact Hx.
  by rewrite <-app_assoc.
Qed.

Lemma length_random_salt rng : length (random_salt rng) = SALT_LEN.
Proof. done. Qed.

Lemma obfuscate_seal {E} o rng input out :
  length input + SALT_LEN ≤ length out →
  @obfuscate E o rng input out =
  Ok (seal o (random_salt rng) input ++ drop (length input + SALT_LEN) out,
      length input + SALT_LEN).
Proof.
  intros Hl. unfold obfuscate. rewrite decide_False by lia.
  rewrite slice_write_in by (rewrite length_random_salt; lia).
  cbn [or_panic mbind outcome_bind]. rewrite take_0, app_nil_l, length_random_salt, Nat.add_0_l.
  rewrite xor_loop_spec; [|apply blake2b256_length|done|len].
  cbn [mbind outcome_bind]. unfold seal. rewrite drop_drop, <-app_assoc.
  by rewrite (Nat.add_comm SALT_LEN).
Qed.

Lemma deobfuscate_seal {E} o salt input out :
  length salt = SALT_LEN → input ≠ [] → length input ≤ length out →
  @deobfuscate E o (seal o salt input) out =
  Ok (input ++ drop (length input) out, length input).
Proof.
  intros Hs Hi Hl. unfold deobfuscate, seal.
  assert (0 < length input) by (destruct input; [done|cbn; lia]).
  rewrite length_app, length_xor_key, Hs, decide_False, Nat.add_comm, Nat.add_sub by lia.
  rewrite decide_False by lia. rewrite take_app_length', drop_app_length' by done.
  change out with ([] ++ out) at 1.
  rewrite xor_loop_spec by (rewrite ?length_xor_key; first [apply blake2b256_length|done]).
  cbn [mbind outcome_bind app]. by rewrite xor_key_involutive, length_xor_key.
Qed.

(** ** [ObfsUdpSocket] *)

Definition UDP_BUFFER_SIZE : nat := 2048.

(** [try_send]: obfuscate into a fresh scratch buffer and hand exactly one
    datagram to the inner socket; what does not fit is dropped silently. *)
Definition try_send {E} (o : SalamanderObfuscator) (rng : nat → Z)
    (inner : Transmit → outcome E ()) (transmit : Transmit) : outcome E () :=
  let buf := replicate UDP_BUFFER_SIZE x00 in
  '(buf, n) ← obfuscate o rng (contents transmit) buf;
  if decide (n = 0) then Ok () else
  contents ← or_panic (slice_to buf n);
  inner {| destination := destination transmit; ecn := ecn transmit;
           contents := contents; segment_size := None; src_ip := src_ip transmit |}.

(** The body of [poll_recv]'s loop; the scratch buffer is declared once,
    outside the loop. *)
Definition recv_one {E} (o : SalamanderObfuscator) (scratch : list byte) (s : slot) :
    outcome E (list byte * slot) :=
  let '(buf, m) := s in
  input ← or_panic (slice_to buf (meta_len m));
  '(scratch, out_len) ← deobfuscate o input scratch;
  if decide (out_len = 0) then
    Ok (scratch, (buf, {| meta_addr := meta_addr m; meta_len := 0; meta_stride := 0 |}))
  else
    src ← or_panic (slice_to scratch out_len);
    buf ← or_panic (slice_write buf 0 src);
    Ok (scratch,
        (buf, {| meta_addr := meta_addr m; meta_len := out_len; meta_stride := out_len |})).

(** [poll_recv], given what the inner socket's [poll_recv] returned and left
    in the buffers. *)
Definition poll_recv {E} (o : SalamanderObfuscator) (result : Poll (outcome E nat))
    (slots : list slot) : outcome E (Poll (outcome E nat) * list slot) :=
  match result with
  | Ready (Ok count) =>
    slots ← for_slots (recv_one o) (replicate UDP_BUFFER_SIZE x00) count slots;
    Ok (Ready (Ok count), slots)
  | _ => Ok (result, slots)
  end.

(** Deobfuscation never panics and never writes past the input's size. *)
Lemma deobfuscate_total {E} o input out :
  ∃ out' n, @deobfuscate E o input out = Ok (out', n) ∧ length out' = length out ∧
    n = (if decide (SALT_LEN < length input ≤ length out + SALT_LEN)
         then length input - SALT_LEN else 0).
Proof.
  unfold deobfuscate. case_decide as H1.
  { exists out, 0. rewrite decide_False by lia. done. }
  case_decide as H2.
  { exists out, 0. rewrite decide_False by lia. done. }
  change out with ([] ++ out) at 1.
  rewrite xor_loop_spec by first [apply blake2b256_length|done|rewrite length_drop; lia].
  eexists _, _. split; [done|]. rewrite decide_True by lia. split; [|done].
  rewrite !length_app, length_xor_key, !length_drop. cbn [length]. lia.
Qed.

(** What one iteration does to a slot whose length is within its buffer. *)
Lemma recv_one_total {E} o scratch s :
  length scratch = UDP_BUFFER_SIZE → meta_len s.2 ≤ length s.1 →
  ∃ scratch' s', @recv_one E o scratch s = Ok (scratch', s') ∧
    length scratch' = UDP_BUFFER_SIZE ∧
    length s'.1 = length s.1 ∧ meta_addr s'.2 = meta_addr s.2 ∧
    meta_stride s'.2 = meta_len s'.2 ∧ meta_len s'.2 ≤ meta_len s.2 - SALT_LEN.
Proof.
  destruct s as [buf m]. cbn [fst snd]. intros Hsc Hl.
  unfold recv_one, slice_to. rewrite decide_True by done.
  cbn [or_panic mbind outcome_bind].
  destruct (deobfuscate_total (E := E) o (take (meta_len m) buf) scratch)
    as (scratch' & n & -> & Hs & Hn).
  rewrite length_take, Nat.min_l in Hn by done.
  cbn [or_panic mbind outcome_bind].
  assert (n ≤ meta_len m - SALT_LEN ∧ n ≤ length scratch') as [Hn1 Hn2]
    by (case_decide; lia).
  destruct (decide (n = 0)) as [H0|H0].
  { eexists _, _. split; [done|]. cbn [fst snd meta_addr meta_len meta_stride].
    split_and!; first [done|lia]. }
  rewrite decide_True by done. cbn [or_panic mbind outcome_bind].
  rewrite slice_write_in by (rewrite length_take; lia). cbn [or_panic mbind outcome_bind].
  eexists _, _. split; [done|]. cbn [fst snd meta_addr meta_len meta_stride].
  rewrite !length_app, !length_take, length_drop. split_and!; first [done|lia].
Qed.

(** A sealed datagram opens in place. *)
Lemma recv_one_sealed {E} o scratch salt input rest m :
  length scratch = UDP_BUFFER_SIZE → length salt = SALT_LEN → input ≠ [] →
  length input ≤ UDP_BUFFER_SIZE → meta_len m = length input + SALT_LEN →
  ∃ scratch' rest', @recv_one E o scratch (seal o salt input ++ rest, m) =
    Ok (scratch', (input ++ rest', {| meta_addr := meta_addr m; meta_len := length input;
                                      meta_stride := length input |})).
Proof.
  intros Hsc Hs Hi Hl Hm. unfold recv_one.
  assert (Hsl : length (seal o salt input) = meta_len m)
    by (unfold seal; rewrite length_app, length_xor_key, Hs; lia).
  rewrite slice_to_app by done. cbn [or_panic mbind outcome_bind].
  rewrite deobfuscate_seal by first [done|lia].
  cbn [mbind outcome_bind]. rewrite decide_False by (destruct input; [done|cbn; lia]).
  rewrite slice_to_app by done. cbn [or_panic mbind outcome_bind].
  rewrite slice_write_in by (rewrite length_app; lia).
  cbn [or_panic mbind outcome_bind]. rewrite take_0. cbn [app]. by eexists _, _.
Qed.

(** ** Properties *)

(** A packet obfuscated under a key is restored by deobfuscating the bytes
    that were reported written, and both report the sizes the wire format
    promises (8 more bytes, 8 fewer). *)
Theorem obfuscate_roundtrip (o : SalamanderObfuscator) (rng : nat → Z)
    (input out1 out2 : list byte)
    (Hi : input ≠ []) (H1 : length input + SALT_LEN ≤ length out1)
    (H2 : length input ≤ length out2) :
  ∃ wire plain n, @obfuscate ConfigError o rng input out1 = Ok (wire, n) ∧
    n = length input + SALT_LEN ∧
    @deobfuscate ConfigError o (take n wire) out2 = Ok (plain, length input) ∧
    take (length input) plain = input.
Proof.
  eexists _, _, _. split; [by apply obfuscate_seal|]. split; [done|].
  assert (Hl : length (seal o (random_salt rng) input) = length input + SALT_LEN).
  { unfold seal. rewrite length_app, length_xor_key, length_random_salt. lia. }
  rewrite take_app_length' by done. split; [by apply deobfuscate_seal|].
  by rewrite take_app_length.
Qed.

(** What the wrapper sends, the wrapper on the other side receives: a
    datagram of 1 to 2040 bytes reaches the inner socket as exactly one
    transmit, with the same destination, ECN and source address and no
    segment size, and [poll_recv] over a buffer holding its contents shows the
    original payload; a larger one is dropped without touching the socket. *)
Theorem socket_send_recv (o : SalamanderObfuscator) (rng : nat → Z)
    (inner : Transmit → outcome io_error ()) (t : Transmit) (rest : list byte) (from : SocketAddr)
    (Hc : contents t ≠ []) :
  (UDP_BUFFER_SIZE < length (contents t) + SALT_LEN → try_send o rng inner t = Ok ()) ∧
  (length (contents t) + SALT_LEN ≤ UDP_BUFFER_SIZE →
   ∃ wire buf, try_send o rng inner t =
       inner {| destination := destination t; ecn := ecn t; contents := wire;
                segment_size := None; src_ip := src_ip t |} ∧
     length wire = length (contents t) + SALT_LEN ∧
     @poll_recv io_error o (Ready (Ok 1))
       [(wire ++ rest, {| meta_addr := from; meta_len := length wire;
                          meta_stride := length wire |})] =
     Ok (Ready (Ok 1), [(buf, {| meta_addr := from; meta_len := length (contents t);
                                 meta_stride := length (contents t) |})]) ∧
     slice_to buf (length (contents t)) = Some (contents t)).
Proof.
  split; intros Hl; unfold try_send.
  { unfold obfuscate. by rewrite length_replicate, decide_True. }
  rewrite obfuscate_seal by (by rewrite length_replicate).
  cbn [mbind outcome_bind]. rewrite decide_False by (unfold SALT_LEN; lia).
  assert (Hw : length (seal o (random_salt rng) (contents t)) = length (contents t) + SALT_LEN).
  { unfold seal. rewrite length_app, length_xor_key, length_random_salt. lia. }
  rewrite slice_to_app by done. cbn [or_panic mbind outcome_bind].
  set (wire := seal o (random_salt rng) (contents t)) in *.
  destruct (recv_one_sealed (E := io_error) o (replicate UDP_BUFFER_SIZE x00) (random_salt rng)
    (contents t) rest {| meta_addr := from; meta_len := length wire;
                         meta_stride := length wire |}) as (sc & rest' & He); [done|done|done|lia|done|].
  exists wire, (contents t ++ rest'). split; [done|]. split; [done|]. split.
  - cbn [poll_recv for_slots]. fold wire in He. by rewrite He.
  - by apply slice_to_app.
Qed.

(** [poll_recv] is total on what a socket delivers (each length within its
    buffer): it never panics, keeps the count, the buffers' sizes and the
    source addresses, and each delivered slot is at least the salt shorter
    than the datagram, with stride equal to length (zero for a datagram that
    is not an obfuscated one), slots past the count being untouched. *)
Theorem poll_recv_total (o : SalamanderObfuscator) (count : nat) (slots : list slot)
    (Hc : count ≤ length slots)
    (Hs : Forall (λ s, meta_len s.2 ≤ length s.1) (take count slots)) :
  ∃ slots', @poll_recv io_error o (Ready (Ok count)) slots = Ok (Ready (Ok count), slots') ∧
    length slots' = length slots ∧
    (∀ i s, i < count → slots !! i = Some s → ∃ s', slots' !! i = Some s' ∧
      length s'.1 = length s.1 ∧ meta_addr s'.2 = meta_addr s.2 ∧
      meta_stride s'.2 = meta_len s'.2 ∧ meta_len s'.2 ≤ meta_len s.2 - SALT_LEN) ∧
    (∀ i, count ≤ i → slots' !! i = slots !! i).
Proof.
  edestruct (for_slots_ok (recv_one (E := io_error) o)
    (λ sc, length sc = UDP_BUFFER_SIZE) (λ s, meta_len s.2 ≤ length s.1)
    (λ s s', length s'.1 = length s.1 ∧ meta_addr s'.2 = meta_addr s.2 ∧
      meta_stride s'.2 = meta_len s'.2 ∧ meta_len s'.2 ≤ meta_len s.2 - SALT_LEN)
    (replicate UDP_BUFFER_SIZE x00) count slots) as (slots' & He & Hrest); [|done..|].
  { intros sc s Hsc Hl. destruct (recv_one_total (E := io_error) o sc s Hsc Hl)
      as (sc' & s' & ? & ? & ?). eauto 10. }
  exists slots'. unfold poll_recv. by rewrite He.
Qed.
End obfs.

(** ** Witnesses, at a digest that repeats the input's length *)

#[local] Instance sample_blake : Blake2b256 :=
  {| blake2b256 x := replicate 32 (z2b (Z.of_nat (length x))); blake2b256_length x := eq_refl |}.

Definition sample_obfs : SalamanderObfuscator := {| psk := lit "secret" |}.
Definition sample_addr : SocketAddr := socket_addr (V4 0x7f000001) 443.

Lemma obfuscate_roundtrip_witness :
  ∃ wire plain n,
    obfuscate (E := ConfigError) sample_obfs Z.of_nat (lit "hello") (replicate 20 x00) = Ok (wire, n) ∧
    n = length (lit "hello") + SALT_LEN ∧
    deobfuscate (E := ConfigError) sample_obfs (take n wire) (replicate 10 x00)
      = Ok (plain, length (lit "hello")) ∧
    take (length (lit "hello")) plain = lit "hello".
Proof. apply obfuscate_roundtrip; [discriminate|apply Nat.leb_le; reflexivity..]. Defined.

Lemma socket_send_recv_witness :
  let t := {| destination := sample_addr; ecn := None; contents := lit "hi";
              segment_size := None; src_ip := None |} in
  contents t ≠ [] ∧ length (contents t) + SALT_LEN ≤ UDP_BUFFER_SIZE ∧
  ∃ wire buf, try_send (E := io_error) sample_obfs Z.of_nat (λ _, Ok ()) t = Ok () ∧
    length wire = length (contents t) + SALT_LEN ∧
    poll_recv (E := io_error) sample_obfs (Ready (Ok 1))
      [(wire ++ [], {| meta_addr := sample_addr; meta_len := length wire;
                       meta_stride := length wire |})] =
    Ok (Ready (Ok 1), [(buf, {| meta_addr := sample_addr; meta_len := 2; meta_stride := 2 |})]) ∧
    slice_to buf 2 = Some (lit "hi").
Proof.
  split; [discriminate|]. split; [apply Nat.leb_le; reflexivity|].
  apply (socket_send_recv sample_obfs Z.of_nat (λ _, Ok ()) {| destination := sample_addr;
    ecn := None; contents := lit "hi"; segment_size := None; src_ip := None |} [] sample_addr).
  - discriminate.
  - apply Nat.leb_le. reflexivity.
Defined.

Lemma poll_recv_total_witness :
  ∃ slots', poll_recv (E := io_error) sample_obfs (Ready (Ok 1))
      [(replicate 12 x01, {| meta_addr := sample_addr; meta_len := 10; meta_stride := 10 |})]
    = Ok (Ready (Ok 1), slots') ∧ length slots' = 1 ∧
    (∀ i s, i < 1 → [(replicate 12 x01,
        {| meta_addr := sample_addr; meta_len := 10; meta_stride := 10 |})] !! i = Some s →
      ∃ s', slots' !! i = Some s' ∧ length s'.1 = length s.1 ∧
        meta_addr s'.2 = meta_addr s.2 ∧ meta_stride s'.2 = meta_len s'.2 ∧
        meta_len s'.2 ≤ meta_len s.2 - SALT_LEN) ∧
    (∀ i, 1 ≤ i → slots' !! i = [(replicate 12 x01,
        {| meta_addr := sample_addr; meta_len := 10; meta_stride := 10 |})] !! i).
Proof. apply poll_recv_total; [cbn; lia|repeat constructor; cbn; lia]. Defined.
End Obfs.
