(* ===== verification/ClientConfig.v ===== *)
(** * ClientConfig: the client's configuration and how a profile becomes one

    Models [client/config.rs]: [Config] with its defaults and validation
    ([verify_and_fill] and the helpers it calls), the server-address grammar
    ([split_host_port], [primary_port]) and [Config::from_profile].  A
    [Duration] is its number of nanoseconds; name resolution is the operating
    system's. *)
From S2P Require Import Prelude RustStr Errors Profile PortUnion Net.
Local Open Scope Z_scope.

(** [(host, port).to_socket_addrs()]: the addresses of [host], each with the
    requested port, or the text of the resolver's error. *)
Class Resolver := {
  to_socket_addrs : rstr → Z → outcome rstr (list Net.SocketAddr);
  to_socket_addrs_port host p l :
    to_socket_addrs host p = Ok l → Forall (λ a, Net.port a = p) l;
  to_socket_addrs_no_panic host p : to_socket_addrs host p ≠ Panic;
}.

Module ClientConfig.
Import RustStr Errors.

(** Durations in nanoseconds. *)
Definition from_secs (s : Z) : Z := s * 1000000000.

Definition DEFAULT_STREAM_RECEIVE_WINDOW : Z := 8388608.
Definition DEFAULT_CONN_RECEIVE_WINDOW : Z := DEFAULT_STREAM_RECEIVE_WINDOW * 5 / 2.
Definition DEFAULT_MAX_IDLE_TIMEOUT : Z := from_secs 30.
Definition DEFAULT_KEEP_ALIVE_PERIOD : Z := from_secs 10.
Definition MIN_RECEIVE_WINDOW : Z := 16384.
Definition DEFAULT_HOP_INTERVAL : Z := from_secs 30.
Definition MIN_HOP_INTERVAL : Z := from_secs 5.

Record TlsConfig := { server_name : rstr; ca : option (list byte) }.

Record QuicConfig := {
  initial_stream_receive_window : Z;
  max_stream_receive_window : Z;
  initial_connection_receive_window : Z;
  max_connection_receive_window : Z;
  max_idle_timeout : Z;
  keep_alive_period : Z;
  disable_path_mtu_discovery : bool;
}.
Definition default_quic : QuicConfig :=
  {| initial_stream_receive_window := 0; max_stream_receive_window := 0;
     initial_connection_receive_window := 0; max_connection_receive_window := 0;
     max_idle_timeout := 0; keep_alive_period := 0; disable_path_mtu_discovery := false |}.

Record BandwidthConfig := { max_tx : Z; max_rx : Z }.
Definition default_bandwidth : BandwidthConfig := {| max_tx := 0; max_rx := 0 |}.

Record HopIntervalConfig := { min : Z; max : Z }.
Definition default_hop_interval : HopIntervalConfig :=
  {| min := DEFAULT_HOP_INTERVAL; max := DEFAULT_HOP_INTERVAL |}.

Record Config := {
  server_addr : Net.SocketAddr;
  auth : rstr;
  tls : TlsConfig;
  quic : QuicConfig;
  bandwidth : BandwidthConfig;
  fast_open : bool;
  obfs : option (list byte);
  hop_ports : option PortUnion.t;
  hop_interval : HopIntervalConfig;
}.

(** [Config::new]. *)
Definition new (server_addr : Net.SocketAddr) (auth : rstr) (tls : TlsConfig) : Config :=
  {| server_addr := server_addr; auth := auth; tls := tls; quic := default_quic;
     bandwidth := default_bandwidth; fast_open := false; obfs := None;
     hop_ports := None; hop_interval := default_hop_interval |}.

(** The hand-written [Debug] shows neither [auth] nor the obfs key. *)
Definition debug_config (c : Config) : Profile.debug :=
  Profile.DebugStruct (lit "Config")
    [(lit "server_addr", Profile.DebugValue _ (server_addr c));
     (lit "auth", Profile.redacted);
     (lit "tls", Profile.DebugValue _ (tls c));
     (lit "quic", Profile.DebugValue _ (quic c));
     (lit "bandwidth", Profile.DebugValue _ (bandwidth c));
     (lit "fast_open", Profile.DebugValue _ (fast_open c));
     (lit "obfs", Profile.DebugOption ((λ _, Profile.redacted) <$> obfs c));
     (lit "hop_ports", Profile.DebugValue _ (hop_ports c));
     (lit "hop_interval", Profile.DebugValue _ (hop_interval c))].

(** ** Validation *)

(** [fill_window]: 0 means the default, anything else must reach the minimum. *)
Definition fill_window (default : Z) (field : rstr) : stm Z ConfigError () :=
  value ← gets id;
  if value =? 0 then modify (λ _, default)
  else if value <? MIN_RECEIVE_WINDOW
  then throw {| field := field; reason := lit "must be at least 16384" |}
  else mret ().

(** The shape of the two duration checks: zero means the default, anything
    else must lie in [[lo, hi]]. *)
Definition fill_duration (default lo hi : Z) (field msg : rstr) : stm Z ConfigError () :=
  value ← gets id;
  if value =? 0 then modify (λ _, default)
  else if (value <? lo) || (hi <? value)
  then throw {| field := field; reason := msg |}
  else mret ().

(** [HopIntervalConfig::normalized]. *)
Definition normalized (h : HopIntervalConfig) : outcome ConfigError HopIntervalConfig :=
  if (min h =? 0) && (max h =? 0) then Ok default_hop_interval
  else if (min h =? 0) || (max h =? 0) then
    Err {| field := lit "hopInterval"; reason := lit "min and max hop interval must both be set" |}
  else if max h <? min h then
    Err {| field := lit "hopInterval";
           reason := lit "min hop interval must not be greater than max hop interval" |}
  else if min h <? MIN_HOP_INTERVAL then
    Err {| field := lit "hopInterval"; reason := lit "hop interval must be at least 5 seconds" |}
  else Ok h.

Definition set_isrw (v : Z) (q : QuicConfig) : QuicConfig :=
  {| initial_stream_receive_window := v; max_stream_receive_window := max_stream_receive_window q;
     initial_connection_receive_window := initial_connection_receive_window q;
     max_connection_receive_window := max_connection_receive_window q;
     max_idle_timeout := max_idle_timeout q; keep_alive_period := keep_alive_period q;
     disable_path_mtu_discovery := disable_path_mtu_discovery q |}.
Definition set_msrw (v : Z) (q : QuicConfig) : QuicConfig :=
  {| initial_stream_receive_window := initial_stream_receive_window q;
     max_stream_receive_window := v;
     initial_connection_receive_window := initial_connection_receive_window q;
     max_connection_receive_window := max_connection_receive_window q;
     max_idle_timeout := max_idle_timeout q; keep_alive_period := keep_alive_period q;
     disable_path_mtu_discovery := disable_path_mtu_discovery q |}.
Definition set_icrw (v : Z) (q : QuicConfig) : QuicConfig :=
  {| initial_stream_receive_window := initial_stream_receive_window q;
     max_stream_receive_window := max_stream_receive_window q;
     initial_connection_receive_window := v;
     max_connection_receive_window := max_connection_receive_window q;
     max_idle_timeout := max_idle_timeout q; keep_alive_period := keep_alive_period q;
     disable_path_mtu_discovery := disable_path_mtu_discovery q |}.
Definition set_mcrw (v : Z) (q : QuicConfig) : QuicConfig :=
  {| initial_stream_receive_window := initial_stream_receive_window q;
     max_stream_receive_window := max_stream_receive_window q;
     initial_connection_receive_window := initial_connection_receive_window q;
     max_connection_receive_window := v;
     max_idle_timeout := max_idle_timeout q; keep_alive_period := keep_alive_period q;
     disable_path_mtu_discovery := disable_path_mtu_discovery q |}.
Definition set_idle (v : Z) (q : QuicConfig) : QuicConfig :=
  {| initial_stream_receive_window := initial_stream_receive_window q;
     max_stream_receive_window := max_stream_receive_window q;
     initial_connection_receive_window := initial_connection_receive_window q;
     max_connection_receive_window := max_connection_receive_window q;
     max_idle_timeout := v; keep_alive_period := keep_alive_period q;
     disable_path_mtu_discovery := disable_path_mtu_discovery q |}.
Definition set_keep_alive (v : Z) (q : QuicConfig) : QuicConfig :=
  {| initial_stream_receive_window := initial_stream_receive_window q;
     max_stream_receive_window := max_stream_receive_window q;
     initial_connection_receive_window := initial_connection_receive_window q;
     max_connection_receive_window := max_connection_receive_window q;
     max_idle_timeout := max_idle_timeout q; keep_alive_period := v;
     disable_path_mtu_discovery := disable_path_mtu_discovery q |}.

Definition set_quic (q : QuicConfig) (c : Config) : Config :=
  {| server_addr := server_addr c; auth := auth c; tls := tls c; quic := q;
     bandwidth := bandwidth c; fast_open := fast_open c; obfs := obfs c;
     hop_ports := hop_ports c; hop_interval := hop_interval c |}.
Definition set_hop_interval (h : HopIntervalConfig) (c : Config) : Config :=
  {| server_addr := server_addr c; auth := auth c; tls := tls c; quic := quic c;
     bandwidth := bandwidth c; fast_open := fast_open c; obfs := obfs c;
     hop_ports := hop_ports c; hop_interval := h |}.

(** A method on one field of [self.quic]. *)
Definition quic_field {A} (get : QuicConfig → Z) (set : Z → QuicConfig → QuicConfig)
    (m : stm Z ConfigError A) : stm Config ConfigError A :=
  zoom quic set_quic (zoom get set m).

Definition verify_and_fill : stm Config ConfigError () :=
  quic_field initial_stream_receive_window set_isrw
    (fill_window DEFAULT_STREAM_RECEIVE_WINDOW (lit "QUICConfig.InitialStreamReceiveWindow"));;
  quic_field max_stream_receive_window set_msrw
    (fill_window DEFAULT_STREAM_RECEIVE_WINDOW (lit "QUICConfig.MaxStreamReceiveWindow"));;
  quic_field initial_connection_receive_window set_icrw
    (fill_window DEFAULT_CONN_RECEIVE_WINDOW (lit "QUICConfig.InitialConnectionReceiveWindow"));;
  quic_field max_connection_receive_window set_mcrw
    (fill_window DEFAULT_CONN_RECEIVE_WINDOW (lit "QUICConfig.MaxConnectionReceiveWindow"));;
  quic_field max_idle_timeout set_idle
    (fill_duration DEFAULT_MAX_IDLE_TIMEOUT (from_secs 4) (from_secs 120)
       (lit "QUICConfig.MaxIdleTimeout") (lit "must be between 4s and 120s"));;
  quic_field keep_alive_period set_keep_alive
    (fill_duration DEFAULT_KEEP_ALIVE_PERIOD (from_secs 2) (from_secs 60)
       (lit "QUICConfig.KeepAlivePeriod") (lit "must be between 2s and 60s"));;
  c ← gets id;
  match hop_ports c with
  | None => mret ()
  | Some _ =>
    h ← lift (normalized (hop_interval c));
    modify (set_hop_interval h)
  end.

(** ** The server address *)

Definition split_host_port (server : rstr) : rstr * rstr :=
  let bracketed :=
    rest ← strip_prefix (lit "[") server;
    split_once x5d rest in
  match bracketed with
  | Some (host, after) =>
    let spec := default [] (strip_prefix (lit ":") after) in
    (host, if bool_decide (spec = []) then lit "443" else spec)
  | None =>
    match rsplit_once x3a server with
    | Some (host, spec) =>
      if negb (bool_decide (host = [])) && negb (bool_decide (spec = []))
         && negb (contains x3a host)
      then (host, spec)
      else (server, lit "443")
    | None => (server, lit "443")
    end
  end.

Definition is_spec_sep (b : byte) : bool := bool_decide (b = x2d) || bool_decide (b = x2c).

(** The start of the first range or list entry. *)
Definition primary_port (spec : rstr) : outcome ConfigError Z :=
  let first := default spec (head (split_on is_spec_sep spec)) in
  ok_or {| field := lit "server"; reason := lit "invalid port" |} (parse_uint 16 first).

(** ** [Config::from_profile] *)

Section from_profile.
Context `{Resolver}.

Definition from_profile (p : Profile.Profile) : outcome ConfigError Config :=
  let '(host, port_spec) := split_host_port (Profile.server p) in
  hop_ports ←
    (if contains x2d port_spec || contains x2c port_spec
     then Some <$> ok_or {| field := lit "server"; reason := lit "invalid port range" |}
                     (PortUnion.parse_port_union port_spec)
     else Ok None);
  port ← primary_port port_spec;
  addrs ← map_err (λ e, {| field := lit "server";
                           reason := lit "resolve " ++ host ++ lit ": " ++ e |})
            (to_socket_addrs host port);
  ip ← ok_or {| field := lit "server"; reason := lit "no address for " ++ host |} (head addrs);
  obfs ←
    match Profile.obfs p with
    | None => Ok None
    | Some o =>
      if eq_ignore_ascii_case (Profile.obfs_type o) (lit "salamander")
      then Ok (Some (Profile.password o))
      else Err {| field := lit "obfs";
                  reason := lit "unsupported obfs type: " ++ Profile.obfs_type o |}
    end;
  let server_name :=
    if bool_decide (Profile.sni (Profile.tls p) = []) then host
    else Profile.sni (Profile.tls p) in
  let config := new ip (Profile.auth p) {| server_name := server_name; ca := None |} in
  Ok {| server_addr := server_addr config; auth := auth config; tls := tls config;
        quic := quic config; bandwidth := bandwidth config;
        fast_open := Profile.fast_open p; obfs := obfs; hop_ports := hop_ports;
        hop_interval := hop_interval config |}.
End from_profile.

(** ** Validation, as a list of problems and a filling of the gaps *)

(** A configuration a connection can be built from. *)
Record validated (c : Config) : Prop := {
  v_isrw : MIN_RECEIVE_WINDOW ≤ initial_stream_receive_window (quic c);
  v_msrw : MIN_RECEIVE_WINDOW ≤ max_stream_receive_window (quic c);
  v_icrw : MIN_RECEIVE_WINDOW ≤ initial_connection_receive_window (quic c);
  v_mcrw : MIN_RECEIVE_WINDOW ≤ max_connection_receive_window (quic c);
  v_idle : from_secs 4 ≤ max_idle_timeout (quic c) ≤ from_secs 120;
  v_keep : from_secs 2 ≤ keep_alive_period (quic c) ≤ from_secs 60;
  v_hop : hop_ports c ≠ None →
    MIN_HOP_INTERVAL ≤ min (hop_interval c) ≤ max (hop_interval c);
}.

Definition or_default (d v : Z) : Z := if v =? 0 then d else v.

Definition fill_hop (h : HopIntervalConfig) : HopIntervalConfig :=
  if (min h =? 0) && (max h =? 0) then default_hop_interval else h.

Definition fill_defaults (c : Config) : Config :=
  let q := quic c in
  let c := set_quic {|
    initial_stream_receive_window :=
      or_default DEFAULT_STREAM_RECEIVE_WINDOW (initial_stream_receive_window q);
    max_stream_receive_window :=
      or_default DEFAULT_STREAM_RECEIVE_WINDOW (max_stream_receive_window q);
    initial_connection_receive_window :=
      or_default DEFAULT_CONN_RECEIVE_WINDOW (initial_connection_receive_window q);
    max_connection_receive_window :=
      or_default DEFAULT_CONN_RECEIVE_WINDOW (max_connection_receive_window q);
    max_idle_timeout := or_default DEFAULT_MAX_IDLE_TIMEOUT (max_idle_timeout q);
    keep_alive_period := or_default DEFAULT_KEEP_ALIVE_PERIOD (keep_alive_period q);
    disable_path_mtu_discovery := disable_path_mtu_discovery q |} c in
  match hop_ports c with
  | None => c
  | Some _ => set_hop_interval (fill_hop (hop_interval c)) c
  end.

(** The fields of a configuration that are out of range once defaulted, in the
    order the code looks at them. *)
Definition out_of_range (lo : Z) (hi : option Z) (field : rstr) (v : Z) : list rstr :=
  if (lo <=? v) && match hi with Some hi => v <=? hi | None => true end then [] else [field].

Definition problems (c : Config) : list rstr :=
  let q := quic (fill_defaults c) in
  let h := hop_interval (fill_defaults c) in
  out_of_range MIN_RECEIVE_WINDOW None (lit "QUICConfig.InitialStreamReceiveWindow")
    (initial_stream_receive_window q) ++
  out_of_range MIN_RECEIVE_WINDOW None (lit "QUICConfig.MaxStreamReceiveWindow")
    (max_stream_receive_window q) ++
  out_of_range MIN_RECEIVE_WINDOW None (lit "QUICConfig.InitialConnectionReceiveWindow")
    (initial_connection_receive_window q) ++
  out_of_range MIN_RECEIVE_WINDOW None (lit "QUICConfig.MaxConnectionReceiveWindow")
    (max_connection_receive_window q) ++
  out_of_range (from_secs 4) (Some (from_secs 120)) (lit "QUICConfig.MaxIdleTimeout")
    (max_idle_timeout q) ++
  out_of_range (from_secs 2) (Some (from_secs 60)) (lit "QUICConfig.KeepAlivePeriod")
    (keep_alive_period q) ++
  match hop_ports c with
  | None => []
  | Some _ => out_of_range MIN_HOP_INTERVAL (Some (max h)) (lit "hopInterval") (min h)
  end.

Lemma out_of_range_nil lo hi f v :
  out_of_range lo hi f v = [] ↔ lo ≤ v ∧ match hi with Some hi => v ≤ hi | None => True end.
Proof.
  unfold out_of_range. destruct hi; bool_cases; cbn; split; try done; try lia.
Qed.

Lemma hop_ports_fill c : hop_ports (fill_defaults c) = hop_ports c.
Proof. destruct c as [? ? ? ? ? ? ? [] ?]; done. Qed.

Lemma problems_nil c : problems c = [] ↔ validated (fill_defaults c).
Proof.
  unfold problems. rewrite !app_nil, !out_of_range_nil. split.
  - intros (? & ? & ? & ? & ? & ? & Hhop). split; try tauto.
    rewrite hop_ports_fill. destruct (hop_ports c); [|done].
    intros _. by apply out_of_range_nil in Hhop.
  - intros [? ? ? ? ? ? Hhop]. split_and!; try done; try lia.
    rewrite hop_ports_fill in Hhop. destruct (hop_ports c); [|done].
    apply out_of_range_nil. auto.
Qed.

Lemma fill_window_run d f v :
  MIN_RECEIVE_WINDOW ≤ d →
  fill_window d f v =
  (match out_of_range MIN_RECEIVE_WINDOW None f (or_default d v) with
   | [] => Ok ()
   | _ => Err {| field := f; reason := lit "must be at least 16384" |}
   end, or_default d v).
Proof.
  intros Hd. unfold fill_window, out_of_range, or_default, gets, modify, throw, lift.
  unfold mbind, stm_bind, id. cbn -[MIN_RECEIVE_WINDOW].
  by bool_cases; try lia.
Qed.

Lemma fill_duration_run d lo hi f m v :
  lo ≤ d ≤ hi →
  fill_duration d lo hi f m v =
  (match out_of_range lo (Some hi) f (or_default d v) with
   | [] => Ok ()
   | _ => Err {| field := f; reason := m |}
   end, or_default d v).
Proof.
  intros Hd. unfold fill_duration, out_of_range, or_default, gets, modify, throw, lift.
  unfold mbind, stm_bind, id.
  destruct (v =? 0).
  - by bool_cases; try lia.
  - by bool_cases; try lia.
Qed.

Lemma normalized_run h :
  0 ≤ min h → 0 ≤ max h →
  match out_of_range MIN_HOP_INTERVAL (Some (max (fill_hop h))) (lit "hopInterval")
          (min (fill_hop h)) with
  | [] => normalized h = Ok (fill_hop h)
  | _ => ∃ r, normalized h = Err {| field := lit "hopInterval"; reason := r |}
  end.
Proof.
  intros H1 H2. unfold normalized, fill_hop, out_of_range. 
  destruct ((min h =? 0) && (max h =? 0)) eqn:Hz; [done|].
  destruct (Z.leb_spec MIN_HOP_INTERVAL (min h)), (Z.leb_spec (min h) (max h)); cbn [andb].
  all: unfold MIN_HOP_INTERVAL, from_secs in *.
  all: bool_cases; try lia; cbn [orb andb]; try done; eauto.
Qed.

Lemma out_of_range_cases lo hi f v : out_of_range lo hi f v = [] ∨ out_of_range lo hi f v = [f].
Proof. unfold out_of_range. case_match; auto. Qed.

(** One check on a field of [self.quic]: it fills the field, and the check's
    failure ends the method. *)
Lemma quic_field_bind {A} get set (m : stm Z ConfigError ()) (k : () → stm Config ConfigError A)
    (c : Config) r v :
  m (get (quic c)) = (r, v) →
  (quic_field get set m ≫= k) c =
  match r with
  | Ok u => k u (set_quic (set v (quic c)) c)
  | Err e => (Err e, set_quic (set v (quic c)) c)
  | Panic => (Panic, set_quic (set v (quic c)) c)
  end.
Proof.
  intros Hm. unfold mbind, stm_bind, quic_field, zoom. rewrite Hm. by destruct r.
Qed.

(** Durations and windows are unsigned. *)
Definition unsigned_hop (c : Config) : Prop :=
  0 ≤ min (hop_interval c) ∧ 0 ≤ max (hop_interval c).

(** Run the next check; when it fails, that is the first problem. *)
#[local] Ltac run_check :=
  erewrite quic_field_bind by (first [apply fill_window_run|apply fill_duration_run; split]; by vm_compute);
  cbn [initial_stream_receive_window max_stream_receive_window initial_connection_receive_window
    max_connection_receive_window max_idle_timeout keep_alive_period quic set_quic set_isrw
    set_msrw set_icrw set_mcrw set_idle set_keep_alive];
  match goal with
  | |- context [match out_of_range ?a ?b ?f ?v with _ => _ end] =>
    let Ho := fresh "Ho" in
    pose proof (out_of_range_cases a b f v) as Ho;
    destruct Ho as [Ho|Ho]; rewrite Ho; cbn [app]; clear Ho; [|by eexists _, _]
  end.

Lemma hop_check_run c :
  (c ← gets id;
   match hop_ports c with
   | None => mret ()
   | Some _ =>
     h ← lift (normalized (hop_interval c));
     modify (set_hop_interval h)
   end) c =
  match hop_ports c with
  | None => (Ok (), c)
  | Some _ =>
    match normalized (hop_interval c) with
    | Ok h => (Ok (), set_hop_interval h c)
    | Err e => (Err e, c)
    | Panic => (Panic, c)
    end
  end.
Proof.
  unfold mbind, stm_bind, gets, lift, modify, id.
  destruct (hop_ports c); [|done]. by destruct (normalized _).
Qed.

Lemma verify_and_fill_run c :
  unsigned_hop c →
  match problems c with
  | [] => verify_and_fill c = (Ok (), fill_defaults c)
  | f :: _ => ∃ r c', verify_and_fill c = (Err {| field := f; reason := r |}, c')
  end.
Proof.
  intros [Hmin Hmax]. destruct c as [sa au tl [w1 w2 w3 w4 idle keep mtu] bw fo ob hp hi].
  unfold problems, verify_and_fill.
  assert (quic (fill_defaults (Build_Config sa au tl (Build_QuicConfig w1 w2 w3 w4 idle keep mtu)
    bw fo ob hp hi)) = {| initial_stream_receive_window := or_default DEFAULT_STREAM_RECEIVE_WINDOW w1;
      max_stream_receive_window := or_default DEFAULT_STREAM_RECEIVE_WINDOW w2;
      initial_connection_receive_window := or_default DEFAULT_CONN_RECEIVE_WINDOW w3;
      max_connection_receive_window := or_default DEFAULT_CONN_RECEIVE_WINDOW w4;
      max_idle_timeout := or_default DEFAULT_MAX_IDLE_TIMEOUT idle;
      keep_alive_period := or_default DEFAULT_KEEP_ALIVE_PERIOD keep;
      disable_path_mtu_discovery := mtu |}) as -> by (by destruct hp).
  cbn [hop_ports hop_interval] in *. set (c' := fill_defaults _) in |- *.
  do 6 run_check. rewrite hop_check_run. cbn [hop_ports hop_interval set_quic].
  destruct hp as [u|]; [|done].
  pose proof (normalized_run hi Hmin Hmax) as Hn.
  change (hop_interval c') with (fill_hop hi).
  destruct (out_of_range_cases MIN_HOP_INTERVAL (Some (max (fill_hop hi))) (lit "hopInterval")
    (min (fill_hop hi))) as [Ho|Ho]; rewrite Ho in *.
  - rewrite Hn. done.
  - destruct Hn as [r ->]. by eexists _, _.
Qed.

Lemma or_default_idem d v : d ≠ 0 → or_default d (or_default d v) = or_default d v.
Proof. intros Hd. unfold or_default. bool_cases; done. Qed.

Lemma fill_hop_idem h : fill_hop (fill_hop h) = fill_hop h.
Proof.
  unfold fill_hop at 2 3. destruct ((min h =? 0) && (max h =? 0)) eqn:E; [reflexivity|].
  unfold fill_hop. by rewrite E.
Qed.

Lemma fill_defaults_idem c : fill_defaults (fill_defaults c) = fill_defaults c.
Proof.
  destruct c as [sa au tl [w1 w2 w3 w4 idle keep mtu] bw fo ob hp hi].
  unfold fill_defaults, set_quic, set_hop_interval. 
  destruct hp; cbn [quic hop_ports hop_interval initial_stream_receive_window
    max_stream_receive_window initial_connection_receive_window max_connection_receive_window
    max_idle_timeout keep_alive_period disable_path_mtu_discovery server_addr auth tls bandwidth
    fast_open obfs]; rewrite !or_default_idem by (by vm_compute); by rewrite ?fill_hop_idem.
Qed.

(** ** Properties *)

(** C25: [verify_and_fill] accepts a configuration exactly when defaulting its
    unset fields makes it valid (windows of at least 16384 bytes, idle timeout
    in 4..120 s, keep-alive in 2..60 s, and a hop interval of at least 5 s with
    min at most max when hopping); it then leaves exactly that configuration,
    on which it is the identity. Otherwise it reports the first field, in the
    order of the checks, that is out of range. *)
Theorem verify_and_fill_spec (c : Config) (Hu : unsigned_hop c) :
  (validated (fill_defaults c) →
     verify_and_fill c = (Ok (), fill_defaults c) ∧
     verify_and_fill (fill_defaults c) = (Ok (), fill_defaults c)) ∧
  (¬ validated (fill_defaults c) → ∃ f fs r c',
     problems c = f :: fs ∧
     verify_and_fill c = (Err {| field := f; reason := r |}, c')).
Proof.
  split; rewrite <-problems_nil; intros Hp.
  - split.
    + pose proof (verify_and_fill_run c Hu) as Hr. by rewrite Hp in Hr.
    + assert (Hu' : unsigned_hop (fill_defaults c)).
      { destruct c as [? ? ? ? ? ? ? [] h]; [|done]. unfold unsigned_hop in *. destruct Hu.
        change (hop_interval (fill_defaults _)) with (fill_hop h).
        unfold fill_hop. by case_match. }
      pose proof (verify_and_fill_run _ Hu') as Hr.
      rewrite (proj2 (problems_nil _)) in Hr by (rewrite fill_defaults_idem; by apply problems_nil).
      by rewrite fill_defaults_idem in Hr.
  - pose proof (verify_and_fill_run c Hu) as Hr.
    destruct (problems c) as [|f fs]; [done|]. destruct Hr as (r & c' & Hr). by exists f, fs, r, c'.
Qed.

(** A host in brackets and what follows them. *)
Definition bracketed (server host after : rstr) : Prop :=
  (x5d ∉ host) ∧ server = lit "[" ++ host ++ (x5d :: after).

Lemma bracketed_cut server host after :
  (rest ← strip_prefix (lit "[") server; split_once x5d rest) = Some (host, after) ↔
  bracketed server host after.
Proof.
  unfold bracketed. split.
  - destruct (strip_prefix _ server) as [rest|] eqn:Hs; cbn; [|done].
    intros [-> Hh]%split_once_Some. split; [done|]. by apply (strip_prefix_Some (lit "[")).
  - intros [Hh ->]. rewrite (proj2 (strip_prefix_Some _ _ _)) by done. by apply split_once_app.
Qed.

Lemma unbracketed_cut server :
  (∀ h a, ¬ bracketed server h a) → (rest ← strip_prefix (lit "[") server; split_once x5d rest) = None.
Proof.
  intros Hn. destruct (_ ≫= _) as [[h a]|] eqn:Hc; [|done]. by apply bracketed_cut, Hn in Hc.
Qed.

(** The unbracketed forms that name a port: one colon, both sides non-empty. *)
Definition host_colon_spec (server host spec : rstr) : Prop :=
  server = host ++ x3a :: spec ∧ host ≠ [] ∧ spec ≠ [] ∧ (x3a ∉ host) ∧ (x3a ∉ spec).

Lemma host_colon_spec_split server host spec :
  (∀ h a, ¬ bracketed server h a) → host_colon_spec server host spec →
  split_host_port server = (host, spec).
Proof.
  intros Hb (-> & Hh & Hs & Hch & Hcs). unfold split_host_port. rewrite unbracketed_cut by done.
  rewrite rsplit_once_app by done.
  rewrite !bool_decide_eq_false_2 by done. unfold contains.
  by rewrite bool_decide_eq_false_2.
Qed.

(** The server-address grammar. [[host]:spec] and [[host]] are cut at the
    first closing bracket, a missing or empty spec meaning port 443. Without
    brackets, [host:spec] is cut exactly when it has one colon with
    something on each side; every other form, bare IPv6 literals among them, is
    a host on port 443. *)
Theorem split_host_port_spec (server : rstr) :
  (∀ host after, bracketed server host after →
     split_host_port server =
     (host, match after with
            | x3a :: b :: spec => b :: spec
            | _ => lit "443"
            end)) ∧
  ((∀ h a, ¬ bracketed server h a) → ∀ host spec,
     split_host_port server = (host, spec) ↔
     host_colon_spec server host spec ∨
     (host = server ∧ spec = lit "443" ∧ (∀ h s, ¬ host_colon_spec server h s))).
Proof.
  split.
  - intros host after Hb%bracketed_cut. unfold split_host_port. rewrite Hb.
    destruct after as [|c after]; [done|]. cbn [strip_prefix lit String.list_byte_of_string map
      String.list_ascii_of_string].
    destruct (decide (x3a = c)) as [<-|Hc].
    + change (strip_prefix (lit ":") (x3a :: after)) with (Some after). by destruct after.
    + replace (strip_prefix (lit ":") (c :: after)) with (@None rstr); [by destruct c|].
      symmetry. apply eq_None_not_Some. intros [x Hx%strip_prefix_Some]. cbn in Hx. congruence.
  - intros Hb host spec. split.
    + unfold split_host_port. rewrite unbracketed_cut by done.
      destruct (rsplit_once x3a server) as [[h s]|] eqn:Hr.
      * apply rsplit_once_Some in Hr as [-> Hs].
        destruct (decide (h ≠ [] ∧ s ≠ [] ∧ x3a ∉ h)) as [(Hh & Hsn & Hc)|Hn].
        { rewrite !bool_decide_eq_false_2 by done. unfold contains.
          rewrite bool_decide_eq_false_2 by done. cbn. intros [= <- <-]. by left. }
        replace (negb _ && negb _ && negb _) with false.
        2:{ symmetry. unfold contains. apply not_true_iff_false.
            rewrite !andb_true_iff, !negb_true_iff, !bool_decide_eq_false. tauto. }
        intros [= <- <-]. right. split; [done|]. split; [done|].
        intros h' s' (He & ? & ? & Hc' & Hs'). apply Hn.
        assert (Some (h, s) = Some (h', s')) as [= -> ->]; [|done].
        rewrite <-(rsplit_once_app x3a h s) by done. rewrite He. by apply rsplit_once_app.
      * intros [= <- <-]. right. split; [done|]. split; [done|].
        intros h s (-> & _). apply rsplit_once_None in Hr. set_solver.
    + intros [Hd|(-> & -> & Hn)]; [by apply host_colon_spec_split|].
      unfold split_host_port. rewrite unbracketed_cut by done.
      destruct (rsplit_once x3a server) as [[h s]|] eqn:Hr; [|done].
      apply rsplit_once_Some in Hr as [-> Hs].
      replace (negb _ && negb _ && negb _) with false; [done|].
      symmetry. unfold contains. apply not_true_iff_false.
      rewrite !andb_true_iff, !negb_true_iff, !bool_decide_eq_false.
      intros [[? ?] ?]. by apply (Hn h s).
Qed.

(** The host and the port spec a server address names. *)
Definition server_parts (server host spec : rstr) : Prop :=
  (∃ after, bracketed server host after ∧
     spec = match after with x3a :: b :: s => b :: s | _ => lit "443" end) ∨
  ((∀ h a, ¬ bracketed server h a) ∧
     (host_colon_spec server host spec ∨
      (host = server ∧ spec = lit "443" ∧ (∀ h s, ¬ host_colon_spec server h s)))).

Lemma split_server_parts server :
  server_parts server (split_host_port server).1 (split_host_port server).2.
Proof.
  destruct (split_host_port_spec server) as [Hb Hu]. unfold server_parts.
  destruct (rest ← strip_prefix (lit "[") server; split_once x5d rest) as [[h a]|] eqn:Hc.
  - apply bracketed_cut in Hc. left. exists a. by rewrite (Hb h a Hc).
  - right. assert (Hn : ∀ h a, ¬ bracketed server h a).
    { intros h a Hba%bracketed_cut. by rewrite Hc in Hba. }
    split; [done|]. apply (Hu Hn). by destruct (split_host_port server).
Qed.

(** The first port a spec names: the number before its first separator. *)
Definition first_port (spec : rstr) (port : Z) : Prop :=
  ∃ first rest, spec = first ++ rest ∧ (x2d ∉ first) ∧ (x2c ∉ first) ∧
    (rest = [] ∨ ∃ b tl, rest = b :: tl ∧ (b = x2d ∨ b = x2c)) ∧
    parse_uint 16 first = Some port.

Section from_profile_laws.
Context `{Resolver}.

Lemma primary_port_until spec port :
  primary_port spec = Ok port → parse_uint 16 (until is_spec_sep spec) = Some port.
Proof.
  unfold primary_port. rewrite head_split_on. cbn [default].
  destruct (parse_uint 16 _); cbn; congruence.
Qed.

Lemma primary_port_first spec port : primary_port spec = Ok port → first_port spec port.
Proof.
  intros Hp%primary_port_until. destruct (until_split is_spec_sep spec) as (rest & Hs & Hn & Hr).
  rewrite Forall_forall in Hn. exists (until is_spec_sep spec), rest. split_and!; [done| | | |done].
  - intros Hin%Hn. by vm_compute in Hin.
  - intros Hin%Hn. by vm_compute in Hin.
  - destruct Hr as [->|(b & tl & -> & Hb)]; [by left|]. right. exists b, tl. split; [done|].
    unfold is_spec_sep in Hb. by apply orb_true_iff in Hb as [Hb%bool_decide_eq_true|Hb%bool_decide_eq_true]; [left|right].
Qed.

(** What a fresh configuration with a hop spec and an obfs key validates to. *)
Lemma new_validated addr a t fo ob hp :
  validated (fill_defaults {| server_addr := addr; auth := a; tls := t; quic := default_quic;
    bandwidth := default_bandwidth; fast_open := fo; obfs := ob; hop_ports := hp;
    hop_interval := default_hop_interval |}).
Proof.
  destruct hp; split; cbn [fill_defaults set_quic quic hop_interval set_hop_interval hop_ports
    initial_stream_receive_window max_stream_receive_window initial_connection_receive_window
    max_connection_receive_window max_idle_timeout keep_alive_period]; try done.
  all: try (split; by vm_compute). all: intros _; split; by vm_compute.
Qed.

(** What each field of a profile becomes. *)
Lemma from_profile_cases (p : Profile.Profile) :
  let '(host, spec) := split_host_port (Profile.server p) in
  match from_profile p with
  | Ok c =>
    primary_port spec = Ok (Net.port (server_addr c)) ∧
    match hop_ports c with
    | None => (x2d ∉ spec) ∧ (x2c ∉ spec)
    | Some u => ¬ ((x2d ∉ spec) ∧ (x2c ∉ spec)) ∧ PortUnion.parse_port_union spec = Some u ∧
        PortUnion.contains u (Net.port (server_addr c)) = true
    end ∧
    auth c = Profile.auth p ∧ fast_open c = Profile.fast_open p ∧
    obfs c = Profile.password <$> Profile.obfs p ∧
    tls c = {| server_name := if decide (Profile.sni (Profile.tls p) = []) then host
                              else Profile.sni (Profile.tls p); ca := None |} ∧
    bandwidth c = default_bandwidth ∧ unsigned_hop c ∧
    ∃ c', verify_and_fill c = (Ok (), c') ∧ validated c'
  | Err e => field e = lit "server" ∨ field e = lit "obfs"
  | Panic => False
  end.
Proof.
  unfold from_profile. destruct (split_host_port _) as [host spec].
  set (hops := if contains x2d spec || contains x2c spec then _ else _).
  assert (Hhops : match hops with
    | Ok None => (x2d ∉ spec) ∧ (x2c ∉ spec)
    | Ok (Some u) => ¬ ((x2d ∉ spec) ∧ (x2c ∉ spec)) ∧ PortUnion.parse_port_union spec = Some u
    | Err e => field e = lit "server"
    | Panic => False
    end).
  { unfold hops, contains. destruct (_ || _) eqn:Hc.
    - destruct (PortUnion.parse_port_union spec) eqn:Hu; cbn; [|done]. split; [|done].
      apply orb_true_iff in Hc as [Hc%bool_decide_eq_true|Hc%bool_decide_eq_true]; naive_solver.
    - apply orb_false_iff in Hc as [Hc1%bool_decide_eq_false Hc2%bool_decide_eq_false]. done. }
  clearbody hops. destruct hops as [hop|e|]; cbn [mbind outcome_bind]; [|by left|done].
  destruct (primary_port spec) as [port|e|] eqn:Hp; cbn [mbind outcome_bind].
  2:{ unfold primary_port, ok_or in Hp. case_match; [done|]. injection Hp as <-. by left. }
  2:{ unfold primary_port, ok_or in Hp. by case_match. }
  pose proof (to_socket_addrs_no_panic host port) as Hnp.
  destruct (to_socket_addrs host port) as [addrs|e|] eqn:Hr; [|by left|done].
  cbn [map_err mbind outcome_bind]. destruct addrs as [|a addrs]; [by left|].
  cbn [head ok_or mbind outcome_bind]. apply to_socket_addrs_port in Hr.
  apply Forall_cons in Hr as [Ha _]. subst port.
  set (ob := match Profile.obfs p with Some _ => _ | None => _ end).
  assert (Hob : match ob with Ok k => k = Profile.password <$> Profile.obfs p
                | Err e => field e = lit "obfs" | Panic => False end).
  { unfold ob. destruct (Profile.obfs p); [|done]. by destruct (eq_ignore_ascii_case _ _). }
  clearbody ob. destruct ob as [k|e|]; cbn [mbind outcome_bind]; [|by right|done]. subst k.
  cbn [server_addr hop_ports auth fast_open obfs tls new quic bandwidth hop_interval].
  assert (Huns : unsigned_hop (new a (Profile.auth p) {| server_name := []; ca := None |})) by (split; by vm_compute).
  split_and!; try done.
  - destruct hop as [u|]; [|done]. destruct Hhops as [Hn Hu]. split_and!; [done..|].
    eapply PortUnion.parse_port_union_first; [done| |].
    + intros [-> | ->]; apply Hn; split; apply (bool_decide_unpack _); reflexivity.
    + by apply primary_port_until.
  - f_equal. case_bool_decide; [by rewrite decide_True|by rewrite decide_False].
  - eexists. split; [|apply new_validated].
    match goal with |- verify_and_fill ?c = _ => pose proof (verify_and_fill_run c) as Hv end.
    rewrite (proj2 (problems_nil _)) in Hv by apply new_validated.
    apply Hv. split; by vm_compute.
Qed.

(** C24: A client configuration built from a profile. The profile's server is a
    host and a port spec: cut at the brackets, or at the only colon, port 443
    when none is given. The address dialled has the spec's first port, the
    number before its first dash or comma; hopping is on exactly when the spec
    is a list or a range, over the ports the spec denotes, among which the
    dialled port is; credentials, fast-open and the obfuscation key are the
    profile's, the server name falls back to the host; and validating the
    configuration always succeeds. A rejected profile names the server or the
    obfuscation setting. *)
Theorem from_profile_spec (p : Profile.Profile) :
  ∃ host spec, server_parts (Profile.server p) host spec ∧
  match from_profile p with
  | Ok c =>
    first_port spec (Net.port (server_addr c)) ∧
    (hop_ports c = None ↔ (x2d ∉ spec) ∧ (x2c ∉ spec)) ∧
    (∀ u, hop_ports c = Some u → PortUnion.parse_port_union spec = Some u ∧
       PortUnion.contains u (Net.port (server_addr c)) = true) ∧
    auth c = Profile.auth p ∧ fast_open c = Profile.fast_open p ∧
    obfs c = Profile.password <$> Profile.obfs p ∧
    tls c = {| server_name := if decide (Profile.sni (Profile.tls p) = []) then host
                              else Profile.sni (Profile.tls p); ca := None |} ∧
    ∃ c', verify_and_fill c = (Ok (), c') ∧ validated c'
  | Err e => field e = lit "server" ∨ field e = lit "obfs"
  | Panic => False
  end.
Proof.
  exists (split_host_port (Profile.server p)).1, (split_host_port (Profile.server p)).2.
  split; [apply split_server_parts|].
  pose proof (from_profile_cases p) as Hc. destruct (split_host_port _) as [host spec]. cbn [fst snd].
  destruct (from_profile p) as [c|e|]; [|done..].
  destruct Hc as (H1 & Hh & H2 & H3 & H4 & H5 & _ & _ & H6). split_and!; try done.
  - by apply primary_port_first.
  - destruct (hop_ports c) as [u|]; [|done]. split; [done|]. by intros Hn%(proj1 Hh).
  - intros u Hu. rewrite Hu in Hh. apply Hh.
Qed.
End from_profile_laws.

(** ** Witness *)

Lemma verify_and_fill_spec_witness :
  let c := new (Net.socket_addr (Net.V4 0x7f000001) 443) (lit "auth")
             {| server_name := []; ca := None |} in
  unsigned_hop c ∧ validated (fill_defaults c) ∧
  verify_and_fill c = (Ok (), fill_defaults c) ∧
  verify_and_fill (fill_defaults c) = (Ok (), fill_defaults c).
Proof.
  cbv zeta. split; [split; by vm_compute|]. split; [apply new_validated|].
  apply verify_and_fill_spec; [split; by vm_compute|apply new_validated].
Defined.

End ClientConfig.
