(* ===== verification/Tls.v ===== *)
(** * Tls: the client's TLS configuration

    Models [client/tls.rs]: [build_rustls_client_config]. What it asks of
    rustls and of the platform verifier is a class; the configuration it makes
    is a record of what was asked. *)
From S2P Require Import Prelude RustStr Errors ClientConfig.

(** The protocol versions rustls speaks. *)
Inductive tls_version := TLS12 | TLS13.

(** What the builder can fail at: the provider has no suite for a version, a
    certificate is not one, the platform has no trust store. *)
Class Rustls := {
  with_protocol_versions : list tls_version → outcome rstr ();
  root_store_add : list byte → list (list byte) → outcome rstr (list (list byte));
  with_platform_verifier : outcome rstr ();
  (** [RootCertStore::add] adds the certificate it is given. *)
  root_store_add_ok ca roots roots' : root_store_add ca roots = Ok roots' → roots' = roots ++ [ca];
}.

Module Tls.
Import RustStr Errors.

Definition ALPN_H3 : list byte := lit "h3".

(** Who vouches for the server's certificate. *)
Inductive verifier := RootCertificates (roots : list (list byte)) | PlatformVerifier.

Record RustlsClientConfig := {
  versions : list tls_version;
  server_cert_verifier : verifier;
  client_auth : bool;
  alpn_protocols : list (list byte);
}.

Section tls.
Context `{Rustls}.

Definition cfg_err (reason : rstr) : ConfigError := {| field := lit "TLSConfig"; reason := reason |}.

Definition build_rustls_client_config (tls : ClientConfig.TlsConfig) :
    outcome ConfigError RustlsClientConfig :=
  _ ← map_err cfg_err (with_protocol_versions [TLS13]);
  verifier ←
    match ClientConfig.ca tls with
    | Some ca => RootCertificates <$> map_err cfg_err (root_store_add ca [])
    | None => _ ← map_err cfg_err with_platform_verifier; Ok PlatformVerifier
    end;
  Ok {| versions := [TLS13]; server_cert_verifier := verifier; client_auth := false;
        alpn_protocols := [ALPN_H3] |}.

(** Who verifies the server under a configuration. *)
Definition verifier_for (tls : ClientConfig.TlsConfig) : verifier :=
  match ClientConfig.ca tls with Some ca => RootCertificates [ca] | None => PlatformVerifier end.

Lemma built_verifier tls c :
  build_rustls_client_config tls = Ok c → server_cert_verifier c = verifier_for tls.
Proof.
  unfold build_rustls_client_config, verifier_for. intros Hb. apply bind_ok_inv in Hb as (_ & _ & Hb).
  destruct (ClientConfig.ca tls) as [ca|].
  - apply bind_ok_inv in Hb as (v & Hv & [= <-]).
    destruct (root_store_add ca []) as [roots|e|] eqn:Hr; [|done..]. injection Hv as <-.
    by apply root_store_add_ok in Hr as ->.
  - apply bind_ok_inv in Hb as (v & Hv & [= <-]). apply bind_ok_inv in Hv as (_ & _ & [= <-]). done.
Qed.

(** C23: A configuration that was built verifies the server: against the supplied
    certificate alone when there is one, and against the platform's trust store
    exactly when there is none (a certificate that does not parse never falls
    back to it); it speaks TLS 1.3 and HTTP/3 only, and shows no client
    certificate. Whatever fails is reported as the TLS part of the
    configuration. *)
Theorem rustls_config_spec (tls : ClientConfig.TlsConfig) :
  match build_rustls_client_config tls with
  | Ok c =>
    server_cert_verifier c = verifier_for tls ∧ versions c = [TLS13] ∧ alpn_protocols c = [ALPN_H3] ∧ client_auth c = false
  | Err e => field e = lit "TLSConfig" ∧
      (with_protocol_versions [TLS13] = Err (reason e) ∨
       match ClientConfig.ca tls with
       | Some ca => root_store_add ca [] = Err (reason e)
       | None => with_platform_verifier = Err (reason e)
       end)
  | Panic => with_protocol_versions [TLS13] = Panic ∨
      match ClientConfig.ca tls with
      | Some ca => root_store_add ca [] = Panic
      | None => with_platform_verifier = Panic
      end
  end.
Proof.
  unfold build_rustls_client_config, verifier_for.
  destruct (with_protocol_versions [TLS13]) as [[]|e|]; cbn; [|auto..].
  destruct (ClientConfig.ca tls) as [ca|].
  - destruct (root_store_add ca []) as [roots|e|] eqn:Hr; cbn; [|auto..].
    by apply root_store_add_ok in Hr as ->.
  - destruct with_platform_verifier as [[]|e|]; cbn; auto.
Qed.

End tls.

(** ** A rustls that knows one certificate *)

#[local] Program Instance sample_rustls : Rustls := {|
  with_protocol_versions _ := Ok ();
  root_store_add ca roots := if decide (ca = [x30]) then Ok (roots ++ [ca]) else Err (lit "BadEncoding");
  with_platform_verifier := Ok ();
|}.
Next Obligation. intros ca roots roots'. cbn. case_decide; [by intros [= <-]|done]. Qed.

Example invalid_ca_is_rejected :
  build_rustls_client_config {| ClientConfig.server_name := lit "h"; ClientConfig.ca := Some (lit "not a certificate") |}
  = Err {| field := lit "TLSConfig"; reason := lit "BadEncoding" |}.
Proof. reflexivity. Qed.

End Tls.
