(* ===== verification/Hop.v ===== *)
(** * Hop: the port-hopping socket wrapper

    Models [client/hop_socket.rs]: [HopUdpSocket] ([new], [current],
    [try_send], [poll_recv]), the background [hop_loop] and [next_delay].  The
    socket and the task share one atomic index; a run is an interleaving of
    the steps each can take ([step]). *)
From S2P Require Import Prelude IoRead Net ClientConfig.

Module Hop.
Import Net.

(** [HopState]: the addresses and the shared atomic index. *)
Record HopState := { addrs : list SocketAddr; index : nat }.

(** The socket's fields next to the inner socket it wraps. *)
Record HopUdpSocket := { canonical : SocketAddr; state : HopState }.

(** [rand::rng().random_range(0..len)]: panics on the empty range. *)
Definition random_index {E} (len : nat) (d : Z) : outcome E nat :=
  if decide (len = 0) then Panic
  else Ok (Z.to_nat (random_range 0 (Z.of_nat len) d)).

(** [new]: in a debug build ([oc]) the assertion rejects an empty list before
    the draw does. *)
Definition new {E} (debug_assertions : bool) (canonical : SocketAddr) (addrs : list SocketAddr)
    (d : Z) : outcome E HopUdpSocket :=
  if debug_assertions && bool_decide (addrs = []) then Panic else
  start ← random_index (length addrs) d;
  Ok {| canonical := canonical; state := {| addrs := addrs; index := start |} |}.

Definition current {E} (s : HopUdpSocket) : outcome E SocketAddr :=
  or_panic (addrs (state s) !! index (state s)).

(** [try_send]: what the inner socket is handed. *)
Definition try_send {E} (inner : Transmit → outcome E ()) (s : HopUdpSocket) (t : Transmit) :
    outcome E () :=
  destination ← current s;
  inner {| destination := destination; ecn := ecn t; contents := contents t;
           segment_size := segment_size t; src_ip := src_ip t |}.

(** [poll_recv], given the inner result and the metadata it left. *)
Definition set_addr (a : SocketAddr) (m : RecvMeta) : RecvMeta :=
  {| meta_addr := a; meta_len := meta_len m; meta_stride := meta_stride m |}.
Definition poll_recv {E} (s : HopUdpSocket) (result : Poll (outcome E nat)) (meta : list RecvMeta) :
    Poll (outcome E nat) * list RecvMeta :=
  match result with
  | Ready (Ok count) =>
    (result, (set_addr (canonical s) <$> take count meta) ++ drop count meta)
  | _ => (result, meta)
  end.

(** The body of [hop_loop] after its sleep; [None] is the task returning
    because the socket is gone. *)
Definition hop_once {E} (upgraded : option HopState) (d : Z) : outcome E (option HopState) :=
  match upgraded with
  | None => Ok None
  | Some st =>
    i ← random_index (length (addrs st)) d;
    Ok (Some {| addrs := addrs st; index := i |})
  end.

(** [next_delay], in nanoseconds.  [Duration]s hold [u64] seconds and their sum
    panics past that. *)
Definition DURATION_MAX : Z := (2 ^ 64 - 1) * 1000000000 + 999999999.
Definition duration_add {E} (a b : Z) : outcome E Z :=
  if (a + b <=? DURATION_MAX)%Z then Ok (a + b)%Z else Panic.

Definition next_delay {E} (interval : ClientConfig.HopIntervalConfig) (d : Z) : outcome E Z :=
  let '(lo, hi) := (ClientConfig.min interval, ClientConfig.max interval) in
  if (hi <=? lo)%Z then Ok lo else
  let span := saturating_sub hi lo in
  let span := if (span <? 2 ^ 64)%Z then span else (2 ^ 64 - 1)%Z in
  duration_add lo (random_range 0 (span + 1) d).

(** ** The socket and its task, interleaved *)

(** [socket] is gone once dropped; [task] is whether [hop_loop] still runs. *)
Record sys := { socket : option HopUdpSocket; task : bool }.

Inductive event :=
| Sent (asked wire : Transmit)
| Received (count : nat) (from shown : list RecvMeta)
| Hopped (i : nat)
| Dropped
| TaskEnded.

Inductive step : sys → event → sys → Prop :=
| step_send s b t t' :
    try_send (E := Transmit) (λ t', Err t') s t = Err t' →
    step {| socket := Some s; task := b |} (Sent t t') {| socket := Some s; task := b |}
| step_recv s b count meta meta' :
    poll_recv (E := io_error) s (Ready (Ok count)) meta = (Ready (Ok count), meta') →
    step {| socket := Some s; task := b |} (Received count meta meta')
         {| socket := Some s; task := b |}
| step_hop s d st' :
    hop_once (E := io_error) (Some (state s)) d = Ok (Some st') →
    step {| socket := Some s; task := true |} (Hopped (index st'))
         {| socket := Some {| canonical := canonical s; state := st' |}; task := true |}
| step_drop s b :
    step {| socket := Some s; task := b |} Dropped {| socket := None; task := b |}
| step_task_end d :
    hop_once (E := io_error) None d = Ok None →
    step {| socket := None; task := true |} TaskEnded {| socket := None; task := false |}.

Inductive steps : sys → list event → sys → Prop :=
| steps_nil x : steps x [] x
| steps_cons x e y es z : step x e y → steps y es z → steps x (e :: es) z.

(** What an event must look like over a socket on [al] known as [canon]. *)
Definition event_ok (canon : SocketAddr) (al : list SocketAddr) (e : event) : Prop :=
  match e with
  | Sent t t' =>
    destination t' ∈ al ∧ contents t' = contents t ∧ ecn t' = ecn t ∧
    segment_size t' = segment_size t ∧ src_ip t' = src_ip t
  | Received count meta meta' =>
    length meta' = length meta ∧
    (∀ i m', i < count → meta' !! i = Some m' → meta_addr m' = canon ∧
       ∃ m, meta !! i = Some m ∧ meta_len m' = meta_len m ∧ meta_stride m' = meta_stride m) ∧
    (∀ i, count ≤ i → meta' !! i = meta !! i)
  | Hopped i => i < length al
  | Dropped | TaskEnded => True
  end.

Definition inv (canon : SocketAddr) (al : list SocketAddr) (x : sys) : Prop :=
  match socket x with
  | Some s => canonical s = canon ∧ addrs (state s) = al ∧ index (state s) < length al
  | None => True
  end.

Lemma random_index_ok {E} len d i : @random_index E len d = Ok i → i < len.
Proof.
  unfold random_index. case_decide; [done|]. intros [= <-].
  pose proof (random_range_bound 0 (Z.of_nat len) d ltac:(lia)). lia.
Qed.

Lemma random_index_total {E} len d : 0 < len → ∃ i, @random_index E len d = Ok i ∧ i < len.
Proof.
  intros Hl. unfold random_index. rewrite decide_False by lia. eexists. split; [done|].
  pose proof (random_range_bound 0 (Z.of_nat len) d ltac:(lia)). lia.
Qed.

Lemma poll_recv_ok canon al s count meta meta' :
  canonical s = canon →
  poll_recv (E := io_error) s (Ready (Ok count)) meta = (Ready (Ok count), meta') →
  event_ok canon al (Received count meta meta').
Proof.
  intros Hc [= <-]. cbn. split_and!.
  - rewrite length_app, length_fmap, length_take, length_drop. lia.
  - intros i m' Hi Hm. destruct (decide (i < length meta)) as [Hl|Hl].
    + rewrite lookup_app_l in Hm by (rewrite length_fmap, length_take; lia).
      rewrite list_lookup_fmap, lookup_take_lt in Hm by lia.
      destruct (meta !! i) as [m|]; [|done]. injection Hm as <-. cbn. eauto.
    + apply lookup_lt_Some in Hm. rewrite length_app, length_fmap, length_take, length_drop in Hm. lia.
  - intros i Hi. rewrite lookup_app_r by (rewrite length_fmap, length_take; lia).
    rewrite length_fmap, length_take, lookup_drop.
    destruct (decide (i < length meta)); [f_equal; lia|].
    rewrite !lookup_ge_None_2 by lia. done.
Qed.

Lemma step_ok canon al x e y :
  inv canon al x → step x e y → inv canon al y ∧ event_ok canon al e.
Proof.
  intros Hx Hs. destruct Hs as [s b t t' Ht|s b count meta meta' Hr|s d st' Hh|s b|d Hd]; cbn in Hx.
  - split; [done|]. destruct Hx as (_ & Ha & Hi). unfold try_send, current in Ht. rewrite Ha in Ht.
    destruct (al !! index (state s)) as [a|] eqn:Hl; [|done].
    injection Ht as <-. cbn. split_and!; try done. by eapply list_elem_of_lookup_2.
  - split; [done|]. eapply poll_recv_ok; [|done]. by destruct Hx.
  - destruct Hx as (Hc & Ha & Hi). cbn in Hh. inv_ok. cbn.
    assert (x < length (addrs (state s))) by (by eapply random_index_ok). done.
  - done.
  - done.
Qed.

(** ** Properties *)

(** C22: Over any interleaving of sends, receives and hops of a socket built on a
    non-empty address list, every datagram leaves for one of the addresses with
    nothing else changed, every received datagram is shown as coming from the
    canonical peer, and the shared index stays in range (so no step panics). *)
Theorem hop_safe (dbg : bool) (canon : SocketAddr) (al : list SocketAddr) (d : Z)
    (s : HopUdpSocket) (es : list event) (x : sys)
    (Hn : new (E := io_error) dbg canon al d = Ok s)
    (Hs : steps {| socket := Some s; task := true |} es x) :
  Forall (event_ok canon al) es ∧ inv canon al x ∧
  (∀ s', socket x = Some s' → ∃ a, current (E := io_error) s' = Ok a ∧ a ∈ al).
Proof.
  assert (Hi : inv canon al {| socket := Some s; task := true |}).
  { unfold new in Hn. destruct (_ && _); [done|].
    apply bind_ok_inv in Hn as (i & Hi%random_index_ok & [= <-]). by cbn. }
  clear Hn. assert (Forall (event_ok canon al) es ∧ inv canon al x) as [He Hx].
  { induction Hs as [|x e y es z H1 Hs IH]; [done|].
    destruct (step_ok _ _ _ _ _ Hi H1) as [Hy He]. destruct (IH Hy). by split; [constructor|]. }
  split_and!; [done|done|]. intros s' Hs'. unfold inv in Hx. rewrite Hs' in Hx.
  destruct Hx as (_ & Ha & Hl). unfold current. rewrite Ha.
  destruct (lookup_lt_is_Some_2 _ _ Hl) as [a Hla]. exists a. rewrite Hla.
  split; [done|]. by eapply list_elem_of_lookup_2.
Qed.

(** Once the socket is dropped nothing is sent, received or re-randomized
    any more, and at most one event follows: the task noticing and ending. *)
Theorem hop_loop_ends (b : bool) (es : list event) (x : sys)
    (Hs : steps {| socket := None; task := b |} es x) :
  es = [] ∧ x = {| socket := None; task := b |} ∨
  es = [TaskEnded] ∧ b = true ∧ x = {| socket := None; task := false |}.
Proof.
  inversion Hs as [|? e y es' z H1 H2]; subst; [by left|right].
  inversion H1; subst. inversion H2 as [|? e' y' es'' z' H3 H4]; subst; [done|].
  inversion H3.
Qed.

(** The hop delay: the lower bound when the interval is empty or a point,
    otherwise a delay within both bounds; the sum never overflows a
    [Duration]. Every whole number of nanoseconds in an interval narrower than
    2^64 ns can be drawn. *)
Theorem next_delay_bounds (h : ClientConfig.HopIntervalConfig) (d : Z)
    (Hlo : (0 ≤ ClientConfig.min h)%Z) (Hhi : (ClientConfig.max h ≤ DURATION_MAX)%Z) :
  (∃ t, next_delay (E := io_error) h d = Ok t ∧ (ClientConfig.min h ≤ t)%Z ∧
     (t ≤ Z.max (ClientConfig.min h) (ClientConfig.max h))%Z) ∧
  (∀ t, (ClientConfig.min h ≤ t ≤ ClientConfig.max h)%Z →
     (ClientConfig.max h - ClientConfig.min h < 2 ^ 64)%Z →
     ∃ d, next_delay (E := io_error) h d = Ok t).
Proof.
  destruct h as [lo hi]. unfold next_delay, saturating_sub, duration_add. cbn in *. split.
  - destruct (Z.leb_spec hi lo); [exists lo; split; [done|lia]|].
    rewrite Z.max_r by lia. set (span := (if (hi - lo <? 2 ^ 64)%Z then _ else _)).
    assert (0 <= span <= hi - lo)%Z by (unfold span; bool_cases; lia).
    pose proof (random_range_bound 0 (span + 1) d ltac:(lia)).
    exists (lo + random_range 0 (span + 1) d)%Z. bool_cases; [|lia]. split; [done|lia].
  - intros t Ht Hw. destruct (Z.leb_spec hi lo).
    { exists 0%Z. f_equal. lia. }
    exists (t - lo)%Z. rewrite Z.max_r by lia.
    replace (hi - lo <? 2 ^ 64)%Z with true by (symmetry; by apply Z.ltb_lt).
    replace (random_range 0 (hi - lo + 1) (t - lo)) with (t - lo)%Z.
    2:{ unfold random_range. rewrite Z.mod_small; lia. }
    bool_cases; [f_equal; lia|lia].
Qed.

(** ** Witnesses *)

Definition test_addrs : list SocketAddr :=
  [socket_addr (V4 0x7f000001) 7000; socket_addr (V4 0x7f000001) 7001].

Lemma hop_safe_witness :
  let s := {| canonical := socket_addr (V4 0x7f000001) 443;
              state := {| addrs := test_addrs; index := 1 |} |} in
  new (E := io_error) true (socket_addr (V4 0x7f000001) 443) test_addrs 5 = Ok s ∧
  Forall (event_ok (socket_addr (V4 0x7f000001) 443) test_addrs) [Hopped 0; Dropped; TaskEnded].
Proof.
  cbv zeta. split; [reflexivity|].
  eapply (hop_safe true (socket_addr (V4 0x7f000001) 443) test_addrs 5); [reflexivity|].
  eapply steps_cons; [eapply (step_hop _ 4 {| addrs := test_addrs; index := 0 |}); reflexivity|].
  eapply steps_cons; [apply step_drop|].
  eapply steps_cons; [apply (step_task_end 0); reflexivity|]. apply steps_nil.
Defined.

Lemma hop_loop_ends_witness :
  [TaskEnded] = [] ∧ {| socket := None; task := false |} = {| socket := None; task := true |} ∨
  [TaskEnded] = [TaskEnded] ∧ true = true ∧
    {| socket := None; task := false |} = {| socket := None; task := false |}.
Proof.
  apply hop_loop_ends. eapply steps_cons; [apply (step_task_end 0); reflexivity|]. apply steps_nil.
Defined.

Lemma next_delay_bounds_witness :
  (0 ≤ ClientConfig.min ClientConfig.default_hop_interval)%Z ∧
  ∃ t, next_delay (E := io_error) ClientConfig.default_hop_interval 3 = Ok t ∧
    (ClientConfig.min ClientConfig.default_hop_interval ≤ t)%Z ∧
    (t ≤ Z.max (ClientConfig.min ClientConfig.default_hop_interval)
           (ClientConfig.max ClientConfig.default_hop_interval))%Z.
Proof.
  split; [by vm_compute|].
  apply (next_delay_bounds ClientConfig.default_hop_interval 3); by vm_compute.
Defined.
End Hop.
