(* ===== verification/Http.v ===== *)
(** * Http: the headers of the HTTP/3 authentication handshake

    Models [internal/protocol/http.rs]: [AuthRequest]/[AuthResponse],
    [auth_request_to_header], [parse_bool] and [auth_response_from_header],
    over the [Header] trait. The trait is a class with the lookup laws of a
    header map; a finite map is an instance. *)
From S2P Require Import Prelude RustStr Proxy.

(** [trait Header]: the first value of a key, and setting one. A container may
    refuse a key or a value (an HTTP header name is a token, a value visible
    ASCII), and may tell keys apart by more or less than their case. *)
Class Header (H : Type) := {
  header_get : H → rstr → option rstr;
  header_set : H → rstr → rstr → H;
  valid_key : rstr → bool;
  accepts : rstr → bool;
  header_get_set h k v : valid_key k = true → accepts v = true → header_get (header_set h k v) k = Some v;
  header_get_set_ne h k k' v :
    RustStr.eq_ignore_ascii_case k k' = false → header_get (header_set h k v) k' = header_get h k';
  (** Every container takes letters and digits, and dashes in a key. *)
  valid_key_token k : k ≠ [] → Forall (λ b, RustStr.is_alnum b = true ∨ b = x2d) k → valid_key k = true;
  accepts_alnum v : Forall (λ b, RustStr.is_alnum b = true) v → accepts v = true;
}.

(** The [HashMap<String, String>] backing. *)
#[export] Program Instance header_gmap : Header (gmap (list byte) rstr) := {|
  header_get h k := h !! k;
  header_set h k v := <[k := v]> h;
  valid_key _ := true;
  accepts _ := true;
|}.
Next Obligation. intros. apply lookup_insert_eq. Qed.
Next Obligation.
  intros h k k' v Hk. apply lookup_insert_ne. intros <-.
  unfold RustStr.eq_ignore_ascii_case in Hk. by rewrite bool_decide_eq_true_2 in Hk.
Qed.
Next Obligation. done. Qed.
Next Obligation. done. Qed.

Module Http.
Import RustStr Padding.

Definition URL_HOST : rstr := lit "hysteria".
Definition URL_PATH : rstr := lit "/auth".
Definition REQUEST_HEADER_AUTH : rstr := lit "Hysteria-Auth".
Definition RESPONSE_HEADER_UDP_ENABLED : rstr := lit "Hysteria-UDP".
Definition COMMON_HEADER_CC_RX : rstr := lit "Hysteria-CC-RX".
Definition COMMON_HEADER_PADDING : rstr := lit "Hysteria-Padding".
Definition STATUS_AUTH_OK : Z := 233.

Record AuthRequest := { auth : rstr; req_rx : Z }.
Record AuthResponse := { udp_enabled : bool; resp_rx : Z; rx_auto : bool }.
#[export] Instance AuthResponse_eq_dec : EqDecision AuthResponse.
Proof. solve_decision. Defined.

(** [parse_bool]: the spellings of true Go's [strconv.ParseBool] knows. *)
Definition parse_bool (s : rstr) : bool :=
  bool_decide (s = lit "1") || bool_decide (s = lit "t") || bool_decide (s = lit "T")
  || bool_decide (s = lit "TRUE") || bool_decide (s = lit "true") || bool_decide (s = lit "True").

Section header.
Context `{Header H}.

Definition auth_request_to_header (h : H) (req : AuthRequest) (rng : nat → Z) : H :=
  let h := header_set h REQUEST_HEADER_AUTH (auth req) in
  let h := header_set h COMMON_HEADER_CC_RX (to_dec (req_rx req)) in
  header_set h COMMON_HEADER_PADDING (string AUTH_REQUEST_PADDING rng).

Definition auth_response_from_header (h : H) : AuthResponse :=
  let udp_enabled :=
    match header_get h RESPONSE_HEADER_UDP_ENABLED with
    | Some v => parse_bool v
    | None => false
    end in
  let rx_str := default [] (header_get h COMMON_HEADER_CC_RX) in
  if bool_decide (rx_str = lit "auto")
  then {| udp_enabled := udp_enabled; resp_rx := 0; rx_auto := true |}
  else {| udp_enabled := udp_enabled; resp_rx := default 0%Z (parse_uint 64 rx_str);
          rx_auto := false |}.

(** What the server's [AuthResponseToHeader] writes for a response. *)
Definition response_headers (r : AuthResponse) (h : H) : Prop :=
  header_get h RESPONSE_HEADER_UDP_ENABLED
    = Some (if udp_enabled r then lit "true" else lit "false") ∧
  header_get h COMMON_HEADER_CC_RX
    = Some (if rx_auto r then lit "auto" else to_dec (resp_rx r)).

Lemma alnum_accepted (v : rstr) : Forall (.∈ PADDING_CHARS) v → accepts v = true.
Proof.
  intros Hv. apply accepts_alnum. eapply Forall_impl; [exact Hv|].
  assert (Hall : Forall (λ b, is_alnum b = true) PADDING_CHARS) by (apply (bool_decide_unpack _); vm_compute; exact I).
  intros b Hb. rewrite Forall_forall in Hall. by apply Hall.
Qed.

Lemma decimal_accepted z : accepts (to_dec z) = true.
Proof.
  apply accepts_alnum. eapply Forall_impl; [by apply dec_digits_ascii|].
  intros b Hb. unfold is_alnum. by rewrite Hb.
Qed.

(** The handshake's header names are tokens. *)
Lemma handshake_key k :
  k ∈ [REQUEST_HEADER_AUTH; COMMON_HEADER_CC_RX; COMMON_HEADER_PADDING; RESPONSE_HEADER_UDP_ENABLED] →
  valid_key k = true.
Proof.
  intros Hk. repeat (apply elem_of_cons in Hk as [->|Hk]; [apply valid_key_token; [done|]; apply (bool_decide_unpack _); vm_compute; exact I|]).
  by apply elem_of_nil in Hk.
Qed.

(** The request's headers: the credential as given (when the container
    takes it), the receive bandwidth in decimal, recoverable by parsing, and
    256 to 2047 characters of padding; other headers are left alone. *)
Theorem auth_request_headers (h : H) (req : AuthRequest) (rng : nat → Z)
    (Ha : accepts (auth req) = true) (Hrx : is_u 64 (req_rx req)) :
  let h' := auth_request_to_header h req rng in
  header_get h' REQUEST_HEADER_AUTH = Some (auth req) ∧
  (header_get h' COMMON_HEADER_CC_RX ≫= parse_uint 64) = Some (req_rx req) ∧
  (∃ pad, header_get h' COMMON_HEADER_PADDING = Some pad ∧ 256 ≤ length pad < 2048 ∧
     Forall (.∈ PADDING_CHARS) pad) ∧
  (∀ k, Forall (λ k', eq_ignore_ascii_case k' k = false)
       [REQUEST_HEADER_AUTH; COMMON_HEADER_CC_RX; COMMON_HEADER_PADDING] →
     header_get h' k = header_get h k).
Proof.
  cbv zeta. unfold auth_request_to_header.
  destruct (string_spec AUTH_REQUEST_PADDING rng) as (Hp & Hlo & Hhi & _).
  split_and!.
  - rewrite !header_get_set_ne by done. apply header_get_set; [|done]. apply handshake_key. rewrite !elem_of_cons. auto.
  - rewrite header_get_set_ne by done. rewrite header_get_set; [|apply handshake_key; rewrite !elem_of_cons; auto|apply decimal_accepted].
    cbn [mbind option_bind]. by apply parse_to_dec; [|apply Hrx].
  - eexists. split; [apply header_get_set; [apply handshake_key; rewrite !elem_of_cons; auto|apply alnum_accepted, Hp]|].
    split; [|done]. split; [done|]. apply Hhi. apply Nat.ltb_lt. reflexivity.
  - intros k Hk. apply Forall_cons in Hk as [Hk1 [Hk2 [Hk3 _]%Forall_cons]%Forall_cons].
    by rewrite !header_get_set_ne.
Qed.

(** A response the server wrote is read back: the UDP flag, and either the
    bandwidth or the request for bandwidth detection (with a zero rate). *)
Theorem auth_response_read (h : H) (r : AuthResponse)
    (Hr : response_headers r h) (Hu : is_u 64 (resp_rx r)) (Ha : rx_auto r = true → resp_rx r = 0%Z) :
  auth_response_from_header h = r.
Proof.
  destruct Hr as [H1 H2]. unfold auth_response_from_header. rewrite H1, H2. cbn [from_option id].
  destruct r as [u rx a]; cbn [udp_enabled resp_rx rx_auto] in *. destruct a.
  - rewrite bool_decide_eq_true_2 by done. rewrite Ha by done. by destruct u.
  - assert (Hp : parse_uint 64 (to_dec rx) = Some rx) by (by apply parse_to_dec; [|apply Hu]).
    case_bool_decide as He; [rewrite He in Hp; discriminate Hp|]. rewrite Hp. by destruct u.
Qed.
End header.

(** ** Witnesses, over the map backing *)

Lemma auth_request_headers_witness :
  let req := {| auth := lit "secret-token"; req_rx := 100000 |} in
  let h' := auth_request_to_header (∅ : gmap (list byte) rstr) req Z.of_nat in
  is_u 64 100000 ∧ header_get h' REQUEST_HEADER_AUTH = Some (lit "secret-token") ∧
  (header_get h' COMMON_HEADER_CC_RX ≫= parse_uint 64) = Some 100000%Z.
Proof.
  cbv zeta. split; [by split|].
  edestruct (auth_request_headers (∅ : gmap (list byte) rstr)
    {| auth := lit "secret-token"; req_rx := 100000 |} Z.of_nat) as (H1 & H2 & _);
    [reflexivity|by split|]. split; [exact H1|exact H2].
Defined.

Lemma auth_response_read_witness :
  let r := {| udp_enabled := true; resp_rx := 42; rx_auto := false |} in
  let h : gmap (list byte) rstr :=
    <[RESPONSE_HEADER_UDP_ENABLED := lit "true"]> (<[COMMON_HEADER_CC_RX := lit "42"]> ∅) in
  auth_response_from_header h = r.
Proof.
  cbv zeta. apply auth_response_read; [split; reflexivity|by split|done].
Defined.
End Http.
