(* ===== verification/UdpSession.v ===== *)
(** * UdpSession: the UDP session manager and its sessions

    Models [client/udp.rs]: [UdpConn] ([receive], [send], [close], drop), the
    session table behind its mutex, [UdpSessionManager] ([new], [new_udp],
    [count], drop) and the background [run] task with [feed].

    A [manager] is the whole shared state: the table, every consumer-held
    [UdpConn] under a handle (its channel's queue and its defragger), and the
    task. Each lock-protected section is one step; a run of the program is any
    interleaving of steps ([step]). A channel's sender lives in the table only,
    so a receiver is closed exactly when the table no longer maps its session
    to it. *)
From S2P Require Import Prelude IoRead RustStr Varint Proxy Frag Net Errors.

Module UdpSession.
Import RustStr Varint Proxy Frag Net.

Definition UDP_MESSAGE_CHAN_SIZE : nat := 1024.

Inductive SendError := TooLarge (max_payload_size : nat) | SendIo (e : io_error).

(** What the [io::Error]s of this file display: the end of a session by its
    kind, the others by what they wrap. *)
Definition io_error_display (e : io_error) : rstr :=
  match e with
  | UnexpectedEof => lit "unexpected end of file"
  | InvalidData message => Errors.protocol_error_display {| Errors.protocol_message := message |}
  | OtherIo message => message
  end.
Definition send_error_display (e : SendError) : rstr :=
  match e with
  | TooLarge max_payload_size =>
    lit "datagram too large (max payload " ++ to_dec (Z.of_nat max_payload_size) ++ lit ")"
  | SendIo e => io_error_display e
  end.
Definition send_error_source (e : SendError) : option io_error :=
  match e with SendIo e => Some e | TooLarge _ => None end.
Definition send_error_from (e : io_error) : SendError := SendIo e.

(** The consumer side of a session: [receiver]'s queue and the defragger. *)
Record UdpConn := { id : Z; queue : list UdpMessage; defragger : Defragger }.

Record Sessions := { smap : gmap Z nat; next_id : Z; closed : bool }.

Inductive task_state := Running | Finished | Aborted.
#[export] Instance task_state_eq_dec : EqDecision task_state.
Proof. solve_decision. Defined.

(** [held]: the [UdpSessionManager] itself has not been dropped. *)
Record manager := {
  sessions : Sessions;
  conns : gmap nat UdpConn;
  next_handle : nat;
  run_task : task_state;
  held : bool;
}.

Definition set_sessions (f : Sessions → Sessions) (w : manager) : manager :=
  {| sessions := f (sessions w); conns := conns w; next_handle := next_handle w;
     run_task := run_task w; held := held w |}.
Definition set_conns (f : gmap nat UdpConn → gmap nat UdpConn) (w : manager) : manager :=
  {| sessions := sessions w; conns := f (conns w); next_handle := next_handle w;
     run_task := run_task w; held := held w |}.
Definition set_map (f : gmap Z nat → gmap Z nat) (s : Sessions) : Sessions :=
  {| smap := f (smap s); next_id := next_id s; closed := closed s |}.

(** [UdpSessionManager::new]. *)
Definition new : manager :=
  {| sessions := {| smap := ∅; next_id := 1; closed := false |};
     conns := ∅; next_handle := 0; run_task := Running; held := true |}.

Definition new_udp : stm manager Errors.ClosedError nat := fun w =>
  if closed (sessions w) then (Err {| Errors.closed_err := None |}, w) else
  let id := next_id (sessions w) in
  let h := next_handle w in
  let conn := {| id := id; queue := []; defragger := defragger_default |} in
  (Ok h, {| sessions := {| smap := <[id := h]> (smap (sessions w));
                           next_id := wrap 32 (id + 1); closed := closed (sessions w) |};
            conns := <[h := conn]> (conns w); next_handle := S h;
            run_task := run_task w; held := held w |}).

Definition count (w : manager) : nat := base.size (smap (sessions w)).

(** [Sender::try_send]: refused when the queue is full (or its receiver gone). *)
Definition try_send (h : nat) (m : UdpMessage) (cs : gmap nat UdpConn) :
    option (gmap nat UdpConn) :=
  c ← cs !! h;
  if decide (length (queue c) < UDP_MESSAGE_CHAN_SIZE)
  then Some (<[h := {| id := id c; queue := queue c ++ [m]; defragger := defragger c |}]> cs)
  else None.

(** [feed], with the handle the message was accepted for. *)
Definition feed (m : UdpMessage) (w : manager) : option nat * manager :=
  match smap (sessions w) !! session_id m with
  | Some h =>
    match try_send h m (conns w) with
    | Some cs => (Some h, set_conns (λ _, cs) w)
    | None => (None, w)
    end
  | None => (None, w)
  end.

(** The end of [run]. *)
Definition cleanup (w : manager) : manager :=
  {| sessions := {| smap := ∅; next_id := next_id (sessions w); closed := true |};
     conns := conns w; next_handle := next_handle w; run_task := Finished; held := held w |}.

(** [UdpConn::close] and its [Drop]. *)
Definition close (h : nat) (w : manager) : manager :=
  match conns w !! h with
  | Some c => set_sessions (set_map (delete (id c))) w
  | None => w
  end.
Definition drop_conn (h : nat) (w : manager) : manager := set_conns (delete h) (close h w).

(** [UdpSessionManager]'s [Drop]: [abort] stops a task that has not ended. *)
Definition drop_manager (w : manager) : manager :=
  {| sessions := sessions w; conns := conns w; next_handle := next_handle w;
     run_task := if decide (run_task w = Running) then Aborted else run_task w; held := false |}.

(** The loop of [receive] over what the channel holds. *)
Fixpoint recv_loop {E} (oc : bool) (q : list UdpMessage) (d : Defragger) :
    outcome E (list UdpMessage * Defragger * option (list byte * rstr)) :=
  match q with
  | [] => Ok ([], d, None)
  | m :: q =>
    '(d, assembled) ← Frag.feed oc d m;
    match assembled with
    | Some a => Ok (q, d, Some (data a, addr a))
    | None => recv_loop oc q d
    end
  end.

Definition sender_alive (w : manager) (h : nat) (c : UdpConn) : bool :=
  bool_decide (smap (sessions w) !! id c = Some h).

(** One poll of [receive]: it drains the channel; on an empty channel it waits
    while the sender lives and reports [UnexpectedEof] once it is gone. *)
Definition receive (oc : bool) (h : nat) (c : UdpConn) (w : manager) :
    outcome io_error (Poll (outcome io_error (list byte * rstr)) * manager) :=
  '(q, d, got) ← recv_loop oc (queue c) (defragger c);
  let w' := set_conns (insert h {| id := id c; queue := q; defragger := d |}) w in
  match got with
  | Some r => Ok (Ready (Ok r), w')
  | None => if sender_alive w h c then Ok (Pending, w')
            else Ok (Ready (Err UnexpectedEof), w')
  end.

(** ** Steps *)

Inductive event :=
| ENew (h : nat)
| EMsg (m : UdpMessage) (accepted : option nat)
| EIoError
| ERecv (h : nat) (r : Poll (outcome io_error (list byte * rstr)))
| EClose (h : nat)
| EDropConn (h : nat)
| EDropManager.

Inductive step (oc : bool) : manager → event → manager → Prop :=
| step_new w w' h :
    held w = true → new_udp w = (Ok h, w') → step oc w (ENew h) w'
| step_msg w w' m a :
    run_task w = Running → feed m w = (a, w') → step oc w (EMsg m a) w'
| step_io_error w :
    run_task w = Running → step oc w EIoError (cleanup w)
| step_recv w w' h c r :
    conns w !! h = Some c → receive oc h c w = Ok (r, w') → step oc w (ERecv h r) w'
| step_close w h :
    h ∈ dom (conns w) → step oc w (EClose h) (close h w)
| step_drop_conn w h :
    h ∈ dom (conns w) → step oc w (EDropConn h) (drop_conn h w)
| step_drop_manager w :
    held w = true → step oc w EDropManager (drop_manager w).

(** Runs, latest event last. *)
Inductive runs (oc : bool) : manager → list event → manager → Prop :=
| runs_nil w : runs oc w [] w
| runs_snoc w es w' e w'' : runs oc w es w' → step oc w' e w'' → runs oc w (es ++ [e]) w''.

(** ** Sending *)

Section send.
Context {St : Type} (send_message : UdpMessage → stm St SendError ()).

Definition random_packet_id (d : Z) : Z := random_range 1 65536 d.

(** [for frag in ... { self.io.send_message(buf, &frag)?; }]. *)
Fixpoint send_all (frags : list UdpMessage) : stm St SendError () :=
  match frags with
  | [] => mret ()
  | f :: frags => _ ← send_message f; send_all frags
  end.

Definition send (oc : bool) (id : Z) (d : Z) (data : list byte) (addr : rstr) :
    stm St SendError () := fun s =>
  let msg := {| session_id := id; packet_id := 0; frag_id := 0; frag_count := 1;
                addr := addr; data := data |} in
  match send_message msg s with
  | (Err (TooLarge max_payload_size), s) =>
    let msg := {| session_id := session_id msg; packet_id := random_packet_id d;
                  frag_id := frag_id msg; frag_count := frag_count msg;
                  addr := Proxy.addr msg; data := Proxy.data msg |} in
    (frags ← lift (frag_udp_message oc msg max_payload_size); send_all frags) s
  | other => other
  end.
End send.

(** What the session layer is promised by the transport below it: messages the
    wire format can carry are appended to the peer's log when they fit the path
    and are refused, with the path's limit, when they do not; one that exceeds
    the scratch buffer is dropped silently. *)
Definition sendable (m : UdpMessage) : Prop :=
  wf_msg m ∧ 0 < length (addr m) ≤ 2048 ∧ data m ≠ [].

Class UdpIo {St} (send_message : UdpMessage → stm St SendError ()) (path_max : nat)
    (log : St → list UdpMessage) (ok : St → Prop) : Prop := {
  io_fits m s : ok s → sendable m → size m ≤ MAX_UDP_SIZE → size m ≤ path_max →
    ∃ s', send_message m s = (Ok (), s') ∧ log s' = log s ++ [m] ∧ ok s';
  io_too_large m s : ok s → sendable m → size m ≤ MAX_UDP_SIZE → path_max < size m →
    ∃ s', send_message m s = (Err (TooLarge path_max), s') ∧ log s' = log s ∧ ok s';
  io_oversize m s : ok s → MAX_UDP_SIZE < size m →
    ∃ s', send_message m s = (Ok (), s') ∧ log s' = log s ∧ ok s';
}.

(** ** Histories and the invariant *)

(** The messages accepted for a handle, and what its consumer received. *)
Definition accepted_for (h : nat) (e : event) : option UdpMessage :=
  match e with EMsg m (Some h') => if decide (h' = h) then Some m else None | _ => None end.
Definition received_by (h : nat) (e : event) : option (list byte * rstr) :=
  match e with
  | ERecv h' (Ready (Ok r)) => if decide (h' = h) then Some r else None
  | _ => None
  end.
Definition hist (h : nat) (es : list event) : list UdpMessage := omap (accepted_for h) es.
Definition got (h : nat) (es : list event) : list (list byte * rstr) := omap (received_by h) es.

(** What defragmenting a sequence of messages gives its reader. *)
Definition payloads (os : list (option UdpMessage)) : list (list byte * rstr) :=
  (λ m, (data m, addr m)) <$> omap Datatypes.id os.

(** The channel and defragger of a conn after the events [es]. *)
Record conn_ok (oc : bool) (es : list event) (h : nat) (c : UdpConn) : Prop := {
  co_bound : length (queue c) ≤ UDP_MESSAGE_CHAN_SIZE;
  co_id : Forall (λ m, session_id m = id c) (hist h es);
  co_order : ∃ consumed os, hist h es = consumed ++ queue c ∧
    feed_all (E := io_error) oc defragger_default consumed = Ok (defragger c, os) ∧
    got h es = payloads os;
}.

Record inv (oc : bool) (es : list event) (w : manager) : Prop := {
  i_map : ∀ k h, smap (sessions w) !! k = Some h → ∃ c, conns w !! h = Some c ∧ id c = k;
  i_conn : ∀ h c, conns w !! h = Some c → h < next_handle w ∧ conn_ok oc es h c;
  i_fresh : ∀ h, next_handle w ≤ h → hist h es = [] ∧ got h es = [];
  i_task : run_task w = Finished ↔ closed (sessions w) = true;
  i_closed : closed (sessions w) = true → smap (sessions w) = ∅;
}.

Lemma hist_snoc h es e : hist h (es ++ [e]) = hist h es ++ option_list (accepted_for h e).
Proof. unfold hist. rewrite omap_app. cbn. by destruct (accepted_for h e). Qed.
Lemma got_snoc h es e : got h (es ++ [e]) = got h es ++ option_list (received_by h e).
Proof. unfold got. rewrite omap_app. cbn. by destruct (received_by h e). Qed.

(** An event that neither feeds nor serves [h] leaves its history alone. *)
Lemma conn_ok_other oc es e h c :
  accepted_for h e = None → received_by h e = None →
  conn_ok oc es h c → conn_ok oc (es ++ [e]) h c.
Proof.
  intros Ha Hr [Hb Hi (cs & os & H1 & H2 & H3)].
  split; [done|by rewrite hist_snoc, Ha, app_nil_r|].
  exists cs, os. by rewrite hist_snoc, got_snoc, Ha, Hr, !app_nil_r.
Qed.

Lemma fresh_other es e h :
  accepted_for h e = None → received_by h e = None →
  hist h es = [] ∧ got h es = [] → hist h (es ++ [e]) = [] ∧ got h (es ++ [e]) = [].
Proof. intros Ha Hr [H1 H2]. by rewrite hist_snoc, got_snoc, H1, H2, Ha, Hr. Qed.

Lemma payloads_app os1 os2 : payloads (os1 ++ os2) = payloads os1 ++ payloads os2.
Proof. unfold payloads. by rewrite omap_app, fmap_app. Qed.

Lemma recv_loop_feed {E} oc q d q' d' r :
  @recv_loop E oc q d = Ok (q', d', r) →
  ∃ ms os, q = ms ++ q' ∧ feed_all (E := E) oc d ms = Ok (d', os) ∧
    payloads os = option_list r ∧ (r = None → q' = []).
Proof.
  revert d. induction q as [|m q IH]; intros d H; cbn [recv_loop] in H.
  - injection H as <- <- <-. by exists [], [].
  - apply bind_ok_inv in H as ([d1 o] & Hf & H). destruct o as [a|].
    + injection H as <- <- <-. exists [m], [Some a]. cbn. by rewrite Hf.
    + destruct (IH _ H) as (ms & os & -> & Hfa & Hp & Hn). exists (m :: ms), (None :: os).
      split_and!; [done| |done|done]. cbn. rewrite Hf. cbn. by rewrite Hfa.
Qed.

Lemma feed_all_snoc {E} oc d ms m d1 os d2 o :
  @feed_all E oc d ms = Ok (d1, os) → @Frag.feed E oc d1 m = Ok (d2, o) →
  @feed_all E oc d (ms ++ [m]) = Ok (d2, os ++ [o]).
Proof. intros H1 H2. rewrite feed_all_app, H1. cbn. by rewrite H2. Qed.

(** [receive] on a well-formed conn. *)
Lemma receive_conn oc es w w' h c r :
  conn_ok oc es h c → receive oc h c w = Ok (r, w') →
  ∃ c', w' = set_conns (insert h c') w ∧ id c' = id c ∧
    conn_ok oc (es ++ [ERecv h r]) h c'.
Proof.
  intros [Hb Hi (cs & os & H1 & H2 & H3)] Hr. unfold receive in Hr.
  apply bind_ok_inv in Hr as ([[q d] g] & Hl & Hr).
  destruct (recv_loop_feed _ _ _ _ _ _ Hl) as (ms & os' & Hq & Hfa & Hp & Hn).
  set (c' := {| id := id c; queue := q; defragger := d |}) in *.
  assert (w' = set_conns (insert h c') w ∧
    option_list g = option_list (received_by h (ERecv h r))) as [-> Hg].
  { unfold received_by. destruct g as [x|]; [injection Hr as <- <-; by rewrite decide_True|].
    by destruct (sender_alive w h c); injection Hr as <- <-. }
  exists c'. split_and!; [done..|]. split.
  - cbn. rewrite Hq, length_app in Hb. lia.
  - rewrite hist_snoc. cbn. by rewrite app_nil_r.
  - exists (cs ++ ms), (os ++ os'). rewrite hist_snoc, got_snoc. cbn [accepted_for option_list].
    rewrite app_nil_r, H1, Hq, <-app_assoc. split_and!; [done| |].
    + rewrite feed_all_app, H2. cbn [mbind outcome_bind]. by rewrite Hfa.
    + by rewrite payloads_app, H3, Hp, Hg.
Qed.

Lemma inv_new oc : inv oc [] new.
Proof. by split. Qed.

(** Events that touch neither a queue nor a defragger. *)
Definition passive (e : event) : Prop :=
  ∀ h, accepted_for h e = None ∧ received_by h e = None.

Lemma inv_passive oc es e w w' :
  inv oc es w → passive e →
  (∀ h c, conns w' !! h = Some c → conns w !! h = Some c) →
  next_handle w' = next_handle w →
  (∀ k h, smap (sessions w') !! k = Some h →
     smap (sessions w) !! k = Some h ∧ ∃ c, conns w' !! h = Some c ∧ id c = k) →
  (run_task w' = Finished ↔ closed (sessions w') = true) →
  (closed (sessions w') = true → smap (sessions w') = ∅) →
  inv oc (es ++ [e]) w'.
Proof.
  intros [Hm Hc Hf Ht Hcl] He Hcs Hn Hms Ht' Hcl'. split; try done.
  - intros k h Hk. by destruct (Hms k h Hk).
  - intros h c Hh. destruct (Hc h c (Hcs _ _ Hh)) as [Hlt Hok]. rewrite Hn.
    split; [done|]. destruct (He h). by apply conn_ok_other.
  - intros h Hh. rewrite Hn in Hh. destruct (He h). apply fresh_other; auto.
Qed.

Lemma feed_Some m w h w' :
  feed m w = (Some h, w') →
  smap (sessions w) !! session_id m = Some h ∧
  ∃ c, conns w !! h = Some c ∧ length (queue c) < UDP_MESSAGE_CHAN_SIZE ∧
    w' = set_conns (insert h {| id := id c; queue := queue c ++ [m]; defragger := defragger c |}) w.
Proof.
  unfold feed, try_send. destruct (smap _ !! _) as [h'|]; [|done].
  destruct (conns w !! h') as [c|] eqn:Hc; cbn [mbind option_bind]; [|done].
  case_decide; [|done]. intros [= -> <-]. split; [done|]. by exists c.
Qed.

Lemma feed_None m w w' : feed m w = (None, w') → w' = w.
Proof.
  unfold feed. destruct (smap _ !! _); [|congruence].
  destruct (try_send _ _ _); congruence.
Qed.

(** Updating one conn, by a message or by a poll of its consumer. *)
Lemma inv_update oc es e w h c c' :
  inv oc es w → conns w !! h = Some c → id c' = id c → conn_ok oc (es ++ [e]) h c' →
  (∀ h', h' ≠ h → accepted_for h' e = None ∧ received_by h' e = None) →
  inv oc (es ++ [e]) (set_conns (insert h c') w).
Proof.
  intros [Hm Hc Hf Ht Hcl] Hh Hid Hok He. split; cbn; try done.
  - intros k x Hk. destruct (decide (x = h)) as [->|Hx].
    + exists c'. rewrite lookup_insert_eq. destruct (Hm k h Hk) as (c0 & H0 & <-).
      rewrite Hid. split; [done|]. congruence.
    + rewrite lookup_insert_ne by done. by apply Hm.
  - intros x cx Hx. apply lookup_insert_Some in Hx as [[<- <-]|[Hne Hx]].
    + split; [|done]. by destruct (Hc h c Hh).
    + destruct (Hc x cx Hx) as [Hlt Hokx]. split; [done|].
      destruct (He x); [done|]. by apply conn_ok_other.
  - intros x Hx. destruct (Hc h c Hh) as [Hlt _].
    destruct (He x); [intros ->; lia|]. apply fresh_other; auto.
Qed.

Lemma accepted_ne h h' m : h' ≠ h → accepted_for h' (EMsg m (Some h)) = None.
Proof. intros H. cbn. by rewrite decide_False. Qed.

Lemma inv_msg oc es w m a w' :
  inv oc es w → feed m w = (a, w') → inv oc (es ++ [EMsg m a]) w'.
Proof.
  intros Hw Hfd. pose proof Hw as [Hm Hc _ _ _]. destruct a as [h|].
  - apply feed_Some in Hfd as (Hs & c & Hh & Hl & ->).
    destruct (Hm _ _ Hs) as (c0 & Hc0 & Hid). assert (c0 = c) as -> by congruence.
    destruct (Hc h c Hh) as [_ [Hb Hids (cs & os & H1 & H2 & H3)]].
    eapply inv_update; [done..| |].
    + split; cbn.
      * rewrite length_app. cbn. lia.
      * rewrite hist_snoc. cbn. rewrite decide_True by done. apply Forall_app. by repeat constructor.
      * exists cs, os. rewrite hist_snoc, got_snoc. cbn. rewrite decide_True by done.
        by rewrite H1, <-app_assoc, app_nil_r.
    + intros h' Hne. by rewrite accepted_ne.
  - apply feed_None in Hfd as ->. destruct Hw. by eapply inv_passive; [split| | | | | |]; eauto.
Qed.

Lemma inv_new_udp oc es w h w' :
  inv oc es w → new_udp w = (Ok h, w') → inv oc (es ++ [ENew h]) w'.
Proof.
  intros [Hm Hc Hf Ht Hcl]. unfold new_udp. destruct (closed _) eqn:Hcd; [done|].
  intros [= <- <-]. split; cbn; try done.
  - intros k h Hk. apply lookup_insert_Some in Hk as [[<- <-]|[Hne Hk]].
    + rewrite lookup_insert_eq. by eexists.
    + destruct (Hm k h Hk) as (c & Hh & Hid). destruct (Hc h c Hh).
      rewrite lookup_insert_ne by lia. eauto.
  - intros h c Hh. apply lookup_insert_Some in Hh as [[<- <-]|[Hne Hh]].
    + split; [lia|]. destruct (Hf (next_handle w) ltac:(lia)) as [H1 H2].
      apply conn_ok_other; [done..|]. split; cbn; [lia|by rewrite H1|].
      exists [], []. by rewrite H1, H2.
    + destruct (Hc h c Hh). split; [lia|]. by apply conn_ok_other.
  - intros h Hh. apply fresh_other; [done..|]. apply Hf. lia.
Qed.

Lemma inv_step oc es w e w' : inv oc es w → step oc w e w' → inv oc (es ++ [e]) w'.
Proof.
  intros Hw Hs. pose proof Hw as [Hm Hc Hf Ht Hcl]. destruct Hs as
    [w w' h Hh Hn|w w' m a Hr Hfd|w Hr|w w' h c r Hh Hr|w h Hh|w h Hh|w Hh].
  - by eapply inv_new_udp.
  - by eapply inv_msg.
  - apply inv_passive with w; [done..| | |done|done]; [done|]. cbn. intros k h H.
    by rewrite lookup_empty in H.
  - destruct (Hc h c Hh) as [_ Hok].
    destruct (receive_conn _ _ _ _ _ _ _ Hok Hr) as (c' & -> & Hid & Hok').
    eapply inv_update; [done..|]. intros h' Hne. split; [done|]. cbn.
    destruct r as [|[| |]]; try done. by rewrite decide_False.
  - apply elem_of_dom in Hh as [c Hh]. unfold close. rewrite Hh.
    apply inv_passive with w; [done..| | |]; cbn; [|done|].
    + intros k x Hk. apply lookup_delete_Some in Hk as [_ Hk]. eauto.
    + intros Hcd. by rewrite Hcl, delete_empty.
  - apply elem_of_dom in Hh as [c Hh]. unfold drop_conn, close. rewrite Hh.
    apply inv_passive with w; [done..| | | | |]; cbn; [|done| |done|].
    + intros x cx Hx. by apply lookup_delete_Some in Hx as [_ Hx].
    + intros k x Hk. apply lookup_delete_Some in Hk as [Hne Hk]. split; [done|].
      destruct (Hm k x Hk) as (cx & Hx & Hid). exists cx. split; [|done].
      apply lookup_delete_Some. split; [|done]. intros <-. congruence.
    + intros Hcd. by rewrite Hcl, delete_empty.
  - apply inv_passive with w; [done..| | | |]; cbn; [done|eauto| |done].
    case_decide as Hrun; [|done]. rewrite Hrun in Ht. split; [done|]. by intros H%Ht.
Qed.

Lemma runs_inv oc es w : runs oc new es w → inv oc es w.
Proof.
  remember new as w0 eqn:H0. induction 1 as [w|w es w' e w'' Hr IH Hs]; subst.
  - apply inv_new.
  - eapply inv_step; [by apply IH|done].
Qed.

(** Once closed, always closed. *)
Lemma closed_step oc es w e w' :
  inv oc es w → step oc w e w' → closed (sessions w) = true → closed (sessions w') = true.
Proof.
  intros [_ _ _ Ht _] Hs Hcl.
  destruct Hs as [w w' h Hh Hn|w w' m a Hr Hfd|w Hr|w w' h c r Hh Hr|w h Hh|w h Hh|w Hh].
  - unfold new_udp in Hn. by rewrite Hcl in Hn.
  - apply Ht in Hcl. congruence.
  - done.
  - unfold receive in Hr. apply bind_ok_inv in Hr as ([[q d] g] & _ & Hr).
    destruct g; [by injection Hr as <- <-|]. by destruct (sender_alive w h c); injection Hr as <- <-.
  - unfold close. by destruct (conns w !! h).
  - unfold drop_conn, close. by destruct (conns w !! h).
  - done.
Qed.

Lemma closed_after_error oc es w :
  runs oc new es w → EIoError ∈ es → closed (sessions w) = true.
Proof.
  intros Hr. remember new as w0 eqn:H0. induction Hr as [w|w es w' e w'' Hr IH Hs]; subst.
  - by intros ?%not_elem_of_nil.
  - intros [Hin|Hin%list_elem_of_singleton]%elem_of_app.
    + eapply closed_step; [by apply runs_inv|done|by apply IH].
    + subst e. by inversion Hs.
Qed.

(** ** Types

    A message as the wire format carries it: fields of their widths, a valid
    UTF-8 address of 1 to 2048 bytes, a payload. *)

Record typed_defragger (d : Defragger) : Prop := {
  td_wf : wf_defragger d;
  td_frags m : Some m ∈ frags d → sendable m;
}.

Lemma assemble_nonempty slots k m :
  slots !! k = Some (Some m) → data m ≠ [] → assemble slots ≠ [].
Proof.
  unfold assemble. revert k. induction slots as [|o slots IH]; intros [|k]; cbn; [done..| |].
  - intros [= ->] Hd He. cbn in He. by apply app_eq_nil in He as [He _].
  - intros Hk Hd. specialize (IH k Hk Hd). destruct o; cbn; [|done]. by intros [_ He]%app_eq_nil.
Qed.

Lemma typed_insert k o (slots : list (option UdpMessage)) :
  (∀ m, o = Some m → sendable m) → (∀ m, Some m ∈ slots → sendable m) →
  ∀ m, Some m ∈ <[k:=o]> slots → sendable m.
Proof.
  intros Ho Hs m [i Hi]%list_elem_of_lookup. apply list_lookup_insert_Some in Hi as [(_ & Hm & _)|[_ Hi]]; [auto|].
  apply Hs, list_elem_of_lookup. by exists i.
Qed.

Lemma feed_typed oc d m d' o :
  typed_defragger d → sendable m → @Frag.feed io_error oc d m = Ok (d', o) →
  typed_defragger d' ∧ ∀ a, o = Some a → sendable a.
Proof.
  intros [Hwf Hfr] Hm Hf. pose proof (feed_safe oc d m Hwf (proj1 Hm)) as Hsafe. rewrite Hf in Hsafe.
  enough (Ht : (∀ x, Some x ∈ frags d' → sendable x) ∧ ∀ a, o = Some a → sendable a) by (split; [split|]; apply Ht || done).
  clear Hsafe. unfold Frag.feed in Hf.
  destruct (frag_count m <=? 1)%Z; [injection Hf as <- <-; split; [done|by intros a [= <-]]|].
  destruct (frag_count m <=? frag_id m)%Z; [by injection Hf as <- <-|].
  destruct (_ || _).
  { apply bind_ok_inv in Hf as (slots & Hs & [= <- <-]). unfold set_at in Hs. case_decide; [|done].
    injection Hs as <-. split; [|done]. cbn. apply typed_insert; [by intros x [= <-]|].
    intros x [k Hk]%list_elem_of_lookup. by apply lookup_replicate in Hk as [Hk _]. }
  apply bind_ok_inv in Hf as (slot & _ & Hf). destruct slot; [by injection Hf as <- <-|].
  apply bind_ok_inv in Hf as (n & _ & Hf). apply bind_ok_inv in Hf as (slots & Hs & Hf).
  unfold set_at in Hs. case_decide as Hlt; [|done]. injection Hs as <-.
  assert (Hslots : ∀ x, Some x ∈ <[Z.to_nat (frag_id m) := Some m]> (frags d) → sendable x)
    by (apply typed_insert; [by intros x [= <-]|done]).
  case_bool_decide; [|by injection Hf as <- <-]. cbn in Hf.
  pose proof (list_lookup_insert_eq (frags d) (Z.to_nat (frag_id m)) (Some m) Hlt) as Hk. rewrite Hk in Hf.
  injection Hf as <- <-. split; [by apply typed_insert|].
  intros a [= <-]. destruct Hm as ((Hs & Hp & _ & _ & Hu) & Ha & Hd). split; [by split_and!|]. split; [done|].
  cbn. by eapply assemble_nonempty.
Qed.

Lemma recv_loop_typed oc q d q' d' r :
  Forall sendable q → typed_defragger d → @recv_loop io_error oc q d = Ok (q', d', r) →
  Forall sendable q' ∧ typed_defragger d' ∧
  ∀ payload from, r = Some (payload, from) →
    utf8_valid from = true ∧ 0 < length from ≤ 2048 ∧ payload ≠ [].
Proof.
  intros Hq. revert d. induction Hq as [|m q Hm Hq IH]; intros d Hd Hr; cbn [recv_loop] in Hr.
  - by injection Hr as <- <- <-.
  - apply bind_ok_inv in Hr as ([d1 o] & Hf & Hr). destruct (feed_typed _ _ _ _ _ Hd Hm Hf) as [Hd1 Ho].
    destruct o as [a|]; [|by apply (IH d1)]. injection Hr as <- <- <-. split_and!; [done..|].
    intros payload from [= <- <-]. by destruct (Ho a eq_refl) as ((_ & _ & _ & _ & Hu) & Ha & Hda).
Qed.

Record typed (w : manager) : Prop := {
  ty_next : is_u 32 (next_id (sessions w));
  ty_ids k h : smap (sessions w) !! k = Some h → is_u 32 k;
  ty_conns h c : conns w !! h = Some c →
    is_u 32 (id c) ∧ Forall sendable (queue c) ∧ typed_defragger (defragger c);
}.

Definition typed_event (e : event) : Prop :=
  match e with
  | ERecv _ (Ready (Ok (payload, from))) => utf8_valid from = true ∧ 0 < length from ≤ 2048 ∧ payload ≠ []
  | _ => True
  end.

(** The table loses entries, the consumers stay. *)
Lemma typed_fewer w w' :
  typed w → next_id (sessions w') = next_id (sessions w) →
  smap (sessions w') ⊆ smap (sessions w) → conns w' ⊆ conns w → typed w'.
Proof.
  intros [Hn Hk Hc] Hnx Hs Hcs. split; [by rewrite Hnx|..].
  - intros k h Hkh. by eapply Hk, lookup_weaken.
  - intros h c Hh. by eapply Hc, lookup_weaken.
Qed.

Lemma typed_update h c w :
  typed w → is_u 32 (id c) ∧ Forall sendable (queue c) ∧ typed_defragger (defragger c) →
  typed (set_conns (insert h c) w).
Proof. intros [Hn Hk Hc] Hok. split; [done..|]. cbn. intros x cx [[_ <-]|[_ Hx]]%lookup_insert_Some; eauto. Qed.

Lemma close_typed h w : typed w → typed (close h w).
Proof.
  intros Hw. unfold close. destruct (conns w !! h); [|done]. apply (typed_fewer w); try done.
  cbn. apply delete_subseteq.
Qed.

Lemma step_typed oc w e w' :
  typed w → (∀ m a, e = EMsg m a → sendable m) → step oc w e w' → typed w' ∧ typed_event e.
Proof.
  intros Hw Hmsg Hs. pose proof Hw as [Hn Hk Hc]. destruct Hs as
    [w w' h Hh Hnew|w w' m a Hr Hfd|w Hr|w w' h c r Hh Hr|w h Hh|w h Hh|w Hh]; (split; [|try done]).
  - unfold new_udp in Hnew. destruct (closed _); [done|]. injection Hnew as <- <-. split; cbn.
    + apply Z.mod_pos_bound. lia.
    + intros k h [[<- <-]|[_ Hx]]%lookup_insert_Some; eauto.
    + intros h c [[_ <-]|[_ Hx]]%lookup_insert_Some; [|eauto]. split_and!; [done|constructor|].
      split; [split; cbn; [lia|unfold is_u; cbn; lia]|]. by intros m ?%not_elem_of_nil.
  - destruct a as [h|].
    + apply feed_Some in Hfd as (_ & c & Hh & _ & ->). destruct (Hc h c Hh) as (Hi & Hq & Hd).
      apply typed_update; [done|]. split_and!; [done| |done]. cbn. apply Forall_app. split; [done|].
      apply Forall_singleton. by eapply (Hmsg m).
    + by apply feed_None in Hfd as ->.
  - apply (typed_fewer w); try done. apply map_empty_subseteq.
  - unfold receive in Hr. apply bind_ok_inv in Hr as ([[q d] g] & Hl & Hr).
    destruct (Hc h c Hh) as (Hi & Hq & Hd). destruct (recv_loop_typed _ _ _ _ _ _ Hq Hd Hl) as (Hq' & Hd' & _).
    assert (w' = set_conns (insert h {| id := id c; queue := q; defragger := d |}) w) as ->
      by (destruct g; [|destruct (sender_alive w h c)]; by injection Hr as <- <-).
    by apply typed_update.
  - unfold receive in Hr. apply bind_ok_inv in Hr as ([[q d] g] & Hl & Hr).
    destruct (Hc h c Hh) as (_ & Hq & Hd). destruct (recv_loop_typed _ _ _ _ _ _ Hq Hd Hl) as (_ & _ & Hg).
    destruct g as [[payload from]|]; [injection Hr as <- <-; by apply Hg|].
    by destruct (sender_alive w h c); injection Hr as <- <-.
  - by apply close_typed.
  - unfold drop_conn. apply (typed_fewer (close h w)); [by apply close_typed|done..|]. apply delete_subseteq.
  - by apply (typed_fewer w).
Qed.

(** C17: The widths and encodings of the wire hold everywhere behind it. In every
    run whose messages are what [parse_udp_message] made of datagrams, all the
    ids in the table are [u32]s, every queued message and every fragment that a
    defragger keeps has fields of their widths and a valid UTF-8 address of 1 to
    2048 bytes, a defragger has at most 255 slots, and every datagram a consumer
    receives has such an address and a payload. *)
Theorem sessions_well_typed (oc : bool) (es : list event) (w : manager) :
  runs oc new es w → (∀ m a, EMsg m a ∈ es → ∃ bs, parse_udp_message bs = Ok m) →
  typed w ∧ Forall typed_event es.
Proof.
  intros Hr. remember new as w0 eqn:H0.
  induction Hr as [w|w es w' e w'' Hr IH Hs]; intros Hmsg; subst.
  - split; [|done]. split; cbn; [done|by intros|by intros].
  - destruct IH as [Hw Hes]; [done|intros m a Hin; apply (Hmsg m a); set_solver|].
    assert (Hm : ∀ m a, e = EMsg m a → sendable m).
    { intros m a ->. destruct (Hmsg m a) as [bs Hb]; [set_solver|].
      apply parse_udp_inv in Hb as (Hwf & Ha & Hd & _). done. }
    destruct (step_typed _ _ _ _ Hw Hm Hs) as [Hw' He]. split; [done|]. apply Forall_app. by rewrite Forall_singleton.
Qed.

(** ** Properties of the session table *)

(** C7: Sessions are isolated and ordered. At any point of any run, the
    messages accepted for a session all carry its id, at most 1024 of them are
    queued, and what its consumer has received is exactly what defragmenting
    the messages taken off the queue, in order of arrival, produces: nothing
    lost, reordered, duplicated or taken from another session. *)
Theorem receive_in_order (oc : bool) (es : list event) (w : manager) (h : nat) (c : UdpConn)
    (Hr : runs oc new es w) (Hc : conns w !! h = Some c) :
  Forall (λ m, session_id m = id c) (hist h es) ∧
  length (queue c) ≤ UDP_MESSAGE_CHAN_SIZE ∧
  ∃ consumed d os, hist h es = consumed ++ queue c ∧
    feed_all (E := io_error) oc defragger_default consumed = Ok (d, os) ∧
    got h es = payloads os.
Proof.
  destruct (i_conn _ _ _ (runs_inv _ _ _ Hr) h c Hc) as [_ [Hb Hi (cs & os & H1 & H2 & H3)]].
  split_and!; [done..|]. by exists cs, (defragger c), os.
Qed.

(** C35: A transport error shuts the manager down for good: the table is empty,
    new sessions are refused with [ClosedError], and no consumer ever waits
    again: a poll of [receive] returns a datagram that was queued, or end of
    file. *)
Theorem error_closes_sessions (oc : bool) (es : list event) (w : manager)
    (Hr : runs oc new es w) (He : EIoError ∈ es) :
  count w = 0 ∧ new_udp w = (Err {| Errors.closed_err := None |}, w) ∧
  ∀ h c, conns w !! h = Some c →
    match receive oc h c w with
    | Ok (Pending, _) => False
    | Ok (Ready (Err e), _) => e = UnexpectedEof
    | _ => True
    end.
Proof.
  pose proof (closed_after_error _ _ _ Hr He) as Hcl.
  pose proof (i_closed _ _ _ (runs_inv _ _ _ Hr) Hcl) as Hm.
  split_and!.
  - unfold count. by rewrite Hm.
  - unfold new_udp. by rewrite Hcl.
  - intros h c Hc. unfold receive, sender_alive. rewrite Hm, lookup_empty.
    destruct (recv_loop oc (queue c) (defragger c)) as [[[q d] [r|]]| |]; done.
Qed.

(** A consumer waiting on a session whose manager was dropped mid-run. *)
Record stranded (h : nat) (k : Z) (w : manager) : Prop := {
  st_held : held w = false;
  st_task : run_task w = Aborted;
  st_conn : ∃ d, conns w !! h = Some {| id := k; queue := []; defragger := d |};
  st_map : smap (sessions w) !! k = Some h;
}.

Lemma stranded_step oc h k w e w' :
  stranded h k w → step oc w e w' → (∀ x, e ≠ EClose x ∧ e ≠ EDropConn x) → stranded h k w'.
Proof.
  intros [Hh Ht [d Hc] Hm] Hs He. inversion Hs as
    [w0 w0' x Hx Hn|w0 w0' m a Hr Hfd|w0 Hr|w0 w0' x c r Hx Hr|w0 x Hx|w0 x Hx|w0 Hx]; subst;
    try congruence; try (by destruct (He x)).
  unfold receive in Hr. apply bind_ok_inv in Hr as ([[q d'] g] & Hl & Hr).
  assert (w' = set_conns (insert x {| id := id c; queue := q; defragger := d' |}) w) as ->.
  { destruct g; [by injection Hr as _ <-|]. by destruct (sender_alive w x c); injection Hr as _ <-. }
  split; cbn; try done. destruct (decide (x = h)) as [->|Hne].
  - assert (c = {| id := k; queue := []; defragger := d |}) as -> by congruence.
    injection Hl as <- <- <-. exists d. by rewrite lookup_insert_eq.
  - exists d. by rewrite lookup_insert_ne.
Qed.

(** C38: Dropping the manager while its task runs does not close the sessions:
    the task is aborted before its cleanup, so a consumer with an empty queue
    waits for ever, whatever happens next, short of sessions being closed or
    dropped by their consumers; and no message can reach it any more. *)
Theorem manager_drop_strands_receivers (oc : bool) (es es' : list event) (w w' : manager)
    (h : nat) (c : UdpConn)
    (Hr : runs oc new es w) (Ht : run_task w = Running) (Hc : conns w !! h = Some c)
    (Hq : queue c = []) (Ha : sender_alive w h c = true)
    (Hr' : runs oc (drop_manager w) es' w')
    (He : ∀ x, (EClose x ∉ es') ∧ (EDropConn x ∉ es')) :
  ∃ c', conns w' !! h = Some c' ∧ ∃ w'', receive oc h c' w' = Ok (Pending, w'').
Proof.
  assert (H0 : stranded h (id c) (drop_manager w)).
  { destruct c as [k q d]. cbn in *. subst q. split; cbn; [done|by rewrite decide_True|eauto|].
    by apply bool_decide_eq_true in Ha. }
  assert (H1 : stranded h (id c) w').
  { clear Hr Ht Hc Hq Ha. remember (drop_manager w) as w0 eqn:Hw0.
    induction Hr' as [w0|w0 es' w1 e w2 Hr' IH Hs]; [done|].
    eapply stranded_step; [apply IH; [done| |done]|done|].
    - intros x. destruct (He x). set_solver.
    - intros x. destruct (He x) as [H1 H2]. split; intros ->; set_solver. }
  destruct H1 as [_ _ [d Hd] Hm]. eexists. split; [done|]. unfold receive, sender_alive. cbn.
  rewrite Hm, bool_decide_eq_true_2 by done. by eexists.
Qed.

(** ** Sending over a transport *)

Section sending.
Context `{Hio : @UdpIo St send_message path_max log ok}.

Lemma send_all_ok fs s :
  ok s → Forall (λ f, sendable f ∧ size f ≤ MAX_UDP_SIZE ∧ size f ≤ path_max) fs →
  ∃ s', send_all send_message fs s = (Ok (), s') ∧ log s' = log s ++ fs ∧ ok s'.
Proof.
  intros Hs Hf. revert s Hs. induction Hf as [|f fs (H1 & H2 & H3) Hf IH]; intros s Hs.
  - exists s. by rewrite app_nil_r.
  - destruct (io_fits f s Hs H1 H2 H3) as (s1 & Hs1 & Hl1 & Hok1).
    destruct (IH s1 Hok1) as (s2 & Hs2 & Hl2 & Hok2). exists s2. cbn [send_all].
    unfold mbind, stm_bind. rewrite Hs1, Hs2, Hl2, Hl1, <-app_assoc. done.
Qed.

Lemma pieces_sendable m i p :
  wf_msg m → 0 < length (addr m) ≤ 2048 → header_size m < path_max < size m →
  size m ≤ MAX_UDP_SIZE → (needed m path_max ≤ 255)%Z →
  pieces m path_max !! i = Some p →
  let f := with_frag m (Z.of_nat (0 + i)) (needed m path_max) p in
  sendable f ∧ size f ≤ MAX_UDP_SIZE ∧ size f ≤ path_max.
Proof.
  intros (Hs & Hp & Hi & Hc & Hu) Ha Hm Hmax Hn Hpi.
  assert (Hb : 0 < length p ≤ path_max - header_size m).
  { pose proof (chunks_bound (length (data m)) (path_max - header_size m) (data m) ltac:(lia)) as Hb.
    rewrite Forall_forall in Hb. apply Hb. by eapply list_elem_of_lookup_2. }
  pose proof (lookup_lt_Some _ _ _ Hpi). pose proof (length_pieces m path_max ltac:(lia)).
  pose proof (needed_two m path_max Hm).
  cbn zeta. split_and!.
  - split; [|split; [done|]]; [split_and!; try done; cbn; unfold is_u; lia|].
    cbn. destruct p; [cbn in Hb; lia|done].
  - unfold size in *. rewrite header_size_with_frag. cbn [with_frag data]. lia.
  - unfold size in *. rewrite header_size_with_frag. cbn [with_frag data]. lia.
Qed.

(** The fragments of a message on the path. *)
Definition fragments (m : UdpMessage) : list UdpMessage :=
  number m (needed m path_max) 0 (pieces m path_max).

Lemma fragments_Forall (P : UdpMessage → Prop) m :
  (∀ i p, pieces m path_max !! i = Some p → P (with_frag m (Z.of_nat (0 + i)) (needed m path_max) p)) →
  Forall P (fragments m).
Proof.
  intros HP. apply Forall_forall. intros f Hin. apply list_elem_of_lookup in Hin as [i Hi].
  unfold fragments, number in Hi. rewrite list_lookup_imap in Hi.
  destruct (pieces m path_max !! i) as [p|] eqn:Hpi; [|done]. injection Hi as <-. by apply HP.
Qed.

(** A peer that is fed all of them, in order, gets the message once. *)
Lemma fragments_received oc m dfr :
  header_size m < path_max < size m → (needed m path_max ≤ 255)%Z → packet_id m ≠ pkt_id dfr →
  ∃ dfr' os, feed_all (E := io_error) oc dfr (fragments m) = Ok (dfr', os) ∧
    payloads os = [(data m, Proxy.addr m)] ∧ pkt_id dfr' = packet_id m.
Proof.
  intros Hs Hn Hfresh. pose proof (frag_is_frags m path_max Hs Hn) as Hfs. fold (fragments m) in Hfs.
  set (fs := fragments m) in *. pose proof (is_frags_length _ _ Hfs) as Hlen.
  assert (Hseq : seq 0 (length fs - 1) ++ [length fs - 1] = seq 0 (length fs)).
  { destruct (length fs) as [|n]; [lia|]. rewrite seq_S. by rewrite Nat.sub_succ, Nat.sub_0_r. }
  destruct (reassemble (E := io_error) oc m fs dfr (seq 0 (length fs - 1)) (length fs - 1))
    as (dfr' & Hfa & Hcmp); [done|by left| | | |].
  - rewrite Hseq. apply Forall_forall. intros j. rewrite elem_of_seq. lia.
  - rewrite elem_of_seq. lia.
  - intros j Hj. rewrite Hseq, elem_of_seq. lia.
  - rewrite Hseq, pick_all in Hfa. exists dfr'. eexists. split; [exact Hfa|].
    assert (Hpid : pkt_id dfr' = packet_id m).
    { destruct (lookup_lt_is_Some_2 fs 0 ltac:(lia)) as [f Hf].
      rewrite <-(cmp_pid _ _ _ Hcmp f) by (by eapply list_elem_of_lookup_2). by eapply is_frags_lookup. }
    split; [|done]. unfold payloads.
    rewrite omap_app, fmap_app, omap_none by (intros o [-> _]%elem_of_replicate; done).
    assert (Hd : concat (data <$> fs) = data m).
    { unfold fs, fragments, pieces. rewrite data_number. by apply chunks_concat; [lia|]. }
    by rewrite Hd.
Qed.

(** A datagram that the wire format and the path can carry. *)
Definition message (sid : Z) (payload : list byte) (to : rstr) : UdpMessage :=
  {| session_id := sid; packet_id := 0; frag_id := 0; frag_count := 1; addr := to; data := payload |}.
Record deliverable (sid : Z) (payload : list byte) (to : rstr) : Prop := {
  dl_sendable : sendable (message sid payload to);
  dl_size : size (message sid payload to) ≤ MAX_UDP_SIZE;
  dl_header : header_size (message sid payload to) < path_max;
  dl_needed : (needed (message sid payload to) path_max ≤ 255)%Z;
}.

(** What one [send] puts on the wire, for any peer's defragger. *)
Lemma send_wire oc sid d payload to s :
  ok s → deliverable sid payload to →
  ∃ s' ms, send send_message oc sid d payload to s = (Ok (), s') ∧ ok s' ∧
    log s' = log s ++ ms ∧ Forall (λ m, session_id m = sid) ms ∧
    ∀ dfr, random_packet_id d ≠ pkt_id dfr →
      ∃ dfr' os, feed_all (E := io_error) oc dfr ms = Ok (dfr', os) ∧ payloads os = [(payload, to)] ∧
        (pkt_id dfr' = pkt_id dfr ∨ pkt_id dfr' = random_packet_id d).
Proof.
  intros Hok [Hsd Hsize Hpath Hn]. unfold send. fold (message sid payload to).
  set (msg := message sid payload to) in *. destruct (decide (size msg ≤ path_max)) as [Hf|Hf].
  - destruct (io_fits msg s Hok Hsd Hsize Hf) as (s' & Hs & Hl & Hok').
    exists s', [msg]. rewrite Hs. split_and!; [done..|by repeat constructor|].
    intros dfr _. exists dfr, [Some msg]. split_and!; [done..|by left].
  - destruct (io_too_large msg s Hok Hsd Hsize ltac:(lia)) as (s1 & -> & Hl1 & Hok1).
    set (msg' := {| session_id := session_id msg; packet_id := random_packet_id d;
      frag_id := frag_id msg; frag_count := frag_count msg; addr := Proxy.addr msg;
      data := Proxy.data msg |}).
    assert (Hn' : (needed msg' path_max ≤ 255)%Z) by exact Hn.
    assert (Hs' : header_size msg' < path_max < size msg').
    { change (header_size msg') with (header_size msg). change (size msg') with (size msg). lia. }
    assert (Hwf' : wf_msg msg').
    { destruct Hsd as [(? & _ & ? & ? & ?) _]. split_and!; try done. cbn. unfold is_u, random_packet_id.
      pose proof (random_range_bound 1 65536 d eq_refl). lia. }
    unfold mbind, stm_bind, lift. rewrite (frag_split oc msg' path_max Hs' Hn').
    destruct (send_all_ok (fragments msg') s1 Hok1) as (s2 & Hs2 & Hl2 & Hok2).
    { apply fragments_Forall. intros i p Hpi. apply pieces_sendable; [done|apply Hsd|done..]. }
    exists s2, (fragments msg'). fold (fragments msg'). rewrite Hs2, Hl2, Hl1.
    split_and!; [done..|by apply fragments_Forall|].
    intros dfr Hfresh. destruct (fragments_received oc msg' dfr Hs' Hn' Hfresh) as (dfr' & os & Hfa & Hpay & Hpid).
    exists dfr', os. split_and!; [done..|by right].
Qed.

(** What [send] puts on the wire is what the peer's session receives: whenever
    the message fits the scratch buffer and needs at most 255 fragments on the
    path, [send] succeeds, every message it sends carries the session's id, and
    a peer defragmenting them (while not already collecting that packet id)
    obtains exactly the datagram, once. *)
Theorem send_delivers (oc : bool) (sid d : Z) (payload : list byte) (to : rstr) (s : St)
    (dfr : Defragger) :
  let msg := {| session_id := sid; packet_id := 0; frag_id := 0; frag_count := 1;
                addr := to; data := payload |} in
  ∀ (Hok : ok s) (Hid : is_u 32 sid) (Hto : 0 < length to ≤ 2048) (Hu : utf8_valid to = true)
    (Hp : payload ≠ []) (Hsize : size msg ≤ MAX_UDP_SIZE) (Hpath : header_size msg < path_max)
    (Hn : (needed msg path_max ≤ 255)%Z) (Hfresh : random_packet_id d ≠ pkt_id dfr),
  ∃ s' ms, send send_message oc sid d payload to s = (Ok (), s') ∧ ok s' ∧
    log s' = log s ++ ms ∧ Forall (λ m, session_id m = sid) ms ∧
    ∃ dfr' os, feed_all (E := io_error) oc dfr ms = Ok (dfr', os) ∧
      payloads os = [(payload, to)].
Proof.
  intros msg. intros.
  assert (Hd : deliverable sid payload to) by (split; [split; [split_and!; done|done]|done..]).
  destruct (send_wire oc sid d payload to s Hok Hd) as (s' & ms & Hs & Hok' & Hl & Hid' & Hall).
  destruct (Hall dfr Hfresh) as (dfr' & os & Hfa & Hpay & _).
  exists s', ms. split_and!; [done..|]. by exists dfr', os.
Qed.

(** Datagrams sent one after the other, each with the random number it draws. *)
Fixpoint sends (oc : bool) (sid : Z) (l : list (Z * (list byte * rstr))) : stm St SendError () :=
  match l with
  | [] => mret ()
  | (d, (payload, to)) :: l => _ ← send send_message oc sid d payload to; sends oc sid l
  end.

Lemma sends_wire oc sid l s :
  ok s → Forall (λ x, deliverable sid x.2.1 x.2.2) l → NoDup (random_packet_id ∘ fst <$> l) →
  ∃ s' ms, sends oc sid l s = (Ok (), s') ∧ ok s' ∧
    log s' = log s ++ ms ∧ Forall (λ m, session_id m = sid) ms ∧
    ∀ dfr, pkt_id dfr ∉ (random_packet_id ∘ fst <$> l) →
      ∃ dfr' os, feed_all (E := io_error) oc dfr ms = Ok (dfr', os) ∧ payloads os = l.*2.
Proof.
  intros Hok Hl. revert s Hok. induction Hl as [|[d [payload to]] l Hd Hl IH]; intros s Hok Hnd.
  { exists s, []. rewrite app_nil_r. split_and!; [done..|]. intros dfr _. by exists dfr, []. }
  cbn in Hnd. apply NoDup_cons in Hnd as [Hd1 Hnd].
  destruct (send_wire oc sid d payload to s Hok Hd) as (s1 & ms & Hs & Hok1 & Hl1 & Hid & Hall).
  destruct (IH s1 Hok1 Hnd) as (s2 & ms' & Hs2 & Hok2 & Hl2 & Hid2 & Hall2).
  exists s2, (ms ++ ms'). cbn [sends]. unfold mbind, stm_bind. rewrite Hs, Hs2, Hl2, Hl1, <-app_assoc.
  split_and!; [done..|by apply Forall_app|].
  intros dfr [Hne Hin]%not_elem_of_cons. destruct (Hall dfr) as (dfr1 & os & Hfa & Hp & Hpid); [done|].
  destruct (Hall2 dfr1) as (dfr2 & os' & Hfa' & Hp'); [by destruct Hpid as [-> | ->]|].
  exists dfr2, (os ++ os'). rewrite feed_all_app, Hfa. cbn [mbind outcome_bind]. rewrite Hfa'.
  split; [done|]. by rewrite payloads_app, Hp, Hp'.
Qed.
End sending.

(** ** Witnesses *)

(** Session 1 opened, a message queued for it, then a transport error. *)
Definition w_msg : UdpMessage :=
  {| session_id := 1; packet_id := 0; frag_id := 0; frag_count := 1;
     addr := lit "a:1"; data := lit "hi" |}.
Definition w_open : manager := (new_udp new).2.
Definition w_fed : manager := (feed w_msg w_open).2.

Lemma w_fed_runs : runs true new [ENew 0; EMsg w_msg (Some 0)] w_fed.
Proof.
  change [ENew 0; EMsg w_msg (Some 0)] with (([] ++ [ENew 0]) ++ [EMsg w_msg (Some 0)]).
  econstructor; [econstructor; [constructor|]|].
  - by apply (step_new _ new w_open).
  - by apply step_msg.
Defined.

Lemma receive_in_order_witness :
  conns w_fed !! 0 = Some {| id := 1; queue := [w_msg]; defragger := defragger_default |} ∧
  Forall (λ m, session_id m = 1%Z) (hist 0 [ENew 0; EMsg w_msg (Some 0)]).
Proof.
  split; [reflexivity|].
  apply (receive_in_order true [ENew 0; EMsg w_msg (Some 0)] w_fed 0
    {| id := 1; queue := [w_msg]; defragger := defragger_default |} w_fed_runs).
  reflexivity.
Defined.

Lemma sessions_well_typed_witness :
  runs true new [ENew 0; EMsg w_msg (Some 0)] w_fed ∧ typed w_fed.
Proof.
  split; [exact w_fed_runs|].
  destruct (sessions_well_typed true [ENew 0; EMsg w_msg (Some 0)] w_fed w_fed_runs) as [Ht _]; [|exact Ht].
  intros m a Hin. exists (udp_message_bytes w_msg).
  assert (Hm : EMsg m a = EMsg w_msg (Some 0)) by set_solver. injection Hm as -> _. vm_compute. reflexivity.
Defined.

Lemma error_closes_sessions_witness :
  count (cleanup w_fed) = 0 ∧
  new_udp (cleanup w_fed) = (Err {| Errors.closed_err := None |}, cleanup w_fed).
Proof.
  destruct (error_closes_sessions true ([ENew 0; EMsg w_msg (Some 0)] ++ [EIoError])
    (cleanup w_fed)) as (H1 & H2 & _).
  - eapply runs_snoc; [exact w_fed_runs|]. by apply step_io_error.
  - apply elem_of_app. right. by left.
  - by split.
Defined.

Lemma manager_drop_strands_receivers_witness :
  ∃ c', conns (drop_manager w_open) !! 0 = Some c' ∧
    ∃ w'', receive true 0 c' (drop_manager w_open) = Ok (Pending, w'').
Proof.
  apply (manager_drop_strands_receivers true [ENew 0] [] w_open (drop_manager w_open) 0
    {| id := 1; queue := []; defragger := defragger_default |}); try reflexivity.
  - change [ENew 0] with ([] ++ [ENew 0]). econstructor; [constructor|].
    by apply (step_new _ new w_open).
  - constructor.
  - intros x. split; apply not_elem_of_nil.
Defined.

(** A lossless path of 20 bytes. *)
Definition path20 (m : UdpMessage) : stm (list UdpMessage) SendError () := fun s =>
  if decide (MAX_UDP_SIZE < size m) then (Ok (), s)
  else if decide (size m ≤ 20) then (Ok (), s ++ [m]) else (Err (TooLarge 20), s).

#[local] Instance path20_io : UdpIo path20 20 Datatypes.id (λ _, True).
Proof.
  split; unfold path20.
  - intros m s _ _ H1 H2. rewrite decide_False by lia. rewrite decide_True by done. by eexists.
  - intros m s _ _ H1 H2. rewrite !decide_False by lia. by eexists.
  - intros m s _ H1. rewrite decide_True by done. by eexists.
Qed.

Lemma send_delivers_witness :
  ∃ s' ms, send path20 true 7 41 (lit "hello, world") (lit "a:1") [] = (Ok (), s') ∧
    s' = ms ∧ Forall (λ m, session_id m = 7%Z) ms ∧
    ∃ dfr' os, feed_all (E := io_error) true defragger_default ms = Ok (dfr', os) ∧
      payloads os = [(lit "hello, world", lit "a:1")].
Proof.
  destruct (send_delivers (path_max := 20) (log := Datatypes.id) (ok := λ _, True)
    (send_message := path20) true 7 41 (lit "hello, world") (lit "a:1") [] defragger_default)
    as (s' & ms & H1 & _ & H2 & H3 & H4); try done; try (vm_compute; lia).
  exists s', ms. split; [exact H1|]. split; [exact H2|]. split; [exact H3|exact H4].
Defined.

End UdpSession.
