(* ===== verification/Transport.v ===== *)
(** * Transport: connecting, authenticating, and the two relays' stream sides

    Models [client/transport.rs]: [Client::connect] and what it calls
    ([build_quic_client_config], [build_endpoint], [authenticate],
    [effective_tx], the failure categories), [Client::tcp] with the retrying
    [read_tcp_response], [TcpConn]'s [poll_read], [Client::udp], and
    [QuinnUdpIo].

    The QUIC stack, TLS, HTTP/3 and the operating system are an environment
    the definitions take as an argument; a bidirectional stream is the sequence
    of reads it will serve. *)
From S2P Require Import Prelude IoRead RustStr Varint Proxy Net Errors PortUnion Obfs ClientConfig Tls Hop Http Frag UdpSession.

Module Transport.
Import RustStr Net Errors.
#[local] Existing Instance Proxy.sp_read_tcp_response.

Definition CLOSE_ERR_CODE_OK : Z := 0x100.
Definition CLOSE_ERR_CODE_PROTOCOL_ERROR : Z := 0x101.

(** [anyhow::Error], as far as [downcast_ref::<AuthError>] tells. *)
Inductive any_error := AnyAuth (e : AuthError) | AnyOther (text : rstr).
Definition any_text (e : any_error) : rstr :=
  match e with AnyAuth e => auth_error_display e | AnyOther t => t end.

(** [quinn::ConnectionError], as far as the code looks. *)
Record connection_error := { timed_out : bool; conn_text : rstr }.

(** ** Failure categories *)

Definition categorize_handshake (e : connection_error) : ConnectFailure :=
  if timed_out e then FTimeout (conn_text e) else FUnreachable (conn_text e).

Definition categorize_auth (e : any_error) : ConnectFailure :=
  match e with
  | AnyAuth _ => FAuth (any_text e)
  | AnyOther _ => FUnreachable (any_text e)
  end.

Definition effective_tx (rx_auto : bool) (server_rx client_tx : Z) : Z :=
  if rx_auto then 0
  else if (server_rx =? 0)%Z || (client_tx <? server_rx)%Z then client_tx
  else server_rx.

(** ** The QUIC and endpoint configuration *)

Inductive congestion := Brutal (bps : Z) | Bbr.

(** What [build_quic_client_config] sets on quinn's transport config. *)
Record quic_client_config := {
  crypto : Tls.RustlsClientConfig;
  stream_receive_window : Z;
  receive_window : Z;
  max_idle_timeout : Z;
  keep_alive_interval : Z;
  datagram_buffer_sizes : Z * Z;
  mtu_discovery : bool;
  congestion_controller : congestion;
}.

(** The socket layers, innermost first. *)
Inductive layer :=
| LObfs (o : Obfs.SalamanderObfuscator)
| LHop (s : Hop.HopUdpSocket) (interval : ClientConfig.HopIntervalConfig).

Inductive endpoint :=
| Plain (bind : SocketAddr)
| Layered (bind : SocketAddr) (layers : list layer).

(** [SocketAddr::set_ip]. *)
Definition set_ip (a : SocketAddr) (i : IpAddr) : SocketAddr :=
  match ip a, i with
  | V4 _, V4 _ | V6 _, V6 _ =>
    {| ip := i; port := port a; flowinfo := flowinfo a; scope_id := scope_id a |}
  | _, _ => socket_addr i (port a)
  end.

(** [(Ipv4Addr::UNSPECIFIED, 0)] or [(Ipv6Addr::UNSPECIFIED, 0)]. *)
Definition bind_addr (server : SocketAddr) : SocketAddr :=
  socket_addr (if is_ipv4 server then V4 0 else V6 0) 0.

(** [hop_addrs]: every hop port at the server's address; [None] when there is
    nothing to hop over. *)
Definition hop_addrs (config : ClientConfig.Config) : option (list SocketAddr) :=
  ports ← ClientConfig.hop_ports config;
  let ip := ip (ClientConfig.server_addr config) in
  let addrs := socket_addr ip <$> PortUnion.ports ports in
  if bool_decide (addrs = []) then None else Some addrs.

(** ** HTTP headers *)

(** The [http] crate's header map: names are tokens told apart without case,
    values are bytes that [to_str] shows when they are visible ASCII. *)
Class HeaderMap (H : Type) := {
  header_name : Type;
  header_value : Type;
  header_map_get : H → rstr → option header_value;
  header_map_insert : H → header_name → header_value → H;
  name_try_from : rstr → option header_name;
  value_try_from : rstr → option header_value;
  to_str : header_value → option rstr;
  get_insert h k n v : name_try_from k = Some n → header_map_get (header_map_insert h n v) k = Some v;
  get_insert_ne h k k' n v :
    name_try_from k = Some n → eq_ignore_ascii_case k k' = false →
    header_map_get (header_map_insert h n v) k' = header_map_get h k';
  name_token k :
    k ≠ [] → Forall (λ b, is_alnum b = true ∨ b = x2d) k → is_Some (name_try_from k);
  value_alnum s : Forall (λ b, is_alnum b = true) s → ∃ v, value_try_from s = Some v ∧ to_str v = Some s;
}.

(** [impl Header for HeaderMap]: what cannot be a header is left out. *)
Section header_map.
Context `{HeaderMap H}.

Definition map_get (h : H) (key : rstr) : option rstr := v ← header_map_get h key; to_str v.
Definition map_set (h : H) (key value : rstr) : H :=
  match name_try_from key, value_try_from value with
  | Some name, Some val => header_map_insert h name val
  | _, _ => h
  end.
Definition sendable (value : rstr) : bool :=
  bool_decide ((v ← value_try_from value; to_str v) = Some value).

#[global] Program Instance header_map : Header H := {|
  header_get := map_get;
  header_set := map_set;
  valid_key key := bool_decide (is_Some (name_try_from key));
  accepts := sendable;
|}.
Next Obligation.
  intros h k v [n Hn]%bool_decide_eq_true Hv%bool_decide_eq_true. unfold map_get, map_set. rewrite Hn.
  destruct (value_try_from v) as [val|]; [|done]. by rewrite (get_insert _ _ _ _ Hn).
Qed.
Next Obligation.
  intros h k k' v Hk. unfold map_get, map_set. destruct (name_try_from k) as [n|] eqn:Hn; [|done].
  destruct (value_try_from v); [|done]. by rewrite (get_insert_ne _ _ _ _ _ Hn Hk).
Qed.
Next Obligation. intros k Hne Hk. by apply bool_decide_eq_true, name_token. Qed.
Next Obligation.
  intros v (val & Hv & Hs)%value_alnum. unfold sendable. apply bool_decide_eq_true. by rewrite Hv.
Qed.
End header_map.

(** [anyhow]'s context, in the display of the whole chain. *)
Definition inline_context {A} (c : rstr) (m : outcome rstr A) : outcome rstr A :=
  map_err (λ e, c ++ lit ": " ++ e) m.

(** The environment: the TLS stack, quinn's conversions, the sockets, the QUIC
    handshake and the HTTP/3 exchange. *)
Class Quic := {
  quic_rustls :: Rustls;
  quic_crypto : Tls.RustlsClientConfig → outcome rstr ();
  varint_from_u64 : Z → outcome rstr Z;
  idle_timeout_try_from : Z → outcome rstr Z;
  default_runtime : bool;
  bind_udp_socket : SocketAddr → outcome rstr ();
  wrap_udp_socket : SocketAddr → outcome rstr ();
  create_endpoint : endpoint → outcome rstr ();
  connect_with : quic_client_config → SocketAddr → rstr → outcome rstr ();
  handshake : outcome connection_error ();
  headers : Type;
  headers_map :: HeaderMap headers;
  headers_new : headers;
  exchange : headers → outcome rstr (Z * headers);
  (** quinn's variable-length integers hold 62 bits. *)
  varint_from_u64_spec v : (0 ≤ v < 2 ^ 62)%Z → varint_from_u64 v = Ok v;
  idle_timeout_spec d : (0 ≤ d / 1000000 < 2 ^ 62)%Z → idle_timeout_try_from d = Ok d;
}.

Section connect.
Context `{Quic}.

Definition to_varint (value : Z) : outcome rstr Z :=
  map_err (λ e, lit "value exceeds QUIC varint range: " ++ e) (varint_from_u64 value).

Definition build_quic_client_config (config : ClientConfig.Config) :
    outcome rstr quic_client_config :=
  let q := ClientConfig.quic config in
  rustls_config ← map_err config_error_display (Tls.build_rustls_client_config (ClientConfig.tls config));
  _ ← map_err (λ e, lit "QUIC TLS config: " ++ e) (quic_crypto rustls_config);
  srw ← to_varint (ClientConfig.max_stream_receive_window q);
  rw ← to_varint (ClientConfig.max_connection_receive_window q);
  idle ← map_err (λ e, lit "max idle timeout: " ++ e)
           (idle_timeout_try_from (ClientConfig.max_idle_timeout q));
  Ok {| crypto := rustls_config;
        stream_receive_window := srw;
        receive_window := rw;
        max_idle_timeout := idle;
        keep_alive_interval := ClientConfig.keep_alive_period q;
        datagram_buffer_sizes := (Z.of_nat Proxy.MAX_UDP_SIZE * 1024, Z.of_nat Proxy.MAX_UDP_SIZE * 1024)%Z;
        mtu_discovery := negb (ClientConfig.disable_path_mtu_discovery q);
        congestion_controller :=
          if (0 <? ClientConfig.max_tx (ClientConfig.bandwidth config))%Z
          then Brutal (ClientConfig.max_tx (ClientConfig.bandwidth config)) else Bbr |}.

(** [build_endpoint]; [d] is the hop socket's first draw. *)
Definition build_endpoint (debug_assertions : bool) (d : Z) (bind : SocketAddr)
    (config : ClientConfig.Config) : outcome rstr endpoint :=
  let hops := hop_addrs config in
  match ClientConfig.obfs config, hops with
  | None, None =>
    _ ← inline_context (lit "bind QUIC endpoint") (create_endpoint (Plain bind));
    Ok (Plain bind)
  | obfs, _ =>
    _ ← (if default_runtime then Ok ()
         else Err (lit "no async runtime found; call within a tokio runtime"));
    _ ← inline_context (lit "bind UDP socket") (bind_udp_socket bind);
    _ ← inline_context (lit "wrap UDP socket") (wrap_udp_socket bind);
    layers ←
      match obfs with
      | Some psk => (λ o, [LObfs o]) <$> map_err config_error_display (Obfs.new psk)
      | None => Ok []
      end;
    layers ←
      match hops with
      | Some addrs =>
        (λ s, layers ++ [LHop s (ClientConfig.hop_interval config)]) <$>
          Hop.new debug_assertions (ClientConfig.server_addr config) addrs d
      | None => Ok layers
      end;
    _ ← inline_context (lit "create QUIC endpoint") (create_endpoint (Layered bind layers));
    Ok (Layered bind layers)
  end.

(** The connection's effect log: the codes it was closed with. *)
Abbreviation conn_m := (stm (list Z)).

Definition close_conn {E} (c : Z) : conn_m E () := modify (λ log, log ++ [c]).

(** The part of [AuthOutcome] that carries information. *)
Record AuthOutcome := { ao_udp_enabled : bool; ao_tx : Z }.

Definition authenticate (rng : nat → Z) (config : ClientConfig.Config) :
    conn_m any_error AuthOutcome :=
  let request := Http.auth_request_to_header headers_new
    {| Http.auth := ClientConfig.auth config;
       Http.req_rx := ClientConfig.max_rx (ClientConfig.bandwidth config) |} rng in
  '(status, response) ← lift (map_err (λ e, AnyOther (connect_error_display {| connect_err := e |}))
                           (exchange request));
  if bool_decide (status ≠ Http.STATUS_AUTH_OK) then
    _ ← close_conn CLOSE_ERR_CODE_PROTOCOL_ERROR;
    throw (AnyAuth {| status_code := status |})
  else
    let auth_resp := Http.auth_response_from_header response in
    mret {| ao_udp_enabled := Http.udp_enabled auth_resp;
            ao_tx := effective_tx (Http.rx_auto auth_resp) (Http.resp_rx auth_resp)
                       (ClientConfig.max_tx (ClientConfig.bandwidth config)) |}.

Record HandshakeInfo := { udp_enabled : bool; tx : Z; server_addr : SocketAddr }.

(** [Client]: the endpoint it runs on, its UDP session manager, fast open. *)
Record Client := {
  client_endpoint : endpoint;
  udp_sm : option UdpSession.manager;
  fast_open : bool;
}.

Definition connect (debug_assertions : bool) (rng : nat → Z) (d : Z)
    (config : ClientConfig.Config) : conn_m ConnectFailure (Client * HandshakeInfo) :=
  let '(checked, config) := ClientConfig.verify_and_fill config in
  _ ← lift (map_err (λ e, FConfig (config_error_display e)) checked);
  let server := set_ip (ClientConfig.server_addr config)
                  (to_canonical (ip (ClientConfig.server_addr config))) in
  let config :=
    {| ClientConfig.server_addr := server; ClientConfig.auth := ClientConfig.auth config;
       ClientConfig.tls := ClientConfig.tls config; ClientConfig.quic := ClientConfig.quic config;
       ClientConfig.bandwidth := ClientConfig.bandwidth config;
       ClientConfig.fast_open := ClientConfig.fast_open config;
       ClientConfig.obfs := ClientConfig.obfs config;
       ClientConfig.hop_ports := ClientConfig.hop_ports config;
       ClientConfig.hop_interval := ClientConfig.hop_interval config |} in
  client_config ← lift (map_err FConfig (build_quic_client_config config));
  endpoint ← lift (map_err FUnreachable
               (build_endpoint debug_assertions d (bind_addr server) config));
  _ ← lift (map_err FUnreachable (connect_with client_config server
        (ClientConfig.server_name (ClientConfig.tls config))));
  _ ← lift (map_err categorize_handshake handshake);
  info ← map_err_m categorize_auth (authenticate rng config);
  mret ({| client_endpoint := endpoint;
           udp_sm := if ao_udp_enabled info then Some UdpSession.new else None;
           fast_open := ClientConfig.fast_open config |},
        {| udp_enabled := ao_udp_enabled info; tx := ao_tx info; server_addr := server |}).

(** [Client::udp]: what the dial error or the closed error displays. *)
Definition udp (c : Client) : outcome rstr (nat * UdpSession.manager) :=
  match udp_sm c with
  | None => Err (dial_error_display {| dial_message := lit "UDP not enabled" |})
  | Some sm =>
    match UdpSession.new_udp sm with
    | (Ok h, sm) => Ok (h, sm)
    | (Err e, _) => Err (closed_error_display e)
    | (Panic, _) => Panic
    end
  end.

(** [Client::close]: the connection, then the endpoint; and [Drop]. *)
Definition close {E} : conn_m E () :=
  _ ← close_conn CLOSE_ERR_CODE_OK; close_conn CLOSE_ERR_CODE_OK.
Definition drop_client {E} : conn_m E () := close.
End connect.

(** ** The TCP response and [TcpConn] *)

(** What the receive half of a stream will serve: data, a wait, or its end (the
    peer finished it, or the connection broke). *)
Inductive stream_event := SData (bytes : list byte) | SPending.
Inductive stream_end := SFin | SBroken (text : rstr).
Record recv_stream := { events : list stream_event; ending : stream_end }.

(** The 256-byte reads of the response reader: one read takes at most that from
    the next data event, the rest stays first in line. *)
Definition CHUNK : nat := 256.

Inductive response_error := REio (e : io_error) | REclosed | REbroken (text : rstr).

(** [recv.read(&mut chunk)] for a buffer of [n] bytes: a wait, the end, or the
    bytes read with the stream that remains. *)
Inductive read_result := RPending (s : recv_stream) | REnd | RBytes (bytes : list byte) (s : recv_stream).

Definition stream_read (n : nat) (s : recv_stream) : read_result :=
  match events s with
  | SPending :: es => RPending {| events := es; ending := ending s |}
  | SData bytes :: es =>
    RBytes (take n bytes)
      {| events := if decide (n < length bytes) then SData (drop n bytes) :: es else es;
         ending := ending s |}
  | [] => REnd
  end.

(** One poll of the response reader, from the bytes buffered so far. Each turn
    of the loop takes a read off the stream, so [fuel] bounds the turns. *)
Inductive response_poll :=
| RespPending (buf : list byte) (s : recv_stream)
| RespDone (r : outcome response_error (bool * rstr)) (leftover : list byte) (s : recv_stream).

Fixpoint read_tcp_response (fuel : nat) (buf : list byte) (s : recv_stream) :
    option response_poll :=
  match fuel with
  | O => None
  | S fuel =>
    match Proxy.read_tcp_response buf with
    | Ok (resp, leftover) => Some (RespDone (Ok resp) leftover s)
    | Err UnexpectedEof =>
      match stream_read CHUNK s with
      | RBytes bytes s => read_tcp_response fuel (buf ++ bytes) s
      | RPending s => Some (RespPending buf s)
      | REnd =>
        Some (RespDone (Err (match ending s with SFin => REclosed | SBroken t => REbroken t end)) [] s)
      end
    | Err e => Some (RespDone (Err (REio e)) [] s)
    | Panic => Some (RespDone Panic [] s)
    end
  end.

(** Reads left in a stream at 256 bytes each, with one to see its end. *)
Definition event_reads (e : stream_event) : nat :=
  match e with SData bytes => S (length bytes) | SPending => 1 end.
Definition stream_reads (s : recv_stream) : nat := S (S (sum_list (event_reads <$> events s))).

(** [RecvState]: the fast-open future (the buffer it has read so far, or
    already completed), and the established state. *)
Inductive RecvState :=
| AwaitingResponse (fut : option (list byte)) (recv : recv_stream)
| Established (recv : recv_stream) (leftover : list byte) (leftover_pos : nat).

(** The text of the [io::Error] a read reports. *)
Inductive read_error :=
| RResponse (e : response_error)
| RDial (message : rstr)
| RStream (text : rstr).

(** [TcpConn::poll_read] into [n] bytes of buffer: what is put there. Polling
    the deferred response again after it has failed resumes a completed future,
    which panics. *)
Definition poll_read_ready (n : nat) (recv : recv_stream) (leftover : list byte)
    (leftover_pos : nat) : outcome read_error (Poll (list byte)) * RecvState :=
  if decide (leftover_pos < length leftover) then
    let remaining := drop leftover_pos leftover in
    let k := Nat.min (length remaining) n in
    (Ok (Ready (take k remaining)), Established recv leftover (leftover_pos + k))
  else
    match stream_read n recv with
    | RBytes bytes recv => (Ok (Ready bytes), Established recv leftover leftover_pos)
    | RPending recv => (Ok Pending, Established recv leftover leftover_pos)
    | REnd =>
      (match ending recv with SFin => Ok (Ready []) | SBroken t => Err (RStream t) end,
       Established recv leftover leftover_pos)
    end.

Definition poll_read (n : nat) (st : RecvState) : outcome read_error (Poll (list byte)) * RecvState :=
  match st with
  | AwaitingResponse None recv => (Panic, st)
  | AwaitingResponse (Some buf) recv =>
    match read_tcp_response (stream_reads recv) buf recv with
    | None => (Panic, st)
    | Some (RespPending buf recv) => (Ok Pending, AwaitingResponse (Some buf) recv)
    | Some (RespDone (Ok (ok, msg)) leftover recv) =>
      if ok then poll_read_ready n recv leftover 0
      else (Err (RDial msg), AwaitingResponse None recv)
    | Some (RespDone (Err e) _ recv) => (Err (RResponse e), AwaitingResponse None recv)
    | Some (RespDone Panic _ recv) => (Panic, AwaitingResponse None recv)
    end
  | Established recv leftover leftover_pos => poll_read_ready n recv leftover leftover_pos
  end.

(** [TcpConn], over quinn's send stream: reads fill the caller's buffer, writes
    are the stream's. *)
Section tcp_conn.
Context {S : Type} `{!AsyncWrite S read_error}.

Record TcpConn := { send : S; recv : RecvState }.

#[global] Instance tcp_conn_read : AsyncRead TcpConn read_error := fun buf c =>
  let '(r, st) := poll_read (remaining buf) (recv c) in
  let c := {| send := send c; recv := st |} in
  match r with
  | Ok Pending => (Pending, buf, c)
  | Ok (Ready out) => (Ready (Ok ()), put_slice out buf, c)
  | Err e => (Ready (Err e), buf, c)
  | Panic => (Ready Panic, buf, c)
  end.

Definition on_send {A} (f : S → Poll (outcome read_error A) * S) (c : TcpConn) :
    Poll (outcome read_error A) * TcpConn :=
  let '(r, s) := f (send c) in (r, {| send := s; recv := recv c |}).
#[global] Instance tcp_conn_write : AsyncWrite TcpConn read_error := {|
  poll_write data := on_send (poll_write data);
  poll_flush := on_send poll_flush;
  poll_shutdown := on_send poll_shutdown;
|}.
End tcp_conn.
Arguments TcpConn : clear implicits.

(** [Client::tcp]: the request sent and the connection, given the stream pair
    [open_bi] gave (or the error it reported) and whether the write succeeds.
    Without fast open it waits for the response, so the waits in the stream are
    skipped. *)
Inductive tcp_error :=
| TClosed (e : ClosedError)
| TIo (e : io_error)
| TWrite (text : rstr)
| TResponse (e : response_error)
| TDial (e : DialError).

Fixpoint await_response (polls : nat) (buf : list byte) (s : recv_stream) :
    option (outcome response_error (bool * rstr) * list byte * recv_stream) :=
  match polls with
  | O => None
  | S polls =>
    p ← read_tcp_response (stream_reads s) buf s;
    match p with
    | RespPending buf s => await_response polls buf s
    | RespDone r leftover s => Some (r, leftover, s)
    end
  end.

Definition tcp (rng : nat → Z) (fast_open : bool) (addr : rstr)
    (open_bi : outcome rstr recv_stream) (write_all : list byte → outcome rstr ()) :
    outcome tcp_error RecvState :=
  recv ← map_err (λ t, TClosed {| closed_err := Some t |}) open_bi;
  request ← map_err TIo (Proxy.write_tcp_request rng addr);
  _ ← map_err (λ t, TWrite (lit "write TCP request: " ++ t)) (write_all request);
  if (fast_open : bool) then Ok (AwaitingResponse (Some []) recv)
  else
    '(r, leftover, recv) ← or_panic (await_response (S (length (events recv))) [] recv);
    '(ok, msg) ← map_err TResponse r;
    if (ok : bool) then Ok (Established recv leftover 0)
    else Err (TDial {| dial_message := msg |}).

(** ** [QuinnUdpIo] *)

Inductive SendDatagramError := QTooLarge | QOther (text : rstr).

(** A QUIC connection's datagram service. [datagram_limit] is the largest
    datagram the path takes; what fits is handed to the peer in order. *)
Class Datagrams (C : Type) := {
  send_datagram : list byte → C → outcome SendDatagramError () * C;
  max_datagram_size : C → option nat;
  datagrams_sent : C → list (list byte);
  send_datagram_fits b c n :
    max_datagram_size c = Some n → length b ≤ n →
    ∃ c', send_datagram b c = (Ok (), c') ∧ max_datagram_size c' = Some n ∧
      datagrams_sent c' = datagrams_sent c ++ [b];
  send_datagram_too_large b c n :
    max_datagram_size c = Some n → n < length b →
    ∃ c', send_datagram b c = (Err QTooLarge, c') ∧ max_datagram_size c' = Some n ∧
      datagrams_sent c' = datagrams_sent c;
}.

Section quinn_udp_io.
Context `{Datagrams C}.

(** [send_message]; the state is the caller's scratch buffer and the
    connection. *)
Definition send_message (m : Proxy.UdpMessage) : stm (list byte * C) UdpSession.SendError () :=
  fun '(buf, c) =>
  match Proxy.serialize m buf with
  | Ok None => (Ok (), (buf, c))
  | Ok (Some (buf, n)) =>
    match or_panic (slice_to buf n) with
    | Ok bytes =>
      let '(r, c) := send_datagram bytes c in
      (match r with
       | Ok _ => Ok ()
       | Err QTooLarge =>
         match max_datagram_size c with
         | Some max_payload_size => Err (UdpSession.TooLarge max_payload_size)
         | None => Err (UdpSession.SendIo (OtherIo
             (lit "datagram too large but max datagram size is unknown")))
         end
       | Err (QOther e) => Err (UdpSession.SendIo (OtherIo e))
       | Panic => Panic
       end, (buf, c))
    | Err e => (Err e, (buf, c))
    | Panic => (Panic, (buf, c))
    end
  | Err e => (Err e, (buf, c))
  | Panic => (Panic, (buf, c))
  end.

(** [receive_message] over the results [read_datagram] will give: the message
    and what is left to read; [None] is still waiting. *)
Fixpoint receive_message (reads : list (outcome rstr (list byte))) :
    option (outcome io_error Proxy.UdpMessage) * list (outcome rstr (list byte)) :=
  match reads with
  | [] => (None, [])
  | Ok datagram :: reads =>
    match Proxy.parse_udp_message datagram with
    | Ok msg => (Some (Ok msg), reads)
    | _ => receive_message reads
    end
  | Err e :: reads => (Some (Err (OtherIo e)), reads)
  | Panic :: reads => (Some Panic, reads)
  end.
End quinn_udp_io.

(** ** The response reader, whatever the chunking *)

Definition stream_bytes (s : recv_stream) : list byte :=
  concat ((λ e, match e with SData b => b | SPending => [] end) <$> events s).

Lemma stream_read_bytes n s bytes s' :
  stream_read n s = RBytes bytes s' →
  stream_bytes s = bytes ++ stream_bytes s' ∧ ending s' = ending s ∧ length bytes ≤ n ∧
  length (events s') ≤ length (events s) ∧ (0 < n → stream_reads s' < stream_reads s) ∧
  (SData [] ∉ events s → SData [] ∉ events s').
Proof.
  unfold stream_read, stream_bytes, stream_reads. destruct s as [[|[b|] es] e]; [done| |done].
  cbn [events ending]. intros [= <- <-]. cbn [events ending].
  rewrite length_take. split_and!; [|done|lia| | |].
  - case_decide.
    + cbn [fmap list_fmap concat]. by rewrite app_assoc, take_drop.
    + cbn [fmap list_fmap concat]. by rewrite take_ge by lia.
  - case_decide; cbn [length]; lia.
  - intros Hn. case_decide; cbn; [rewrite length_drop|]; lia.
  - intros Hne. case_decide as Hl; [|set_solver].
    intros [He|Hin]%elem_of_cons; [|set_solver]. injection He as He.
    apply (f_equal length) in He. rewrite length_drop in He. cbn in He. lia.
Qed.

Lemma stream_read_pending n s s' :
  stream_read n s = RPending s' →
  stream_bytes s' = stream_bytes s ∧ ending s' = ending s ∧
  length (events s') < length (events s) ∧ (SData [] ∉ events s → SData [] ∉ events s').
Proof.
  unfold stream_read, stream_bytes, stream_reads. destruct s as [[|[b|] es] e]; [done|done|].
  intros [= <-]. cbn. split_and!; [done..|lia|set_solver].
Qed.

Lemma stream_read_end n s : stream_read n s = REnd → events s = [] ∧ stream_bytes s = [].
Proof. by destruct s as [[|[b|] es] e]. Qed.

(** What the reader must answer when the stream holds [bs] in all. *)
Definition response_spec (bs : list byte) (e : stream_end) (r : outcome response_error (bool * rstr))
    (rest : list byte) : Prop :=
  match Proxy.read_tcp_response bs with
  | Ok (resp, rest') => r = Ok resp ∧ rest = rest'
  | Err UnexpectedEof => r = Err (match e with SFin => REclosed | SBroken t => REbroken t end)
  | Err e => r = Err (REio e)
  | Panic => False
  end.

Lemma read_tcp_response_poll fuel buf s :
  stream_reads s ≤ fuel →
  match read_tcp_response fuel buf s with
  | Some (RespPending buf' s') =>
    buf' ++ stream_bytes s' = buf ++ stream_bytes s ∧ ending s' = ending s ∧
    length (events s') < length (events s) ∧ (SData [] ∉ events s → SData [] ∉ events s')
  | Some (RespDone r leftover s') =>
    response_spec (buf ++ stream_bytes s) (ending s) r (leftover ++ stream_bytes s') ∧
    (SData [] ∉ events s → SData [] ∉ events s') ∧ ending s' = ending s ∧
    length (events s') ≤ length (events s)
  | None => False
  end.
Proof.
  revert buf s. induction fuel as [|fuel IH]; intros buf s Hf; [unfold stream_reads in Hf; lia|].
  cbn [read_tcp_response].
  destruct (Proxy.read_tcp_response buf) as [[resp rest]|e|] eqn:Hp.
  - unfold response_spec. by rewrite (sp_ok_mono _ _ _ (stream_bytes s) Hp).
  - destruct (decide (e = UnexpectedEof)) as [->|He].
    2:{ assert (response_spec (buf ++ stream_bytes s) (ending s) (Err (REio e)) ([] ++ stream_bytes s)).
        { unfold response_spec. rewrite (sp_err_mono _ _ (stream_bytes s) Hp He). by destruct e. }
        by destruct e. }
    destruct (stream_read CHUNK s) as [s'| |bytes s'] eqn:Hs.
    + apply stream_read_pending in Hs as (-> & -> & Hl & Hne). done.
    + apply stream_read_end in Hs as [_ Hb]. unfold response_spec. rewrite Hb, app_nil_r, Hp. done.
    + apply stream_read_bytes in Hs as (Hb & He & _ & Hl & Hd & Hne).
      specialize (Hd ltac:(unfold CHUNK; lia)).
      specialize (IH (buf ++ bytes) s' ltac:(lia)). rewrite <-app_assoc, <-Hb, He in IH.
      destruct (read_tcp_response fuel (buf ++ bytes) s') as [[]|]; [| |done].
      * destruct IH as (? & ? & ? & ?). split_and!; [done..|lia|auto].
      * destruct IH as (? & ? & ? & ?). split_and!; [done|auto|done|lia].
  - by apply sp_no_panic in Hp.
Qed.

Lemma await_response_ok polls buf s :
  length (events s) < polls →
  ∃ r leftover s', await_response polls buf s = Some (r, leftover, s') ∧
    response_spec (buf ++ stream_bytes s) (ending s) r (leftover ++ stream_bytes s') ∧
    (SData [] ∉ events s → SData [] ∉ events s') ∧ ending s' = ending s ∧
    length (events s') ≤ length (events s).
Proof.
  revert buf s. induction polls as [|polls IH]; intros buf s Hl; [lia|].
  cbn [await_response]. pose proof (read_tcp_response_poll (stream_reads s) buf s (le_n _)) as Hp.
  destruct (read_tcp_response _ _ _) as [[buf' s'|r leftover s']|]; [| |done]; cbn [mbind option_bind].
  - destruct Hp as (Hb & He & Hlt & Hne). rewrite <-Hb, <-He.
    destruct (IH buf' s' ltac:(lia)) as (r & leftover & s'' & Ha & Hr & Hne' & He' & Hl').
    exists r, leftover, s''. split_and!; [done..|auto|done|lia].
  - by eexists _, _, _.
Qed.

(** ** Reading from an established or a fast-open connection *)

(** The proxied bytes a connection still has to deliver; [None] when the server
    has refused the request or its answer is not a response. *)
Definition residual (st : RecvState) : option (list byte) :=
  match st with
  | Established recv leftover pos => Some (drop pos leftover ++ stream_bytes recv)
  | AwaitingResponse (Some buf) recv =>
    match Proxy.read_tcp_response (buf ++ stream_bytes recv) with
    | Ok ((true, _), rest) => Some rest
    | _ => None
    end
  | AwaitingResponse None _ => None
  end.

Definition no_empty_data (st : RecvState) : Prop :=
  match st with
  | Established recv _ _ | AwaitingResponse _ recv => SData [] ∉ events recv
  end.

Lemma poll_read_ready_ok n recv leftover pos r st' :
  poll_read_ready n recv leftover pos = (r, st') →
  match r with
  | Ok (Ready out) => residual (Established recv leftover pos) = (out ++.) <$> residual st' ∧
      length out ≤ n ∧
      (0 < n → SData [] ∉ events recv → out = [] → ending recv = SFin ∧
         residual (Established recv leftover pos) = Some [])
  | Ok Pending | Err (RStream _) => residual st' = residual (Established recv leftover pos)
  | _ => False
  end.
Proof.
  unfold poll_read_ready. case_decide as Hp.
  - intros [= <- <-]. cbn [residual fmap option_fmap option_map]. split_and!.
    + rewrite <-drop_drop. f_equal. by rewrite app_assoc, take_drop.
    + rewrite length_take. lia.
    + intros Hn _ He. apply (f_equal length) in He. rewrite length_take, length_drop in He.
      cbn [length] in He. lia.
  - destruct (stream_read n recv) as [s'| |bytes s'] eqn:Hs.
    + intros [= <- <-]. apply stream_read_pending in Hs as (Hb & _). cbn. by rewrite Hb.
    + apply stream_read_end in Hs as [Hev Hb]. cbn [residual].
      destruct (ending recv) eqn:He; intros [= <- <-]; [|done]. split_and!; [done|cbn; lia|].
      intros _ _ _. split; [done|]. rewrite Hb, app_nil_r, drop_ge by lia. done.
    + intros [= <- <-]. pose proof (stream_read_bytes _ _ _ _ Hs) as (Hb & He & Hl & _).
      cbn [residual fmap option_fmap option_map]. rewrite (drop_ge leftover) by lia.
      split_and!; [by rewrite Hb|done|]. intros Hn Hne ->.
      unfold stream_read in Hs. destruct recv as [[|[b|] es] e]; try done. cbn in *.
      injection Hs as Hb0 <-. destruct b as [|x b]; [by destruct Hne; left|].
      destruct n; [lia|done].
Qed.

Lemma residual_awaiting buf recv r leftover s' :
  response_spec (buf ++ stream_bytes recv) (ending recv) r (leftover ++ stream_bytes s') →
  residual (AwaitingResponse (Some buf) recv) =
  match r with Ok (true, _) => Some (leftover ++ stream_bytes s') | _ => None end.
Proof.
  unfold response_spec. cbn [residual].
  destruct (Proxy.read_tcp_response _) as [[[[] m] rest]|e|]; [by intros [-> ?]; subst..| |done].
  intros Hr. assert (∃ x, r = Err x) as [x ->] by (destruct e; eauto). done.
Qed.

(** Reading the response does not depend on how the stream is cut into
    chunks or where it stalls: the awaited answer is the one the parser gives on
    all the bytes, an incomplete one being the stream's end, and on success the
    bytes after the response are kept, in order, split between the leftover and
    the stream. *)
Theorem await_response_chunking (s : recv_stream) :
  ∃ r leftover s', await_response (S (length (events s))) [] s = Some (r, leftover, s') ∧
    match Proxy.read_tcp_response (stream_bytes s) with
    | Ok (resp, rest) => r = Ok resp ∧ leftover ++ stream_bytes s' = rest
    | Err UnexpectedEof =>
      r = Err (match ending s with SFin => REclosed | SBroken t => REbroken t end)
    | Err e => r = Err (REio e)
    | Panic => False
    end.
Proof.
  destruct (await_response_ok (S (length (events s))) [] s ltac:(lia)) as (r & l & s' & Ha & Hr & _).
  exists r, l, s'. split; [done|]. exact Hr.
Qed.

(** A connection delivers the proxied byte stream exactly: each read hands
    out a prefix of what remains (at most the buffer), a wait loses nothing, an
    end of file is reported only when nothing remains, and a fast-open
    connection whose request was refused, or whose response is not one,
    delivers no byte at all. *)
Theorem poll_read_stream (n : nat) (st st' : RecvState) (r : outcome read_error (Poll (list byte)))
    (Hr : poll_read n st = (r, st')) :
  match residual st with
  | Some bs =>
    match r with
    | Ok (Ready out) => residual st' = Some (drop (length out) bs) ∧
        out = take (length out) bs ∧ length out ≤ n ∧
        (0 < n → no_empty_data st → out = [] → bs = [])
    | Ok Pending | Err (RStream _) => residual st' = Some bs
    | _ => False
    end
  | None => match r with Ok (Ready _) => False | _ => residual st' = None end
  end.
Proof.
  destruct st as [[buf|] recv|recv leftover pos].
  2:{ cbn in Hr. by injection Hr as <- <-. }
  - cbn [poll_read] in Hr.
    pose proof (read_tcp_response_poll (stream_reads recv) buf recv (le_n _)) as Hp.
    destruct (read_tcp_response _ _ _) as [[buf' s'|res leftover s']|]; [| |done].
    + injection Hr as <- <-. destruct Hp as (Hb & He & _). cbn [residual]. rewrite Hb.
      by destruct (Proxy.read_tcp_response _) as [[[[] ?] ?]| |].
    + destruct Hp as (Hp & Hne & _). rewrite (residual_awaiting _ _ _ _ _ Hp).
      destruct res as [[[] m]|e|]; [|by injection Hr as <- <-..].
      apply poll_read_ready_ok in Hr. cbn [residual] in Hr. rewrite drop_0 in Hr.
      destruct r as [[|out]|[]|]; try done.
      destruct Hr as (Hres & Hl & Heof). destruct (residual st') as [bs'|]; [|done].
      injection Hres as Hres. rewrite Hres, drop_app_length, take_app_length.
      split_and!; [done..|]. intros Hn Hnd ->. rewrite Hres in Heof.
      by destruct (Heof Hn (Hne Hnd) eq_refl) as [_ [= ?]].
  - cbn [poll_read] in Hr. apply poll_read_ready_ok in Hr.
    destruct r as [[|out]|[]|]; try done.
    destruct Hr as (Hres & Hl & Heof). cbn [residual] in *.
    destruct (residual st') as [bs'|]; [|done].
    injection Hres as Hres. rewrite Hres, drop_app_length, take_app_length.
    split_and!; [done..|]. intros Hn Hne ->. rewrite Hres in Heof.
    by destruct (Heof Hn Hne eq_refl) as [_ [= ?]].
Qed.

(** C40: Reading a fast-open connection again after the deferred response has
    failed (refused, malformed, or cut short) panics: the completed future is
    polled once more. *)
Theorem read_after_failed_response_panics (n n' : nat) (buf : list byte) (recv : recv_stream)
    (e : read_error) (st' : RecvState)
    (Hr : poll_read n (AwaitingResponse (Some buf) recv) = (Err e, st'))
    (He : ∀ t, e ≠ RStream t) :
  (poll_read n' st').1 = Panic.
Proof.
  cbn [poll_read] in Hr.
  destruct (read_tcp_response _ _ _) as [[|[[[] m]|x|] leftover s']|]; try done.
  2,3: by injection Hr as <- <-.
  unfold poll_read_ready in Hr. case_decide; [done|].
  destruct (stream_read n s'); try done. destruct (ending s'); [done|].
  injection Hr as <- <-. by destruct (He text).
Qed.

(** ** [QuinnUdpIo] keeps the session layer's contract *)

Section quinn_laws.
Context `{Datagrams C}.

(** The messages a peer parses from the datagrams a connection has sent. *)
Definition parsed (bs : list (list byte)) : list Proxy.UdpMessage :=
  omap (λ b, match Proxy.parse_udp_message b with Ok m => Some m | _ => None end) bs.
Definition io_log (s : list byte * C) : list Proxy.UdpMessage := parsed (datagrams_sent s.2).
Definition io_ok (path_max : nat) (s : list byte * C) : Prop :=
  length s.1 = Proxy.MAX_UDP_SIZE ∧ max_datagram_size s.2 = Some path_max.

(** [send_message] of a message that fits the scratch buffer is
    [send_datagram] of its wire form. *)
Lemma send_message_fits m buf c :
  length buf = Proxy.MAX_UDP_SIZE → Proxy.size m ≤ Proxy.MAX_UDP_SIZE →
  ∃ buf', length buf' = Proxy.MAX_UDP_SIZE ∧
    send_message m (buf, c) =
    (let '(r, c) := send_datagram (Proxy.udp_message_bytes m) c in
     (match r with
      | Ok _ => Ok ()
      | Err QTooLarge =>
        match max_datagram_size c with
        | Some max_payload_size => Err (UdpSession.TooLarge max_payload_size)
        | None => Err (UdpSession.SendIo (OtherIo
            (lit "datagram too large but max datagram size is unknown")))
        end
      | Err (QOther e) => Err (UdpSession.SendIo (OtherIo e))
      | Panic => Panic
      end, (buf', c))).
Proof.
  intros Hb Hs. exists (Proxy.over (Proxy.udp_message_bytes m) buf).
  assert (Hl : length (Proxy.udp_message_bytes m) = Proxy.size m)
    by apply Proxy.length_udp_message_bytes.
  split; [by rewrite Proxy.length_over by lia|].
  unfold send_message. rewrite Proxy.serialize_bytes; [| |lia].
  2:{ unfold Proxy.size, Proxy.header_size, Proxy.MAX_UDP_SIZE, Varint.MAX_VAR_INT8 in *. lia. }
  rewrite <-Hl. unfold Proxy.over. by rewrite slice_to_app.
Qed.

(** [QuinnUdpIo] implements what the session layer asks of a transport
    over any datagram service: a message that fits the path reaches the peer
    as itself, after all earlier ones; one that exceeds the path is refused
    with the path's limit and sends nothing; one that exceeds the 4096-byte
    scratch buffer is dropped without an error. *)
#[export] Instance quinn_udp_io (path_max : nat) :
  UdpSession.UdpIo send_message path_max io_log (io_ok path_max).
Proof.
  split.
  - intros m [buf c] [Hb Hm] (Hwf & Ha & Hd) Hs Hp. cbn [fst snd] in *.
    destruct (send_message_fits m buf c Hb Hs) as (buf' & Hb' & ->).
    destruct (send_datagram_fits (Proxy.udp_message_bytes m) c path_max Hm) as (c' & -> & Hm' & Hsent).
    { by rewrite Proxy.length_udp_message_bytes. }
    eexists. split; [done|]. split; [|done]. unfold io_log, parsed. cbn [snd].
    rewrite Hsent, omap_app. cbn [omap list_omap]. by rewrite Proxy.parse_udp_message_bytes.
  - intros m [buf c] [Hb Hm] _ Hs Hp. cbn [fst snd] in *.
    destruct (send_message_fits m buf c Hb Hs) as (buf' & Hb' & ->).
    destruct (send_datagram_too_large (Proxy.udp_message_bytes m) c path_max Hm)
      as (c' & -> & Hm' & Hsent).
    { by rewrite Proxy.length_udp_message_bytes. }
    rewrite Hm'. eexists. split; [done|]. split; [|done]. unfold io_log. cbn [snd]. by rewrite Hsent.
  - intros m [buf c] [Hb Hm] Hs. cbn [fst snd] in *. exists (buf, c). unfold send_message.
    unfold Proxy.serialize. by rewrite decide_True by lia.
Qed.

(** The receive side skips what is not a message and keeps the order: the
    first read of a sequence of datagrams is its first well-formed message, and
    reading on gives the rest. *)
Lemma receive_message_skips (reads : list (list byte)) :
  match parsed reads with
  | [] => receive_message (Ok <$> reads) = (None, [])
  | m :: ms => ∃ rest, receive_message (Ok <$> reads) = (Some (Ok m), Ok <$> rest) ∧
      parsed rest = ms ∧ length rest < length reads
  end.
Proof.
  induction reads as [|b reads IH]; [done|]. cbn. fold (parsed reads).
  destruct (Proxy.parse_udp_message b) as [m| |]; [exists reads; split_and!; [done..|lia]| |];
    (destruct (parsed reads); [done|]; destruct IH as (rest & ? & ? & ?);
     exists rest; split_and!; [done..|lia]).
Qed.
End quinn_laws.

(** ** Connecting *)

Lemma lift_map_err_ok {St E F A} (f : E → F) (m : outcome E A) (s s' : St) a :
  lift (map_err f m) s = (Ok a, s') ↔ m = Ok a ∧ s' = s.
Proof. unfold lift. destruct m; cbn; naive_solver. Qed.

Lemma lift_map_err_err {St E F A} (f : E → F) (m : outcome E A) (s s' : St) x :
  @lift St F A (map_err f m) s = (Err x, s') ↔ ∃ e, m = Err e ∧ x = f e ∧ s' = s.
Proof. unfold lift. destruct m; cbn; naive_solver. Qed.

Lemma set_ip_canonical a :
  to_canonical (ip (set_ip a (to_canonical (ip a)))) = ip (set_ip a (to_canonical (ip a))).
Proof.
  destruct a as [[z|z] p f s]; unfold set_ip, to_canonical; cbn [ip]; [done|].
  destruct (Z.shiftr z 32 =? 65535)%Z eqn:Hz; cbn [ip socket_addr]; [done|by rewrite Hz].
Qed.

Section connect_laws.
Context `{Quic}.

(** The configuration [connect] works with: defaults filled, the server's
    address canonical. *)
Definition effective_config (config : ClientConfig.Config) : ClientConfig.Config :=
  let c := ClientConfig.fill_defaults config in
  {| ClientConfig.server_addr := set_ip (ClientConfig.server_addr c)
       (to_canonical (ip (ClientConfig.server_addr c)));
     ClientConfig.auth := ClientConfig.auth c; ClientConfig.tls := ClientConfig.tls c;
     ClientConfig.quic := ClientConfig.quic c; ClientConfig.bandwidth := ClientConfig.bandwidth c;
     ClientConfig.fast_open := ClientConfig.fast_open c; ClientConfig.obfs := ClientConfig.obfs c;
     ClientConfig.hop_ports := ClientConfig.hop_ports c;
     ClientConfig.hop_interval := ClientConfig.hop_interval c |}.

(** What the server answers to the configuration's credential. *)
Definition answered (rng : nat → Z) (c : ClientConfig.Config) : outcome rstr (Z * headers) :=
  exchange (Http.auth_request_to_header headers_new
    {| Http.auth := ClientConfig.auth c;
       Http.req_rx := ClientConfig.max_rx (ClientConfig.bandwidth c) |} rng).

Lemma authenticate_run rng c log r log' :
  authenticate rng c log = (r, log') →
  match r with
  | Ok info => log' = log ∧ ∃ response,
      answered rng c = Ok (Http.STATUS_AUTH_OK, response) ∧
      let resp := Http.auth_response_from_header response in
      ao_udp_enabled info = Http.udp_enabled resp ∧
      ao_tx info = effective_tx (Http.rx_auto resp) (Http.resp_rx resp)
                     (ClientConfig.max_tx (ClientConfig.bandwidth c))
  | Err (AnyAuth _) => log' = log ++ [CLOSE_ERR_CODE_PROTOCOL_ERROR] ∧
      ∃ status response, answered rng c = Ok (status, response) ∧ status ≠ Http.STATUS_AUTH_OK
  | Err (AnyOther _) => log' = log ∧ ∃ e, answered rng c = Err e
  | Panic => True
  end.
Proof.
  unfold authenticate, answered, mbind, stm_bind, lift, throw, close_conn, modify.
  destruct (exchange _) as [[status response]|e|]; cbn [map_err];
    [|intros [= <- <-]; split; [done|by exists e]|by intros [= <- <-]].
  case_bool_decide as Hs; [intros [= <- <-]; split; [done|by exists status, response]|].
  subst status. intros [= <- <-]. split; [done|]. by exists response.
Qed.

Lemma connect_run dbg rng d config :
  ClientConfig.unsigned_hop config → ClientConfig.problems config = [] →
  connect dbg rng d config =
    let c := effective_config config in
    client_config ← lift (map_err FConfig (build_quic_client_config c));
    endpoint ← lift (map_err FUnreachable
                 (build_endpoint dbg d (bind_addr (ClientConfig.server_addr c)) c));
    _ ← lift (map_err FUnreachable (connect_with client_config (ClientConfig.server_addr c)
          (ClientConfig.server_name (ClientConfig.tls c))));
    _ ← lift (map_err categorize_handshake handshake);
    info ← map_err_m categorize_auth (authenticate rng c);
    mret ({| client_endpoint := endpoint;
             udp_sm := if ao_udp_enabled info then Some UdpSession.new else None;
             fast_open := ClientConfig.fast_open c |},
          {| udp_enabled := ao_udp_enabled info; tx := ao_tx info;
             server_addr := ClientConfig.server_addr c |}).
Proof.
  intros Hu Hp.
  pose proof (ClientConfig.verify_and_fill_run config Hu) as Hv. rewrite Hp in Hv.
  unfold connect. by rewrite Hv.
Qed.

Lemma build_quic_verifier config qc :
  build_quic_client_config config = Ok qc →
  Tls.server_cert_verifier (crypto qc) = Tls.verifier_for (ClientConfig.tls config).
Proof.
  unfold build_quic_client_config. intros Hb.
  apply bind_ok_inv in Hb as (rc & Hrc & Hb). apply bind_ok_inv in Hb as (_ & _ & Hb).
  apply bind_ok_inv in Hb as (srw & _ & Hb). apply bind_ok_inv in Hb as (rw & _ & Hb).
  apply bind_ok_inv in Hb as (idle & _ & [= <-]). cbn.
  apply Tls.built_verifier. destruct (Tls.build_rustls_client_config _) as [x|x|]; [|done..]. by injection Hrc as ->.
Qed.

Lemma connect_invalid dbg rng d config log r log' :
  ClientConfig.unsigned_hop config → ClientConfig.problems config ≠ [] →
  connect dbg rng d config log = (r, log') →
  log' = log ∧ ∃ e, r = Err (FConfig e).
Proof.
  intros Hu Hp. pose proof (ClientConfig.verify_and_fill_run config Hu) as Hv.
  destruct (ClientConfig.problems config); [done|]. destruct Hv as (x & c' & Hv).
  unfold connect. rewrite Hv. intros [= <- <-]. eauto.
Qed.

(** The stages of a successful connection. *)
Lemma connect_stages dbg rng d config log client info log' :
  ClientConfig.unsigned_hop config → connect dbg rng d config log = (Ok (client, info), log') →
  let c := effective_config config in
  ClientConfig.validated (ClientConfig.fill_defaults config) ∧ log' = log ∧ ∃ qc response,
    build_quic_client_config c = Ok qc ∧
    build_endpoint dbg d (bind_addr (ClientConfig.server_addr c)) c = Ok (client_endpoint client) ∧
    connect_with qc (ClientConfig.server_addr c) (ClientConfig.server_name (ClientConfig.tls c)) = Ok () ∧
    handshake = Ok () ∧
    exchange (Http.auth_request_to_header headers_new
      {| Http.auth := ClientConfig.auth c;
         Http.req_rx := ClientConfig.max_rx (ClientConfig.bandwidth c) |} rng)
      = Ok (Http.STATUS_AUTH_OK, response) ∧
    (let resp := Http.auth_response_from_header response in
     udp_enabled info = Http.udp_enabled resp ∧
     tx info = effective_tx (Http.rx_auto resp) (Http.resp_rx resp)
                 (ClientConfig.max_tx (ClientConfig.bandwidth c))) ∧
    server_addr info = ClientConfig.server_addr c ∧ fast_open client = ClientConfig.fast_open c ∧
    udp_sm client = if udp_enabled info then Some UdpSession.new else None.
Proof.
  intros Hu Hc c. destruct (decide (ClientConfig.problems config = [])) as [Hp|Hp].
  2:{ by destruct (connect_invalid _ _ _ _ _ _ _ Hu Hp Hc) as [_ [? ?]]. }
  rewrite (connect_run _ _ _ _ Hu Hp) in Hc. apply ClientConfig.problems_nil in Hp.
  fold c in Hc. cbv zeta in Hc.
  apply stm_bind_ok in Hc as (qc & s1 & [Hqc ->]%lift_map_err_ok & Hc).
  apply stm_bind_ok in Hc as (ep & s2 & [Hep ->]%lift_map_err_ok & Hc).
  apply stm_bind_ok in Hc as ([] & s3 & [Hcw ->]%lift_map_err_ok & Hc).
  apply stm_bind_ok in Hc as ([] & s4 & [Hh ->]%lift_map_err_ok & Hc).
  apply stm_bind_ok in Hc as (ao & s5 & Ha & Hc). injection Hc as <- <- <-.
  unfold map_err_m in Ha. destruct (authenticate rng c log) as [r s6] eqn:Hr.
  injection Ha as Ha <-. destruct r as [x| |]; [injection Ha as ->|done..].
  apply authenticate_run in Hr as (-> & response & Hx & Hr).
  split_and!; [done..|]. exists qc, response. by split_and!.
Qed.

(** Filling the defaults leaves these alone. *)
Lemma effective_same config :
  let c := effective_config config in
  ClientConfig.auth c = ClientConfig.auth config ∧ ClientConfig.bandwidth c = ClientConfig.bandwidth config ∧
  ClientConfig.tls c = ClientConfig.tls config ∧ ClientConfig.fast_open c = ClientConfig.fast_open config ∧
  ClientConfig.obfs c = ClientConfig.obfs config ∧ ClientConfig.hop_ports c = ClientConfig.hop_ports config ∧
  port (ClientConfig.server_addr c) = port (ClientConfig.server_addr config).
Proof.
  unfold effective_config, ClientConfig.fill_defaults.
  destruct config as [[[] ? ? ?] ? ? ? ? ? ? [] ?]; cbn; repeat case_match; done.
Qed.

(** C20: A successful connection: the configuration was valid, the dialled
    address is the canonical form of the configured one, the server is verified
    under its configured name, against the given certificate alone or else the
    platform's trust store, the handshake and
    the HTTP exchange succeeded with status 233 under the configured
    credential, nothing was closed, the reported transmit rate is 0 under
    bandwidth detection and otherwise the smaller of the two known bounds,
    and UDP sessions exist exactly when the server enabled them. *)
Theorem connect_ok (dbg : bool) (rng : nat → Z) (d : Z) (config : ClientConfig.Config)
    (log log' : list Z) (client : Client) (info : HandshakeInfo)
    (Hu : ClientConfig.unsigned_hop config)
    (Hc : connect dbg rng d config log = (Ok (client, info), log')) :
  ClientConfig.validated (ClientConfig.fill_defaults config) ∧ log' = log ∧
  server_addr info = ClientConfig.server_addr (effective_config config) ∧
  to_canonical (ip (server_addr info)) = ip (server_addr info) ∧
  handshake = Ok () ∧
  (∃ qc, Tls.server_cert_verifier (crypto qc) = Tls.verifier_for (ClientConfig.tls config) ∧
     connect_with qc (server_addr info) (ClientConfig.server_name (ClientConfig.tls config)) = Ok ()) ∧
  (udp_sm client = if udp_enabled info then Some UdpSession.new else None) ∧
  ∃ response,
    exchange (Http.auth_request_to_header headers_new
      {| Http.auth := ClientConfig.auth config;
         Http.req_rx := ClientConfig.max_rx (ClientConfig.bandwidth config) |} rng)
      = Ok (Http.STATUS_AUTH_OK, response) ∧
    let resp := Http.auth_response_from_header response in
    let client_tx := ClientConfig.max_tx (ClientConfig.bandwidth config) in
    udp_enabled info = Http.udp_enabled resp ∧
    tx info = if Http.rx_auto resp then 0%Z
              else if decide (Http.resp_rx resp = 0%Z) then client_tx
              else Z.min (Http.resp_rx resp) client_tx.
Proof.
  destruct (connect_stages _ _ _ _ _ _ _ _ Hu Hc) as (Hv & -> & qc & response & Hqc & _ & Hcw & Hh & Hx & Hr & Ha & _ & Hsm).
  destruct (effective_same config) as (Hfa & Hfb & Hft & _). rewrite Hfa, Hfb in Hx. rewrite Hfb in Hr.
  apply build_quic_verifier in Hqc. rewrite Hft in Hqc, Hcw. rewrite <-Ha in Hcw.
  destruct Hr as [Hru Hrt]. split_and!; [done..| |done| |done|].
  - rewrite Ha. apply set_ip_canonical.
  - by exists qc.
  - exists response. split; [done|]. split; [done|]. rewrite Hrt. unfold effective_tx.
    destruct (Http.rx_auto _); [done|]. case_decide as H0.
    + by rewrite H0.
    + bool_cases; cbn; lia.
Qed.

(** The stages that succeeded: the configuration is one QUIC takes; the dialling
    has begun, on an endpoint. *)
Definition configured (config : ClientConfig.Config) (qc : quic_client_config) : Prop :=
  ClientConfig.validated (ClientConfig.fill_defaults config) ∧
  build_quic_client_config (effective_config config) = Ok qc.
Definition bound (dbg : bool) (d : Z) (config : ClientConfig.Config) : outcome rstr endpoint :=
  build_endpoint dbg d (bind_addr (ClientConfig.server_addr (effective_config config)))
    (effective_config config).
Definition dialled (config : ClientConfig.Config) (qc : quic_client_config) : outcome rstr () :=
  connect_with qc (ClientConfig.server_addr (effective_config config))
    (ClientConfig.server_name (ClientConfig.tls config)).
Definition begun (dbg : bool) (d : Z) (config : ClientConfig.Config) (qc : quic_client_config) : Prop :=
  configured config qc ∧ is_ok (bound dbg d config) = true ∧ dialled config qc = Ok ().

(** Where a failed connection failed, and what it reports. *)
Inductive failed_at (dbg : bool) (rng : nat → Z) (d : Z) (config : ClientConfig.Config) : ConnError → Prop :=
| at_verify :
    ¬ ClientConfig.validated (ClientConfig.fill_defaults config) → failed_at dbg rng d config Unknown
| at_quic e :
    ClientConfig.validated (ClientConfig.fill_defaults config) →
    build_quic_client_config (effective_config config) = Err e → failed_at dbg rng d config Unknown
| at_endpoint qc e :
    configured config qc → bound dbg d config = Err e → failed_at dbg rng d config ServerUnreachable
| at_dial qc e :
    configured config qc → is_ok (bound dbg d config) = true → dialled config qc = Err e →
    failed_at dbg rng d config ServerUnreachable
| at_handshake qc e :
    begun dbg d config qc → handshake = Err e →
    failed_at dbg rng d config (if timed_out e then Timeout else ServerUnreachable)
| at_exchange qc e :
    begun dbg d config qc → handshake = Ok () → answered rng config = Err e →
    failed_at dbg rng d config ServerUnreachable
| at_status qc status response :
    begun dbg d config qc → handshake = Ok () → answered rng config = Ok (status, response) →
    status ≠ Http.STATUS_AUTH_OK → failed_at dbg rng d config AuthFailed.

Lemma answered_effective rng config : answered rng (effective_config config) = answered rng config.
Proof. unfold answered. by destruct (effective_same config) as (-> & -> & _). Qed.

Lemma connect_failed dbg rng d config log f log' :
  ClientConfig.unsigned_hop config → connect dbg rng d config log = (Err f, log') →
  failed_at dbg rng d config (from_failure f) ∧
  log' = log ++ match from_failure f with AuthFailed => [CLOSE_ERR_CODE_PROTOCOL_ERROR] | _ => [] end.
Proof.
  intros Hu Hc. destruct (decide (ClientConfig.problems config = [])) as [Hp|Hp].
  2:{ destruct (connect_invalid _ _ _ _ _ _ _ Hu Hp Hc) as [-> [e [= ->]]].
      cbn. rewrite app_nil_r. split; [|done]. apply at_verify. by rewrite <-ClientConfig.problems_nil. }
  rewrite (connect_run _ _ _ _ Hu Hp) in Hc. apply ClientConfig.problems_nil in Hp.
  destruct (effective_same config) as (_ & _ & Hft & _). cbv zeta in Hc. rewrite Hft in Hc.
  apply stm_bind_err in Hc as [(e & He & -> & ->)%lift_map_err_err
    |(qc & s1 & [Hqc ->]%lift_map_err_ok & Hc)].
  { cbn. rewrite app_nil_r. split; [by eapply at_quic|done]. }
  assert (Hcf : configured config qc) by done.
  apply stm_bind_err in Hc as [(e & He & -> & ->)%lift_map_err_err
    |(ep & s2 & [Hep ->]%lift_map_err_ok & Hc)].
  { cbn. rewrite app_nil_r. split; [by eapply at_endpoint|done]. }
  assert (Hb : is_ok (bound dbg d config) = true) by (unfold bound; by rewrite Hep).
  apply stm_bind_err in Hc as [(e & He & -> & ->)%lift_map_err_err
    |([] & s3 & [Hcw ->]%lift_map_err_ok & Hc)].
  { cbn. rewrite app_nil_r. split; [by eapply at_dial|done]. }
  assert (Hbg : begun dbg d config qc) by done.
  apply stm_bind_err in Hc as [(e & He & -> & ->)%lift_map_err_err
    |([] & s4 & [Hh ->]%lift_map_err_ok & Hc)].
  { pose proof (at_handshake dbg rng d config qc e Hbg He) as Hat. unfold categorize_handshake.
    destruct (timed_out e); cbn; by rewrite app_nil_r. }
  apply stm_bind_err in Hc as [Ha|(ao & s5 & _ & Hc)]; [|done].
  unfold map_err_m in Ha. destruct (authenticate rng (effective_config config) log) as [r s6] eqn:Hr.
  injection Ha as Ha <-. destruct r as [|x|]; [done|injection Ha as <-|done].
  apply authenticate_run in Hr. rewrite answered_effective in Hr. destruct x as [a|t]; cbn.
  - destruct Hr as (-> & status & response & Hx & Hst). split; [by eapply at_status|done].
  - destruct Hr as (-> & e & Hx). rewrite app_nil_r. split; [by eapply at_exchange|done].
Qed.

(** Another failure at another stage is impossible. *)
Lemma failed_at_unique dbg rng d config c1 c2 :
  failed_at dbg rng d config c1 → failed_at dbg rng d config c2 → c1 = c2.
Proof.
  intros H1' H2'. destruct H1', H2'; unfold begun, configured in *;
    repeat match goal with
      | Hx : _ ∧ _ |- _ => destruct Hx
      | Hx : is_ok ?m = true, Hy : ?m = Err _ |- _ => by rewrite Hy in Hx
      end; try done;
    repeat match goal with Hx : ?t = ?a, Hy : ?t = ?b |- _ =>
      first [constr_eq a b; clear Hy|rewrite Hx in Hy; simplify_eq] end; done.
Qed.

(** C21: A failed connection is put in the right category, by the first stage that
    fails: "unknown" exactly when the configuration is invalid or cannot be
    turned into a QUIC configuration; "timed out" exactly when the dialling had
    begun and the handshake timed out; "authentication failed" exactly when the
    handshake succeeded and the server answered the configured credential with
    a status other than 233; "server unreachable" exactly when the endpoint,
    the dialling, the handshake (otherwise than by a timeout) or the exchange
    failed. The connection is closed with the protocol-error code when
    authentication failed, and only then. *)
Theorem connect_failure_category (dbg : bool) (rng : nat → Z) (d : Z)
    (config : ClientConfig.Config) (log log' : list Z) (f : ConnectFailure)
    (Hu : ClientConfig.unsigned_hop config)
    (Hc : connect dbg rng d config log = (Err f, log')) :
  (from_failure f = Unknown ↔ ¬ ClientConfig.validated (ClientConfig.fill_defaults config) ∨
     ∃ e, build_quic_client_config (effective_config config) = Err e) ∧
  (from_failure f = ServerUnreachable ↔ ∃ qc, configured config qc ∧
     ((∃ e, bound dbg d config = Err e) ∨
      (is_ok (bound dbg d config) = true ∧ ∃ e, dialled config qc = Err e) ∨
      (begun dbg d config qc ∧ ((∃ e, handshake = Err e ∧ timed_out e = false) ∨
         (handshake = Ok () ∧ ∃ e, answered rng config = Err e))))) ∧
  (from_failure f = Timeout ↔ ∃ qc e, begun dbg d config qc ∧ handshake = Err e ∧ timed_out e = true) ∧
  (from_failure f = AuthFailed ↔ ∃ qc status response,
     begun dbg d config qc ∧ handshake = Ok () ∧ answered rng config = Ok (status, response) ∧
     status ≠ 233%Z) ∧
  log' = log ++ match from_failure f with AuthFailed => [CLOSE_ERR_CODE_PROTOCOL_ERROR] | _ => [] end.
Proof.
  destruct (connect_failed _ _ _ _ _ _ _ Hu Hc) as [Hat ->].
  assert (Huniq : ∀ c, failed_at dbg rng d config c → from_failure f = c).
  { intros c. by apply failed_at_unique. }
  split_and!; [split|split|split|split|done].
  - intros Hf. rewrite Hf in Hat. inversion Hat as [| | | |? e| |]; eauto. by destruct (timed_out e).
  - destruct (decide (ClientConfig.problems config = [])) as [Hv%ClientConfig.problems_nil|Hv].
    + intros [Hn|[e He]]; [done|]. apply Huniq. by eapply at_quic.
    + rewrite ClientConfig.problems_nil in Hv. intros _. apply Huniq. by apply at_verify.
  - intros Hf. rewrite Hf in Hat. inversion Hat as [| |qc e Hcf Hb|qc e Hcf Hb He|qc e Hb He Ht|qc e Hb Hh Hx|]; subst.
    + exists qc. eauto.
    + exists qc. eauto 6.
    + exists qc. split; [by destruct Hb|]. do 2 right. split; [done|]. left. exists e. by destruct (timed_out e).
    + exists qc. split; [by destruct Hb|]. do 2 right. split; [done|]. right. split; [done|]. by exists e.
  - intros (qc & Hcf & [[e He]|[[Hb [e He]]|[Hb [(e & He & Ht)|(Hh & e & He)]]]]); apply Huniq.
    + by eapply at_endpoint.
    + by eapply at_dial.
    + pose proof (at_handshake dbg rng d config qc e Hb He) as Hx. by rewrite Ht in Hx.
    + by eapply at_exchange.
  - intros Hf. rewrite Hf in Hat. inversion Hat as [| | | |qc e Hb He Ht| |]; subst.
    exists qc, e. by destruct (timed_out e).
  - intros (qc & e & Hb & He & Ht). apply Huniq.
    pose proof (at_handshake dbg rng d config qc e Hb He) as Hx. by rewrite Ht in Hx.
  - intros Hf. rewrite Hf in Hat. inversion Hat as [| | | |? e| |qc status response]; [by destruct (timed_out e)|].
    by exists qc, status, response.
  - intros (qc & status & response & Hb & Hh & Hx & Hst). apply Huniq. by eapply at_status.
Qed.

(** A hop layer over a config: what it hops over and where it pretends to be. *)
Definition hop_layer_ok (config : ClientConfig.Config) (s : Hop.HopUdpSocket)
    (h : ClientConfig.HopIntervalConfig) : Prop :=
  Hop.canonical s = ClientConfig.server_addr config ∧ h = ClientConfig.hop_interval config ∧
  Hop.index (Hop.state s) < length (Hop.addrs (Hop.state s)) ∧
  ∃ u, ClientConfig.hop_ports config = Some u ∧
    ∀ a, a ∈ Hop.addrs (Hop.state s) ↔
      ∃ p, PortUnion.contains u p = true ∧ a = socket_addr (ip (ClientConfig.server_addr config)) p.

Lemma hop_new_ok dbg d config addrs s :
  hop_addrs config = Some addrs →
  Hop.new (E := rstr) dbg (ClientConfig.server_addr config) addrs d = Ok s →
  hop_layer_ok config s (ClientConfig.hop_interval config).
Proof.
  unfold hop_addrs. destruct (ClientConfig.hop_ports config) as [u|] eqn:Hu; [|done].
  cbn [mbind option_bind]. case_bool_decide; [done|]. intros [= <-] Hn.
  unfold Hop.new in Hn. destruct (_ && _); [done|].
  apply bind_ok_inv in Hn as (i & Hi%Hop.random_index_ok & [= <-]).
  split_and!; [done|done|done|]. exists u. split; [done|]. intros a. cbn.
  rewrite list_elem_of_fmap. setoid_rewrite PortUnion.elem_of_ports.
  setoid_rewrite PortUnion.contains_covers. naive_solver.
Qed.

(** The layers an endpoint of a configuration has. *)
Definition layers_ok (bind : SocketAddr) (config : ClientConfig.Config) (ep : endpoint) : Prop :=
  match ep with
  | Plain b => b = bind ∧ ClientConfig.obfs config = None ∧ hop_addrs config = None
  | Layered b layers => b = bind ∧ ∃ inner outer, layers = inner ++ outer ∧
      match ClientConfig.obfs config with
      | None => inner = [] ∧ hop_addrs config ≠ None
      | Some psk => inner = [LObfs (Obfs.Build_SalamanderObfuscator psk)] ∧ 4 ≤ length psk
      end ∧
      match hop_addrs config with
      | None => outer = []
      | Some _ => ∃ s h, outer = [LHop s h] ∧ hop_layer_ok config s h
      end
  end.

Lemma build_endpoint_layers dbg d bind config ep :
  build_endpoint dbg d bind config = Ok ep → layers_ok bind config ep.
Proof.
  intros He. unfold layers_ok.
  unfold build_endpoint in He.
  assert (Hhop : ∀ layers ep', 
    (layers' ← match hop_addrs config with
      | Some addrs => (λ s, layers ++ [LHop s (ClientConfig.hop_interval config)]) <$>
          Hop.new (E := rstr) dbg (ClientConfig.server_addr config) addrs d
      | None => Ok layers
      end;
     _ ← inline_context (lit "create QUIC endpoint") (create_endpoint (Layered bind layers')); Ok (Layered bind layers')) = Ok ep' →
    ∃ outer, ep' = Layered bind (layers ++ outer) ∧
      match hop_addrs config with
      | None => outer = []
      | Some _ => ∃ s h, outer = [LHop s h] ∧ hop_layer_ok config s h
      end).
  { intros layers ep' H1. apply bind_ok_inv in H1 as (ls & Hls & H1).
    apply bind_ok_inv in H1 as (_ & _ & [= <-]).
    destruct (hop_addrs config) as [addrs|] eqn:Ha.
    - destruct (Hop.new _ _ _ _) as [s| |] eqn:Hs; try done. injection Hls as <-.
      eexists. split; [done|]. eexists _, _. split; [done|]. by eapply hop_new_ok.
    - injection Hls as <-. exists []. by rewrite app_nil_r. }
  destruct (ClientConfig.obfs config) as [psk|] eqn:Ho.
  - apply bind_ok_inv in He as (_ & _ & He). apply bind_ok_inv in He as (_ & _ & He).
    apply bind_ok_inv in He as (_ & _ & He).
    apply bind_ok_inv in He as (ls & Hls & He). apply Hhop in He as (outer & -> & Hout).
    unfold Obfs.new in Hls. case_decide; [done|]. injection Hls as <-.
    split; [done|]. eexists _, outer. split; [done|]. split; [|done].
    split; [done|]. unfold Obfs.PSK_MIN_LEN in *. lia.
  - destruct (hop_addrs config) as [addrs|] eqn:Ha.
    + apply bind_ok_inv in He as (_ & _ & He). apply bind_ok_inv in He as (_ & _ & He).
      apply bind_ok_inv in He as (_ & _ & He).
      cbn [mbind outcome_bind] in He. apply Hhop in He as (outer & -> & Hout).
      split; [done|]. by exists [], outer.
    + apply bind_ok_inv in He as (_ & _ & [= <-]). done.
Qed.

(** The socket stack: the plain UDP socket exactly when neither
    obfuscation nor hopping is configured; otherwise the obfuscation layer
    (with a key of at least 4 bytes) innermost and the hopping layer around
    it, hopping over exactly the configured ports at the server's address and
    posing as the server's address. *)
Theorem endpoint_layers (dbg : bool) (d : Z) (bind : SocketAddr)
    (config : ClientConfig.Config) (ep : endpoint)
    (He : build_endpoint dbg d bind config = Ok ep) :
  layers_ok bind config ep.
Proof. exact (build_endpoint_layers dbg d bind config ep He). Qed.

(** C39: A profile whose obfuscation key is too short to be usable is reported
    as an unreachable server, not as an invalid configuration: the key is
    first looked at when the endpoint is built. *)
Theorem short_psk_reported_unreachable (dbg : bool) (rng : nat → Z) (d : Z)
    (config : ClientConfig.Config) (log : list Z) (psk : list byte) (qc : quic_client_config)
    (Hu : ClientConfig.unsigned_hop config)
    (Hv : ClientConfig.validated (ClientConfig.fill_defaults config))
    (Hq : build_quic_client_config (effective_config config) = Ok qc)
    (Ho : ClientConfig.obfs config = Some psk) (Hl : length psk < 4)
    (Hs : let bind := bind_addr (ClientConfig.server_addr (effective_config config)) in
      default_runtime = true ∧ bind_udp_socket bind = Ok () ∧ wrap_udp_socket bind = Ok ()) :
  ∃ e, Obfs.new psk = Err e ∧
    connect dbg rng d config log = (Err (FUnreachable (config_error_display e)), log) ∧
    from_failure (FUnreachable (config_error_display e)) = ServerUnreachable.
Proof.
  apply ClientConfig.problems_nil in Hv. rewrite (connect_run _ _ _ _ Hu Hv). cbv zeta.
  rewrite Hq. unfold build_endpoint.
  assert (ClientConfig.obfs (effective_config config) = Some psk) as ->.
  { unfold effective_config, ClientConfig.fill_defaults. cbn.
    by destruct config as [? ? ? ? ? ? ? [] ?]. }
  cbv zeta in Hs. destruct Hs as (-> & Hb & Hw). rewrite Hb, Hw.
  unfold Obfs.new. rewrite decide_True by (unfold Obfs.PSK_MIN_LEN; lia).
  unfold mbind, stm_bind, lift. cbn [map_err outcome_bind fmap outcome_fmap inline_context].
  by eexists.
Qed.
End connect_laws.

(** ** Witnesses *)

(** A server that answers 233 with UDP enabled and a rate of 500. *)
Definition sample_response : gmap (list byte) rstr :=
  <[lit "hysteria-udp" := lit "true"]> (<[lit "hysteria-cc-rx" := lit "500"]> ∅).

(** A map that takes any name and value, under the lower-cased name. *)
#[local] Program Instance sample_headers : HeaderMap (gmap (list byte) rstr) := {|
  header_name := rstr;
  header_value := rstr;
  header_map_get h k := h !! (to_ascii_lowercase <$> k);
  header_map_insert h n v := <[n := v]> h;
  name_try_from k := Some (to_ascii_lowercase <$> k);
  value_try_from v := Some v;
  to_str v := Some v;
|}.
Next Obligation. intros h k n v [= <-]. apply lookup_insert_eq. Qed.
Next Obligation.
  intros h k k' n v [= <-] Hk. apply lookup_insert_ne. unfold eq_ignore_ascii_case in Hk.
  by apply bool_decide_eq_false in Hk.
Qed.
Next Obligation. by eauto. Qed.
Next Obligation. by eauto. Qed.

#[local] Program Instance any_rustls : Rustls := {|
  with_protocol_versions _ := Ok ();
  root_store_add ca roots := Ok (roots ++ [ca]);
  with_platform_verifier := Ok ();
|}.
Next Obligation. by intros ca roots roots' [= <-]. Qed.

Definition sample_quic (status : Z) : Quic := {|
  quic_rustls := any_rustls;
  quic_crypto _ := Ok ();
  default_runtime := true;
  bind_udp_socket _ := Ok ();
  wrap_udp_socket _ := Ok ();
  varint_from_u64 v := Ok v;
  idle_timeout_try_from v := Ok v;
  create_endpoint _ := Ok ();
  connect_with _ _ _ := Ok ();
  handshake := Ok ();
  headers := gmap (list byte) rstr;
  headers_map := sample_headers;
  headers_new := ∅;
  exchange _ := Ok (status, sample_response);
  varint_from_u64_spec _ _ := eq_refl;
  idle_timeout_spec _ _ := eq_refl;
|}.

Definition sample_config (obfs : option (list byte)) : ClientConfig.Config :=
  {| ClientConfig.server_addr := socket_addr (V6 0xffff7f000001) 443;
     ClientConfig.auth := lit "secret";
     ClientConfig.tls := {| ClientConfig.server_name := lit "h"; ClientConfig.ca := None |};
     ClientConfig.quic := ClientConfig.default_quic;
     ClientConfig.bandwidth := {| ClientConfig.max_tx := 1000; ClientConfig.max_rx := 0 |};
     ClientConfig.fast_open := false; ClientConfig.obfs := obfs;
     ClientConfig.hop_ports := Some [{| PortUnion.start := 7000; PortUnion.end_ := 7001 |}];
     ClientConfig.hop_interval := ClientConfig.default_hop_interval |}.

Lemma sample_unsigned obfs : ClientConfig.unsigned_hop (sample_config obfs).
Proof. split; by vm_compute. Defined.

Lemma connect_ok_witness :
  ∃ client info, @connect (sample_quic 233) true Z.of_nat 5 (sample_config None) [] = (Ok (client, info), []) ∧
    server_addr info = socket_addr (V4 0x7f000001) 443 ∧ tx info = 500%Z ∧
    ClientConfig.validated (ClientConfig.fill_defaults (sample_config None)).
Proof.
  eexists _, _. split; [vm_compute; reflexivity|]. split; [reflexivity|]. split; [reflexivity|].
  eapply (@connect_ok (sample_quic 233) true Z.of_nat 5 (sample_config None) [] []).
  - apply sample_unsigned.
  - vm_compute. reflexivity.
Defined.

Lemma connect_failure_category_witness :
  ∃ f, @connect (sample_quic 404) true Z.of_nat 5 (sample_config None) [] = (Err f, [0x101%Z]) ∧
    from_failure f = AuthFailed ∧ [0x101%Z] = [] ++ [CLOSE_ERR_CODE_PROTOCOL_ERROR] ∧
    ∃ response, @answered (sample_quic 404) Z.of_nat (sample_config None) = Ok (404%Z, response).
Proof.
  eexists. split; [vm_compute; reflexivity|]. split; [reflexivity|].
  edestruct (@connect_failure_category (sample_quic 404) true Z.of_nat 5 (sample_config None) [] [0x101%Z])
    as (_ & _ & _ & Ha & Hl).
  - apply sample_unsigned.
  - vm_compute. reflexivity.
  - split; [exact Hl|]. destruct (proj1 Ha eq_refl) as (qc & status & response & _ & _ & Hx & _).
    exists response. rewrite Hx. by injection Hx as <- _.
Defined.

Lemma endpoint_layers_witness :
  let bind := socket_addr (V4 0) 0 in
  ∃ layers, @build_endpoint (sample_quic 233) true 5 bind (sample_config (Some (lit "1234")))
    = Ok (Layered bind layers) ∧ length layers = 2 ∧
  ∃ inner outer, layers = inner ++ outer ∧
    (inner = [LObfs (Obfs.Build_SalamanderObfuscator (lit "1234"))] ∧ 4 ≤ length (lit "1234")) ∧
    ∃ s h, outer = [LHop s h] ∧ hop_layer_ok (sample_config (Some (lit "1234"))) s h.
Proof.
  cbv zeta. eexists. split; [vm_compute; reflexivity|]. split; [reflexivity|].
  eapply (@endpoint_layers (sample_quic 233) true 5 (socket_addr (V4 0) 0)
    (sample_config (Some (lit "1234"))) (Layered (socket_addr (V4 0) 0) _)).
  vm_compute. reflexivity.
Defined.

Lemma short_psk_reported_unreachable_witness :
  ∃ e, Obfs.new (lit "abc") = Err e ∧
    @connect (sample_quic 233) true Z.of_nat 5 (sample_config (Some (lit "abc"))) []
    = (Err (FUnreachable (config_error_display e)), []) ∧
    from_failure (FUnreachable (config_error_display e)) = ServerUnreachable.
Proof.
  eapply (@short_psk_reported_unreachable (sample_quic 233) true Z.of_nat 5
    (sample_config (Some (lit "abc"))) [] (lit "abc")).
  - apply sample_unsigned.
  - apply ClientConfig.problems_nil. vm_compute. reflexivity.
  - vm_compute. reflexivity.
  - reflexivity.
  - apply Nat.ltb_lt. reflexivity.
  - split; [reflexivity|split; reflexivity].
Defined.

(** An accepted response with the first proxied byte behind it. *)
Definition sample_stream (status : byte) : recv_stream :=
  {| events := [SData [status; x00; x00; x41]; SPending; SData [x42]]; ending := SFin |}.

Lemma poll_read_stream_witness :
  ∃ st', poll_read 10 (AwaitingResponse (Some []) (sample_stream x00)) = (Ok (Ready [x41]), st') ∧
    residual st' = Some [x42].
Proof.
  eexists. split; [vm_compute; reflexivity|].
  eapply (poll_read_stream 10 (AwaitingResponse (Some []) (sample_stream x00)) _ (Ok (Ready [x41]))).
  vm_compute. reflexivity.
Defined.

Lemma read_after_failed_response_panics_witness :
  ∃ st', poll_read 10 (AwaitingResponse (Some []) (sample_stream x01)) = (Err (RDial []), st') ∧
    (poll_read 10 st').1 = Panic.
Proof.
  eexists. split; [vm_compute; reflexivity|].
  eapply (read_after_failed_response_panics 10 10 [] (sample_stream x01) (RDial [])).
  - vm_compute. reflexivity.
  - discriminate.
Defined.

End Transport.
