(* ===== verification/Socket.v ===== *)
(** * Socket: the stack of UDP sockets under an endpoint

    quinn's [AsyncUdpSocket] trait as a record of operations (a trait object),
    the two wrappers of the client as functions on it ([client/obfs_socket.rs],
    [client/hop_socket.rs], the methods not in [Obfs] and [Hop] included), and
    the stack that [build_endpoint] composes. What the innermost socket does is
    its own: the wrappers' sends are stated as the call they make on it. *)
From S2P Require Import Prelude IoRead Errors PortUnion Net ClientConfig Obfs Hop Transport.
Import Net.

(** A socket at a moment; [rng] is the calling thread's generator. *)
Record AsyncUdpSocket := {
  try_send : (nat → Z) → Transmit → outcome io_error ();
  poll_recv : list slot → outcome io_error (Poll (outcome io_error nat) * list slot);
  local_addr : outcome io_error SocketAddr;
  max_transmit_segments : nat;
  max_receive_segments : nat;
  may_fragment : bool;
}.

Module Socket.

Section sockets.
Context `{Blake2b256}.

Definition obfs_socket (obfs : Obfs.SalamanderObfuscator) (inner : AsyncUdpSocket) : AsyncUdpSocket := {|
  try_send rng transmit := Obfs.try_send obfs rng (try_send inner rng) transmit;
  poll_recv slots := '(result, slots) ← poll_recv inner slots; Obfs.poll_recv obfs result slots;
  local_addr := local_addr inner;
  max_transmit_segments := 1;
  max_receive_segments := 1;
  may_fragment := may_fragment inner;
|}.

Definition hop_socket (s : Hop.HopUdpSocket) (inner : AsyncUdpSocket) : AsyncUdpSocket := {|
  try_send rng transmit := Hop.try_send (try_send inner rng) s transmit;
  poll_recv slots :=
    '(result, slots) ← poll_recv inner slots;
    let '(result, meta) := Hop.poll_recv s result slots.*2 in Ok (result, zip slots.*1 meta);
  local_addr := local_addr inner;
  max_transmit_segments := max_transmit_segments inner;
  max_receive_segments := max_receive_segments inner;
  may_fragment := may_fragment inner;
|}.

Definition wrap (inner : AsyncUdpSocket) (l : Transport.layer) : AsyncUdpSocket :=
  match l with
  | Transport.LObfs obfs => obfs_socket obfs inner
  | Transport.LHop s _ => hop_socket s inner
  end.

(** The socket of an endpoint, over the one the OS gave. *)
Definition stack (raw : AsyncUdpSocket) (ep : Transport.endpoint) : AsyncUdpSocket :=
  match ep with
  | Transport.Plain _ => raw
  | Transport.Layered _ layers => foldl wrap raw layers
  end.

(** ** One layer *)

(** What an obfuscated datagram becomes on the wire, and what the layer shows
    for it. *)
Lemma obfs_sends o inner rng t :
  contents t ≠ [] → length (contents t) + Obfs.SALT_LEN ≤ Obfs.UDP_BUFFER_SIZE →
  try_send (obfs_socket o inner) rng t =
  try_send inner rng {| destination := destination t; ecn := ecn t;
    contents := Obfs.seal o (Obfs.random_salt rng) (contents t); segment_size := None; src_ip := src_ip t |}.
Proof.
  intros Hc Hl. cbn. unfold Obfs.try_send. rewrite Obfs.obfuscate_seal by (by rewrite length_replicate).
  cbn [mbind outcome_bind]. rewrite decide_False by (unfold Obfs.SALT_LEN; lia).
  rewrite slice_to_app; [done|]. unfold Obfs.seal.
  rewrite length_app, Obfs.length_xor_key, Obfs.length_random_salt. lia.
Qed.

Lemma obfs_shows o rng input rest (m : RecvMeta) :
  input ≠ [] → length input ≤ Obfs.UDP_BUFFER_SIZE → meta_len m = length input + Obfs.SALT_LEN →
  ∃ rest', Obfs.poll_recv (E := io_error) o (Ready (Ok 1))
      [(Obfs.seal o (Obfs.random_salt rng) input ++ rest, m)] =
    Ok (Ready (Ok 1), [(input ++ rest', {| meta_addr := meta_addr m; meta_len := length input;
                                           meta_stride := length input |})]).
Proof.
  intros Hi Hl Hm.
  destruct (Obfs.recv_one_sealed (E := io_error) o (replicate Obfs.UDP_BUFFER_SIZE x00) (Obfs.random_salt rng)
    input rest m) as (sc & rest' & He); [done..|].
  exists rest'. cbn [Obfs.poll_recv for_slots]. by rewrite He.
Qed.

Lemma hop_shows s (b : list byte) (m : RecvMeta) :
  (let '(r, meta) := Hop.poll_recv (E := io_error) s (Ready (Ok 1)) [m] in
   @Ok io_error _ (r, zip [b] meta)) = Ok (Ready (Ok 1), [(b, Hop.set_addr (Hop.canonical s) m)]).
Proof. done. Qed.

End sockets.

(** ** The stack *)

Section stack.
Context `{Transport.Quic, Blake2b256}.

(** What a datagram looks like on the wire of a configuration's socket. *)
Definition wire_of (config : ClientConfig.Config) (rng : nat → Z) (payload : list byte) : list byte :=
  match ClientConfig.obfs config with
  | Some psk => Obfs.seal (Obfs.Build_SalamanderObfuscator psk) (Obfs.random_salt rng) payload
  | None => payload
  end.

Definition fits (payload : list byte) : Prop :=
  payload ≠ [] ∧ length payload + Obfs.SALT_LEN ≤ Obfs.UDP_BUFFER_SIZE.

(** The obfuscating part of the stack. *)
Definition obfuscated (config : ClientConfig.Config) (raw : AsyncUdpSocket) : AsyncUdpSocket :=
  match ClientConfig.obfs config with
  | Some psk => obfs_socket (Obfs.Build_SalamanderObfuscator psk) raw
  | None => raw
  end.

Lemma obfuscated_sends config raw rng t :
  fits (contents t) →
  try_send (obfuscated config raw) rng t =
  try_send raw rng {| destination := destination t; ecn := ecn t;
    contents := wire_of config rng (contents t);
    segment_size := match ClientConfig.obfs config with Some _ => None | None => segment_size t end;
    src_ip := src_ip t |}.
Proof.
  intros [Hc Hl]. unfold obfuscated, wire_of. destruct (ClientConfig.obfs config) as [psk|]; [|by destruct t].
  by apply obfs_sends.
Qed.

(** A datagram that arrived in [slots] and what is shown for it. *)
Definition shows (sock : AsyncUdpSocket) (slots : list slot) (payload : list byte) (from : SocketAddr) : Prop :=
  ∃ rest m, poll_recv sock slots = Ok (Ready (Ok 1), [(payload ++ rest, m)]) ∧
    meta_len m = length payload ∧ meta_addr m = from.

Lemma obfuscated_shows config raw rng slots payload from :
  fits payload → shows raw slots (wire_of config rng payload) from →
  shows (obfuscated config raw) slots payload from.
Proof.
  unfold shows, obfuscated, wire_of. intros [Hc Hl] (rest & m & Hp & Hlen & Hfrom).
  destruct (ClientConfig.obfs config) as [psk|]; [|by exists rest, m].
  destruct (obfs_shows (Obfs.Build_SalamanderObfuscator psk) rng payload rest m) as (rest' & Hr); [done|lia| |].
  { rewrite Hlen. unfold Obfs.seal. rewrite length_app, Obfs.length_xor_key, Obfs.length_random_salt. lia. }
  exists rest'. eexists. cbn. rewrite Hp. cbn [mbind outcome_bind]. rewrite Hr. by split_and!.
Qed.

(** The stack is the obfuscating part, with the hopping layer around it. *)
Lemma stack_shape dbg d bind config ep raw :
  Transport.build_endpoint dbg d bind config = Ok ep →
  match Transport.hop_addrs config with
  | None => stack raw ep = obfuscated config raw
  | Some _ => ∃ s h, stack raw ep = hop_socket s (obfuscated config raw) ∧ Transport.hop_layer_ok config s h
  end.
Proof.
  intros He%Transport.build_endpoint_layers. unfold Transport.layers_ok, obfuscated in *.
  destruct ep as [b|b layers]; [by destruct He as (_ & -> & ->)|].
  destruct He as (_ & inner & outer & -> & Hin & Hout). cbn [stack]. rewrite foldl_app.
  assert (Hobfs : foldl wrap raw inner = obfuscated config raw).
  { unfold obfuscated. destruct (ClientConfig.obfs config); by destruct Hin as [-> _]. }
  rewrite Hobfs. destruct (Transport.hop_addrs config); [|by subst outer].
  destruct Hout as (s & h & -> & Hok). by exists s, h.
Qed.

(** Where a datagram goes: one of the configured ports at the server's address
    when hopping, where it was sent otherwise. *)
Definition goes_to (config : ClientConfig.Config) (asked dst : SocketAddr) : Prop :=
  match Transport.hop_addrs config with
  | None => dst = asked
  | Some _ => ∃ ports p, ClientConfig.hop_ports config = Some ports ∧ PortUnion.contains ports p = true ∧
      dst = socket_addr (ip (ClientConfig.server_addr config)) p
  end.

Lemma hop_destination config s h :
  Transport.hop_layer_ok config s h →
  ∃ dst, Hop.current (E := io_error) s = Ok dst ∧ ∃ ports p, ClientConfig.hop_ports config = Some ports ∧
    PortUnion.contains ports p = true ∧ dst = socket_addr (ip (ClientConfig.server_addr config)) p.
Proof.
  intros (_ & _ & Hi & u & Hu & Haddrs). unfold Hop.current.
  destruct (lookup_lt_is_Some_2 _ _ Hi) as [a Ha]. rewrite Ha. exists a. split; [done|].
  apply list_elem_of_lookup_2, Haddrs in Ha as (p & Hp & ->). by exists u, p.
Qed.

(** The socket of a connection, whatever its configuration. A datagram of
    1 to 2040 bytes leaves the innermost socket as one datagram: for one of the
    configured hop ports at the server's address when hopping, and sealed under
    the key when obfuscated. What the other side of such a stack sealed is shown
    as its payload, from the server's configured address when hopping (so that
    QUIC keeps one peer). Under obfuscation no datagrams are batched. *)
Theorem socket_stack (dbg : bool) (d : Z) (bind : SocketAddr) (config : ClientConfig.Config)
    (ep : Transport.endpoint) (raw : AsyncUdpSocket) (rng : nat → Z) (t : Transmit)
    (He : Transport.build_endpoint dbg d bind config = Ok ep) (Hfit : fits (contents t)) :
  (∃ dst, goes_to config (destination t) dst ∧
     try_send (stack raw ep) rng t = try_send raw rng {| destination := dst; ecn := ecn t;
       contents := wire_of config rng (contents t);
       segment_size := match ClientConfig.obfs config with Some _ => None | None => segment_size t end;
       src_ip := src_ip t |}) ∧
  (∀ slots from, shows raw slots (wire_of config rng (contents t)) from →
     shows (stack raw ep) slots (contents t)
       (match Transport.hop_addrs config with Some _ => ClientConfig.server_addr config | None => from end)) ∧
  max_transmit_segments (stack raw ep) =
    match ClientConfig.obfs config with Some _ => 1 | None => max_transmit_segments raw end.
Proof.
  pose proof (stack_shape dbg d bind config ep raw He) as Hs. unfold goes_to.
  assert (Hseg : max_transmit_segments (obfuscated config raw) =
    match ClientConfig.obfs config with Some _ => 1 | None => max_transmit_segments raw end).
  { unfold obfuscated. by destruct (ClientConfig.obfs config). }
  destruct (Transport.hop_addrs config) as [addrs|].
  - destruct Hs as (s & h & -> & Hok). split_and!; [| |done].
    + destruct (hop_destination _ _ _ Hok) as (dst & Hcur & Hdst). exists dst. split; [done|].
      cbn. unfold Hop.try_send. rewrite Hcur. cbn [mbind outcome_bind]. by rewrite obfuscated_sends.
    + intros slots from Hsh. destruct (obfuscated_shows _ _ _ _ _ _ Hfit Hsh) as (rest & m & Hp & Hl & _).
      exists rest, (Hop.set_addr (Hop.canonical s) m). cbn. rewrite Hp. split_and!; [done..|].
      by destruct Hok as (-> & _).
  - rewrite Hs. split_and!; [|intros slots from; by apply obfuscated_shows|done].
    exists (destination t). split; [done|]. by apply obfuscated_sends.
Qed.

End stack.

(** ** The sample configuration's stack, over a socket that refuses to send *)

#[local] Existing Instance Obfs.sample_blake.

Definition ex_config : ClientConfig.Config := Transport.sample_config (Some (lit "1234")).
Definition ex_raw : AsyncUdpSocket := {|
  try_send _ t := Err (OtherIo (contents t));
  poll_recv slots := Ok (Ready (Ok 1), slots);
  local_addr := Ok (socket_addr (V4 0) 5);
  max_transmit_segments := 64;
  max_receive_segments := 64;
  may_fragment := false;
|}.
Definition ex_bind : SocketAddr := socket_addr (V4 0) 0.
Definition ex_datagram : Transmit :=
  {| destination := ClientConfig.server_addr ex_config; ecn := None; contents := lit "hi";
     segment_size := Some 2; src_ip := None |}.

Lemma socket_stack_witness :
  ∃ ep, @Transport.build_endpoint (Transport.sample_quic 233) true 5 ex_bind ex_config = Ok ep ∧
    max_transmit_segments (stack ex_raw ep) = 1 ∧
    ∃ dst, try_send (stack ex_raw ep) Z.of_nat ex_datagram =
      try_send ex_raw Z.of_nat {| destination := dst; ecn := None;
        contents := wire_of ex_config Z.of_nat (lit "hi"); segment_size := None; src_ip := None |}.
Proof.
  eexists. split; [vm_compute; reflexivity|].
  destruct (@socket_stack (Transport.sample_quic 233) Obfs.sample_blake true 5 ex_bind ex_config
    (match @Transport.build_endpoint (Transport.sample_quic 233) true 5 ex_bind ex_config with
     | Ok ep => ep | _ => Transport.Plain ex_bind end) ex_raw Z.of_nat ex_datagram)
    as ((dst & _ & Hsend) & _ & Hseg).
  - vm_compute. reflexivity.
  - split; [discriminate|apply Nat.leb_le; reflexivity].
  - split; [exact Hseg|]. exists dst. exact Hsend.
Defined.

End Socket.
