(* ===== verification/Tunnel.v ===== *)
(** * Tunnel: streams and UDP sessions from one end to the other

    Composes what [Proxy], [Frag], [UdpSession] and [Transport] model.

    Streams: [Client::tcp], with fast open and without, and any sequence of
    [poll_read]s on the connection it gives.

    UDP: the session manager's background task ([run], [client/udp.rs]) over
    what [QuinnUdpIo] receives, a consumer's successive [receive]s, and a sender
    whose datagrams are fragmented for the path and written by [QuinnUdpIo].
    [run] is the task left alone with a batch of reads; its steps are those of
    [UdpSession.step], so what is proved of every run holds of it. *)
From S2P Require Import Prelude IoRead RustStr Varint Proxy Frag Net Errors UdpSession Transport.

Module Tunnel.
Import RustStr Proxy Frag Net Transport UdpSession.

(** [run], over the results [read_datagram] gives: it feeds each message, and
    tears the sessions down at the first error. It is still waiting when the
    reads are used up; a read that panics ends it without the cleanup. Every
    turn of the loop takes a read, so [fuel] bounds the turns. *)
Fixpoint run (fuel : nat) (reads : list (outcome rstr (list byte))) (w : manager) : option manager :=
  match fuel with
  | O => None
  | S fuel =>
    match receive_message reads with
    | (None, _) => Some w
    | (Some (Ok msg), reads) => run fuel reads (UdpSession.feed msg w).2
    | (Some (Err _), _) => Some (cleanup w)
    | (Some Panic, _) =>
      Some {| sessions := sessions w; conns := conns w; next_handle := next_handle w;
              run_task := Aborted; held := held w |}
    end
  end.

(** [n] polls of [receive] in a row on one session: what each returns. *)
Fixpoint receives (oc : bool) (h : nat) (n : nat) (w : manager) :
    outcome io_error (list (Poll (outcome io_error (list byte * rstr))) * manager) :=
  match n, conns w !! h with
  | S n, Some c =>
    '(r, w) ← receive oc h c w;
    '(rs, w) ← receives oc h n w;
    Ok (r :: rs, w)
  | _, _ => Ok ([], w)
  end.

(** ** The task *)

(** Feeding messages in order. *)
Definition feeds (ms : list UdpMessage) (w : manager) : manager :=
  foldl (λ w m, (UdpSession.feed m w).2) w ms.

(** The task reads every message there is, junk skipped, and waits for more. *)
Lemma run_parsed fuel bs w :
  length bs < fuel → run fuel (Ok <$> bs) w = Some (feeds (parsed bs) w).
Proof.
  revert bs w. induction fuel as [|fuel IH]; intros bs w Hf; [lia|]. cbn [run].
  pose proof (receive_message_skips bs) as Hr. destruct (parsed bs) as [|m ms] eqn:Hp.
  - by rewrite Hr.
  - destruct Hr as (rest & -> & Hrest & Hl). rewrite IH by lia. by rewrite Hrest.
Qed.

(** Each turn of the task is a step of the manager. *)
Lemma feeds_runs oc w0 es w ms :
  runs oc w0 es w → run_task w = Running →
  ∃ es', runs oc w0 (es ++ es') (feeds ms w) ∧ run_task (feeds ms w) = Running.
Proof.
  revert es w. induction ms as [|m ms IH]; intros es w Hr Ht.
  { exists []. by rewrite app_nil_r. }
  destruct (UdpSession.feed m w) as [a w'] eqn:Hf.
  assert (Hr' : runs oc w0 (es ++ [EMsg m a]) w') by (econstructor; [done|by constructor]).
  assert (Ht' : run_task w' = Running).
  { destruct a as [h|].
    - by apply feed_Some in Hf as (_ & c & _ & _ & ->).
    - by apply feed_None in Hf as ->. }
  destruct (IH _ _ Hr' Ht') as (es' & H1 & H2). exists (EMsg m a :: es').
  unfold feeds in *. cbn [foldl]. rewrite Hf. cbn [snd]. split; [|done].
  by rewrite <-app_assoc in H1.
Qed.

(** ** One session among the others *)

(** Handle [h] is the open session [c]. *)
Definition open_session (h : nat) (c : UdpConn) (w : manager) : Prop :=
  conns w !! h = Some c ∧ smap (sessions w) !! id c = Some h.

Definition of_session (k : Z) (ms : list UdpMessage) : list UdpMessage :=
  filter (λ m, session_id m = k) ms.
Definition queued (ms : list UdpMessage) (c : UdpConn) : UdpConn :=
  {| id := id c; queue := queue c ++ ms; defragger := defragger c |}.

Lemma queued_nil c : queued [] c = c.
Proof. destruct c. unfold queued. cbn. by rewrite app_nil_r. Qed.
Lemma queued_app ms ms' c : queued ms' (queued ms c) = queued (ms ++ ms') c.
Proof. unfold queued. cbn. by rewrite app_assoc. Qed.

(** A message goes to its own session's queue; the others do not notice. *)
Lemma feed_queue oc es w h c m :
  inv oc es w → open_session h c w → length (queue c) + length (of_session (id c) [m]) ≤ UDP_MESSAGE_CHAN_SIZE →
  open_session h (queued (of_session (id c) [m]) c) (UdpSession.feed m w).2.
Proof.
  intros [Hm _ _ _ _] [Hc Hs] Hl. unfold of_session in *. rewrite filter_cons in *.
  destruct (decide (session_id m = id c)) as [Hid|Hid]; cbn [length filter list_filter] in *.
  - unfold UdpSession.feed, try_send. rewrite Hid, Hs, Hc. cbn [mbind option_bind].
    rewrite decide_True by lia. split; cbn; [by rewrite lookup_insert_eq|done].
  - rewrite queued_nil. destruct (UdpSession.feed m w) as [[h'|] w'] eqn:Hf.
    + apply feed_Some in Hf as (Hk & c' & Hc' & _ & ->). split; [|done]. cbn.
      rewrite lookup_insert_ne; [done|]. intros ->.
      destruct (Hm _ _ Hk) as (c0 & Hc0 & Hid0). congruence.
    + by apply feed_None in Hf as ->.
Qed.

Lemma feeds_queue oc es w h c ms :
  inv oc es w → open_session h c w →
  length (queue c) + length (of_session (id c) ms) ≤ UDP_MESSAGE_CHAN_SIZE →
  open_session h (queued (of_session (id c) ms) c) (feeds ms w).
Proof.
  revert es w c. induction ms as [|m ms IH]; intros es w c Hi Ho Hl; [by rewrite queued_nil|].
  assert (Heq : of_session (id c) (m :: ms) = of_session (id c) [m] ++ of_session (id c) ms)
    by apply (filter_app _ [m]).
  rewrite Heq in *. rewrite length_app in Hl.
  pose proof (feed_queue oc es w h c m Hi Ho ltac:(lia)) as Ho'.
  pose proof (inv_msg oc es w m (UdpSession.feed m w).1 (UdpSession.feed m w).2 Hi
    (surjective_pairing _)) as Hi'.
  rewrite <-queued_app. apply (IH _ _ (queued (of_session (id c) [m]) c) Hi' Ho').
  cbn [queued queue id]. rewrite length_app. lia.
Qed.

(** ** The consumer *)

(** One turn of [receive] takes the first payload of what is queued. *)
Lemma recv_loop_payload {E} oc q d d' os :
  feed_all (E := E) oc d q = Ok (d', os) →
  match payloads os with
  | [] => recv_loop (E := E) oc q d = Ok ([], d', None)
  | p :: ps => ∃ q1 d1 os1, recv_loop (E := E) oc q d = Ok (q1, d1, Some p) ∧
      feed_all (E := E) oc d1 q1 = Ok (d', os1) ∧ payloads os1 = ps
  end.
Proof.
  revert d os. induction q as [|m q IH]; intros d os H; [by injection H as <- <-|].
  cbn [feed_all] in H. apply bind_ok_inv in H as ([d1 o] & Hf & H).
  apply bind_ok_inv in H as ([d2 os1] & Hfa & H). injection H as <- <-.
  cbn [recv_loop]. rewrite Hf. cbn [mbind outcome_bind]. destruct o as [a|].
  - cbn. by exists q, d1, os1.
  - change (payloads (None :: os1)) with (payloads os1). by apply IH.
Qed.

Lemma receives_S oc h n w c :
  conns w !! h = Some c →
  receives oc h (S n) w =
  ('(r, w) ← receive oc h c w; '(rs, w) ← receives oc h n w; Ok (r :: rs, w)).
Proof. intros Hc. cbn [receives]. by rewrite Hc. Qed.

Lemma receives_payloads oc ps h c w d' os :
  open_session h c w → feed_all (E := io_error) oc (defragger c) (queue c) = Ok (d', os) →
  payloads os = ps →
  ∃ w', receives oc h (S (length ps)) w = Ok ((Ready ∘ Ok <$> ps) ++ [Pending], w').
Proof.
  revert c w os. induction ps as [|p ps IH]; intros c w os [Hc Hs] Hf Hp;
    pose proof (recv_loop_payload oc _ _ _ _ Hf) as Hr; rewrite Hp in Hr;
    rewrite (receives_S _ _ _ _ _ Hc); unfold receive.
  - rewrite Hr. cbn [mbind outcome_bind]. unfold sender_alive.
    rewrite bool_decide_eq_true_2 by done. cbn. by eexists.
  - destruct Hr as (q1 & d1 & os1 & -> & Hf1 & Hp1). cbn [mbind outcome_bind].
    set (c1 := {| id := id c; queue := q1; defragger := d1 |}).
    destruct (IH c1 (set_conns (insert h c1) w) os1) as (w' & Hw'); [|done..|].
    { split; [|done]. by cbn; rewrite lookup_insert_eq. }
    exists w'. cbn [length]. by rewrite Hw'.
Qed.

(** ** End to end *)

Section delivery.
Context `{Datagrams C}.

(** C9: Datagrams sent over one connection arrive at the other end's session.
    Each datagram sent is deliverable: a non-empty payload, an address of 1 to
    2048 bytes of UTF-8, at most 4096 bytes with its header (the code drops
    larger ones silently), a header below what the path carries and at most 255
    fragments over it; their random packet ids do not repeat, and the
    receiver's defragger is not on one of them. One [send] after the other
    puts them on the wire ([QuinnUdpIo]), fragmented where the path requires
    it. The receiving manager may have had any run before; its session for the
    sender's id is open with nothing queued. Whatever else arrives in between
    (datagrams that are no message, messages of other sessions), if this
    session's messages arrive as sent and are at most 1024, the background
    task reads everything and waits, the consumer's polls give exactly the
    datagrams sent, whole, with their addresses and in order, and the next
    poll waits. *)
Theorem datagrams_delivered (oc : bool) (path_max : nat) (s : list byte * C)
    (l : list (Z * (list byte * rstr))) (es : list event) (w : manager) (h : nat) (c : UdpConn)
    (Hok : io_ok path_max s)
    (Hl : Forall (λ x, deliverable (path_max := path_max) (id c) x.2.1 x.2.2) l)
    (Hnd : NoDup (random_packet_id ∘ fst <$> l))
    (Hruns : runs oc new es w) (Hrun : run_task w = Running)
    (Hopen : open_session h c w) (Hq : queue c = [])
    (Hfresh : pkt_id (defragger c) ∉ (random_packet_id ∘ fst <$> l)) :
  ∃ s' sent, sends (send_message := send_message) oc (id c) l s = (Ok (), s') ∧ io_log s' = io_log s ++ sent ∧
    ∀ bs, of_session (id c) (parsed bs) = sent → length sent ≤ UDP_MESSAGE_CHAN_SIZE →
    ∃ es' w' w'', run (S (length bs)) (Ok <$> bs) w = Some w' ∧ runs oc new (es ++ es') w' ∧
      receives oc h (S (length l)) w' = Ok ((Ready ∘ Ok <$> l.*2) ++ [Pending], w'').
Proof.
  destruct (sends_wire oc (id c) l s Hok Hl Hnd) as (s' & sent & Hs & _ & Hlog & _ & Hall).
  exists s', sent. split_and!; [done..|]. intros bs Hbs Hlen.
  destruct (Hall _ Hfresh) as (d' & os & Hfa & Hp).
  destruct (feeds_runs oc new es w (parsed bs) Hruns Hrun) as (es' & Hr' & _).
  pose proof (feeds_queue oc es w h c (parsed bs) (runs_inv _ _ _ Hruns) Hopen) as Ho.
  rewrite Hbs, Hq in Ho. specialize (Ho Hlen).
  destruct (receives_payloads oc (l.*2) h _ _ d' os Ho) as (w'' & Hw'');
    [cbn; by rewrite Hq|done|].
  rewrite length_fmap in Hw''. exists es', (feeds (parsed bs) w), w''.
  split_and!; [by apply run_parsed; lia|done..].
Qed.
End delivery.

(** ** A proxied stream *)

(** The receive stream under a connection. *)
Definition stream_of (st : RecvState) : recv_stream :=
  match st with AwaitingResponse _ recv | Established recv _ _ => recv end.

(** What a read reports once the stream is used up. *)
Definition at_end (e : stream_end) : outcome read_error (Poll (list byte)) :=
  match e with SFin => Ok (Ready []) | SBroken t => Err (RStream t) end.

(** A read with room in its buffer, while the bytes [bs] remain of a stream
    that still holds [k] events: it waits, hands some of them out, or reports
    the end. *)
Inductive turn (bs : list byte) (e : stream_end) (k : nat) :
    outcome read_error (Poll (list byte)) → RecvState → Prop :=
| turn_wait st :
    residual st = Some bs → length (events (stream_of st)) < k → turn bs e k (Ok Pending) st
| turn_data out rest st :
    out ≠ [] → bs = out ++ rest → residual st = Some rest → length (events (stream_of st)) ≤ k →
    turn bs e k (Ok (Ready out)) st
| turn_end st :
    bs = [] → residual st = Some [] → events (stream_of st) = [] → turn bs e k (at_end e) st.

Lemma turn_mono bs e k k' r st : k ≤ k' → turn bs e k r st → turn bs e k' r st.
Proof. intros Hk Ht. destruct Ht; [apply turn_wait|eapply turn_data|apply turn_end]; eauto with lia. Qed.

Lemma ready_turn n recv leftover pos r st :
  0 < n → SData [] ∉ events recv → poll_read_ready n recv leftover pos = (r, st) →
  no_empty_data st ∧ ending (stream_of st) = ending recv ∧
  turn (drop pos leftover ++ stream_bytes recv) (ending recv) (length (events recv)) r st.
Proof.
  intros Hn Hne. unfold poll_read_ready. case_decide as Hp.
  - intros [= <- <-]. split_and!; [done..|]. eapply turn_data; [| |done|done].
    + intros He%(f_equal length). rewrite length_take, length_drop in He. cbn [length] in He. lia.
    + by rewrite <-drop_drop, app_assoc, take_drop.
  - rewrite (drop_ge leftover pos) by lia. cbn [app].
    destruct (stream_read n recv) as [s'| |bytes s'] eqn:Hs.
    + apply stream_read_pending in Hs as (Hb & He & Hl & Hne').
      intros [= <- <-]. split_and!; [by apply Hne'|done|]. apply turn_wait; [|done].
      cbn. rewrite drop_ge by lia. by rewrite Hb.
    + apply stream_read_end in Hs as [Hev Hb]. intros [= <- <-]. split_and!; [done..|].
      change (match ending recv with SFin => _ | SBroken t => _ end) with (at_end (ending recv)).
      apply turn_end; [done| |done]. cbn. rewrite drop_ge by lia. by rewrite Hb.
    + pose proof (stream_read_bytes _ _ _ _ Hs) as (Hb & He & _ & Hl & _ & Hne').
      intros [= <- <-]. split_and!; [by apply Hne'|done|]. eapply turn_data; [|done| |done].
      * unfold stream_read in Hs. destruct recv as [[|[b|] es] e]; try done.
        injection Hs as <- _. destruct b as [|x b]; [by destruct Hne; left|]. by destruct n; [lia|].
      * cbn. by rewrite drop_ge by lia.
Qed.

Lemma poll_turn n st bs r st' :
  0 < n → no_empty_data st → residual st = Some bs → poll_read n st = (r, st') →
  no_empty_data st' ∧ ending (stream_of st') = ending (stream_of st) ∧
  turn bs (ending (stream_of st)) (length (events (stream_of st))) r st'.
Proof.
  intros Hn Hne Hres Hr. destruct st as [[buf|] recv|recv leftover pos]; [|done|].
  - cbn [poll_read stream_of no_empty_data] in *.
    pose proof (read_tcp_response_poll (stream_reads recv) buf recv (le_n _)) as Hp.
    destruct (read_tcp_response _ _ _) as [[buf' s'|res leftover s']|]; [| |done].
    + injection Hr as <- <-. destruct Hp as (Hb & He & Hl & Hne'). cbn.
      split_and!; [auto|done|]. apply turn_wait; [|done]. cbn [residual] in *. by rewrite Hb.
    + destruct Hp as (Hp & Hne' & He & Hl). rewrite (residual_awaiting _ _ _ _ _ Hp) in Hres.
      destruct res as [[[] m]| |]; [|done..]. injection Hres as <-.
      destruct (ready_turn _ _ _ _ _ _ Hn (Hne' Hne) Hr) as (H1 & H2 & H3).
      split_and!; [done|congruence|]. rewrite <-He. by eapply turn_mono.
  - injection Hres as <-. by apply (ready_turn n recv leftover pos).
Qed.

(** Reads in a row, into buffers of the sizes [ns]: what each returns. *)
Fixpoint reads (ns : list nat) (st : RecvState) :
    list (outcome read_error (Poll (list byte))) * RecvState :=
  match ns with
  | [] => ([], st)
  | n :: ns => let '(r, st) := poll_read n st in let '(rs, st) := reads ns st in (r :: rs, st)
  end.

Definition delivered (rs : list (outcome read_error (Poll (list byte)))) : list byte :=
  concat ((λ r, match r with Ok (Ready out) => out | _ => [] end) <$> rs).

(** A read result of a connection that has not failed before its stream's end. *)
Definition sound (e : stream_end) (r : outcome read_error (Poll (list byte))) : Prop :=
  r = at_end e ∨ ∃ p, r = Ok p.

Lemma reads_turns ns st bs rs st' :
  Forall (lt 0) ns → no_empty_data st → residual st = Some bs → reads ns st = (rs, st') →
  Forall (sound (ending (stream_of st))) rs ∧
  ∃ rest, residual st' = Some rest ∧ bs = delivered rs ++ rest ∧
    (length (events (stream_of st)) + length bs < length ns →
     rest = [] ∧ last rs = Some (at_end (ending (stream_of st)))).
Proof.
  intros Hns. revert st bs rs st'. induction Hns as [|n ns Hn Hns IH]; intros st bs rs st' Hne Hres Hr.
  { injection Hr as <- <-. split; [constructor|]. exists bs. split_and!; [done..|cbn [length]; lia]. }
  cbn [reads] in Hr. destruct (poll_read n st) as [r st1] eqn:Hp.
  destruct (reads ns st1) as [rs1 st2] eqn:Hr1. injection Hr as <- <-.
  destruct (poll_turn _ _ _ _ _ Hn Hne Hres Hp) as (Hne1 & He1 & Ht).
  assert (Hkeep : ∀ bs1, residual st1 = Some bs1 →
    Forall (sound (ending (stream_of st))) rs1 ∧ ∃ rest, residual st2 = Some rest ∧ bs1 = delivered rs1 ++ rest ∧
    (length (events (stream_of st1)) + length bs1 < length ns →
     rest = [] ∧ last rs1 = Some (at_end (ending (stream_of st))))).
  { intros bs1 Hb. rewrite <-He1. by apply IH. }
  assert (Hlast : ∀ x, last rs1 = Some x → last (r :: rs1) = Some x) by (intros x; by destruct rs1).
  destruct Ht as [st1 Hb Hev|out rest1 st1 Ho -> Hb Hev|st1 -> Hb Hev];
    destruct (Hkeep _ Hb) as (Hs & rest & Hrest & Hdel & Hend).
  - split; [constructor; [right; eauto|done]|]. exists rest. split_and!; [done..|]. cbn [length].
    intros Hl. destruct Hend as [-> Hend]; [lia|]. auto.
  - split; [constructor; [right; eauto|done]|]. exists rest. split; [done|].
    split; [rewrite Hdel; apply app_assoc|]. cbn [length]. rewrite length_app. intros Hl.
    assert (0 < length out) by (destruct out; [done|cbn; lia]).
    destruct Hend as [-> Hend]; [lia|]. auto.
  - symmetry in Hdel. apply app_nil in Hdel as [Hdel ->].
    split; [constructor; [by left|done]|]. exists []. split; [done|].
    split. { unfold delivered in *. cbn. rewrite Hdel. by destruct (ending (stream_of st)). }
    intros _. split; [done|]. destruct ns as [|n' ns].
    + by injection Hr1 as <- <-.
    + apply Hlast, Hend. rewrite Hev. cbn. lia.
Qed.

(** A fast-open connection whose request was refused says so once, and
    delivers nothing. *)
Lemma refused_reads ns buf recv msg rest rs st' :
  Proxy.read_tcp_response (buf ++ stream_bytes recv) = Ok ((false, msg), rest) →
  reads ns (AwaitingResponse (Some buf) recv) = (rs, st') →
  delivered rs = [] ∧ (length (events recv) < length ns →
    ∃ k, rs !! k = Some (Err (RDial msg)) ∧ Forall (eq (Ok Pending)) (take k rs)).
Proof.
  revert buf recv rs st'. induction ns as [|n ns IH]; intros buf recv rs st' Hp Hr.
  { injection Hr as <- <-. split; [done|]. cbn [length]. lia. }
  cbn [reads poll_read] in Hr.
  pose proof (read_tcp_response_poll (stream_reads recv) buf recv (le_n _)) as Hpoll.
  destruct (read_tcp_response _ _ _) as [[buf' s'|res leftover s']|]; [| |done].
  - destruct Hpoll as (Hb & _ & Hl & _). destruct (reads ns _) as [rs1 st1] eqn:Hr1.
    injection Hr as <- <-. rewrite <-Hb in Hp. destruct (IH _ _ _ _ Hp Hr1) as [Hd Hk].
    split; [done|]. cbn [length]. intros Hlt. destruct Hk as (k & Hk & Hall); [lia|].
    exists (S k). split; [done|]. by constructor.
  - destruct Hpoll as [Hspec _]. unfold response_spec in Hspec. rewrite Hp in Hspec.
    destruct Hspec as [-> _]. assert (Hnone : ∀ ns rs st', reads ns (AwaitingResponse None s') = (rs, st') →
      delivered rs = []).
    { clear. induction ns as [|n ns IH]; intros rs st'; cbn; [by intros [= <- <-]|].
      destruct (reads ns _) as [rs1 st1] eqn:Hr. intros [= <- <-]. by apply (IH _ _ eq_refl). }
    destruct (reads ns _) as [rs1 st1] eqn:Hr1. injection Hr as <- <-.
    split; [by apply (Hnone _ _ _ Hr1)|]. intros _. by exists 0.
Qed.

(** [tcp] once the request is written. *)
Lemma tcp_written rng (fast : bool) addr s write_all :
  (Z.of_nat (length addr) ≤ Varint.MAX_VAR_INT8)%Z →
  (∀ padding, 64 ≤ length padding < 512 → write_all (tcp_request_bytes addr padding) = Ok ()) →
  tcp rng fast addr (Ok s) write_all =
  if fast then Ok (AwaitingResponse (Some []) s)
  else
    '(r, leftover, recv) ← or_panic (await_response (S (length (events s))) [] s);
    '(ok, msg) ← map_err TResponse r;
    if (ok : bool) then Ok (Established recv leftover 0)
    else Err (TDial {| Errors.dial_message := msg |}).
Proof.
  intros Ha Hw. unfold tcp. cbn [map_err mbind outcome_bind].
  rewrite write_tcp_request_bytes by done. cbn [map_err mbind outcome_bind].
  rewrite Hw; [by destruct fast|].
  destruct (Padding.string_spec Padding.TCP_REQUEST_PADDING rng) as (_ & Hlo & Hhi & _).
  specialize (Hhi ltac:(cbn; lia)). change (Padding.min _) with 64 in Hlo.
  change (Padding.max _) with 512 in Hhi. lia.
Qed.

(** C8: A TCP connection through the tunnel is the proxied stream, with fast
    open and without. The request written is a well-formed one for the address
    asked. If the server accepts, [tcp] gives a connection on which any
    sequence of reads hands out the server's bytes, in order and without loss,
    however the stream was cut or stalled; no read fails before the end of the
    stream, and enough of them reach it: everything has been delivered, and
    the end (or the broken connection) is reported. If the server refuses, its
    message is the dial error; with fast open it is the error of the first read
    that does not wait, and no byte is delivered. *)
Theorem tcp_tunnel (rng : nat → Z) (fast : bool) (addr : rstr) (s : recv_stream)
    (write_all : list byte → outcome rstr ()) (status : byte) (msg padding data : list byte)
    (Ha : (Z.of_nat (length addr) ≤ Varint.MAX_VAR_INT8)%Z)
    (Hw : ∀ padding, 64 ≤ length padding < 512 → write_all (tcp_request_bytes addr padding) = Ok ())
    (Hne : SData [] ∉ events s)
    (Hu : utf8_valid msg = true) (Hm : length msg ≤ 2048) (Hp : length padding ≤ 4096)
    (Hs : stream_bytes s = tcp_response_bytes status msg padding ++ data) :
  if decide (status = x00) then
    ∃ st, tcp rng fast addr (Ok s) write_all = Ok st ∧
      ∀ ns rs st', Forall (lt 0) ns → reads ns st = (rs, st') →
        Forall (sound (ending s)) rs ∧ delivered rs `prefix_of` data ∧
        (length (events s) + length data < length ns →
         delivered rs = data ∧ last rs = Some (at_end (ending s)))
  else if fast then
    ∃ st, tcp rng fast addr (Ok s) write_all = Ok st ∧
      ∀ ns rs st', reads ns st = (rs, st') → delivered rs = [] ∧
        (length (events s) < length ns →
         ∃ k, rs !! k = Some (Err (RDial msg)) ∧ Forall (eq (Ok Pending)) (take k rs))
  else tcp rng fast addr (Ok s) write_all = Err (TDial {| Errors.dial_message := msg |}).
Proof.
  assert (Hresp : Proxy.read_tcp_response (stream_bytes s) = Ok ((bool_decide (status = x00), msg), data))
    by (rewrite Hs; by apply read_tcp_response_bytes).
  rewrite (tcp_written rng fast addr s write_all Ha Hw).
  destruct (await_response_ok (S (length (events s))) [] s) as (r & leftover & s' & Haw & Hspec & Hne' & He & Hl);
    [lia|].
  unfold response_spec in Hspec. rewrite app_nil_l, Hresp in Hspec. destruct Hspec as [-> Hdata].
  case_decide as Hst.
  - rewrite bool_decide_eq_true_2 in * by done.
    set (st := if fast then AwaitingResponse (Some []) s else Established s' leftover 0).
    assert (Hst0 : no_empty_data st ∧ residual st = Some data ∧ ending (stream_of st) = ending s ∧
      length (events (stream_of st)) ≤ length (events s)).
    { unfold st. destruct fast; cbn [no_empty_data residual stream_of app];
        [by rewrite Hresp|rewrite drop_0, Hdata; auto]. }
    destruct Hst0 as (Hn & Hres & Hend & Hle).
    exists st. split; [unfold st; rewrite Haw; by destruct fast|]. intros ns rs st' Hns Hr.
    destruct (reads_turns ns st data rs st' Hns Hn Hres Hr) as (H1 & rest & _ & Hd & H2).
    rewrite Hend in *. split_and!; [done|by exists rest|].
    intros Hlt. destruct H2 as [-> H2]; [lia|]. split; [|done]. by rewrite Hd, app_nil_r.
  - rewrite bool_decide_eq_false_2 in * by done. destruct fast; [|by rewrite Haw].
    eexists. split; [done|]. intros ns rs st' Hr. by apply (refused_reads ns [] s msg data rs st').
Qed.

(** ** Witnesses *)

(** A path of [n] bytes that keeps what it is given; and one of 14. *)
Program Definition kept_path (n : nat) : Datagrams (list (list byte)) := {|
  send_datagram b c := if decide (length b ≤ n) then (Ok (), c ++ [b]) else (Err QTooLarge, c);
  max_datagram_size _ := Some n;
  datagrams_sent c := c;
|}.
Next Obligation. intros n b c k [= <-] Hb. cbn. rewrite decide_True by done. by eexists. Qed.
Next Obligation. intros n b c k [= <-] Hb. cbn. rewrite decide_False by lia. by eexists. Qed.
#[local] Instance narrow_path : Datagrams (list (list byte)) := kept_path 14.

(** What a peer of session 1 wrote, with noise and session 2's traffic. *)
Definition ex_sent : list (Z * (list byte * rstr)) :=
  [(41, (lit "hello, world", lit "a:1")); (7, (lit "x", lit "b:2"))]%Z.
Definition ex_wire : list (list byte) :=
  (sends (send_message := send_message) true 1 ex_sent (replicate MAX_UDP_SIZE x00, [])).2.2.
Definition ex_other : UdpMessage := message 2 (lit "not mine") (lit "c:3").
Definition ex_arriving : list (list byte) :=
  lit "noise" :: take 1 ex_wire ++ udp_message_bytes ex_other :: drop 1 ex_wire.

Lemma datagrams_delivered_witness :
  length ex_wire = 7 ∧
  ∃ w' w'', run 10 (Ok <$> ex_arriving) w_open = Some w' ∧
    receives true 0 3 w' =
      Ok ([Ready (Ok (lit "hello, world", lit "a:1")); Ready (Ok (lit "x", lit "b:2")); Pending], w'').
Proof.
  split; [by vm_compute|].
  destruct (datagrams_delivered true 14 (replicate MAX_UDP_SIZE x00, []) ex_sent [ENew 0] w_open 0
    {| id := 1; queue := []; defragger := defragger_default |}) as (s' & sent & Hs & Hlog & Hall).
  - by split.
  - repeat constructor; try done; cbn; try (vm_compute; lia); vm_compute; lia.
  - apply (bool_decide_eq_true_1 _). by vm_compute.
  - change [ENew 0] with ([] ++ [ENew 0]). econstructor; [constructor|]. by apply (step_new _ new w_open).
  - done.
  - done.
  - done.
  - apply (bool_decide_eq_true_1 _). by vm_compute.
  - assert (Hs' : s'.2 = ex_wire) by (unfold ex_wire; cbn [id] in Hs; by rewrite Hs).
    destruct (Hall ex_arriving) as (es' & w' & w'' & H1 & _ & H2).
    + unfold io_log in Hlog. cbn [datagrams_sent narrow_path snd] in Hlog. cbn in Hlog.
      rewrite <-Hlog, Hs'. by vm_compute.
    + unfold io_log in Hlog. cbn in Hlog. rewrite <-Hlog, Hs'. vm_compute. lia.
    + exists w', w''. split; [exact H1|exact H2].
Defined.

(** A server that accepts, its answer cut in the middle and the first proxied
    bytes behind it; and the same with a refusal. *)
Definition ex_answer (status : byte) : recv_stream :=
  {| events := [SData [status; x02]; SPending; SData (lit "ok" ++ [x00] ++ lit "ab"); SPending; SData (lit "c")];
     ending := SFin |}.
Definition ex_reads (r : outcome tcp_error RecvState) : list (outcome read_error (Poll (list byte))) :=
  match r with Ok st => (reads [2; 2; 1; 9; 9; 9; 9; 9; 9] st).1 | _ => [] end.

Lemma tcp_tunnel_witness :
  ∃ st, tcp (λ _, 0%Z) true (lit "a:80") (Ok (ex_answer x00)) (λ _, Ok ()) = Ok st ∧
    delivered (ex_reads (Ok st)) = lit "abc" ∧ last (ex_reads (Ok st)) = Some (Ok (Ready [])).
Proof.
  destruct (tcp_tunnel (λ _, 0%Z) true (lit "a:80") (ex_answer x00) (λ _, Ok ()) x00 (lit "ok") [] (lit "abc"))
    as (st & Ht & Hall); try done; try (cbn; lia).
  - intros Hin. vm_compute in Hin.
    repeat (apply elem_of_cons in Hin as [Hin|Hin]; [discriminate Hin|]). by apply elem_of_nil in Hin.
  - exists st. split; [exact Ht|].
    destruct (Hall [2; 2; 1; 9; 9; 9; 9; 9; 9] (ex_reads (Ok st)) (reads [2; 2; 1; 9; 9; 9; 9; 9; 9] st).2)
      as (_ & _ & Hd).
    + repeat constructor; lia.
    + apply surjective_pairing.
    + apply Hd. cbn. lia.
Defined.

End Tunnel.
