(* ===== verification/Link.v ===== *)
(** * Link: hysteria2:// share links

    Models the [config] crate: [parse_uri], [to_uri], [to_uri_with_name],
    [name_from_uri] and their helpers.  Percent-encoding and the query string
    codec come from the [percent-encoding] and [form_urlencoded] crates: they
    are interfaces, with the documented laws the links rely on. *)
From S2P Require Import Prelude RustStr Profile.

(** Letters and digits, and the hexadecimal digits among them. *)
Definition alnum (b : byte) : bool :=
  RustStr.in_range b 0x30 0x39 || RustStr.in_range b 0x41 0x5A || RustStr.in_range b 0x61 0x7A.
Definition hex_digit (b : byte) : bool :=
  RustStr.in_range b 0x30 0x39 || RustStr.in_range b 0x41 0x46 || RustStr.in_range b 0x61 0x66.

(** [utf8_percent_encode] with a set of bytes to escape (non-ASCII bytes always
    are), and [percent_decode_str] before its UTF-8 check. *)
Class PercentEncoding := {
  percent_encode : (byte → bool) → rstr → rstr;
  percent_decode_bytes : rstr → list byte;
  percent_decode_encode esc s : esc x25 = true → percent_decode_bytes (percent_encode esc s) = s;
  percent_encode_chars esc s :
    Forall (λ b, b = x25 ∨ hex_digit b = true ∨ (esc b = false ∧ b ∈ s)) (percent_encode esc s);
  percent_encode_nil esc s : percent_encode esc s = [] → s = [];
  (** A byte that cannot be part of an escape stands for itself. *)
  percent_decode_split a c b : c ≠ x25 → hex_digit c = false →
    percent_decode_bytes (a ++ c :: b) = percent_decode_bytes a ++ c :: percent_decode_bytes b;
}.

(** [form_urlencoded::Serializer] over a list of pairs, and [parse]. *)
Class FormUrlencoded := {
  form_serialize : list (rstr * rstr) → rstr;
  form_parse : list byte → list (rstr * rstr);
  form_parse_serialize l :
    Forall (λ kv, RustStr.utf8_valid kv.1 = true ∧ RustStr.utf8_valid kv.2 = true) l →
    form_parse (form_serialize l) = l;
  form_parse_utf8 q : Forall (λ kv, RustStr.utf8_valid kv.1 = true ∧ RustStr.utf8_valid kv.2 = true) (form_parse q);
  form_serialize_chars l :
    Forall (λ b, alnum b = true ∨ b ∈ lit "*-._+%&=") (form_serialize l);
  form_serialize_nil l : form_serialize l = [] → l = [];
}.

Module Link.
Import RustStr Profile.

Section link.
Context `{PercentEncoding, FormUrlencoded}.

(** [USERINFO]: everything but the unreserved characters is escaped. *)
Definition USERINFO (b : byte) : bool :=
  negb (alnum b) && negb (bool_decide (b ∈ lit "-._~")).

(** [FRAGMENT]: [CONTROLS] and eight more characters. *)
Definition FRAGMENT (b : byte) : bool :=
  (b2z b <? 0x20)%Z || (b2z b =? 0x7F)%Z
  || bool_decide (b ∈ [x20; x22; x3c; x3e; x60; x25; x23; x2b]).

Definition is_scheme (scheme : rstr) : bool :=
  eq_ignore_ascii_case scheme (lit "hysteria2") || eq_ignore_ascii_case scheme (lit "hy2").

(** [percent_decode]. *)
Definition percent_decode (s : rstr) : option rstr := from_utf8 (percent_decode_bytes s).

(** [parse_query]: the first value of a key wins. *)
Definition parse_query (query : rstr) : gmap (list byte) rstr :=
  foldl (λ map '(k, v), match map !! k with Some _ => map | None => <[k := v]> map end)
    ∅ (form_parse query).

Definition non_empty (o : option rstr) : option rstr :=
  s ← o; if bool_decide (s = []) then None else Some s.

Definition parse_uri (s : rstr) : option Profile :=
  '(scheme, after) ← split_once_str (lit "://") s;
  if negb (is_scheme scheme) then None else
  let after := default [] (head (split x23 after)) in
  let '(authority_path, query) :=
    match split_once x3f after with
    | Some (ap, q) => (ap, Some q)
    | None => (after, None)
    end in
  let authority := default [] (head (split x2f authority_path)) in
  '(auth, host) ←
    match rsplit_once x40 authority with
    | Some (user, host) => a ← percent_decode user; Some (a, host)
    | None => Some ([], authority)
    end;
  if bool_decide (host = []) then None else
  let profile := {| server := host; auth := auth; tls := tls default_profile;
                    obfs := obfs default_profile; fast_open := fast_open default_profile |} in
  match query with
  | None => Some profile
  | Some query =>
    let params := parse_query query in
    let obfs :=
      match non_empty (params !! lit "obfs") with
      | Some obfs_type =>
        Some {| obfs_type := obfs_type; password := default [] (params !! lit "obfs-password") |}
      | None => obfs profile
      end in
    let tls :=
      match non_empty (params !! lit "sni") with
      | Some sni => {| sni := sni |}
      | None => tls profile
      end in
    Some {| server := server profile; auth := Profile.auth profile; tls := tls; obfs := obfs;
            fast_open := fast_open profile |}
  end.

Definition encode_component (s : rstr) : rstr := percent_encode USERINFO s.

Definition encode_userinfo (auth : rstr) : rstr :=
  match split_once x3a auth with
  | Some (user, pass) => encode_component user ++ lit ":" ++ encode_component pass
  | None => encode_component auth
  end.

(** The pairs appended to the serializer. *)
Definition query_pairs (p : Profile) : list (rstr * rstr) :=
  match obfs p with
  | Some obfs => [(lit "obfs", obfs_type obfs); (lit "obfs-password", password obfs)]
  | None => []
  end ++
  (if bool_decide (sni (tls p) = []) then [] else [(lit "sni", sni (tls p))]).

Definition to_uri_with_name (p : Profile) (name : option rstr) : rstr :=
  let query := form_serialize (query_pairs p) in
  let userinfo := if bool_decide (auth p = []) then [] else encode_userinfo (auth p) ++ lit "@" in
  let query := if bool_decide (query = []) then [] else lit "?" ++ query in
  let base := lit "hysteria2://" ++ userinfo ++ server p ++ lit "/" ++ query in
  match non_empty (trim <$> name) with
  | Some n => base ++ lit "#" ++ percent_encode FRAGMENT n
  | None => base
  end.

Definition to_uri (p : Profile) : rstr := to_uri_with_name p None.

Definition name_from_uri (s : rstr) : option rstr :=
  '(scheme, after) ← split_once_str (lit "://") s;
  if negb (is_scheme scheme) then None else
  '(_, fragment) ← split_once x23 after;
  if bool_decide (fragment = []) then None else percent_decode fragment.

(** ** Characters *)

(** What userinfo is made of once encoded, with its colon. *)
Definition userinfo_char (b : byte) : bool := alnum b || bool_decide (b ∈ lit "-._~%:").

Lemma hex_alnum b : hex_digit b = true → alnum b = true.
Proof.
  unfold hex_digit, alnum, in_range. rewrite !orb_true_iff, !andb_true_iff, !Z.leb_le. lia.
Qed.

Lemma encode_component_chars s : Forall (λ b, userinfo_char b = true) (encode_component s).
Proof.
  eapply Forall_impl; [apply percent_encode_chars|]. intros b Hb. cbv beta in Hb.
  unfold userinfo_char. destruct Hb as [->|[Hh|[Hu _]]]; [done|by rewrite (hex_alnum b Hh)|].
  unfold USERINFO in Hu. apply andb_false_iff in Hu as [Hu|Hu]; apply negb_false_iff in Hu.
  - by rewrite Hu.
  - apply bool_decide_eq_true in Hu. apply orb_true_iff. right. apply bool_decide_eq_true.
    revert Hu. rewrite !list_elem_of_In. cbn. tauto.
Qed.

Lemma encode_userinfo_chars s : Forall (λ b, userinfo_char b = true) (encode_userinfo s).
Proof.
  unfold encode_userinfo. destruct (split_once x3a s) as [[u w]|]; [|apply encode_component_chars].
  rewrite !Forall_app. split_and!; [apply encode_component_chars|by repeat constructor|].
  apply encode_component_chars.
Qed.

(** A list of such characters holds no delimiter. *)
Lemma chars_not_in (P : byte → bool) (d : byte) (s : rstr) :
  Forall (λ b, P b = true) s → P d = false → d ∉ s.
Proof. intros Hs Hd Hin. rewrite Forall_forall in Hs. specialize (Hs d Hin). congruence. Qed.

Lemma form_serialize_no_delim l d :
  alnum d = false → d ∉ lit "*-._+%&=" → d ∉ form_serialize l.
Proof.
  intros Ha Hd Hin. pose proof (form_serialize_chars l) as Hc. rewrite Forall_forall in Hc.
  destruct (Hc d Hin); [congruence|done].
Qed.

Lemma until_app c a r : c ∉ a → until (λ b, bool_decide (b = c)) (a ++ c :: r) = a.
Proof.
  induction a as [|b a IH]; intros Hc; cbn.
  - by rewrite bool_decide_eq_true_2.
  - rewrite bool_decide_eq_false_2 by set_solver. f_equal. apply IH. set_solver.
Qed.

Lemma until_all c a : c ∉ a → until (λ b, bool_decide (b = c)) a = a.
Proof.
  intros Hc. apply until_no_sep, Forall_forall. intros b Hb.
  apply bool_decide_eq_false. congruence.
Qed.

Lemma not_elem_of_until c s : c ∉ until (λ b, bool_decide (b = c)) s.
Proof.
  induction s as [|b s IH]; cbn; [apply not_elem_of_nil|].
  case_bool_decide; [apply not_elem_of_nil|]. set_solver.
Qed.

Lemma elem_of_until f s b : b ∈ until f s → b ∈ s.
Proof.
  induction s as [|x s IH]; cbn; [done|]. destruct (f x); [|set_solver].
  by intros ?%not_elem_of_nil.
Qed.

Lemma head_split c s : default [] (head (split c s)) = until (λ b, bool_decide (b = c)) s.
Proof. unfold split. by rewrite head_split_on. Qed.

(** ** The query map *)

Fixpoint first (k : rstr) (l : list (rstr * rstr)) : option rstr :=
  match l with
  | [] => None
  | (k', v) :: l => if decide (k' = k) then Some v else first k l
  end.

Lemma parse_query_lookup q k : parse_query q !! k = first k (form_parse q).
Proof.
  assert (Hm : ∀ l m, foldl (λ map '(k, v),
      match map !! k with Some _ => map | None => <[k := v]> map end) m l !! k =
    match (m : gmap (list byte) rstr) !! k with Some v => Some v | None => first k l end).
  { induction l as [|[k' v] l IH]; intros m; cbn [foldl first].
    - by destruct (m !! k).
    - rewrite IH. case_decide as Hk; [subst k'|].
      + destruct (m !! k) eqn:Hmk; [by rewrite Hmk|]. by rewrite lookup_insert_eq.
      + destruct (m !! k'); [done|]. by rewrite lookup_insert_ne. }
  unfold parse_query. rewrite Hm. by rewrite lookup_empty.
Qed.

Lemma first_utf8 q k v : first k (form_parse q) = Some v → utf8_valid v = true.
Proof.
  pose proof (form_parse_utf8 q) as Hq. induction Hq as [|[k' v'] l [_ Hv] Hq IH]; cbn; [done|].
  case_decide; [|done]. by intros [= <-].
Qed.

(** ** The profiles a link carries *)

Definition no_delims (s : rstr) : Prop := (x2f ∉ s) ∧ (x3f ∉ s) ∧ (x23 ∉ s) ∧ (x40 ∉ s).

Record linkable (p : Profile) : Prop := {
  lk_server : server p ≠ [];
  lk_delims : no_delims (server p);
  lk_auth : utf8_valid (Profile.auth p) = true;
  lk_sni : utf8_valid (sni (tls p)) = true;
  lk_obfs : ∀ o, obfs p = Some o → obfs_type o ≠ [] ∧ utf8_valid (obfs_type o) = true ∧
    utf8_valid (password o) = true;
  lk_fast_open : fast_open p = false;
}.

Definition userinfo_part (p : Profile) : rstr :=
  if bool_decide (Profile.auth p = []) then [] else encode_userinfo (Profile.auth p) ++ lit "@".
Definition query_part (p : Profile) : rstr :=
  if bool_decide (form_serialize (query_pairs p) = []) then []
  else lit "?" ++ form_serialize (query_pairs p).
Definition name_part (name : option rstr) : rstr :=
  match non_empty (trim <$> name) with
  | Some n => lit "#" ++ percent_encode FRAGMENT n
  | None => []
  end.

Lemma to_uri_parts p name :
  to_uri_with_name p name =
  lit "hysteria2://" ++ (userinfo_part p ++ server p ++ lit "/" ++ query_part p) ++ name_part name.
Proof.
  unfold to_uri_with_name, name_part. fold (userinfo_part p). fold (query_part p).
  destruct (non_empty _); [by rewrite <-app_assoc|by rewrite app_nil_r].
Qed.

Lemma userinfo_no_delim p d :
  userinfo_char d = false → d ≠ x40 → d ∉ userinfo_part p.
Proof.
  intros Hd Hne. unfold userinfo_part. case_bool_decide; [apply not_elem_of_nil|].
  pose proof (chars_not_in _ _ _ (encode_userinfo_chars (Profile.auth p)) Hd).
  rewrite elem_of_app. cbn. set_solver.
Qed.

Lemma query_no_delim p d :
  alnum d = false → d ∉ lit "*-._+%&=" → d ≠ x3f → d ∉ query_part p.
Proof.
  intros Ha Hd Hne. unfold query_part. case_bool_decide; [apply not_elem_of_nil|].
  pose proof (form_serialize_no_delim (query_pairs p) d Ha Hd). rewrite elem_of_app. cbn. set_solver.
Qed.

Lemma decode_userinfo s : utf8_valid s = true → percent_decode (encode_userinfo s) = Some s.
Proof.
  intros Hs. unfold percent_decode, encode_userinfo, encode_component.
  assert (Hd : ∀ x, percent_decode_bytes (percent_encode USERINFO x) = x)
    by (intros x; by apply percent_decode_encode).
  destruct (split_once x3a s) as [[u w]|] eqn:Hsp.
  - apply split_once_Some in Hsp as [-> _]. cbn [lit String.list_byte_of_string].
    change (lit ":" ++ percent_encode USERINFO w) with (x3a :: percent_encode USERINFO w).
    rewrite percent_decode_split, !Hd by done. unfold from_utf8. by rewrite Hs.
  - rewrite Hd. unfold from_utf8. by rewrite Hs.
Qed.

(** ** Parsing what was printed *)

(** The profile read off an authority and a query. *)
Definition build_fields (sni obfs password : option rstr) (host auth : rstr) : Profile :=
  {| server := host; auth := auth;
     tls := match sni with
            | Some sni => {| sni := sni |}
            | None => tls default_profile
            end;
     obfs := match obfs with
             | Some t => Some {| obfs_type := t; password := default [] password |}
             | None => None
             end;
     fast_open := false |}.
Definition build (auth host : rstr) (query : option rstr) : Profile :=
  build_fields (query ≫= (λ q, non_empty (parse_query q !! lit "sni")))
    (query ≫= (λ q, non_empty (parse_query q !! lit "obfs")))
    (query ≫= (λ q, parse_query q !! lit "obfs-password")) host auth.

(** The structure of [parse_uri], cut at the delimiters. *)
Lemma parse_uri_split s :
  parse_uri s =
  '(scheme, after) ← split_once_str (lit "://") s;
  if negb (is_scheme scheme) then None else
  let after := until (λ b, bool_decide (b = x23)) after in
  let '(ap, query) := match split_once x3f after with
                      | Some (ap, q) => (ap, Some q)
                      | None => (after, None)
                      end in
  let authority := until (λ b, bool_decide (b = x2f)) ap in
  '(auth, host) ←
    match rsplit_once x40 authority with
    | Some (user, host) => a ← percent_decode user; Some (a, host)
    | None => Some ([], authority)
    end;
  if bool_decide (host = []) then None else Some (build auth host query).
Proof.
  unfold parse_uri. destruct (split_once_str _ s) as [[scheme after]|]; [|done].
  cbn [mbind option_bind]. destruct (negb _); [done|]. cbv zeta. rewrite head_split.
  destruct (split_once x3f _) as [[ap q]|]; rewrite head_split.
  all: destruct (rsplit_once x40 _) as [[u h]|]; [destruct (percent_decode u)|];
    cbn [mbind option_bind]; try done; by case_bool_decide.
Qed.

Lemma split_link r : split_once_str (lit "://") (lit "hysteria2://" ++ r) = Some (lit "hysteria2", r).
Proof. reflexivity. Qed.

Lemma split_link_part (base frag : rstr) :
  x23 ∉ base → frag = [] ∨ (∃ f, frag = lit "#" ++ f) →
  until (λ b, bool_decide (b = x23)) (base ++ frag) = base.
Proof.
  intros Hb [->|[f ->]]; [rewrite app_nil_r; by apply until_all|by apply until_app].
Qed.

Lemma name_part_shape name : name_part name = [] ∨ ∃ f, name_part name = lit "#" ++ f.
Proof. unfold name_part. destruct (non_empty _); eauto. Qed.

Lemma query_part_split p pre :
  x3f ∉ pre →
  (match split_once x3f (pre ++ query_part p) with
   | Some (ap, q) => (ap, Some q)
   | None => (pre ++ query_part p, None)
   end) =
  (pre, if decide (form_serialize (query_pairs p) = []) then None
        else Some (form_serialize (query_pairs p))).
Proof.
  intros Hp. unfold query_part. case_bool_decide.
  - rewrite app_nil_r, decide_True by done. by rewrite (proj2 (split_once_None _ _)).
  - rewrite decide_False by done. change (lit "?" ++ ?x) with (x3f :: x). by rewrite split_once_app.
Qed.

Lemma query_pairs_utf8 p :
  linkable p →
  Forall (λ kv, utf8_valid kv.1 = true ∧ utf8_valid kv.2 = true) (query_pairs p).
Proof.
  intros Hp. unfold query_pairs. apply Forall_app. split.
  - destruct (obfs p) as [o|] eqn:Ho; [|done]. destruct (lk_obfs _ Hp _ Ho) as (_ & ? & ?).
    by repeat constructor.
  - case_bool_decide; [done|]. repeat constructor. apply (lk_sni _ Hp).
Qed.

Lemma build_query p :
  linkable p →
  build (Profile.auth p) (server p)
    (if decide (form_serialize (query_pairs p) = []) then None
     else Some (form_serialize (query_pairs p))) = p.
Proof.
  intros Hp.
  assert (Hq : ∀ k, ((if decide (form_serialize (query_pairs p) = []) then None
      else Some (form_serialize (query_pairs p))) ≫= λ q, parse_query q !! k) = first k (query_pairs p)).
  { intros k. case_decide as Hn.
    - apply form_serialize_nil in Hn. by rewrite Hn.
    - cbn [mbind option_bind]. rewrite parse_query_lookup, form_parse_serialize; [done|].
      by apply query_pairs_utf8. }
  assert (Hne : ∀ k, ((if decide (form_serialize (query_pairs p) = []) then None
      else Some (form_serialize (query_pairs p))) ≫= λ q, non_empty (parse_query q !! k)) =
      non_empty (first k (query_pairs p))).
  { intros k. rewrite <-Hq. by case_decide. }
  unfold build. rewrite !Hne, Hq. destruct p as [sv au [sn] ob fo].
  pose proof (lk_obfs _ Hp) as Ho. pose proof (lk_fast_open _ Hp) as Hf.
  cbn [server auth obfs tls fast_open Profile.auth sni] in *. subst fo.
  unfold query_pairs. cbn [obfs tls sni].
  destruct ob as [[ty pw]|].
  - destruct (Ho _ eq_refl) as (Hty & _). cbn [obfs_type] in Hty.
    assert (Hne1 : ∀ x, x ≠ [] → non_empty (Some x) = Some x)
      by (intros x Hx; unfold non_empty; cbn; by rewrite bool_decide_eq_false_2).
    case_bool_decide as Hsn.
    + change (build_fields (non_empty None) (non_empty (Some ty)) (Some pw) sv au
        = {| server := sv; auth := au; tls := {| sni := sn |};
             obfs := Some {| obfs_type := ty; password := pw |}; fast_open := false |}).
      rewrite Hne1 by done. by subst.
    + change (build_fields (non_empty (Some sn)) (non_empty (Some ty)) (Some pw) sv au
        = {| server := sv; auth := au; tls := {| sni := sn |};
             obfs := Some {| obfs_type := ty; password := pw |}; fast_open := false |}).
      by rewrite !Hne1.
  - case_bool_decide as Hsn.
    + change (build_fields (non_empty None) (non_empty None) None sv au
        = {| server := sv; auth := au; tls := {| sni := sn |}; obfs := None; fast_open := false |}).
      by subst.
    + change (build_fields (non_empty (Some sn)) (non_empty None) None sv au
        = {| server := sv; auth := au; tls := {| sni := sn |}; obfs := None; fast_open := false |}).
      unfold non_empty. cbn. by rewrite bool_decide_eq_false_2.
Qed.

Lemma parse_to_uri p name : linkable p → parse_uri (to_uri_with_name p name) = Some p.
Proof.
  intros Hp. destruct (lk_delims _ Hp) as (H2f & H3f & H23 & H40).
  rewrite parse_uri_split, to_uri_parts, split_link. cbn [mbind option_bind].
  change (negb (is_scheme (lit "hysteria2"))) with false. cbv iota zeta.
  rewrite split_link_part; [|rewrite !elem_of_app|apply name_part_shape].
  2:{ pose proof (userinfo_no_delim p x23 eq_refl ltac:(done)).
      pose proof (query_no_delim p x23 eq_refl ltac:(by apply (bool_decide_unpack _)) ltac:(done)).
      cbn. set_solver. }
  assert (Hpre : x3f ∉ userinfo_part p ++ server p ++ lit "/").
  { pose proof (userinfo_no_delim p x3f eq_refl ltac:(done)). rewrite !elem_of_app. cbn. set_solver. }
  replace (userinfo_part p ++ server p ++ lit "/" ++ query_part p)
    with ((userinfo_part p ++ server p ++ lit "/") ++ query_part p) by (by rewrite <-!app_assoc).
  rewrite (query_part_split p _ Hpre).
  replace (until _ (userinfo_part p ++ server p ++ lit "/")) with (userinfo_part p ++ server p).
  2:{ rewrite app_assoc. symmetry. apply (until_app x2f _ []).
      pose proof (userinfo_no_delim p x2f eq_refl ltac:(done)). rewrite elem_of_app. tauto. }
  unfold userinfo_part. case_bool_decide as Ha.
  - cbn [app]. rewrite (proj2 (rsplit_once_None _ _)) by done. cbn [mbind option_bind].
    rewrite bool_decide_eq_false_2 by apply (lk_server _ Hp).
    pose proof (build_query p Hp) as Hb. rewrite Ha in Hb. by rewrite Hb.
  - rewrite <-app_assoc. change (lit "@" ++ server p) with (x40 :: server p).
    rewrite rsplit_once_app by done. rewrite decode_userinfo by apply (lk_auth _ Hp).
    cbn [mbind option_bind]. rewrite bool_decide_eq_false_2 by apply (lk_server _ Hp). f_equal.
    by apply build_query.
Qed.

(** What [parse_uri] accepts is linkable again. *)
Lemma percent_decode_utf8 s a : percent_decode s = Some a → utf8_valid a = true.
Proof. unfold percent_decode, from_utf8. destruct (utf8_valid _) eqn:Hu; [|done]. by intros [= <-]. Qed.

Lemma non_empty_Some o s : non_empty o = Some s ↔ o = Some s ∧ s ≠ [].
Proof.
  unfold non_empty. destruct o as [x|]; cbn; [|naive_solver].
  case_bool_decide; naive_solver.
Qed.

Lemma build_linkable a h q :
  h ≠ [] → no_delims h → utf8_valid a = true → linkable (build a h q).
Proof.
  intros Hh Hd Ha.
  assert (Hl : ∀ k v, (q ≫= (λ q, parse_query q !! k)) = Some v → utf8_valid v = true).
  { intros k v Hv. destruct q as [q|]; [|done]. cbn [mbind option_bind] in Hv.
    rewrite parse_query_lookup in Hv. by eapply first_utf8. }
  assert (Hn : ∀ k v, (q ≫= (λ q, non_empty (parse_query q !! k))) = Some v →
    v ≠ [] ∧ utf8_valid v = true).
  { intros k v Hv. specialize (Hl k v). destruct q as [q|]; [|done]. cbn [mbind option_bind] in *.
    apply non_empty_Some in Hv as [Hv ?]. auto. }
  unfold build, build_fields. split; cbn [server auth tls obfs fast_open]; try done.
  - destruct (q ≫= _) as [x|] eqn:Hx; [|done]. by destruct (Hn _ _ Hx).
  - intros o. destruct (q ≫= λ q, non_empty (parse_query q !! lit "obfs")) as [x|] eqn:Hx; [|done].
    intros [= <-]. destruct (Hn _ _ Hx). cbn [obfs_type password]. split_and!; [done|done|].
    destruct (q ≫= λ q, parse_query q !! lit "obfs-password") as [v|] eqn:Hv; [|done].
    by apply (Hl (lit "obfs-password")).
Qed.

Lemma parse_uri_linkable s p : parse_uri s = Some p → linkable p.
Proof.
  rewrite parse_uri_split. intros Hpu.
  destruct (split_once_str _ s) as [[scheme after]|]; [|done]. cbn [mbind option_bind] in Hpu.
  destruct (negb _); [done|]. cbv zeta in Hpu.
  set (after' := until _ after) in Hpu.
  assert (H23 : x23 ∉ after') by apply not_elem_of_until. clearbody after'.
  assert (∃ ap query, (x23 ∉ ap) ∧ (x3f ∉ ap) ∧
    (match split_once x3f after' with Some (ap, q) => (ap, Some q) | None => (after', None) end)
    = (ap, query)) as (ap & query & Hap23 & Hap3f & He).
  { destruct (split_once x3f after') as [[ap q]|] eqn:Hs.
    - apply split_once_Some in Hs as [-> ?]. exists ap, (Some q). set_solver.
    - apply split_once_None in Hs. by exists after', None. }
  rewrite He in Hpu.
  set (authority := until _ ap) in Hpu.
  assert (Hd : (x2f ∉ authority) ∧ (x23 ∉ authority) ∧ (x3f ∉ authority)).
  { split; [apply not_elem_of_until|]. unfold authority. split; intros Hin%elem_of_until; done. }
  clearbody authority. destruct Hd as (H2f & Ha23 & Ha3f).
  destruct (rsplit_once x40 authority) as [[user host]|] eqn:Hr.
  - destruct (percent_decode user) as [a|] eqn:Ha; [|done]. cbn [mbind option_bind] in Hpu.
    case_bool_decide; [done|]. injection Hpu as <-. apply rsplit_once_Some in Hr as [-> H40].
    apply build_linkable; [done| |by eapply percent_decode_utf8]. unfold no_delims. set_solver.
  - cbn [mbind option_bind] in Hpu. case_bool_decide; [done|]. injection Hpu as <-.
    apply rsplit_once_None in Hr. by apply build_linkable.
Qed.

(** ** Properties *)

(** C27: Links carry exactly the linkable profiles: a profile survives being
    shared (under any display name) and parsed back if and only if its server
    is non-empty and free of the link's delimiters, its obfuscation type is
    non-empty, its texts are valid UTF-8 and fast-open is off. *)
Theorem link_roundtrip (p : Profile) (name : option rstr) :
  parse_uri (to_uri_with_name p name) = Some p ↔ linkable p.
Proof. split; [apply parse_uri_linkable|apply parse_to_uri]. Qed.

(** Whatever link a profile was read from, it is linkable, and its canonical
    link is read back as the same profile: importing what was exported changes
    nothing. *)
Theorem parse_uri_canonical (s : rstr) (p : Profile) (Hp : parse_uri s = Some p) :
  linkable p ∧ parse_uri (to_uri p) = Some p.
Proof. split; [|apply parse_to_uri]; by apply (parse_uri_linkable s). Qed.

Lemma name_of_to_uri (p : Profile) (name : option rstr) (Hp : linkable p)
    (Hu : ∀ n, name = Some n → utf8_valid (trim n) = true) :
  name_from_uri (to_uri_with_name p name) = non_empty (trim <$> name).
Proof.
  destruct (lk_delims _ Hp) as (_ & _ & H23 & _).
  unfold name_from_uri. rewrite to_uri_parts, split_link. cbn [mbind option_bind].
  change (negb (is_scheme (lit "hysteria2"))) with false. cbv iota.
  assert (Hb : x23 ∉ userinfo_part p ++ server p ++ lit "/" ++ query_part p).
  { pose proof (userinfo_no_delim p x23 eq_refl ltac:(done)).
    pose proof (query_no_delim p x23 eq_refl ltac:(by apply (bool_decide_unpack _)) ltac:(done)).
    rewrite !elem_of_app. cbn. set_solver. }
  unfold name_part. destruct (non_empty (trim <$> name)) as [n|] eqn:Hn.
  - apply non_empty_Some in Hn as [Hn Hne]. destruct name as [m|]; [|done]. injection Hn as <-.
    change (lit "#" ++ ?x) with (x23 :: x). rewrite split_once_app by done. cbn [mbind option_bind].
    rewrite bool_decide_eq_false_2 by (intros He; by apply percent_encode_nil in He).
    unfold percent_decode, from_utf8. rewrite percent_decode_encode by done.
    by rewrite (Hu m eq_refl).
  - rewrite app_nil_r. by rewrite (proj2 (split_once_None _ _)).
Qed.

(** The display name survives a share: the fragment read back is the name
    without surrounding white space, and there is none when nothing is left of
    it. *)
Theorem name_roundtrip (p : Profile) (name : option rstr) (Hp : linkable p)
    (Hu : ∀ n, name = Some n → utf8_valid (trim n) = true) :
  name_from_uri (to_uri_with_name p name) = non_empty (trim <$> name).
Proof. by apply name_of_to_uri. Qed.
End link.

(** ** A concrete codec, for the witnesses and the tests

    The percent coding of RFC 3986 and the form coding of the URL Standard, so
    that the laws asked of the two crates are those of a real coding. A text
    that does not decode to UTF-8 becomes one replacement character. *)

Definition hex_of (n : Z) : byte := nth (Z.to_nat n) (lit "0123456789ABCDEF") x30.
Definition unhex (b : byte) : option Z :=
  if in_range b 0x30 0x39 then Some (b2z b - 0x30)%Z
  else if in_range b 0x41 0x46 then Some (b2z b - 0x41 + 10)%Z
  else if in_range b 0x61 0x66 then Some (b2z b - 0x61 + 10)%Z
  else None.
Definition hex_pair (b : byte) : list byte := [hex_of (b2z b / 16); hex_of (b2z b mod 16)].

Definition sample_encode (esc : byte → bool) (s : rstr) : rstr :=
  concat ((λ b, if esc b || (0x80 <=? b2z b)%Z then x25 :: hex_pair b else [b]) <$> s).
Fixpoint sample_decode (s : rstr) : list byte :=
  match s with
  | [] => []
  | c :: r =>
    match r with
    | a :: b :: r' =>
      match (if decide (c = x25) then unhex a else None), unhex b with
      | Some x, Some y => z2b (x * 16 + y) :: sample_decode r'
      | _, _ => c :: sample_decode r
      end
    | _ => c :: sample_decode r
    end
  end.

Lemma unhex_pair b :
  unhex (hex_of (b2z b / 16)) = Some (b2z b / 16)%Z ∧
  unhex (hex_of (b2z b mod 16)) = Some (b2z b mod 16)%Z ∧
  Forall (λ c, hex_digit c = true) (hex_pair b).
Proof. split_and!; [by destruct b..|destruct b; by repeat constructor]. Qed.

Lemma unhex_none c : hex_digit c = false → unhex c = None.
Proof.
  unfold hex_digit, unhex. rewrite !orb_false_iff. intros [[-> ->] ->]. done.
Qed.

Lemma sample_decode_step x y z r :
  sample_decode (x :: y :: z :: r) =
  match (if decide (x = x25) then unhex y else None), unhex z with
  | Some u, Some v => z2b (u * 16 + v) :: sample_decode r
  | _, _ => x :: sample_decode (y :: z :: r)
  end.
Proof. reflexivity. Qed.

Lemma sample_decode_split a c b :
  c ≠ x25 → hex_digit c = false →
  sample_decode (a ++ c :: b) = sample_decode a ++ c :: sample_decode b.
Proof.
  intros Hc Hh. pose proof (unhex_none c Hh) as Hu.
  remember (length a) as n eqn:Hn. revert a Hn.
  induction (lt_wf n) as [n _ IH]. intros a Hn.
  assert (H0 : sample_decode (c :: b) = c :: sample_decode b).
  { destruct b as [|x [|y b]]; [done..|]. cbn. by rewrite decide_False. }
  destruct a as [|x a]; [done|].
  assert (H1 : sample_decode (a ++ c :: b) = sample_decode a ++ c :: sample_decode b)
    by (apply (IH (length a)); [cbn in Hn; lia|done]).
  destruct a as [|y a].
  { cbn [app]. transitivity (x :: sample_decode (c :: b)); [|by rewrite H0].
    destruct b as [|z b]; [done|]. rewrite sample_decode_step, Hu. by case_decide. }
  destruct a as [|z a].
  { cbn [app] in *. transitivity (x :: sample_decode (y :: c :: b)); [|by rewrite H1].
    rewrite sample_decode_step, Hu. by destruct (if decide _ then _ else _). }
  cbn [app] in *. rewrite !sample_decode_step.
  destruct (if decide (x = x25) then unhex y else None) as [u|].
  - destruct (unhex z) as [v|]; [|exact (f_equal (cons x) H1)].
    cbn [app]. f_equal. apply (IH (length a)); [cbn in Hn; lia|done].
  - exact (f_equal (cons x) H1).
Qed.

Lemma sample_decode_literal c r : c ≠ x25 → sample_decode (c :: r) = c :: sample_decode r.
Proof. intros Hc. destruct r as [|a [|b r]]; [done..|]. rewrite sample_decode_step. by rewrite decide_False. Qed.

Lemma sample_decode_pair b r : sample_decode (x25 :: hex_pair b ++ r) = b :: sample_decode r.
Proof.
  destruct (unhex_pair b) as (H1 & H2 & _). cbn [hex_pair app sample_decode].
  rewrite decide_True, H1, H2 by done. f_equal.
  rewrite <-(z2b_b2z b) at 3. f_equal. pose proof (Z.div_mod (b2z b) 16). lia.
Qed.

#[export] Program Instance sample_percent : PercentEncoding := {|
  percent_encode := sample_encode;
  percent_decode_bytes := sample_decode;
|}.
Next Obligation.
  intros esc s Hesc. unfold sample_encode. induction s as [|b s IH]; [done|].
  cbn [fmap list_fmap concat]. destruct (esc b || _) eqn:Hb.
  - by rewrite <-app_comm_cons, sample_decode_pair, IH.
  - cbn [app]. rewrite sample_decode_literal, IH; [done|]. intros ->. by rewrite Hesc in Hb.
Qed.
Next Obligation.
  intros esc s. unfold sample_encode. induction s as [|b s IH]; [constructor|].
  cbn [fmap list_fmap concat]. apply Forall_app. split.
  - destruct (esc b || _) eqn:Hb.
    + constructor; [by left|]. eapply Forall_impl; [apply unhex_pair|]. auto.
    + apply orb_false_iff in Hb as [Hb _]. constructor; [|done]. right. right. split; [done|by left].
  - eapply Forall_impl; [exact IH|]. cbv beta. intros c [?|[?|[? ?]]]; auto.
    right. right. split; [done|]. by right.
Qed.
Next Obligation. intros esc [|b s]; [done|]. unfold sample_encode. cbn. by destruct (esc b || _). Qed.
Next Obligation. apply sample_decode_split. Qed.

(** [byte_serialize]. *)
Definition form_literal (b : byte) : bool := alnum b || bool_decide (b ∈ lit "*-._").
Definition form_char (b : byte) : rstr :=
  if form_literal b then [b] else if bool_decide (b = x20) then [x2b] else x25 :: hex_pair b.
Definition form_text (s : rstr) : rstr := concat (form_char <$> s).
Definition plus_to_space (s : rstr) : rstr := (λ b, if decide (b = x2b) then x20 else b) <$> s.
Definition utf8_lossy (s : list byte) : rstr := default [xef; xbf; xbd] (from_utf8 s).
Definition form_decode (s : rstr) : rstr := utf8_lossy (sample_decode (plus_to_space s)).

Definition form_pair (kv : rstr * rstr) : rstr := form_text kv.1 ++ x3d :: form_text kv.2.
Fixpoint sample_serialize (l : list (rstr * rstr)) : rstr :=
  match l with
  | [] => []
  | kv :: l => form_pair kv ++ match l with [] => [] | _ => x26 :: sample_serialize l end
  end.
Definition form_piece (piece : rstr) : option (rstr * rstr) :=
  if bool_decide (piece = []) then None else
  let '(k, v) := default (piece, []) (split_once x3d piece) in Some (form_decode k, form_decode v).
Definition sample_parse (q : list byte) : list (rstr * rstr) := omap form_piece (split x26 q).

Lemma form_char_decode b r :
  sample_decode (plus_to_space (form_char b) ++ r) = b :: sample_decode r.
Proof.
  unfold form_char. destruct (form_literal b) eqn:Hl; [|case_bool_decide as Hb].
  - assert (b ≠ x2b ∧ b ≠ x25) as [H1 H2] by (split; by intros ->). unfold plus_to_space.
    cbn [fmap list_fmap app]. rewrite decide_False by done. by apply sample_decode_literal.
  - subst b. cbn. by apply sample_decode_literal.
  - assert (Hp : plus_to_space (x25 :: hex_pair b) = x25 :: hex_pair b) by by destruct b.
    rewrite Hp. apply sample_decode_pair.
Qed.

Lemma form_decode_text s : utf8_valid s = true → form_decode (form_text s) = s.
Proof.
  intros Hs. unfold form_decode. assert (Hd : sample_decode (plus_to_space (form_text s)) = s).
  { clear Hs. unfold form_text, plus_to_space. induction s as [|b s IH]; [done|].
    cbn [fmap list_fmap concat]. rewrite fmap_app. rewrite <-IH at 2. apply form_char_decode. }
  unfold utf8_lossy, from_utf8. by rewrite Hd, Hs.
Qed.

Lemma form_text_chars s : Forall (λ b, form_literal b = true ∨ b ∈ lit "+%") (form_text s).
Proof.
  unfold form_text. induction s as [|b s IH]; [constructor|]. cbn [fmap list_fmap concat].
  apply Forall_app. split; [|done]. unfold form_char. destruct (form_literal b) eqn:Hl; [|case_bool_decide].
  - constructor; [by left|done].
  - constructor; [right; by apply (bool_decide_unpack _)|done].
  - constructor; [right; by apply (bool_decide_unpack _)|].
    eapply Forall_impl; [apply unhex_pair|]. intros c Hc. left. unfold form_literal. by rewrite hex_alnum.
Qed.

Lemma form_text_not c s : form_literal c = false → c ∉ lit "+%" → c ∉ form_text s.
Proof.
  intros Hl Hc Hin. destruct (proj1 (Forall_forall _ _) (form_text_chars s) c Hin) as [H1|H1]; [congruence|done].
Qed.

Lemma form_piece_pair k v :
  utf8_valid k = true → utf8_valid v = true → form_piece (form_pair (k, v)) = Some (k, v).
Proof.
  intros Hk Hv. unfold form_piece, form_pair. cbn [fst snd].
  rewrite bool_decide_eq_false_2 by (by destruct (form_text k)).
  rewrite split_once_app by (apply form_text_not; [done|by apply (bool_decide_unpack _)]).
  cbn [default from_option id]. by rewrite !form_decode_text.
Qed.

Lemma form_pair_no_amp kv : Forall (λ b, bool_decide (b = x26) = false) (form_pair kv).
Proof.
  apply Forall_forall. intros b Hb. apply bool_decide_eq_false. intros ->. revert Hb. unfold form_pair.
  rewrite elem_of_app, elem_of_cons. intros [Hb|[Hb|Hb]]; [|done|];
    (revert Hb; apply form_text_not; [done|by apply (bool_decide_unpack _)]).
Qed.

Lemma utf8_lossy_valid s : utf8_valid (utf8_lossy s) = true.
Proof. unfold utf8_lossy, from_utf8. by destruct (utf8_valid s) eqn:E. Qed.

#[export] Program Instance sample_form : FormUrlencoded := {|
  form_serialize := sample_serialize;
  form_parse := sample_parse;
|}.
Next Obligation.
  unfold sample_parse, split. induction 1 as [|[k v] l [Hk Hv] Hl IH]; [done|]. cbn [fst snd] in Hk, Hv.
  cbn [sample_serialize]. destruct l as [|kv l].
  - rewrite app_nil_r, split_on_no_sep by apply form_pair_no_amp. cbn [omap list_omap].
    by rewrite form_piece_pair.
  - rewrite split_on_app; [|apply form_pair_no_amp|by apply bool_decide_eq_true].
    cbn [omap list_omap]. rewrite form_piece_pair by done. f_equal. exact IH.
Qed.
Next Obligation.
  intros q. unfold sample_parse. induction (split x26 q) as [|p ps IH]; [constructor|].
  cbn [omap list_omap]. unfold form_piece at 1. case_bool_decide; [done|].
  destruct (default _ _) as [k v]. constructor; [split; apply utf8_lossy_valid|done].
Qed.
Next Obligation.
  assert (Hc : ∀ s, Forall (λ b, alnum b = true ∨ b ∈ lit "*-._+%&=") (form_text s)).
  { intros s. eapply Forall_impl; [apply form_text_chars|]. unfold form_literal. intros b [Hb|Hb].
    - apply orb_true_iff in Hb as [Hb|Hb%bool_decide_eq_true]; [by left|right].
      revert Hb. unfold lit. cbn. set_solver.
    - right. revert Hb. unfold lit. cbn. set_solver. }
  assert (Hp : ∀ kv, Forall (λ b, alnum b = true ∨ b ∈ lit "*-._+%&=") (form_pair kv)).
  { intros [k v]. apply Forall_app. split; [apply Hc|]. constructor; [|apply Hc].
    right. by apply (bool_decide_unpack _). }
  intros l. induction l as [|kv l IH]; [constructor|]. cbn [sample_serialize].
  apply Forall_app. split; [apply Hp|]. destruct l; [constructor|]. constructor; [|exact IH].
  right. by apply (bool_decide_unpack _).
Qed.
Next Obligation.
  intros [|[k v] l]; [done|]. cbn [sample_serialize]. unfold form_pair. by destruct (form_text _).
Qed.

Definition sample_profile : Profile :=
  {| server := lit "zilla.jp:7000-7002"; Profile.auth := lit "john:wick";
     tls := {| sni := lit "real.example" |};
     obfs := Some {| obfs_type := lit "salamander"; password := lit "a&b=c" |};
     fast_open := false |}.

Lemma sample_linkable : linkable sample_profile.
Proof.
  split; try done.
  - cbn. unfold no_delims. split_and!; by apply (bool_decide_unpack _).
  - intros o [= <-]. done.
Defined.

Lemma parse_uri_canonical_witness :
  parse_uri (lit "HY2://zilla.jp/#x") =
    Some {| server := lit "zilla.jp"; Profile.auth := []; tls := {| sni := [] |}; obfs := None;
            fast_open := false |} ∧
  parse_uri (to_uri {| server := lit "zilla.jp"; Profile.auth := []; tls := {| sni := [] |};
                       obfs := None; fast_open := false |}) =
    Some {| server := lit "zilla.jp"; Profile.auth := []; tls := {| sni := [] |}; obfs := None;
            fast_open := false |}.
Proof.
  split; [vm_compute; reflexivity|].
  apply (parse_uri_canonical (lit "HY2://zilla.jp/#x")). vm_compute. reflexivity.
Defined.

Lemma name_roundtrip_witness :
  name_from_uri (to_uri_with_name sample_profile (Some (lit " Work: C++ "))) =
  Some (lit "Work: C++").
Proof.
  apply (name_roundtrip sample_profile (Some (lit " Work: C++ ")) sample_linkable).
  intros n [= <-]. vm_compute. reflexivity.
Defined.
End Link.
