(* ===== verification/Dial.v ===== *)
(** * Dial: from a link to the datagrams of its connection

    Composes what [Link], [ClientConfig], [Transport] and [Socket] model: a
    share link is parsed to a profile ([config::parse_uri]), the profile becomes
    a client configuration ([Config::from_profile]), [Client::connect] dials,
    verifies and authenticates with it, and the endpoint it made sends its
    datagrams through the stack of sockets. *)
From S2P Require Import Prelude IoRead RustStr Profile Errors PortUnion Net Obfs ClientConfig Tls Http UdpSession Transport Socket Link.

Module Dial.
Import RustStr Net.
#[local] Existing Instance Transport.headers_map.
#[local] Existing Instance Transport.quic_rustls.

(** A connection made for a profile. *)
Section dial.
Context `{Resolver, Transport.Quic, Blake2b256}.

(** The name the server must prove: the profile's, or the host dialled. *)
Definition server_name_of (p : Profile.Profile) : rstr :=
  if decide (Profile.sni (Profile.tls p) = []) then (ClientConfig.split_host_port (Profile.server p)).1
  else Profile.sni (Profile.tls p).

(** Whether a port spec asks for hopping. *)
Definition hops (spec : rstr) : Prop := x2d ∈ spec ∨ x2c ∈ spec.
#[export] Instance hops_dec spec : Decision (hops spec).
Proof. unfold hops. apply _. Defined.

(** The datagram on the wire for a payload of the profile's connection. *)
Definition sealed (p : Profile.Profile) (rng : nat → Z) (payload : list byte) : list byte :=
  match Profile.obfs p with
  | Some o => Obfs.seal (Obfs.Build_SalamanderObfuscator (Profile.password o)) (Obfs.random_salt rng) payload
  | None => payload
  end.

(** Where the datagrams for the server at [ip] go. *)
Definition sent_to (p : Profile.Profile) (server : IpAddr) (asked dst : SocketAddr) : Prop :=
  let spec := (ClientConfig.split_host_port (Profile.server p)).2 in
  if decide (hops spec) then
    ∃ ports q, PortUnion.parse_port_union spec = Some ports ∧ PortUnion.contains ports q = true ∧
      dst = socket_addr server q
  else dst = asked.

(** The configuration [connect] uses for a profile. *)
Lemma profile_hops p config :
  ClientConfig.from_profile p = Ok config →
  let spec := (ClientConfig.split_host_port (Profile.server p)).2 in
  let c := Transport.effective_config config in
  match Transport.hop_addrs c with
  | Some _ => hops spec ∧ ClientConfig.hop_ports c = PortUnion.parse_port_union spec
  | None => ¬ hops spec
  end.
Proof.
  intros Hp. pose proof (ClientConfig.from_profile_cases p) as Hc. rewrite Hp in Hc.
  destruct (ClientConfig.split_host_port _) as [host spec]. destruct Hc as (_ & Hh & _). cbn [snd].
  destruct (Transport.effective_same config) as (_ & _ & _ & _ & _ & Hports & _).
  cbn zeta. unfold Transport.hop_addrs. rewrite Hports. unfold hops.
  destruct (ClientConfig.hop_ports config) as [u|]; cbn [mbind option_bind]; [|naive_solver].
  destruct Hh as (Hn & Hu & Hin). rewrite bool_decide_eq_false_2.
  - split; [|done]. destruct (decide (x2d ∈ spec)); [by left|]. destruct (decide (x2c ∈ spec)); [by right|]. by destruct Hn.
  - apply PortUnion.contains_covers, PortUnion.elem_of_ports in Hin.
    destruct (PortUnion.ports u); [by apply not_elem_of_nil in Hin|done].
Qed.

Lemma profile_wire p config rng payload :
  ClientConfig.from_profile p = Ok config →
  Socket.wire_of (Transport.effective_config config) rng payload = sealed p rng payload.
Proof.
  intros Hp. pose proof (ClientConfig.from_profile_cases p) as Hc. rewrite Hp in Hc.
  destruct (ClientConfig.split_host_port _) as [host spec]. destruct Hc as (_ & _ & _ & _ & Ho & _).
  destruct (Transport.effective_same config) as (_ & _ & _ & _ & Hobfs & _).
  unfold Socket.wire_of, sealed. rewrite Hobfs, Ho. by destruct (Profile.obfs p).
Qed.

Lemma profile_goes_to p config asked dst :
  ClientConfig.from_profile p = Ok config →
  Socket.goes_to (Transport.effective_config config) asked dst →
  sent_to p (ip (ClientConfig.server_addr (Transport.effective_config config))) asked dst.
Proof.
  intros Hp. pose proof (profile_hops p config Hp) as Hh. unfold Socket.goes_to, sent_to. cbn zeta in Hh.
  destruct (Transport.hop_addrs _).
  - destruct Hh as [Hs Hports]. rewrite decide_True by done.
    intros (u & q & Hu & Hq & ->). exists u, q. by rewrite <-Hports.
  - by rewrite decide_False.
Qed.
(** What [connect] is given for a profile. *)
Lemma profile_fields p config :
  ClientConfig.from_profile p = Ok config →
  let c := Transport.effective_config config in
  ClientConfig.first_port (ClientConfig.split_host_port (Profile.server p)).2 (port (ClientConfig.server_addr c)) ∧
  ClientConfig.auth c = Profile.auth p ∧ ClientConfig.fast_open c = Profile.fast_open p ∧
  ClientConfig.obfs c = Profile.password <$> Profile.obfs p ∧
  ClientConfig.tls c = {| ClientConfig.server_name := server_name_of p; ClientConfig.ca := None |} ∧
  ClientConfig.bandwidth c = ClientConfig.default_bandwidth ∧ ClientConfig.unsigned_hop config.
Proof.
  intros Hp. cbn zeta. pose proof (ClientConfig.from_profile_cases p) as Hf. rewrite Hp in Hf.
  destruct (Transport.effective_same config) as (-> & -> & -> & -> & -> & _ & ->).
  unfold server_name_of. destruct (ClientConfig.split_host_port _) as [host spec].
  destruct Hf as (Hport & _ & ? & ? & ? & ? & ? & ? & _). split; [|done].
  by apply ClientConfig.primary_port_first.
Qed.

(** The socket of a profile's connection: each datagram sent is sealed under the
    salt drawn for it, and what was sealed under any salt is shown. *)
Definition profile_socket_ok (p : Profile.Profile) (server : SocketAddr) (raw sock : AsyncUdpSocket) : Prop :=
  (∀ salt t, Socket.fits (contents t) →
     ∃ dst segment, sent_to p (ip server) (destination t) dst ∧
       try_send sock salt t = try_send raw salt {| destination := dst; ecn := ecn t;
         contents := sealed p salt (contents t); segment_size := segment; src_ip := src_ip t |}) ∧
  (∀ salt payload slots from, Socket.fits payload → Socket.shows raw slots (sealed p salt payload) from →
     ∃ from', Socket.shows sock slots payload from' ∧
       if decide (hops (ClientConfig.split_host_port (Profile.server p)).2) then from' = server else from' = from) ∧
  max_transmit_segments sock = match Profile.obfs p with Some _ => 1 | None => max_transmit_segments raw end.

Definition carrying (payload : list byte) : Transmit :=
  {| destination := socket_addr (V4 0) 0; ecn := None; contents := payload; segment_size := None;
     src_ip := None |}.

Lemma profile_socket dbg d bind p config ep raw :
  ClientConfig.from_profile p = Ok config →
  let c := Transport.effective_config config in
  Transport.build_endpoint dbg d bind c = Ok ep →
  profile_socket_ok p (ClientConfig.server_addr c) raw (Socket.stack raw ep).
Proof.
  intros Hp c He.
  pose proof (λ salt t, Socket.socket_stack dbg d bind c ep raw salt t He) as Hstack.
  pose proof (profile_hops p config Hp) as Hh. cbn zeta in Hh. fold c in Hh.
  destruct (profile_fields p config Hp) as (_ & _ & _ & Hobfs & _). fold c in Hobfs.
  pose proof (λ salt payload, profile_wire p config salt payload Hp) as Hwire. fold c in Hwire. split_and!.
  - intros salt t Hfit. destruct (Hstack salt t Hfit) as ((dst & Hto & Hsend) & _).
    rewrite Hwire in Hsend.
    exists dst. eexists. split; [by apply profile_goes_to|exact Hsend].
  - intros salt payload slots from Hfit Hsh. destruct (Hstack salt (carrying payload) Hfit) as (_ & Hshow & _).
    rewrite Hwire in Hshow.
    eexists. split; [by apply Hshow|].
    destruct (Transport.hop_addrs c); [rewrite decide_True by apply Hh; done|by rewrite decide_False].
  - destruct (Hstack (λ _, 0%Z) (carrying [x00])) as (_ & _ & Hseg).
    { split; [discriminate|]. apply Nat.leb_le. reflexivity. }
    rewrite Hseg, Hobfs. by destruct (Profile.obfs p).
Qed.
End dial.

(** C11: A link that was pasted, from the text to the wire. When the profile it
    parses to could be dialled and the connection was made, then: the address
    dialled has the first port of the link's port spec, and is canonical; the
    server proved the link's server name, or its host, to the platform's trust
    store, and accepted the link's credential with status 233; fast open is
    off. On whatever socket, every datagram of 1 to 2040 bytes the connection
    sends leaves the innermost socket as one: to one of the ports of the link's
    list or range at the server's address, or where QUIC asked if the link
    names one port; and sealed with the link's obfuscation password under the
    salt drawn for it, or as it is if the link has none. Whatever payload of
    that size is sealed with the password, under any salt, is shown to QUIC as
    it was. Under obfuscation datagrams are not batched. Nothing is
    claimed of other sizes, which the obfuscation drops. *)
Theorem link_to_wire `{PercentEncoding, FormUrlencoded, Resolver, Transport.Quic, Blake2b256}
    (dbg : bool) (rng : nat → Z) (d : Z) (uri : rstr) (p : Profile.Profile) (config : ClientConfig.Config)
    (log log' : list Z) (client : Transport.Client) (info : Transport.HandshakeInfo)
    (Hlink : Link.parse_uri uri = Some p) (Hp : ClientConfig.from_profile p = Ok config)
    (Hc : Transport.connect dbg rng d config log = (Ok (client, info), log')) :
  let server := Transport.server_addr info in
  ClientConfig.server_parts (Profile.server p) (ClientConfig.split_host_port (Profile.server p)).1
    (ClientConfig.split_host_port (Profile.server p)).2 ∧
  ClientConfig.first_port (ClientConfig.split_host_port (Profile.server p)).2 (port server) ∧
  to_canonical (ip server) = ip server ∧
  (∃ qc, Tls.server_cert_verifier (Transport.crypto qc) =
       Tls.verifier_for {| ClientConfig.server_name := server_name_of p; ClientConfig.ca := None |} ∧
     Transport.connect_with qc server (server_name_of p) = Ok ()) ∧
  (∃ response, Transport.exchange (Http.auth_request_to_header Transport.headers_new
     {| Http.auth := Profile.auth p; Http.req_rx := 0 |} rng) = Ok (Http.STATUS_AUTH_OK, response)) ∧
  Transport.fast_open client = false ∧
  ∀ raw, let sock := Socket.stack raw (Transport.client_endpoint client) in
    (∀ salt t, Socket.fits (contents t) →
       ∃ dst segment, sent_to p (ip server) (destination t) dst ∧
         try_send sock salt t = try_send raw salt {| destination := dst; ecn := ecn t;
           contents := sealed p salt (contents t); segment_size := segment; src_ip := src_ip t |}) ∧
    (∀ salt payload slots from, Socket.fits payload → Socket.shows raw slots (sealed p salt payload) from →
       ∃ from', Socket.shows sock slots payload from' ∧
         if decide (hops (ClientConfig.split_host_port (Profile.server p)).2) then from' = server else from' = from) ∧
    max_transmit_segments sock = match Profile.obfs p with Some _ => 1 | None => max_transmit_segments raw end.
Proof.
  intros server. destruct (profile_fields p config Hp) as (Hport & Hauth & Hfo & _ & Htls & Hbw & Huns).
  destruct (Transport.connect_stages _ _ _ _ _ _ _ _ Huns Hc)
    as (_ & _ & qc & response & Hqc & Hep & Hcw & _ & Hx & _ & Hserver & Hfast & _).
  apply Transport.build_quic_verifier in Hqc. rewrite Htls in Hqc, Hcw. rewrite Hauth, Hbw in Hx.
  unfold server. rewrite Hserver. split_and!; [apply ClientConfig.split_server_parts|done|apply Transport.set_ip_canonical|by exists qc|by exists response| |].
  - rewrite Hfast, Hfo. by apply Link.lk_fast_open, (Link.parse_uri_linkable uri).
  - intros raw. by apply (profile_socket dbg d _ p config _ raw Hp Hep).
Qed.

(** ** Witness: a shared link with a range of ports and an obfuscation key *)

#[local] Existing Instance Link.sample_percent.
#[local] Existing Instance Link.sample_form.
#[local] Existing Instance Obfs.sample_blake.
#[local] Program Instance ex_resolver : Resolver :=
  {| to_socket_addrs _ p := Ok [socket_addr (V4 0x01020304) p] |}.
Next Obligation. intros host p l [= <-]. by repeat constructor. Qed.
Next Obligation. done. Qed.

Definition ex_link : rstr := Link.to_uri_with_name Link.sample_profile (Some (lit "Home")).
Definition ex_config : ClientConfig.Config :=
  match ClientConfig.from_profile Link.sample_profile with
  | Ok c => c
  | _ => Transport.sample_config None
  end.

Lemma link_to_wire_witness :
  ∃ client info, @Transport.connect (Transport.sample_quic 233) true Z.of_nat 5 ex_config [] = (Ok (client, info), []) ∧
    port (Transport.server_addr info) = 7000%Z ∧
    let sock := Socket.stack Socket.ex_raw (Transport.client_endpoint client) in
    max_transmit_segments sock = 1 ∧
    ∃ q segment, (7000 ≤ q ≤ 7002)%Z ∧ try_send sock (λ i, Z.of_nat (i + 1)) Socket.ex_datagram =
      try_send Socket.ex_raw (λ i, Z.of_nat (i + 1)) {| destination := socket_addr (V4 0x01020304) q; ecn := None;
        contents := sealed Link.sample_profile (λ i, Z.of_nat (i + 1)) (lit "hi"); segment_size := segment; src_ip := None |}.
Proof.
  eexists _, _. split; [vm_compute; reflexivity|]. split; [reflexivity|]. cbv zeta.
  destruct (@link_to_wire _ _ ex_resolver (Transport.sample_quic 233) Obfs.sample_blake true Z.of_nat 5 ex_link
    Link.sample_profile ex_config [] []
    (match (@Transport.connect (Transport.sample_quic 233) true Z.of_nat 5 ex_config []).1 with
     | Ok (c, _) => c | _ => {| Transport.client_endpoint := Transport.Plain Socket.ex_bind;
                               Transport.udp_sm := None; Transport.fast_open := true |} end)
    (match (@Transport.connect (Transport.sample_quic 233) true Z.of_nat 5 ex_config []).1 with
     | Ok (_, i) => i | _ => {| Transport.udp_enabled := false; Transport.tx := 0;
                               Transport.server_addr := Socket.ex_bind |} end))
    as (_ & _ & _ & _ & _ & _ & Hsock).
  - vm_compute. reflexivity.
  - vm_compute. reflexivity.
  - vm_compute. reflexivity.
  - destruct (Hsock Socket.ex_raw) as (Hsent & _ & Hseg).
    destruct (Hsent (λ i, Z.of_nat (i + 1)) Socket.ex_datagram) as (dst & seg & Hto & Hsend).
    + split; [discriminate|apply Nat.leb_le; reflexivity].
    + split; [exact Hseg|].
      assert (Hspec : hops (ClientConfig.split_host_port (Profile.server Link.sample_profile)).2)
        by (apply (bool_decide_unpack _); vm_compute; reflexivity).
      unfold sent_to in Hto. rewrite decide_True in Hto by exact Hspec.
      destruct Hto as (u & q & Hu & Hq & ->). vm_compute in Hu. injection Hu as <-.
      cbn in Hq. rewrite orb_false_r in Hq. apply andb_true_iff in Hq as [H1%Z.leb_le H2%Z.leb_le].
      exists q, seg. split; [lia|]. exact Hsend.
Defined.

End Dial.
