(* ===== verification/Store.v ===== *)
(** * Store: profile metadata on disk, secrets in the native secure store

    Models the [store] crate: [Store::new], [list], [add], [delete], [rename],
    [load], with [find_matching], [persist] and [host_of], over the
    [SecureStore] trait and the in-memory [DevSecureStore].

    The world a store lives in is the metadata file, the secure-store backend
    and the faults the file system has yet to report, one per call, so that
    every error path is reached. The JSON codec and UUID formatting come from
    external crates and are interfaces. *)
From S2P Require Import Prelude RustStr Profile.

Record SecureStoreError := { ss_message : rstr }.

(** [trait SecureStore], with what its documentation promises: [contents] are
    the secrets held; a failed call may leave anything under its own key but
    touches no other. *)
Class SecureStore (B : Type) := {
  ss_get : rstr → B → outcome SecureStoreError (option (list byte));
  ss_set : rstr → list byte → B → outcome SecureStoreError () * B;
  ss_delete : rstr → B → outcome SecureStoreError () * B;
  contents : B → gmap (list byte) (list byte);
  ss_get_ok id b o : ss_get id b = Ok o → o = contents b !! id;
  ss_set_ok id s b b' : ss_set id s b = (Ok (), b') → contents b' = <[id := s]> (contents b);
  ss_set_other id s b r b' j :
    ss_set id s b = (r, b') → j ≠ id → contents b' !! j = contents b !! j;
  ss_delete_ok id b b' : ss_delete id b = (Ok (), b') → contents b' = delete id (contents b);
  ss_delete_other id b r b' j :
    ss_delete id b = (r, b') → j ≠ id → contents b' !! j = contents b !! j;
  ss_get_total id b : ss_get id b ≠ Panic;
  ss_set_total id s b : (ss_set id s b).1 ≠ Panic;
  ss_delete_total id b : (ss_delete id b).1 ≠ Panic;
}.

(** [DevSecureStore]: a map that never fails. *)
#[export] Program Instance dev_secure_store : SecureStore (gmap (list byte) (list byte)) := {|
  ss_get id b := Ok (b !! id);
  ss_set id s b := (Ok (), <[id := s]> b);
  ss_delete id b := (Ok (), delete id b);
  contents b := b;
|}.
Next Obligation. by intros id b o [= <-]. Qed.
Next Obligation. by intros id s b b' [= <-]. Qed.
Next Obligation. intros id s b r b' j [= <- <-] Hj. by apply lookup_insert_ne. Qed.
Next Obligation. by intros id b b' [= <-]. Qed.
Next Obligation. intros id b r b' j [= <- <-] Hj. by apply lookup_delete_ne. Qed.
Next Obligation. done. Qed.
Next Obligation. done. Qed.
Next Obligation. done. Qed.

Module Store.
Import RustStr.
#[local] Existing Instance Profile.Profile_eq_dec.

Definition SCHEMA_VERSION : Z := 1.

Inductive StoreError :=
| Io (e : rstr)
| Serde (e : rstr)
| Secure (e : SecureStoreError)
| Clock
| UnsupportedSchema (version : Z).

Record Entry := { id : rstr; name : rstr; created_at : Z }.
#[export] Instance Entry_eq_dec : EqDecision Entry.
Proof. solve_decision. Defined.

Record Document := { schema_version : Z; doc_entries : list Entry }.

(** [host_of]: the fallback display name. *)
Definition host_of (server : rstr) : rstr :=
  let s := trim server in
  let bracketed := rest ← strip_prefix (lit "[") s; fst <$> split_once x5d rest in
  match bracketed with
  | Some host => host
  | None =>
    match rsplit_once x3a s with
    | Some (host, _) => if bool_decide (host = []) then s else host
    | None => s
    end
  end.

(** The derived [serde] implementations through [serde_json], and the [uuid]
    crate's formatting. *)
Class Codec := {
  profile_to_vec : Profile.Profile → outcome rstr (list byte);
  profile_from_slice : list byte → outcome rstr Profile.Profile;
  document_to_vec : Document → outcome rstr (list byte);
  document_from_slice : list byte → outcome rstr Document;
  uuid_string : list byte → rstr;
  profile_codec p b : profile_to_vec p = Ok b → profile_from_slice b = Ok p;
  document_codec d b : document_to_vec d = Ok b → document_from_slice b = Ok d;
  profile_to_vec_total p : profile_to_vec p ≠ Panic;
  profile_from_slice_total b : profile_from_slice b ≠ Panic;
  document_to_vec_total d : document_to_vec d ≠ Panic;
  document_from_slice_total b : document_from_slice b ≠ Panic;
}.

Section store.
Context `{SecureStore B, Codec}.

(** What a crash leaves: a document, if there is one, and the secrets. *)
Record remains := { left_disk : option (list byte); left_backend : B }.

(** What a store acts on: the file at [doc_path], the secure store, the faults
    the coming file-system calls will report, and what a crash would have left
    at each change so far, the newest last. *)
Record world := {
  disk : option (list byte);
  backend : B;
  faults : list (option rstr);
  past : list remains;
}.

(** [Store], with its world. *)
Record store := { entries : list Entry; env : world }.

Abbreviation store_m := (stm store StoreError).

Definition set_entries (f : list Entry → list Entry) (s : store) : store :=
  {| entries := f (entries s); env := env s |}.
Definition set_env (f : world → world) (s : store) : store :=
  {| entries := entries s; env := f (env s) |}.
Definition set_backend (b : B) (w : world) : world :=
  {| disk := disk w; backend := b; faults := faults w;
     past := past w ++ [{| left_disk := disk w; left_backend := b |}] |}.

(** A temporary file: what was written, and whether it was flushed. *)
Record file := { content : list byte; synced : bool }.

(** The rename of a temporary file over the document. It is atomic; but a crash
    may leave the document empty if its content was never flushed. *)
Definition set_disk (tmp : file) (w : world) : world :=
  let left bytes := {| left_disk := Some bytes; left_backend := backend w |} in
  {| disk := Some (content tmp); backend := backend w; faults := faults w;
     past := past w ++ (if synced tmp then [] else [left []]) ++ [left (content tmp)] |}.

(** One file-system call: it fails when the world has a fault for it. *)
Definition fs_call (w : world) : outcome StoreError () * world :=
  let w' := {| disk := disk w; backend := backend w; faults := tail (faults w); past := past w |} in
  (match head (faults w) with Some (Some e) => Err (Io e) | _ => Ok () end, w').
Definition fs_op : store_m () := zoom env (λ w s, set_env (λ _, w) s) fs_call.

(** [Store::new]: what opening the document gives. *)
Definition new (w : world) : outcome StoreError store :=
  match fs_call w with
  | (Ok _, w) =>
    match disk w with
    | Some bytes =>
      doc ← map_err Serde (document_from_slice bytes);
      if (SCHEMA_VERSION <? schema_version doc)%Z then Err (UnsupportedSchema (schema_version doc))
      else Ok {| entries := doc_entries doc; env := w |}
    | None => Ok {| entries := []; env := w |}
    end
  | (Err e, _) => Err e
  | (Panic, _) => Panic
  end.

Definition list_entries (s : store) : list Entry := entries s.

(** [load]. *)
Definition load (id : rstr) (s : store) : outcome StoreError (option Profile.Profile) :=
  o ← map_err Secure (ss_get id (backend (env s)));
  match o with
  | Some bytes => Some <$> map_err Serde (profile_from_slice bytes)
  | None => Ok None
  end.

Definition matches (link : Profile.Profile) (s : store) (e : Entry) : bool :=
  match load (id e) s with
  | Ok (Some p) => bool_decide (p = link)
  | _ => false
  end.
Definition find_matching (link : Profile.Profile) (s : store) : option Entry :=
  List.find (matches link s) (entries s).

(** The calls on the temporary file. *)
Definition new_in : store_m file := _ ← fs_op; mret {| content := []; synced := true |}.
Definition write_all (bytes : list byte) (tmp : file) : store_m file :=
  _ ← fs_op; mret {| content := content tmp ++ bytes; synced := false |}.
Definition sync_all (tmp : file) : store_m file :=
  _ ← fs_op; mret {| content := content tmp; synced := true |}.
Definition persist_tmp (tmp : file) : store_m () := _ ← fs_op; modify (set_env (set_disk tmp)).

(** [persist]: the directory, the JSON, the temporary file, its contents, the
    sync, and the rename that replaces the document. *)
Definition persist : store_m () :=
  _ ← fs_op;
  s ← gets Datatypes.id;
  bytes ← lift (map_err Serde
            (document_to_vec {| schema_version := SCHEMA_VERSION; doc_entries := entries s |}));
  tmp ← new_in;
  tmp ← write_all bytes tmp;
  tmp ← sync_all tmp;
  persist_tmp tmp.

(** A secure-store call whose result the caller looks at, or ignores. *)
Definition secure_call (f : B → outcome SecureStoreError () * B) : store_m () := fun s =>
  let '(r, b) := f (backend (env s)) in (map_err Secure r, set_env (set_backend b) s).
Definition secure_ignore (f : B → outcome SecureStoreError () * B) : store_m () := fun s =>
  let '(_, b) := f (backend (env s)) in (Ok (), set_env (set_backend b) s).

(** [if let Err(e) = self.persist() { undo; return Err(e); }]. *)
Definition persist_or (undo : store_m ()) : store_m () := fun s =>
  match persist s with
  | (Err e, s) => (_ ← undo; throw e) s
  | r => r
  end.

Definition new_uuid_v4 (rng : nat → Z) : rstr := uuid_string ((λ k, z2b (rng k)) <$> seq 0 16).

(** [now_unix_secs], from the clock's offset to the epoch. *)
Definition now_unix_secs (clock : option Z) : outcome StoreError Z := ok_or Clock clock.

(** The label an add or a rename asks for, if any is left after trimming. *)
Definition label (name : option rstr) : option rstr :=
  n ← trim <$> name; if bool_decide (n = []) then None else Some n.

Definition add (link : Profile.Profile) (name : option rstr) (rng : nat → Z) (clock : option Z) :
    store_m Entry :=
  s ← gets Datatypes.id;
  match find_matching link s with
  | Some existing => mret existing
  | None =>
    let id := new_uuid_v4 rng in
    let name := default (host_of (Profile.server link)) (label name) in
    created_at ← lift (now_unix_secs clock);
    secret ← lift (map_err Serde (profile_to_vec link));
    _ ← secure_call (ss_set id secret);
    let entry := {| id := id; name := name; created_at := created_at |} in
    _ ← modify (set_entries (λ es, es ++ [entry]));
    _ ← persist_or (_ ← modify (set_entries (λ es, take (length es - 1) es));
                    secure_ignore (ss_delete id));
    mret entry
  end.

(** [iter().position(|e| e.id == id)]. *)
Definition position (i : rstr) (es : list Entry) : option nat :=
  fst <$> list_find (λ e, id e = i) es.

Definition delete (i : rstr) : store_m bool :=
  s ← gets Datatypes.id;
  match position i (entries s) with
  | None => _ ← secure_ignore (ss_delete i); mret false
  | Some pos =>
    removed ← lift (or_panic (entries s !! pos));
    _ ← modify (set_entries (base.delete pos));
    _ ← persist_or (modify (set_entries (λ es, take pos es ++ removed :: drop pos es)));
    _ ← secure_ignore (ss_delete i);
    mret true
  end.

Definition set_name (n : rstr) (e : Entry) : Entry :=
  {| id := id e; name := n; created_at := created_at e |}.

Definition rename (i new_name : rstr) : store_m bool :=
  s ← gets Datatypes.id;
  match position i (entries s) with
  | None => mret false
  | Some pos =>
    let set_to (n : rstr) : store_m bool :=
      previous ← lift (or_panic (name <$> entries s !! pos));
      _ ← modify (set_entries (alter (set_name n) pos));
      _ ← persist_or (modify (set_entries (alter (set_name previous) pos)));
      mret true in
    if bool_decide (trim new_name = []) then
      o ← lift (load i s);
      match o with
      | Some profile => set_to (host_of (Profile.server profile))
      | None => mret true
      end
    else set_to (trim new_name)
  end.

(** ** Consistency of memory, disk and secrets *)

(** The document on disk is the list in memory. *)
Definition in_step (s : store) : Prop :=
  match disk (env s) with
  | None => entries s = []
  | Some bytes => document_from_slice bytes
      = Ok {| schema_version := SCHEMA_VERSION; doc_entries := entries s |}
  end.

(** Every listed profile has a secret that reads back. *)
Definition backed (s : store) : Prop :=
  ∀ e, e ∈ entries s → ∃ bytes p, contents (backend (env s)) !! id e = Some bytes ∧
    profile_from_slice bytes = Ok p.

Record inv (s : store) : Prop := {
  inv_synced : in_step s;
  inv_backed : backed s;
  inv_nodup : NoDup (id <$> entries s);
}.

(** What a crash leaves now, and a store over what a crash left. *)
Definition now (s : store) : remains := {| left_disk := disk (env s); left_backend := backend (env s) |}.
Definition restored (r : remains) (es : list Entry) : store :=
  {| entries := es; env := {| disk := left_disk r; backend := left_backend r; faults := []; past := [] |} |}.

(** Wherever a crash falls between [s] and [s'], it leaves the list of [s] or
    the list of [s'], consistent. *)
Definition atomic (s s' : store) : Prop :=
  ∃ rs, past (env s') = past (env s) ++ rs ∧
    Forall (λ r, inv (restored r (entries s)) ∨ inv (restored r (entries s'))) rs.

Lemma inv_restored s : inv s → inv (restored (now s) (entries s)).
Proof. intros []. by split. Qed.

(** Same list, same secrets, same document, nothing touched in between. *)
Record quiet (s s' : store) : Prop := {
  q_entries : entries s' = entries s;
  q_backend : backend (env s') = backend (env s);
  q_disk : disk (env s') = disk (env s);
  q_past : past (env s') = past (env s);
}.
#[export] Instance quiet_refl : Reflexive quiet.
Proof. by intros s. Qed.
#[export] Instance quiet_trans : Transitive quiet.
Proof. intros s1 s2 s3 [] []. split; congruence. Qed.

Lemma wp_fs_op (Q : outcome StoreError () → store → Prop) s :
  (∀ r s', quiet s s' → r ≠ Panic → Q r s') → wp fs_op Q s.
Proof.
  intros HQ. unfold wp, fs_op, zoom, fs_call. cbn. apply HQ; [done|].
  by destruct (head (faults (env s))) as [[e|]|].
Qed.

Lemma atomic_quiet s s' : quiet s s' → atomic s s'.
Proof. intros Hq. exists []. by rewrite app_nil_r, (q_past _ _ Hq). Qed.
#[export] Instance atomic_refl : Reflexive atomic.
Proof. intros s. by apply atomic_quiet. Qed.

(** The document was replaced, in one step, by that of the list in memory. *)
Record persisted (s s' : store) : Prop := {
  p_entries : entries s' = entries s;
  p_backend : backend (env s') = backend (env s);
  p_in_step : in_step s';
  p_past : past (env s') = past (env s) ++ [now s'];
}.

(** [persist] either replaces the document or leaves everything alone. *)
Lemma wp_persist (Q : outcome StoreError () → store → Prop) s :
  (∀ s', persisted s s' → Q (Ok ()) s') →
  (∀ e s', quiet s s' → Q (Err e) s') →
  wp persist Q s.
Proof.
  intros Hok Herr. unfold persist, new_in, write_all, sync_all, persist_tmp.
  assert (Hfs : ∀ s1 (P : outcome StoreError () → store → Prop), quiet s s1 →
    (∀ s2, quiet s s2 → P (Ok ()) s2) → (∀ e s2, quiet s s2 → P (Err e) s2) → wp fs_op P s1).
  { intros s1 P Hq Hok' Herr'. apply wp_fs_op. intros r s2 Hq2 Hp.
    assert (quiet s s2) by (by etransitivity). destruct r as [[]|e|]; auto; done. }
  wp_step. apply Hfs; [done| |by apply Herr]. intros s1 Hq1.
  wp_step. wp_step. cbn [Datatypes.id]. wp_step. wp_step.
  destruct (document_to_vec _) as [bytes|e|] eqn:Hd; cbn [map_err].
  2:{ by apply Herr. }
  2:{ by apply document_to_vec_total in Hd. }
  wp_step. wp_step. apply Hfs; [done| |by apply Herr]. intros s2 Hq2. wp_step.
  wp_step. wp_step. apply Hfs; [done| |by apply Herr]. intros s3 Hq3. wp_step.
  wp_step. wp_step. apply Hfs; [done| |by apply Herr]. intros s4 Hq4. wp_step.
  wp_step. apply Hfs; [done| |by apply Herr]. intros s5 Hq. wp_step.
  apply Hok. split; [apply Hq|apply Hq| |].
  - unfold in_step. cbn. rewrite (document_codec _ _ Hd). by rewrite (q_entries _ _ Hq), (q_entries _ _ Hq1).
  - cbn. by rewrite (q_past _ _ Hq).
Qed.

Lemma wp_persist_or (undo : store_m ()) (Q : outcome StoreError () → store → Prop) s :
  (∀ s', persisted s s' → Q (Ok ()) s') →
  (∀ e s', quiet s s' →
     wp undo (λ r s'', match r with Ok _ => Q (Err e) s'' | _ => Q r s'' end) s') →
  wp (persist_or undo) Q s.
Proof.
  intros Hok Herr.
  assert (Hw : wp persist (λ r s', match r with
    | Ok _ => Q r s' | Err e => wp (_ ← undo; throw e) Q s' | Panic => Q r s' end) s).
  { apply wp_persist; [done|]. intros e s' Hq.
    apply wp_bind, (wp_mono _ _ _ _ (Herr e s' Hq)). by intros [[]| |]. }
  unfold wp in *. unfold persist_or. by destruct (persist s) as [[[]|e|] s1].
Qed.

Lemma wp_secure_ignore f (Q : outcome StoreError () → store → Prop) s :
  Q (Ok ()) (set_env (set_backend (f (backend (env s))).2) s) → wp (secure_ignore f) Q s.
Proof. unfold wp, secure_ignore. by destruct (f _). Qed.

Lemma wp_secure_call f (Q : outcome StoreError () → store → Prop) s :
  Q (map_err Secure (f (backend (env s))).1) (set_env (set_backend (f (backend (env s))).2) s) →
  wp (secure_call f) Q s.
Proof. unfold wp, secure_call. by destruct (f _). Qed.

Abbreviation secrets s := (contents (backend (env s))).
Abbreviation ids s := (id <$> entries s).

(** [i]'s secret is the profile [p]. *)
Definition stored (s : store) (i : rstr) (p : Profile.Profile) : Prop :=
  ∃ bytes, secrets s !! i = Some bytes ∧ profile_from_slice bytes = Ok p.

Lemma load_stored s i p o : stored s i p → load i s = Ok o → o = Some p.
Proof.
  intros (bytes & Hc & Hp). unfold load. destruct (ss_get i _) as [o'|e|] eqn:Hg; [|done..].
  apply ss_get_ok in Hg. rewrite Hc in Hg. subst o'.
  cbn [map_err mbind outcome_bind]. rewrite Hp. by intros [= <-].
Qed.

Lemma load_total s i : load i s ≠ Panic.
Proof.
  unfold load. destruct (ss_get i _) as [[bytes|]|e|] eqn:Hg; [|done..|by apply ss_get_total in Hg].
  cbn [map_err mbind outcome_bind]. pose proof (profile_from_slice_total bytes) as Ht.
  by destruct (profile_from_slice bytes).
Qed.

(** Everything but the secret of [i] is kept. *)
Definition frame (i : rstr) (s s' : store) : Prop :=
  ∀ j, j ≠ i → secrets s' !! j = secrets s !! j.

Lemma backed_frame i s s' :
  backed s → frame i s s' → (∀ e, e ∈ entries s' → id e ∈ ids s) →
  i ∉ ids s' → backed s'.
Proof.
  intros Hb Hf Hsub Hi e He.
  assert (id e ≠ i) by (intros <-; apply Hi, list_elem_of_fmap; eauto).
  destruct (proj1 (list_elem_of_fmap _ _ _) (Hsub e He)) as (e' & Hid & He').
  destruct (Hb e' He') as (bytes & p & Hc & Hp). exists bytes, p. split; [|done].
  rewrite Hf by done. by rewrite Hid.
Qed.

Lemma find_matching_elem link s e : find_matching link s = Some e → e ∈ entries s.
Proof. intros Hf. apply find_some in Hf as [Hin _]. by apply list_elem_of_In. Qed.

Lemma find_matching_load link s e : find_matching link s = Some e → load (id e) s = Ok (Some link).
Proof.
  intros Hf. apply find_some in Hf as [_ Hm]. unfold matches in Hm.
  destruct (load (id e) s) as [[p|]| |]; [|done..]. by apply bool_decide_eq_true in Hm as ->.
Qed.

(** [position] splits the list. *)
Lemma position_some i s pos :
  position i (entries s) = Some pos →
  ∃ l1 e l2, entries s = l1 ++ e :: l2 ∧ length l1 = pos ∧ id e = i ∧ i ∉ (id <$> l1).
Proof.
  unfold position. intros H1. apply fmap_Some in H1 as ([k e] & Hf & ->).
  apply list_find_Some in Hf as (Hl & Hid & Hbefore). cbn.
  exists (take k (entries s)), e, (drop (S k) (entries s)).
  rewrite take_drop_middle by done. split_and!; [done| |done|].
  - rewrite length_take. apply lookup_lt_Some in Hl. lia.
  - intros (e' & Hi & He')%list_elem_of_fmap. apply list_elem_of_lookup in He' as (j & Hj).
    apply lookup_take_Some in Hj as [Hj Hlt]. by apply (Hbefore j e').
Qed.

Lemma position_none i s : position i (entries s) = None ↔ i ∉ ids s.
Proof.
  unfold position. rewrite fmap_None, list_find_None, Forall_forall. split.
  - intros Hall (e & -> & He)%list_elem_of_fmap. by apply (Hall e).
  - intros Hi e He <-. apply Hi, list_elem_of_fmap. eauto.
Qed.

(** ** The operations *)

(** What [add] of [link] promises. *)
Definition add_post link name rng clock (s : store) (r : outcome StoreError Entry) (s' : store) : Prop :=
  let i := new_uuid_v4 rng in
  inv s' ∧ (frame i s s' ∧ atomic s s') ∧
  match r with
  | Ok e =>
    (find_matching link s = Some e ∧ s' = s) ∨
    (find_matching link s = None ∧ entries s' = entries s ++ [e] ∧ stored s' i link ∧
     clock = Some (created_at e) ∧ id e = i ∧
     Store.name e = default (host_of (Profile.server link)) (label name))
  | Err _ => find_matching link s = None ∧ entries s' = entries s ∧ disk (env s') = disk (env s)
  | Panic => False
  end.

(** Only the secret of an id that is not listed changed. *)
Lemma inv_stray i s s' :
  inv s → i ∉ ids s → entries s' = entries s → disk (env s') = disk (env s) → frame i s s' → inv s'.
Proof.
  intros [Hs Hb Hn] Hi He Hd Hf. split.
  - unfold in_step in *. by rewrite Hd, He.
  - eapply backed_frame; [done..| |by rewrite He]. intros e' He'. rewrite <-He. apply list_elem_of_fmap. eauto.
  - by rewrite He.
Qed.

(** A failed add: the secret of the fresh id may linger, the rest is as before. *)
Lemma add_failed link name rng clock s s' rs e :
  inv s → new_uuid_v4 rng ∉ ids s → find_matching link s = None →
  entries s' = entries s → disk (env s') = disk (env s) → frame (new_uuid_v4 rng) s s' →
  past (env s') = past (env s) ++ rs → Forall (λ r, inv (restored r (entries s))) rs →
  add_post link name rng clock s (Err e) s'.
Proof.
  intros Hinv Hfresh Hf He Hd Hfr Hp Hrs.
  split_and!; [by eapply inv_stray|done| |done..]. exists rs. split; [done|].
  eapply Forall_impl; [exact Hrs|]. by left.
Qed.

Lemma ss_set_frame i secret s r b :
  ss_set i secret (backend (env s)) = (r, b) → frame i s (set_env (set_backend b) s).
Proof. intros Hset j Hj. by apply (ss_set_other _ _ _ _ _ j Hset). Qed.

Lemma ss_delete_frame i s : frame i s (set_env (set_backend (ss_delete i (backend (env s))).2) s).
Proof.
  intros j Hj. cbn. destruct (ss_delete i _) as [r b'] eqn:Hd. by apply (ss_delete_other _ _ _ _ _ Hd).
Qed.

#[export] Instance frame_trans i : Transitive (frame i).
Proof. intros s1 s2 s3 H1 H2 j Hj. by rewrite H2, H1. Qed.

Lemma persisted_frame i s s' : persisted s s' → frame i s s'.
Proof. intros Hp j _. by rewrite (p_backend _ _ Hp). Qed.
Lemma quiet_frame i s s' : quiet s s' → frame i s s'.
Proof. intros Hq j _. by rewrite (q_backend _ _ Hq). Qed.

(** The list grew by an entry whose secret is there. *)
Lemma inv_added i s s' e :
  inv s → i ∉ ids s → frame i s s' → in_step s' → entries s' = entries s ++ [e] → id e = i →
  (∃ p, stored s' i p) → inv s'.
Proof.
  intros Hinv Hfresh Hf Hs He Hid (p & bytes & Hc & Hp). split; [done| |].
  - intros e'. rewrite He, elem_of_app, list_elem_of_singleton. intros [He'| ->].
    + assert (Hne : id e' ≠ i) by (intros <-; apply Hfresh, list_elem_of_fmap; eauto).
      destruct (inv_backed _ Hinv e' He') as (bytes' & p' & Hc' & Hp').
      exists bytes', p'. by rewrite Hf.
    + exists bytes, p. by rewrite Hid.
  - rewrite He, fmap_app. apply NoDup_app. split_and!; [apply Hinv| |apply NoDup_singleton].
    intros j Hj ->%list_elem_of_singleton. by rewrite Hid in Hj.
Qed.

Lemma wp_add link name rng clock s :
  inv s → new_uuid_v4 rng ∉ ids s →
  wp (add link name rng clock) (add_post link name rng clock s) s.
Proof.
  intros Hinv Hfresh. unfold add. wp_step. wp_step. cbn [Datatypes.id].
  destruct (find_matching link s) as [e|] eqn:Hf.
  { wp_step. split_and!; [done|done|by apply atomic_quiet|left; done]. }
  assert (Hfail : ∀ e, add_post link name rng clock s (Err e) s).
  { intros e. apply add_failed with []; try done. by rewrite app_nil_r. }
  set (i := new_uuid_v4 rng) in *. wp_step. wp_step.
  destruct clock as [now_|]; cbn [now_unix_secs ok_or]; [|by apply Hfail].
  wp_step. wp_step. destruct (profile_to_vec link) as [secret|x|] eqn:Hsec; cbn [map_err].
  2:{ by apply Hfail. } 2:{ by apply profile_to_vec_total in Hsec. }
  wp_step. apply wp_secure_call. destruct (ss_set i secret (backend (env s))) as [r b] eqn:Hset.
  cbn [fst snd]. set (sb := set_env (set_backend b) s).
  assert (Hfr : frame i s sb) by (by eapply ss_set_frame).
  assert (Hinvb : inv sb) by (by eapply (inv_stray i s)).
  destruct r as [[]|x|]; cbn [map_err].
  3:{ pose proof (ss_set_total i secret (backend (env s))) as Ht. by rewrite Hset in Ht. }
  2:{ apply add_failed with [now sb]; try done. apply Forall_singleton. by apply (inv_restored sb). }
  apply ss_set_ok in Hset. wp_step. wp_step. wp_step.
  set (entry := {| id := i; name := _; created_at := now_ |}).
  set (sm := set_entries (λ es, es ++ [entry]) sb). apply wp_persist_or.
  - intros s1 Hp. wp_step.
    assert (Hst : stored s1 i link).
    { exists secret. rewrite (p_backend _ _ Hp). cbn. rewrite Hset, lookup_insert_eq. split; [done|by apply profile_codec]. }
    assert (Hfr1 : frame i s s1) by (transitivity sb; [done|by apply persisted_frame with (s := sm)]).
    assert (Hes1 : entries s1 = entries s ++ [entry]) by apply (p_entries _ _ Hp).
    assert (Hinv1 : inv s1) by (eapply (inv_added i s s1 entry); [done..|apply Hp|done|done|by exists link]).
    split_and!; [done|done| |right; by split_and!].
    exists [now sb; now s1]. split; [by rewrite (p_past _ _ Hp), (app_assoc _ [now sb] [now s1])|].
    apply Forall_cons_2, Forall_singleton; [left; by apply (inv_restored sb)|right; by apply inv_restored].
  - intros x s1 Hq. wp_step. wp_step. apply wp_secure_ignore.
    set (su := set_entries _ s1).
    assert (Heu : entries su = entries s) by (cbn; rewrite (q_entries _ _ Hq); cbn; rewrite length_app, Nat.add_sub; by apply take_app_length).
    assert (Hfru : frame i s (set_env (set_backend (ss_delete i (backend (env su))).2) su)).
    { transitivity sb; [done|]. transitivity su; [by apply (quiet_frame i) in Hq|apply ss_delete_frame]. }
    assert (Hdu : disk (env su) = disk (env s)) by (cbn; by rewrite (q_disk _ _ Hq)).
    apply add_failed with [now sb; now (set_env (set_backend (ss_delete i (backend (env su))).2) su)]; [done..| |].
    + cbn. rewrite (q_past _ _ Hq). cbn. by rewrite <-app_assoc.
    + apply Forall_cons_2, Forall_singleton; [by apply (inv_restored sb)|].
      rewrite <-Heu. apply (inv_restored (set_env _ su)). by eapply (inv_stray i s).
Qed.

(** What [delete] of [i] promises. *)
Definition delete_post i (s : store) (r : outcome StoreError bool) (s' : store) : Prop :=
  inv s' ∧ (frame i s s' ∧ atomic s s') ∧
  match r with
  | Ok present => (present = true ↔ i ∈ ids s) ∧ entries s' = filter (λ e, id e ≠ i) (entries s)
  | Err _ => i ∈ ids s ∧ quiet s s'
  | Panic => False
  end.

Lemma filter_absent i (es : list Entry) : i ∉ (id <$> es) → filter (λ e, id e ≠ i) es = es.
Proof.
  induction es as [|e es IH]; [done|]. cbn [fmap list_fmap]. intros [Hi Hes]%not_elem_of_cons.
  rewrite filter_cons_True by done. by rewrite IH.
Qed.

Lemma inv_quiet s s' : inv s → quiet s s' → inv s'.
Proof.
  intros [Hs Hb Hn] [He Hbe Hd _]. split; unfold in_step, backed in *.
  - by rewrite Hd, He.
  - by rewrite He, Hbe.
  - by rewrite He.
Qed.

(** The list lost its entry [i]. *)
Lemma inv_deleted i s s' :
  inv s → frame i s s' → in_step s' → entries s' = filter (λ e, id e ≠ i) (entries s) → inv s'.
Proof.
  intros Hinv Hf Hs He. split; [done| |].
  - eapply backed_frame; [apply Hinv|done| |]; rewrite He.
    + intros e' [_ He']%list_elem_of_filter. apply list_elem_of_fmap. eauto.
    + intros (e' & -> & [Hne _]%list_elem_of_filter)%list_elem_of_fmap. done.
  - rewrite He. eapply sublist_NoDup; [apply Hinv|]. apply fmap_sublist, sublist_filter.
Qed.

Lemma wp_delete i s : inv s → wp (delete i) (delete_post i s) s.
Proof.
  intros Hinv. unfold delete. wp_step. wp_step. cbn [Datatypes.id].
  destruct (position i (entries s)) as [pos|] eqn:Hpos.
  - apply position_some in Hpos as (l1 & e & l2 & Hes & <- & Hid & Hi1).
    assert (Hn := inv_nodup _ Hinv). rewrite Hes, fmap_app in Hn. cbn in Hn.
    apply NoDup_app in Hn as (_ & _ & [Hi2 _]%NoDup_cons). rewrite Hid in Hi2.
    assert (Hin : i ∈ ids s) by (rewrite Hes; apply list_elem_of_fmap; exists e; set_solver).
    assert (Hflt : filter (λ e, id e ≠ i) (entries s) = l1 ++ l2).
    { rewrite Hes, filter_app, filter_cons_False by (intros Hx; by apply Hx). by rewrite !filter_absent. }
    wp_step. wp_step. rewrite Hes, list_lookup_middle by done. cbn [or_panic].
    wp_step. wp_step. wp_step. apply wp_persist_or.
    + intros s1 Hp. wp_step. apply wp_secure_ignore. wp_step.
      set (s2 := set_env _ s1).
      assert (Hes1 : entries s1 = filter (λ e, id e ≠ i) (entries s)).
      { rewrite (p_entries _ _ Hp), Hflt. cbn. by rewrite Hes, delete_middle. }
      assert (Hfr1 : frame i s s1) by (by apply (persisted_frame i) in Hp).
      assert (Hfr : frame i s s2) by (transitivity s1; [done|apply ss_delete_frame]).
      assert (Hinv1 : inv s1) by (eapply (inv_deleted i s); [done..|apply Hp|done]).
      assert (Hinv2 : inv s2) by (eapply (inv_deleted i s); [done..|apply Hp|done]).
      split_and!; [done|done| |done|done].
      exists [now s1; now s2]. split.
      { assert (Hps : past (env s1) = past (env s) ++ [now s1]) by apply (p_past _ _ Hp).
        by rewrite (app_assoc _ [now s1] [now s2]), <-Hps. }
      apply Forall_cons_2, Forall_singleton; right; [by apply (inv_restored s1)|by apply (inv_restored s2)].
    + intros x s1 Hq. wp_step. assert (Hq' : quiet s (set_entries (λ es, take (length l1) es ++ e :: drop (length l1) es) s1)).
      { destruct Hq as [Hqe Hqb Hqd Hqp]. cbn in *. split; cbn; [|done..].
        rewrite Hqe, Hes, delete_middle, take_app_length, drop_app_length. done. }
      split_and!; [by eapply inv_quiet|by apply quiet_frame|by apply atomic_quiet|done|done].
  - apply position_none in Hpos. wp_step. apply wp_secure_ignore. wp_step. set (s1 := set_env _ s).
    assert (Hfr : frame i s s1) by apply ss_delete_frame.
    assert (Hinv1 : inv s1) by (by eapply (inv_stray i s)).
    split_and!; [done|done| |done|cbn; by rewrite filter_absent].
    exists [now s1]. split; [done|]. apply Forall_singleton. left. by apply (inv_restored s1).
Qed.

(** The name a rename of [i] to [new_name] settles on. *)
Definition renamed (s : store) (i new_name nm : rstr) : Prop :=
  if decide (trim new_name = [])
  then ∃ p, stored s i p ∧ nm = host_of (Profile.server p) else nm = trim new_name.

Definition rename_post i new_name (s : store) (r : outcome StoreError bool) (s' : store) : Prop :=
  inv s' ∧ (backend (env s') = backend (env s) ∧ atomic s s') ∧
  match r with
  | Ok present => (present = true ↔ i ∈ ids s) ∧
      (if present then ∃ nm, renamed s i new_name nm ∧
         entries s' = (λ e, if decide (id e = i) then set_name nm e else e) <$> entries s
       else s' = s)
  | Err _ => i ∈ ids s ∧ quiet s s'
  | Panic => False
  end.

Lemma map_absent i nm (es : list Entry) : i ∉ (id <$> es) →
  (λ e, if decide (id e = i) then set_name nm e else e) <$> es = es.
Proof.
  induction es as [|e es IH]; [done|]. cbn [fmap list_fmap]. intros [Hi Hes]%not_elem_of_cons.
  rewrite decide_False by done. by rewrite IH.
Qed.

Lemma alter_middle (f : Entry → Entry) l1 e l2 :
  alter f (length l1) (l1 ++ e :: l2) = l1 ++ f e :: l2.
Proof. induction l1 as [|x l1 IH]; [done|]. cbn. f_equal. apply IH. Qed.

Lemma set_name_back n e : set_name (Store.name e) (set_name n e) = e.
Proof. by destruct e. Qed.

(** Only the names of entries changed. *)
Lemma inv_renamed i nm s s' :
  inv s → backend (env s') = backend (env s) → in_step s' →
  entries s' = (λ e, if decide (id e = i) then set_name nm e else e) <$> entries s → inv s'.
Proof.
  intros Hinv Hb Hs He.
  assert (Hids : ids s' = ids s).
  { rewrite He, <-list_fmap_compose. apply list_fmap_ext. intros j e _. cbn. by case_decide. }
  split; [done| |rewrite Hids; apply Hinv].
  intros e' He'. assert (Hi : id e' ∈ ids s) by (rewrite <-Hids; apply list_elem_of_fmap; eauto).
  apply list_elem_of_fmap in Hi as (e0 & Hi & He0).
  destruct (inv_backed _ Hinv e0 He0) as (bytes & p & Hc & Hp).
  exists bytes, p. by rewrite Hb, Hi.
Qed.

(** The part of [rename] after the new name is known. *)
Lemma wp_rename_at i new_name nm s l1 e l2 :
  inv s → entries s = l1 ++ e :: l2 → id e = i → renamed s i new_name nm →
  wp (previous ← lift (or_panic (Store.name <$> entries s !! length l1));
      _ ← modify (set_entries (alter (set_name nm) (length l1)));
      _ ← persist_or (modify (set_entries (alter (set_name previous) (length l1))));
      mret true) (rename_post i new_name s) s.
Proof.
  intros Hinv Hes Hid Hnm.
  assert (Hin : i ∈ ids s) by (rewrite Hes; apply list_elem_of_fmap; exists e; set_solver).
  assert (Hn := inv_nodup _ Hinv). rewrite Hes, fmap_app in Hn. cbn in Hn.
  apply NoDup_app in Hn as (Hn1 & Hdisj & [He2 Hn2]%NoDup_cons).
  wp_step. wp_step. rewrite Hes, list_lookup_middle by done. cbn [fmap option_fmap option_map or_panic].
  wp_step. wp_step. wp_step. apply wp_persist_or.
  - intros s1 Hp. wp_step.
    assert (He1 : entries s1 = (λ e, if decide (id e = i) then set_name nm e else e) <$> entries s).
    { rewrite (p_entries _ _ Hp). cbn. rewrite Hes, alter_middle, fmap_app. cbn. rewrite decide_True by done.
      rewrite !map_absent; [done| |]; set_solver. }
    assert (Hinv1 : inv s1).
    { eapply (inv_renamed i nm s); [done|apply (p_backend _ _ Hp)|apply Hp|done]. }
    split_and!; [done|apply (p_backend _ _ Hp)| |done|by exists nm].
    exists [now s1]. split; [apply (p_past _ _ Hp)|]. apply Forall_singleton. right. by apply inv_restored.
  - intros x s1 Hq. wp_step.
    assert (Hq' : quiet s (set_entries (alter (set_name (Store.name e)) (length l1)) s1)).
    { destruct Hq as [Hqe Hqb Hqd Hqp]. cbn in *. split; cbn; [|done..].
      by rewrite Hqe, Hes, !alter_middle, set_name_back. }
    split_and!; [by eapply inv_quiet|apply Hq'|by apply atomic_quiet|done|done].
Qed.

Lemma wp_rename i new_name s : inv s → wp (rename i new_name) (rename_post i new_name s) s.
Proof.
  intros Hinv. unfold rename. wp_step. wp_step. cbn [Datatypes.id].
  destruct (position i (entries s)) as [pos|] eqn:Hpos.
  2:{ apply position_none in Hpos. wp_step. by split_and!. }
  apply position_some in Hpos as (l1 & e & l2 & Hes & <- & Hid & _).
  destruct (inv_backed _ Hinv e) as (bytes & p & Hst & Hp); [rewrite Hes; set_solver|].
  assert (Hs : stored s i p) by (exists bytes; by rewrite <-Hid).
  assert (Hin : i ∈ ids s) by (rewrite Hes; apply list_elem_of_fmap; exists e; set_solver).
  destruct (bool_decide_reflect (trim new_name = [])) as [Hblank|Hblank].
  - wp_step. wp_step. destruct (load i s) as [o|x|] eqn:Hl.
    + pose proof (load_stored _ _ _ _ Hs Hl) as ->. eapply wp_rename_at; [done..|].
      unfold renamed. rewrite decide_True by done. eauto.
    + by split_and!.
    + by apply load_total in Hl.
  - eapply wp_rename_at; [done..|]. unfold renamed. by rewrite decide_False.
Qed.

(** One operation, under any faults. *)
Inductive op : store → store → Prop :=
| op_add link name rng clock s r s' :
    new_uuid_v4 rng ∉ ids s → add link name rng clock s = (r, s') → op s s'
| op_delete i s r s' : delete i s = (r, s') → op s s'
| op_rename i n s r s' : rename i n s = (r, s') → op s s'.

(** The world after a crash. *)
Definition rebooted (r : remains) (fs : list (option rstr)) : world :=
  {| disk := left_disk r; backend := left_backend r; faults := fs; past := [] |}.

(** A store's life: its operations in any order, restarts that open the
    document again, and crashes in the middle of an operation. *)
Inductive step : store → store → Prop :=
| step_op s s' : op s s' → step s s'
| step_reopen s s' : new (env s) = Ok s' → step s s'
| step_crash s s1 rs r fs s' :
    op s s1 → past (env s1) = past (env s) ++ rs → r ∈ rs → new (rebooted r fs) = Ok s' → step s s'.

(** The world lets the next file-system call succeed. *)
Definition no_fault (w : world) : Prop := default None (head (faults w)) = None.

Lemma new_empty w s : disk w = None → new w = Ok s → inv s.
Proof.
  unfold new. destruct (fs_call w) as [[[]|e|] w'] eqn:Hc; [|done..].
  unfold fs_call in Hc. injection Hc as _ <-. cbn. intros -> [= <-].
  split; [done|by intros e ?%not_elem_of_nil|apply NoDup_nil_2].
Qed.

Lemma new_synced s :
  in_step s → ∀ s', new (env s) = Ok s' →
  entries s' = entries s ∧ backend (env s') = backend (env s) ∧ disk (env s') = disk (env s).
Proof.
  intros Hs s'. unfold new. destruct (fs_call _) as [[[]|e|] w'] eqn:Hc; [|done..].
  unfold fs_call in Hc. injection Hc as _ <-. cbn. unfold in_step in Hs.
  destruct (disk (env s)) as [bytes|] eqn:Hd; [|by intros [= <-]].
  rewrite Hs. cbn. intros [= <-]. by cbn.
Qed.

Lemma new_succeeds s : in_step s → no_fault (env s) → ∃ s', new (env s) = Ok s'.
Proof.
  intros Hs Hf. unfold new, fs_call. unfold no_fault in Hf.
  assert (Hh : ∀ A (k : rstr → A) (d : A), match head (faults (env s)) with Some (Some e) => k e | _ => d end = d)
    by (intros; destruct (head (faults (env s))) as [[?|]|]; done).
  rewrite (Hh _ (λ e, Err (Io e))). cbn. unfold in_step in Hs.
  destruct (disk (env s)); [rewrite Hs; cbn|]; eauto.
Qed.

Lemma new_inv s s' : inv s → new (env s) = Ok s' → inv s' ∧ entries s' = entries s.
Proof.
  intros Hinv Hn. destruct (new_synced s (inv_synced _ Hinv) s' Hn) as (He & Hb & Hd). split; [|done].
  destruct Hinv as [Hs Hb' Hu]. split; unfold in_step, backed in *.
  - by rewrite Hd, He.
  - by rewrite He, Hb.
  - by rewrite He.
Qed.

Lemma op_inv s s' : inv s → op s s' → inv s' ∧ atomic s s'.
Proof.
  intros Hinv Hop. revert Hinv. destruct Hop as [link name rng clock s r s' Hfresh Ha|i s r s' Hd|i n s r s' Hr]; intros Hinv.
  - by destruct (wp_run _ _ _ _ _ (wp_add link name rng clock s Hinv Hfresh) Ha) as (? & [] & _).
  - by destruct (wp_run _ _ _ _ _ (wp_delete i s Hinv) Hd) as (? & [] & _).
  - by destruct (wp_run _ _ _ _ _ (wp_rename i n s Hinv) Hr) as (? & [] & _).
Qed.

Lemma op_past s s' : inv s → op s s' →
  past (env s') = past (env s) ++ drop (length (past (env s))) (past (env s')).
Proof.
  intros Hinv Hop. destruct (op_inv s s' Hinv Hop) as (_ & rs & -> & _). by rewrite drop_app_length.
Qed.

(** What is found after a crash in the middle of an operation. *)
Lemma crash_inv s s1 rs r :
  inv s → op s s1 → past (env s1) = past (env s) ++ rs → r ∈ rs →
  inv (restored r (entries s)) ∨ inv (restored r (entries s1)).
Proof.
  intros Hinv Hop Hp Hr. destruct (op_inv s s1 Hinv Hop) as (_ & rs' & Hp' & Hall).
  rewrite Hp in Hp'. apply app_inv_head in Hp' as <-. by apply (proj1 (Forall_forall _ _) Hall).
Qed.

Lemma reboot_inv r es fs s' :
  inv (restored r es) → new (rebooted r fs) = Ok s' → inv s' ∧ entries s' = es.
Proof.
  intros [Hs Hb Hn]. apply (new_inv {| entries := es; env := rebooted r fs |}). by split.
Qed.

Lemma store_inv_step s s' : inv s → step s s' → inv s'.
Proof.
  intros Hinv Hstep. revert Hinv. destruct Hstep as [s s' Hop|s s' Hn|s s1 rs r fs s' Hop Hp Hr Hn]; intros Hinv.
  - by apply (op_inv s s').
  - by apply (new_inv s s').
  - destruct (crash_inv s s1 rs r Hinv Hop Hp Hr) as [Hi|Hi]; by eapply reboot_inv.
Qed.

Lemma inv_steps s s' : inv s → rtc step s s' → inv s'.
Proof. intros Hinv. induction 1; eauto using store_inv_step. Qed.

(** C1: The metadata document, the list in memory and the secret store stay
    consistent: from an absent document, after any sequence of adds, deletes,
    renames, restarts and crashes in which each call may fail at any file-system
    or secure-store step, opening the document again gives exactly the list in
    memory, ids are distinct, and every listed profile has a secret that reads
    back as a profile. *)
Theorem store_consistent w s0 s :
  disk w = None → new w = Ok s0 → rtc step s0 s →
  NoDup (id <$> list_entries s) ∧
  (∀ e, e ∈ list_entries s → ∃ p, stored s (id e) p) ∧
  (∀ s', new (env s) = Ok s' → list_entries s' = list_entries s) ∧
  (no_fault (env s) → ∃ s', new (env s) = Ok s').
Proof.
  intros Hd Hn Hsteps. destruct (inv_steps _ _ (new_empty _ _ Hd Hn) Hsteps) as [Hs Hb Hu].
  split_and!; [done| | |by apply new_succeeds].
  - intros e He. destruct (Hb e He) as (bytes & p & Hc & Hp). by exists p, bytes.
  - intros s' Hs'. apply (new_synced _ Hs _ Hs').
Qed.

(** C2: Each operation is atomic under crashes: wherever one falls, between any
    two changes to the disk or the secure store, the store opens again on what
    is left, and shows either the list before the operation or the list after
    it, every profile of it with its secret. The flush of the temporary file is
    what this takes: a document renamed into place is never empty. *)
Theorem crash_atomic w s0 s s1 rs r :
  disk w = None → new w = Ok s0 → rtc step s0 s →
  op s s1 → past (env s1) = past (env s) ++ rs → r ∈ rs →
  (∃ s', new (rebooted r []) = Ok s') ∧
  ∀ fs s', new (rebooted r fs) = Ok s' →
    (list_entries s' = list_entries s ∨ list_entries s' = list_entries s1) ∧
    (∀ e, e ∈ list_entries s' → ∃ p, stored s' (id e) p).
Proof.
  intros Hd Hn Hsteps Hop Hp Hr.
  assert (Hinv : inv s) by (by apply (inv_steps s0); [eapply new_empty|]).
  assert (Hc : ∃ es, (es = entries s ∨ es = entries s1) ∧ inv (restored r es)).
  { destruct (crash_inv s s1 rs r Hinv Hop Hp Hr); eauto. }
  destruct Hc as (es & Hes & Hi). split.
  - by apply (new_succeeds (restored r es)); [apply Hi|].
  - intros fs s' Hs'. destruct (reboot_inv r es fs s' Hi Hs') as [[_ Hb _] He].
    unfold list_entries. rewrite He. split; [done|]. intros e He'. rewrite <-He in He'.
    destruct (Hb e He') as (bytes & p & Hc & Hpr). by exists p, bytes.
Qed.

(** C34: [add]: an existing entry with the same link is returned and nothing
    changes; otherwise a new entry is appended, stamped with the clock, named by
    the trimmed label or the server's host, and its secret reads back as the
    link. On any error the list and the document are as before. Only the fresh
    id's secret can change. *)
Theorem add_spec link name rng clock s r s' :
  inv s → new_uuid_v4 rng ∉ ids s → add link name rng clock s = (r, s') →
  add_post link name rng clock s r s'.
Proof. intros Hinv Hfresh. by apply wp_run, wp_add. Qed.

(** [delete]: the entry goes and the others keep their order; the answer says
    whether it was listed. An error happens only for a listed id and changes
    nothing. No other secret is touched. *)
Theorem delete_spec i s r s' :
  inv s → delete i s = (r, s') → delete_post i s r s'.
Proof. intros Hinv. by apply wp_run, wp_delete. Qed.

(** [rename]: only the named entry's name changes, to the trimmed name or, when
    that is blank, to the host of its stored link; secrets are never touched.
    An error changes nothing. *)
Theorem rename_spec i n s r s' :
  inv s → rename i n s = (r, s') → rename_post i n s r s'.
Proof. intros Hinv. by apply wp_run, wp_rename. Qed.

Lemma matches_contents link s s' e :
  (∀ i b, is_ok (ss_get i b)) → secrets s' !! id e = secrets s !! id e →
  matches link s' e = matches link s e.
Proof.
  intros Hok Hc. unfold matches, load.
  pose proof (Hok (id e) (backend (env s))) as H1. pose proof (Hok (id e) (backend (env s'))) as H2.
  destruct (ss_get (id e) (backend (env s))) as [o| |] eqn:Hg; [|done..].
  destruct (ss_get (id e) (backend (env s'))) as [o'| |] eqn:Hg'; [|done..].
  apply ss_get_ok in Hg as ->, Hg' as ->. by rewrite Hc.
Qed.

Lemma find_app {A} (f : A → bool) l1 x l2 :
  (∀ y, y ∈ l1 → f y = false) → f x = true → List.find f (l1 ++ x :: l2) = Some x.
Proof.
  induction l1 as [|y l1 IH]; intros Hl Hx; cbn; [by rewrite Hx|].
  rewrite (Hl y) by set_solver. apply IH; [|done]. intros z Hz. apply Hl. set_solver.
Qed.

(** With a secure store that can be read, a stored profile loads. *)
Lemma load_reliable s i p : (∀ i b, is_ok (ss_get i b)) → stored s i p → load i s = Ok (Some p).
Proof.
  intros Hok (bytes & Hc & Hp). unfold load. pose proof (Hok i (backend (env s))) as Hk.
  destruct (ss_get _ _) as [o| |] eqn:Hg; [|done..]. apply ss_get_ok in Hg as ->.
  rewrite Hc. cbn. by rewrite Hp.
Qed.

(** Adding is idempotent by profile identity: once an add succeeded, adding the
    same link again, under any name, returns the very same entry and changes
    nothing (when the secure store can be read). *)
Theorem add_idempotent link name rng clock s e s1 name' rng' clock' :
  (∀ i b, is_ok (ss_get i b)) → inv s → new_uuid_v4 rng ∉ ids s →
  add link name rng clock s = (Ok e, s1) →
  add link name' rng' clock' s1 = (Ok e, s1).
Proof.
  intros Hok Hinv Hfresh Ha.
  destruct (wp_run _ _ _ _ _ (wp_add link name rng clock s Hinv Hfresh) Ha)
    as (Hinv1 & [Hfr _] & [[Hf ->]|(Hf & Hes & Hst & _ & Hid & _)]).
  - unfold add, mbind, stm_bind, gets. cbn. by rewrite Hf.
  - assert (Hf1 : find_matching link s1 = Some e).
    { unfold find_matching. rewrite Hes. apply find_app.
      - intros e' He'.
        assert (Hne : id e' ≠ new_uuid_v4 rng) by (intros Heq; apply Hfresh; rewrite <-Heq; apply list_elem_of_fmap; eauto).
        rewrite (matches_contents link s s1 e' Hok (Hfr _ Hne)).
        apply (find_none _ _ Hf). by apply list_elem_of_In.
      - unfold matches. rewrite Hid, (load_reliable _ _ _ Hok Hst). by apply bool_decide_eq_true. }
    unfold add, mbind, stm_bind, gets. cbn. by rewrite Hf1.
Qed.

End store.

(** ** A concrete codec, for the examples *)

#[local] Program Instance Profile_countable : Countable Profile.Profile :=
  inj_countable' (λ p, (Profile.server p, Profile.auth p, Profile.sni (Profile.tls p),
      (λ o, (Profile.obfs_type o, Profile.password o)) <$> Profile.obfs p, Profile.fast_open p))
    (λ '(sv, au, sn, ob, fo), {| Profile.server := sv; Profile.auth := au;
      Profile.tls := {| Profile.sni := sn |};
      Profile.obfs := (λ '(t, p), {| Profile.obfs_type := t; Profile.password := p |}) <$> ob;
      Profile.fast_open := fo |}) _.
Next Obligation. by intros [? ? [] [[]|] ?]. Qed.

#[local] Program Instance Entry_countable : Countable Entry :=
  inj_countable' (λ e, (id e, name e, created_at e))
    (λ '(i, n, c), {| id := i; name := n; created_at := c |}) _.
Next Obligation. by intros []. Qed.

#[local] Instance Document_eq_dec : EqDecision Document.
Proof. solve_decision. Defined.
#[local] Program Instance Document_countable : Countable Document :=
  inj_countable' (λ d, (schema_version d, doc_entries d))
    (λ '(v, es), {| schema_version := v; doc_entries := es |}) _.
Next Obligation. by intros []. Qed.

#[local] Program Instance plain_codec : Codec := {|
  profile_to_vec p := Ok (pos_bytes (encode p));
  profile_from_slice b := ok_or (lit "bad profile") (decode (A:=Profile.Profile) (bytes_pos b));
  document_to_vec d := Ok (pos_bytes (encode d));
  document_from_slice b := ok_or (lit "bad document") (decode (A:=Document) (bytes_pos b));
  uuid_string b := b;
|}.
Next Obligation. intros p b [= <-]. by rewrite bytes_pos_bytes, decode_encode. Qed.
Next Obligation. intros d b [= <-]. by rewrite bytes_pos_bytes, decode_encode. Qed.
Next Obligation. done. Qed.
Next Obligation. intros b. unfold ok_or. by case_match. Qed.
Next Obligation. done. Qed.
Next Obligation. intros b. unfold ok_or. by case_match. Qed.

Definition ex_link : Profile.Profile := {|
  Profile.server := lit "h:1"; Profile.auth := lit "t";
  Profile.tls := {| Profile.sni := [] |}; Profile.obfs := None; Profile.fast_open := false |}.
Abbreviation dev_backend := (gmap (list byte) (list byte)).
Definition ex_world (fs : list (option rstr)) : world (B:=dev_backend) :=
  {| disk := None; backend := ∅; faults := fs; past := [] |}.
Definition ex_store (fs : list (option rstr)) : store (B:=dev_backend) :=
  {| entries := []; env := ex_world fs |}.
Definition ex_added : store (B:=dev_backend) :=
  (add ex_link (Some (lit " Home ")) (λ _, 7%Z) (Some 9%Z) (ex_store [])).2.

Lemma ex_store_inv fs : inv (ex_store fs).
Proof. split; [done|by intros e ?%not_elem_of_nil|apply NoDup_nil_2]. Qed.

Lemma ex_added_inv : inv ex_added.
Proof.
  destruct (wp_add ex_link (Some (lit " Home ")) (λ _, 7%Z) (Some 9%Z) (ex_store [])
    (ex_store_inv _) (not_elem_of_nil _)) as [Hinv _]. exact Hinv.
Qed.

Lemma store_consistent_witness :
  rtc step (ex_store []) ex_added ∧
  NoDup (id <$> list_entries ex_added) ∧
  (∀ e, e ∈ list_entries ex_added → ∃ p, stored ex_added (id e) p) ∧
  (∀ s', new (env ex_added) = Ok s' → list_entries s' = list_entries ex_added) ∧
  (no_fault (env ex_added) → ∃ s', new (env ex_added) = Ok s').
Proof.
  assert (Hsteps : rtc step (ex_store []) ex_added).
  { apply rtc_once, step_op. eapply (op_add ex_link (Some (lit " Home ")) (λ _, 7%Z) (Some 9%Z)).
    - apply not_elem_of_nil.
    - apply surjective_pairing. }
  split; [exact Hsteps|].
  apply (store_consistent (ex_world []) (ex_store []) ex_added); [reflexivity|reflexivity|exact Hsteps].
Defined.

(** A delete of the only profile that is cut short after the document was
    replaced, and before its secret is deleted. *)
Definition ex_id : rstr := default [] (head (id <$> entries ex_added)).
Definition ex_deleted : store (B:=dev_backend) := (delete ex_id ex_added).2.
Definition ex_left : list (remains (B:=dev_backend)) := drop (length (past (env ex_added))) (past (env ex_deleted)).
Definition ex_remains : remains (B:=dev_backend) := default (now ex_added) (head ex_left).
Lemma crash_atomic_witness :
  length ex_left = 2 ∧ (left_backend ex_remains !! ex_id = None → False) ∧
  (∃ s', new (rebooted ex_remains []) = Ok s') ∧
  ∀ fs s', new (rebooted ex_remains fs) = Ok s' →
    (list_entries s' = list_entries ex_added ∨ list_entries s' = list_entries ex_deleted) ∧
    (∀ e, e ∈ list_entries s' → ∃ p, stored s' (id e) p).
Proof.
  assert (Hlen : length ex_left = 2) by (vm_compute; reflexivity).
  split; [exact Hlen|]. split; [vm_compute; discriminate|].
  assert (Hop : op ex_added ex_deleted) by (eapply (op_delete ex_id); apply surjective_pairing).
  apply (crash_atomic (ex_world []) (ex_store []) ex_added ex_deleted ex_left ex_remains).
  - reflexivity.
  - reflexivity.
  - apply rtc_once, step_op. eapply (op_add ex_link (Some (lit " Home ")) (λ _, 7%Z) (Some 9%Z)).
    + apply not_elem_of_nil.
    + apply surjective_pairing.
  - exact Hop.
  - exact (op_past ex_added ex_deleted ex_added_inv Hop).
  - unfold ex_remains. destruct ex_left; [discriminate Hlen|]. left.
Defined.

(** The fourth file-system call of [persist] fails. *)
Lemma add_spec_witness :
  let run := add ex_link None (λ _, 7%Z) (Some 9%Z) (ex_store [None; None; None; Some (lit "full")]) in
  run.1 = Err (Io (lit "full")) ∧
  add_post ex_link None (λ _, 7%Z) (Some 9%Z) (ex_store [None; None; None; Some (lit "full")]) run.1 run.2.
Proof.
  split; [vm_compute; reflexivity|].
  apply add_spec; [apply ex_store_inv|apply not_elem_of_nil|apply surjective_pairing].
Defined.

Lemma delete_spec_witness :
  let i := id <$> entries ex_added in
  (delete (default [] (head i)) ex_added).1 = Ok true ∧
  delete_post (default [] (head i)) ex_added
    (delete (default [] (head i)) ex_added).1 (delete (default [] (head i)) ex_added).2.
Proof.
  split; [vm_compute; reflexivity|].
  apply delete_spec; [apply ex_added_inv|apply surjective_pairing].
Defined.

Lemma rename_spec_witness :
  let i := default [] (head (id <$> entries ex_added)) in
  (name <$> entries (rename i (lit "  ") ex_added).2) = [lit "h"] ∧
  rename_post i (lit "  ") ex_added (rename i (lit "  ") ex_added).1 (rename i (lit "  ") ex_added).2.
Proof.
  split; [vm_compute; reflexivity|].
  apply rename_spec; [apply ex_added_inv|apply surjective_pairing].
Defined.

Definition ex_entry : Entry :=
  {| id := (λ k, z2b k) <$> replicate 16 7%Z; name := lit "Home"; created_at := 9 |}.

Lemma add_idempotent_witness :
  add ex_link None (λ _, 8%Z) None ex_added = (Ok ex_entry, ex_added).
Proof.
  apply (add_idempotent ex_link (Some (lit " Home ")) (λ _, 7%Z) (Some 9%Z) (ex_store [])).
  - intros i b. exact I.
  - apply ex_store_inv.
  - apply not_elem_of_nil.
  - apply injective_projections; [vm_compute; reflexivity|reflexivity].
Defined.

End Store.
