(* ===== verification/Model.v ===== *)
(** * Model: the app-side state actor

    Models the [model] crate: the commands, the actor loop [run_actor] with
    [apply_intent], [export] and [error_sentence], and the [Model] handle whose
    methods queue commands. The callbacks and the calls on the OS port are the
    events an actor run emits; the randomness and the clock an add reads come
    with each command. *)
From S2P Require Import Prelude RustStr Profile Errors Link Store.

Module Model.
Import RustStr Errors.

Definition SCHEMA_VERSION : Z := 1.

Inductive ConnectionState := Disconnected | Connecting | Connected | Disconnecting.
#[export] Instance ConnectionState_eq_dec : EqDecision ConnectionState.
Proof. solve_decision. Defined.

Record Stats := { tx_bytes : Z; rx_bytes : Z }.

Record Snapshot := {
  schema_version : Z;
  profiles : list Store.Entry;
  snap_selected_id : option rstr;
  snap_connection : ConnectionState;
  snap_last_error : option rstr;
}.

Inductive Intent :=
| AddProfileFromUri (uri : rstr)
| RenameProfile (id name : rstr)
| DeleteProfile (id : rstr)
| SelectProfile (id : rstr)
| Connect
| Disconnect.

Inductive ModelError := StoreFailed (e : Store.StoreError) | Stopped.
Abbreviation ExportResult := (outcome ModelError (option (list byte))).

(** A reply channel is named by the number of its query. *)
Inductive Command :=
| CIntent (i : Intent)
| OsStatus (state : ConnectionState) (error : option ConnError)
| CStats (s : Stats)
| ExportUri (id : rstr) (reply : nat).

Record State := {
  entries : list Store.Entry;
  selected_id : option rstr;
  connection : ConnectionState;
  last_error : option rstr;
}.
Definition default_state : State :=
  {| entries := []; selected_id := None; connection := Disconnected; last_error := None |}.

(** [State::snapshot]. *)
Definition snapshot (s : State) : Snapshot := {|
  schema_version := SCHEMA_VERSION;
  profiles := entries s;
  snap_selected_id := selected_id s;
  snap_connection := connection s;
  snap_last_error := last_error s;
|}.

Definition error_sentence (e : ConnError) : rstr :=
  match e with
  | AuthFailed => lit "Authentication failed. Check the profile's credentials."
  | ServerUnreachable => lit "Can't reach the server. Check your network and the server address."
  | Timeout => lit "The connection timed out. Try again."
  | Unknown => lit "Couldn't connect. Try again."
  end.

(** What the actor does to the outside. *)
Inductive event :=
| OnState (s : Snapshot)
| OnStats (s : Stats)
| Start (profile_id : rstr)
| Stop
| Replied (reply : nat) (r : ExportResult).

Section model.
Context `{SecureStore B, Store.Codec, PercentEncoding, FormUrlencoded}.

(** The actor thread: its [State], the store it owns, and what it emitted. *)
Record actor := { state : State; store : Store.store (B:=B); out : list event }.
Abbreviation actor_m := (stm actor Empty_set).

(** The randomness and the time an add would read. *)
Record tick := { rng : nat → Z; clock : option Z }.

Definition set_state (f : State → State) (a : actor) : actor :=
  {| state := f (state a); store := store a; out := out a |}.
Definition set_entries (es : list Store.Entry) (s : State) : State :=
  {| entries := es; selected_id := selected_id s; connection := connection s; last_error := last_error s |}.
Definition set_selected (o : option rstr) (s : State) : State :=
  {| entries := entries s; selected_id := o; connection := connection s; last_error := last_error s |}.
Definition set_connection (c : ConnectionState) (s : State) : State :=
  {| entries := entries s; selected_id := selected_id s; connection := c; last_error := last_error s |}.
Definition set_error (o : option rstr) (s : State) : State :=
  {| entries := entries s; selected_id := selected_id s; connection := connection s; last_error := o |}.
Definition emit (e : event) : actor_m () :=
  modify (λ a, {| state := state a; store := store a; out := out a ++ [e] |}).
Definition update (f : State → State) : actor_m () := modify (set_state f).

(** A method of the store, its result examined by the caller; a panic there
    unwinds the actor. *)
Definition store_call {A} (m : stm (Store.store (B:=B)) Store.StoreError A) :
    actor_m (Store.StoreError + A) := fun a =>
  let '(r, s) := m (store a) in
  (match r with Ok x => Ok (inr x) | Err e => Ok (inl e) | Panic => Panic end,
   {| state := state a; store := s; out := out a |}).

(** [state.entries = store.list().to_vec()]. *)
Definition refresh : actor_m () :=
  modify (λ a, set_state (set_entries (Store.list_entries (store a))) a).

Definition apply_intent (t : tick) (intent : Intent) : actor_m () :=
  match intent with
  | AddProfileFromUri uri =>
    match Link.parse_uri uri with
    | Some profile =>
      r ← store_call (Store.add profile (Link.name_from_uri uri) (rng t) (clock t));
      _ ← match r with
          | inr entry =>
            _ ← update (set_selected (Some (Store.id entry)));
            update (set_error None)
          | inl _ => update (set_error (Some (lit "Couldn't save that profile.")))
          end;
      refresh
    | None => update (set_error (Some (lit "That doesn't look like a hysteria2:// link.")))
    end
  | RenameProfile id name =>
    r ← store_call (Store.rename id name);
    _ ← match r with
        | inr _ => mret ()
        | inl _ => update (set_error (Some (lit "Couldn't rename that profile.")))
        end;
    refresh
  | DeleteProfile id =>
    r ← store_call (Store.delete id);
    _ ← match r with
        | inr _ => update (λ s, if bool_decide (selected_id s = Some id) then set_selected None s else s)
        | inl _ => update (set_error (Some (lit "Couldn't delete that profile.")))
        end;
    refresh
  | SelectProfile id =>
    update (λ s, if existsb (λ e, bool_decide (Store.id e = id)) (entries s)
                 then set_selected (Some id) s else s)
  | Connect =>
    sel ← gets (λ a, selected_id (state a));
    match sel with
    | Some id => _ ← update (set_error None); emit (Start id)
    | None => update (set_error (Some (lit "Select a profile before connecting.")))
    end
  | Disconnect => emit Stop
  end.

(** [export]. *)
Definition export (a : actor) (id : rstr) : ExportResult :=
  let name := Store.name <$> List.find (λ e, bool_decide (Store.id e = id)) (entries (state a)) in
  match map_err StoreFailed (Store.load id (store a)) with
  | Ok (Some profile) => Ok (Some (Link.to_uri_with_name profile name))
  | Ok None => Ok None
  | Err e => Err e
  | Panic => Panic
  end.

(** The body of the actor loop. *)
Definition handle (t : tick) (cmd : Command) : actor_m () :=
  match cmd with
  | CStats counters => emit (OnStats counters)
  | ExportUri id reply =>
    a ← gets Datatypes.id;
    match export a id with
    | Panic => lift Panic
    | result => emit (Replied reply result)
    end
  | OsStatus os error =>
    _ ← update (set_connection os);
    _ ← update (set_error (error_sentence <$> error));
    s ← gets state; emit (OnState (snapshot s))
  | CIntent intent =>
    _ ← apply_intent t intent;
    s ← gets state; emit (OnState (snapshot s))
  end.

Fixpoint loop (cmds : list (tick * Command)) : actor_m () :=
  match cmds with
  | [] => mret ()
  | (t, cmd) :: cmds => _ ← handle t cmd; loop cmds
  end.

Definition init (s : Store.store (B:=B)) : actor :=
  {| state := set_entries (Store.list_entries s) default_state; store := s; out := [] |}.

(** [run_actor] on the commands received until every sender is dropped. *)
Definition run_actor (cmds : list (tick * Command)) : actor_m () :=
  s ← gets state; _ ← emit (OnState (snapshot s)); loop cmds.

(** ** The invariant of the actor *)

Abbreviation listed es := (Store.id <$> es).

Record actor_inv (a : actor) : Prop := {
  ai_store : Store.inv (store a);
  ai_entries : entries (state a) = Store.entries (store a);
  ai_selected : ∀ i, selected_id (state a) = Some i → i ∈ listed (entries (state a));
}.

(** The id an add would use at this tick is new. *)
Definition fresh (t : tick) (a : actor) : Prop :=
  Store.new_uuid_v4 (rng t) ∉ listed (Store.entries (store a)).

Lemma wp_store_call {A} (m : stm (Store.store (B:=B)) Store.StoreError A)
    (Q : outcome Empty_set (Store.StoreError + A) → actor → Prop) a :
  wp m (λ r s', let a' := {| state := state a; store := s'; out := out a |} in
    match r with Ok x => Q (Ok (inr x)) a' | Err e => Q (Ok (inl e)) a' | Panic => Q Panic a' end)
    (store a) →
  wp (store_call m) Q a.
Proof. unfold wp, store_call. by destruct (m (store a)) as [[x|e|] s']. Qed.

(** Run the actor's own steps. *)
Ltac act := unfold update, refresh, emit, Store.list_entries; repeat wp_step.

Lemma init_inv s : Store.inv s → actor_inv (init s).
Proof. intros Hs. split; [done|done|]. by intros i. Qed.

(** An intent keeps the invariant, ends normally, leaves the connection state
    alone and asks the OS for a tunnel only on [Connect] and [Disconnect]. *)
Definition intent_effects (i : Intent) (a : actor) : list event :=
  match i with
  | Connect => match selected_id (state a) with Some id => [Start id] | None => [] end
  | Disconnect => [Stop]
  | _ => []
  end.

Definition intent_post (i : Intent) (a : actor) (r : outcome Empty_set ()) (a' : actor) : Prop :=
  r = Ok () ∧ actor_inv a' ∧ connection (state a') = connection (state a) ∧
  out a' = out a ++ intent_effects i a.

Lemma intent_add t uri a :
  actor_inv a → fresh t a →
  wp (apply_intent t (AddProfileFromUri uri)) (intent_post (AddProfileFromUri uri) a) a.
Proof.
  intros [Hs He Hsel] Hf. cbn [apply_intent]. destruct (Link.parse_uri uri) as [p|].
  2:{ act. split_and!; [done|by split|done|by rewrite app_nil_r]. }
  wp_step. apply wp_store_call.
  eapply wp_mono; [by apply Store.wp_add|]. intros r s' (Hs' & _ & Hr). cbn zeta.
  assert (Hkeep : ∀ i, i ∈ listed (entries (state a)) → ∀ e, r = Ok e → i ∈ listed (Store.entries s')).
  { intros i Hi e ->. rewrite He in Hi.
    destruct Hr as [[_ ->]|(_ & -> & _)]; [done|]. rewrite fmap_app. set_solver. }
  destruct r as [e|x|]; [| |done]; act.
  - split_and!; [done| |done|by rewrite app_nil_r]. split; [done|done|]. cbn. intros i [= <-].
    destruct Hr as [[Hm ->]|(_ & -> & _)].
    + apply list_elem_of_fmap. exists e. split; [done|]. by apply (Store.find_matching_elem p).
    + rewrite fmap_app. set_solver.
  - split_and!; [done| |done|by rewrite app_nil_r]. split; [done|done|]. cbn. intros i Hi.
    destruct Hr as (_ & -> & _). rewrite <-He. by apply Hsel.
Qed.

Lemma intent_rename t i n a :
  actor_inv a → wp (apply_intent t (RenameProfile i n)) (intent_post (RenameProfile i n) a) a.
Proof.
  intros [Hs He Hsel]. cbn [apply_intent]. wp_step. apply wp_store_call.
  eapply wp_mono; [by apply Store.wp_rename|]. intros r s' (Hs' & _ & Hr). cbn zeta.
  assert (Hids : r ≠ Panic → listed (Store.entries s') = listed (entries (state a))).
  { intros Hp. rewrite He. destruct r as [[]|x|]; [|naive_solver| |done].
    - destruct Hr as (_ & nm & _ & ->). rewrite <-list_fmap_compose.
      apply list_fmap_ext. intros j e _. cbn. by destruct (decide _).
    - by destruct Hr as (_ & [-> _ _]). }
  destruct r as [b|x|]; [| |done]; act;
    (split_and!; [done| |done|by rewrite app_nil_r]); split; [done..| |done|done|];
    cbn; intros j Hj; (rewrite Hids; [|done]); by apply Hsel.
Qed.

Lemma intent_delete t i a :
  actor_inv a → wp (apply_intent t (DeleteProfile i)) (intent_post (DeleteProfile i) a) a.
Proof.
  intros [Hs He Hsel]. cbn [apply_intent]. wp_step. apply wp_store_call.
  eapply wp_mono; [by apply Store.wp_delete|]. intros r s' (Hs' & _ & Hr). cbn zeta.
  destruct r as [b|x|]; [| |done]; act.
  - split_and!; [done| | |by rewrite app_nil_r].
    + split; [done|done|]. cbn. intros j Hj. destruct Hr as (_ & ->).
      destruct (bool_decide_reflect (selected_id (state a) = Some i)) as [Hi|Hi]; [done|].
      cbn in Hj. pose proof (Hsel j Hj) as Hin. rewrite He in Hin.
      apply list_elem_of_fmap in Hin as (e & -> & Hin). apply list_elem_of_fmap. exists e.
      split; [done|]. apply list_elem_of_filter. split; [|done]. intros <-. by rewrite Hj in Hi.
    + cbn. by case_bool_decide.
  - split_and!; [done| |done|by rewrite app_nil_r]. split; [done|done|]. cbn. intros j Hj.
    destruct Hr as (_ & [-> _ _]). rewrite <-He. by apply Hsel.
Qed.

Lemma wp_intent t i a :
  actor_inv a → fresh t a → wp (apply_intent t i) (intent_post i a) a.
Proof.
  intros Hinv Hf. destruct i as [uri|i n|i|i| |].
  - by apply intent_add.
  - by apply intent_rename.
  - by apply intent_delete.
  - cbn. act. destruct Hinv as [Hs He Hsel].
    split_and!; [done| | |by rewrite app_nil_r].
    + split; [done| |]; cbn; destruct (existsb _ _) eqn:Hx; cbn; try done.
      intros j [= <-]. apply existsb_exists in Hx as (e & Hin & Hid%bool_decide_eq_true).
      apply list_elem_of_fmap. exists e. split; [done|]. by apply list_elem_of_In.
    + cbn. by destruct (existsb _ _).
  - cbn. wp_step. wp_step. destruct Hinv as [Hs He Hsel].
    destruct (selected_id (state a)) as [j|] eqn:Hj; act.
    + split_and!; [done| |done|cbn; by rewrite Hj]. split; [done|done|]. cbn. rewrite Hj. by intros ? [= <-]; apply Hsel.
    + split_and!; [done| |done|cbn; by rewrite Hj, app_nil_r]. split; [done|done|]. cbn. by rewrite Hj.
  - cbn. act. split_and!; [done| |done|done]. by split; apply Hinv.
Qed.

(** What one command makes the actor emit. *)
Definition emitted (cmd : Command) (a a' : actor) : list event :=
  match cmd with
  | CStats c => [OnStats c]
  | ExportUri id reply => [Replied reply (export a id)]
  | OsStatus _ _ => [OnState (snapshot (state a'))]
  | CIntent i => intent_effects i a ++ [OnState (snapshot (state a'))]
  end.

Definition handle_post (cmd : Command) (a : actor) (r : outcome Empty_set ()) (a' : actor) : Prop :=
  r = Ok () ∧ actor_inv a' ∧ out a' = out a ++ emitted cmd a a' ∧
  connection (state a') = (match cmd with OsStatus os _ => os | _ => connection (state a) end) ∧
  match cmd with
  | CStats _ | ExportUri _ _ => state a' = state a ∧ store a' = store a
  | OsStatus _ error => store a' = store a ∧ last_error (state a') = error_sentence <$> error
  | CIntent _ => True
  end.

Lemma export_total a id : export a id ≠ Panic.
Proof.
  unfold export. pose proof (Store.load_total (store a) id) as Ht.
  by destruct (Store.load id (store a)) as [[]| |].
Qed.

Lemma wp_handle t cmd a : actor_inv a → fresh t a → wp (handle t cmd) (handle_post cmd a) a.
Proof.
  intros Hinv Hf. destruct cmd as [i|os err|c|id reply]; cbn [handle].
  - wp_step. eapply wp_mono; [by apply wp_intent|].
    intros r a1 (-> & Hinv1 & Hc & Ho). act. split_and!; [done|by split; apply Hinv1| |done|done].
    cbn. by rewrite Ho, <-app_assoc.
  - act. split_and!; [done|by split; apply Hinv|done..].
  - act. split_and!; [done|by split; apply Hinv|done..].
  - wp_step. wp_step. cbn [Datatypes.id]. destruct (export a id) as [o|e|] eqn:Hx.
    + act. split_and!; [done|by split; apply Hinv|cbn; by rewrite Hx|done..].
    + act. split_and!; [done|by split; apply Hinv|cbn; by rewrite Hx|done..].
    + by apply export_total in Hx.
Qed.

(** Each add of the run draws a new id. *)
Fixpoint fresh_run (cmds : list (tick * Command)) (a : actor) : Prop :=
  match cmds with
  | [] => True
  | (t, cmd) :: cmds => fresh t a ∧ fresh_run cmds (handle t cmd a).2
  end.

(** The events of a run: the ones each command makes, in order. *)
Fixpoint trace (cmds : list (tick * Command)) (a : actor) : list event :=
  match cmds with
  | [] => []
  | (t, cmd) :: cmds => let a' := (handle t cmd a).2 in emitted cmd a a' ++ trace cmds a'
  end.

(** The last status the OS reported. *)
Fixpoint last_status (c : ConnectionState) (cmds : list (tick * Command)) : ConnectionState :=
  match cmds with
  | [] => c
  | (_, OsStatus os _) :: cmds => last_status os cmds
  | _ :: cmds => last_status c cmds
  end.

Lemma handle_run t cmd a :
  actor_inv a → fresh t a → handle_post cmd a (handle t cmd a).1 (handle t cmd a).2.
Proof. intros Hinv Hf. by apply wp_handle. Qed.

Lemma wp_loop cmds a :
  actor_inv a → fresh_run cmds a →
  wp (loop cmds) (λ r a', r = Ok () ∧ actor_inv a' ∧ out a' = out a ++ trace cmds a ∧
    connection (state a') = last_status (connection (state a)) cmds) a.
Proof.
  revert a. induction cmds as [|[t cmd] cmds IH]; intros a Hinv Hf; cbn [loop].
  { wp_step. split_and!; [done|done|by rewrite app_nil_r|done]. }
  destruct Hf as [Hf Hfs]. wp_step. pose proof (handle_run t cmd a Hinv Hf) as Hh.
  unfold wp at 1. destruct (handle t cmd a) as [r a1] eqn:Ha. cbn [fst snd] in *.
  destruct Hh as (-> & Hinv1 & Ho & Hc & _). eapply wp_mono; [by apply IH|].
  intros r a2 (-> & Hinv2 & Ho2 & Hc2). split_and!; [done|done| |].
  - cbn [trace]. by rewrite Ha, Ho2, Ho, <-app_assoc.
  - rewrite Hc2, Hc. by destruct cmd.
Qed.

(** A snapshot worth showing: the ids are distinct and the selected profile is
    one of them. *)
Definition snapshot_ok (e : event) : Prop :=
  match e with
  | OnState s => schema_version s = SCHEMA_VERSION ∧ NoDup (listed (profiles s)) ∧
      (∀ i, snap_selected_id s = Some i → i ∈ listed (profiles s))
  | _ => True
  end.

Lemma inv_snapshot_ok a : actor_inv a → snapshot_ok (OnState (snapshot (state a))).
Proof.
  intros [Hs He Hsel]. split_and!; [done| |done]. cbn. rewrite He. apply Hs.
Qed.

Lemma trace_ok cmds a : actor_inv a → fresh_run cmds a → Forall snapshot_ok (trace cmds a).
Proof.
  revert a. induction cmds as [|[t cmd] cmds IH]; intros a Hinv; [by constructor|].
  intros [Hf Hfs]. cbn [trace]. pose proof (handle_run t cmd a Hinv Hf) as (_ & Hinv1 & _).
  apply Forall_app. split; [|by apply IH].
  destruct cmd as [i| | |]; cbn [emitted].
  - apply Forall_app. split; [|by repeat constructor; apply inv_snapshot_ok].
    destruct i; cbn; repeat constructor. destruct (selected_id _); by repeat constructor.
  - repeat constructor; by apply inv_snapshot_ok.
  - by repeat constructor.
  - by repeat constructor.
Qed.

Definition state_of (e : event) : option ConnectionState :=
  match e with OnState s => Some (snap_connection s) | _ => None end.
Definition stats_of (e : event) : option Stats := match e with OnStats s => Some s | _ => None end.
Definition stats_cmd (c : tick * Command) : option Stats :=
  match c.2 with CStats s => Some s | _ => None end.

(** The connection state each snapshot should show: the last OS status. *)
Fixpoint statuses (c : ConnectionState) (cmds : list (tick * Command)) : list ConnectionState :=
  match cmds with
  | [] => []
  | (_, OsStatus os _) :: cmds => os :: statuses os cmds
  | (_, CIntent _) :: cmds => c :: statuses c cmds
  | _ :: cmds => statuses c cmds
  end.

Lemma trace_statuses cmds a :
  actor_inv a → fresh_run cmds a →
  omap state_of (trace cmds a) = statuses (connection (state a)) cmds ∧
  omap stats_of (trace cmds a) = omap stats_cmd cmds.
Proof.
  revert a. induction cmds as [|[t cmd] cmds IH]; intros a Hinv; [done|].
  intros [Hf Hfs]. cbn [trace]. pose proof (handle_run t cmd a Hinv Hf) as (_ & Hinv1 & _ & Hc & _).
  destruct (IH _ Hinv1 Hfs) as [IH1 IH2]. rewrite !omap_app, IH1, IH2, Hc.
  clear IH Hinv1 IH1 IH2 Hfs. revert Hc. generalize (handle t cmd a).2. intros a1 Hc.
  destruct cmd as [i| | |]; cbn [emitted]; rewrite ?omap_app; cbn; rewrite ?Hc; [|done..].
  destruct i; cbn; try done. by destruct (selected_id (state a)).
Qed.

(** The actor once its thread has emitted the first snapshot. *)
Definition started (s : Store.store (B:=B)) : actor :=
  {| state := state (init s); store := s; out := [OnState (snapshot (state (init s)))] |}.

(** C4: The whole run. The actor answers every command and never panics; the first
    snapshot comes before any command, every intent and every OS status is
    followed by one snapshot, stats go out unchanged on their own channel and a
    query gets one reply. Each snapshot shows the connection state of the last
    OS status (never an optimistic one), distinct profile ids and a selected
    profile that is listed; at the end the profiles are the store's. *)
Theorem run_actor_spec s cmds r a :
  Store.inv s → fresh_run cmds (started s) → run_actor cmds (init s) = (r, a) →
  r = Ok () ∧
  out a = OnState (snapshot (state (init s))) :: trace cmds (started s) ∧
  omap state_of (out a) = Disconnected :: statuses Disconnected cmds ∧
  omap stats_of (out a) = omap stats_cmd cmds ∧
  Forall snapshot_ok (out a) ∧
  entries (state a) = Store.list_entries (store a) ∧
  connection (state a) = last_status Disconnected cmds.
Proof.
  intros Hs Hf Hrun. pattern r, a. refine (wp_run _ _ _ _ _ _ Hrun). clear Hrun.
  pose proof (init_inv s Hs) as Hi.
  assert (Hst : actor_inv (started s)) by (by split; apply Hi).
  unfold run_actor, emit. wp_step. wp_step. wp_step. wp_step.
  eapply wp_mono; [by apply (wp_loop cmds (started s))|].
  intros r' a' (-> & Hinv & Ho & Hc). rewrite Ho. cbn [started out].
  destruct (trace_statuses cmds _ Hst Hf) as [H1' H2'].
  split_and!; [done|done| | | |apply Hinv|done].
  - change ([?x] ++ ?l) with (x :: l). cbn [omap list_omap state_of]. f_equal. exact H1'.
  - change ([?x] ++ ?l) with (x :: l). cbn [omap list_omap stats_of]. exact H2'.
  - apply Forall_cons. split; [by apply (inv_snapshot_ok (init s))|by apply trace_ok].
Qed.

Lemma find_listed (e : Store.Entry) es :
  NoDup (listed es) → e ∈ es →
  List.find (λ e', bool_decide (Store.id e' = Store.id e)) es = Some e.
Proof.
  induction es as [|x es IH]; [by intros _ ?%not_elem_of_nil|].
  cbn [fmap list_fmap]. intros [Hx Hn]%NoDup_cons [->|He]%elem_of_cons; cbn.
  - by rewrite bool_decide_eq_true_2.
  - rewrite bool_decide_eq_false_2; [by apply IH|]. intros Heq. apply Hx. rewrite Heq.
    apply list_elem_of_fmap. eauto.
Qed.

Lemma wp_add_intent t uri p a :
  actor_inv a → fresh t a → Link.parse_uri uri = Some p →
  wp (apply_intent t (AddProfileFromUri uri)) (λ r a', last_error (state a') = None →
    ∃ e, selected_id (state a') = Some (Store.id e) ∧
      Store.add_post p (Link.name_from_uri uri) (rng t) (clock t) (store a) (Ok e) (store a') ∧
      entries (state a') = Store.entries (store a')) a.
Proof.
  intros [Hs He Hsel] Hf Hp. cbn [apply_intent]. rewrite Hp. wp_step. apply wp_store_call.
  eapply wp_mono; [by apply Store.wp_add|]. intros r s' Hr. cbn zeta.
  destruct r as [e|x|]; [| |by destruct Hr as (_ & _ & [])]; act; [|done].
  intros _. by exists e.
Qed.

(** C5: Import then share: when adding a link left no error, the selected profile
    exports (the secure store being readable) to a link that parses to the very
    profile imported, and whose fragment is the stored display name. *)
Theorem import_export t uri p a a' :
  (∀ i b, is_ok (ss_get i b)) → actor_inv a → fresh t a → Link.parse_uri uri = Some p →
  handle t (CIntent (AddProfileFromUri uri)) a = (Ok (), a') → last_error (state a') = None →
  ∃ e bytes, e ∈ entries (state a') ∧ selected_id (state a') = Some (Store.id e) ∧
    export a' (Store.id e) = Ok (Some bytes) ∧ Link.parse_uri bytes = Some p ∧
    (utf8_valid (trim (Store.name e)) = true →
     Link.name_from_uri bytes = Link.non_empty (Some (trim (Store.name e)))).
Proof.
  intros Hok Hinv Hf Hp Hrun Herr.
  assert (Hw : wp (handle t (CIntent (AddProfileFromUri uri))) (λ r a', last_error (state a') = None →
    ∃ e, selected_id (state a') = Some (Store.id e) ∧
      Store.add_post p (Link.name_from_uri uri) (rng t) (clock t) (store a) (Ok e) (store a') ∧
      entries (state a') = Store.entries (store a')) a).
  { cbn [handle]. wp_step. eapply wp_mono; [by apply wp_add_intent|].
    intros [u|x|] a1 Hw; [act; exact Hw|by destruct x|exact Hw]. }
  destruct (wp_run _ _ _ _ _ Hw Hrun Herr) as (e & Hsel & Hadd & He).
  assert (Hload : e ∈ entries (state a') ∧ Store.load (Store.id e) (store a') = Ok (Some p)).
  { rewrite He. destruct Hadd as (_ & _ & [[Hm ->]|(_ & Hes & Hst & _ & Hid & _)]).
    - split; [by eapply Store.find_matching_elem|by apply Store.find_matching_load].
    - rewrite Hid. split; [rewrite Hes; set_solver|by apply Store.load_reliable]. }
  destruct Hload as [Hin Hload]. destruct Hadd as (Hinv' & _).
  pose proof (Link.parse_uri_linkable _ _ Hp) as Hlk.
  exists e, (Link.to_uri_with_name p (Some (Store.name e))). split_and!; [done|done| | |].
  - unfold export. rewrite Hload, (find_listed e); [done|rewrite He; apply Hinv'|done].
  - by apply Link.parse_to_uri.
  - intros Hu. apply Link.name_of_to_uri; [done|]. by intros n [= <-].
Qed.

(** ** The handle and its channel *)

(** The channel between the callers' threads and the actor: what is queued, and
    whether the receiving end is still there. *)
Record chan := { queue : list Command; receiver : bool }.

Definition tx_send (cmd : Command) (ch : chan) : bool * chan :=
  if receiver ch then (true, {| queue := queue ch ++ [cmd]; receiver := true |}) else (false, ch).

Definition send (i : Intent) (ch : chan) : chan := (tx_send (CIntent i) ch).2.
Definition on_os_status (st : ConnectionState) (err : option ConnError) (ch : chan) : chan :=
  (tx_send (OsStatus st err) ch).2.
Definition on_stats (st : Stats) (ch : chan) : chan := (tx_send (CStats st) ch).2.

(** [export_profile_uri]: queue the query, then wait on its reply channel, which
    closes unanswered if the actor stops. *)
Definition replied (reply : nat) (evs : list event) : option ExportResult :=
  head (omap (λ e, match e with Replied k r => if decide (k = reply) then Some r else None | _ => None end) evs).
Definition export_profile_uri (id : rstr) (reply : nat) (ch : chan) (later : list event) :
    ExportResult * chan :=
  match tx_send (ExportUri id reply) ch with
  | (false, ch) => (Err Stopped, ch)
  | (true, ch) => (default (Err Stopped) (replied reply later), ch)
  end.

(** Callers on any thread and the actor, interleaved: a call queues a command,
    the actor takes the oldest. [history] is every command accepted so far. *)
Record system := { channel : chan; running : actor; history : list Command }.

Inductive sys_step : system → system → Prop :=
| sys_call cmd ch a h ch' :
    tx_send cmd ch = (true, ch') →
    sys_step {| channel := ch; running := a; history := h |}
             {| channel := ch'; running := a; history := h ++ [cmd] |}
| sys_actor t cmd q a h a' :
    handle t cmd a = (Ok (), a') →
    sys_step {| channel := {| queue := cmd :: q; receiver := true |}; running := a; history := h |}
             {| channel := {| queue := q; receiver := true |}; running := a'; history := h |}.

Definition sys_init (s : Store.store (B:=B)) : system :=
  {| channel := {| queue := []; receiver := true |}; running := started s; history := [] |}.

Lemma loop_snoc cmds t cmd a a1 a2 :
  loop cmds a = (Ok (), a1) → handle t cmd a1 = (Ok (), a2) →
  loop (cmds ++ [(t, cmd)]) a = (Ok (), a2).
Proof.
  revert a. induction cmds as [|[t' cmd'] cmds IH]; intros a; cbn [loop app].
  - intros [= <-] Hh. apply stm_bind_ok. by eexists _, _.
  - intros (u & a3 & Hh & Hl)%stm_bind_ok Hc. apply stm_bind_ok. eauto.
Qed.

(** ** Queries *)

Definition query_of (c : Command) : option nat := match c with ExportUri _ k => Some k | _ => None end.
Definition reply_of (e : event) : option nat := match e with Replied k _ => Some k | _ => None end.

Lemma trace_replies cmds a : omap reply_of (trace cmds a) = omap query_of (snd <$> cmds).
Proof.
  revert a. induction cmds as [|[t cmd] cmds IH]; intros a; [done|].
  cbn [trace]. rewrite omap_app, IH. destruct cmd as [i|os err|c|id k]; cbn; try done.
  rewrite omap_app. destruct i; try done. cbn. by destruct (selected_id (state a)).
Qed.

Lemma fresh_run_app l1 l2 a :
  fresh_run (l1 ++ l2) a ↔ fresh_run l1 a ∧ fresh_run l2 (foldl (λ a c, (handle c.1 c.2 a).2) a l1).
Proof.
  revert a. induction l1 as [|[t c] l1 IH]; intros a; cbn [fresh_run app foldl fst snd]; [tauto|].
  rewrite IH. tauto.
Qed.

Lemma trace_app l1 l2 a :
  trace (l1 ++ l2) a = trace l1 a ++ trace l2 (foldl (λ a c, (handle c.1 c.2 a).2) a l1).
Proof.
  revert a. induction l1 as [|[t c] l1 IH]; intros a; cbn [trace app foldl fst snd]; [done|].
  by rewrite IH, app_assoc.
Qed.

Lemma loop_foldl l a a' : loop l a = (Ok (), a') → a' = foldl (λ a c, (handle c.1 c.2 a).2) a l.
Proof.
  revert a. induction l as [|[t c] l IH]; intros a; cbn [loop foldl fst snd]; [by intros [= <-]|].
  intros (u & a1 & Hh & Hl)%stm_bind_ok. rewrite Hh. by apply IH.
Qed.

Lemma loop_app l1 l2 a a1 a2 :
  loop l1 a = (Ok (), a1) → loop (l1 ++ l2) a = (Ok (), a2) → loop l2 a1 = (Ok (), a2).
Proof.
  revert a. induction l1 as [|[t c] l1 IH]; intros a; cbn [loop app]; [by intros [= <-]|].
  intros (u & a3 & Hh & Hl)%stm_bind_ok (u' & a3' & Hh' & Hl')%stm_bind_ok.
  rewrite Hh in Hh'. injection Hh' as <- <-. by apply (IH a3).
Qed.

(** Running the commands from the start, the actor ends, with their trace. *)
Lemma loop_started s l :
  Store.inv s → fresh_run l (started s) →
  ∃ a, loop l (started s) = (Ok (), a) ∧ out a = out (started s) ++ trace l (started s).
Proof.
  intros Hs Hf. assert (Hi : actor_inv (started s)) by (by split; apply (init_inv s Hs)).
  pose proof (wp_loop l (started s) Hi Hf) as Hw. unfold wp in Hw.
  destruct (loop l (started s)) as [r a]. cbn in Hw. destruct Hw as (-> & _ & Ho & _). by exists a.
Qed.

Lemma replied_app k evs1 evs2 :
  k ∉ omap reply_of evs1 → replied k (evs1 ++ evs2) = replied k evs2.
Proof.
  unfold replied. intros Hk. rewrite omap_app.
  replace (omap _ evs1) with (@nil ExportResult); [done|]. symmetry.
  induction evs1 as [|e evs1 IH]; [done|]. destruct e; cbn in *; try by apply IH.
  apply not_elem_of_cons in Hk as [Hne Hk]. rewrite decide_False by done. by apply IH.
Qed.

Lemma serial_runs s σ :
  rtc sys_step (sys_init s) σ →
  receiver (channel σ) = true ∧ ∃ cmds, history σ = (snd <$> cmds) ++ queue (channel σ) ∧
    loop cmds (started s) = (Ok (), running σ).
Proof.
  intros Hr. pattern σ. refine (rtc_ind_r _ _ _ _ σ Hr); clear σ Hr; [split; [done|by exists []]|].
  intros σ1 σ2 Hr Hstep IH. destruct IH as (Hrc & cmds & Hh & Hl). destruct Hstep as [cmd ch a h ch' Hs|t cmd q a h a' Ha]; cbn in *.
  - unfold tx_send in Hs. rewrite Hrc in Hs. injection Hs as <-. split; [done|].
    exists cmds. cbn. by rewrite Hh, app_assoc.
  - split; [done|]. exists (cmds ++ [(t, cmd)]). split; [|by eapply loop_snoc].
    by rewrite Hh, fmap_app, <-app_assoc.
Qed.

(** Commands are serialised: whatever the interleaving of the callers and the
    actor, the actor is where running the accepted commands one by one, in the
    order they were accepted, leaves it, and the rest is still queued. *)
Theorem serialised s σ :
  rtc sys_step (sys_init s) σ →
  ∃ cmds, history σ = (snd <$> cmds) ++ queue (channel σ) ∧
    loop cmds (started s) = (Ok (), running σ).
Proof. intros Hr. by destruct (serial_runs s σ Hr). Qed.

(** C36: Every query is answered, once, by the state its turn finds. Whatever the
    interleaving of the callers and the actor so far, the actor has run some of
    the accepted commands one by one in the order of their acceptance and the
    rest is queued; left to run, it works the queue off without a panic, and
    then the queries ever accepted have been answered, each once and in order.
    A caller waiting for a query (no two share a reply channel) is given what
    [export] says in the state that all commands accepted before it lead to. *)
Theorem queries_answered s σ ts :
  Store.inv s → rtc sys_step (sys_init s) σ → NoDup (omap query_of (history σ)) →
  length ts = length (queue (channel σ)) →
  ∃ cmds, let all := cmds ++ zip ts (queue (channel σ)) in
    (snd <$> all) = history σ ∧ loop cmds (started s) = (Ok (), running σ) ∧
    (fresh_run all (started s) →
     ∃ a, loop (zip ts (queue (channel σ))) (running σ) = (Ok (), a) ∧
       omap reply_of (out a) = omap query_of (history σ) ∧
       ∀ before t id k after, all = before ++ (t, ExportUri id k) :: after →
         ∃ a', loop before (started s) = (Ok (), a') ∧ replied k (out a) = Some (export a' id)).
Proof.
  intros Hs Hr Hnd Hts. destruct (serial_runs s σ Hr) as (_ & cmds & Hh & Hl).
  exists cmds. intros all.
  assert (Hall : (snd <$> all) = history σ) by (unfold all; by rewrite fmap_app, snd_zip, Hh by lia).
  split_and!; [done..|]. intros Hf. destruct (loop_started s all Hs Hf) as (a & Ha & Ho).
  exists a. split_and!; [by eapply loop_app| |].
  - rewrite Ho, omap_app, trace_replies, Hall. done.
  - intros before t id k after Heq. rewrite <-Hall, Heq, fmap_app, omap_app in Hnd.
    cbn in Hnd. apply NoDup_app in Hnd as (_ & Hk & _). rewrite Heq in Hf, Ho.
    apply fresh_run_app in Hf as [Hf _]. destruct (loop_started s before Hs Hf) as (a' & Ha' & _).
    exists a'. split; [done|]. rewrite Ho, trace_app, <-(loop_foldl _ _ _ Ha'), app_assoc.
    rewrite replied_app.
    + cbn [trace emitted app]. unfold replied. cbn [omap list_omap]. by rewrite decide_True.
    + rewrite omap_app, trace_replies. cbn. intros Hin. by apply (Hk k Hin); left.
Qed.

End model.

(** ** A concrete run *)

#[local] Existing Instance Store.plain_codec.
#[local] Existing Instance Link.sample_percent.
#[local] Existing Instance Link.sample_form.

Definition ex_tick (n : Z) : tick := {| rng := λ _, n; clock := Some 5%Z |}.
Definition ex_uri : rstr := lit "hysteria2://tok@h:443/#Home".
Definition ex_cmds : list (tick * Command) :=
  [(ex_tick 1, OsStatus Connected None);
   (ex_tick 2, CIntent (AddProfileFromUri ex_uri));
   (ex_tick 3, CStats {| tx_bytes := 1; rx_bytes := 2 |});
   (ex_tick 4, CIntent Connect)].

Lemma run_actor_spec_witness :
  let s := Store.ex_store [] in
  let a := (run_actor ex_cmds (init s)).2 in
  omap state_of (out a) = [Disconnected; Connected; Connected; Connected] ∧
  Forall snapshot_ok (out a).
Proof.
  intros s a.
  assert (Hf : fresh_run ex_cmds (started s)) by (repeat split; apply (bool_decide_unpack _); vm_compute; reflexivity).
  destruct (run_actor_spec s ex_cmds (run_actor ex_cmds (init s)).1 a (Store.ex_store_inv []) Hf
    (surjective_pairing _)) as (_ & _ & Hst & _ & Hok & _).
  split; [exact Hst|exact Hok].
Defined.

Lemma import_export_witness :
  let a := started (Store.ex_store []) in
  let a' := (handle (ex_tick 7) (CIntent (AddProfileFromUri ex_uri)) a).2 in
  ∃ e bytes, e ∈ entries (state a') ∧ selected_id (state a') = Some (Store.id e) ∧
    export a' (Store.id e) = Ok (Some bytes) ∧
    Link.parse_uri bytes = Link.parse_uri ex_uri.
Proof.
  intros a a'.
  destruct (Link.parse_uri ex_uri) as [p|] eqn:Hp; [|vm_compute in Hp; discriminate Hp].
  destruct (import_export (ex_tick 7) ex_uri p a a') as (e & bytes & He & Hsel & Hx & Hb & _).
  - intros i b. exact I.
  - split; [apply Store.ex_store_inv|reflexivity|intros i Hi; discriminate Hi].
  - apply not_elem_of_nil.
  - exact Hp.
  - apply injective_projections; [vm_compute; reflexivity|reflexivity].
  - vm_compute. reflexivity.
  - exists e, bytes. split; [exact He|split; [exact Hsel|split; [exact Hx|exact Hb]]].
Defined.

Lemma serialised_witness :
  let s := Store.ex_store [] in
  let σ := {| channel := {| queue := [CIntent Connect]; receiver := true |};
              running := started s; history := [CIntent Connect] |} in
  ∃ cmds, history σ = (snd <$> cmds) ++ queue (channel σ) ∧
    loop cmds (started s) = (Ok (), running σ).
Proof.
  intros s σ. apply serialised. apply rtc_once.
  apply (sys_call (CIntent Connect) {| queue := []; receiver := true |} (started s) []). reflexivity.
Defined.

(** A link is added and its profile asked for, by two calls still queued. *)
Lemma queries_answered_witness :
  let s := Store.ex_store [] in
  let id := Store.new_uuid_v4 (rng (ex_tick 1)) in
  let q := [CIntent (AddProfileFromUri ex_uri); ExportUri id 3] in
  let all := zip [ex_tick 1; ex_tick 2] q in
  ∃ a a', loop all (started s) = (Ok (), a) ∧ omap reply_of (out a) = [3] ∧
    loop (take 1 all) (started s) = (Ok (), a') ∧ replied 3 (out a) = Some (export a' id) ∧
    is_ok (export a' id).
Proof.
  intros s id q all.
  set (σ := {| channel := {| queue := q; receiver := true |}; running := started s; history := q |}).
  destruct (queries_answered s σ [ex_tick 1; ex_tick 2]) as (cmds & Hall & Hl & Hrun).
  - apply Store.ex_store_inv.
  - eapply rtc_l; [by apply (sys_call (CIntent (AddProfileFromUri ex_uri)))|].
    apply rtc_once. by apply (sys_call (ExportUri id 3)).
  - apply NoDup_singleton.
  - reflexivity.
  - assert (cmds = []) as ->.
    { destruct cmds; [done|]. apply (f_equal length) in Hall.
      rewrite length_fmap, length_app in Hall. cbn in Hall. lia. }
    destruct Hrun as (a & Ha & Hq & Hk).
    { repeat split; apply (bool_decide_unpack _); vm_compute; reflexivity. }
    destruct (Hk (take 1 all) (ex_tick 2) id 3 [] eq_refl) as (a' & Ha' & Hrep).
    exists a, a'. split; [exact Ha|]. split; [exact Hq|]. split; [exact Ha'|]. split; [exact Hrep|].
    assert (Ha2 : a' = (loop (take 1 all) (started s)).2) by by rewrite Ha'.
    rewrite Ha2. vm_compute. exact I.
Defined.

End Model.
