(* ===== verification/Secrets.v ===== *)
(** * Secrets: what a profile's secrets can influence

    Two runs of the app that import links to different profiles, compared. A
    disguise [σ] turns a profile into another one with the same server; the
    authentication, the obfuscation key and everything else may change, only
    that equal profiles stay equal and different ones different. When the
    commands of the second run are those of the first for the disguised
    profiles, the two runs show the same snapshots and counters, ask the OS for
    the same, and write the same document. *)
From S2P Require Import Prelude Relational RustStr Profile Errors Link Store Model.

(** What the comparison asks of the outside: writing a profile as JSON does not
    fail, and the secure store does not look into what it stores. *)
Class Disguise {B} `{SecureStore B, Store.Codec} (σ : Profile.Profile → Profile.Profile)
    (RB : relation B) := {
  disguise_inj : Inj (=) (=) σ;
  disguise_server p : Profile.server (σ p) = Profile.server p;
  profile_to_vec_ok p : is_ok (Store.profile_to_vec p);
  disguised_secret s s' := ∃ p, Store.profile_to_vec p = Ok s ∧ Store.profile_to_vec (σ p) = Ok s';
  ss_get_rel b b' i : RB b b' → outcome_rel (option_Forall2 disguised_secret) (ss_get i b) (ss_get i b');
  ss_set_rel b b' i s s' : RB b b' → disguised_secret s s' →
    (ss_set i s b).1 = (ss_set i s' b').1 ∧ RB (ss_set i s b).2 (ss_set i s' b').2;
  ss_delete_rel b b' i : RB b b' →
    (ss_delete i b).1 = (ss_delete i b').1 ∧ RB (ss_delete i b).2 (ss_delete i b').2;
}.

Module Secrets.

(** ** The store *)

Section store.
Context `{Disguise B σ RB}.
Import Store.

Definition disguises (p p' : Profile.Profile) : Prop := p' = σ p.

Definition remains_rel (r r' : remains) : Prop :=
  left_disk r' = left_disk r ∧ RB (left_backend r) (left_backend r').
Record world_rel (w w' : world) : Prop := {
  wr_disk : disk w' = disk w;
  wr_backend : RB (backend w) (backend w');
  wr_faults : faults w' = faults w;
  wr_past : Forall2 remains_rel (past w) (past w');
}.
Record store_rel (s s' : store) : Prop := {
  sr_entries : entries s' = entries s;
  sr_env : world_rel (env s) (env s');
}.

Lemma fs_call_rel : stm_rel (E:=StoreError) world_rel eq fs_call fs_call.
Proof.
  intros w w' [Hd Hb Hf Hp]. unfold fs_call. cbn. rewrite Hf. split; [|by split].
  by destruct (head (faults w)) as [[]|].
Qed.

#[export] Instance set_env_rel : Proper ((world_rel ==> world_rel) ==> store_rel ==> store_rel) set_env.
Proof. intros f f' Hf s s' [He Hw]. split; [done|by apply Hf]. Qed.
#[export] Instance set_entries_rel f : Proper (store_rel ==> store_rel) (set_entries f).
Proof. intros s s' [He Hw]. split; [cbn; by rewrite He|done]. Qed.
#[export] Instance set_disk_rel tmp : Proper (world_rel ==> world_rel) (set_disk tmp).
Proof.
  intros w w' [Hd Hb Hf Hp]. split; cbn; [done..|].
  repeat apply Forall2_app; [done| |by constructor]. destruct (synced tmp); by constructor.
Qed.
Lemma set_backend_rel b b' w w' : RB b b' → world_rel w w' → world_rel (set_backend b w) (set_backend b' w').
Proof. intros Hbb [Hd Hb Hf Hp]. split; cbn; [done..|]. apply Forall2_app; [done|by constructor]. Qed.

Lemma fs_op_rel : stm_rel store_rel eq fs_op fs_op.
Proof.
  apply (zoom_rel _ world_rel); [by intros s s' []| |apply fs_call_rel].
  intros w w' Hw s s' Hs. by apply set_env_rel; [intros ? ? ?|].
Qed.

Lemma persist_rel : stm_rel store_rel eq persist persist.
Proof.
  unfold persist, new_in, write_all, sync_all, persist_tmp.
  rel_bind eq; [|apply fs_op_rel]. rel_bind store_rel as Hs; [|by rel_step].
  rel_bind eq as <-; [|rel_step; by rewrite (sr_entries _ _ Hs)].
  rel_bind eq as <-; [|rel_bind eq; [by rel_step|apply fs_op_rel]].
  rel_bind eq as <-; [|rel_bind eq; [by rel_step|apply fs_op_rel]].
  rel_bind eq as <-; [|rel_bind eq; [by rel_step|apply fs_op_rel]].
  rel_bind eq; [|apply fs_op_rel]. rel_step. by apply set_env_rel; [apply set_disk_rel|].
Qed.

Lemma persist_or_rel undo undo' :
  stm_rel store_rel eq undo undo' → stm_rel store_rel eq (persist_or undo) (persist_or undo').
Proof.
  intros Hu s s' Hs. unfold persist_or. destruct (persist_rel s s' Hs) as [Hr Hs1].
  destruct (persist s) as [[u|e|] s1], (persist s') as [[u'|e'|] s1']; cbn in *; try done. subst e'.
  apply (bind_rel store_rel eq eq); [|done|done]. intros ? ? _. apply throw_rel.
Qed.

Lemma secure_call_rel f f' :
  (∀ b b', RB b b' → (f b).1 = (f' b').1 ∧ RB (f b).2 (f' b').2) →
  stm_rel store_rel eq (secure_call f) (secure_call f') ∧ stm_rel store_rel eq (secure_ignore f) (secure_ignore f').
Proof.
  intros Hf. assert (Hs : ∀ s s', store_rel s s' → (f (backend (env s))).1 = (f' (backend (env s'))).1 ∧
    store_rel (set_env (set_backend (f (backend (env s))).2) s) (set_env (set_backend (f' (backend (env s'))).2) s')).
  { intros s s' [He Hw]. destruct (Hf _ _ (wr_backend _ _ Hw)) as [Hr Hb].
    split; [done|]. split; [done|by apply set_backend_rel]. }
  split; intros s s' [Hr Hs1]%Hs; unfold secure_call, secure_ignore;
    destruct (f _) as [r b], (f' _) as [r' b']; cbn in *; [|done].
  subst r'. split; [|done]. apply outcome_rel_refl. by intros [].
Qed.

Lemma secure_delete_rel i :
  stm_rel store_rel eq (secure_ignore (ss_delete i)) (secure_ignore (ss_delete i)).
Proof. apply secure_call_rel. intros b b'. apply ss_delete_rel. Qed.

Lemma load_rel i s s' : store_rel s s' → outcome_rel (option_Forall2 disguises) (load i s) (load i s').
Proof.
  intros [_ Hw]. unfold load. apply (outcome_bind_rel (option_Forall2 (disguised_secret (σ:=σ)))).
  - intros o o' [b b' (p & Hb & Hb')|]; [|constructor].
    rewrite (profile_codec _ _ Hb), (profile_codec _ _ Hb'). by constructor.
  - apply map_err_rel, ss_get_rel, Hw.
Qed.

Lemma matches_rel link s s' e : store_rel s s' → matches (σ link) s' e = matches link s e.
Proof.
  intros Hs. unfold matches. pose proof (load_rel (id e) s s' Hs) as Hl.
  destruct (load (id e) s) as [o| |], (load (id e) s') as [o'| |]; try done.
  destruct Hl as [p p' ->|]; [|done]. apply bool_decide_ext.
  split; [|by intros ->]. apply (inj _ (Inj:=disguise_inj)).
Qed.

Lemma find_matching_rel link s s' : store_rel s s' → find_matching (σ link) s' = find_matching link s.
Proof.
  intros Hs. unfold find_matching. rewrite (sr_entries _ _ Hs).
  induction (entries s) as [|e es IH]; [done|]. cbn. by rewrite (matches_rel link s s'), IH.
Qed.

Lemma add_rel link name rng clock :
  stm_rel store_rel eq (add link name rng clock) (add (σ link) name rng clock).
Proof.
  unfold add. rel_bind store_rel as Hs; [|by rel_step].
  rewrite (find_matching_rel link _ _ Hs), disguise_server.
  destruct (find_matching link x) as [e|]; [by rel_step|].
  rel_bind eq as <-; [|by rel_step].
  rel_bind (disguised_secret (σ:=σ)) as Hsec.
  2:{ rel_step. pose proof (profile_to_vec_ok link) as H1'. pose proof (profile_to_vec_ok (σ link)) as H2'.
      destruct (profile_to_vec link) eqn:E1, (profile_to_vec (σ link)) eqn:E2; try done. by exists link. }
  rel_bind eq; [|apply secure_call_rel; intros b b' Hb; by apply ss_set_rel].
  rel_bind eq; [|rel_step; by apply set_entries_rel].
  rel_bind eq; [by rel_step|]. apply persist_or_rel.
  rel_bind eq; [apply secure_delete_rel|]. rel_step. by apply set_entries_rel.
Qed.

Lemma delete_rel i : stm_rel store_rel eq (delete i) (delete i).
Proof.
  unfold delete. rel_bind store_rel as Hs; [|by rel_step]. rewrite (sr_entries _ _ Hs).
  destruct (position i (entries x)) as [pos|].
  - rel_bind eq as <-; [|rel_step; by apply outcome_rel_refl].
    rel_bind eq; [|rel_step; by apply set_entries_rel].
    rel_bind eq; [|apply persist_or_rel; rel_step; by apply set_entries_rel].
    rel_bind eq; [by rel_step|apply secure_delete_rel].
  - rel_bind eq; [by rel_step|apply secure_delete_rel].
Qed.

Lemma rename_rel i n : stm_rel store_rel eq (rename i n) (rename i n).
Proof.
  unfold rename. rel_bind store_rel as Hs; [|by rel_step]. rewrite (sr_entries _ _ Hs).
  destruct (position i (entries x)) as [pos|]; [|by rel_step].
  assert (Hset : ∀ nm, stm_rel store_rel eq
    (previous ← lift (or_panic (Store.name <$> entries x !! pos));
     _ ← modify (set_entries (alter (set_name nm) pos));
     _ ← persist_or (modify (set_entries (alter (set_name previous) pos))); mret true)
    (previous ← lift (or_panic (Store.name <$> entries x !! pos));
     _ ← modify (set_entries (alter (set_name nm) pos));
     _ ← persist_or (modify (set_entries (alter (set_name previous) pos))); mret true)).
  { intros nm. rel_bind eq as <-; [|rel_step; by apply outcome_rel_refl].
    rel_bind eq; [|rel_step; by apply set_entries_rel].
    rel_bind eq; [by rel_step|]. apply persist_or_rel. rel_step. by apply set_entries_rel. }
  case_bool_decide; [|apply Hset].
  rel_bind (option_Forall2 disguises) as Ho; [|rel_step; by apply load_rel].
  destruct Ho as [p p' ->|]; [|by rel_step]. rewrite disguise_server. apply Hset.
Qed.

End store.
(** ** The actor *)

Section actor.
Context `{Disguise B σ RB, PercentEncoding, FormUrlencoded}.
Import Model.

(** The same command, importing the disguised profile under the same name. *)
Definition command_rel (c c' : Command) : Prop :=
  match c, c' with
  | CIntent (AddProfileFromUri uri), CIntent (AddProfileFromUri uri') =>
    Link.parse_uri uri' = σ <$> Link.parse_uri uri ∧ Link.name_from_uri uri' = Link.name_from_uri uri
  | _, _ => c' = c
  end.

(** What is shown is the same; an exported link is that of the disguised
    profile. *)
Definition link_rel (uri uri' : list byte) : Prop :=
  ∃ p name, uri = Link.to_uri_with_name p name ∧ uri' = Link.to_uri_with_name (σ p) name.
Definition event_rel (e e' : event) : Prop :=
  match e, e' with
  | Replied k r, Replied k' r' => k' = k ∧ outcome_rel (option_Forall2 link_rel) r r'
  | _, _ => e' = e
  end.

Record actor_rel (a a' : actor) : Prop := {
  ar_state : state a' = state a;
  ar_store : store_rel (RB:=RB) (store a) (store a');
  ar_out : Forall2 event_rel (out a) (out a');
}.
Abbreviation steps_rel := (stm_rel (E:=Empty_set) actor_rel eq).

Lemma event_rel_shown e : (∀ k r, e ≠ Replied k r) → event_rel e e.
Proof. destruct e as [| | | |k r]; try done. intros Hk. by destruct (Hk k r). Qed.

Lemma emit_rel e e' : event_rel e e' → steps_rel (emit e) (emit e').
Proof.
  intros He. apply modify_rel. intros a a' [Hs Hst Ho]. split; [done..|]. cbn.
  apply Forall2_app; [done|by constructor].
Qed.

Lemma update_rel f : steps_rel (update f) (update f).
Proof. apply modify_rel. intros a a' [Hs Hst Ho]. split; cbn; [by rewrite Hs|done..]. Qed.

Lemma refresh_rel : steps_rel refresh refresh.
Proof.
  apply modify_rel. intros a a' [Hs Hst Ho]. split; cbn; [|done..].
  unfold Store.list_entries. by rewrite Hs, (sr_entries _ _ Hst).
Qed.

Lemma store_call_rel {A} (m m' : stm (Store.store (B:=B)) Store.StoreError A) :
  stm_rel (store_rel (RB:=RB)) eq m m' → stm_rel (E:=Empty_set) actor_rel eq (store_call m) (store_call m').
Proof.
  intros Hm a a' [Hs Hst Ho]. destruct (Hm _ _ Hst) as [Hr Hst']. unfold store_call.
  destruct (m (store a)) as [[x|e|] s], (m' (store a')) as [[x'|e'|] s']; cbn in *; try done;
    (split; [by subst|by split]).
Qed.

Lemma gets_state_rel {A} (f : State → A) : stm_rel (E:=Empty_set) actor_rel eq (gets (f ∘ state)) (gets (f ∘ state)).
Proof. apply gets_rel. intros a a' Ha. cbn. by rewrite (ar_state _ _ Ha). Qed.

(** The part of an intent after the store's answer. *)
Lemma intent_tail_rel {A} (k : Store.StoreError + A → stm (actor (B:=B)) Empty_set ()) (m m' : stm (Store.store (B:=B)) Store.StoreError A) :
  stm_rel (store_rel (RB:=RB)) eq m m' → (∀ r, steps_rel (k r) (k r)) →
  steps_rel (r ← store_call m; _ ← k r; refresh) (r ← store_call m'; _ ← k r; refresh).
Proof.
  intros Hm Hk. rel_bind eq as <-; [|by apply store_call_rel].
  rel_bind eq; [apply refresh_rel|apply Hk].
Qed.

Lemma apply_intent_rel t i i' :
  command_rel (CIntent i) (CIntent i') → steps_rel (apply_intent t i) (apply_intent t i').
Proof.
  intros Hc. destruct i as [uri|id name|id|id| |], i' as [uri'| | | | |]; try (by destruct Hc); simplify_eq/=.
  - destruct Hc as [Hp Hn]. rewrite Hp, Hn. destruct (Link.parse_uri uri) as [p|]; cbn [fmap option_fmap option_map].
    2:{ apply update_rel. }
    apply intent_tail_rel; [apply add_rel|]. intros [e|entry]; [apply update_rel|].
    rel_bind eq; apply update_rel.
  - apply intent_tail_rel; [apply rename_rel|]. intros [e|b]; [apply update_rel|by rel_step].
  - apply intent_tail_rel; [apply delete_rel|]. intros [e|b]; apply update_rel.
  - apply update_rel.
  - rel_bind eq as <-; [|apply (gets_state_rel selected_id)]. destruct x as [id|]; [|apply update_rel].
    rel_bind eq; [by apply emit_rel|apply update_rel].
  - by apply emit_rel.
Qed.

Lemma export_rel a a' id : actor_rel a a' → outcome_rel (option_Forall2 link_rel) (export a id) (export a' id).
Proof.
  intros [Hs Hst Ho]. unfold export. rewrite Hs. pose proof (load_rel id _ _ Hst) as Hl.
  destruct (Store.load id (store a)) as [o|e|], (Store.load id (store a')) as [o'|e'|]; cbn in *; try done; [|by subst].
  destruct Hl as [p p' ->|]; constructor. by eexists p, _.
Qed.

Lemma handle_rel t c c' : command_rel c c' → steps_rel (handle t c) (handle t c').
Proof.
  intros Hc. assert (Hshow : ∀ m m', steps_rel m m' →
    steps_rel (_ ← (m : stm actor Empty_set ()); s ← gets state; emit (OnState (snapshot s)))
              (_ ← m'; s ← gets state; emit (OnState (snapshot s)))).
  { intros m m' Hm. rel_bind eq; [|done]. rel_bind eq as <-; [by apply emit_rel|apply (gets_state_rel Datatypes.id)]. }
  destruct c as [i|os err|c|id k].
  - destruct c' as [i'| | |]; [|by destruct i..]. cbn [handle]. apply Hshow. by apply apply_intent_rel.
  - simplify_eq/=. cbn [handle]. rel_bind eq; [|apply update_rel]. apply Hshow, update_rel.
  - simplify_eq/=. by apply emit_rel.
  - simplify_eq/=. rel_bind actor_rel as Ha; [|by rel_step]. pose proof (export_rel _ _ id Ha) as Hx.
    cbn [Datatypes.id]. destruct (export x id) as [o|e|] eqn:E1, (export x' id) as [o'|e'|] eqn:E2; try done.
    + by apply emit_rel.
    + by apply emit_rel.
Qed.

Definition commands_rel : relation (list (tick * Command)) :=
  Forall2 (λ tc tc', tc'.1 = tc.1 ∧ command_rel tc.2 tc'.2).

Lemma loop_rel cmds cmds' : commands_rel cmds cmds' → steps_rel (loop cmds) (loop cmds').
Proof.
  induction 1 as [|[t c] [t' c'] cmds cmds' [Ht Hc] _ IH]; cbn [loop]; [by rel_step|].
  cbn in Ht. subst t'. rel_bind eq; [done|by apply handle_rel].
Qed.

Lemma run_actor_rel cmds cmds' : commands_rel cmds cmds' → steps_rel (run_actor cmds) (run_actor cmds').
Proof.
  intros Hc. rel_bind eq as <-; [|apply (gets_state_rel Datatypes.id)].
  rel_bind eq; [by apply loop_rel|by apply emit_rel].
Qed.

(** C3: Secrets stay secret. Take two runs of the actor, over two stores that
    differ in their secrets only, the second importing links to the disguised
    profiles under the same names: everything shown (snapshots, counters, error
    sentences) and everything asked of the OS is the same in the same order,
    and so are the documents on disk, also those a crash would leave. Only the
    exported links differ. An observer of any of these learns of a profile no
    more than its server and whether two profiles are equal. *)
Theorem secrets_stay_secret cmds cmds' s s' :
  store_rel (RB:=RB) s s' → commands_rel cmds cmds' →
  let run := run_actor cmds (init s) in
  let run' := run_actor cmds' (init s') in
  run'.1 = run.1 ∧ Forall2 event_rel (out run.2) (out run'.2) ∧
  Store.disk (Store.env (store run'.2)) = Store.disk (Store.env (store run.2)) ∧
  (Store.left_disk <$> Store.past (Store.env (store run'.2))) =
    (Store.left_disk <$> Store.past (Store.env (store run.2))).
Proof.
  intros Hs Hc run run'.
  destruct (run_actor_rel cmds cmds' Hc (init s) (init s')) as [Hr [_ [_ Hw] Ho]].
  { split; [cbn; unfold Store.list_entries; by rewrite (sr_entries _ _ Hs)|done|constructor]. }
  fold run run' in Hr, Hw, Ho. split_and!; [|done|apply Hw|].
  - destruct run.1 as [[]|[]|], run'.1 as [[]|[]|]; done.
  - pose proof (wr_past _ _ Hw) as Hp. induction Hp as [|r r' l l' [Hd _] _ IH]; [done|]. cbn. by rewrite Hd, IH.
Qed.

End actor.
(** ** Another token behind the same links *)

#[local] Existing Instance Store.plain_codec.
#[local] Existing Instance Link.sample_percent.
#[local] Existing Instance Link.sample_form.

Definition other_auth (p : Profile.Profile) : Profile.Profile :=
  {| Profile.server := Profile.server p; Profile.auth := Profile.auth p ++ lit "2"; Profile.tls := Profile.tls p;
     Profile.obfs := Profile.obfs p; Profile.fast_open := Profile.fast_open p |}.
Definition other_secret (s s' : list byte) : Prop :=
  ∃ p, Store.profile_to_vec p = Ok s ∧ Store.profile_to_vec (other_auth p) = Ok s'.
Definition dev_rel (b b' : gmap (list byte) (list byte)) : Prop :=
  ∀ i, option_Forall2 other_secret (b !! i) (b' !! i).

#[local] Program Instance other_disguise : Disguise other_auth dev_rel.
Next Obligation.
  intros [sv au tl ob fo] [sv' au' tl' ob' fo'] [= -> Ha -> -> ->]. by apply app_inj_tail in Ha as [-> _].
Qed.
Next Obligation. done. Qed.
Next Obligation. done. Qed.
Next Obligation. intros b b' i Hb. apply Hb. Qed.
Next Obligation.
  intros b b' i s s' Hb Hs. split; [done|]. intros j. cbn. destruct (decide (i = j)) as [->|Hj].
  - rewrite !lookup_insert_eq. by constructor.
  - rewrite !lookup_insert_ne by done. apply Hb.
Qed.
Next Obligation.
  intros b b' i Hb. split; [done|]. intros j. cbn. destruct (decide (i = j)) as [->|Hj].
  - rewrite !lookup_delete_eq. constructor.
  - rewrite !lookup_delete_ne by done. apply Hb.
Qed.

Definition ex_commands (link : rstr) : list (Model.tick * Model.Command) :=
  [(Model.ex_tick 1, Model.CIntent (Model.AddProfileFromUri link));
   (Model.ex_tick 2, Model.CIntent Model.Connect);
   (Model.ex_tick 3, Model.ExportUri (replicate 16 x01) 0)].

Lemma secrets_stay_secret_witness :
  let run link := Model.run_actor (ex_commands (lit link)) (Model.init (Store.ex_store [])) in
  let a := run "hysteria2://tok@h:443/#Home"%string in
  let a' := run "hysteria2://tok2@h:443/#Home"%string in
  a.1 = Ok () ∧ length (Model.out a.2) = 5 ∧
  a'.1 = a.1 ∧ Forall2 (event_rel (σ:=other_auth)) (Model.out a.2) (Model.out a'.2) ∧
  Store.disk (Store.env (Model.store a'.2)) = Store.disk (Store.env (Model.store a.2)) ∧
  (Store.left_disk <$> Store.past (Store.env (Model.store a'.2))) =
    (Store.left_disk <$> Store.past (Store.env (Model.store a.2))).
Proof.
  intros run a a'. split; [vm_compute; reflexivity|]. split; [vm_compute; reflexivity|].
  apply (secrets_stay_secret (σ:=other_auth) (RB:=dev_rel)).
  - split; [reflexivity|]. split; [reflexivity| |reflexivity|constructor]. intros i. constructor.
  - repeat constructor; vm_compute; reflexivity.
Defined.
End Secrets.
