(* ===== verification/Session.v ===== *)
(** * Session: per-source UDP NAT over the Hysteria client

    Models [dataplane/src/session.rs]: the [Upstream] and [Downstream] seams as
    classes, the session map with [get_or_create], [forward], [reap_idle],
    [idle_keys] and its drop, and the reply task [spawn_recv] starts.

    The state holds the map, the reply tasks that still hold their [Arc] of the
    upstream session, and the two worlds behind the seams. An upstream session
    is dropped when neither an entry nor a task refers to it. The reply tasks,
    the caller and the executor interleave ([step]). What the two seams are
    called with is recorded by instances over any pair of ends ([recorder],
    [tapped]). *)
From S2P Require Import Prelude Errors Proxy Net UdpSession.
Import Net.

(** What the map needs of the link to the server: [client.udp().ok()] gives a
    session that was never handed out before. [up_moves] is what the link does
    on its own: datagrams arrive, the connection fails. *)
Class Upstream (U W : Type) := {
  up_create : stm W Empty_set (option U);
  up_send : U → list byte → rstr → stm W Empty_set bool;
  up_receive : U → stm W Empty_set (Poll (option (list byte * rstr)));
  up_drop : U → W → W;
  allocated : W → U → Prop;
  up_moves : W → W → Prop;
  up_create_fresh w r w' : up_create w = (r, w') →
    (∀ v, allocated w v → allocated w' v) ∧
    (∀ u, r = Ok (Some u) → ¬ allocated w u ∧ allocated w' u);
  up_send_keeps u d a w r w' : up_send u d a w = (r, w') → ∀ v, allocated w v → allocated w' v;
  up_receive_keeps u w r w' : up_receive u w = (r, w') → ∀ v, allocated w v → allocated w' v;
  up_drop_keeps u w v : allocated w v → allocated (up_drop u w) v;
  up_moves_keeps w w' : up_moves w w' → ∀ v, allocated w v → allocated w' v;
}.

(** The reply link toward the app. [deliver] is asynchronous: what it does up to
    its await, and the await, polled. [down_moves] is what the far end does on
    its own: it takes what was delivered, or goes. *)
Class Downstream (D : Type) := {
  deliver : SocketAddr → SocketAddr → list byte → D → D;
  deliver_poll : SocketAddr → SocketAddr → list byte → D → Poll bool * D;
  down_moves : D → D → Prop;
}.

Module Session.

Inductive Outcome := Sent (opened : bool) | Dropped (opened : bool).

Section session.
Context `{Upstream U W, !EqDecision U, Downstream D, SocketAddrText}.

Record Entry := { conn : U; last_activity : Z; task : nat }.

(** A reply task: its captured [Arc] and source, the reply it is delivering, if
    it awaits that, and whether it was aborted. *)
Record reply_task := {
  t_conn : U;
  t_src : SocketAddr;
  sending : option (SocketAddr * list byte);
  aborted : bool;
}.

Record Sessions := {
  map : gmap SocketAddr Entry;
  max : nat;
  tasks : gmap nat reply_task;
  next_task : nat;
  world : W;
  downstream : D;
  shutdown : bool;
}.
Abbreviation sessions_m := (stm Sessions Empty_set).

Definition set_map (f : gmap SocketAddr Entry → gmap SocketAddr Entry) (s : Sessions) : Sessions :=
  {| map := f (map s); max := max s; tasks := tasks s; next_task := next_task s;
     world := world s; downstream := downstream s; shutdown := shutdown s |}.
Definition set_tasks (f : gmap nat reply_task → gmap nat reply_task) (s : Sessions) : Sessions :=
  {| map := map s; max := max s; tasks := f (tasks s); next_task := next_task s;
     world := world s; downstream := downstream s; shutdown := shutdown s |}.
Definition set_world (w : W) (s : Sessions) : Sessions :=
  {| map := map s; max := max s; tasks := tasks s; next_task := next_task s;
     world := w; downstream := downstream s; shutdown := shutdown s |}.
Definition set_downstream (d : D) (s : Sessions) : Sessions :=
  {| map := map s; max := max s; tasks := tasks s; next_task := next_task s;
     world := world s; downstream := d; shutdown := shutdown s |}.

(** [Sessions::new]. *)
Definition new (max : nat) (d : D) (w : W) : Sessions :=
  {| map := ∅; max := max; tasks := ∅; next_task := 0; world := w; downstream := d;
     shutdown := false |}.

(** The calls on the upstream act on its world. *)
Definition upstream {A} (m : stm W Empty_set A) : sessions_m A := zoom world set_world m.

(** [map.insert] of a fresh entry, its reply task spawned. *)
Definition open_session (src : SocketAddr) (now : Z) (c : U) (s : Sessions) : Sessions :=
  let k := next_task s in
  {| map := <[src := {| conn := c; last_activity := now; task := k |}]> (map s); max := max s;
     tasks := <[k := {| t_conn := c; t_src := src; sending := None; aborted := false |}]> (tasks s);
     next_task := S k; world := world s; downstream := downstream s; shutdown := shutdown s |}.

Definition touch (now : Z) (e : Entry) : Entry :=
  {| conn := conn e; last_activity := now; task := task e |}.

Definition get_or_create (src : SocketAddr) (now : Z) : sessions_m (option U) :=
  s ← gets Datatypes.id;
  match map s !! src with
  | Some e => _ ← modify (set_map (alter (touch now) src)); mret (Some (conn e))
  | None =>
    if decide (max s ≤ base.size (map s)) then mret None else
    o ← upstream up_create;
    match o with
    | Some c => _ ← modify (open_session src now c); mret (Some c)
    | None => mret None
    end
  end.

Definition forward (src dst : SocketAddr) (data : list byte) (now : Z) : sessions_m Outcome :=
  already_open ← gets (λ s, bool_decide (is_Some (map s !! src)));
  o ← get_or_create src now;
  match o with
  | None => mret (Dropped false)
  | Some c =>
    let opened := negb already_open in
    ok ← upstream (up_send c data (addr_to_string dst));
    mret (if ok : bool then Sent opened else Dropped opened)
  end.

Definition len (s : Sessions) : nat := base.size (map s).

(** Sessions idle longer than [idle]. *)
Definition is_idle (now idle : Z) (e : Entry) : bool :=
  (idle <? saturating_sub now (last_activity e))%Z.
Definition idle_keys (m : gmap SocketAddr Entry) (now idle : Z) : list SocketAddr :=
  fst <$> filter (λ p, is_idle now idle p.2) (map_to_list m).

(** Drop an [Arc] of [u]: the last one drops the session. *)
Definition referenced (u : U) (s : Sessions) : Prop :=
  map_Exists (λ _ e, conn e = u) (map s) ∨ map_Exists (λ _ t, t_conn t = u) (tasks s).
#[export] Instance referenced_dec u s : Decision (referenced u s).
Proof. unfold referenced. apply _. Defined.
Definition release (u : U) (s : Sessions) : Sessions :=
  if decide (referenced u s) then s else set_world (up_drop u (world s)) s.

Definition abort (t : reply_task) : reply_task :=
  {| t_conn := t_conn t; t_src := t_src t; sending := sending t; aborted := true |}.
Definition set_sending (r : option (SocketAddr * list byte)) (t : reply_task) : reply_task :=
  {| t_conn := t_conn t; t_src := t_src t; sending := r; aborted := aborted t |}.

(** The body of the sweep: remove one entry and abort its task. *)
Definition remove (src : SocketAddr) (s : Sessions) : Sessions :=
  match map s !! src with
  | Some e => release (conn e) (set_tasks (alter abort (task e)) (set_map (delete src) s))
  | None => s
  end.
Definition reap_idle (now idle : Z) (s : Sessions) : Sessions :=
  foldl (flip remove) s (idle_keys (map s) now idle).

(** [Drop]: every task is aborted, then the map goes. *)
Definition drop (s : Sessions) : Sessions :=
  foldl (flip remove) s (map_to_list (map s)).*1.

(** A reply task's end, by [break] or because the executor drops it. *)
Definition end_task (k : nat) (s : Sessions) : Sessions :=
  match tasks s !! k with
  | Some t => release (t_conn t) (set_tasks (delete k) s)
  | None => s
  end.

(** What a turn of a reply task came to: a reply was received, and its delivery
    begun; or the delivery ended. *)
Inductive progress :=
| Waiting
| Received (from : SocketAddr) (data : list byte)
| Delivered (from : SocketAddr) (data : list byte).

(** One turn of a reply task's loop, on its [receive] branch or in the await of
    the delivery. *)
Definition recv_turn (k : nat) (t : reply_task) : sessions_m progress :=
  match sending t with
  | None =>
    polled ← upstream (up_receive (t_conn t));
    match polled with
    | Pending => mret Waiting
    | Ready None => _ ← modify (end_task k); mret Waiting
    | Ready (Some (data, from)) =>
      match addr_parse from with
      | None => mret Waiting
      | Some from =>
        s ← gets Datatypes.id;
        _ ← modify (set_downstream (deliver (t_src t) from data (downstream s)));
        _ ← modify (set_tasks (alter (set_sending (Some (from, data))) k));
        mret (Received from data)
      end
    end
  | Some (from, data) =>
    s ← gets Datatypes.id;
    let '(polled, d) := deliver_poll (t_src t) from data (downstream s) in
    _ ← modify (set_downstream d);
    match polled with
    | Pending => mret Waiting
    | Ready true => _ ← modify (set_tasks (alter (set_sending None) k)); mret (Delivered from data)
    | Ready false => _ ← modify (end_task k); mret Waiting
    end
  end.

(** ** Runs *)

Inductive event :=
| EOpen (u : U) (src : SocketAddr)
| EReceived (u : U) (src from : SocketAddr) (data : list byte)
| EReply (u : U) (src from : SocketAddr) (data : list byte).

Definition opened_in (src : SocketAddr) (s s' : Sessions) : list event :=
  match map s !! src, map s' !! src with
  | None, Some e => [EOpen (conn e) src]
  | _, _ => []
  end.

Definition progress_event (t : reply_task) (p : progress) : list event :=
  match p with
  | Waiting => []
  | Received from data => [EReceived (t_conn t) (t_src t) from data]
  | Delivered from data => [EReply (t_conn t) (t_src t) from data]
  end.

(** A running task takes turns; the shutdown signal ends it when it waits for a
    reply; once aborted, only the executor drops it. The connection below and
    the far end of the downstream move on their own. *)
Inductive step : Sessions → list event → Sessions → Prop :=
| step_forward src dst data now o s s' :
    forward src dst data now s = (Ok o, s') → step s (opened_in src s s') s'
| step_reap now idle s : step s [] (reap_idle now idle s)
| step_recv k t d s s' :
    tasks s !! k = Some t → aborted t = false → recv_turn k t s = (Ok d, s') →
    step s (progress_event t d) s'
| step_stop k t s :
    tasks s !! k = Some t → shutdown s = true ∧ sending t = None ∨ aborted t = true →
    step s [] (end_task k s)
| step_shutdown s :
    step s [] {| map := map s; max := max s; tasks := tasks s; next_task := next_task s;
                 world := world s; downstream := downstream s; shutdown := true |}
| step_drop s : step s [] (drop s)
| step_world w' s : up_moves (world s) w' → step s [] (set_world w' s)
| step_downstream d' s : down_moves (downstream s) d' → step s [] (set_downstream d' s).

Inductive runs (s0 : Sessions) : list event → Sessions → Prop :=
| runs_nil : runs s0 [] s0
| runs_snoc es s es' s' : runs s0 es s → step s es' s' → runs s0 (es ++ es') s'.

(** ** The invariant of a run *)

(** What a session received, and what was delivered of it. *)
Definition received (u : U) (e : event) : option (SocketAddr * list byte) :=
  match e with EReceived u' _ from data => if decide (u' = u) then Some (from, data) else None | _ => None end.
Definition replied (u : U) (e : event) : option (SocketAddr * list byte) :=
  match e with EReply u' _ from data => if decide (u' = u) then Some (from, data) else None | _ => None end.

Record inv (es : list event) (s : Sessions) : Prop := {
  i_max : base.size (map s) ≤ max s;
  i_entry : ∀ src e, map s !! src = Some e →
    task e < next_task s ∧ EOpen (conn e) src ∈ es ∧
    ∀ t, tasks s !! task e = Some t → t_conn t = conn e ∧ t_src t = src ∧ aborted t = false;
  i_task : ∀ k t, tasks s !! k = Some t →
    k < next_task s ∧ EOpen (t_conn t) (t_src t) ∈ es ∧
    (aborted t = false → ∃ e, map s !! t_src t = Some e ∧ task e = k);
  i_task_conn : ∀ k k' t t', tasks s !! k = Some t → tasks s !! k' = Some t' →
    t_conn t = t_conn t' → k = k';
  i_alloc : ∀ u src, EOpen u src ∈ es → allocated (world s) u;
  i_owner : ∀ u src src', EOpen u src ∈ es → EOpen u src' ∈ es → src = src';
  i_received : ∀ u src from d, EReceived u src from d ∈ es → EOpen u src ∈ es;
  i_reply : ∀ u src from d, EReply u src from d ∈ es → EOpen u src ∈ es;
  i_order : ∀ u, omap (replied u) es `prefix_of` omap (received u) es;
  i_flow : ∀ k t, tasks s !! k = Some t →
    omap (received (t_conn t)) es = omap (replied (t_conn t)) es ++ option_list (sending t);
}.

Lemma inv_init m d w : inv [] (new m d w).
Proof.
  split; cbn.
  - rewrite map_size_empty. lia.
  - intros src e He. by rewrite lookup_empty in He.
  - intros k t Hk. by rewrite lookup_empty in Hk.
  - intros k k' t t' Hk. by rewrite lookup_empty in Hk.
  - by intros u src ?%not_elem_of_nil.
  - by intros u src src' ?%not_elem_of_nil.
  - by intros u src from d' ?%not_elem_of_nil.
  - by intros u src from d' ?%not_elem_of_nil.
  - done.
  - intros k t Hk. by rewrite lookup_empty in Hk.
Qed.

(** Only the worlds moved. *)
Definition same_table (s s' : Sessions) : Prop :=
  map s' = map s ∧ tasks s' = tasks s ∧ next_task s' = next_task s ∧ max s' = max s.
Definition keeps (s s' : Sessions) : Prop := ∀ u, allocated (world s) u → allocated (world s') u.

Lemma inv_same es s s' : inv es s → same_table s s' → keeps s s' → inv es s'.
Proof.
  intros [] (Hm & Ht & Hn & Hx) Hk. split; rewrite ?Hm, ?Ht, ?Hn, ?Hx; try done. eauto.
Qed.

Lemma keeps_refl s : keeps s s.
Proof. by intros u. Qed.

Lemma release_same u s : same_table s (release u s) ∧ keeps s (release u s).
Proof.
  unfold release. case_decide; (split; [by split_and!|]); [by intros v|].
  intros v. cbn. apply up_drop_keeps.
Qed.

Lemma inv_release es u s : inv es s → inv es (release u s).
Proof. intros Hi. destruct (release_same u s). by eapply inv_same. Qed.

(** Two entries with the same live task are the same entry. *)
Lemma task_owner es s src src' e e' :
  inv es s → map s !! src = Some e → map s !! src' = Some e' → src ≠ src' →
  is_Some (tasks s !! task e) → task e' ≠ task e.
Proof.
  intros Hi He He' Hne [t Ht] Heq. destruct (i_entry _ _ Hi _ _ He) as (_ & _ & H1').
  destruct (i_entry _ _ Hi _ _ He') as (_ & _ & H2'). rewrite Heq in H2'.
  destruct (H1' t Ht) as (_ & Hs & _), (H2' t Ht) as (_ & Hs' & _). congruence.
Qed.

Lemma aborted_task i s k t :
  alter abort i (tasks s) !! k = Some t →
  ∃ t0, tasks s !! k = Some t0 ∧ t_conn t0 = t_conn t ∧ sending t0 = sending t.
Proof.
  intros Hl. destruct (decide (k = i)) as [->|Hd].
  - rewrite lookup_alter_eq in Hl. apply fmap_Some in Hl as (t0 & Ht0 & ->). by exists t0.
  - rewrite lookup_alter_ne in Hl by done. by exists t.
Qed.

Lemma inv_remove es src s : inv es s → inv es (remove src s).
Proof.
  intros Hi. unfold remove. destruct (map s !! src) as [e|] eqn:He; [|done].
  apply inv_release. pose proof Hi as [Hmax Hen Ht Htc Ha Ho Hrc Hr Hor Hfl]. split; cbn; try done.
  - rewrite map_size_delete, He. cbn. lia.
  - intros src' e' [Hne He']%lookup_delete_Some. destruct (Hen _ _ He') as (Hlt & Hop & Htk).
    split_and!; [done..|]. intros t Hl. destruct (decide (task e' = task e)) as [Heq|Hd].
    + rewrite Heq, lookup_alter_eq in Hl. apply fmap_Some in Hl as (t0 & Ht0 & ->).
      by destruct (task_owner es s src src' e e' Hi He He' ltac:(done) ltac:(by eexists)).
    + rewrite lookup_alter_ne in Hl by done. by apply Htk.
  - intros k t Hl. destruct (decide (k = task e)) as [->|Hd].
    + rewrite lookup_alter_eq in Hl. apply fmap_Some in Hl as (t0 & Ht0 & ->).
      destruct (Ht _ _ Ht0) as (Hlt & Hop & _). by split_and!.
    + rewrite lookup_alter_ne in Hl by done. destruct (Ht _ _ Hl) as (Hlt & Hop & Hl').
      split_and!; [done..|]. intros Hab. destruct (Hl' Hab) as (e' & He' & Hk).
      exists e'. split; [|done]. rewrite lookup_delete_ne; [done|]. intros ->. congruence.
  - intros k k' t t' (t0 & Hk & Hc & _)%aborted_task (t0' & Hk' & Hc' & _)%aborted_task Heq.
    eapply Htc; [done..|]. congruence.
  - intros k t (t0 & Hk & <- & <-)%aborted_task. by apply Hfl with k.
Qed.

Lemma inv_foldl es ks s : inv es s → inv es (foldl (flip remove) s ks).
Proof. revert s. induction ks as [|k ks IH]; [done|]. intros s Hi. cbn. by apply IH, inv_remove. Qed.

Lemma inv_end_task es k s t :
  inv es s → tasks s !! k = Some t → inv es (end_task k s).
Proof.
  intros Hi Hk. unfold end_task. rewrite Hk. apply inv_release.
  destruct Hi as [Hmax Hen Ht Htc Ha Ho Hrc Hr Hor Hfl]. split; cbn; try done.
  - intros src e He. destruct (Hen _ _ He) as (Hlt & Hop & Htk). split_and!; [done..|].
    intros t' [_ Hl]%lookup_delete_Some. by apply Htk.
  - intros k' t' [Hne Hl]%lookup_delete_Some. by apply Ht.
  - intros k1 k2 t1 t2 [_ Hl1]%lookup_delete_Some [_ Hl2]%lookup_delete_Some. by eapply Htc.
  - intros k1 t1 [_ Hl1]%lookup_delete_Some. by eapply Hfl.
Qed.

Lemma received_snoc u es es' :
  omap (received u) (es ++ es') = omap (received u) es ++ omap (received u) es'.
Proof. apply omap_app. Qed.
Lemma replied_snoc u es es' :
  omap (replied u) (es ++ es') = omap (replied u) es ++ omap (replied u) es'.
Proof. apply omap_app. Qed.

(** A turn of the task [k] that leaves [r] being sent. *)
Lemma inv_progress es k t s p r :
  inv es s → tasks s !! k = Some t →
  option_list (sending t) ++ omap (received (t_conn t)) (progress_event t p) =
    omap (replied (t_conn t)) (progress_event t p) ++ option_list r →
  inv (es ++ progress_event t p) (set_tasks (alter (set_sending r) k) s).
Proof.
  intros Hi Hk Hp. destruct (i_task _ _ Hi _ _ Hk) as (_ & Hop & _).
  pose proof Hi as [Hmax Hen Ht Htc Ha Ho Hrc Hr Hor Hfl].
  assert (Hev : ∀ u src, EOpen u src ∈ es ++ progress_event t p ↔ EOpen u src ∈ es).
  { intros u src. destruct p; cbn; set_solver. }
  assert (Hother : ∀ u, u ≠ t_conn t →
    omap (received u) (progress_event t p) = [] ∧ omap (replied u) (progress_event t p) = []).
  { intros u Hu. destruct p; cbn; rewrite ?decide_False by congruence; done. }
  assert (Htk : ∀ k' t', alter (set_sending r) k (tasks s) !! k' = Some t' →
    (k' = k ∧ t' = set_sending r t) ∨ (k' ≠ k ∧ tasks s !! k' = Some t')).
  { intros k' t' Hl. destruct (decide (k' = k)) as [->|Hd]; [left|right].
    - rewrite lookup_alter_eq, Hk in Hl. cbn in Hl. split; congruence.
    - by rewrite lookup_alter_ne in Hl. }
  assert (Hflow : omap (received (t_conn t)) (es ++ progress_event t p) =
    omap (replied (t_conn t)) (es ++ progress_event t p) ++ option_list r).
  { rewrite received_snoc, replied_snoc, (Hfl _ _ Hk), <-!app_assoc. by rewrite Hp. }
  split; cbn; try done.
  - intros src e He. destruct (Hen _ _ He) as (Hlt & Hope & Hte). split_and!; [done|by apply Hev|].
    intros t' [[Heq ->]|[_ Hl]]%Htk; [|by apply Hte]. apply (Hte t). by rewrite Heq.
  - intros k' t' [[-> ->]|[_ Hl]]%Htk.
    + destruct (Ht _ _ Hk) as (? & ? & ?). split_and!; [done|by apply Hev|done].
    + destruct (Ht _ _ Hl) as (? & ? & ?). split_and!; [done|by apply Hev|done].
  - intros k1 k2 t1 t2 [[-> ->]|[Hn1 Hl1]]%Htk [[-> ->]|[Hn2 Hl2]]%Htk; cbn; [done|..].
    + intros Heq. by apply (Htc _ _ _ _ Hk Hl2).
    + intros Heq. by apply (Htc _ _ _ _ Hl1 Hk).
    + by eapply Htc.
  - intros u src Hin%Hev. by eapply Ha.
  - intros u s1 s2 Hs1%Hev Hs2%Hev. by eapply Ho.
  - intros u src from d [Hin|Hin]%elem_of_app; apply Hev; [by eapply Hrc|]. destruct p; set_solver.
  - intros u src from d [Hin|Hin]%elem_of_app; apply Hev; [by eapply Hr|]. destruct p; set_solver.
  - intros u. destruct (decide (u = t_conn t)) as [->|Hu].
    + rewrite Hflow. by apply prefix_app_r.
    + rewrite received_snoc, replied_snoc. destruct (Hother u Hu) as [-> ->]. by rewrite !app_nil_r.
  - intros k' t' [[-> ->]|[Hn Hl]]%Htk; [done|]. rewrite received_snoc, replied_snoc.
    destruct (Hother (t_conn t')) as [-> ->]; [|rewrite !app_nil_r; by eapply Hfl].
    intros Heq. by destruct (Hn (Htc _ _ _ _ Hl Hk Heq)).
Qed.

Lemma inv_open es s src now c :
  inv es s → map s !! src = None → base.size (map s) < max s →
  allocated (world s) c → (∀ src', EOpen c src' ∉ es) →
  inv (es ++ [EOpen c src]) (open_session src now c s).
Proof.
  intros [Hmax Hen Ht Htc Ha Ho Hrc Hr Hor Hfl] Hnone Hlt Hall Hnew. split; cbn.
  - rewrite map_size_insert, Hnone. cbn. lia.
  - intros src' e He. apply lookup_insert_Some in He as [[<- <-]|[Hne He]]; cbn.
    + split_and!; [lia|set_solver|]. intros t Hl. rewrite lookup_insert_eq in Hl. by injection Hl as <-.
    + destruct (Hen _ _ He) as (Hk & Hop & Htk). split_and!; [lia|set_solver|].
      intros t Hl. rewrite lookup_insert_ne in Hl by lia. by apply Htk.
  - intros k t Hl. apply lookup_insert_Some in Hl as [[<- <-]|[Hne Hl]]; cbn.
    + split_and!; [lia|set_solver|]. intros _. eexists. by rewrite lookup_insert_eq.
    + destruct (Ht _ _ Hl) as (Hk & Hop & Hown). split_and!; [lia|set_solver|].
      intros Hab. destruct (Hown Hab) as (e & He & Hke). exists e. split; [|done].
      rewrite lookup_insert_ne; [done|]. intros ->. congruence.
  - assert (Hc : ∀ k t, tasks s !! k = Some t → t_conn t ≠ c).
    { intros k t Hl <-. destruct (Ht _ _ Hl) as (_ & Hop & _). by apply Hnew in Hop. }
    intros k k' t t' Hk Hk'.
    apply lookup_insert_Some in Hk as [[<- <-]|[Hne Hk]];
      apply lookup_insert_Some in Hk' as [[<- <-]|[Hne' Hk']]; cbn; [done|..].
    + intros Heq. by destruct (Hc _ _ Hk').
    + intros Heq. by destruct (Hc _ _ Hk).
    + by eapply Htc.
  - intros u src' [Hin|Hin]%elem_of_app; [by eapply Ha|]. apply list_elem_of_singleton in Hin.
    by injection Hin as -> ->.
  - intros u s1 s2 [H1'|H1']%elem_of_app [H2'|H2']%elem_of_app;
      try apply list_elem_of_singleton in H1'; try apply list_elem_of_singleton in H2'; simplify_eq; try done; [by eapply Ho|..].
    + by apply Hnew in H1'.
    + by apply Hnew in H2'.
  - intros u s1 from d [Hin|Hin]%elem_of_app; [set_solver|]. by apply list_elem_of_singleton in Hin.
  - intros u s1 from d [Hin|Hin]%elem_of_app; [set_solver|]. by apply list_elem_of_singleton in Hin.
  - intros u. rewrite received_snoc, replied_snoc. cbn. by rewrite !app_nil_r.
  - intros k t Hl. rewrite received_snoc, replied_snoc. cbn. rewrite !app_nil_r.
    apply lookup_insert_Some in Hl as [[<- <-]|[Hne Hl]]; [|by eapply Hfl]. cbn. rewrite app_nil_r.
    rewrite (omap_none (received c)), (omap_none (replied c)); [done|..].
    + intros e He. destruct e as [u s1|u s1 from d|u s1 from d]; cbn; try done.
      case_decide as Hu; [|done]. subst u. by apply Hr, Hnew in He.
    + intros e He. destruct e as [u s1|u s1 from d|u s1 from d]; cbn; try done.
      case_decide as Hu; [|done]. subst u. by apply Hrc, Hnew in He.
Qed.

Lemma wp_upstream {A} (m : stm W Empty_set A) (Q : outcome Empty_set A → Sessions → Prop) s :
  (∀ r w', m (world s) = (r, w') → Q r (set_world w' s)) → wp (upstream m) Q s.
Proof. intros HQ. unfold wp, upstream, zoom. destruct (m (world s)) as [r w'] eqn:Hm. by apply HQ. Qed.

(** The outcomes of [get_or_create]: a hit, a refusal, a failed or a successful
    creation. *)
Lemma wp_get_or_create src now (Q : outcome Empty_set (option U) → Sessions → Prop) s :
  (∀ e, map s !! src = Some e → Q (Ok (Some (conn e))) (set_map (alter (touch now) src) s)) →
  (map s !! src = None → max s ≤ base.size (map s) → Q (Ok None) s) →
  (∀ r w', map s !! src = None → base.size (map s) < max s → up_create (world s) = (r, w') →
     let s1 := set_world w' s in
     match r with
     | Ok (Some c) => Q (Ok (Some c)) (open_session src now c s1)
     | Ok None => Q (Ok None) s1
     | Err e => Q (Err e) s1
     | Panic => Q Panic s1
     end) →
  wp (get_or_create src now) Q s.
Proof.
  intros Hhit Hfull Hcreate. unfold get_or_create. wp_step. wp_step. cbn [Datatypes.id].
  destruct (map s !! src) as [e|] eqn:He; [repeat wp_step; by apply Hhit|].
  destruct (decide _) as [Hm|Hm]; [wp_step; by apply Hfull|].
  wp_step. apply wp_upstream. intros r w' Hc.
  specialize (Hcreate r w' eq_refl ltac:(lia) Hc). destruct r as [[c|]|e|]; [..|done|done]; by repeat wp_step.
Qed.

(** What [forward] promises, beyond the answer of the upstream. *)
Definition opened_of (o : Outcome) : bool := match o with Sent b | Dropped b => b end.

Definition forward_post (src : SocketAddr) (now : Z) (s : Sessions) (o : Outcome) (s' : Sessions) : Prop :=
  (opened_of o = true ↔ map s !! src = None ∧ is_Some (map s' !! src)) ∧
  (∀ src', src' ≠ src → map s' !! src' = map s !! src') ∧
  (∀ e, map s' !! src = Some e → last_activity e = now) ∧
  (o = Sent (opened_of o) → is_Some (map s' !! src)) ∧
  base.size (map s') = base.size (map s) + Nat.b2n (opened_of o) ∧
  (map s !! src = None → max s ≤ base.size (map s) → o = Dropped false ∧ s' = s).

Lemma alter_size {K A} `{Countable K} (f : A → A) (k : K) (m : gmap K A) :
  base.size (alter f k m) = base.size m.
Proof. by rewrite <-!size_dom, dom_alter_L. Qed.

Lemma wp_forward es src dst data now s :
  inv es s →
  wp (forward src dst data now) (λ r s', match r with
    | Ok o => inv (es ++ opened_in src s s') s' ∧ forward_post src now s o s'
    | _ => True end) s.
Proof.
  intros Hi. unfold forward. wp_step. wp_step. wp_step. apply wp_get_or_create.
  - intros e He. wp_step. apply wp_upstream. intros r w' Hs. destruct r as [ok|x|]; [|done..].
    wp_step. unfold opened_in. rewrite He, app_nil_r. rewrite bool_decide_eq_true_2 by done. split.
    + pose proof (up_send_keeps _ _ _ _ _ _ Hs) as Hk. destruct Hi as [Hmax Hen Ht Htc Ha Ho Hrc Hr Hor Hfl].
      split; cbn; try done; eauto.
      * by rewrite alter_size.
      * intros src' e' He'. destruct (decide (src' = src)) as [->|Hne].
        -- rewrite lookup_alter_eq, He in He'. injection He' as <-. by apply (Hen src e).
        -- rewrite lookup_alter_ne in He' by done. by apply Hen.
      * intros k t Hl. destruct (Ht _ _ Hl) as (Hkt & Hop & Hown). split_and!; [done..|].
        intros Hab. destruct (Hown Hab) as (e' & He' & Hke). destruct (decide (t_src t = src)) as [Heq|Hne].
        -- rewrite Heq in *. exists (touch now e'). by rewrite lookup_alter_eq, He'.
        -- exists e'. by rewrite lookup_alter_ne.
    + assert (opened_of (if ok : bool then Sent false else Dropped false) = false) as Hop by (by destruct ok).
      unfold forward_post. rewrite He. cbn [negb]. rewrite Hop. cbn. split_and!.
      * split; [done|]. by intros [].
      * intros src' Hne. by rewrite lookup_alter_ne.
      * intros e'. rewrite lookup_alter_eq, He. by intros [= <-].
      * intros _. by rewrite lookup_alter_eq, He.
      * rewrite alter_size. lia.
      * done.
  - intros Hnone Hfull. wp_step. unfold opened_in. rewrite Hnone, app_nil_r. split; [done|].
    unfold forward_post. rewrite Hnone. split_and!; try done; try lia; try (split; [done|]; by intros [_ []]).
  - intros r w' Hnone Hlt Hc. cbn zeta. apply up_create_fresh in Hc as [Hk Hf].
    assert (Hi1 : inv es (set_world w' s)) by (by eapply inv_same).
    destruct r as [[c|]|x|]; [..|done|done].
    + destruct (Hf c eq_refl) as [Hno Hall]. wp_step. apply wp_upstream. intros r w2 Hs.
      destruct r as [ok|x|]; [|done..]. wp_step. unfold opened_in. rewrite Hnone. cbn [map set_world open_session].
      rewrite lookup_insert_eq. cbn [conn]. rewrite bool_decide_eq_false_2 by (by intros []). split.
      * assert (Hi2 : inv (es ++ [EOpen c src]) (open_session src now c (set_world w' s))).
        { apply inv_open; [done..|]. intros src' Hin. apply Hno. by eapply (i_alloc _ _ Hi). }
        eapply inv_same; [exact Hi2|done|]. intros v. by eapply up_send_keeps.
      * assert (opened_of (if ok : bool then Sent true else Dropped true) = true) as Hop by (by destruct ok).
        unfold forward_post. rewrite Hnone. cbn [negb]. rewrite Hop. cbn. split_and!.
        -- rewrite lookup_insert_eq. by split.
        -- intros src' Hne. by rewrite lookup_insert_ne.
        -- intros e'. rewrite lookup_insert_eq. by intros [= <-].
        -- intros _. by rewrite lookup_insert_eq.
        -- rewrite map_size_insert, Hnone. cbn. lia.
        -- intros _ Hge. lia.
    + wp_step. unfold opened_in. rewrite Hnone. cbn [map set_world]. rewrite Hnone, app_nil_r.
      split; [done|]. unfold forward_post. cbn. rewrite Hnone.
      split_and!; try done; try lia; try (intros; lia). split; [done|]. by intros [_ []].
Qed.

Lemma inv_recv_turn es k t p s s' :
  inv es s → tasks s !! k = Some t → recv_turn k t s = (Ok p, s') → inv (es ++ progress_event t p) s'.
Proof.
  intros Hi Hk Hrun.
  assert (Hw : wp (recv_turn k t) (λ r s', ∀ p, r = Ok p → inv (es ++ progress_event t p) s') s).
  2:{ by apply (wp_run _ _ _ _ _ Hw Hrun). }
  clear p s' Hrun. unfold recv_turn. destruct (sending t) as [[from data]|] eqn:Hse.
  - wp_step. wp_step. cbn [Datatypes.id]. destruct (deliver_poll _ _ _ _) as [q d].
    assert (Hi1 : inv es (set_downstream d s)) by (refine (inv_same _ _ _ Hi _ _); [by split_and!|by intros v]).
    wp_step. wp_step. destruct q as [|[]]; repeat wp_step; intros p [= <-]; cbn; rewrite ?app_nil_r; [done| |by eapply inv_end_task].
    apply (inv_progress es k t _ (Delivered from data) None Hi1 Hk). rewrite Hse. cbn. by rewrite decide_True.
  - wp_step. apply wp_upstream. intros r w' Hr.
    pose proof (up_receive_keeps _ _ _ _ Hr) as Hkp.
    assert (Hi1 : inv es (set_world w' s)) by (by eapply inv_same).
    destruct r as [q|x|]; [|done..]. destruct q as [|[[data from]|]].
    + wp_step. intros p [= <-]. cbn. by rewrite app_nil_r.
    + destruct (addr_parse from) as [from'|]; [|wp_step; intros p [= <-]; cbn; by rewrite app_nil_r].
      wp_step. wp_step. cbn [Datatypes.id]. wp_step. wp_step. wp_step. wp_step. wp_step. intros p [= <-].
      refine (inv_progress es k t (set_downstream _ (set_world w' s)) (Received from' data) (Some (from', data)) _ Hk _).
      * refine (inv_same _ _ _ Hi1 _ _); [by split_and!|by intros v].
      * rewrite Hse. cbn. by rewrite decide_True.
    + wp_step. wp_step. wp_step. intros p [= <-]. cbn. rewrite app_nil_r. by eapply inv_end_task.
Qed.

Lemma nat_inv_step es s es' s' : inv es s → step s es' s' → inv (es ++ es') s'.
Proof.
  intros Hi Hs. destruct Hs as [src dst data now o s s' Hf|now idle s|k t d s s' Hk Hab Hr|k t s Hk _|s|s|w' s Hw|d' s Hd];
    rewrite ?app_nil_r.
  - by apply (wp_run _ _ _ _ _ (wp_forward es src dst data now s Hi) Hf).
  - by apply inv_foldl.
  - by eapply inv_recv_turn.
  - by eapply inv_end_task.
  - destruct Hi. by split.
  - by apply inv_foldl.
  - refine (inv_same es s (set_world w' s) Hi _ (up_moves_keeps _ _ Hw)). by split_and!.
  - refine (inv_same es s (set_downstream d' s) Hi _ _); [by split_and!|by intros v].
Qed.

Lemma nat_runs_inv m d w es s : runs (new m d w) es s → inv es s.
Proof. induction 1; [apply inv_init|by eapply nat_inv_step]. Qed.

(** The cap never changes, and only a reply turn touches the downstream. *)
Definition steady (s s' : Sessions) : Prop := max s' = max s ∧ downstream s' = downstream s.

Lemma steady_release u s : steady s (release u s).
Proof. unfold release. by case_decide. Qed.

Lemma steady_remove src s : steady s (remove src s).
Proof. unfold remove, release. case_match; [by case_decide|done]. Qed.

Lemma steady_foldl ks s : steady s (foldl (flip remove) s ks).
Proof.
  revert s. induction ks as [|k ks IH]; [done|]. intros s. cbn.
  destruct (IH (remove k s)) as [Hm Hd], (steady_remove k s) as [Hm' Hd'].
  split; [by rewrite <-Hm'|by rewrite <-Hd'].
Qed.

Lemma end_task_map k s : map (end_task k s) = map s.
Proof. unfold end_task, release. case_match; [by case_decide|done]. Qed.

Lemma steady_end_task k s : steady s (end_task k s).
Proof. unfold end_task, release. case_match; [by case_decide|done]. Qed.

Lemma wp_forward_steady src dst data now s :
  wp (forward src dst data now) (λ r s', steady s s') s.
Proof.
  unfold forward. wp_step. wp_step. wp_step. apply wp_get_or_create.
  - intros e He. wp_step. apply wp_upstream. intros [|x|] w' _; [by wp_step|done..].
  - intros. by wp_step.
  - intros [[c|]|x|] w' _ _ _; cbn zeta; [|by wp_step|done..].
    wp_step. apply wp_upstream. intros [|x|] w2 _; [by wp_step|done..].
Qed.

(** What a turn of the task [t] does to the downstream. *)
Definition delivery (t : reply_task) (p : progress) (d d' : D) : Prop :=
  match p with
  | Received from data => sending t = None ∧ d' = deliver (t_src t) from data d
  | Delivered from data =>
    sending t = Some (from, data) ∧ deliver_poll (t_src t) from data d = (Ready true, d')
  | Waiting => d' = d ∨ ∃ from data, sending t = Some (from, data) ∧
      ∃ q, deliver_poll (t_src t) from data d = (q, d') ∧ q ≠ Ready true
  end.

Lemma wp_recv_turn k t s :
  wp (recv_turn k t) (λ r s', max s' = max s ∧ map s' = map s ∧
    ∀ p, r = Ok p → delivery t p (downstream s) (downstream s')) s.
Proof.
  unfold recv_turn. destruct (sending t) as [[from data]|] eqn:Hse.
  - wp_step. wp_step. cbn [Datatypes.id]. destruct (deliver_poll _ _ _ _) as [q d] eqn:Hd.
    wp_step. wp_step. destruct q as [|[]]; repeat wp_step.
    + split_and!; [done..|]. intros p [= <-]. right. exists from, data. split; [done|]. by exists Pending.
    + split_and!; [done..|]. by intros p [= <-].
    + destruct (steady_end_task k (set_downstream d s)) as [Hm Hdn].
      rewrite Hm, end_task_map. split_and!; [done..|]. intros p [= <-]. right. exists from, data.
      split; [done|]. exists (Ready false). by rewrite Hdn.
  - wp_step. apply wp_upstream. intros [[|[[data from]|]]|x|] w' _; [| | |done..].
    + wp_step. split_and!; [done..|]. intros p [= <-]. by left.
    + destruct (addr_parse from) as [from'|]; repeat wp_step; (split_and!; [done..|]); intros p [= <-]; [done|by left].
    + wp_step. wp_step. wp_step. destruct (steady_end_task k (set_world w' s)) as [Hm Hdn].
      rewrite Hm, end_task_map. split_and!; [done..|]. intros p [= <-]. left. by rewrite Hdn.
Qed.

Lemma step_max s es s' : step s es s' → max s' = max s.
Proof.
  destruct 1 as [src dst data now o s s' Hf|now idle s|k t d s s' Hk Hab Hr|k t s Hk _|s|s|w' s Hw|d' s Hd]; try done.
  - by apply (wp_run _ _ _ _ _ (wp_forward_steady src dst data now s) Hf).
  - apply steady_foldl.
  - by apply (wp_run _ _ _ _ _ (wp_recv_turn k t s) Hr).
  - apply steady_end_task.
  - apply steady_foldl.
Qed.

(** The cap, and the owner of each running task. *)
Lemma nat_runs_safe m d w es s :
  runs (new m d w) es s →
  base.size (map s) ≤ m ∧
  (∀ k t, tasks s !! k = Some t → aborted t = false →
     ∃ e, map s !! t_src t = Some e ∧ task e = k ∧ conn e = t_conn t).
Proof.
  intros Hr. pose proof (nat_runs_inv _ _ _ _ _ Hr) as Hi. split.
  - assert (Hm : max s = m); [|rewrite <-Hm; apply Hi].
    clear Hi. induction Hr as [|es s es' s' Hr IH Hs]; [done|]. by rewrite (step_max _ _ _ Hs).
  - intros k t Hk Hab. destruct (i_task _ _ Hi _ _ Hk) as (_ & _ & He).
    destruct (He Hab) as (e & He' & Hke). exists e. split_and!; [done..|].
    destruct (i_entry _ _ Hi _ _ He') as (_ & _ & Ht). rewrite Hke in Ht.
    by destruct (Ht t Hk) as (-> & _).
Qed.

(** [forward]: only the source's own entry can change, and it is stamped with
    the current time; [opened] is reported exactly when the datagram created
    the entry, whether or not the send succeeded, so that counting it counts
    sessions; a datagram is only reported sent through a registered session; a
    full table refuses a new source and changes nothing. *)
Theorem forward_spec es src dst data now s o s' :
  inv es s → forward src dst data now s = (Ok o, s') → forward_post src now s o s'.
Proof. intros Hi Hf. by apply (wp_run _ _ _ _ _ (wp_forward es src dst data now s Hi) Hf). Qed.

Lemma remove_map src s : map (remove src s) = delete src (map s).
Proof.
  unfold remove. destruct (map s !! src) as [e|] eqn:He; [|by rewrite delete_id].
  by destruct (release_same (conn e) (set_tasks (alter abort (task e)) (set_map (delete src) s))) as [[-> _] _].
Qed.

Lemma remove_tasks src s :
  tasks (remove src s) = match map s !! src with Some e => alter abort (task e) (tasks s) | None => tasks s end.
Proof.
  unfold remove. destruct (map s !! src) as [e|] eqn:He; [|done].
  by destruct (release_same (conn e) (set_tasks (alter abort (task e)) (set_map (delete src) s))) as [(_ & -> & _) _].
Qed.

Lemma foldl_map ks s src :
  map (foldl (flip remove) s ks) !! src = if decide (src ∈ ks) then None else map s !! src.
Proof.
  revert s. induction ks as [|k ks IH]; intros s; cbn; [done|]. rewrite IH, remove_map.
  destruct (decide (src = k)) as [->|Hne].
  - rewrite (decide_True (P := k ∈ k :: ks)) by set_solver. by case_decide; [|rewrite lookup_delete_eq].
  - rewrite lookup_delete_ne by done. repeat case_decide; set_solver.
Qed.

Lemma remove_keeps_task es s src src' e :
  inv es s → map s !! src = Some e → src' ≠ src → tasks (remove src' s) !! task e = tasks s !! task e.
Proof.
  intros Hi He Hne. rewrite remove_tasks. destruct (map s !! src') as [e'|] eqn:He'; [|done].
  destruct (tasks s !! task e) as [t|] eqn:Ht.
  - rewrite lookup_alter_ne; [done|]. eapply (task_owner es s src src'); eauto.
  - destruct (decide (task e' = task e)) as [->|Hd]; [by rewrite lookup_alter_eq, Ht|].
    by rewrite lookup_alter_ne.
Qed.

Lemma foldl_keeps_task es ks s src e :
  inv es s → map s !! src = Some e → src ∉ ks →
  tasks (foldl (flip remove) s ks) !! task e = tasks s !! task e.
Proof.
  revert s. induction ks as [|k ks IH]; intros s Hi He Hks; [done|]. cbn.
  rewrite IH; [|by apply inv_remove|rewrite remove_map, lookup_delete_ne; set_solver|set_solver].
  eapply remove_keeps_task; [done..|]. set_solver.
Qed.

Lemma foldl_aborted ks s k t :
  tasks s !! k = Some t → aborted t = true →
  ∃ t', tasks (foldl (flip remove) s ks) !! k = Some t' ∧ aborted t' = true.
Proof.
  revert s t. induction ks as [|src ks IH]; intros s t Ht Ha; [by exists t|]. cbn.
  destruct (map s !! src) as [e|] eqn:He.
  2:{ apply (IH _ t); [|done]. by rewrite remove_tasks, He. }
  destruct (decide (task e = k)) as [<-|Hd].
  - apply (IH _ (abort t)); [|done]. by rewrite remove_tasks, He, lookup_alter_eq, Ht.
  - apply (IH _ t); [|done]. by rewrite remove_tasks, He, lookup_alter_ne.
Qed.

Lemma foldl_aborts es ks s src e t :
  inv es s → map s !! src = Some e → src ∈ ks → tasks s !! task e = Some t →
  ∃ t', tasks (foldl (flip remove) s ks) !! task e = Some t' ∧ aborted t' = true.
Proof.
  revert s. induction ks as [|k ks IH]; intros s Hi He Hks Ht; [by apply not_elem_of_nil in Hks|]. cbn.
  destruct (decide (src = k)) as [<-|Hne].
  - apply (foldl_aborted _ _ _ (abort t)); [|done]. by rewrite remove_tasks, He, lookup_alter_eq, Ht.
  - apply IH; [by apply inv_remove|by rewrite remove_map, lookup_delete_ne|set_solver|].
    by erewrite remove_keeps_task.
Qed.

Lemma idle_keys_spec src m now idle :
  src ∈ idle_keys m now idle ↔ ∃ e, m !! src = Some e ∧ is_idle now idle e = true.
Proof.
  unfold idle_keys. rewrite list_elem_of_fmap. split.
  - intros ([k e] & -> & [Hid He]%list_elem_of_filter). apply elem_of_map_to_list in He.
    exists e. split; [done|]. by apply Is_true_true.
  - intros (e & He & Hid). exists (src, e). split; [done|]. apply list_elem_of_filter.
    split; [by apply Is_true_true|by apply elem_of_map_to_list].
Qed.

Lemma drop_map s : map (drop s) = ∅.
Proof.
  apply map_empty. intros src. unfold drop. rewrite foldl_map. case_decide as Hin; [done|].
  destruct (map s !! src) as [e|] eqn:He; [|done]. destruct Hin.
  apply list_elem_of_fmap. exists (src, e). split; [done|]. by apply elem_of_map_to_list.
Qed.

(** [reap_idle] removes exactly the entries idle for longer than the limit and
    aborts their reply tasks; every other entry, and its reply task, is left as
    it was. *)
Theorem reap_idle_spec es now idle s :
  inv es s →
  let s' := reap_idle now idle s in
  (∀ src, map s' !! src = (e ← map s !! src; if is_idle now idle e then None else Some e)) ∧
  (∀ src e, map s' !! src = Some e → tasks s' !! task e = tasks s !! task e) ∧
  (∀ src e t, map s !! src = Some e → is_idle now idle e = true → tasks s !! task e = Some t →
     ∃ t', tasks s' !! task e = Some t' ∧ aborted t' = true).
Proof.
  intros Hi s'. assert (Hmap : ∀ src, map s' !! src = (e ← map s !! src; if is_idle now idle e then None else Some e)).
  { intros src. unfold s', reap_idle. rewrite foldl_map. destruct (decide _) as [Hin|Hin].
    - apply idle_keys_spec in Hin as (e & He & Hid). rewrite He. cbn. by rewrite Hid.
    - destruct (map s !! src) as [e|] eqn:He; [|done]. cbn. destruct (is_idle now idle e) eqn:Hid; [|done].
      destruct Hin. apply idle_keys_spec. eauto. }
  split_and!; [done| |].
  - intros src e He. rewrite Hmap in He. destruct (map s !! src) as [e'|] eqn:He'; [|done].
    cbn in He. destruct (is_idle now idle e') eqn:Hid; [done|]. injection He as ->.
    eapply foldl_keeps_task; [done..|]. intros (e2 & He2 & Hid2)%idle_keys_spec. congruence.
  - intros src e t He Hid Ht. eapply foldl_aborts; [done..| |done]. apply idle_keys_spec. eauto.
Qed.

(** Closing a session: removing an entry whose reply task runs does not close
    the upstream session, since the task still holds it; it closes when the
    executor drops the aborted task. *)
Theorem close_after_task es src e t s :
  inv es s → map s !! src = Some e → tasks s !! task e = Some t →
  world (remove src s) = world s ∧
  world (end_task (task e) (remove src s)) = up_drop (conn e) (world s).
Proof.
  intros Hi He Ht. destruct (i_entry _ _ Hi _ _ He) as (_ & Hop & Htk). destruct (Htk t Ht) as (Hc0 & Hs0 & _).
  set (s1 := set_tasks (alter abort (task e)) (set_map (delete src) s)).
  assert (Ht1 : tasks s1 !! task e = Some (abort t)).
  { unfold s1. cbn. by rewrite lookup_alter_eq, Ht. }
  assert (Hr : remove src s = s1).
  { unfold remove. rewrite He. fold s1. unfold release. rewrite decide_True; [done|].
    right. exists (task e). eexists. by split. }
  rewrite Hr. split; [done|]. unfold end_task. rewrite Ht1. cbn [t_conn abort]. rewrite Hc0. unfold release.
  rewrite decide_False; [done|]. intros [(src' & e' & He' & Hc)|(k & t' & Hk & Hc)]; cbn in *.
  - apply lookup_delete_Some in He' as [Hne He']. destruct (i_entry _ _ Hi _ _ He') as (_ & Hop' & _).
    rewrite Hc in Hop'. by destruct (Hne (i_owner _ _ Hi _ _ _ Hop Hop')).
  - apply lookup_delete_Some in Hk as [Hne Hk]. rewrite lookup_alter_ne in Hk by done.
    apply Hne. apply (i_task_conn _ _ Hi _ _ _ _ Ht Hk). congruence.
Qed.

End session.

(** ** What crosses the seams, recorded

    History variables on both seams: a downstream that writes down the calls of
    [deliver] and the deliveries that completed, and an upstream that writes
    down what each session's [receive] answered. Neither the map nor what lies
    beyond can write them. *)

Record recorder {D : Type} : Type := {
  far : D;
  calls : list (SocketAddr * SocketAddr * list byte);
  completed : list (SocketAddr * SocketAddr * list byte);
}.
Arguments recorder : clear implicits.
Definition record {D} (d : D) : recorder D := {| far := d; calls := []; completed := [] |}.

#[export] Instance recording_downstream `{Downstream D} : Downstream (recorder D) := {|
  deliver src from data (r : recorder D) :=
    {| far := deliver src from data (far r); calls := calls r ++ [(src, from, data)];
       completed := completed r |};
  deliver_poll src from data (r : recorder D) :=
    let '(polled, d) := deliver_poll src from data (far r) in
    (polled, {| far := d; calls := calls r;
       completed := completed r ++ match polled with Ready true => [(src, from, data)] | _ => [] end |});
  down_moves (r r' : recorder D) :=
    down_moves (far r) (far r') ∧ calls r' = calls r ∧ completed r' = completed r;
|}.

Record tapped {U W : Type} := { below : W; answers : list (U * (list byte * rstr)) }.
Arguments tapped : clear implicits.
Definition tap {U W} (w : W) : tapped U W := {| below := w; answers := [] |}.

Definition under {U W A} (m : stm W Empty_set A) : stm (tapped U W) Empty_set A :=
  zoom below (λ w t, {| below := w; answers := answers t |}) m.

Definition tap_receive `{Upstream U W} (u : U) :
    stm (tapped U W) Empty_set (Poll (option (list byte * rstr))) := fun t =>
  let '(r, w) := up_receive u (below t) in
  (r, {| below := w; answers := answers t ++
           match r with Ok (Ready (Some x)) => [(u, x)] | _ => [] end |}).

#[export] Program Instance tapped_upstream `{Upstream U W} : Upstream U (tapped U W) := {|
  up_create := under up_create;
  up_send u data addr := under (up_send u data addr);
  up_receive := tap_receive;
  up_drop u (t : tapped U W) := {| below := up_drop u (below t); answers := answers t |};
  allocated (t : tapped U W) := allocated (below t);
  up_moves (t t' : tapped U W) := up_moves (below t) (below t') ∧ answers t' = answers t;
|}.
Next Obligation.
  intros U W HU t r t'. unfold under, zoom. destruct (up_create (below t)) as [r0 w'] eqn:Hc.
  intros [= <- <-]. by apply up_create_fresh.
Qed.
Next Obligation.
  intros U W HU u d a t r t'. unfold under, zoom. destruct (up_send u d a (below t)) as [r0 w'] eqn:Hs.
  intros [= <- <-]. by eapply up_send_keeps.
Qed.
Next Obligation.
  intros U W HU u t r t'. unfold tap_receive.
  destruct (up_receive u (below t)) as [r0 w'] eqn:Hr. intros [= <- <-]. by eapply up_receive_keeps.
Qed.
Next Obligation. intros U W HU u t v. apply up_drop_keeps. Qed.
Next Obligation. intros U W HU t t' [Hm _]. by apply up_moves_keeps. Qed.

Section recorded.
Context `{Upstream U W, !EqDecision U, Downstream D, SocketAddrText}.

Abbreviation watched := (Sessions (U:=U) (W:=tapped U W) (D:=recorder D)).

(** What the session [u] received, its source address readable: the others are
    skipped. *)
Definition readable (u : U) (a : U * (list byte * rstr)) : option (SocketAddr * list byte) :=
  if decide (a.1 = u) then (λ from, (from, a.2.1)) <$> addr_parse a.2.2 else None.
Definition call_of (e : event (U:=U)) : option (SocketAddr * SocketAddr * list byte) :=
  match e with EReceived _ src from data => Some (src, from, data) | _ => None end.
Definition completion_of (e : event (U:=U)) : option (SocketAddr * SocketAddr * list byte) :=
  match e with EReply _ src from data => Some (src, from, data) | _ => None end.

(** The events of a run are what crossed the seams. *)
Record faithful (es : list event) (s : watched) : Prop := {
  fa_calls : calls (downstream s) = omap call_of es;
  fa_completed : completed (downstream s) = omap completion_of es;
  fa_answers : ∀ u, omap (readable u) (answers (world s)) = omap (received u) es;
}.

Definition heard (s : watched) : list (U * (list byte * rstr)) := answers (world s).

Lemma heard_release u s : heard (release u s) = heard s.
Proof. unfold release. by case_decide. Qed.

Lemma heard_foldl ks s : heard (foldl (flip remove) s ks) = heard s.
Proof.
  revert s. induction ks as [|k ks IH]; [done|]. intros s. cbn. rewrite IH. unfold remove.
  destruct (Session.map s !! k); [|done]. by rewrite heard_release.
Qed.

Lemma heard_end_task k s : heard (end_task k s) = heard s.
Proof. unfold end_task. destruct (tasks s !! k); [|done]. by rewrite heard_release. Qed.

Lemma under_answers {A} (m : stm W Empty_set A) (t : tapped U W) r t' :
  under m t = (r, t') → answers t' = answers t.
Proof. unfold under, zoom. destruct (m (below t)). by intros [= _ <-]. Qed.

Lemma wp_forward_heard src dst data now (s : watched) :
  wp (forward src dst data now) (λ r s', heard s' = heard s) s.
Proof.
  unfold forward. wp_step. wp_step. wp_step. apply wp_get_or_create.
  - intros e He. wp_step. apply wp_upstream. intros r w' Hs%under_answers. by destruct r; try wp_step.
  - intros. by wp_step.
  - intros r w' _ _ Hc%under_answers. cbn zeta. destruct r as [[c|]|x|]; [|by wp_step|done..].
    wp_step. apply wp_upstream. intros r2 w2 Hs%under_answers.
    assert (answers w2 = heard s) by (unfold heard; rewrite <-Hc; exact Hs). by destruct r2; try wp_step.
Qed.

(** A turn's answer, and what it makes of the log of answers. *)
Lemma wp_recv_heard k t (s : watched) :
  wp (recv_turn k t) (λ r s', ∀ p, r = Ok p → ∃ l, heard s' = heard s ++ l ∧
    ∀ u, omap (readable u) l = omap (received u) (progress_event t p)) s.
Proof.
  unfold recv_turn. destruct (sending t) as [[from data]|].
  - wp_step. wp_step. cbn [Datatypes.id]. destruct (deliver_poll _ _ _ _) as [q d]. wp_step. wp_step.
    destruct q as [|[]]; repeat wp_step; intros p [= <-]; exists [];
      rewrite ?heard_end_task, app_nil_r; by split.
  - wp_step. apply wp_upstream. intros r w'. cbn [up_receive tapped_upstream].
    unfold tap_receive. destruct (up_receive (t_conn t) (below (world s))) as [q w1].
    destruct q as [[|[[data from]|]]|x|]; intros [= <- <-]; try done.
    + wp_step. intros p [= <-]. exists []. unfold heard. cbn. by rewrite app_nil_r.
    + assert (Hr : ∀ u, omap (readable u) [(t_conn t, (data, from))] =
        if decide (t_conn t = u) then option_list ((λ a, (a, data)) <$> addr_parse from) else []).
      { intros u. cbn. unfold readable. cbn. case_decide; [|done]. by destruct (addr_parse from). }
      destruct (addr_parse from) as [a|] eqn:Ha; repeat wp_step; intros p [= <-];
        exists [(t_conn t, (data, from))]; (split; [done|]); intros u; rewrite Hr; cbn; by case_decide.
    + repeat wp_step. intros p [= <-]. exists []. rewrite heard_end_task. by split.
Qed.

Lemma recv_faithful k t p (s s' : watched) :
  recv_turn k t s = (Ok p, s') →
  calls (downstream s') = calls (downstream s) ++ omap call_of (progress_event t p) ∧
  completed (downstream s') = completed (downstream s) ++ omap completion_of (progress_event t p).
Proof.
  intros Hr. destruct (wp_run _ _ _ _ _ (wp_recv_turn k t s) Hr) as (_ & _ & Hd).
  specialize (Hd p eq_refl). destruct p as [|from data|from data]; cbn in *.
  - rewrite !app_nil_r. destruct Hd as [->|(from & data & _ & q & Hq & Hne)]; [done|].
    destruct (deliver_poll _ _ _ (far _)) as [q' d]. injection Hq as -> Hd. rewrite <-Hd. cbn.
    by destruct q as [|[]]; rewrite ?app_nil_r.
  - destruct Hd as [_ ->]. cbn. by rewrite app_nil_r.
  - destruct Hd as [_ Hq]. destruct (deliver_poll _ _ _ (far _)) as [q' d]. injection Hq as -> Hd.
    rewrite <-Hd. cbn. by rewrite app_nil_r.
Qed.

Lemma faithful_same es s s' :
  faithful es s → calls (downstream s') = calls (downstream s) →
  completed (downstream s') = completed (downstream s) → heard s' = heard s → faithful es s'.
Proof. intros [Hc Hd Ha] H1' H2' H3'. unfold heard in H3'. split; [congruence..|]. intros u. by rewrite H3'. Qed.

Lemma faithful_steady es s s' :
  faithful es s → steady s s' → heard s' = heard s → faithful es s'.
Proof. intros Hf [_ Hd] Hh. by apply (faithful_same es s); rewrite ?Hd. Qed.

Lemma faithful_opened es src s s' : faithful es s → faithful (es ++ opened_in src s s') s.
Proof.
  intros [Hc Hd Ha]. unfold opened_in.
  destruct (Session.map s !! src), (Session.map s' !! src); rewrite ?app_nil_r; try done.
  split; intros; rewrite omap_app; cbn; by rewrite app_nil_r.
Qed.

Lemma faithful_step es s es' s' : faithful es s → step s es' s' → faithful (es ++ es') s'.
Proof.
  intros Hi Hs. destruct Hs as [src dst data now o s s' Hf|now idle s|k t p s s' Hk Hab Hr|k t s Hk _|s|s|w' s Hw|d' s Hd];
    rewrite ?app_nil_r.
  - apply (faithful_steady _ s); [by apply faithful_opened| |].
    + by apply (wp_run _ _ _ _ _ (wp_forward_steady src dst data now s) Hf).
    + by apply (wp_run _ _ _ _ _ (wp_forward_heard src dst data now s) Hf).
  - apply (faithful_steady _ s); [done|apply steady_foldl|apply heard_foldl].
  - destruct Hi as [Hc Hd Ha], (recv_faithful _ _ _ _ _ Hr) as [Hc' Hd'].
    destruct (wp_run _ _ _ _ _ (wp_recv_heard k t s) Hr p eq_refl) as (l & Hl & Hl').
    unfold heard in Hl. split; rewrite ?omap_app; [by rewrite Hc', Hc|by rewrite Hd', Hd|].
    intros u. by rewrite Hl, omap_app, Ha, Hl', received_snoc.
  - apply (faithful_steady _ s); [done|apply steady_end_task|apply heard_end_task].
  - by apply (faithful_same _ s).
  - apply (faithful_steady _ s); [done|apply steady_foldl|apply heard_foldl].
  - destruct Hw as [_ Hw]. by apply (faithful_same _ s).
  - destruct Hd as (_ & Hc & Hd). by apply (faithful_same _ s).
Qed.

Lemma runs_faithful m d w es s : runs (new m (record d) (tap w)) es s → faithful es s.
Proof. induction 1; [done|by eapply faithful_step]. Qed.

(** C12: In every interleaving of forwards, sweeps, reply tasks, aborts, shutdown
    and moves of the two ends, whatever upstream and downstream are: the table
    never exceeds its cap; a running reply task belongs to the entry of its
    source (no orphan pump); a session is opened for one source only. What the
    app is handed: the calls of the downstream's delivery are, argument by
    argument, the receipts of the run, and the completed ones its replies; the
    receipts of a session are what its [receive] answered, less the answers
    whose address cannot be read, in order; every call names the source the
    session was opened for; and a session's replies complete in the order of
    its receipts, none twice, and none skipped as long as its task is there but
    the one in delivery. *)
Theorem nat_safe m (d : D) (w : W) es (s : watched) :
  runs (new m (record d) (tap w)) es s →
  base.size (Session.map s) ≤ m ∧
  (∀ k t, tasks s !! k = Some t → aborted t = false →
     ∃ e, Session.map s !! t_src t = Some e ∧ task e = k ∧ conn e = t_conn t) ∧
  (∀ u src src', EOpen u src ∈ es → EOpen u src' ∈ es → src = src') ∧
  calls (downstream s) = omap call_of es ∧
  completed (downstream s) = omap completion_of es ∧
  (∀ u, omap (readable u) (answers (world s)) = omap (received u) es) ∧
  (∀ u src from data, EReceived u src from data ∈ es ∨ EReply u src from data ∈ es → EOpen u src ∈ es) ∧
  (∀ u, omap (replied u) es `prefix_of` omap (received u) es) ∧
  (∀ k t, tasks s !! k = Some t →
     omap (received (t_conn t)) es = omap (replied (t_conn t)) es ++ option_list (sending t)).
Proof.
  intros Hr. pose proof (nat_runs_inv _ _ _ _ _ Hr) as Hi. destruct (runs_faithful _ _ _ _ _ Hr) as [Hc Hd Ha].
  destruct (nat_runs_safe _ _ _ _ _ Hr) as [Hm Ht]. split_and!; try done; try apply Hi.
  intros u src from data [Hin|Hin]; [by eapply (i_received _ _ Hi)|by eapply (i_reply _ _ Hi)].
Qed.

End recorded.

(** ** The Hysteria session as an upstream *)

Section udp_upstream.
Context {St : Type} (send_message : Proxy.UdpMessage → stm St UdpSession.SendError ()) (oc : bool).

(** [client]'s manager (if the server allows UDP), the connection, and the
    draws of packet ids still to come. *)
Record udp_world := { um : option UdpSession.manager; uio : St; draws : nat → Z; drawn : nat }.

Definition set_um (m : UdpSession.manager) (w : udp_world) : udp_world :=
  {| um := Some m; uio := uio w; draws := draws w; drawn := drawn w |}.

(** [client.udp().ok().map(Arc::new)]. *)
Definition udp_create : stm udp_world Empty_set (option nat) := fun w =>
  match um w with
  | None => (Ok None, w)
  | Some m =>
    match UdpSession.new_udp m with
    | (Ok h, m) => (Ok (Some h), set_um m w)
    | (Err _, _) => (Ok None, w)
    | (Panic, _) => (Panic, w)
    end
  end.

(** A conn in hand is in the manager's table of handles. *)
Definition udp_conn (h : nat) (w : udp_world) : option (UdpSession.manager * UdpSession.UdpConn) :=
  m ← um w; c ← UdpSession.conns m !! h; Some (m, c).

(** [UdpConn::send(..).is_ok()]. *)
Definition udp_send (h : nat) (data : list byte) (addr : rstr) : stm udp_world Empty_set bool := fun w =>
  match udp_conn h w with
  | None => (Panic, w)
  | Some (m, c) =>
    let '(r, s) := UdpSession.send send_message oc (UdpSession.id c) (draws w (drawn w)) data addr (uio w) in
    (match r with Ok _ => Ok true | Err _ => Ok false | Panic => Panic end,
     {| um := um w; uio := s; draws := draws w; drawn := S (drawn w) |})
  end.

(** [UdpConn::receive(..).ok()], polled once. *)
Definition udp_receive (h : nat) : stm udp_world Empty_set (Poll (option (list byte * rstr))) := fun w =>
  match udp_conn h w with
  | None => (Panic, w)
  | Some (m, c) =>
    match UdpSession.receive oc h c m with
    | Ok (Pending, m) => (Ok Pending, set_um m w)
    | Ok (Ready (Ok d), m) => (Ok (Ready (Some d)), set_um m w)
    | Ok (Ready (Err _), m) => (Ok (Ready None), set_um m w)
    | _ => (Panic, w)
    end
  end.

Definition udp_drop (h : nat) (w : udp_world) : udp_world :=
  match um w with Some m => set_um (UdpSession.drop_conn h m) w | None => w end.

Definition udp_allocated (w : udp_world) (h : nat) : Prop :=
  ∃ m, um w = Some m ∧ h < UdpSession.next_handle m.

#[export] Program Instance udp_upstream : Upstream nat udp_world := {|
  up_create := udp_create;
  up_send := udp_send;
  up_receive := udp_receive;
  up_drop := udp_drop;
  allocated := udp_allocated;
  up_moves w w' := ∀ h, udp_allocated w h → udp_allocated w' h;
|}.
Next Obligation.
  intros w r w'. unfold udp_create. destruct (um w) as [m|] eqn:Hm; [|by intros [= <- <-]].
  unfold UdpSession.new_udp. destruct (UdpSession.closed _); [by intros [= <- <-]|].
  intros [= <- <-]. split.
  - intros v (m0 & Hm0 & Hv). eexists. split; [done|]. cbn. assert (m0 = m) as -> by congruence. lia.
  - intros u [= <-]. split.
    + intros (m0 & Hm0 & Hv). assert (m0 = m) as -> by congruence. lia.
    + eexists. split; [done|]. cbn. lia.
Qed.
Next Obligation.
  intros u d a w r w'. unfold udp_send. destruct (udp_conn u w) as [[m c]|]; [|by intros [= _ <-]].
  destruct (UdpSession.send _ _ _ _ _ _ _). by intros [= _ <-].
Qed.
Next Obligation.
  intros u w r w'. unfold udp_receive. destruct (udp_conn u w) as [[m c]|] eqn:Hu; [|by intros [= _ <-]].
  unfold udp_conn in Hu. destruct (um w) as [m0|] eqn:Hm; [|done]. cbn in Hu.
  destruct (UdpSession.conns m0 !! u) as [c0|]; [|done]. injection Hu as -> ->.
  destruct (UdpSession.receive oc u c m) as [[p m']|e|] eqn:Hr; [|by intros [= _ <-]..].
  assert (Hn : UdpSession.next_handle m' = UdpSession.next_handle m).
  { unfold UdpSession.receive in Hr. apply bind_ok_inv in Hr as ([[q d] g] & _ & Hr).
    destruct g; [by injection Hr as <- <-|]. destruct (UdpSession.sender_alive _ _ _); by injection Hr as <- <-. }
  intros Hp v (m1 & Hm1 & Hv). assert (m1 = m) as -> by congruence.
  destruct p as [|[|x|]]; injection Hp as _ <-; cbn; eexists; (split; [done|]); lia.
Qed.
Next Obligation.
  intros u w v (m & Hm & Hv). unfold udp_drop. rewrite Hm. eexists. split; [done|].
  unfold UdpSession.drop_conn, UdpSession.close. by destruct (UdpSession.conns m !! u).
Qed.
Next Obligation. intros w w' Hw. exact Hw. Qed.

End udp_upstream.

(** ** A concrete table *)

#[local] Program Instance plain_addr_text : SocketAddrText := {|
  addr_to_string a := pos_bytes (encode a);
  addr_parse b := decode (bytes_pos b);
|}.
Next Obligation. intros a. cbv beta. rewrite (bytes_pos_bytes (encode a)). apply decode_encode. Qed.

#[local] Instance log_downstream : Downstream (list (SocketAddr * SocketAddr * list byte)) :=
  {| deliver src from data d := d; deliver_poll src from data d := (Ready true, d ++ [(src, from, data)]);
     down_moves _ _ := True |}.

Definition ex_send (_ : Proxy.UdpMessage) : stm () UdpSession.SendError () := mret ().
#[local] Instance ex_upstream : Upstream nat udp_world := udp_upstream ex_send true.

Definition ex_world : udp_world (St:=()) :=
  {| um := Some UdpSession.new; uio := (); draws := λ _, 0%Z; drawn := 0 |}.
Definition ex_src : SocketAddr := socket_addr (V4 0x0a000001) 5000.
Definition ex_dst : SocketAddr := socket_addr (V4 0x01010101) 53.
Definition ex_empty : Sessions (U:=nat) (W:=udp_world (St:=())) (D:=list (SocketAddr * SocketAddr * list byte)) :=
  new 2 [] ex_world.
Definition ex_open : Sessions (U:=nat) (W:=udp_world (St:=())) (D:=list (SocketAddr * SocketAddr * list byte)) :=
  (forward ex_src ex_dst [x61] 5 ex_empty).2.

Lemma ex_run : runs ex_empty (opened_in ex_src ex_empty ex_open) ex_open.
Proof.
  apply (runs_snoc _ [] ex_empty (opened_in ex_src ex_empty ex_open) ex_open); [apply runs_nil|].
  apply (step_forward ex_src ex_dst [x61] 5 (Sent true)). apply injective_projections; [vm_compute; reflexivity|reflexivity].
Qed.

Lemma ex_open_inv : inv (opened_in ex_src ex_empty ex_open) ex_open.
Proof. eapply nat_runs_inv. apply ex_run. Qed.

(** The same table with its seams recorded: a datagram goes out, the answer
    arrives, is received and delivered. *)
Abbreviation rec_sessions := (Sessions (U:=nat) (W:=tapped nat (udp_world (St:=())))
  (D:=recorder (list (SocketAddr * SocketAddr * list byte)))).
Definition rec_empty : rec_sessions := new 2 (record []) (tap ex_world).
Definition rec_open : rec_sessions := (forward ex_src ex_dst [x61] 5 rec_empty).2.
Definition ex_answer : Proxy.UdpMessage :=
  {| Proxy.session_id := 1; Proxy.packet_id := 0; Proxy.frag_id := 0; Proxy.frag_count := 1;
     Proxy.addr := addr_to_string ex_dst; Proxy.data := [x62; x63] |}.
Definition rec_arrived : rec_sessions :=
  set_world {| below := match um (below (world rec_open)) with
                        | Some m => set_um (UdpSession.feed ex_answer m).2 (below (world rec_open))
                        | None => below (world rec_open)
                        end;
               answers := answers (world rec_open) |} rec_open.
Definition ex_task : reply_task := {| t_conn := 0; t_src := ex_src; sending := None; aborted := false |}.
Definition rec_received : rec_sessions := (recv_turn 0 ex_task rec_arrived).2.
Abbreviation ex_sending := (set_sending (Some (ex_dst, [x62; x63])) ex_task).
Definition rec_done : rec_sessions := (recv_turn 0 ex_sending rec_received).2.
Abbreviation ex_events :=
  [EOpen 0 ex_src; EReceived 0 ex_src ex_dst [x62; x63]; EReply 0 ex_src ex_dst [x62; x63]].

Lemma rec_forward : forward ex_src ex_dst [x61] 5 rec_empty = (Ok (Sent true), rec_open).
Proof. apply injective_projections; [vm_compute; reflexivity|reflexivity]. Qed.
Lemma rec_receive : recv_turn 0 ex_task rec_arrived = (Ok (Received ex_dst [x62; x63]), rec_received).
Proof. apply injective_projections; [vm_compute; reflexivity|reflexivity]. Qed.
Lemma rec_deliver : recv_turn 0 ex_sending rec_received = (Ok (Delivered ex_dst [x62; x63]), rec_done).
Proof. apply injective_projections; [vm_compute; reflexivity|reflexivity]. Qed.
Lemma rec_moves : up_moves (world rec_open) (world rec_arrived).
Proof.
  split; [|reflexivity]. intros h (m & Hm & Hh). eexists. split; [reflexivity|].
  revert Hm Hh. vm_compute. by intros [= <-].
Qed.
Lemma rec_opened : opened_in ex_src rec_empty rec_open = [EOpen 0 ex_src].
Proof. vm_compute. reflexivity. Qed.

Lemma rec_waiting : tasks rec_arrived !! 0 = Some ex_task.
Proof. vm_compute. reflexivity. Qed.
Lemma rec_sending : tasks rec_received !! 0 = Some ex_sending.
Proof. vm_compute. reflexivity. Qed.

Lemma rec_run : runs rec_empty ex_events rec_done.
Proof.
  apply (runs_snoc _ [EOpen 0 ex_src; EReceived 0 ex_src ex_dst [x62; x63]] rec_received
    (progress_event ex_sending (Delivered ex_dst [x62; x63]))).
  2:{ apply (step_recv 0 ex_sending _ _ _ rec_sending eq_refl rec_deliver). }
  apply (runs_snoc _ [EOpen 0 ex_src] rec_arrived (progress_event ex_task (Received ex_dst [x62; x63]))).
  2:{ apply (step_recv 0 ex_task _ _ _ rec_waiting eq_refl rec_receive). }
  apply (runs_snoc _ [EOpen 0 ex_src] rec_open []); [|apply (step_world _ _ rec_moves)].
  apply (runs_snoc _ [] rec_empty [EOpen 0 ex_src]); [apply runs_nil|].
  rewrite <-rec_opened. apply (step_forward _ _ _ _ _ _ _ rec_forward).
Qed.

Lemma nat_safe_witness :
  runs rec_empty ex_events rec_done ∧ base.size (Session.map rec_done) ≤ 2 ∧
  calls (downstream rec_done) = [(ex_src, ex_dst, [x62; x63])] ∧
  completed (downstream rec_done) = [(ex_src, ex_dst, [x62; x63])].
Proof.
  split; [apply rec_run|].
  destruct (nat_safe 2 [] ex_world ex_events rec_done rec_run) as (Hsz & _ & _ & Hc & Hd & _).
  split; [exact Hsz|]. split; [exact Hc|exact Hd].
Defined.

Lemma forward_spec_witness :
  forward ex_src ex_dst [x62] 9 ex_open = (Ok (Sent false), (forward ex_src ex_dst [x62] 9 ex_open).2) ∧
  forward_post ex_src 9 ex_open (Sent false) (forward ex_src ex_dst [x62] 9 ex_open).2.
Proof.
  assert (Hf : forward ex_src ex_dst [x62] 9 ex_open = (Ok (Sent false), (forward ex_src ex_dst [x62] 9 ex_open).2)).
  { apply injective_projections; [vm_compute; reflexivity|reflexivity]. }
  split; [exact Hf|]. apply (forward_spec _ _ _ _ _ _ _ _ ex_open_inv Hf).
Defined.

Lemma reap_idle_spec_witness :
  map (reap_idle 400 300 ex_open) !! ex_src = None ∧
  map (reap_idle 305 300 ex_open) !! ex_src = map ex_open !! ex_src.
Proof.
  destruct (reap_idle_spec _ 400 300 ex_open ex_open_inv) as [Hm _].
  destruct (reap_idle_spec _ 305 300 ex_open ex_open_inv) as [Hk _].
  split; [rewrite Hm|rewrite Hk]; vm_compute; reflexivity.
Defined.

Lemma close_after_task_witness :
  (λ m, UdpSession.count m) <$> um (world (end_task 0 (remove ex_src ex_open))) = Some 0.
Proof.
  destruct (close_after_task (opened_in ex_src ex_empty ex_open) ex_src
    {| conn := 0; last_activity := 5; task := 0 |} {| t_conn := 0; t_src := ex_src; sending := None; aborted := false |}
    ex_open ex_open_inv) as [_ Hc]; [vm_compute; reflexivity|vm_compute; reflexivity|].
  cbn [task] in Hc. rewrite Hc. vm_compute. reflexivity.
Defined.

End Session.
