(* ===== verification/Flow.v ===== *)
(** * Flow: a UDP flow through the tunnel and back

    Composes the NAT of [dataplane/src/session.rs] with the client's UDP
    sessions: what the device sends from one source goes out on a session of
    its own, and what the server answers there comes back to that source.

    [Session.udp_upstream] makes the client's session manager the NAT's
    upstream; here the manager runs over [QuinnUdpIo] and its background task
    is [Tunnel.run]. *)
From S2P Require Import Prelude IoRead RustStr Proxy Frag Net Errors UdpSession Transport Tunnel Session.

Module Flow.
Import Net Session.
#[local] Existing Instance Transport.quinn_udp_io.

Section flow.
Context `{Transport.Datagrams C, Downstream D, SocketAddrText} (oc : bool).

Abbreviation world_t := (udp_world (St:=list byte * C)).
#[local] Instance quinn_upstream : Upstream nat world_t := udp_upstream Transport.send_message oc.
Abbreviation sessions_t := (Sessions (U:=nat) (W:=world_t) (D:=D)).
Abbreviation flow_m := (stm sessions_t Empty_set).

(** Datagrams of one source forwarded one after the other: when, where to, and
    what. *)
Abbreviation datagram := (Z * (SocketAddr * list byte))%type.
Fixpoint forwards (src : SocketAddr) (l : list datagram) : flow_m (list Outcome) :=
  match l with
  | [] => mret []
  | (now, (dst, data)) :: l =>
    o ← forward src dst data now; os ← forwards src l; mret (o :: os)
  end.

(** Turns of one reply task in a row, as long as it is there. *)
Fixpoint turns (k n : nat) : flow_m (list progress) :=
  match n with
  | O => mret []
  | S n =>
    s ← gets Datatypes.id;
    match tasks s !! k with
    | Some t => p ← recv_turn k t; ps ← turns k n; mret (p :: ps)
    | None => mret []
    end
  end.

(** The background task of the client's manager, over what has arrived. *)
Definition arrive (bs : list (list byte)) (s : sessions_t) : option sessions_t :=
  m ← um (world s); m ← Tunnel.run (S (length bs)) (Ok <$> bs) m;
  Some (set_world (set_um m (world s)) s).

(** ** Out *)

(** The datagrams as the session sends them, from the [n]th draw on. *)
Definition outgoing (draws : nat → Z) (n : nat) (l : list datagram) : list (Z * (list byte * rstr)) :=
  imap (λ i x, (draws (n + i), (x.2.2, addr_to_string x.2.1))) l.

Lemma outgoing_cons draws n now dst data l :
  outgoing draws n ((now, (dst, data)) :: l) =
  (draws n, (data, addr_to_string dst)) :: outgoing draws (S n) l.
Proof.
  unfold outgoing. cbn. rewrite Nat.add_0_r. f_equal. apply imap_ext. intros i x _. cbn.
  by rewrite Nat.add_succ_r.
Qed.

Lemma outgoing_payloads draws n l :
  (outgoing draws n l).*2 = (λ x : datagram, (x.2.2, addr_to_string x.2.1)) <$> l.
Proof.
  revert n. induction l as [|[now [dst data]] l IH]; intros n; [done|].
  rewrite outgoing_cons. cbn. by rewrite IH.
Qed.

(** [src] has its session: [c], under the handle [h] of the manager [m], and
    the idle reply task [k]. *)
Record flowing (src : SocketAddr) (h k : nat) (c : UdpSession.UdpConn) (m : UdpSession.manager)
    (s : sessions_t) : Prop := {
  fl_um : um (world s) = Some m;
  fl_conn : UdpSession.conns m !! h = Some c;
  fl_entry : ∃ e, map s !! src = Some e ∧ conn e = h;
  fl_task : tasks s !! k = Some {| t_conn := h; t_src := src; sending := None; aborted := false |};
}.

(** What a send leaves: another connection, one draw less. *)
Definition sent_io (io : list byte * C) (w : world_t) : world_t :=
  {| um := um w; uio := io; draws := draws w; drawn := S (drawn w) |}.

Lemma send_ok src h k c m s data addr io :
  flowing src h k c m s →
  UdpSession.send Transport.send_message oc (UdpSession.id c) (draws (world s) (drawn (world s))) data addr
    (uio (world s)) = (Ok (), io) →
  udp_send Transport.send_message oc h data addr (world s) = (Ok true, sent_io io (world s)).
Proof.
  intros [Hm Hc _ _] Hs. unfold udp_send, udp_conn, sent_io. rewrite Hm. cbn [mbind option_bind].
  rewrite Hc. cbn [mbind option_bind]. by rewrite Hs.
Qed.

(** A later datagram of the source goes out on the same session. *)
Lemma forward_again src h k c m s dst data now io :
  flowing src h k c m s →
  UdpSession.send Transport.send_message oc (UdpSession.id c) (draws (world s) (drawn (world s))) data
    (addr_to_string dst) (uio (world s)) = (Ok (), io) →
  ∃ s', forward src dst data now s = (Ok (Sent false), s') ∧ flowing src h k c m s' ∧
    world s' = sent_io io (world s) ∧ downstream s' = downstream s.
Proof.
  intros Hf Hs. pose proof (send_ok src h k c m s data (addr_to_string dst) io Hf Hs) as Hu.
  destruct Hf as [Hm Hc (e & He & Hh) Ht].
  exists (set_world (sent_io io (world s)) (set_map (alter (touch now) src) s)). split_and!; [|split|done|done].
  - unfold forward, get_or_create, mbind, stm_bind, gets. cbn [Datatypes.id]. rewrite He.
    cbn. unfold upstream, zoom. cbn [world set_map].
    by rewrite Hh, Hu.
  - done.
  - done.
  - exists (touch now e). cbn. by rewrite lookup_alter_eq, He.
  - done.
Qed.

(** The first datagram of a source opens its session. *)
Definition opened (m : UdpSession.manager) : UdpSession.UdpConn :=
  {| UdpSession.id := UdpSession.next_id (UdpSession.sessions m); UdpSession.queue := [];
     UdpSession.defragger := Frag.defragger_default |}.

Lemma forward_first src m s dst data now io :
  um (world s) = Some m → UdpSession.closed (UdpSession.sessions m) = false →
  map s !! src = None → base.size (map s) < max s →
  UdpSession.send Transport.send_message oc (UdpSession.id (opened m)) (draws (world s) (drawn (world s))) data
    (addr_to_string dst) (uio (world s)) = (Ok (), io) →
  ∃ s', forward src dst data now s = (Ok (Sent true), s') ∧
    flowing src (UdpSession.next_handle m) (next_task s) (opened m) (UdpSession.new_udp m).2 s' ∧
    world s' = sent_io io (set_um (UdpSession.new_udp m).2 (world s)) ∧ downstream s' = downstream s.
Proof.
  intros Hm Hcl Hnone Hlt Hs. set (h := UdpSession.next_handle m). set (m' := (UdpSession.new_udp m).2).
  assert (Hnew : UdpSession.new_udp m = (Ok h, m')) by (unfold m', UdpSession.new_udp; by rewrite Hcl).
  assert (Hh : UdpSession.conns m' !! h = Some (opened m)).
  { unfold m', UdpSession.new_udp. rewrite Hcl. cbn. by rewrite lookup_insert_eq. }
  set (s1 := open_session src now h (set_world (set_um m' (world s)) s)).
  assert (Hf : flowing src h (next_task s) (opened m) m' s1).
  { split; [done|done| |]; cbn; rewrite lookup_insert_eq; [by eexists|done]. }
  exists (set_world (sent_io io (set_um m' (world s))) s1). split_and!; [|by destruct Hf; split|done|done].
  pose proof (send_ok src h _ _ _ s1 data (addr_to_string dst) io Hf Hs) as Hu.
  unfold forward, get_or_create, mbind, stm_bind, gets. cbn [Datatypes.id]. rewrite Hnone.
  rewrite decide_False by lia. unfold upstream, zoom. cbn. unfold udp_create. rewrite Hm, Hnew.
  cbn. unfold s1 in Hu. cbn [world open_session set_world] in Hu. by rewrite Hu.
Qed.

Lemma forwards_again src h k c m l s io :
  flowing src h k c m s →
  UdpSession.sends (send_message := Transport.send_message) oc (UdpSession.id c)
    (outgoing (draws (world s)) (drawn (world s)) l) (uio (world s)) = (Ok (), io) →
  ∃ s', forwards src l s = (Ok (replicate (length l) (Sent false)), s') ∧ flowing src h k c m s' ∧
    uio (world s') = io ∧ downstream s' = downstream s.
Proof.
  revert s. induction l as [|[now [dst data]] l IH]; intros s Hf Hs.
  { injection Hs as Hs. by exists s. }
  rewrite outgoing_cons in Hs. cbn [UdpSession.sends] in Hs.
  apply stm_bind_ok in Hs as ([] & io1 & Hs1 & Hs).
  destruct (forward_again src h k c m s dst data now io1 Hf Hs1) as (s1 & Hfw & Hf1 & Hw1 & Hd1).
  destruct (IH s1 Hf1) as (s2 & Hfw2 & Hf2 & Hu2 & Hd2); [by rewrite Hw1|].
  exists s2. split_and!; [|done|done|congruence].
  cbn [forwards length replicate]. unfold mbind, stm_bind. by rewrite Hfw, Hfw2.
Qed.

(** A flow from its first datagram. *)
Lemma forwards_first src m x l s io :
  um (world s) = Some m → UdpSession.closed (UdpSession.sessions m) = false →
  map s !! src = None → base.size (map s) < max s →
  UdpSession.sends (send_message := Transport.send_message) oc (UdpSession.id (opened m))
    (outgoing (draws (world s)) (drawn (world s)) (x :: l)) (uio (world s)) = (Ok (), io) →
  ∃ s', forwards src (x :: l) s = (Ok (Sent true :: replicate (length l) (Sent false)), s') ∧
    flowing src (UdpSession.next_handle m) (next_task s) (opened m) (UdpSession.new_udp m).2 s' ∧
    uio (world s') = io ∧ downstream s' = downstream s.
Proof.
  destruct x as [now [dst data]]. intros Hm Hcl Hnone Hlt Hs.
  rewrite outgoing_cons in Hs. cbn [UdpSession.sends] in Hs.
  apply stm_bind_ok in Hs as ([] & io1 & Hs1 & Hs).
  destruct (forward_first src m s dst data now io1 Hm Hcl Hnone Hlt Hs1) as (s1 & Hfw & Hf1 & Hw1 & Hd1).
  destruct (forwards_again src _ _ _ _ l s1 io Hf1) as (s2 & Hfw2 & Hf2 & Hu2 & Hd2); [by rewrite Hw1|].
  exists s2. split_and!; [|done|done|congruence].
  cbn [forwards]. unfold mbind at 1, stm_bind at 1. rewrite Hfw. unfold mbind, stm_bind. by rewrite Hfw2.
Qed.

(** ** Back *)

(** The app's side takes a reply at once. *)
Definition takes_replies : Prop :=
  ∀ src from data (d : D), ∃ d', deliver_poll src from data (deliver src from data d) = (Ready true, d').
Definition take_reply (src : SocketAddr) (d : D) (x : SocketAddr * list byte) : D :=
  (deliver_poll src x.1 x.2 (deliver src x.1 x.2 d)).2.

(** One poll of [receive], in the world of the NAT. *)
Lemma udp_receive_turn h c m (w : world_t) q d got :
  um w = Some m → Tunnel.open_session h c m →
  UdpSession.recv_loop (E := io_error) oc (UdpSession.queue c) (UdpSession.defragger c) = Ok (q, d, got) →
  let c' := {| UdpSession.id := UdpSession.id c; UdpSession.queue := q; UdpSession.defragger := d |} in
  let m' := UdpSession.set_conns (insert h c') m in
  udp_receive oc h w = (Ok (match got with Some r => Ready (Some r) | None => Pending end), set_um m' w) ∧
  Tunnel.open_session h c' m'.
Proof.
  intros Hm [Hc Hs] Hl c' m'. split; [|split; [cbn; by rewrite lookup_insert_eq|done]].
  unfold udp_receive, udp_conn. rewrite Hm. cbn [mbind option_bind]. rewrite Hc. cbn [mbind option_bind].
  unfold UdpSession.receive. rewrite Hl. cbn [mbind outcome_bind]. destruct got; [done|].
  unfold UdpSession.sender_alive. by rewrite bool_decide_eq_true_2.
Qed.

(** The flow's reply task waits for its session. *)
Definition replying (src : SocketAddr) (h k : nat) (s : sessions_t) : Prop :=
  tasks s !! k = Some {| t_conn := h; t_src := src; sending := None; aborted := false |}.

Lemma turns_S k n s t p s1 ps s2 :
  tasks s !! k = Some t → recv_turn k t s = (Ok p, s1) → turns k n s1 = (Ok ps, s2) →
  turns k (S n) s = (Ok (p :: ps), s2).
Proof.
  intros Ht Hp Hps. cbn [turns]. unfold mbind, stm_bind, gets. cbn [Datatypes.id].
  by rewrite Ht, Hp, Hps.
Qed.

(** A reply takes a turn to be received and one to be delivered. *)
Lemma reply_turns src h k c m s q d data from :
  takes_replies → um (world s) = Some m → Tunnel.open_session h c m → replying src h k s →
  UdpSession.recv_loop (E := io_error) oc (UdpSession.queue c) (UdpSession.defragger c) =
    Ok (q, d, Some (data, addr_to_string from)) →
  ∃ m' s1, um (world s1) = Some m' ∧
    Tunnel.open_session h {| UdpSession.id := UdpSession.id c; UdpSession.queue := q;
      UdpSession.defragger := d |} m' ∧
    replying src h k s1 ∧ downstream s1 = take_reply src (downstream s) (from, data) ∧
    (∀ n ps s', turns k n s1 = (Ok ps, s') →
     turns k (S (S n)) s = (Ok (Received from data :: Delivered from data :: ps), s')).
Proof.
  intros Hready Hm Ho Ht Hl. destruct (udp_receive_turn h c m (world s) q d _ Hm Ho Hl) as [Hr Ho'].
  set (m' := UdpSession.set_conns _ m) in *. set (t := {| t_conn := h; t_src := src; sending := None; aborted := false |}).
  set (s1 := set_tasks (alter (set_sending (Some (from, data))) k)
    (set_downstream (deliver src from data (downstream s)) (set_world (set_um m' (world s)) s))).
  destruct (Hready src from data (downstream s)) as [d' Hd].
  set (s2 := set_tasks (alter (set_sending None) k) (set_downstream d' s1)).
  assert (Ht1 : tasks s1 !! k = Some (set_sending (Some (from, data)) t)).
  { cbn. by rewrite lookup_alter_eq, Ht. }
  exists m', s2. split_and!; [done|done| | |].
  - unfold replying, s2. cbn [tasks set_tasks set_downstream]. by rewrite lookup_alter_eq, Ht1.
  - unfold take_reply. cbn [fst snd]. by rewrite Hd.
  - intros n ps s' Hn. eapply turns_S; [exact Ht| |eapply turns_S; [exact Ht1| |exact Hn]].
    + unfold recv_turn. cbn [sending t_conn t_src]. unfold upstream, zoom, mbind, stm_bind. cbn.
      rewrite Hr. cbn. by rewrite addr_parse_to_string.
    + unfold recv_turn. cbn [sending set_sending t_conn t_src t]. unfold mbind, stm_bind, gets.
      cbn [Datatypes.id]. unfold s1. cbn [downstream set_tasks set_downstream]. rewrite Hd. done.
Qed.

Lemma waiting_turn src h k c m s q d :
  um (world s) = Some m → Tunnel.open_session h c m → replying src h k s →
  UdpSession.recv_loop (E := io_error) oc (UdpSession.queue c) (UdpSession.defragger c) = Ok (q, d, None) →
  ∃ s', turns k 1 s = (Ok [Waiting], s') ∧ downstream s' = downstream s.
Proof.
  intros Hm Ho Ht Hl. destruct (udp_receive_turn h c m (world s) q d _ Hm Ho Hl) as [Hr _].
  eexists. split; [|shelve]. eapply turns_S; [exact Ht| |done].
  unfold recv_turn. cbn [sending t_conn t_src]. unfold upstream, zoom, mbind, stm_bind. cbn. by rewrite Hr.
  Unshelve. done.
Qed.

(** What is received and delivered of replies [ps]. *)
Definition replies (ps : list (SocketAddr * list byte)) : list progress :=
  concat ((λ x, [Received x.1 x.2; Delivered x.1 x.2]) <$> ps).

Lemma turns_replies src h k ps c m s d' os :
  takes_replies → um (world s) = Some m → Tunnel.open_session h c m → replying src h k s →
  Frag.feed_all (E := io_error) oc (UdpSession.defragger c) (UdpSession.queue c) = Ok (d', os) →
  UdpSession.payloads os = (λ x, (x.2, addr_to_string x.1)) <$> ps →
  ∃ s', turns k (S (2 * length ps)) s = (Ok (replies ps ++ [Waiting]), s') ∧
    downstream s' = foldl (take_reply src) (downstream s) ps.
Proof.
  intros Hready. revert c m s os. induction ps as [|[from data] ps IH]; intros c m s os Hm Ho Ht Hf Hp;
    pose proof (Tunnel.recv_loop_payload oc _ _ _ _ Hf) as Hl; rewrite Hp in Hl.
  - destruct (waiting_turn src h k c m s [] d' Hm Ho Ht Hl) as (s' & Hw & Hd). by exists s'.
  - destruct Hl as (q1 & d1 & os1 & Hl & Hf1 & Hp1).
    destruct (reply_turns src h k c m s q1 d1 data from Hready Hm Ho Ht Hl)
      as (m1 & s1 & Hm1 & Ho1 & Ht1 & Hd1 & Hn).
    destruct (IH _ m1 s1 os1 Hm1 Ho1 Ht1 Hf1 Hp1) as (s' & Hturns & Hd').
    exists s'. split; [|by rewrite Hd', Hd1].
    replace (S (2 * length ((from, data) :: ps))) with (S (S (S (2 * length ps)))) by (cbn [length]; lia).
    by apply Hn.
Qed.

(** ** There and back *)

(** C10: A UDP flow through the tunnel and back. The device sends datagrams from
    one source, each deliverable (non-empty, a destination of 1 to 2048 bytes
    of UTF-8, at most 4096 bytes with its header, a header below what the path
    carries, at most 255 fragments) and under packet ids that do not repeat; the NAT has room and no session for the
    source; the client's manager has had any run before and its task runs; the
    app takes each reply at once. Then every datagram is forwarded, the first on
    a session opened for this source alone, and what goes on the wire carries
    that session's id (fragmented where the path requires it). If the server
    echoes these messages, at most 1024, in order, with whatever else arriving
    in between, the client's task takes everything in, and the source's reply
    task hands the app each datagram back, whole and in order, as a reply from
    the destination it was sent to, and waits for more. *)
Theorem udp_flow_echo (path_max : nat) (es : list UdpSession.event) (m : UdpSession.manager)
    (s : sessions_t) (src : SocketAddr) (x : datagram) (l : list datagram)
    (Hready : takes_replies)
    (Hruns : UdpSession.runs oc UdpSession.new es m) (Hrun : UdpSession.run_task m = UdpSession.Running)
    (Hm : um (world s) = Some m) (Hio : Transport.io_ok path_max (uio (world s)))
    (Hnone : map s !! src = None) (Hroom : base.size (map s) < max s) :
  let sid := UdpSession.next_id (UdpSession.sessions m) in
  let out := outgoing (draws (world s)) (drawn (world s)) (x :: l) in
  ∀ (Hout : Forall (λ y, UdpSession.deliverable (path_max := path_max) sid y.2.1 y.2.2) out)
    (Hnd : NoDup (UdpSession.random_packet_id ∘ fst <$> out)),
  ∃ s1 sent,
    forwards src (x :: l) s = (Ok (Sent true :: replicate (length l) (Sent false)), s1) ∧
    Transport.io_log (uio (world s1)) = Transport.io_log (uio (world s)) ++ sent ∧
    Forall (λ msg, Proxy.session_id msg = sid) sent ∧
    ∀ bs, Tunnel.of_session sid (Transport.parsed bs) = sent →
      length sent ≤ UdpSession.UDP_MESSAGE_CHAN_SIZE →
    ∃ s2 s3, arrive bs s1 = Some s2 ∧
      turns (next_task s) (S (2 * length (x :: l))) s2 = (Ok (replies (x :: l).*2 ++ [Waiting]), s3) ∧
      downstream s3 = foldl (take_reply src) (downstream s) (x :: l).*2.
Proof.
  intros sid out Hout Hnd. pose proof (UdpSession.runs_inv _ _ _ Hruns) as Hinv.
  assert (Hcl : UdpSession.closed (UdpSession.sessions m) = false).
  { destruct (UdpSession.closed _) eqn:Hc; [|done]. apply (UdpSession.i_task _ _ _ Hinv) in Hc. congruence. }
  destruct (UdpSession.sends_wire oc sid out (uio (world s)) Hio Hout Hnd)
    as (io & sent & Hs & _ & Hlog & Hids & Hall).
  destruct (forwards_first src m x l s io Hm Hcl Hnone Hroom Hs) as (s1 & Hfw & [Hm1 Hc1 _ Ht1] & Hio1 & Hd1).
  exists s1, sent. rewrite Hio1. split_and!; [done..|]. intros bs Hbs Hlen.
  set (h := UdpSession.next_handle m) in *. set (m1 := (UdpSession.new_udp m).2) in *.
  assert (Hnew : UdpSession.new_udp m = (Ok h, m1)) by (unfold m1, UdpSession.new_udp; by rewrite Hcl).
  assert (Hopen : Tunnel.open_session h (opened m) m1).
  { split; [done|]. unfold m1, UdpSession.new_udp. rewrite Hcl. cbn. by rewrite lookup_insert_eq. }
  pose proof (UdpSession.inv_new_udp _ _ _ _ _ Hinv Hnew) as Hinv1.
  pose proof (Tunnel.feeds_queue oc _ m1 h (opened m) (Transport.parsed bs) Hinv1 Hopen) as Ho.
  change (UdpSession.id (opened m)) with sid in Ho. rewrite Hbs in Ho. specialize (Ho Hlen).
  destruct (Hall Frag.defragger_default) as (d' & os & Hfa & Hp).
  { intros Hin. apply list_elem_of_fmap in Hin as ([d p] & Hd & _). cbn in Hd.
    unfold UdpSession.random_packet_id in Hd. pose proof (random_range_bound 1 65536 d eq_refl). lia. }
  set (s2 := set_world (set_um (Tunnel.feeds (Transport.parsed bs) m1) (world s1)) s1).
  destruct (turns_replies src h (next_task s) (x :: l).*2 _ _ s2 d' os Hready eq_refl Ho Ht1)
    as (s3 & Hturns & Hd3); [done|by rewrite Hp; unfold out; rewrite outgoing_payloads, <-list_fmap_compose|].
  rewrite length_fmap in Hturns. exists s2, s3. split_and!; [|done|by rewrite Hd3, <-Hd1].
  unfold arrive. rewrite Hm1. cbn [mbind option_bind]. by rewrite Tunnel.run_parsed by lia.
Qed.
End flow.

(** ** Witness *)

#[local] Existing Instance Session.plain_addr_text.
#[local] Existing Instance Session.log_downstream.
#[local] Instance ex_path : Transport.Datagrams (list (list byte)) := Tunnel.kept_path 230.

(** A NAT with room for two sources, over a fresh manager and an idle link. *)
Definition ex_nat : Sessions (U:=nat) (W:=udp_world (St:=list byte * list (list byte)))
    (D:=list (SocketAddr * SocketAddr * list byte)) :=
  new 2 [] {| um := Some UdpSession.new; uio := (replicate Proxy.MAX_UDP_SIZE x00, []);
              draws := λ n, (41 * Z.of_nat n)%Z; drawn := 0 |}.
Definition ex_first : Z * (SocketAddr * list byte) := (5%Z, (ex_dst, lit "hello, world, again")).
Definition ex_second : Z * (SocketAddr * list byte) := (6%Z, (ex_dst, lit "x")).

(** The echo: noise first, then what was sent. *)
Definition ex_echo : list (list byte) :=
  lit "noise" :: (uio (world (forwards true ex_src [ex_first; ex_second] ex_nat).2)).2.

Lemma udp_flow_echo_witness :
  length ex_echo = 4 ∧ ∃ s2 s3,
    arrive ex_echo (forwards true ex_src [ex_first; ex_second] ex_nat).2 = Some s2 ∧
    turns true 0 5 s2 = (Ok [Received ex_dst (lit "hello, world, again");
      Delivered ex_dst (lit "hello, world, again"); Received ex_dst (lit "x");
      Delivered ex_dst (lit "x"); Waiting], s3) ∧
    downstream s3 = [(ex_src, ex_dst, lit "hello, world, again"); (ex_src, ex_dst, lit "x")].
Proof.
  split; [by vm_compute|].
  destruct (udp_flow_echo true 230 [] UdpSession.new ex_nat ex_src ex_first [ex_second])
    as (s1 & sent & Hfw & Hlog & _ & Hall).
  - intros src from data d. by eexists.
  - apply UdpSession.runs_nil.
  - done.
  - done.
  - by split.
  - done.
  - by apply Nat.lt_0_succ.
  - repeat constructor; try done; vm_compute; lia.
  - apply (bool_decide_eq_true_1 _). by vm_compute.
  - rewrite Hfw. cbn [snd].
    assert (Hs : sent = Transport.parsed (tail ex_echo)).
    { unfold Transport.io_log in Hlog. cbn in Hlog. rewrite <-Hlog. unfold ex_echo. by rewrite Hfw. }
    destruct (Hall ex_echo) as (s2 & s3 & H1 & H2 & H3); [rewrite Hs; by vm_compute|rewrite Hs; vm_compute; lia|].
    exists s2, s3. split; [exact H1|]. split; [exact H2|exact H3].
Defined.

End Flow.
