(* ===== verification/Counting.v ===== *)
(** * Counting: the byte-counting wrapper of a relayed stream

    Models [dataplane/src/count.rs]: [Counting] with its [AsyncRead] and
    [AsyncWrite] over any stream that has them, on the two shared counters; and
    what it counts on the proxied connection a relay wraps in it. *)
From S2P Require Import Prelude Net Transport.
Import Net.

Definition usize_as_u64 (n : nat) : Z := Z.min (Z.of_nat n) (2 ^ 64 - 1).
Definition fetch_add (c n : Z) : Z := wrap 64 (c + n).

Module Counting.

Section counting.
Context {S E : Type} `{!AsyncRead S E, !AsyncWrite S E}.

Record Counting := { inner : S; tx : Z; rx : Z }.
Definition new (inner : S) (tx rx : Z) : Counting := {| inner := inner; tx := tx; rx := rx |}.

#[global] Instance counting_read : AsyncRead Counting E := fun buf c =>
  let before := length (filled buf) in
  let '(res, buf, s) := poll_read buf (inner c) in
  let rx := match res with
            | Ready (Ok ()) => fetch_add (rx c) (usize_as_u64 (length (filled buf) - before))
            | _ => rx c
            end in
  (res, buf, {| inner := s; tx := tx c; rx := rx |}).

Definition counting_poll_write (data : list byte) (c : Counting) : Poll (outcome E nat) * Counting :=
  let '(res, s) := poll_write data (inner c) in
  let tx := match res with Ready (Ok written) => fetch_add (tx c) (usize_as_u64 written) | _ => tx c end in
  (res, {| inner := s; tx := tx; rx := rx c |}).
Definition counting_poll_flush (c : Counting) : Poll (outcome E ()) * Counting :=
  let '(res, s) := poll_flush (inner c) in (res, {| inner := s; tx := tx c; rx := rx c |}).
Definition counting_poll_shutdown (c : Counting) : Poll (outcome E ()) * Counting :=
  let '(res, s) := poll_shutdown (inner c) in (res, {| inner := s; tx := tx c; rx := rx c |}).
#[global] Instance counting_write : AsyncWrite Counting E := {|
  poll_write := counting_poll_write;
  poll_flush := counting_poll_flush;
  poll_shutdown := counting_poll_shutdown;
|}.

End counting.

Arguments Counting : clear implicits.

(** ** Any use of a stream *)

(** The polls a user may make, and their answers. *)
Inductive op := ORead (buf : ReadBuf) | OWrite (data : list byte) | OFlush | OShutdown.
Inductive answer E :=
| ARead (res : Poll (outcome E ())) (before after : ReadBuf)
| AWrite (res : Poll (outcome E nat))
| ADone (res : Poll (outcome E ())).
Arguments ARead {E}.
Arguments AWrite {E}.
Arguments ADone {E}.

Definition poll {S E} `{!AsyncRead S E, !AsyncWrite S E} (o : op) (s : S) : answer E * S :=
  match o with
  | ORead buf => let '(res, buf', s) := poll_read buf s in (ARead res buf buf', s)
  | OWrite data => let '(res, s) := poll_write data s in (AWrite res, s)
  | OFlush => let '(res, s) := poll_flush s in (ADone res, s)
  | OShutdown => let '(res, s) := poll_shutdown s in (ADone res, s)
  end.
Fixpoint use {S E} `{!AsyncRead S E, !AsyncWrite S E} (os : list op) (s : S) : list (answer E) * S :=
  match os with
  | [] => ([], s)
  | o :: os => let '(a, s) := poll o s in let '(l, s) := use os s in (a :: l, s)
  end.

(** The bytes an answer moved. *)
Definition bytes_read {E} (a : answer E) : Z :=
  match a with
  | ARead (Ready (Ok ())) before after => usize_as_u64 (length (filled after) - length (filled before))
  | _ => 0
  end.
Definition bytes_written {E} (a : answer E) : Z :=
  match a with AWrite (Ready (Ok n)) => usize_as_u64 n | _ => 0 end.
Definition total {A} (f : A → Z) (l : list A) : Z := foldr (λ a z, (f a + z)%Z) 0%Z l.

Section laws.
Context {S E : Type} `{!AsyncRead S E, !AsyncWrite S E}.

Lemma fetch_add_fetch_add c a b : fetch_add (fetch_add c a) b = fetch_add c (a + b).
Proof. unfold fetch_add, wrap. rewrite Z.add_mod_idemp_l by done. f_equal. lia. Qed.

Lemma fetch_add_range c n : is_u 64 (fetch_add c n).
Proof. unfold is_u, fetch_add, wrap. by apply Z.mod_pos_bound. Qed.

Lemma fetch_add_id c : is_u 64 c → fetch_add c 0 = c.
Proof. intros Hc. unfold fetch_add, wrap. rewrite Z.add_0_r. by apply Z.mod_small. Qed.

Lemma poll_counting (o : op) (c : Counting S) :
  is_u 64 (tx c) → is_u 64 (rx c) →
  poll o c =
    let '(a, s) := poll o (inner c) in
    (a, new s (fetch_add (tx c) (bytes_written a)) (fetch_add (rx c) (bytes_read a))).
Proof.
  intros Ht Hr. destruct o as [buf|data| |]; cbn [poll].
  - unfold poll_read at 1, counting_read. destruct (poll_read buf (inner c)) as [[res buf'] s].
    unfold new. cbn. rewrite (fetch_add_id _ Ht). destruct res as [|[[]|e|]]; by rewrite ?(fetch_add_id _ Hr).
  - cbn. unfold counting_poll_write, new. destruct (poll_write data (inner c)) as [res s]. cbn.
    rewrite (fetch_add_id _ Hr). destruct res as [|[n|e|]]; by rewrite ?(fetch_add_id _ Ht).
  - cbn. unfold counting_poll_flush, new. destruct (poll_flush (inner c)) as [res s]. cbn.
    by rewrite !fetch_add_id.
  - cbn. unfold counting_poll_shutdown, new. destruct (poll_shutdown (inner c)) as [res s]. cbn.
    by rewrite !fetch_add_id.
Qed.

(** The wrapper is transparent and its counters are exact: whatever sequence of
    reads, writes, flushes and shutdowns it is put to, its user sees the answers
    of the stream inside, which is driven exactly as without the wrapper, while
    the counters grow by the bytes those answers moved, modulo 2^64. *)
Lemma use_counting os (s : S) (tx rx : Z) :
  is_u 64 tx → is_u 64 rx →
  use os (new s tx rx) =
    let '(l, s') := use os s in
    (l, new s' (fetch_add tx (total bytes_written l)) (fetch_add rx (total bytes_read l))).
Proof.
  revert s tx rx. induction os as [|o os IH]; intros s tx rx Ht Hr; cbn [use].
  { unfold total. cbn. by rewrite !fetch_add_id. }
  rewrite poll_counting by done. cbn [inner new Counting.tx Counting.rx].
  destruct (poll o s) as [a s1]. rewrite IH by apply fetch_add_range.
  destruct (use os s1) as [l s2]. cbn. by rewrite !fetch_add_fetch_add.
Qed.

End laws.

(** ** The proxied connection of a relay *)

Section relay.
Context {S : Type} `{!AsyncWrite S Transport.read_error}.

(** The bytes an answer put in the reader's buffer. *)
Definition delivered {E} (a : answer E) : list byte :=
  match a with ARead _ before after => drop (length (filled before)) (filled after) | _ => [] end.

Lemma poll_conn (o : op) (c : Transport.TcpConn S) bs :
  Transport.residual (Transport.recv c) = Some bs → (Z.of_nat (length bs) < 2 ^ 64)%Z →
  let '(a, c') := poll o c in
  ∃ bs', bs = delivered a ++ bs' ∧ Transport.residual (Transport.recv c') = Some bs' ∧
    bytes_read a = Z.of_nat (length (delivered a)).
Proof.
  intros Hres Hlen. destruct o as [buf|data| |]; cbn [poll].
  - unfold poll_read, Transport.tcp_conn_read.
    destruct (Transport.poll_read (remaining buf) (Transport.recv c)) as [r st] eqn:Hp.
    pose proof (Transport.poll_read_stream _ _ _ _ Hp) as Hst. rewrite Hres in Hst.
    destruct r as [[|out]|[]|]; try done; cbn.
    + exists bs. by rewrite drop_all.
    + destruct Hst as (Hst & Hout & _). exists (drop (length out) bs). cbn.
      rewrite drop_app_length, length_app. split_and!; [|done|].
      * rewrite Hout at 1. by rewrite take_drop.
      * unfold usize_as_u64. apply (f_equal length) in Hout. rewrite length_take in Hout. lia.
    + exists bs. by rewrite drop_all.
  - cbn. unfold Transport.on_send. destruct (poll_write data (Transport.send c)) as [r s]. by exists bs.
  - cbn. unfold Transport.on_send. destruct (poll_flush (Transport.send c)) as [r s]. by exists bs.
  - cbn. unfold Transport.on_send. destruct (poll_shutdown (Transport.send c)) as [r s]. by exists bs.
Qed.

Lemma use_conn os (c : Transport.TcpConn S) bs :
  Transport.residual (Transport.recv c) = Some bs → (Z.of_nat (length bs) < 2 ^ 64)%Z →
  let '(l, c') := use os c in
  ∃ bs', bs = mjoin (delivered <$> l) ++ bs' ∧ Transport.residual (Transport.recv c') = Some bs' ∧
    total bytes_read l = Z.of_nat (length (mjoin (delivered <$> l))).
Proof.
  revert c bs. induction os as [|o os IH]; intros c bs Hres Hlen; cbn [use]; [by exists bs|].
  pose proof (poll_conn o c bs Hres Hlen) as Hp. destruct (poll o c) as [a c1].
  destruct Hp as (bs1 & -> & Hres1 & Hb). rewrite length_app in Hlen.
  specialize (IH c1 bs1 Hres1 ltac:(lia)). destruct (use os c1) as [l c2].
  destruct IH as (bs2 & -> & Hres2 & Hl). exists bs2. cbn [fmap list_fmap mjoin list_join].
  change (total bytes_read (a :: l)) with (bytes_read a + total bytes_read l)%Z.
  split_and!; [by rewrite app_assoc|done|]. by rewrite Hl, Hb, <-Nat2Z.inj_add, <-length_app.
Qed.

(** C19: What a relay counts is what it relays. Whatever reads, writes, flushes and
    shutdowns the relay makes on the counted connection, they answer exactly as
    the connection alone would; what its reads delivered is a prefix of the
    proxied stream, and the counters have grown by exactly the length of that
    prefix and by the bytes the writes took, modulo 2^64. *)
Theorem relay_counts os (c : Transport.TcpConn S) (tx rx : Z) bs :
  is_u 64 tx → is_u 64 rx →
  Transport.residual (Transport.recv c) = Some bs → (Z.of_nat (length bs) < 2 ^ 64)%Z →
  let '(l, c') := use os (new c tx rx) in
  (l, inner c') = use os c ∧
  ∃ rest, bs = mjoin (delivered <$> l) ++ rest ∧
    Transport.residual (Transport.recv (inner c')) = Some rest ∧
    Counting.rx c' = fetch_add rx (Z.of_nat (length (mjoin (delivered <$> l)))) ∧
    Counting.tx c' = fetch_add tx (total bytes_written l).
Proof.
  intros Ht Hr Hres Hlen. rewrite use_counting by done.
  pose proof (use_conn os c bs Hres Hlen) as Hu. destruct (use os c) as [l c'].
  destruct Hu as (rest & Hbs & Hres' & Hb). split; [done|]. exists rest. cbn. by rewrite Hb.
Qed.
End relay.

(** ** A concrete connection: an accepted request, two bytes behind it *)

#[local] Instance ex_write : AsyncWrite (list byte) Transport.read_error := {|
  poll_write data s := (Ready (Ok (length data)), s ++ data);
  poll_flush s := (Ready (Ok ()), s);
  poll_shutdown s := (Ready (Ok ()), s);
|}.
Definition ex_conn : Transport.TcpConn (list byte) :=
  {| Transport.send := []; Transport.recv := Transport.AwaitingResponse (Some []) (Transport.sample_stream x00) |}.
Definition ex_ops : list op :=
  [ORead {| filled := [x61]; remaining := 4 |}; OWrite [x62; x63]; OFlush; ORead {| filled := []; remaining := 1 |};
   ORead {| filled := []; remaining := 1 |}; OShutdown].

Lemma relay_counts_witness :
  Transport.residual (Transport.recv ex_conn) = Some [x41; x42] ∧
  (use ex_ops (new ex_conn 5 7)).2.(tx) = 7%Z ∧ (use ex_ops (new ex_conn 5 7)).2.(rx) = 9%Z.
Proof.
  assert (Hres : Transport.residual (Transport.recv ex_conn) = Some [x41; x42]) by (vm_compute; reflexivity).
  split; [exact Hres|].
  pose proof (relay_counts ex_ops ex_conn 5 7 [x41; x42]) as Hc.
  destruct (use ex_ops (new ex_conn 5 7)) as [l c'] eqn:Hu.
  destruct Hc as (Heq & rest & Hbs & _ & Hrx & Htx).
  - split; vm_compute; [intros Hx; discriminate Hx|reflexivity].
  - split; vm_compute; [intros Hx; discriminate Hx|reflexivity].
  - exact Hres.
  - vm_compute. reflexivity.
  - vm_compute in Hu. injection Hu as <- <-. split; [exact Htx|exact Hrx].
Defined.

End Counting.
