(* ===== verification/Dataplane.v ===== *)
(** * Dataplane: relaying every flow the netstack accepts

    Models [dataplane/src/lib.rs]: the limits, the shared counters, the reply
    queue, [spawn], [orchestrate]'s select loop and its teardown, the relay tasks
    with their permits, and the [Handle].

    The state of [orchestrate] holds the NAT, whose downstream holds the netstack
    ([Netstack]): the reply channel is shared by the three. An iteration of the
    loop is given the branch that was ready; the relays, the reply tasks and the
    netstack's tasks interleave with it ([step]). The counter [rx] is one cell
    shared by the reply queue's clones and the relays; it lives in the sessions'
    downstream. A poll is atomic: an aborted task is not polled again. *)
From S2P Require Import Prelude Errors Proxy Net UdpSession Netstack Session Counting.
Import Net.

(** [ReplyQueue]: the netstack's sender and the byte count. *)
Record ReplyQueue := { net : Netstack.net; rx : Z }.

#[export] Instance reply_downstream : Downstream ReplyQueue := {|
  deliver src from data q :=
    {| net := net q; rx := fetch_add (rx q) (usize_as_u64 (length data)) |};
  deliver_poll src from data q :=
    let '(polled, n) := Netstack.udp_sender_send (data, from, src) (net q) in
    (polled, {| net := n; rx := rx q |});
  down_moves _ _ := True
|}.

Module Dataplane.
Import Session.

(** ** Configuration *)

Definition GC_INTERVAL : Z := 30 * 1000000000.
Definition UDP_IDLE : Z := 5 * 60 * 1000000000.

Record Limits := {
  stack_buffer : nat;
  udp_buffer : nat;
  tcp_buffer : nat;
  max_tcp_flows : nat;
  max_udp_sessions : nat;
}.
Definition default_limits : Limits :=
  {| stack_buffer := 512; udp_buffer := 128; tcp_buffer := 128; max_tcp_flows := 256;
     max_udp_sessions := 256 |}.
Record Config := { mtu : nat; limits : Limits }.
Definition new_config (mtu : nat) : Config := {| mtu := mtu; limits := default_limits |}.

(** The netstack's part of the configuration. *)
Definition socket_config (c : Config) : Netstack.Config :=
  {| Netstack.mtu := mtu c; Netstack.stack_buffer := stack_buffer (limits c);
     Netstack.udp_buffer := udp_buffer (limits c); Netstack.tcp_buffer := tcp_buffer (limits c) |}.

Record Stats := { s_tx : Z; s_rx : Z; s_tcp_flows : Z; s_udp_sessions : Z; s_flow_errors : Z }.

Section dataplane.
Context `{Upstream U W, !EqDecision U, SocketAddrText}.

Abbreviation Sessions := (Session.Sessions (U:=U) (W:=W) (D:=ReplyQueue)).

(** Where [orchestrate] is: in its loop; joining the aborted relays; the
    infrastructure stopped; returned. *)
Inductive phase := Looping | Draining | Stopped | Ended.
#[export] Instance phase_eq_dec : EqDecision phase.
Proof. solve_decision. Defined.

(** The state of [orchestrate]: the NAT, the counters it owns, the semaphore and
    the live relays; [finished] counts those not joined yet. *)
Record orch := {
  sessions : Sessions;
  tx : Z;
  tcp_flows : Z;
  udp_sessions : Z;
  flow_errors : Z;
  permits : nat;
  relays : gmap nat SocketAddr;
  next_relay : nat;
  finished : nat;
  at_phase : phase;
}.
Abbreviation orch_m := (stm orch Empty_set).

(** [Counters::snapshot]. *)
Definition snapshot (o : orch) : Stats :=
  {| s_tx := tx o; s_rx := rx (downstream (sessions o)); s_tcp_flows := tcp_flows o;
     s_udp_sessions := udp_sessions o; s_flow_errors := flow_errors o |}.

(** [Counters::new] and the locals of [orchestrate], over the built sockets. *)
Definition init (config : Config) (n : Netstack.net) (w : W) : orch :=
  {| sessions := Session.new (max_udp_sessions (limits config)) {| net := n; rx := 0 |} w;
     tx := 0; tcp_flows := 0; udp_sessions := 0; flow_errors := 0;
     permits := max_tcp_flows (limits config); relays := ∅; next_relay := 0; finished := 0;
     at_phase := Looping |}.

Definition spawn (build_stack : Netstack.StackBuilder → outcome rstr Netstack.Built)
    (config : Config) (w : W) : outcome Errors.chain orch :=
  sockets ← Netstack.build build_stack (socket_config config); Ok (init config sockets w).

Definition set_sessions (s : Sessions) (o : orch) : orch :=
  {| sessions := s; tx := tx o; tcp_flows := tcp_flows o; udp_sessions := udp_sessions o;
     flow_errors := flow_errors o; permits := permits o; relays := relays o;
     next_relay := next_relay o; finished := finished o; at_phase := at_phase o |}.
(** [fetch_add] on [tx], [tcp_flows], [udp_sessions] and [flow_errors]. *)
Definition count_up (dtx dflows dudp derr : Z) (o : orch) : orch :=
  {| sessions := sessions o; tx := fetch_add (tx o) dtx; tcp_flows := fetch_add (tcp_flows o) dflows;
     udp_sessions := fetch_add (udp_sessions o) dudp; flow_errors := fetch_add (flow_errors o) derr;
     permits := permits o; relays := relays o; next_relay := next_relay o;
     finished := finished o; at_phase := at_phase o |}.
Definition set_relays (p : nat) (r : gmap nat SocketAddr) (n f : nat) (o : orch) : orch :=
  {| sessions := sessions o; tx := tx o; tcp_flows := tcp_flows o; udp_sessions := udp_sessions o;
     flow_errors := flow_errors o; permits := p; relays := r; next_relay := n; finished := f;
     at_phase := at_phase o |}.
Definition set_phase (p : phase) (o : orch) : orch :=
  {| sessions := sessions o; tx := tx o; tcp_flows := tcp_flows o; udp_sessions := udp_sessions o;
     flow_errors := flow_errors o; permits := permits o; relays := relays o;
     next_relay := next_relay o; finished := finished o; at_phase := p |}.

(** The netstack, where the downstream keeps it. *)
Definition stack (o : orch) : Netstack.net := net (downstream (sessions o)).
Definition set_stack (n : Netstack.net) (o : orch) : orch :=
  set_sessions (set_downstream {| net := n; rx := rx (downstream (sessions o)) |} (sessions o)) o.

(** ** The handle *)

Definition stats (o : orch) : Stats := snapshot o.

(** [trigger_shutdown] sends on the watch channel the loop and the reply tasks
    listen to; dropping the handle closes it, which wakes them too. *)
Definition signal (s : Sessions) : Sessions :=
  {| map := map s; max := max s; tasks := tasks s; next_task := next_task s;
     world := world s; downstream := downstream s; shutdown := true |}.
Definition trigger_shutdown (o : orch) : orch := set_sessions (signal (sessions o)) o.

(** [join], polled: the final counters, once the task has returned. *)
Definition join (o : orch) : Poll Stats :=
  match at_phase o with Ended => Ready (snapshot o) | _ => Pending end.

(** [run], polled: [spawn], then [join] for its result only. *)
Definition run (o : orch) : Poll () := match join o with Ready _ => Ready () | Pending => Pending end.

(** ** The loop *)

(** The branch of the select that was ready. A [None] is a closed stream. *)
Inductive input :=
| Accepted (flow : option SocketAddr)
| Inbound (datagram : option (list byte * SocketAddr * SocketAddr)) (now : Z)
| GcTick (now : Z)
| Joined
| InfraFailed
| ShutdownChanged.

(** When a branch can be ready: what the other side does is not constrained. *)
Definition ready (i : input) (o : orch) : Prop :=
  match i with
  | Joined => finished o ≠ 0
  | InfraFailed => (Netstack.failed (stack o)).1 = Ready ()
  | ShutdownChanged => shutdown (sessions o) = true
  | _ => True
  end.

(** What an iteration, or a task, did. *)
Inductive happened :=
| HFlow (admitted : bool)
| HSent (opened : bool) (len : Z)
| HDropped (opened : bool)
| HRelayEnd (ok : bool)
| HWrite (n : Z)
| HRead (n : Z)
| HReply (n : Z)
| HOther
| HBreak
| HTeardown.

Definition turn (i : input) : orch_m happened :=
  match i with
  | Accepted None | Inbound None _ | ShutdownChanged =>
    _ ← modify (set_phase Draining); mret HBreak
  | InfraFailed =>
    _ ← modify (λ o, set_stack (Netstack.failed (stack o)).2 o);
    _ ← modify (set_phase Draining); mret HBreak
  | Accepted (Some dst) =>
    _ ← modify (count_up 0 1 0 0);
    o ← gets Datatypes.id;
    match permits o with
    | O => mret (HFlow false)
    | S p =>
      _ ← modify (set_relays p (<[next_relay o := dst]> (relays o)) (S (next_relay o)) (finished o));
      mret (HFlow true)
    end
  | Inbound (Some (data, src, dst)) now =>
    r ← zoom sessions set_sessions (Session.forward src dst data now);
    match r with
    | Sent opened =>
      let len := usize_as_u64 (length data) in
      _ ← modify (count_up len 0 (Z.b2z opened) 0); mret (HSent opened len)
    | Dropped opened =>
      _ ← modify (count_up 0 0 (Z.b2z opened) 1); mret (HDropped opened)
    end
  | GcTick now =>
    _ ← modify (λ o, set_sessions (Session.reap_idle now UDP_IDLE (sessions o)) o); mret HOther
  | Joined =>
    _ ← modify (λ o, set_relays (permits o) (relays o) (next_relay o) (finished o - 1) o); mret HOther
  end.

(** ** The relays *)

(** [relay_tcp]: open the tunnel to the flow's destination, then copy both
    ways. *)
Definition relay_tcp (dst : SocketAddr) (tcp : rstr → outcome Errors.chain ()) (copy : outcome rstr ()) :
    outcome Errors.chain () :=
  _ ← Errors.wrap_err (lit "open tunnel") (tcp (addr_to_string dst));
  Errors.context (lit "relay TCP") copy.

(** A relay task's end: the error is counted, the permit dropped. *)
Definition relay_end {E} (k : nat) (r : outcome E ()) (o : orch) : orch :=
  set_relays (S (permits o)) (delete k (relays o)) (next_relay o) (S (finished o))
    (if is_ok r then o else count_up 0 0 0 1 o).

(** A byte count from a relay's [Counting]. *)
Definition add_rx (n : Z) (o : orch) : orch :=
  set_sessions (set_downstream {| net := stack o; rx := fetch_add (rx (downstream (sessions o))) n |}
    (sessions o)) o.

(** ** The teardown *)

(** An aborted relay is dropped, with its permit. *)
Definition relay_drop (k : nat) (o : orch) : orch :=
  set_relays (S (permits o)) (delete k (relays o)) (next_relay o) (S (finished o)) o.

(** The statements after the loop, up to the next await that is over. *)
Inductive teardown : orch → orch → Prop :=
| teardown_relay k o :
    at_phase o = Draining → is_Some (relays o !! k) → teardown o (relay_drop k o)
| teardown_join o :
    at_phase o = Draining → finished o ≠ 0 →
    teardown o (set_relays (permits o) (relays o) (next_relay o) (finished o - 1) o)
| teardown_infra o :
    at_phase o = Draining → relays o = ∅ → finished o = 0 →
    teardown o (set_phase Stopped (set_stack (Netstack.shutdown (stack o)) o))
| teardown_return o :
    at_phase o = Stopped → teardown o (set_phase Ended (set_sessions (Session.drop (sessions o)) o)).

(** ** Runs *)

(** What a step shows: what was counted, the NAT's events and the netstack's. *)
Record label := {
  did : happened;
  nat_events : list (Session.event (U:=U));
  net_events : list (Netstack.input * Netstack.event);
}.
Definition quiet (h : happened) : label := {| did := h; nat_events := []; net_events := [] |}.

(** The netstack's own tasks. *)
Definition infra_turn (i : Netstack.input) : Prop :=
  match i with
  | Netstack.DeviceRecv _ _ | Netstack.StackNext _ _ | Netstack.WriterTurn _ | Netstack.RunnerDone => True
  | _ => False
  end.

(** The NAT events of an iteration, and what a reply task's turn did. *)
Definition opened_by (i : input) (o o' : orch) : list (Session.event (U:=U)) :=
  match i with
  | Inbound (Some (_, src, _)) _ => opened_in src (sessions o) (sessions o')
  | _ => []
  end.
Definition polled_infra (i : input) : list (Netstack.input * Netstack.event) :=
  match i with InfraFailed => [(Netstack.PollFailed, Netstack.SomeEnded)] | _ => [] end.
Definition stopped_infra (o' : orch) : list (Netstack.input * Netstack.event) :=
  match at_phase o' with Stopped => [(Netstack.Shutdown, Netstack.Idle)] | _ => [] end.
Definition counted_reply (p : progress) : happened :=
  match p with Received _ data => HReply (usize_as_u64 (length data)) | _ => HOther end.
Definition sent_reply (t : reply_task (U:=U)) (p : progress) :
    list (Netstack.input * Netstack.event) :=
  match p with
  | Delivered from data =>
    [(Netstack.SenderSend (data, from, t_src t), Netstack.Queued (data, from, t_src t))]
  | _ => []
  end.

Inductive step : orch → label → orch → Prop :=
| step_turn i h o o' :
    at_phase o = Looping → ready i o → turn i o = (Ok h, o') →
    step o {| did := h; nat_events := opened_by i o o'; net_events := polled_infra i |} o'
| step_relay_end k dst tcp copy o :
    at_phase o = Looping → relays o !! k = Some dst →
    step o (quiet (HRelayEnd (is_ok (relay_tcp dst tcp copy)))) (relay_end k (relay_tcp dst tcp copy) o)
| step_relay_write k n o :
    at_phase o = Looping → is_Some (relays o !! k) →
    step o (quiet (HWrite (usize_as_u64 n))) (count_up (usize_as_u64 n) 0 0 0 o)
| step_relay_read k n o :
    at_phase o = Looping → is_Some (relays o !! k) →
    step o (quiet (HRead (usize_as_u64 n))) (add_rx (usize_as_u64 n) o)
| step_teardown o o' :
    teardown o o' →
    step o {| did := HTeardown; nat_events := []; net_events := stopped_infra o' |} o'
| step_reply k t p s' o :
    tasks (sessions o) !! k = Some t → aborted t = false →
    recv_turn k t (sessions o) = (Ok p, s') →
    step o {| did := counted_reply p; nat_events := progress_event t p; net_events := sent_reply t p |}
      (set_sessions s' o)
| step_task_end k t o :
    tasks (sessions o) !! k = Some t →
    shutdown (sessions o) = true ∧ sending t = None ∨ aborted t = true →
    step o (quiet HOther) (set_sessions (end_task k (sessions o)) o)
| step_signal o : step o (quiet HOther) (trigger_shutdown o)
| step_infra i e n' o :
    infra_turn i → Netstack.step (stack o) (i, e) n' →
    step o {| did := HOther; nat_events := []; net_events := [(i, e)] |} (set_stack n' o)
| step_below w' o :
    up_moves (world (sessions o)) w' →
    step o (quiet HOther) (set_sessions (set_world w' (sessions o)) o).

Inductive runs (o0 : orch) : list label → orch → Prop :=
| runs_nil : runs o0 [] o0
| runs_snoc ls o l o' : runs o0 ls o → step o l o' → runs o0 (ls ++ [l]) o'.

(** ** A run of the tunnel is one of the NAT and one of the netstack *)

Definition nat_trace (ls : list label) : list (Session.event (U:=U)) := ls ≫= nat_events.
Definition net_trace (ls : list label) : list (Netstack.input * Netstack.event) := ls ≫= net_events.

Lemma trace_snoc {A} (f : label → list A) ls l : (ls ++ [l]) ≫= f = (ls ≫= f) ++ f l.
Proof. rewrite bind_app. cbn. by rewrite app_nil_r. Qed.

(** Zero or one step of the NAT. *)
Lemma nat_more s0 es s es' s' :
  Session.runs s0 es s → (es' = [] ∧ s' = s) ∨ Session.step s es' s' → Session.runs s0 (es ++ es') s'.
Proof. intros Hr [[-> ->]|Hs]; [by rewrite app_nil_r|by eapply Session.runs_snoc]. Qed.

Lemma net_more n0 es n es' n' :
  Netstack.runs n0 es n → (es' = [] ∧ n' = n) ∨ (∃ h, es' = [h] ∧ Netstack.step n h n') →
  Netstack.runs n0 (es ++ es') n'.
Proof. intros Hr [[-> ->]|(h & -> & Hs)]; [by rewrite app_nil_r|by eapply Netstack.runs_snoc]. Qed.

(** What each iteration does to the NAT. *)
Lemma turn_nat i h o o' :
  turn i o = (Ok h, o') →
  (opened_by i o o' = [] ∧ sessions o' = sessions o) ∨
  Session.step (sessions o) (opened_by i o o') (sessions o').
Proof.
  intros Ht. destruct i as [[dst|]|[[[data src] dst]|] now|now| | |]; cbn [turn opened_by] in *;
    try (injection Ht as <- <-; by left).
  - left. split; [done|]. revert Ht. unfold mbind, stm_bind, modify, gets. cbn.
    destruct (permits o); by intros [= <- <-].
  - right. unfold mbind, stm_bind, zoom in Ht.
    destruct (forward src dst data now (sessions o)) as [[r|x|] s'] eqn:Hf; [|done..].
    assert (Hs : sessions o' = s') by (destruct r; by injection Ht as <- <-).
    rewrite Hs. by eapply step_forward.
  - right. injection Ht as <- <-. apply step_reap.
  - right. injection Ht as <- <-. by apply Session.step_downstream.
Qed.

Lemma step_nat s0 es o l o' :
  Session.runs s0 es (sessions o) → step o l o' → Session.runs s0 (es ++ nat_events l) (sessions o').
Proof.
  intros Hr Hs. apply (nat_more _ _ _ _ _ Hr). destruct Hs as
    [i h o o' _ _ Ht|k dst tcp copy o _ _|k n o _ _|k n o _ _|o o' Ht|k t p s' o Hk Hab Hp
    |k t o Hk Hc|o|i e n' o _ _|w' o Hw]; cbn [nat_events quiet].
  - by apply turn_nat with h.
  - left. split; [done|]. unfold relay_end. by destruct (is_ok _).
  - by left.
  - right. by apply Session.step_downstream.
  - destruct Ht as [k o _ _|o _ _|o _ _ _|o _]; [by left..| |]; right.
    + by apply Session.step_downstream.
    + apply step_drop.
  - right. by eapply step_recv.
  - right. by eapply step_stop.
  - right. apply step_shutdown.
  - right. by apply Session.step_downstream.
  - right. by apply step_world.
Qed.

(** Only a reply's delivery and the netstack's own tasks touch the netstack. *)
Lemma recv_net k t p s' (s : Sessions) :
  Netstack.senders (net (downstream s)) = true → recv_turn k t s = (Ok p, s') →
  (sent_reply t p = [] ∧ net (downstream s') = net (downstream s)) ∨
  ∃ h, sent_reply t p = [h] ∧ Netstack.step (net (downstream s)) h (net (downstream s')).
Proof.
  intros Hsn Hr. destruct (wp_run _ _ _ _ _ (wp_recv_turn k t s) Hr) as (_ & _ & Hd).
  specialize (Hd p eq_refl). destruct p as [|from data|from data]; cbn [delivery sent_reply] in *.
  - left. split; [done|]. destruct Hd as [->|(from & data & _ & q & Hq & Hne)]; [done|].
    revert Hq. cbn. unfold Netstack.udp_sender_send. repeat case_decide; intros [= <- <-]; done.
  - left. destruct Hd as [_ ->]. done.
  - right. destruct Hd as [_ Hq]. eexists. split; [done|]. apply Netstack.step_turn; [done|].
    revert Hq. cbn. unfold mbind, stm_bind, gets, modify. cbn.
    destruct (Netstack.udp_sender_send _ _) as [q n']. by intros [= -> <-].
Qed.

Lemma turn_net i h o o' :
  ready i o → turn i o = (Ok h, o') →
  (polled_infra i = [] ∧ stack o' = stack o) ∨
  ∃ h, polled_infra i = [h] ∧ Netstack.step (stack o) h (stack o').
Proof.
  intros Hrd Ht. destruct i as [[dst|]|[[[data src] dst]|] now|now| | |]; cbn [turn polled_infra ready] in *;
    try (injection Ht as <- <-; by left).
  - left. split; [done|]. revert Ht. unfold mbind, stm_bind, modify, gets. cbn.
    destruct (permits o); by intros [= <- <-].
  - left. split; [done|]. unfold mbind, stm_bind, zoom in Ht.
    destruct (forward src dst data now (sessions o)) as [[r|x|] s'] eqn:Hf; [|done..].
    destruct (wp_run _ _ _ _ _ (wp_forward_steady src dst data now (sessions o)) Hf) as [_ Hd].
    destruct r; injection Ht as <- <-; unfold stack; cbn; by rewrite Hd.
  - left. split; [done|]. injection Ht as <- <-. unfold stack. cbn. unfold reap_idle.
    by destruct (steady_foldl (idle_keys (Session.map (sessions o)) now UDP_IDLE) (sessions o)) as [_ ->].
  - right. eexists. split; [done|]. injection Ht as <- <-. apply Netstack.step_turn; [done|].
    unfold stack in *. cbn. unfold mbind, stm_bind, gets, modify. cbn.
    destruct (Netstack.failed (net (downstream (sessions o)))) as [q n]. cbn in Hrd. by rewrite Hrd.
Qed.

Definition keeps_senders (hs : list (Netstack.input * Netstack.event)) : Prop :=
  Forall (λ h, h.1 ≠ Netstack.DropSenders) hs.

Lemma step_stack o l o' :
  Netstack.senders (stack o) = true → step o l o' →
  ((net_events l = [] ∧ stack o' = stack o) ∨
   ∃ h, net_events l = [h] ∧ Netstack.step (stack o) h (stack o')) ∧ keeps_senders (net_events l).
Proof.
  unfold keeps_senders. intros Hsn Hs. destruct Hs as
    [i h o o' _ Hrd Ht|k dst tcp copy o _ _|k n o _ _|k n o _ _|o o' Ht|k t p s' o Hk Hab Hp
    |k t o Hk Hc|o|i e n' o Hi Hst|w' o Hw]; cbn [net_events quiet].
  - split; [by apply turn_net with h|]. destruct i; cbn; repeat constructor; done.
  - split; [|done]. left. split; [done|]. unfold relay_end. by destruct (is_ok _).
  - split; [by left|done].
  - split; [by left|done].
  - unfold stopped_infra. destruct Ht as [k o Hp _|o Hp _|o Hp _ _|o Hp]; cbn; rewrite ?Hp;
      try (split; [by left|done]).
    + split; [|by repeat constructor]. right. eexists. split; [done|]. by apply Netstack.step_turn.
    + split; [|done]. left. split; [done|]. unfold stack. cbn. unfold Session.drop.
      by destruct (steady_foldl (map_to_list (Session.map (sessions o))).*1 (sessions o)) as [_ ->].
  - split; [by apply (recv_net k)|]. by destruct p; repeat constructor.
  - split; [|done]. left. split; [done|]. unfold stack. cbn.
    by destruct (steady_end_task k (sessions o)) as [_ ->].
  - split; [by left|done].
  - split; [right; eexists; by split|]. destruct i; by repeat constructor.
  - split; [by left|done].
Qed.

Lemma step_net n0 es o l o' :
  Netstack.senders (stack o) = true → Netstack.runs n0 es (stack o) → step o l o' →
  Netstack.runs n0 (es ++ net_events l) (stack o') ∧ Netstack.senders (stack o') = true.
Proof.
  intros Hsn Hr Hs. destruct (step_stack _ _ _ Hsn Hs) as [Hm Hd].
  split; [by apply (net_more _ _ _ _ _ Hr)|].
  destruct Hm as [[_ ->]|(h & Hh & Hst)]; [done|]. destruct (Netstack.step_moved _ _ _ Hst) as [Hmv _].
  rewrite Hh in Hd. unfold keeps_senders in Hd. apply Forall_inv in Hd.
  destruct (Netstack.m_senders _ _ _ _ Hmv) as [Heq|Heq].
  2:{ by rewrite Heq. }
  by destruct (Hd Heq).
Qed.

(** The replies the NAT delivered are those the reply channel accepted. *)
Definition reply_of (e : Session.event (U:=U)) : option Netstack.Reply :=
  match e with EReply _ src from data => Some (data, from, src) | _ => None end.

Lemma step_replies o l o' :
  step o l o' → omap Netstack.queued (net_events l) = omap reply_of (nat_events l).
Proof.
  destruct 1 as
    [i h o o' _ Hrd Ht|k dst tcp copy o _ _|k n o _ _|k n o _ _|o o' Ht|k t p s' o Hk Hab Hp
    |k t o Hk Hc|o|i e n' o Hi Hst|w' o Hw]; cbn [net_events nat_events quiet]; try done.
  - destruct i as [[dst|]|[[[data src] dst]|] now|now| | |]; try done. cbn. unfold opened_in. by repeat case_match.
  - unfold stopped_infra. by destruct (at_phase o').
  - by destruct p.
  - cbn. destruct (Netstack.step_moved _ _ _ Hst) as [Hmv _].
    destruct (Netstack.queued (i, e)) as [r|] eqn:Hq; [|done].
    pose proof (Netstack.m_queued _ _ _ _ Hmv r Hq) as Hsi. cbn in Hsi. by rewrite Hsi in Hi.
Qed.

(** The tunnel refines the NAT and the netstack: any run of the tunnel is, seen
    from the sessions, a run of the NAT and, seen from the packets, a run of the
    netstack; and the replies the one delivered are, in order, the replies the
    other accepted. *)
Lemma tunnel_runs c n0 w ls o :
  Netstack.senders n0 = true → runs (init c n0 w) ls o →
  Session.runs (Session.new (max_udp_sessions (limits c)) {| net := n0; rx := 0 |} w) (nat_trace ls) (sessions o) ∧
  Netstack.runs n0 (net_trace ls) (stack o) ∧ Netstack.senders (stack o) = true ∧
  omap Netstack.queued (net_trace ls) = omap reply_of (nat_trace ls).
Proof.
  intros Hsn. induction 1 as [|ls o l o' Hr (IHs & IHn & IHsn & IHq) Hs].
  { split_and!; [apply Session.runs_nil|apply Netstack.runs_nil|done..]. }
  unfold nat_trace, net_trace in *. rewrite !trace_snoc, !omap_app, IHq, (step_replies _ _ _ Hs).
  destruct (step_net _ _ _ _ _ IHsn IHn Hs) as [Hn Hsn'].
  split_and!; [by eapply step_nat|done..].
Qed.

(** ** Accounting *)

Definition tally (f : happened → Z) (ls : list label) : Z := foldr (λ l z, (f (did l) + z)%Z) 0%Z ls.

Definition tx_of (h : happened) : Z := match h with HSent _ n | HWrite n => n | _ => 0 end.
Definition rx_of (h : happened) : Z := match h with HRead n | HReply n => n | _ => 0 end.
Definition flow_of (h : happened) : Z := match h with HFlow _ => 1 | _ => 0 end.
Definition session_of (h : happened) : Z :=
  match h with HSent opened _ | HDropped opened => Z.b2z opened | _ => 0 end.
Definition error_of (h : happened) : Z := match h with HDropped _ | HRelayEnd false => 1 | _ => 0 end.

Definition totals (ls : list label) : Stats :=
  {| s_tx := wrap 64 (tally tx_of ls); s_rx := wrap 64 (tally rx_of ls);
     s_tcp_flows := wrap 64 (tally flow_of ls); s_udp_sessions := wrap 64 (tally session_of ls);
     s_flow_errors := wrap 64 (tally error_of ls) |}.

(** Counters after one more event. *)
Definition add_event (h : happened) (s : Stats) : Stats :=
  {| s_tx := fetch_add (s_tx s) (tx_of h); s_rx := fetch_add (s_rx s) (rx_of h);
     s_tcp_flows := fetch_add (s_tcp_flows s) (flow_of h);
     s_udp_sessions := fetch_add (s_udp_sessions s) (session_of h);
     s_flow_errors := fetch_add (s_flow_errors s) (error_of h) |}.

Lemma tally_snoc f ls l : tally f (ls ++ [l]) = (tally f ls + f (did l))%Z.
Proof. unfold tally. induction ls as [|x ls IH]; cbn; lia. Qed.

Lemma fetch_add_wrap a n : fetch_add (wrap 64 a) n = wrap 64 (a + n).
Proof. unfold fetch_add, wrap. by rewrite Z.add_mod_idemp_l. Qed.

Lemma totals_snoc ls l : totals (ls ++ [l]) = add_event (did l) (totals ls).
Proof. unfold totals, add_event. cbn. by rewrite !tally_snoc, !fetch_add_wrap. Qed.

(** Every counter holds a [u64]. *)
Definition in_range (s : Stats) : Prop :=
  is_u 64 (s_tx s) ∧ is_u 64 (s_rx s) ∧ is_u 64 (s_tcp_flows s) ∧ is_u 64 (s_udp_sessions s) ∧
  is_u 64 (s_flow_errors s).

Lemma add_event_range h s : in_range (add_event h s).
Proof. split_and!; apply Counting.fetch_add_range. Qed.

(** An event that counts nothing. *)
Lemma add_event_idle h s :
  in_range s → tx_of h = 0%Z → rx_of h = 0%Z → flow_of h = 0%Z → session_of h = 0%Z → error_of h = 0%Z →
  add_event h s = s.
Proof.
  unfold add_event. intros (Ht & Hr & Hf & Hu & He) -> -> -> -> ->.
  rewrite !Counting.fetch_add_id by done. by destruct s.
Qed.

(** Equal counters: the ones an event leaves alone are themselves. *)
Ltac counts :=
  match goal with Hr : in_range _ |- _ =>
    destruct Hr as (?Ht & ?Hr & ?Hf & ?Hu & ?He); unfold add_event, snapshot; cbn in *;
    rewrite ?Counting.fetch_add_id by done; try done
  end.

Lemma turn_counts i h o o' :
  in_range (snapshot o) → turn i o = (Ok h, o') → snapshot o' = add_event h (snapshot o).
Proof.
  intros Hrg Ht. destruct i as [[dst|]|[[[data src] dst]|] now|now| | |]; cbn [turn] in Ht;
    try (injection Ht as <- <-; by rewrite add_event_idle).
  - revert Ht. unfold mbind, stm_bind, modify, gets. cbn.
    destruct (permits o); intros [= <- <-]; counts.
  - unfold mbind, stm_bind, zoom in Ht.
    destruct (forward src dst data now (sessions o)) as [[r|x|] s'] eqn:Hf; [|done..].
    destruct (wp_run _ _ _ _ _ (wp_forward_steady src dst data now (sessions o)) Hf) as [_ Hd].
    destruct r as [op|op]; injection Ht as <- <-; counts; by rewrite Hd.
  - injection Ht as <- <-. rewrite add_event_idle by done. unfold snapshot. cbn. unfold reap_idle.
    by destruct (steady_foldl (idle_keys (Session.map (sessions o)) now UDP_IDLE) (sessions o)) as [_ ->].
Qed.

Lemma step_counts o l o' :
  in_range (snapshot o) → step o l o' → snapshot o' = add_event (did l) (snapshot o).
Proof.
  intros Hr Hs. destruct Hs as
    [i h o o' _ _ Ht|k dst tcp copy o _ _|k n o _ _|k n o _ _|o o' Ht|k t p s' o _ _ Hp
    |k t o _ _|o|i e n' o _ _|w' o _]; cbn [did quiet].
  - by eapply turn_counts.
  - unfold relay_end. destruct (is_ok _); [by rewrite add_event_idle|]. counts.
  - counts.
  - counts.
  - rewrite add_event_idle by done. destruct Ht as [k o _ _|o _ _|o _ _ _|o _]; try done.
    unfold snapshot. cbn. unfold Session.drop.
    by destruct (steady_foldl (map_to_list (Session.map (sessions o))).*1 (sessions o)) as [_ ->].
  - destruct (wp_run _ _ _ _ _ (wp_recv_turn k t (sessions o)) Hp) as (_ & _ & Hd). specialize (Hd p eq_refl).
    destruct p as [|from data|from data]; cbn [delivery counted_reply] in *.
    + rewrite add_event_idle by done. unfold snapshot. cbn.
      destruct Hd as [->|(from & data & _ & q & Hq & _)]; [done|]. revert Hq. cbn.
      destruct (Netstack.udp_sender_send _ _) as [q' n']. by intros [= _ <-].
    + destruct Hd as [_ Hd]. counts. by rewrite Hd.
    + rewrite add_event_idle by done. unfold snapshot. cbn. destruct Hd as [_ Hq]. revert Hq. cbn.
      destruct (Netstack.udp_sender_send _ _) as [q' n']. by intros [= _ <-].
  - rewrite add_event_idle by done. unfold snapshot. cbn. by destruct (steady_end_task k (sessions o)) as [_ ->].
  - by rewrite add_event_idle.
  - by rewrite add_event_idle.
  - by rewrite add_event_idle.
Qed.

Lemma runs_counts o0 ls o :
  in_range (snapshot o0) → snapshot o0 = totals [] → runs o0 ls o →
  in_range (snapshot o) ∧ snapshot o = totals ls.
Proof.
  intros Hr H0'. induction 1 as [|ls o l o' Hrun (IHr & IHs) Hs]; [done|].
  rewrite (step_counts _ _ _ IHr Hs), totals_snoc, IHs. split; [apply add_event_range|done].
Qed.

(** ** The relays and the permits *)

Record oinv (c : Config) (o : orch) : Prop := {
  oi_permits : permits o + base.size (relays o) = max_tcp_flows (limits c);
  oi_next : ∀ k, is_Some (relays o !! k) → k < next_relay o;
  oi_phase : match at_phase o with
             | Looping | Draining => True
             | Stopped => relays o = ∅ ∧ finished o = 0
             | Ended => relays o = ∅ ∧ finished o = 0 ∧ Session.map (sessions o) = ∅
             end;
}.

Lemma oinv_init c n w : oinv c (init c n w).
Proof. split; cbn; [done| |done]. intros k [x Hx]. by rewrite lookup_empty in Hx. Qed.

(** What leaves the relays alone. *)
Lemma oinv_same c o o' :
  oinv c o → permits o' = permits o → relays o' = relays o → next_relay o' = next_relay o →
  (at_phase o' = at_phase o ∧ finished o' = finished o ∧
     (at_phase o = Ended → Session.map (sessions o') = Session.map (sessions o)) ∨
   at_phase o' = Draining ∨ at_phase o' = at_phase o ∧ at_phase o = Draining) →
  oinv c o'.
Proof.
  intros [Hp Hn Hph] He Hr Hx Hc. split; rewrite ?He, ?Hr, ?Hx; [done..|].
  destruct Hc as [(-> & -> & Hm)|[->|[-> ->]]]; [|done..].
  destruct (at_phase o); try done. by rewrite (Hm eq_refl).
Qed.

(** A relay ends, by itself or aborted. *)
Lemma oinv_relay_gone c o k o' :
  oinv c o → is_Some (relays o !! k) → at_phase o' = at_phase o → permits o' = S (permits o) →
  relays o' = delete k (relays o) → next_relay o' = next_relay o → oinv c o'.
Proof.
  intros [Hp Hn Hph] [x Hk] Ha He Hr Hx. split; rewrite ?Ha, ?He, ?Hr, ?Hx.
  - rewrite map_size_delete, Hk. cbn.
    assert (base.size (relays o) ≠ 0) by (intros Hz%map_size_empty_inv; by rewrite Hz, lookup_empty in Hk). lia.
  - intros k' [y [_ Hy]%lookup_delete_Some]. eauto.
  - destruct (at_phase o); try done; destruct Hph as [Hemp _]; by rewrite Hemp, lookup_empty in Hk.
Qed.

Lemma turn_oinv c i h o o' :
  oinv c o → at_phase o = Looping → turn i o = (Ok h, o') → oinv c o'.
Proof.
  intros Hi Hph Ht.
  assert (Hloop : ∀ o2, permits o2 = permits o → relays o2 = relays o → next_relay o2 = next_relay o →
    at_phase o2 = Looping ∨ at_phase o2 = Draining → oinv c o2).
  { intros o2 He Hr Hx Ha. destruct Hi as [Hp Hn _]. split; rewrite ?He, ?Hr, ?Hx; [done..|].
    by destruct Ha as [-> | ->]. }
  destruct i as [[dst|]|[[[data src] dst]|] now|now| | |]; cbn [turn] in Ht;
    try (injection Ht as <- <-; apply Hloop; auto; done).
  - revert Ht. unfold mbind, stm_bind, modify, gets. cbn. destruct (permits o) as [|p] eqn:Hpm.
    + intros [= <- <-]. apply Hloop; auto.
    + intros [= <- <-]. destruct Hi as [Hp Hn _]. split; cbn; [| |by rewrite Hph].
      * rewrite map_size_insert. destruct (relays o !! next_relay o) as [x|] eqn:Hx; cbn; [|lia].
        assert (next_relay o < next_relay o) by (apply Hn; eauto). lia.
      * intros k [x [[<- _]|[Hne Hx]]%lookup_insert_Some]; [lia|].
        assert (k < next_relay o) by (apply Hn; eauto). lia.
  - unfold mbind, stm_bind, zoom in Ht.
    destruct (forward src dst data now (sessions o)) as [[r|x|] s'] eqn:Hf; [|done..].
    destruct r; injection Ht as <- <-; apply Hloop; auto.
Qed.

Lemma step_oinv c o l o' : oinv c o → step o l o' → oinv c o'.
Proof.
  intros Hi Hs. destruct Hs as
    [i h o o' Hph _ Ht|k dst tcp copy o Hph Hk|k n o _ _|k n o _ _|o o' Ht|k t p s' o _ _ Hp
    |k t o _ _|o|i e n' o _ _|w' o _].
  - by eapply turn_oinv.
  - unfold relay_end. eapply oinv_relay_gone; [exact Hi|by exists dst|..]; by destruct (is_ok _).
  - by apply (oinv_same c o); auto.
  - by apply (oinv_same c o); auto.
  - destruct Ht as [k o Hph Hk|o Hph _|o Hph Hr Hf|o Hph].
    + by eapply oinv_relay_gone.
    + apply (oinv_same c o); auto.
    + destruct Hi as [Hp Hn _]. by split.
    + destruct Hi as [Hp Hn Hst]. rewrite Hph in Hst. destruct Hst as [Hr Hf]. split; [done..|]. cbn.
      by rewrite drop_map.
  - destruct (wp_run _ _ _ _ _ (wp_recv_turn k t (sessions o)) Hp) as (_ & Hm & _).
    apply (oinv_same c o); auto.
  - apply (oinv_same c o); auto. left. split_and!; [done..|]. intros _. apply end_task_map.
  - by apply (oinv_same c o); auto.
  - by apply (oinv_same c o); auto.
  - by apply (oinv_same c o); auto.
Qed.

Lemma runs_oinv c o0 ls o : oinv c o0 → runs o0 ls o → oinv c o.
Proof. intros Hi. induction 1; [done|by eapply step_oinv]. Qed.

(** ** The properties *)

Lemma spawn_init build_stack c w o0 :
  spawn build_stack c w = Ok o0 →
  ∃ n0, Netstack.build build_stack (socket_config c) = Ok n0 ∧ o0 = init c n0 w ∧
    Netstack.senders n0 = true.
Proof.
  unfold spawn. intros Hs. apply bind_ok_inv in Hs as (n0 & Hn & [= <-]). exists n0. split_and!; [done..|].
  unfold Netstack.build in Hn. apply bind_ok_inv in Hn as (b & _ & Hn). repeat case_match; try done.
  by injection Hn as <-.
Qed.

Lemma init_counts c n w : in_range (snapshot (init c n w)) ∧ snapshot (init c n w) = totals [].
Proof. split; [|done]. unfold in_range, is_u. cbn. lia. Qed.

(** Once the task has returned: no relay runs, the table is empty, and the reply
    tasks that are left are aborted. *)
Lemma ended_clean c n w ls o :
  Netstack.senders n = true → runs (init c n w) ls o → at_phase o = Ended →
  relays o = ∅ ∧ Session.map (sessions o) = ∅ ∧ ∀ k t, tasks (sessions o) !! k = Some t → aborted t = true.
Proof.
  intros Hsn Hr Hend. destruct (tunnel_runs _ _ _ _ _ Hsn Hr) as (Hs & _).
  destruct (nat_runs_safe _ _ _ _ _ Hs) as [_ Hown].
  destruct (runs_oinv c _ _ _ (oinv_init c n w) Hr) as [_ _ Hph].
  rewrite Hend in Hph. destruct Hph as (Hrl & _ & Hmap). split_and!; [done..|]. intros k t Hk.
  destruct (aborted t) eqn:Ha; [done|]. destruct (Hown k t Hk Ha) as (e & He & _).
  by rewrite Hmap, lookup_empty in He.
Qed.

(** C13: The tunnel, in every interleaving of the select loop, the relays, the reply
    tasks, the netstack's tasks and the teardown: never more relays than the
    flow cap, nor more UDP sessions than the session cap, nor more than 256
    replies queued; every counter is the sum of what happened, modulo the width
    of its atomic (bytes each way, accepted flows, opened sessions, failed
    relays and dropped datagrams); once the task has returned no relay runs, the
    table is empty and every reply task left is aborted. *)
Theorem dataplane_safe build_stack c w o0 ls o :
  spawn build_stack c w = Ok o0 → runs o0 ls o →
  base.size (relays o) ≤ max_tcp_flows (limits c) ∧
  base.size (Session.map (sessions o)) ≤ max_udp_sessions (limits c) ∧
  length (Netstack.queue (stack o)) ≤ Netstack.REPLY_CHANNEL ∧
  snapshot o = totals ls ∧
  (at_phase o = Ended → relays o = ∅ ∧ Session.map (sessions o) = ∅ ∧
     ∀ k t, tasks (sessions o) !! k = Some t → aborted t = true).
Proof.
  intros Hsp Hr. destruct (spawn_init _ _ _ _ Hsp) as (n0 & Hb & -> & Hsn).
  destruct (tunnel_runs _ _ _ _ _ Hsn Hr) as (Hs & Hn & _ & _).
  destruct (nat_runs_safe _ _ _ _ _ Hs) as [Hsize _].
  destruct (runs_oinv c _ _ _ (oinv_init c n0 w) Hr) as [Hp _ _].
  destruct (init_counts c n0 w) as [Hrg Hz].
  split_and!; [lia|done|apply (Netstack.net_runs_inv _ _ _ _ _ Hb Hn)|by apply (runs_counts _ _ _ Hrg Hz Hr)|].
  by eapply ended_clean.
Qed.


(** A flow accepted at the cap is closed at once, yet it counts as a flow opened
    and not as a flow that failed. *)
Theorem refused_flow_counts_as_opened dst o :
  permits o = 0 → is_u 64 (flow_errors o) →
  ∃ o', turn (Accepted (Some dst)) o = (Ok (HFlow false), o') ∧ relays o' = relays o ∧
    s_tcp_flows (snapshot o') = fetch_add (s_tcp_flows (snapshot o)) 1 ∧
    s_flow_errors (snapshot o') = s_flow_errors (snapshot o).
Proof.
  intros Hp He. exists (count_up 0 1 0 0 o). split; [|split_and!; [done..|by apply Counting.fetch_add_id]].
  unfold turn, mbind, stm_bind, modify, gets. cbn. by rewrite Hp.
Qed.

(** ** Shutdown *)

(** The statements left to run once the loop has been left. *)
Definition work (o : orch) : nat :=
  match at_phase o with
  | Looping | Draining => 2 * base.size (relays o) + finished o + 2
  | Stopped => 1
  | Ended => 0
  end.
Definition torn (l : label) : nat := match did l with HTeardown => 1 | _ => 0 end.
Definition teardowns (ls : list label) : nat := sum_list (torn <$> ls).

Lemma teardown_work c o o' : oinv c o → teardown o o' → work o = S (work o') ∧ at_phase o' ≠ Looping.
Proof.
  intros Hi Ht. unfold work. destruct Ht as [k o Hph [x Hk]|o Hph Hf|o Hph Hr Hf|o Hph]; cbn; rewrite Hph.
  - split; [|done]. rewrite map_size_delete, Hk. cbn.
    assert (base.size (relays o) ≠ 0) by (intros Hz%map_size_empty_inv; by rewrite Hz, lookup_empty in Hk). lia.
  - split; [|done]. lia.
  - by rewrite Hr, Hf, map_size_empty.
  - done.
Qed.

Lemma step_work c o l o' :
  oinv c o → at_phase o ≠ Looping → step o l o' →
  work o = torn l + work o' ∧ at_phase o' ≠ Looping.
Proof.
  intros Hi Hph Hs. destruct Hs as
    [i h o o' Hl _ Ht|k dst tcp copy o Hl Hk|k n o Hl _|k n o Hl _|o o' Ht|k t p s' o _ _ Hp
    |k t o _ _|o|i e n' o _ _|w' o _]; try done.
  - by apply (teardown_work c).
  - by destruct p.
Qed.

(** The teardown is never stuck. *)
Lemma teardown_enabled c o :
  oinv c o → at_phase o = Draining ∨ at_phase o = Stopped → ∃ o', teardown o o'.
Proof.
  intros Hi [Hd|Hst]; [|eexists; by apply (teardown_return o)].
  destruct (decide (finished o = 0)) as [Hf|Hf]; [|eexists; by apply (teardown_join o)].
  destruct (decide (relays o = ∅)) as [Hr|Hr]; [eexists; by apply (teardown_infra o)|].
  apply map_choose in Hr as (k & x & Hk). eexists. apply (teardown_relay k o); eauto.
Qed.

Lemma snapshot_final c o l o' :
  oinv c o → in_range (snapshot o) → (∀ k t, tasks (sessions o) !! k = Some t → aborted t = true) →
  at_phase o = Ended → step o l o' →
  snapshot o' = snapshot o ∧ at_phase o' = Ended ∧
  (∀ k t, tasks (sessions o') !! k = Some t → aborted t = true).
Proof.
  intros Hi Hr Hab Hend Hs. rewrite (step_counts _ _ _ Hr Hs). destruct Hs as
    [i h o o' Hl _ Ht|k dst tcp copy o Hl Hk|k n o Hl _|k n o Hl _|o o' Ht|k t p s' o Hk Hna Hp
    |k t o Hk _|o|i e n' o _ _|w' o _]; try congruence;
    try (split; [by rewrite add_event_idle|by split]).
  - by destruct Ht; congruence.
  - by rewrite (Hab k t Hk) in Hna.
  - split; [by rewrite add_event_idle|]. split; [done|]. intros k' t'. cbn. unfold end_task. rewrite Hk.
    destruct (release_same (t_conn t) (Session.set_tasks (delete k) (sessions o))) as [(_ & -> & _) _]. cbn.
    intros [_ Hk']%lookup_delete_Some. by eapply Hab.
Qed.

(** What ends the tunnel: a stream of the netstack that closes, one of its tasks
    that ended (or none left), the shutdown signal. *)
Definition ends_loop (i : input) (o : orch) : Prop :=
  match i with
  | Accepted None | Inbound None _ => True
  | InfraFailed => Netstack.finished (stack o) ≠ 0 ∨ Netstack.running (stack o) = ∅
  | ShutdownChanged => shutdown (sessions o) = true
  | _ => False
  end.

Lemma failed_ready n :
  (Netstack.failed n).1 = Ready () ↔ Netstack.finished n ≠ 0 ∨ Netstack.running n = ∅.
Proof.
  unfold Netstack.failed. destruct (Netstack.finished n); [|split; [by left|done]].
  case_decide as Hr; cbn; split; try done; [by right|by intros [|]].
Qed.

(** An ending is taken: its branch is ready and leaves the loop. *)
Lemma ending_leaves i o :
  at_phase o = Looping → ends_loop i o →
  ∃ o', step o {| did := HBreak; nat_events := []; net_events := polled_infra i |} o' ∧
    at_phase o' = Draining ∧ work o' = work o.
Proof.
  intros Hl He. assert (Hw : ∀ o', at_phase o' = Draining → relays o' = relays o → finished o' = finished o →
    at_phase o' = Draining ∧ work o' = work o).
  { intros o' Hp Hr Hf. split; [done|]. unfold work. by rewrite Hl, Hp, Hr, Hf. }
  destruct i as [[dst|]|[[[data src] dst]|] now|now| | |]; cbn in He; try done.
  - eexists. split; [by apply (step_turn (Accepted None))|by apply Hw].
  - eexists. split; [by apply (step_turn (Inbound None now))|by apply Hw].
  - eexists. split; [apply (step_turn InfraFailed); [done|by apply failed_ready|done]|by apply Hw].
  - eexists. split; [by apply (step_turn ShutdownChanged)|by apply Hw].
Qed.

(** Nothing else leaves the loop. *)
Lemma leaves_ending o l o' :
  at_phase o = Looping → step o l o' → at_phase o' ≠ Looping → did l = HBreak ∧ ∃ i, ends_loop i o.
Proof.
  intros Hl Hs Hne. destruct Hs as
    [i h o o' _ Hrd Ht|k dst tcp copy o _ _|k n o _ _|k n o _ _|o o' Ht|k t p s' o _ _ _
    |k t o _ _|o|i e n' o _ _|w' o _]; try (by destruct Hne).
  - destruct i as [[dst|]|[[[data src] dst]|] now|now| | |]; cbn [turn] in Ht;
      try (injection Ht as <- <-; try (by destruct Hne)).
    + destruct Hne. revert Ht. unfold mbind, stm_bind, modify, gets. cbn.
      destruct (permits o); by intros [= <- <-].
    + split; [done|]. by exists (Accepted None).
    + destruct Hne. unfold mbind, stm_bind, zoom in Ht.
      destruct (forward src dst data now (sessions o)) as [[r|x|] s']; [|done..].
      destruct r; by injection Ht as <- <-.
    + split; [done|]. by exists (Inbound None now).
    + split; [done|]. exists InfraFailed. by apply failed_ready.
    + split; [done|]. by exists ShutdownChanged.
  - destruct Hne. unfold relay_end. cbn. by destruct (is_ok _).
  - destruct Ht; congruence.
Qed.


End dataplane.

(** ** A concrete tunnel *)

#[local] Existing Instance Session.plain_addr_text.
#[local] Existing Instance Session.ex_upstream.

Definition ex_config : Config :=
  {| mtu := 1500; limits := {| stack_buffer := 1; udp_buffer := 1; tcp_buffer := 1;
       max_tcp_flows := 1; max_udp_sessions := 1 |} |}.
Abbreviation ex_orch := (orch (U:=nat) (W:=Session.udp_world (St:=()))).
Definition ex_o0 : ex_orch := init ex_config Netstack.ex_net Session.ex_world.
Definition ex_in : input := Inbound (Some ([x61; x62], Session.ex_src, Session.ex_dst)) 5.
Definition ex_o1 : ex_orch := (turn ex_in ex_o0).2.
Definition ex_l1 : label (U:=nat) :=
  {| did := HSent true 2; nat_events := [EOpen 0 Session.ex_src]; net_events := [] |}.

Lemma ex_spawn : spawn Netstack.ex_builder ex_config Session.ex_world = Ok ex_o0.
Proof. reflexivity. Qed.

Lemma ex_runs1 : runs ex_o0 [ex_l1] ex_o1.
Proof.
  apply (runs_snoc ex_o0 [] ex_o0); [apply runs_nil|].
  assert (Hl : ex_l1 = {| did := HSent true 2; nat_events := opened_by ex_in ex_o0 ex_o1;
    net_events := polled_infra ex_in |}) by (vm_compute; reflexivity).
  rewrite Hl. apply (step_turn ex_in (HSent true 2)); [reflexivity|exact I|].
  apply run_result. vm_compute. reflexivity.
Qed.

Lemma dataplane_safe_witness :
  runs ex_o0 [ex_l1] ex_o1 ∧
  snapshot ex_o1 = {| s_tx := 2; s_rx := 0; s_tcp_flows := 0; s_udp_sessions := 1; s_flow_errors := 0 |} ∧
  base.size (Session.map (sessions ex_o1)) ≤ 1.
Proof.
  destruct (dataplane_safe Netstack.ex_builder ex_config Session.ex_world _ _ _ ex_spawn ex_runs1)
    as (_ & Hs & _ & Hc & _).
  split; [exact ex_runs1|split; [rewrite Hc; reflexivity|exact Hs]].
Defined.

Lemma refused_flow_counts_as_opened_witness :
  let o := set_relays 0 {[0 := Session.ex_dst]} 1 0 ex_o0 in
  ∃ o', turn (Accepted (Some Session.ex_src)) o = (Ok (HFlow false), o') ∧ relays o' = relays o ∧
    s_tcp_flows (snapshot o') = 1%Z ∧ s_flow_errors (snapshot o') = 0%Z.
Proof.
  intros o. destruct (refused_flow_counts_as_opened Session.ex_src o) as (o' & Ht & Hr & Hf & He).
  - reflexivity.
  - split; vm_compute; [intros Hx; discriminate Hx|reflexivity].
  - exists o'. split; [exact Ht|split; [exact Hr|split; [rewrite Hf; reflexivity|rewrite He; reflexivity]]].
Defined.

(** The session's remote answers; the reply goes through the channel to the
    stack. *)
Definition ex_reply : Proxy.UdpMessage :=
  {| Proxy.session_id := 1; Proxy.packet_id := 0; Proxy.frag_id := 0; Proxy.frag_count := 1;
     Proxy.addr := addr_to_string Session.ex_dst; Proxy.data := [x72] |}.
Definition ex_fed : Session.udp_world (St:=()) :=
  match Session.um (world (sessions ex_o1)) with
  | Some m => Session.set_um (UdpSession.feed ex_reply m).2 (world (sessions ex_o1))
  | None => world (sessions ex_o1)
  end.
Definition ex_task (r : option (SocketAddr * list byte)) : reply_task (U:=nat) :=
  {| t_conn := 0; t_src := Session.ex_src; sending := r; aborted := false |}.
Definition ex_sending : option (SocketAddr * list byte) := Some (Session.ex_dst, [x72]).
Definition ex_o2 : ex_orch := set_sessions (set_world ex_fed (sessions ex_o1)) ex_o1.
Definition ex_o3 : ex_orch := set_sessions (recv_turn 0 (ex_task None) (sessions ex_o2)).2 ex_o2.
Definition ex_o4 : ex_orch := set_sessions (recv_turn 0 (ex_task ex_sending) (sessions ex_o3)).2 ex_o3.
Definition ex_n5 : Netstack.net := (Netstack.turn (Netstack.WriterTurn true) (stack ex_o4)).2.
Definition ex_o5 : ex_orch := set_stack ex_n5 ex_o4.
Definition ex_packet : Netstack.Reply := ([x72], Session.ex_dst, Session.ex_src).
Definition ex_l3 : label (U:=nat) :=
  {| did := HReply 1; nat_events := [EReceived 0 Session.ex_src Session.ex_dst [x72]]; net_events := [] |}.
Definition ex_l4 : label (U:=nat) :=
  {| did := HOther; nat_events := [EReply 0 Session.ex_src Session.ex_dst [x72]];
     net_events := [(Netstack.SenderSend ex_packet, Netstack.Queued ex_packet)] |}.
Definition ex_l5 : label (U:=nat) :=
  {| did := HOther; nat_events := []; net_events := [(Netstack.WriterTurn true, Netstack.ToUdp ex_packet)] |}.
Definition ex_labels : list (label (U:=nat)) := [ex_l1; quiet HOther; ex_l3; ex_l4; ex_l5].

Lemma ex_runs5 : runs ex_o0 ex_labels ex_o5.
Proof.
  apply (runs_snoc ex_o0 [ex_l1; quiet HOther; ex_l3; ex_l4] ex_o4).
  2:{ refine (step_infra (Netstack.WriterTurn true) (Netstack.ToUdp ex_packet) ex_n5 ex_o4 I _).
      apply Netstack.step_turn; [unfold Netstack.enabled; apply (bool_decide_unpack _); vm_compute; exact I|].
      unfold ex_n5. apply run_result. vm_compute. reflexivity. }
  apply (runs_snoc ex_o0 [ex_l1; quiet HOther; ex_l3] ex_o3).
  2:{ apply (step_reply 0 (ex_task ex_sending) (Delivered Session.ex_dst [x72])); [vm_compute; reflexivity|reflexivity|].
      apply run_result. vm_compute. reflexivity. }
  apply (runs_snoc ex_o0 [ex_l1; quiet HOther] ex_o2).
  2:{ apply (step_reply 0 (ex_task None) (Received Session.ex_dst [x72])); [vm_compute; reflexivity|reflexivity|].
      apply run_result. vm_compute. reflexivity. }
  apply (runs_snoc ex_o0 [ex_l1] ex_o1); [exact ex_runs1|].
  apply step_below. intros v (m & Hm & Hv). vm_compute in Hm. injection Hm as <-.
  eexists. split; [vm_compute; reflexivity|]. exact Hv.
Qed.


(** A shutdown with nothing to drain. *)
Definition ex_d1 : ex_orch := trigger_shutdown ex_o1.
Definition ex_d2 : ex_orch := set_phase Draining ex_d1.
Definition ex_d3 : ex_orch := set_phase Stopped (set_stack (Netstack.shutdown (stack ex_d2)) ex_d2).
Definition ex_d4 : ex_orch := set_phase Ended (set_sessions (Session.drop (sessions ex_d3)) ex_d3).
Definition ex_torn (o : ex_orch) : label (U:=nat) :=
  {| did := HTeardown; nat_events := []; net_events := stopped_infra o |}.

Lemma ex_runs_break : runs ex_o0 [ex_l1; quiet HOther; quiet HBreak] ex_d2.
Proof.
  apply (runs_snoc ex_o0 [ex_l1; quiet HOther] ex_d1).
  - apply (runs_snoc ex_o0 [ex_l1] ex_o1); [exact ex_runs1|apply step_signal].
  - apply (step_turn ShutdownChanged); reflexivity.
Qed.

Lemma ex_runs_return : runs ex_d2 [ex_torn ex_d3; ex_torn ex_d4] ex_d4.
Proof.
  apply (runs_snoc ex_d2 [ex_torn ex_d3] ex_d3).
  - apply (runs_snoc ex_d2 [] ex_d2); [apply runs_nil|].
    apply step_teardown, (teardown_infra ex_d2); reflexivity.
  - apply step_teardown, (teardown_return ex_d3). reflexivity.
Qed.


End Dataplane.
