(* ===== verification/Brutal.v ===== *)
(** * Brutal: the fixed-bandwidth congestion controller

    Models [internal/congestion/brutal.rs]: the sample slots, the ACK-rate
    estimate and the congestion window. An [f64] is a [spec_float] of the
    Standard Library's executable IEEE 754 specification at binary64; [as]
    casts and [Duration::as_secs_f64] are written out. Instants are nanoseconds
    and counters are [u64]s whose additions panic on overflow in a build that
    checks it. *)
From Stdlib Require Import Floats.SpecFloat.
From S2P Require Import Prelude.

Module Brutal.

(** ** Binary64 *)

Abbreviation f64 := spec_float.
Definition f64_of_u64 (z : Z) : f64 := binary_normalize 53 1024 z 0 false.
Definition f64_mul : f64 → f64 → f64 := SFmul 53 1024.
Definition f64_div : f64 → f64 → f64 := SFdiv 53 1024.
Definition f64_add : f64 → f64 → f64 := SFadd 53 1024.

(** [f64::max]: the other operand when one is a NaN. *)
Definition f64_max (a b : f64) : f64 :=
  match SFcompare a b with
  | Some Lt => b
  | Some _ => a
  | None => match a with S754_nan => b | _ => a end
  end.

(** [x as u64]: truncation, saturating. *)
Definition f64_as_u64 (x : f64) : Z :=
  match x with
  | S754_finite false m e => Z.min (2 ^ 64 - 1) (Z.shiftl (Zpos m) e)
  | S754_infinity false => 2 ^ 64 - 1
  | _ => 0
  end.

(** [Duration::as_secs_f64], of nanoseconds. *)
Definition as_secs_f64 (ns : Z) : f64 :=
  f64_add (f64_of_u64 (ns / 1000000000)%Z)
    (f64_div (f64_of_u64 (ns mod 1000000000)%Z) (f64_of_u64 1000000000)).

(** ** The controller *)

Definition PKT_INFO_SLOT_COUNT : nat := 5.
Definition MIN_SAMPLE_COUNT : Z := 50.
Definition MIN_ACK_RATE : f64 := f64_div (f64_of_u64 8) (f64_of_u64 10).
Definition CONGESTION_WINDOW_MULTIPLIER : f64 := f64_of_u64 2.
Definition INITIAL_WINDOW : Z := 10240.

Record PktInfo := { timestamp : Z; ack_count : Z; loss_count : Z }.
Definition default_info : PktInfo := {| timestamp := 0; ack_count := 0; loss_count := 0 |}.

Record BrutalSender := {
  bps : Z;
  max_datagram_size : Z;
  rtt : Z;
  pkt_info_slots : list PktInfo;
  ack_rate : f64;
  base : Z;
}.

Definition new (bps now current_mtu : Z) : BrutalSender :=
  {| bps := bps; max_datagram_size := current_mtu; rtt := 0;
     pkt_info_slots := replicate PKT_INFO_SLOT_COUNT default_info;
     ack_rate := f64_of_u64 1; base := now |}.

(** The factory quinn builds the controller with. *)
Record BrutalConfig := { config_bps : Z }.
Definition build (c : BrutalConfig) (now current_mtu : Z) : BrutalSender := new (config_bps c) now current_mtu.

Definition set_slots (l : list PktInfo) (s : BrutalSender) : BrutalSender :=
  {| bps := bps s; max_datagram_size := max_datagram_size s; rtt := rtt s;
     pkt_info_slots := l; ack_rate := ack_rate s; base := base s |}.
Definition set_ack_rate (r : f64) (s : BrutalSender) : BrutalSender :=
  {| bps := bps s; max_datagram_size := max_datagram_size s; rtt := rtt s;
     pkt_info_slots := pkt_info_slots s; ack_rate := r; base := base s |}.
Definition set_rtt (r : Z) (s : BrutalSender) : BrutalSender :=
  {| bps := bps s; max_datagram_size := max_datagram_size s; rtt := r;
     pkt_info_slots := pkt_info_slots s; ack_rate := ack_rate s; base := base s |}.

(** Whole seconds; [as_secs] fits an [i64] or is clamped. *)
Definition seconds_since_base (s : BrutalSender) (now : Z) : Z :=
  (let secs := saturating_sub now (base s) / 1000000000 in
   if secs <? 2 ^ 63 then secs else 2 ^ 63 - 1)%Z.

Section sender.
Context {E : Type} (oc : bool).

(** The sums of [update_ack_rate]'s loop. *)
Fixpoint window_counts (min_timestamp : Z) (infos : list PktInfo) (acks losses : Z) : outcome E (Z * Z) :=
  match infos with
  | [] => Ok (acks, losses)
  | info :: infos =>
    if (timestamp info <? min_timestamp)%Z then window_counts min_timestamp infos acks losses else
    acks ← add_u 64 oc acks (ack_count info);
    losses ← add_u 64 oc losses (loss_count info);
    window_counts min_timestamp infos acks losses
  end.

Definition update_ack_rate (current : Z) : stm BrutalSender E () :=
  s ← gets Datatypes.id;
  '(acks, losses) ← lift (window_counts (current - Z.of_nat PKT_INFO_SLOT_COUNT) (pkt_info_slots s) 0 0);
  total ← lift (add_u 64 oc acks losses);
  if (total <? MIN_SAMPLE_COUNT)%Z then modify (set_ack_rate (f64_of_u64 1)) else
  let rate := f64_div (f64_of_u64 acks) (f64_of_u64 total) in
  modify (set_ack_rate (f64_max rate MIN_ACK_RATE)).

Definition add_samples (now acks losses : Z) : stm BrutalSender E () :=
  s ← gets Datatypes.id;
  let current := seconds_since_base s now in
  let slot := Z.to_nat (current mod Z.of_nat PKT_INFO_SLOT_COUNT) in
  info ← lift (or_panic (pkt_info_slots s !! slot));
  info ← lift (if (timestamp info =? current)%Z then
                 losses ← add_u 64 oc (loss_count info) losses;
                 acks ← add_u 64 oc (ack_count info) acks;
                 Ok {| timestamp := current; ack_count := acks; loss_count := losses |}
               else Ok {| timestamp := current; ack_count := acks; loss_count := losses |});
  _ ← modify (set_slots (<[slot := info]> (pkt_info_slots s)));
  update_ack_rate current.

Definition congestion_window (s : BrutalSender) : Z :=
  let rtt := as_secs_f64 (rtt s) in
  if SFleb rtt (S754_zero false) then INITIAL_WINDOW else
  let cwnd := f64_as_u64 (f64_div (f64_mul (f64_mul (f64_of_u64 (bps s)) rtt) CONGESTION_WINDOW_MULTIPLIER)
                                  (ack_rate s)) in
  Z.max cwnd (max_datagram_size s).

(** [Controller]'s callbacks. *)
Definition on_ack (now rtt : Z) : stm BrutalSender E () :=
  _ ← modify (set_rtt rtt); add_samples now 1 0.

Definition on_congestion_event (now lost_bytes : Z) : stm BrutalSender E () :=
  if (lost_bytes =? 0)%Z then mret () else
  s ← gets Datatypes.id;
  add_samples now 0 (div_ceil lost_bytes (Z.max (max_datagram_size s) 1)).

Definition on_mtu_update (new_mtu : Z) : stm BrutalSender E () :=
  modify (λ s, {| bps := bps s; max_datagram_size := new_mtu; rtt := rtt s;
                  pkt_info_slots := pkt_info_slots s; ack_rate := ack_rate s; base := base s |}).

Definition window (s : BrutalSender) : Z := congestion_window s.
Definition initial_window (s : BrutalSender) : Z := INITIAL_WINDOW.

(** ** The sample window *)

(** A sample: its time in whole seconds, its acks and its losses. *)
Abbreviation sample := (Z * Z * Z)%type.

Definition sum (f : sample → Z) (P : Z → bool) (h : list sample) : Z :=
  foldr (λ x acc, ((if P x.1.1 then f x else 0) + acc)%Z) 0%Z h.
Definition acks_of (x : sample) : Z := x.1.2.
Definition losses_of (x : sample) : Z := x.2.

Lemma sum_snoc f P h x : sum f P (h ++ [x]) = (sum f P h + if P x.1.1 then f x else 0)%Z.
Proof. induction h as [|y h IH]; cbn; [lia|]. unfold sum in *. rewrite IH. lia. Qed.

Lemma sum_ext f P Q h : (∀ x, x ∈ h → P x.1.1 = Q x.1.1) → sum f P h = sum f Q h.
Proof.
  induction h as [|y h IH]; intros Hpq; [done|]. unfold sum in *. cbn.
  rewrite (Hpq y) by set_solver. rewrite IH; [done|]. intros x Hx. apply Hpq. set_solver.
Qed.

Lemma sum_none f h : sum f (λ _, false) h = 0%Z.
Proof. induction h; [done|]. unfold sum in *. cbn. lia. Qed.

Lemma sum_le f P h : (∀ x, x ∈ h → 0 ≤ f x)%Z → (0 ≤ sum f P h ≤ sum f (λ _, true) h)%Z.
Proof.
  induction h as [|y h IH]; intros Hf; [done|]. unfold sum in *. cbn.
  assert (0 ≤ f y)%Z by (apply Hf; set_solver). specialize (IH ltac:(intros x Hx; apply Hf; set_solver)).
  destruct (P y.1.1); lia.
Qed.

Definition residue (i : Z) (t : Z) : bool := (t mod 5 =? i)%Z.

Lemma sum_residues f P h :
  sum f P h = (sum f (λ t, P t && residue 0 t) h + sum f (λ t, P t && residue 1 t) h +
    sum f (λ t, P t && residue 2 t) h + sum f (λ t, P t && residue 3 t) h +
    sum f (λ t, P t && residue 4 t) h)%Z.
Proof.
  induction h as [|y h IH]; [done|]. unfold sum in *. cbn. rewrite IH.
  assert (Hm : (0 ≤ y.1.1 mod 5 < 5)%Z) by (by apply Z.mod_pos_bound).
  unfold residue. destruct (P y.1.1); cbn; [|lia].
  destruct (Z.eqb_spec (y.1.1 mod 5) 0), (Z.eqb_spec (y.1.1 mod 5) 1), (Z.eqb_spec (y.1.1 mod 5) 2),
    (Z.eqb_spec (y.1.1 mod 5) 3), (Z.eqb_spec (y.1.1 mod 5) 4); lia.
Qed.

(** A slot [i] holds what the samples at its time add up to, and no sample of
    its residue is later. *)
Record slot_ok (cur : Z) (h : list sample) (i : Z) (info : PktInfo) : Prop := {
  so_time : (0 ≤ timestamp info ≤ cur)%Z;
  so_residue : residue i (timestamp info) = true ∨ timestamp info = 0%Z;
  so_latest : ∀ x, x ∈ h → residue i x.1.1 = true → (x.1.1 ≤ timestamp info)%Z;
  so_acks : ack_count info = sum acks_of (λ t, (t =? timestamp info)%Z && residue i t) h;
  so_losses : loss_count info = sum losses_of (λ t, (t =? timestamp info)%Z && residue i t) h;
}.

Record slots_ok (cur : Z) (h : list sample) (l : list PktInfo) : Prop := {
  sl_length : length l = PKT_INFO_SLOT_COUNT;
  sl_slots : ∀ i info, l !! i = Some info → slot_ok cur h (Z.of_nat i) info;
  sl_times : ∀ x, x ∈ h → (0 ≤ x.1.1 ≤ cur)%Z;
}.

Lemma slots_ok_init : slots_ok 0 [] (replicate PKT_INFO_SLOT_COUNT default_info).
Proof.
  split; [done| |by intros x ?%not_elem_of_nil].
  intros i info [-> _]%lookup_replicate. split; cbn; [lia|by right|by intros x ?%not_elem_of_nil|done|done].
Qed.

Lemma slots_ok_later cur cur' h l : slots_ok cur h l → (cur ≤ cur')%Z → slots_ok cur' h l.
Proof.
  intros [Hl Hs Ht] Hc. split; [done| |intros x Hx; specialize (Ht x Hx); lia].
  intros i info Hi. destruct (Hs i info Hi). split; try done. lia.
Qed.

(** What [add_samples] stores. *)
Definition stored (current acks losses : Z) (info : PktInfo) : PktInfo :=
  if (timestamp info =? current)%Z
  then {| timestamp := current; ack_count := ack_count info + acks; loss_count := loss_count info + losses |}
  else {| timestamp := current; ack_count := acks; loss_count := losses |}.

Lemma slots_ok_add cur h l acks losses info :
  slots_ok cur h l → l !! Z.to_nat (cur mod 5) = Some info → (0 ≤ cur)%Z →
  slots_ok cur (h ++ [(cur, acks, losses)]) (<[Z.to_nat (cur mod 5) := stored cur acks losses info]> l).
Proof.
  intros [Hl Hs Ht] Hi Hc. assert (Hm : (0 ≤ cur mod 5 < 5)%Z) by (by apply Z.mod_pos_bound).
  set (i := Z.to_nat (cur mod 5)) in *. assert (Hri : residue (Z.of_nat i) cur = true).
  { unfold residue, i. rewrite Z2Nat.id by lia. by apply Z.eqb_eq. }
  split; [by rewrite length_insert| |].
  2:{ intros x [Hx|Hx]%elem_of_app; [by apply Ht|]. apply list_elem_of_singleton in Hx as ->. cbn. lia. }
  intros j info' Hj. apply list_lookup_insert_Some in Hj as [(Hij & <- & Hlt)|[Hne Hj]].
  - rewrite <-Hij. clear Hij Hlt j. destruct (Hs i info Hi) as [Htm Hres Hlat Ha Hlo]. unfold stored.
    assert (Hnone : ∀ f, timestamp info ≠ cur → sum f (λ t, (t =? cur)%Z && residue (Z.of_nat i) t) h = 0%Z).
    { intros f Hne. rewrite <-(sum_none f h). apply sum_ext. intros x Hx.
      destruct (Z.eqb_spec x.1.1 cur) as [Heq|]; [|done]. cbn. destruct (residue _ x.1.1) eqn:Hr; [|done].
      specialize (Hlat x Hx Hr). lia. }
    destruct (Z.eqb_spec (timestamp info) cur) as [Heq|Hne].
    + split; cbn; [lia|by left| | |].
      * intros x [Hx|Hx]%elem_of_app Hr; [specialize (Ht x Hx); lia|]. by apply list_elem_of_singleton in Hx as ->.
      * rewrite sum_snoc. cbn. rewrite Z.eqb_refl, Hri, Ha, Heq. done.
      * rewrite sum_snoc. cbn. rewrite Z.eqb_refl, Hri, Hlo, Heq. done.
    + split; cbn; [lia|by left| | |].
      * intros x [Hx|Hx]%elem_of_app Hr; [specialize (Ht x Hx); lia|]. by apply list_elem_of_singleton in Hx as ->.
      * rewrite sum_snoc, Hnone by done. cbn. by rewrite Z.eqb_refl, Hri.
      * rewrite sum_snoc, Hnone by done. cbn. by rewrite Z.eqb_refl, Hri.
  - destruct (Hs j info' Hj) as [Htm Hres Hlat Ha Hlo].
    assert (Hrj : residue (Z.of_nat j) cur = false).
    { unfold residue. apply Z.eqb_neq. intros Heq. apply Hne. unfold i. rewrite Heq. by rewrite Nat2Z.id. }
    split; try done.
    + intros x [Hx|Hx]%elem_of_app Hr; [by apply Hlat|]. apply list_elem_of_singleton in Hx as ->.
      cbn in Hr. congruence.
    + rewrite sum_snoc. cbn. rewrite Hrj, andb_false_r. lia.
    + rewrite sum_snoc. cbn. rewrite Hrj, andb_false_r. lia.
Qed.

(** The part of a slot that falls in the window. *)
Definition in_window (cur : Z) (t : Z) : bool := (cur - 5 <? t)%Z.

Lemma slot_window cur h l i info (f : sample → Z) count :
  slots_ok cur h l → l !! i = Some info → timestamp <$> l !! Z.to_nat (cur mod 5) = Some cur →
  count = sum f (λ t, (t =? timestamp info)%Z && residue (Z.of_nat i) t) h →
  (if timestamp info <? cur - 5 then 0 else count)%Z
  = sum f (λ t, in_window cur t && residue (Z.of_nat i) t) h.
Proof.
  intros [Hl Hs Ht] Hi Hcur ->. destruct (Hs i info Hi) as [Htm Hres Hlat _ _].
  assert (Hown : residue (Z.of_nat i) cur = true → timestamp info = cur).
  { unfold residue. intros Heq%Z.eqb_eq. rewrite Heq, Nat2Z.id, Hi in Hcur. by injection Hcur. }
  destruct (Z.ltb_spec (timestamp info) (cur - 5)) as [Hlt|Hge].
  - symmetry. rewrite <-(sum_none f h). apply sum_ext. intros x Hx. unfold in_window.
    destruct (residue _ x.1.1) eqn:Hr; [|by rewrite andb_false_r]. specialize (Hlat x Hx Hr).
    destruct (Z.ltb_spec (cur - 5) x.1.1); [lia|done].
  - apply sum_ext. intros x Hx. destruct (residue _ x.1.1) eqn:Hr; [|by rewrite !andb_false_r].
    rewrite !andb_true_r. specialize (Hlat x Hx Hr). specialize (Ht x Hx). unfold in_window, residue in *.
    destruct (Z.eqb_spec x.1.1 (timestamp info)) as [Heq|Hne]; destruct (Z.ltb_spec (cur - 5) x.1.1) as [Hw|Hw]; try done; exfalso.
    + assert (timestamp info = cur); [|lia]. apply Hown. apply Z.eqb_eq in Hr. apply Z.eqb_eq.
      rewrite <-Hr. replace cur with (x.1.1 + 1 * 5)%Z by lia. by rewrite Z.mod_add.
    + apply Z.eqb_eq in Hr. destruct Hres as [Hres%Z.eqb_eq|Hz]; [|lia].
      pose proof (Z.div_mod x.1.1 5 ltac:(done)). pose proof (Z.div_mod (timestamp info) 5 ltac:(done)). lia.
Qed.

Lemma window_counts_cons m info l a b x y :
  (if timestamp info <? m then 0 else ack_count info)%Z = x →
  (if timestamp info <? m then 0 else loss_count info)%Z = y →
  (a + x < 2 ^ 64)%Z → (b + y < 2 ^ 64)%Z →
  window_counts m (info :: l) a b = window_counts m l (a + x) (b + y).
Proof.
  intros <- <- Hsa Hsb. cbn [window_counts]. destruct (Z.ltb_spec (timestamp info) m).
  - by rewrite !Z.add_0_r.
  - rewrite add_u_ok by done. cbn [mbind outcome_bind]. by rewrite add_u_ok.
Qed.

(** The loop of [update_ack_rate] adds up exactly the samples of the last five
    seconds. *)
Lemma window_counts_ok cur h l :
  slots_ok cur h l → timestamp <$> l !! Z.to_nat (cur mod 5) = Some cur →
  (∀ x, x ∈ h → 0 ≤ acks_of x ∧ 0 ≤ losses_of x)%Z →
  (sum acks_of (λ _, true) h < 2 ^ 64)%Z → (sum losses_of (λ _, true) h < 2 ^ 64)%Z →
  window_counts (cur - 5) l 0 0 =
  Ok (sum acks_of (in_window cur) h, sum losses_of (in_window cur) h).
Proof.
  intros Hok Hcur Hpos Hsa Hsl. pose proof (sl_length _ _ _ Hok) as Hlen.
  assert (Hpa : ∀ P, (0 ≤ sum acks_of P h ≤ sum acks_of (λ _, true) h)%Z) by (intros P; apply sum_le; intros x Hx; apply (Hpos x Hx)).
  assert (Hpl : ∀ P, (0 ≤ sum losses_of P h ≤ sum losses_of (λ _, true) h)%Z) by (intros P; apply sum_le; intros x Hx; apply (Hpos x Hx)).
  assert (Hslot : ∀ i info, l !! i = Some info →
    (if timestamp info <? cur - 5 then 0 else ack_count info)%Z
      = sum acks_of (λ t, in_window cur t && residue (Z.of_nat i) t) h ∧
    (if timestamp info <? cur - 5 then 0 else loss_count info)%Z
      = sum losses_of (λ t, in_window cur t && residue (Z.of_nat i) t) h).
  { intros i info Hi. destruct (sl_slots _ _ _ Hok i info Hi) as [_ _ _ Ha Hb].
    split; by eapply slot_window. }
  pose proof (sum_residues acks_of (in_window cur) h) as Hra.
  pose proof (sum_residues losses_of (in_window cur) h) as Hrl.
  pose proof (Hpa (in_window cur)) as Hwa. pose proof (Hpl (in_window cur)) as Hwl.
  assert (Hq : ∀ i, (0 ≤ sum acks_of (λ t, in_window cur t && residue i t) h)%Z ∧
                    (0 ≤ sum losses_of (λ t, in_window cur t && residue i t) h)%Z) by (intros i; split; [apply Hpa|apply Hpl]).
  destruct (Hq 0%Z), (Hq 1%Z), (Hq 2%Z), (Hq 3%Z), (Hq 4%Z).
  destruct l as [|x0 [|x1 [|x2 [|x3 [|x4 [|]]]]]]; try discriminate Hlen.
  destruct (Hslot 0 x0 eq_refl) as [Ea0 El0], (Hslot 1 x1 eq_refl) as [Ea1 El1], (Hslot 2 x2 eq_refl) as [Ea2 El2],
    (Hslot 3 x3 eq_refl) as [Ea3 El3], (Hslot 4 x4 eq_refl) as [Ea4 El4].
  change (Z.of_nat 0) with 0%Z in *. change (Z.of_nat 1) with 1%Z in *. change (Z.of_nat 2) with 2%Z in *.
  change (Z.of_nat 3) with 3%Z in *. change (Z.of_nat 4) with 4%Z in *.
  rewrite (window_counts_cons _ _ _ _ _ _ _ Ea0 El0) by lia.
  rewrite (window_counts_cons _ _ _ _ _ _ _ Ea1 El1) by lia.
  rewrite (window_counts_cons _ _ _ _ _ _ _ Ea2 El2) by lia.
  rewrite (window_counts_cons _ _ _ _ _ _ _ Ea3 El3) by lia.
  rewrite (window_counts_cons _ _ _ _ _ _ _ Ea4 El4) by lia.
  cbn [window_counts]. f_equal. f_equal; lia.
Qed.

(** The ACK rate after the samples [h], the latest at [cur]. *)
Definition rate_of (cur : Z) (h : list sample) : f64 :=
  let acks := sum acks_of (in_window cur) h in
  let total := (acks + sum losses_of (in_window cur) h)%Z in
  if (total <? MIN_SAMPLE_COUNT)%Z then f64_of_u64 1
  else f64_max (f64_div (f64_of_u64 acks) (f64_of_u64 total)) MIN_ACK_RATE.

Definition bounded (h : list sample) : Prop :=
  (∀ x, x ∈ h → 0 ≤ acks_of x ∧ 0 ≤ losses_of x)%Z ∧
  (sum acks_of (λ _, true) h + sum losses_of (λ _, true) h < 2 ^ 64)%Z.

Lemma bounded_sums h P : bounded h →
  (0 ≤ sum acks_of P h ≤ sum acks_of (λ _, true) h)%Z ∧
  (0 ≤ sum losses_of P h ≤ sum losses_of (λ _, true) h)%Z.
Proof. intros [Hp _]. split; apply sum_le; intros x Hx; apply (Hp x Hx). Qed.

Lemma add_samples_ok s now acks losses cur0 cur h :
  slots_ok cur0 h (pkt_info_slots s) → seconds_since_base s now = cur →
  (0 ≤ cur0 ≤ cur)%Z → bounded (h ++ [(cur, acks, losses)]) →
  wp (add_samples now acks losses) (λ r s', r = Ok () ∧ ∃ l,
    s' = set_ack_rate (rate_of cur (h ++ [(cur, acks, losses)])) (set_slots l s) ∧
    slots_ok cur (h ++ [(cur, acks, losses)]) l) s.
Proof.
  intros Hok Hcur Hle Hb. set (h' := h ++ [(cur, acks, losses)]) in *.
  pose proof (slots_ok_later _ cur _ _ Hok ltac:(lia)) as Hok'.
  assert (Hm : (0 ≤ cur mod 5 < 5)%Z) by (by apply Z.mod_pos_bound).
  destruct (lookup_lt_is_Some_2 (pkt_info_slots s) (Z.to_nat (cur mod 5))) as [info Hi].
  { rewrite (sl_length _ _ _ Hok). unfold PKT_INFO_SLOT_COUNT. lia. }
  pose proof (slots_ok_add _ _ _ acks losses _ Hok' Hi ltac:(lia)) as Hadd. fold h' in Hadd.
  set (l := <[Z.to_nat (cur mod 5) := stored cur acks losses info]> (pkt_info_slots s)) in *.
  assert (Hl : l !! Z.to_nat (cur mod 5) = Some (stored cur acks losses info)).
  { apply list_lookup_insert_eq. by eapply lookup_lt_Some. }
  assert (Htime : timestamp (stored cur acks losses info) = cur) by (unfold stored; by destruct (_ =? _)%Z).
  assert (Hst : (if (timestamp info =? cur)%Z then
      losses ← add_u 64 oc (loss_count info) losses;
      acks ← add_u 64 oc (ack_count info) acks;
      Ok {| timestamp := cur; ack_count := acks; loss_count := losses |}
    else Ok {| timestamp := cur; ack_count := acks; loss_count := losses |}) = Ok (E:=E) (stored cur acks losses info)).
  { destruct (sl_slots _ _ _ Hadd _ _ Hl) as [_ _ _ Ha Hlo].
    pose proof (bounded_sums h' (λ t, (t =? timestamp (stored cur acks losses info))%Z && residue (Z.of_nat (Z.to_nat (cur mod 5))) t) Hb) as [Hba Hbl].
    rewrite <-Ha in Hba. rewrite <-Hlo in Hbl. pose proof (proj2 Hb).
    pose proof (bounded_sums h' (λ _, true) Hb). unfold stored in *. destruct (timestamp info =? cur)%Z; [|done].
    cbn [ack_count loss_count] in *. rewrite add_u_ok by lia. cbn [mbind outcome_bind]. by rewrite add_u_ok by lia. }
  unfold add_samples. wp_step. wp_step. cbn [Datatypes.id]. rewrite Hcur.
  change (Z.of_nat PKT_INFO_SLOT_COUNT) with 5%Z. rewrite Hi. cbn [or_panic].
  wp_step. wp_step. wp_step. wp_step. rewrite Hst. wp_step. wp_step. fold l.
  unfold update_ack_rate. wp_step. wp_step. cbn [Datatypes.id].
  change (pkt_info_slots (set_slots l s)) with l. change (Z.of_nat PKT_INFO_SLOT_COUNT) with 5%Z.
  pose proof (bounded_sums h' (λ _, true) Hb) as Hall. pose proof (proj2 Hb).
  pose proof (bounded_sums h' (in_window cur) Hb).
  wp_step. wp_step. rewrite (window_counts_ok cur h' l Hadd); [|by rewrite Hl; cbn; rewrite Htime|apply Hb|lia|lia].
  wp_step. wp_step. rewrite add_u_ok by lia.
  destruct (_ <? MIN_SAMPLE_COUNT)%Z eqn:Hlt; wp_step; (split; [done|]); exists l;
    (split; [|done]); unfold rate_of; by rewrite Hlt.
Qed.

(** ** The callbacks of the QUIC stack *)

Inductive callback :=
| OnAck (now rtt : Z)
| OnCongestionEvent (now lost_bytes : Z)
| OnMtuUpdate (new_mtu : Z).

Definition call (c : callback) : stm BrutalSender E () :=
  match c with
  | OnAck now rtt => on_ack now rtt
  | OnCongestionEvent now lost => on_congestion_event now lost
  | OnMtuUpdate mtu => on_mtu_update mtu
  end.

Fixpoint calls (cs : list callback) : stm BrutalSender E () :=
  match cs with [] => mret () | c :: cs => _ ← call c; calls cs end.

(** The samples the callbacks stand for: one ack per acked packet, and the lost
    bytes in datagrams of the current size, rounded up. *)
Fixpoint samples (base mtu : Z) (cs : list callback) : list sample :=
  match cs with
  | [] => []
  | OnAck now _ :: cs => ((now - base) / 1000000000, 1, 0)%Z :: samples base mtu cs
  | OnCongestionEvent now lost :: cs =>
    if (lost =? 0)%Z then samples base mtu cs
    else ((now - base) / 1000000000, 0, div_ceil lost (Z.max mtu 1))%Z :: samples base mtu cs
  | OnMtuUpdate mtu :: cs => samples base mtu cs
  end.

(** Time does not run backwards, and stays in the clock's range. *)
Fixpoint in_order (base from : Z) (cs : list callback) : Prop :=
  match cs with
  | [] => True
  | OnAck now _ :: cs => (from ≤ now < base + 2 ^ 63 * 1000000000)%Z ∧ in_order base now cs
  | OnCongestionEvent now lost :: cs =>
    (from ≤ now < base + 2 ^ 63 * 1000000000)%Z ∧ (0 ≤ lost)%Z ∧ in_order base now cs
  | OnMtuUpdate _ :: cs => in_order base from cs
  end.

Lemma seconds_ok s now :
  (base s ≤ now < base s + 2 ^ 63 * 1000000000)%Z →
  seconds_since_base s now = ((now - base s) / 1000000000)%Z.
Proof.
  intros Hn. unfold seconds_since_base, saturating_sub. rewrite Z.max_r by lia.
  destruct (Z.ltb_spec ((now - base s) / 1000000000) (2 ^ 63)) as [|Hge]; [done|].
  assert ((now - base s) / 1000000000 < 2 ^ 63)%Z; [|lia]. apply Z.div_lt_upper_bound; lia.
Qed.

(** The controller after the callbacks, in terms of its samples. *)
Record tracked (mtu : Z) (from : Z) (h : list sample) (s : BrutalSender) : Prop := {
  tr_slots : slots_ok ((from - base s) / 1000000000) h (pkt_info_slots s);
  tr_from : (base s ≤ from)%Z;
  tr_mtu : max_datagram_size s = mtu;
  tr_rate : ack_rate s = rate_of (default 0%Z ((λ x : sample, x.1.1) <$> last h)) h;
}.

Lemma tracked_add mtu from h s now acks losses :
  tracked mtu from h s → (from ≤ now < base s + 2 ^ 63 * 1000000000)%Z →
  let h' := h ++ [((now - base s) / 1000000000, acks, losses)%Z] in
  bounded h' →
  wp (add_samples now acks losses) (λ r s', r = Ok () ∧ tracked mtu now h' s' ∧ base s' = base s ∧ rtt s' = rtt s) s.
Proof.
  intros [Hs Hf Hm Hr] Hn h' Hb.
  eapply wp_mono; [apply (add_samples_ok s now acks losses _ ((now - base s) / 1000000000)%Z h Hs)|].
  - apply seconds_ok. lia.
  - split; [apply Z.div_pos; lia|]. apply Z.div_le_mono; lia.
  - exact Hb.
  - intros r s' (-> & l & -> & Hl). split_and!; [done| |done|done]. split; cbn; [done|lia|done|].
    unfold h'. by rewrite last_snoc.
Qed.

Lemma bounded_prefix h1 h2 : bounded (h1 ++ h2) → bounded h1.
Proof.
  intros [Hp Hs]. split; [intros x Hx; apply Hp; set_solver|].
  assert (Happ : ∀ f, sum f (λ _, true) (h1 ++ h2) = (sum f (λ _, true) h1 + sum f (λ _, true) h2)%Z).
  { intros f. clear. induction h1 as [|y h1 IH]; [done|]. unfold sum in *. cbn. rewrite IH. lia. }
  rewrite !Happ in Hs.
  pose proof (sum_le acks_of (λ _, true) h2 ltac:(intros x Hx; apply (Hp x); set_solver)).
  pose proof (sum_le losses_of (λ _, true) h2 ltac:(intros x Hx; apply (Hp x); set_solver)). lia.
Qed.

Lemma calls_ok cs mtu from h s :
  tracked mtu from h s → in_order (base s) from cs → bounded (h ++ samples (base s) mtu cs) →
  wp (calls cs) (λ r s', r = Ok () ∧ ∃ mtu' from', tracked mtu' from' (h ++ samples (base s) mtu cs) s') s.
Proof.
  revert mtu from h s. induction cs as [|c cs IH]; intros mtu from h s Ht Ho Hb; cbn [calls].
  { wp_step. split; [done|]. exists mtu, from. by rewrite app_nil_r. }
  wp_step. destruct c as [now r|now lost|mtu']; cbn [call samples in_order] in *.
  - destruct Ho as [Hn Ho]. unfold on_ack. wp_step. wp_step.
    assert (Ht' : tracked mtu from h (set_rtt r s)) by (destruct Ht; by split).
    rewrite cons_middle, app_assoc in Hb.
    eapply wp_mono; [apply (tracked_add mtu from h (set_rtt r s) now 1 0 Ht' Hn); by eapply bounded_prefix|].
    intros r' s' (-> & Ht1 & Hbase & _). cbn [base set_rtt] in *.
    rewrite cons_middle, app_assoc. rewrite <-Hbase in Ht1, Ho, Hb |- *. by eapply IH.
  - destruct Ho as (Hn & Hlost & Ho). unfold on_congestion_event.
    destruct (Z.eqb_spec lost 0) as [->|Hne].
    + wp_step. apply (IH mtu now); [|done|done]. destruct Ht as [Hs Hf Hm Hr]. split; [|lia|done|done].
      eapply slots_ok_later; [done|]. apply Z.div_le_mono; lia.
    + wp_step. wp_step. cbn [Datatypes.id]. rewrite (tr_mtu _ _ _ _ Ht).
      rewrite cons_middle, app_assoc in Hb.
      eapply wp_mono; [apply (tracked_add mtu from h s now 0 _ Ht Hn); by eapply bounded_prefix|].
      intros r' s' (-> & Ht1 & Hbase & _). rewrite cons_middle, app_assoc.
      rewrite <-Hbase in Ht1, Ho, Hb |- *. by eapply IH.
  - unfold on_mtu_update. wp_step.
    match goal with |- wp _ _ ?s1 => refine (IH mtu' from h s1 _ Ho Hb) end. destruct Ht. by split.
Qed.

(** [f64::max] with a number is at least that number. *)
Lemma f64_max_ge x : SFleb MIN_ACK_RATE (f64_max x MIN_ACK_RATE) = true.
Proof.
  unfold f64_max. assert (Hb : SFleb MIN_ACK_RATE MIN_ACK_RATE = true) by (by vm_compute).
  assert (Ha : ∃ m e, MIN_ACK_RATE = S754_finite false m e) by (vm_compute; eauto).
  destruct Ha as (m & e & Hme). rewrite Hme in *.
  destruct (SFcompare x _) as [[]|] eqn:Hc; [|done| |].
  - unfold SFleb, SFcompare in *. destruct x as [[]|[]| |[] mx ex]; try done.
    destruct (Z.compare_spec ex e) as [->|Hl|Hl]; try done.
    injection Hc as Hc. change (Pos.compare mx m = Eq) in Hc. apply Pos.compare_eq in Hc as ->.
    rewrite Z.compare_refl. by rewrite Pos.compare_cont_refl.
  - unfold SFleb, SFcompare in *. destruct x as [[]|[]| |[] mx ex]; try done.
    destruct (Z.compare_spec ex e) as [->|Hl|Hl]; try done.
    + injection Hc as Hc. rewrite Z.compare_refl. change (Pos.compare mx m = Gt) in Hc.
      change (Pos.compare_cont Eq m mx) with (Pos.compare m mx). by rewrite Pos.compare_antisym, Hc.
    + by rewrite (proj2 (Z.compare_lt_iff e ex) Hl).
  - unfold SFcompare in Hc. destruct x as [[]|[]| |[] mx ex]; try done.
Qed.

(** C31: Brutal's estimate: after any acks, losses and MTU updates in order of time,
    none of which makes the controller panic, the ACK rate is computed from
    exactly the samples of the last five seconds (1 while they are fewer than
    50, their acked share otherwise), it is never below the floor of 0.8, and
    once there is a round-trip time the window is at least one datagram. *)
Theorem brutal_window bps base0 mtu cs r s :
  in_order base0 base0 cs → bounded (samples base0 mtu cs) →
  calls cs (new bps base0 mtu) = (r, s) →
  r = Ok () ∧
  ack_rate s = rate_of (default 0%Z ((λ x : sample, x.1.1) <$> last (samples base0 mtu cs))) (samples base0 mtu cs) ∧
  SFleb MIN_ACK_RATE (ack_rate s) = true ∧
  (SFleb (as_secs_f64 (rtt s)) (S754_zero false) = false → (max_datagram_size s ≤ window s)%Z).
Proof.
  intros Ho Hb Hrun.
  assert (Ht : tracked mtu base0 [] (new bps base0 mtu)).
  { split; cbn; [|lia|done|by vm_compute]. rewrite Z.sub_diag. apply slots_ok_init. }
  destruct (wp_run _ _ _ _ _ (calls_ok cs mtu base0 [] _ Ht Ho Hb) Hrun) as (-> & mtu' & from' & Ht').
  cbn [app base new] in Ht'. split_and!; [done|apply Ht'| |].
  - rewrite (tr_rate _ _ _ _ Ht'). unfold rate_of.
    destruct (_ <? MIN_SAMPLE_COUNT)%Z; [by vm_compute|apply f64_max_ge].
  - intros Hrtt. unfold window, congestion_window. rewrite Hrtt. lia.
Qed.

End sender.

(** 60 acks and 20 lost datagrams within one second: the rate is 0.8 at least,
    the window that of the bandwidth-delay product scaled by it. *)
Definition ex_calls : list callback :=
  replicate 60 (OnAck 100 100000000) ++ [OnCongestionEvent 200 24000].

Lemma ex_bounded : bounded (samples 0 1200 ex_calls).
Proof.
  split; [|by vm_compute]. intros x Hx. apply list_elem_of_In in Hx.
  assert (Hc : forallb (λ x, (0 <=? acks_of x) && (0 <=? losses_of x))%Z (samples 0 1200 ex_calls) = true) by (by vm_compute).
  rewrite forallb_forall in Hc. apply Hc, andb_true_iff in Hx as [Ha Hb]. lia.
Qed.

Lemma brutal_window_witness :
  let s := (calls (E:=rstr) true ex_calls (new 1000000 0 1200)).2 in
  ack_rate s = MIN_ACK_RATE ∧ window s = 250000%Z ∧ (max_datagram_size s ≤ window s)%Z.
Proof.
  intros s.
  destruct (brutal_window (E:=rstr) true 1000000 0 1200 ex_calls (calls (E:=rstr) true ex_calls (new 1000000 0 1200)).1 s)
    as (_ & Hr & _ & Hw).
  - repeat (split; [split; [discriminate|reflexivity]|]).
    split; [discriminate|exact I].
  - exact ex_bounded.
  - apply surjective_pairing.
  - split; [rewrite Hr; vm_compute; reflexivity|split; [vm_compute; reflexivity|]].
    apply Hw. vm_compute. reflexivity.
Defined.

End Brutal.
