(* ===== verification/App.v ===== *)
(** * App: the facade the native apps link

    Models [ffi-app/src/lib.rs]: the boundary types and their conversions, the
    adapters from the foreign interfaces to the model's ([SecureStoreAdapter]
    is an instance of the store's class), the stats gate with its shared slot,
    and the [App] methods. The model's thread makes the callbacks of a command
    one by one; the gate looks at its slot in one step and calls in another.
    [log] records what the foreign side sees, in order, and the gate's looks. *)
From S2P Require Import Prelude RustStr Errors Link Store Model.

(** [trait SecureStore] as the foreign language implements it, with the same
    promises as the store's own trait. *)
Inductive ForeignError := Backend (message : rstr).

Class ForeignStore (F : Type) := {
  f_get : rstr → F → outcome ForeignError (option (list byte));
  f_set : rstr → list byte → F → outcome ForeignError () * F;
  f_delete : rstr → F → outcome ForeignError () * F;
  f_contents : F → gmap (list byte) (list byte);
  f_get_ok id b o : f_get id b = Ok o → o = f_contents b !! id;
  f_set_ok id s b b' : f_set id s b = (Ok (), b') → f_contents b' = <[id := s]> (f_contents b);
  f_set_other id s b r b' j :
    f_set id s b = (r, b') → j ≠ id → f_contents b' !! j = f_contents b !! j;
  f_delete_ok id b b' : f_delete id b = (Ok (), b') → f_contents b' = delete id (f_contents b);
  f_delete_other id b r b' j :
    f_delete id b = (r, b') → j ≠ id → f_contents b' !! j = f_contents b !! j;
  f_get_total id b : f_get id b ≠ Panic;
  f_set_total id s b : (f_set id s b).1 ≠ Panic;
  f_delete_total id b : (f_delete id b).1 ≠ Panic;
}.

Definition adapt_secure_err (e : ForeignError) : SecureStoreError :=
  match e with Backend message => {| ss_message := message |} end.

Section adapter.
Context `{ForeignStore F}.

Lemma map_err_ok {E G A} (f : E → G) (m : outcome E A) a : map_err f m = Ok a → m = Ok a.
Proof. destruct m; cbn; congruence. Qed.

Lemma map_err_panic {E G A} (f : E → G) (m : outcome E A) : map_err f m = Panic → m = Panic.
Proof. by destruct m. Qed.

Definition adapted (m : outcome ForeignError () * F) : outcome SecureStoreError () * F :=
  (map_err adapt_secure_err m.1, m.2).

(** [SecureStoreAdapter]. *)
#[export] Program Instance secure_store_adapter : SecureStore F | 10 := {|
  ss_get id b := map_err adapt_secure_err (f_get id b);
  ss_set id s b := adapted (f_set id s b);
  ss_delete id b := adapted (f_delete id b);
  contents := f_contents;
|}.
Next Obligation. intros id b o Hg%map_err_ok. by apply f_get_ok. Qed.
Next Obligation.
  intros id s b b'. unfold adapted. destruct (f_set id s b) as [r b1] eqn:Hs. cbn.
  intros [= Hr%map_err_ok <-]. subst r. by eapply f_set_ok.
Qed.
Next Obligation.
  intros id s b r b' j. unfold adapted. destruct (f_set id s b) as [r1 b1] eqn:Hs. cbn.
  intros [= _ <-] Hj. by eapply f_set_other.
Qed.
Next Obligation.
  intros id b b'. unfold adapted. destruct (f_delete id b) as [r b1] eqn:Hs. cbn.
  intros [= Hr%map_err_ok <-]. subst r. by eapply f_delete_ok.
Qed.
Next Obligation.
  intros id b r b' j. unfold adapted. destruct (f_delete id b) as [r1 b1] eqn:Hs. cbn.
  intros [= _ <-] Hj. by eapply f_delete_other.
Qed.
Next Obligation. intros id b Hp%map_err_panic. by apply f_get_total in Hp. Qed.
Next Obligation. intros id s b Hp%map_err_panic. by apply f_set_total in Hp. Qed.
Next Obligation. intros id b Hp%map_err_panic. by apply f_delete_total in Hp. Qed.
End adapter.

Module App.
Import RustStr.

(** ** The boundary types *)

Inductive ConnectionState := Disconnected | Connecting | Connected | Disconnecting.
Record ProfileEntry := { id : rstr; name : rstr; created_at : Z }.
Record Snapshot := {
  schema_version : Z;
  profiles : list ProfileEntry;
  selected_id : option rstr;
  connection : ConnectionState;
  last_error : option rstr;
}.
Record Stats := { tx_bytes : Z; rx_bytes : Z }.
Inductive AppError := AStore (message : rstr) | AStopped.

Definition from_state (s : Model.ConnectionState) : ConnectionState :=
  match s with
  | Model.Disconnected => Disconnected
  | Model.Connecting => Connecting
  | Model.Connected => Connected
  | Model.Disconnecting => Disconnecting
  end.
Definition into_state (s : ConnectionState) : Model.ConnectionState :=
  match s with
  | Disconnected => Model.Disconnected
  | Connecting => Model.Connecting
  | Connected => Model.Connected
  | Disconnecting => Model.Disconnecting
  end.
Definition from_entry (e : Store.Entry) : ProfileEntry :=
  {| id := Store.id e; name := Store.name e; created_at := Store.created_at e |}.
Definition from_snapshot (s : Model.Snapshot) : Snapshot :=
  {| schema_version := Model.schema_version s;
     profiles := from_entry <$> Model.profiles s;
     selected_id := Model.snap_selected_id s;
     connection := from_state (Model.snap_connection s);
     last_error := Model.snap_last_error s |}.
Definition from_stats (s : Model.Stats) : Stats :=
  {| tx_bytes := Model.tx_bytes s; rx_bytes := Model.rx_bytes s |}.
Definition into_stats (s : Stats) : Model.Stats :=
  {| Model.tx_bytes := tx_bytes s; Model.rx_bytes := rx_bytes s |}.

(** [Display] of the store's errors. *)
Definition store_error_display (e : Store.StoreError) : rstr :=
  match e with
  | Store.Io e => lit "could not read or write the profile store: " ++ e
  | Store.Serde e => lit "the profile store data could not be parsed: " ++ e
  | Store.Secure e => lit "secure store error: " ++ ss_message e
  | Store.Clock => lit "the system clock is set before 1970; fix the clock"
  | Store.UnsupportedSchema v =>
    lit "the profile store is version " ++ Errors.i32_to_string v
    ++ lit ", newer than this app supports (" ++ Errors.i32_to_string Store.SCHEMA_VERSION
    ++ lit "); update the app to open it"
  end.
Definition from_model_error (e : Model.ModelError) : AppError :=
  match e with
  | Model.StoreFailed e => AStore (store_error_display e)
  | Model.Stopped => AStopped
  end.

Section app.
Context `{SecureStore B, Store.Codec, PercentEncoding, FormUrlencoded}.

(** What crosses to the foreign side, the subscriptions that come from it (an
    observer is named by a number), and, as history, the moments at which the
    gate looked at its slot. *)
Inductive entry :=
| FState (s : Snapshot)
| FStats (observer : nat) (s : Stats)
| FStart (profile_id : rstr)
| FStop
| Subscribed (observer : nat)
| Unsubscribed
| Looked (s : Model.Stats).

(** [App]: the model's handle and thread, the callbacks that thread has still to
    make for the command it is at, the call on an observer the gate has cloned
    out of the slot and not made yet, and the slot. *)
Record app := {
  channel : Model.chan;
  actor : Model.actor (B:=B);
  pending : list Model.event;
  calling : option (nat * Model.Stats);
  stats : option nat;
  log : list entry;
}.

(** The tunnel and state adapters: what a callback of the model becomes. *)
Definition adapt (e : Model.event) : option entry :=
  match e with
  | Model.OnState s => Some (FState (from_snapshot s))
  | Model.Start id => Some (FStart id)
  | Model.Stop => Some FStop
  | Model.OnStats _ | Model.Replied _ _ => None
  end.

(** [StatsGate::on_stats]: under the lock the subscriber is cloned out of the
    slot, then, the lock released, called. *)
Definition gate_look (s : Model.Stats) (a : app) : app :=
  {| channel := channel a; actor := actor a; pending := pending a;
     calling := (λ o, (o, s)) <$> stats a; stats := stats a; log := log a ++ [Looked s] |}.
Definition gate_call (o : nat) (s : Model.Stats) (a : app) : app :=
  {| channel := channel a; actor := actor a; pending := pending a;
     calling := None; stats := stats a; log := log a ++ [FStats o (from_stats s)] |}.

Definition set_pending (evs : list Model.event) (a : app) : app :=
  {| channel := channel a; actor := actor a; pending := evs;
     calling := calling a; stats := stats a; log := log a |}.
Definition push_log (es : list entry) (a : app) : app :=
  {| channel := channel a; actor := actor a; pending := pending a;
     calling := calling a; stats := stats a; log := log a ++ es |}.

(** The model's thread makes one callback. *)
Definition callback (e : Model.event) (a : app) : app :=
  match e with
  | Model.OnStats s => gate_look s a
  | _ => push_log (option_list (adapt e)) a
  end.

(** [App::new]. *)
Definition new (w : Store.world (B:=B)) : outcome AppError app :=
  store ← map_err (λ e, AStore (store_error_display e)) (Store.new w);
  let a := Model.started store in
  Ok {| channel := {| Model.queue := []; Model.receiver := true |}; actor := a;
        pending := Model.out a; calling := None; stats := None; log := [] |}.

Definition set_channel (ch : Model.chan) (a : app) : app :=
  {| channel := ch; actor := actor a; pending := pending a;
     calling := calling a; stats := stats a; log := log a |}.
Definition add_profile_from_uri (uri : rstr) (a : app) : app :=
  set_channel (Model.send (Model.AddProfileFromUri uri) (channel a)) a.
Definition rename_profile (id name : rstr) (a : app) : app :=
  set_channel (Model.send (Model.RenameProfile id name) (channel a)) a.
Definition delete_profile (id : rstr) (a : app) : app :=
  set_channel (Model.send (Model.DeleteProfile id) (channel a)) a.
Definition select_profile (id : rstr) (a : app) : app :=
  set_channel (Model.send (Model.SelectProfile id) (channel a)) a.
Definition connect (a : app) : app := set_channel (Model.send Model.Connect (channel a)) a.
Definition disconnect (a : app) : app := set_channel (Model.send Model.Disconnect (channel a)) a.
Definition on_os_status (st : ConnectionState) (error_code : option Z) (a : app) : app :=
  set_channel (Model.on_os_status (into_state st) (Errors.from_code <$> error_code) (channel a)) a.
Definition on_stats (s : Stats) (a : app) : app :=
  set_channel (Model.on_stats (into_stats s) (channel a)) a.
Definition set_slot (o : option nat) (e : entry) (a : app) : app :=
  {| channel := channel a; actor := actor a; pending := pending a;
     calling := calling a; stats := o; log := log a ++ [e] |}.
Definition subscribe_stats (o : nat) (a : app) : app := set_slot (Some o) (Subscribed o) a.
Definition unsubscribe_stats (a : app) : app := set_slot None Unsubscribed a.
Definition export_profile_uri (id : rstr) (reply : nat) (later : list Model.event) (a : app) :
    outcome AppError (option (list byte)) * app :=
  let '(r, ch) := Model.export_profile_uri id reply (channel a) later in
  (map_err from_model_error r, set_channel ch a).

(** The app's threads call the methods at any time, from inside a callback too.
    The model's thread takes the oldest command when the callbacks of the one
    before are made; it makes them one at a time, and between the gate's look at
    the slot and its call the slot may change. *)
Inductive step : app → app → Prop :=
| step_add uri a : step a (add_profile_from_uri uri a)
| step_rename id name a : step a (rename_profile id name a)
| step_delete id a : step a (delete_profile id a)
| step_select id a : step a (select_profile id a)
| step_connect a : step a (connect a)
| step_disconnect a : step a (disconnect a)
| step_os_status st code a : step a (on_os_status st code a)
| step_on_stats s a : step a (on_stats s a)
| step_subscribe o a : step a (subscribe_stats o a)
| step_unsubscribe a : step a (unsubscribe_stats a)
| step_export id reply later a : step a (export_profile_uri id reply later a).2
| step_actor t cmd q a act' evs :
    pending a = [] → calling a = None →
    Model.fresh t (actor a) → Model.queue (channel a) = cmd :: q →
    Model.handle t cmd (actor a) = (Ok (), act') →
    Model.out act' = Model.out (actor a) ++ evs →
    step a {| channel := {| Model.queue := q; Model.receiver := Model.receiver (channel a) |};
              actor := act'; pending := evs; calling := None; stats := stats a; log := log a |}
| step_callback e evs a :
    calling a = None → pending a = e :: evs → step a (callback e (set_pending evs a))
| step_gate_call o s a : calling a = Some (o, s) → step a (gate_call o s a).

(** ** What the foreign side should see, independently of the conversions *)

Definition same_state (m : Model.ConnectionState) (f : ConnectionState) : Prop :=
  match m, f with
  | Model.Disconnected, Disconnected | Model.Connecting, Connecting
  | Model.Connected, Connected | Model.Disconnecting, Disconnecting => True
  | _, _ => False
  end.
Definition same_entry (m : Store.Entry) (f : ProfileEntry) : Prop :=
  id f = Store.id m ∧ name f = Store.name m ∧ created_at f = Store.created_at m.
Record same_snapshot (m : Model.Snapshot) (f : Snapshot) : Prop := {
  sm_version : schema_version f = Model.schema_version m;
  sm_profiles : Forall2 same_entry (Model.profiles m) (profiles f);
  sm_selected : selected_id f = Model.snap_selected_id m;
  sm_connection : same_state (Model.snap_connection m) (connection f);
  sm_error : last_error f = Model.snap_last_error m;
}.
Definition same_stats (m : Model.Stats) (f : Stats) : Prop :=
  tx_bytes f = Model.tx_bytes m ∧ rx_bytes f = Model.rx_bytes m.

(** Which callback of the model a crossing shows. *)
Definition shows (e : Model.event) (x : entry) : Prop :=
  match e, x with
  | Model.OnState m, FState f => same_snapshot m f
  | Model.Start i, FStart j => i = j
  | Model.Stop, FStop => True
  | _, _ => False
  end.
Definition crosses (e : Model.event) : bool :=
  match e with Model.OnState _ | Model.Start _ | Model.Stop => true | _ => false end.
Definition is_crossing (e : entry) : bool :=
  match e with FState _ | FStart _ | FStop => true | _ => false end.
Definition is_subscription (e : entry) : bool :=
  match e with Subscribed _ | Unsubscribed => true | _ => false end.
Definition update_of (e : Model.event) : option Model.Stats :=
  match e with Model.OnStats s => Some s | _ => None end.
Definition looked (e : entry) : option Model.Stats :=
  match e with Looked s => Some s | _ => None end.

(** The subscriber after a log. *)
Definition subscriber (l : list entry) : option nat :=
  foldl (λ o e, match e with Subscribed n => Some n | Unsubscribed => None | _ => o end) None l.

Lemma subscriber_snoc l e : subscriber (l ++ [e]) =
  match e with Subscribed n => Some n | Unsubscribed => None | _ => subscriber l end.
Proof. unfold subscriber. by rewrite foldl_snoc. Qed.

(** The callbacks made, what the log shows of them, and the call pending at the
    gate: the abstract boundary. *)
Inductive told : list Model.event → list entry → option (nat * Model.Stats) → Prop :=
| told_nil : told [] [] None
| told_shown evs l e x : told evs l None → shows e x → told (evs ++ [e]) (l ++ [x]) None
| told_reply evs l n r : told evs l None → told (evs ++ [Model.Replied n r]) l None
| told_look evs l s :
    told evs l None → told (evs ++ [Model.OnStats s]) (l ++ [Looked s]) ((λ o, (o, s)) <$> subscriber l)
| told_call evs l o s f :
    told evs l (Some (o, s)) → same_stats s f → told evs (l ++ [FStats o f]) None
| told_subscription evs l c e :
    told evs l c → is_subscription e = true → told evs (l ++ [e]) c.

Lemma shows_crosses e x : shows e x → crosses e = true ∧ is_crossing x = true.
Proof. by destruct e, x. Qed.

Lemma told_crossings evs l c :
  told evs l c → Forall2 shows (filter (λ e, crosses e) evs) (filter (λ e, is_crossing e) l).
Proof.
  induction 1 as [|evs l e x Ht IH Hs|evs l n r Ht IH|evs l s Ht IH|evs l o s f Ht IH Hs|evs l c e Ht IH Hs];
    rewrite ?filter_app; try (cbn; by rewrite ?app_nil_r).
  - destruct (shows_crosses e x Hs) as [He Hx].
    rewrite !filter_cons_True, !filter_nil by (by rewrite ?He, ?Hx).
    apply Forall2_app; [done|]. by repeat constructor.
  - rewrite filter_cons_False, filter_nil, app_nil_r by (by destruct e; intros []). done.
Qed.

Lemma told_looks evs l c : told evs l c → omap looked l = omap update_of evs.
Proof.
  induction 1 as [|evs l e x Ht IH Hs|evs l n r Ht IH|evs l s Ht IH|evs l o s f Ht IH Hs|evs l c e Ht IH Hs];
    rewrite ?omap_app, ?IH; cbn; rewrite ?app_nil_r; try done.
  - by destruct e, x.
  - by destruct e; cbn; rewrite ?app_nil_r.
Qed.

(** A look at the slot whose call is still to come: since then only
    subscriptions came and went. *)
Definition look_at (l : list entry) (o : nat) (s : Model.Stats) : Prop :=
  ∃ pre mid, l = pre ++ Looked s :: mid ∧ subscriber pre = Some o ∧
    Forall (λ e, is_subscription e = true) mid.

Lemma told_calling evs l c : told evs l c → ∀ o s, c = Some (o, s) → look_at l o s.
Proof.
  induction 1 as [|evs l e x Ht IH Hs|evs l n r Ht IH|evs l s Ht IH|evs l o s f Ht IH Hs|evs l c e Ht IH Hs];
    intros o' s' Hc; try done.
  - destruct (subscriber l) as [n|] eqn:Hl; [|done]. injection Hc as <- <-. by exists l, [].
  - destruct (IH _ _ Hc) as (pre & mid & -> & Hp & Hm). exists pre, (mid ++ [e]).
    rewrite <-app_assoc. split_and!; [done..|]. apply Forall_app. by repeat constructor.
Qed.

(** A list that ends in [x] splits at [y]: before the end, or at it. *)
Lemma snoc_split {A} (l pre post : list A) x y :
  l ++ [x] = pre ++ y :: post →
  (l = pre ∧ x = y ∧ post = []) ∨ ∃ post', post = post' ++ [x] ∧ l = pre ++ y :: post'.
Proof.
  destruct post as [|z post _] using rev_ind.
  - intros [-> ->]%app_inj_tail. by left.
  - rewrite app_comm_cons, app_assoc. intros [-> ->]%app_inj_tail. right. by exists post.
Qed.

(** A stats call goes to the observer that was in the slot when the gate looked,
    with the numbers it looked for. *)
Lemma told_calls evs l c : told evs l c → ∀ pre o f post,
  l = pre ++ FStats o f :: post → ∃ s, look_at pre o s ∧ same_stats s f.
Proof.
  induction 1 as [|evs l e x Ht IH Hs|evs l n r Ht IH|evs l s Ht IH|evs l o s f Ht IH Hs|evs l c e Ht IH Hs];
    intros pre o' f' post Hl; try exact (IH _ _ _ _ Hl); try (by destruct pre);
    apply snoc_split in Hl as [(<- & Hx & ->)|(post' & -> & Hl)]; try exact (IH _ _ _ _ Hl); subst; try done.
  - by destruct e.
  - injection Hx as <- <-. exists s. split; [|done]. exact (told_calling _ _ _ Ht _ _ eq_refl).
Qed.

(** Every look that finds a subscriber leads to its call: the next thing the
    model's thread does. *)
Lemma told_answered evs l c : told evs l c → ∀ pre s post o,
  l = pre ++ Looked s :: post → subscriber pre = Some o →
  ∃ mid, Forall (λ e, is_subscription e = true) mid ∧
    ((post = mid ∧ c = Some (o, s)) ∨
     ∃ f rest, post = mid ++ FStats o f :: rest ∧ same_stats s f).
Proof.
  induction 1 as [|evs l e x Ht IH Hs|evs l n r Ht IH|evs l s Ht IH|evs l o s f Ht IH Hs|evs l c e Ht IH Hs];
    intros pre s' post o' Hl Ho; try exact (IH _ _ _ _ Hl Ho); try (by destruct pre);
    apply snoc_split in Hl as [(<- & Hx & ->)|(post' & -> & Hl)]; subst; try done.
  - by destruct e.
  - destruct (IH _ _ _ _ eq_refl Ho) as (mid & Hm & [[_ [=]]|(f & rest & -> & Hf)]).
    exists mid. split; [done|]. right. exists f, (rest ++ [x]). by rewrite <-app_assoc.
  - injection Hx as <-. exists []. split; [done|]. left. by rewrite Ho.
  - destruct (IH _ _ _ _ eq_refl Ho) as (mid & Hm & [[_ [=]]|(f & rest & -> & Hf)]).
    exists mid. split; [done|]. right. exists f, (rest ++ [Looked s]). by rewrite <-app_assoc.
  - destruct (IH _ _ _ _ eq_refl Ho) as (mid & Hm & [[-> [= <- <-]]|(f' & rest & -> & Hf)]).
    + exists mid. split; [done|]. right. by exists f, [].
    + exists mid. split; [done|]. right. exists f', (rest ++ [FStats o f]). by rewrite <-app_assoc.
  - destruct (IH _ _ _ _ eq_refl Ho) as (mid & Hm & [[-> Hc]|(f & rest & -> & Hf)]).
    + exists (mid ++ [e]). split; [apply Forall_app; by repeat constructor|]. by left.
    + exists mid. split; [done|]. right. exists f, (rest ++ [e]). by rewrite <-app_assoc.
Qed.

(** ** The app implements it *)

Lemma same_snapshot_from m : same_snapshot m (from_snapshot m).
Proof.
  split; cbn; [done| |done|by destruct (Model.snap_connection m)|done].
  rewrite Forall2_fmap_r. by apply Forall_Forall2_diag, Forall_forall.
Qed.

Lemma adapt_shows e x : adapt e = Some x → shows e x.
Proof. destruct e; cbn; try done; intros [= <-]; cbn; auto using same_snapshot_from. Qed.

Record inv (a : app) : Prop := {
  iv_actor : Model.actor_inv (actor a);
  iv_slot : stats a = subscriber (log a);
  iv_alive : Model.receiver (channel a) = true;
  iv_told : ∃ made, Model.out (actor a) = made ++ pending a ∧ told made (log a) (calling a);
}.

Lemma tx_send_alive cmd ch :
  Model.receiver ch = true →
  Model.tx_send cmd ch = (true, {| Model.queue := Model.queue ch ++ [cmd]; Model.receiver := true |}).
Proof. unfold Model.tx_send. by intros ->. Qed.

Lemma inv_channel a ch : inv a → Model.receiver ch = true → inv (set_channel ch a).
Proof. by intros [Ha Hs Hr Ht] Hc. Qed.

Lemma inv_send a cmd : inv a → inv (set_channel (Model.tx_send cmd (channel a)).2 a).
Proof. intros Hi. apply inv_channel; [done|]. by rewrite (tx_send_alive _ _ (iv_alive _ Hi)). Qed.

Lemma inv_slot a o e :
  inv a → is_subscription e = true → o = subscriber (log a ++ [e]) → inv (set_slot o e a).
Proof.
  intros [Ha Hs Hr (made & Hm & Ht)] He Ho. split; cbn; [done..|].
  exists made. split; [done|]. by constructor.
Qed.

Lemma inv_callback e evs a :
  inv a → calling a = None → pending a = e :: evs → inv (callback e (set_pending evs a)).
Proof.
  intros [Ha Hs Hr (made & Hm & Ht)] Hc Hp. rewrite Hp in Hm. rewrite Hc in Ht.
  destruct e as [m|s|i| |n r]; (split; cbn;
    [done|rewrite ?app_nil_r, ?subscriber_snoc; done|done|]);
    (eexists (made ++ [_]); rewrite <-app_assoc; split; [exact Hm|]); rewrite ?Hc, ?app_nil_r.
  - constructor; [done|]. by apply adapt_shows.
  - rewrite Hs. by constructor.
  - by constructor.
  - by constructor.
  - by constructor.
Qed.

Lemma inv_gate_call o s a : inv a → calling a = Some (o, s) → inv (gate_call o s a).
Proof.
  intros [Ha Hs Hr (made & Hm & Ht)] Hc. rewrite Hc in Ht. split; cbn; [done| |done|].
  - by rewrite subscriber_snoc.
  - exists made. split; [done|]. by eapply told_call.
Qed.

Lemma inv_app_step a a' : inv a → step a a' → inv a'.
Proof.
  intros Hi Hs. destruct Hs as [| | | | | | | |o a|a|id reply later a
    |t cmd q a act' evs Hp Hc Hf Hq Hh Ho|e evs a Hc Hp|o s a Hc];
    try (by apply inv_send).
  - apply inv_slot; [done..|]. by rewrite subscriber_snoc.
  - apply inv_slot; [done..|]. by rewrite subscriber_snoc.
  - unfold export_profile_uri, Model.export_profile_uri.
    rewrite (tx_send_alive _ _ (iv_alive _ Hi)). by apply inv_channel.
  - destruct Hi as [Ha Hsl Hr (made & Hm & Ht)]. pose proof (Model.handle_run t cmd (actor a) Ha Hf) as Hw.
    rewrite Hh in Hw. destruct Hw as (_ & Ha' & _). rewrite Hp, app_nil_r in Hm. subst made.
    split; cbn; [done..|]. exists (Model.out (actor a)). split; [done|]. by rewrite <-Hc.
  - by apply inv_callback.
  - by apply inv_gate_call.
Qed.

(** A world in which the store opens consistently: no document yet, or the one
    a store left behind. *)
Definition opens_well (w : Store.world (B:=B)) : Prop :=
  Store.disk w = None ∨ ∃ s, Store.inv s ∧ w = Store.env s.

Lemma opens_inv w s : opens_well w → Store.new w = Ok s → Store.inv s.
Proof.
  intros [Hd|(s0 & Hi & ->)] Hn; [by eapply Store.new_empty|].
  by destruct (Store.new_inv s0 s Hi Hn).
Qed.

Lemma inv_app_new w a : opens_well w → new w = Ok a → inv a.
Proof.
  intros Hw Hn. unfold new in Hn. apply bind_ok_inv in Hn as (s & Hs & Hn).
  apply map_err_ok in Hs. injection Hn as <-. pose proof (opens_inv _ _ Hw Hs) as Hi.
  pose proof (Model.init_inv s Hi) as Ha. split; cbn; [by split; apply Ha|done|done|].
  exists []. split; [done|constructor].
Qed.

(** C30: The boundary is faithful, whatever the app's threads and the model's thread
    do in whatever order. Of the callbacks the model has made, each snapshot
    and each OS request has crossed once, in order: the snapshot with every
    field equal, the connection state by name, a start with its profile id, a
    stop as a stop. Each stats update makes the gate look at its slot once, in
    order. A look that finds an observer is followed by one call on it with the
    update's numbers, nothing but subscriptions happening in between (which may
    have removed that observer by then), or that call is still to come; there
    is no stats call but these. Inward, a status and a stats update are queued
    for the model as they were given. *)
Theorem app_faithful w a0 a :
  opens_well w → new w = Ok a0 → rtc step a0 a →
  (∃ made, Model.out (actor a) = made ++ pending a ∧
    Forall2 shows (filter (λ e, crosses e) made) (filter (λ e, is_crossing e) (log a)) ∧
    omap looked (log a) = omap update_of made) ∧
  (∀ pre s post o, log a = pre ++ Looked s :: post → subscriber pre = Some o →
    ∃ mid, Forall (λ e, is_subscription e = true) mid ∧
      ((post = mid ∧ calling a = Some (o, s)) ∨
       ∃ f rest, post = mid ++ FStats o f :: rest ∧ same_stats s f)) ∧
  (∀ pre o f post, log a = pre ++ FStats o f :: post →
    ∃ before s mid, pre = before ++ Looked s :: mid ∧ subscriber before = Some o ∧
      Forall (λ e, is_subscription e = true) mid ∧ same_stats s f) ∧
  (∀ st code, ∃ m, same_state m st ∧ Model.queue (channel (on_os_status st code a)) =
    Model.queue (channel a) ++ [Model.OsStatus m (Errors.from_code <$> code)]) ∧
  (∀ f, ∃ m, same_stats m f ∧
    Model.queue (channel (on_stats f a)) = Model.queue (channel a) ++ [Model.CStats m]).
Proof.
  intros Hw Hn Hr. assert (Hi : inv a).
  { pose proof (inv_app_new _ _ Hw Hn) as Hi0. clear Hn. induction Hr; eauto using inv_app_step. }
  destruct Hi as [_ _ Hv (made & Hm & Ht)]. split_and!.
  - exists made. split_and!; [done|by eapply told_crossings|by eapply told_looks].
  - by eapply told_answered.
  - intros pre o f post Hl. destruct (told_calls _ _ _ Ht pre o f post Hl) as (s & (before & mid & Hb) & Hs).
    exists before, s, mid. by destruct_and! Hb.
  - intros st code. exists (into_state st). split; [by destruct st|]. cbn. unfold Model.on_os_status. by rewrite (tx_send_alive _ _ Hv).
  - intros f. exists (into_stats f). split; [done|]. cbn. unfold Model.on_stats. by rewrite (tx_send_alive _ _ Hv).
Qed.

(** What crosses the boundary outward and comes back is unchanged. *)
Lemma state_roundtrip s : into_state (from_state s) = s.
Proof. by destruct s. Qed.
Lemma stats_roundtrip s : into_stats (from_stats s) = s.
Proof. by destruct s. Qed.

End app.

(** ** A concrete app over a foreign store *)

#[local] Existing Instance Store.plain_codec.
#[local] Existing Instance Link.sample_percent.
#[local] Existing Instance Link.sample_form.

Definition ex_app : app (B:=gmap (list byte) (list byte)) :=
  match new (Store.ex_world []) with
  | Ok a => a
  | _ => {| channel := {| Model.queue := []; Model.receiver := true |};
            actor := Model.started (Store.ex_store []); pending := []; calling := None;
            stats := None; log := [] |}
  end.
Definition ex_stats : Stats := {| tx_bytes := 3; rx_bytes := 4 |}.
Abbreviation ex_update := (into_stats ex_stats).

(** The first snapshot crosses, observer 7 subscribes, an update is pushed and
    the model's thread takes it; the gate looks, the observer unsubscribes, and
    the call is made all the same. *)
Definition ex_ready : app := subscribe_stats 7 (on_stats ex_stats (callback (Model.OnState (Model.snapshot Model.default_state)) (set_pending [] ex_app))).
Definition ex_taken : app :=
  {| channel := {| Model.queue := []; Model.receiver := true |};
     actor := (Model.handle (Model.ex_tick 1) (Model.CStats ex_update) (actor ex_ready)).2;
     pending := [Model.OnStats ex_update]; calling := None; stats := stats ex_ready; log := log ex_ready |}.
Definition ex_done : app :=
  gate_call 7 ex_update (unsubscribe_stats (callback (Model.OnStats ex_update) (set_pending [] ex_taken))).

Lemma app_faithful_witness :
  rtc step ex_app ex_done ∧
  log ex_done = [FState (from_snapshot (Model.snapshot Model.default_state)); Subscribed 7;
    Looked ex_update; Unsubscribed; FStats 7 ex_stats] ∧
  (∃ made, Model.out (actor ex_done) = made ++ [] ∧
    Forall2 shows (filter (λ e, crosses e) made) [FState (from_snapshot (Model.snapshot Model.default_state))]) ∧
  (∃ before s mid, take 4 (log ex_done) = before ++ Looked s :: mid ∧ subscriber before = Some 7 ∧
    Forall (λ e, is_subscription e = true) mid ∧ same_stats s ex_stats).
Proof.
  assert (Hr : rtc step ex_app ex_done).
  { eapply rtc_l; [by apply (step_callback (Model.OnState (Model.snapshot Model.default_state)) [])|].
    eapply rtc_l; [apply (step_on_stats ex_stats)|]. eapply rtc_l; [apply (step_subscribe 7)|].
    eapply rtc_l; [apply (step_actor (Model.ex_tick 1) (Model.CStats ex_update) [] ex_ready
      (actor ex_taken) [Model.OnStats ex_update])|].
    - reflexivity.
    - reflexivity.
    - apply not_elem_of_nil.
    - reflexivity.
    - apply injective_projections; reflexivity.
    - reflexivity.
    - eapply rtc_l; [by apply (step_callback (Model.OnStats ex_update) [])|].
      eapply rtc_l; [apply step_unsubscribe|]. apply rtc_once. by apply step_gate_call. }
  destruct (app_faithful (Store.ex_world []) ex_app ex_done) as ((made & Hm & Hc & _) & _ & Hg & _);
    [left; reflexivity|reflexivity|exact Hr|].
  split; [exact Hr|]. split; [reflexivity|]. split; [by exists made|].
  by apply (Hg (take 4 (log ex_done)) 7 ex_stats []).
Defined.

End App.
