(* ===== verification/Socks5.v ===== *)
(** * Socks5: the SOCKS5 front-end

    Models [transport-socks5/src/lib.rs]: the configuration built from the
    command line, [run], [serve], and [handle] with the three commands; the UDP
    association is the loop of [handle_udp_associate] over the relay socket, the
    tunnel's session and the control connection. The SOCKS5 negotiation and
    datagram framing are the [fast-socks5] crate's and the sockets the
    runtime's: their results are given, for a connection in a record and for an
    iteration of the loop with the branch that was ready. *)
From S2P Require Import Prelude RustStr Errors Profile Net ClientConfig Transport Link.
Import Net Errors.

(** The framing: a request is its fragment number, its target as text and its
    payload. The code drops what is not [Ok], so an error is [None]. *)
Class Socks5Framing := {
  parse_udp_request : list byte → option (nat * rstr * list byte);
  new_udp_header : SocketAddr → option (list byte);
}.

Module Socks5.
Import RustStr.

(** ** The configuration *)

Section config.
Context `{PercentEncoding, FormUrlencoded, Resolver}.

Record Cli := { socks5 : SocketAddr; url : rstr; ca : option rstr }.

Definition set_ca (c : option (list byte)) (config : ClientConfig.Config) : ClientConfig.Config :=
  {| ClientConfig.server_addr := ClientConfig.server_addr config;
     ClientConfig.auth := ClientConfig.auth config;
     ClientConfig.tls := {| ClientConfig.server_name := ClientConfig.server_name (ClientConfig.tls config);
                            ClientConfig.ca := c |};
     ClientConfig.quic := ClientConfig.quic config;
     ClientConfig.bandwidth := ClientConfig.bandwidth config;
     ClientConfig.fast_open := ClientConfig.fast_open config;
     ClientConfig.obfs := ClientConfig.obfs config;
     ClientConfig.hop_ports := ClientConfig.hop_ports config;
     ClientConfig.hop_interval := ClientConfig.hop_interval config |}.

(** The file system and the PEM decoder. *)
Context (read_file : rstr → outcome rstr (list byte)) (from_pem_slice : list byte → outcome rstr (list byte)).

Definition into_parts (cli : Cli) : outcome chain (SocketAddr * ClientConfig.Config) :=
  profile ← ok_or [lit "not a hysteria2:// link: " ++ url cli] (Link.parse_uri (url cli));
  config ← wrap_err (lit "build client config from link")
             (map_err (λ e, [config_error_display e]) (ClientConfig.from_profile profile));
  match ca cli with
  | Some ca_path =>
    pem ← context (lit "read CA cert " ++ ca_path) (read_file ca_path);
    cert ← map_err (λ e, [lit "parse CA cert " ++ ca_path ++ lit ": " ++ e]) (from_pem_slice pem);
    Ok (socks5 cli, set_ca (Some cert) config)
  | None => Ok (socks5 cli, config)
  end.

(** The front-end's configuration from a link that was made from a profile is
    the one from the profile itself, with the certificate of the command line
    when one is given. *)
Lemma into_parts_link p name addr :
  Link.linkable p →
  into_parts {| socks5 := addr; url := Link.to_uri_with_name p name; ca := None |} =
  (config ← wrap_err (lit "build client config from link")
              (map_err (λ e, [config_error_display e]) (ClientConfig.from_profile p));
   Ok (addr, config)).
Proof. intros Hl. unfold into_parts. cbn [url ca]. by rewrite Link.parse_to_uri. Qed.

End config.

(** ** The UDP association *)

Section association.
Context `{Socks5Framing, SocketAddrText}.

(** The association: the client it is pinned to, what it sent through the
    tunnel session and what it sent to the client. *)
Record assoc := {
  client_addr : option SocketAddr;
  tunnelled : list (list byte * rstr);
  relayed : list (list byte * SocketAddr);
}.

(** The ready branch. A failed [send_to] is part of the tunnel branch. *)
Inductive input :=
| FromClient (recv : outcome rstr (list byte * SocketAddr))
| FromTunnel (received : outcome rstr (list byte * rstr)) (sent : outcome rstr ())
| Control (read : outcome rstr nat).

Inductive flow := Continue | Break.

Definition pin (a : SocketAddr) (s : assoc) : assoc :=
  {| client_addr := Some a; tunnelled := tunnelled s; relayed := relayed s |}.
Definition tunnel (d : list byte) (t : rstr) (s : assoc) : assoc :=
  {| client_addr := client_addr s; tunnelled := tunnelled s ++ [(d, t)]; relayed := relayed s |}.
Definition relay (b : list byte) (a : SocketAddr) (s : assoc) : assoc :=
  {| client_addr := client_addr s; tunnelled := tunnelled s; relayed := relayed s ++ [(b, a)] |}.

Definition new_assoc : assoc := {| client_addr := None; tunnelled := []; relayed := [] |}.

(** One iteration of the loop. *)
Definition turn (i : input) : stm assoc chain flow :=
  match i with
  | FromClient recv =>
    '(packet, from) ← lift (context (lit "recv from SOCKS UDP") recv);
    s ← gets Datatypes.id;
    if bool_decide (client_addr s ≠ None ∧ client_addr s ≠ Some from) then mret Continue else
    _ ← modify (pin from);
    _ ← match parse_udp_request packet with
        | Some (O, target, data) => modify (tunnel data target)
        | _ => mret ()
        end;
    mret Continue
  | FromTunnel received sent =>
    '(data, from) ← lift (context (lit "receive from tunnel") received);
    s ← gets Datatypes.id;
    match client_addr s, addr_parse from with
    | Some dst, Some addr =>
      match new_udp_header addr with
      | Some header => _ ← modify (relay (header ++ data) dst);
        _ ← lift (context (lit "send to SOCKS UDP") sent); mret Continue
      | None => mret Continue
      end
    | _, _ => mret Continue
    end
  | Control read =>
    match read with
    | Ok O | Err _ => mret Break
    | Ok (S _) => mret Continue
    | Panic => lift Panic
    end
  end.

(** The iterations that went on. *)
Inductive runs : list input → assoc → Prop :=
| runs_nil : runs [] new_assoc
| runs_snoc ins s i s' : runs ins s → turn i s = (Ok Continue, s') → runs (ins ++ [i]) s'.

(** The first datagram's sender. *)
Definition first_sender (ins : list input) : option SocketAddr :=
  head (omap (λ i, match i with FromClient (Ok (_, from)) => Some from | _ => None end) ins).

(** The requests of [a]: the unfragmented datagrams it sent. *)
Definition request_of (a : SocketAddr) (i : input) : option (list byte * rstr) :=
  match i with
  | FromClient (Ok (packet, from)) =>
    if decide (from = a) then
      match parse_udp_request packet with Some (O, target, data) => Some (data, target) | _ => None end
    else None
  | _ => None
  end.

(** The reply an input becomes. *)
Definition reply_of (i : input) : option (list byte) :=
  match i with
  | FromTunnel (Ok (data, from)) _ =>
    match addr_parse from with
    | Some addr => match new_udp_header addr with Some h => Some (h ++ data) | None => None end
    | None => None
    end
  | _ => None
  end.

Lemma head_app {A} (l1 l2 : list A) : head (l1 ++ l2) = match head l1 with Some x => Some x | None => head l2 end.
Proof. by destruct l1. Qed.

Lemma first_snoc ins i :
  first_sender (ins ++ [i]) =
  match first_sender ins with Some a => Some a | None => first_sender [i] end.
Proof. unfold first_sender. rewrite omap_app. apply head_app. Qed.

Lemma no_sender_no_request ins a : first_sender ins = None → omap (request_of a) ins = [].
Proof.
  unfold first_sender. induction ins as [|i ins IH]; [done|].
  destruct i as [[[p f]|e|]| |]; cbn; [done|exact IH..].
Qed.

(** What one more iteration adds. *)
Record turn_ok (ins : list input) (i : input) (s s' : assoc) : Prop := {
  to_pin : client_addr s' = first_sender (ins ++ [i]);
  to_tunnel : tunnelled s' = tunnelled s ++
    match client_addr s' with Some a => option_list (request_of a i) | None => [] end;
  to_relay : ∀ b a, (b, a) ∈ relayed s' →
    (b, a) ∈ relayed s ∨ (client_addr s' = Some a ∧ reply_of i = Some b);
}.

Lemma turn_continue ins i s s' :
  client_addr s = first_sender ins → turn i s = (Ok Continue, s') → turn_ok ins i s s'.
Proof.
  intros Hpin Hrun. assert (Hw : wp (turn i) (λ r s', r = Ok Continue → turn_ok ins i s s') s).
  2:{ by apply (wp_run _ _ _ _ _ Hw Hrun). }
  clear Hrun s'. destruct i as [recv|received sent|read]; cbn [turn].
  - destruct recv as [[packet from]|e|]; cbn [context map_err]; wp_step; wp_step; [|done..].
    wp_step. wp_step. cbn [Datatypes.id].
    destruct (bool_decide_reflect (client_addr s ≠ None ∧ client_addr s ≠ Some from)) as [[Hn Hf]|Hg].
    + wp_step. intros _. destruct (client_addr s) as [a|] eqn:Ha; [|done]. split.
      * rewrite Ha, first_snoc. by rewrite <-Hpin.
      * rewrite Ha. cbn. rewrite decide_False by congruence. by rewrite app_nil_r.
      * auto.
    + assert (Hfrom : first_sender (ins ++ [FromClient (Ok (packet, from))]) = Some from).
      { rewrite first_snoc, <-Hpin. destruct (client_addr s) as [a|]; [|done].
        destruct (decide (a = from)) as [->|Hne]; [done|]. destruct Hg. split; [done|congruence]. }
      wp_step. wp_step. wp_step.
      assert (Hreq : ∀ s1, client_addr s1 = Some from → relayed s1 = relayed s →
        tunnelled s1 = tunnelled s ++ option_list (match parse_udp_request packet with
          | Some (O, target, data) => Some (data, target) | _ => None end) →
        turn_ok ins (FromClient (Ok (packet, from))) s s1).
      { intros s1 Hc Hr Ht. split; [by rewrite Hfrom| |rewrite Hr; auto].
        rewrite Ht, Hc. cbn. by rewrite decide_True. }
      destruct (parse_udp_request packet) as [[[[|n] target] data]|]; repeat wp_step; intros _;
        apply Hreq; try done; cbn; by rewrite app_nil_r.
  - destruct received as [[data from]|e|]; cbn [context map_err]; wp_step; wp_step; [|done..].
    wp_step. wp_step. cbn [Datatypes.id].
    assert (Hsame : turn_ok ins (FromTunnel (Ok (data, from)) sent) s s).
    { split; [by rewrite first_snoc, <-Hpin; destruct (client_addr s)| |auto].
      destruct (client_addr s); by rewrite app_nil_r. }
    destruct (client_addr s) as [dst|] eqn:Hc; [|by wp_step].
    destruct (addr_parse from) as [addr|] eqn:Hp; [|by wp_step].
    destruct (new_udp_header addr) as [h|] eqn:Hh; [|by wp_step].
    wp_step. wp_step. destruct sent as [[]|e|]; cbn [context map_err]; wp_step; wp_step; [|done..].
    wp_step. intros _.
    split; cbn.
    + by rewrite Hc, first_snoc, <-Hpin.
    + by rewrite Hc, app_nil_r.
    + intros b a [Hin|Hin]%elem_of_app; [by left|]. apply list_elem_of_singleton in Hin as [= -> ->].
      right. rewrite Hp, Hh. done.
  - assert (Hsame : turn_ok ins (Control read) s s).
    { split; [by rewrite first_snoc, <-Hpin; destruct (client_addr s)| |auto].
      destruct (client_addr s); by rewrite app_nil_r. }
    destruct read as [[|n]|e|]; by wp_step.
Qed.

(** C33: An association belongs to the first sender: it stays pinned to it, every
    datagram sent into the tunnel is an unfragmented request of that client, in
    order and with none missing, and replies go to that client only. *)
Theorem association_pinned ins s :
  runs ins s →
  client_addr s = first_sender ins ∧
  tunnelled s = match first_sender ins with Some a => omap (request_of a) ins | None => [] end ∧
  ∀ b a, (b, a) ∈ relayed s → first_sender ins = Some a ∧ ∃ i, i ∈ ins ∧ reply_of i = Some b.
Proof.
  induction 1 as [|ins s i s' Hr (Hp & Ht & Hrel) Hturn]; [by split_and!; [..|intros b a ?%not_elem_of_nil]|].
  destruct (turn_continue ins i s s' Hp Hturn) as [Hp' Ht' Hrel']. split_and!; [done| |].
  - rewrite Ht', Hp', Ht, first_snoc. rewrite Hp', first_snoc in Ht'.
    destruct (first_sender ins) as [a|] eqn:Hf; [by rewrite omap_app; cbn; destruct (request_of a i)|].
    destruct (first_sender [i]) as [a|]; [|done].
    rewrite omap_app, no_sender_no_request by done. cbn. by destruct (request_of a i).
  - intros b a Hin. rewrite first_snoc. destruct (Hrel' b a Hin) as [Hold|[Hc Hi]].
    + destruct (Hrel b a Hold) as (Hfs & i' & Hi' & Hre). rewrite Hfs. split; [done|].
      exists i'. split; [set_solver|done].
    + rewrite Hp', first_snoc in Hc. split; [done|]. exists i. split; [set_solver|done].
Qed.

(** The loop over the iterations that get ready; [Pending] once they run out. *)
Fixpoint assoc_loop (ins : list input) : stm assoc chain (Poll ()) :=
  match ins with
  | [] => mret Pending
  | i :: ins => f ← turn i; match f with Continue => assoc_loop ins | Break => mret (Ready ()) end
  end.

(** The association was left as the iterations that went on left it, and one
    more when that broke off with an error. *)
Lemma assoc_loop_runs pre s ins :
  runs pre s →
  wp (assoc_loop ins) (λ r s', ∃ n s0, n ≤ length ins ∧ runs (pre ++ take n ins) s0 ∧
    match r with
    | Ok Pending => n = length ins ∧ s' = s0
    | _ => ∃ i o, ins !! n = Some i ∧ turn i s0 = (o, s') ∧ o ≠ Ok Continue
    end) s.
Proof.
  revert pre s. induction ins as [|i ins IH]; intros pre s Hr; cbn [assoc_loop].
  { wp_step. exists 0, s. rewrite take_nil, app_nil_r. by split_and!. }
  wp_step. apply wp_of_run. intros [[|]|e|] s' Ht.
  - eapply wp_mono; [apply (IH (pre ++ [i])); by eapply runs_snoc|].
    intros r s2 (n & s0 & Hn & Hr0 & Hend). exists (S n), s0. cbn. rewrite <-app_assoc in Hr0.
    split_and!; [lia|done|]. destruct r as [[|[]]|e|]; [destruct Hend as [-> ->]|..]; done.
  - wp_step. exists 0, s. rewrite app_nil_r. split_and!; [lia|done|]. by exists i, (Ok Break).
  - exists 0, s. rewrite app_nil_r. split_and!; [lia|done|]. by exists i, (Err e).
  - exists 0, s. rewrite app_nil_r. split_and!; [lia|done|]. by exists i, Panic.
Qed.

(** The control connection closed, or failed. *)
Definition closes (i : input) : bool := match i with Control (Ok O | Err _) => true | _ => false end.

Lemma assoc_loop_ends s ins : (assoc_loop ins s).1 = Ok Pending → existsb closes ins = false.
Proof.
  revert s. induction ins as [|i ins IH]; intros s; [done|]. cbn [assoc_loop existsb].
  unfold mbind, stm_bind. destruct (turn i s) as [[[|]|e|] s'] eqn:Ht; [|done..].
  intros Hp. rewrite (IH s' Hp), orb_false_r. destruct i as [| |[[|n]|e|]]; done.
Qed.

End association.

(** ** A connection *)

Inductive Socks5Command := TCPConnect | TCPBind | UDPAssociate.
(** The reply codes the code sends; success carries the bound address. *)
Inductive Reply :=
| Succeeded (bound : SocketAddr)
| CommandNotSupported
| HostUnreachable
| GeneralFailure.

Definition UNSPECIFIED : SocketAddr := socket_addr (V4 0) 0.

(** What the calls on one accepted connection give, the client's among them. *)
Record conn := {
  local_addr : outcome rstr SocketAddr;
  accept_no_auth : outcome rstr ();
  read_command : outcome rstr (Socks5Command * rstr);
  write_reply : Reply → outcome rstr ();
  tcp : rstr → outcome chain ();
  copy_bidirectional : outcome rstr ();
  bind_relay : IpAddr → outcome rstr ();
  relay_local_addr : outcome rstr SocketAddr;
  udp : outcome chain ();
}.

Section connection.
Context `{Socks5Framing, SocketAddrText}.

(** What the connection shows: the replies written to the SOCKS client, the
    target its stream was spliced to, and its association. *)
Record shown := { replies : list Reply; spliced : option rstr; association : assoc }.
Definition nothing : shown := {| replies := []; spliced := None; association := new_assoc |}.
Definition add_reply (r : Reply) (s : shown) : shown :=
  {| replies := replies s ++ [r]; spliced := spliced s; association := association s |}.
Definition set_spliced (t : rstr) (s : shown) : shown :=
  {| replies := replies s; spliced := Some t; association := association s |}.
Definition set_association (a : assoc) (s : shown) : shown :=
  {| replies := replies s; spliced := spliced s; association := a |}.

(** [reply_success] and [reply_error]. *)
Definition reply (c : conn) (r : Reply) : stm shown chain () :=
  _ ← modify (add_reply r); lift (map_err (λ e, [e]) (write_reply c r)).

Definition handle_connect (c : conn) (target : rstr) : stm shown chain () :=
  match tcp c target with
  | Err e => _ ← reply c HostUnreachable; throw (lit "open tunnel" :: e)
  | Panic => lift Panic
  | Ok _ =>
    _ ← reply c (Succeeded UNSPECIFIED);
    _ ← modify (set_spliced target);
    lift (context (lit "relay TCP") (copy_bidirectional c))
  end.

Definition handle_udp_associate (c : conn) (local_ip : IpAddr) (ins : list input) :
    stm shown chain (Poll ()) :=
  _ ← lift (context (lit "bind UDP relay") (bind_relay c local_ip));
  relay_addr ← lift (context (lit "relay addr") (relay_local_addr c));
  match udp c with
  | Err e => _ ← reply c GeneralFailure; throw (lit "open UDP session" :: e)
  | Panic => lift Panic
  | Ok _ =>
    _ ← reply c (Succeeded relay_addr);
    zoom association set_association (assoc_loop ins)
  end.

(** [handle], over the iterations of an association. *)
Definition handle (c : conn) (ins : list input) : stm shown chain (Poll ()) :=
  local ← lift (context (lit "connection local address") (local_addr c));
  _ ← lift (context (lit "SOCKS5 handshake") (accept_no_auth c));
  '(cmd, target) ← lift (context (lit "read SOCKS5 command") (read_command c));
  match cmd with
  | TCPConnect => _ ← handle_connect c target; mret (Ready ())
  | UDPAssociate => handle_udp_associate c (ip local) ins
  | TCPBind => _ ← reply c CommandNotSupported; throw [lit "SOCKS5 BIND is not supported"]
  end.

(** The command that was read, with its target. *)
Definition command (c : conn) : option (Socks5Command * rstr) :=
  match local_addr c, accept_no_auth c, read_command c with Ok _, Ok _, Ok r => Some r | _, _, _ => None end.

(** The one answer a connection owes its client; none when the tunnel call
    panicked, the handshake failed or the relay socket could not be had. *)
Definition answer (c : conn) : option Reply :=
  '(cmd, target) ← command c;
  match cmd with
  | TCPBind => Some CommandNotSupported
  | TCPConnect =>
    match tcp c target with
    | Ok _ => Some (Succeeded UNSPECIFIED)
    | Err _ => Some HostUnreachable
    | Panic => None
    end
  | UDPAssociate =>
    match local_addr c with
    | Ok a =>
      match bind_relay c (ip a), relay_local_addr c, udp c with
      | Ok _, Ok relay, Ok _ => Some (Succeeded relay)
      | Ok _, Ok _, Err _ => Some GeneralFailure
      | _, _, _ => None
      end
    | _ => None
    end
  end.

(** A connection that has answered with [r]: what else it may have done. *)
Record served (c : conn) (ins : list input) (r : outcome chain (Poll ())) (s : shown) : Prop := {
  se_replies : replies s = option_list (answer c);
  se_spliced t : spliced s = Some t →
    command c = Some (TCPConnect, t) ∧ is_ok (tcp c t) = true ∧ write_reply c (Succeeded UNSPECIFIED) = Ok ();
  se_association : association s ≠ new_assoc →
    ∃ t a, command c = Some (UDPAssociate, t) ∧ answer c = Some (Succeeded a) ∧
      write_reply c (Succeeded a) = Ok () ∧ is_ok (udp c) = true;
  se_trace : association s = new_assoc ∨ ∃ n s0, runs (take n ins) s0 ∧
    (association s = s0 ∨ ∃ i o, ins !! n = Some i ∧ turn i s0 = (o, association s) ∧ o ≠ Ok Continue);
  se_pending : r = Ok Pending → existsb closes ins = false ∧ ∃ t, command c = Some (UDPAssociate, t);
}.

(** A connection that only answered. *)
Lemma served_idle c ins r s :
  replies s = option_list (answer c) → spliced s = None → association s = new_assoc → r ≠ Ok Pending →
  served c ins r s.
Proof. intros Hr Hs Ha Hp. split; [done|by rewrite Hs|done|by left|done]. Qed.

Lemma wp_reply c r (Q : outcome chain () → shown → Prop) s :
  Q (map_err (λ e, [e]) (write_reply c r)) (add_reply r s) → wp (reply c r) Q s.
Proof. intros HQ. unfold reply. wp_step. wp_step. by wp_step. Qed.

Lemma wp_handle_connect c target ins local :
  local_addr c = Ok local → accept_no_auth c = Ok () → read_command c = Ok (TCPConnect, target) →
  wp (handle_connect c target) (λ r s, served c ins ((λ _, Ready ()) <$> r) s) nothing.
Proof.
  intros Hl Hn Hc. assert (Hcmd : command c = Some (TCPConnect, target)) by (unfold command; by rewrite Hl, Hn, Hc).
  assert (Ha : answer c = match tcp c target with Ok _ => Some (Succeeded UNSPECIFIED)
    | Err _ => Some HostUnreachable | Panic => None end) by (unfold answer; by rewrite Hcmd).
  unfold handle_connect. destruct (tcp c target) as [[]|e|] eqn:Ht.
  - wp_step. apply wp_reply. destruct (write_reply c _) as [[]|e|] eqn:Hw; cbn [map_err];
      [|by apply served_idle; rewrite ?Ha..].
    wp_step. wp_step. wp_step. split; cbn; [by rewrite Ha| |done|by left|by destruct (copy_bidirectional c)].
    intros t [= <-]. by rewrite Ht.
  - wp_step. apply wp_reply. by destruct (write_reply c _) as [[]|x|]; cbn [map_err]; [wp_step|..];
      apply served_idle; rewrite ?Ha.
  - wp_step. apply served_idle; by rewrite ?Ha.
Qed.

Lemma wp_handle_udp_associate c target ins local :
  local_addr c = Ok local → accept_no_auth c = Ok () → read_command c = Ok (UDPAssociate, target) →
  wp (handle_udp_associate c (ip local) ins) (served c ins) nothing.
Proof.
  intros Hl Hn Hc. assert (Hcmd : command c = Some (UDPAssociate, target)) by (unfold command; by rewrite Hl, Hn, Hc).
  assert (Ha : answer c = match bind_relay c (ip local), relay_local_addr c, udp c with
    | Ok _, Ok relay, Ok _ => Some (Succeeded relay) | Ok _, Ok _, Err _ => Some GeneralFailure
    | _, _, _ => None end) by (unfold answer; by rewrite Hcmd, Hl).
  unfold handle_udp_associate.
  destruct (bind_relay c _) as [[]|e|]; cbn [context map_err]; wp_step; wp_step;
    [|by apply served_idle; rewrite ?Ha..].
  destruct (relay_local_addr c) as [relay|e|]; cbn [context map_err]; wp_step; wp_step;
    [|by apply served_idle; rewrite ?Ha..].
  destruct (udp c) as [[]|e|] eqn:Hu.
  - wp_step. apply wp_reply. destruct (write_reply c _) as [[]|e|] eqn:Hw; cbn [map_err];
      [|by apply served_idle; rewrite ?Ha..].
    unfold zoom. apply wp_of_run. intros r s'. cbn.
    destruct (assoc_loop ins new_assoc) as [r' a] eqn:Hrun. intros [= <- <-].
    destruct (wp_run _ _ _ _ _ (assoc_loop_runs [] new_assoc ins runs_nil) Hrun) as (n & s0 & _ & Hr0 & Hend).
    split; cbn.
    + by rewrite Ha.
    + done.
    + intros _. exists target, relay. by rewrite Ha, Hu.
    + right. exists n, s0. split; [done|]. destruct r' as [[|[]]|e|]; [left; apply Hend|..]; right; apply Hend.
    + intros ->. split; [|by exists target]. apply (assoc_loop_ends new_assoc). by rewrite Hrun.
  - wp_step. apply wp_reply. by destruct (write_reply c _) as [[]|x|]; cbn [map_err]; [wp_step|..];
      apply served_idle; rewrite ?Ha.
  - wp_step. apply served_idle; by rewrite ?Ha.
Qed.

(** C32: A connection answers its client once, with the answer its calls call for:
    BIND is refused, a target that cannot be reached is reported, success is
    only said when the tunnel is there; the stream is spliced to the requested
    target, or datagrams relayed, only after a success that was written; an
    association's state is that of the iterations it ran, and only a connection
    with an open control stream goes on. *)
Theorem handle_answers_once c ins : let '(r, s) := handle c ins nothing in served c ins r s.
Proof.
  enough (Hw : wp (handle c ins) (served c ins) nothing) by (unfold wp in Hw; by destruct (handle c ins nothing)).
  assert (Hnone : command c = None → answer c = None) by (unfold answer; by intros ->).
  unfold handle. destruct (local_addr c) as [local|e|] eqn:Hl; cbn [context map_err]; wp_step; wp_step;
    [|apply served_idle; rewrite ?Hnone; try done; unfold command; by rewrite ?Hl..].
  destruct (accept_no_auth c) as [[]|e|] eqn:Hn; cbn [context map_err]; wp_step; wp_step;
    [|apply served_idle; rewrite ?Hnone; try done; unfold command; by rewrite ?Hl, ?Hn..].
  destruct (read_command c) as [[[] target]|e|] eqn:Hc; cbn [context map_err]; wp_step; wp_step;
    [..|apply served_idle; rewrite ?Hnone; try done; unfold command; by rewrite ?Hl, ?Hn, ?Hc
    |apply served_idle; rewrite ?Hnone; try done; unfold command; by rewrite ?Hl, ?Hn, ?Hc].
  - wp_step. eapply wp_mono; [by eapply wp_handle_connect|]. by intros [[]|e|] s Hs; [wp_step|..].
  - wp_step. apply wp_reply. assert (Ha : answer c = Some CommandNotSupported).
    { unfold answer, command. by rewrite Hl, Hn, Hc. }
    by destruct (write_reply c _) as [[]|x|]; cbn [map_err]; [wp_step|..]; apply served_idle; rewrite ?Ha.
  - by eapply wp_handle_udp_associate.
Qed.

(** ** The server *)

(** [serve]: every accepted connection gets a task of its own. The tasks run
    [handle]; their results are dropped. *)
Definition accepted : Type := conn * list input.
Record process := { printed : list rstr; spawned : list accepted }.
Definition eprintln (line : rstr) (p : process) : process :=
  {| printed := printed p ++ [line]; spawned := spawned p |}.
Definition spawn (a : accepted) (p : process) : process :=
  {| printed := printed p; spawned := spawned p ++ [a] |}.
Fixpoint serve (accepts : list (outcome rstr accepted)) : stm process chain (Poll ()) :=
  match accepts with
  | [] => mret Pending
  | a :: accepts =>
    a ← lift (context (lit "accept SOCKS5 connection") a); _ ← modify (spawn a); serve accepts
  end.

Definition bool_to_string (b : bool) : rstr := if b then lit "true" else lit "false".
Definition connected_line (server : SocketAddr) (info : Transport.HandshakeInfo) : rstr :=
  lit "connected to " ++ addr_to_string server ++
  lit " (udp_enabled=" ++ bool_to_string (Transport.udp_enabled info) ++
  lit ", tx=" ++ to_dec (Transport.tx info) ++ lit ")".

(** [run]: [parts] is what the blocking task gave, [connect] the client's, the
    listener's calls are given. *)
Definition run (parts : outcome rstr (outcome chain (SocketAddr * ClientConfig.Config)))
    (connect : ClientConfig.Config → outcome ConnectFailure Transport.HandshakeInfo)
    (bind : SocketAddr → outcome rstr ()) (local : outcome rstr SocketAddr)
    (accepts : list (outcome rstr accepted)) : stm process chain (Poll ()) :=
  parts ← lift (context (lit "join DNS resolution") parts);
  '(listen, config) ← lift parts;
  let server := ClientConfig.server_addr config in
  info ← lift (context (lit "connect to server") (map_err connect_failure_display (connect config)));
  _ ← modify (eprintln (connected_line server info));
  _ ← lift (context (lit "bind SOCKS5 listener") (bind listen));
  local ← lift (context (lit "SOCKS5 listener local address") local);
  _ ← modify (eprintln (lit "SOCKS5 listening on " ++ addr_to_string local));
  serve accepts.

(** A failed accept ends the server; until then every connection is served. *)
Lemma serve_spec accepts p :
  wp (serve accepts) (λ r p', ∃ as_ rest, accepts = (Ok <$> as_) ++ rest ∧
    p' = {| printed := printed p; spawned := spawned p ++ as_ |} ∧
    match r with
    | Ok Pending => rest = []
    | Err c => ∃ e rest', rest = Err e :: rest' ∧ c = [lit "accept SOCKS5 connection"; e]
    | Panic => ∃ rest', rest = Panic :: rest'
    | Ok (Ready _) => False
    end) p.
Proof.
  revert p. induction accepts as [|a accepts IH]; intros p; cbn [serve].
  { wp_step. exists [], []. rewrite (app_nil_r (spawned p)). by destruct p. }
  destruct a as [a|e|]; cbn [context map_err]; wp_step; wp_step.
  - wp_step. wp_step. eapply wp_mono; [apply IH|]. intros r p' (as_ & rest & -> & -> & Hr).
    exists (a :: as_), rest. cbn. by rewrite <-app_assoc.
  - exists [], (Err e :: accepts). rewrite (app_nil_r (spawned p)). split_and!; [done|by destruct p|by eauto].
  - exists [], (Panic :: accepts). rewrite (app_nil_r (spawned p)). split_and!; [done|by destruct p|by eauto].
Qed.

End connection.

(** ** A concrete association *)

#[local] Instance ex_framing : Socks5Framing := {|
  parse_udp_request p := match p with x00 :: d => Some (0, lit "t", d) | _ => None end;
  new_udp_header _ := Some [x00];
|}.
#[local] Program Instance ex_text : SocketAddrText := {|
  addr_to_string a := pos_bytes (encode a);
  addr_parse b := decode (bytes_pos b);
|}.
Next Obligation. intros a. cbv beta. rewrite (bytes_pos_bytes (encode a)). apply decode_encode. Qed.

Definition ex_a : SocketAddr := socket_addr (V4 0x7f000001) 4000.
Definition ex_b : SocketAddr := socket_addr (V4 0x7f000001) 4001.
Definition ex_inputs : list input :=
  [FromClient (Ok ([x00; x61], ex_a)); FromClient (Ok ([x00; x62], ex_b))].
Definition ex_s1 : assoc := {| client_addr := Some ex_a; tunnelled := [([x61], lit "t")]; relayed := [] |}.

Lemma association_pinned_witness :
  runs ex_inputs ex_s1 ∧ tunnelled ex_s1 = omap (request_of ex_a) ex_inputs.
Proof.
  assert (Hr : runs ex_inputs ex_s1).
  { apply (runs_snoc [FromClient (Ok ([x00; x61], ex_a))] ex_s1); [|vm_compute; reflexivity].
    apply (runs_snoc [] new_assoc); [apply runs_nil|vm_compute; reflexivity]. }
  split; [exact Hr|]. destruct (association_pinned _ _ Hr) as (_ & Ht & _). exact Ht.
Defined.


End Socks5.
