(* ===== verification/Tun.v ===== *)
(** * Tun: the TUN front-end

    Models [transport-tun/src/lib.rs]: the command line with its defaults,
    [build_config], and [run]: connect, open the device, start the tunnel of
    [Dataplane], wait for Ctrl-C, trigger the shutdown, print the final
    counters. The device and the signal are the system's: their results are
    given. The state of [run] is what it printed. *)
From S2P Require Import Prelude RustStr Errors Profile Net ClientConfig Transport Link Netstack Session Dataplane.
Import Net Errors RustStr.

Module Tun.

(** [Display] of an [Ipv4Addr] and of a [bool]. *)
Definition octet (z i : Z) : rstr := to_dec (Z.land (Z.shiftr z (8 * i)) 255).
Definition ipv4_to_string (z : Z) : rstr :=
  octet z 3 ++ lit "." ++ octet z 2 ++ lit "." ++ octet z 1 ++ lit "." ++ octet z 0.
Definition bool_to_string (b : bool) : rstr := if b then lit "true" else lit "false".

(** [tun_prefix] and [tun_prefix6] are a [u8], [mtu] a [u16]. *)
Record Cli := {
  url : rstr;
  tun_addr : Z;
  tun_prefix : Z;
  tun_addr6 : option Z;
  tun_prefix6 : Z;
  mtu : Z;
}.
(** What [clap] fills in for a command line of just the link. *)
Definition cli_defaults (url : rstr) : Cli :=
  {| url := url; tun_addr := 0x0a000001; tun_prefix := 24; tun_addr6 := None; tun_prefix6 := 64; mtu := 1500 |}.

(** What the device is built with. *)
Record Device := { ipv4 : Z * Z; device_mtu : Z; ipv6 : option (Z * Z) }.
Definition device_settings (cli : Cli) : Device :=
  {| ipv4 := (tun_addr cli, tun_prefix cli); device_mtu := mtu cli;
     ipv6 := (λ addr6, (addr6, tun_prefix6 cli)) <$> tun_addr6 cli |}.

Section tun.
Context `{PercentEncoding, FormUrlencoded, Resolver, Upstream U W, !EqDecision U, SocketAddrText}.

Definition build_config (url : rstr) : outcome chain ClientConfig.Config :=
  profile ← ok_or [lit "not a hysteria2:// link: " ++ url] (Link.parse_uri url);
  wrap_err (lit "build client config from link")
    (map_err (λ e, [config_error_display e]) (ClientConfig.from_profile profile)).

(** What the calls of [run] outside the workspace give. *)
Record env := {
  blocking : outcome rstr ();
  connect : ClientConfig.Config → outcome ConnectFailure (W * Transport.HandshakeInfo);
  build_async : Device → outcome rstr ();
  device_name : outcome rstr rstr;
  build_stack : Netstack.StackBuilder → outcome rstr Netstack.Built;
}.

Definition eprintln (line : rstr) : stm (list rstr) chain () := modify (λ printed, printed ++ [line]).

Definition connected_line (server : SocketAddr) (info : Transport.HandshakeInfo) : rstr :=
  lit "connected to " ++ addr_to_string server ++
  lit " (udp_enabled=" ++ bool_to_string (Transport.udp_enabled info) ++
  lit ", tx=" ++ to_dec (Transport.tx info) ++ lit ")".
Definition up_lines (cli : Cli) (name : rstr) : rstr :=
  lit "TUN up: " ++ name ++ lit " (" ++ ipv4_to_string (tun_addr cli) ++ lit "/" ++
  to_dec (tun_prefix cli) ++ lit ", mtu " ++ to_dec (mtu cli) ++
  lit ") — add routes into it to proxy traffic, e.g." ++ [x0a] ++
  lit "  sudo route -n add -net <dest> -interface " ++ name.
Definition disconnected_line (s : Dataplane.Stats) : rstr :=
  lit "disconnected (tx=" ++ to_dec (Dataplane.s_tx s) ++ lit " rx=" ++ to_dec (Dataplane.s_rx s) ++
  lit " tcp_flows=" ++ to_dec (Dataplane.s_tcp_flows s) ++ lit " udp_sessions=" ++
  to_dec (Dataplane.s_udp_sessions s) ++ lit " flow_errors=" ++ to_dec (Dataplane.s_flow_errors s) ++ lit ")".

(** [run] up to the wait for Ctrl-C. *)
Definition start (e : env) (cli : Cli) : stm (list rstr) chain (Dataplane.orch (U:=U) (W:=W)) :=
  _ ← lift (context (lit "join client config build") (blocking e));
  config ← lift (build_config (url cli));
  let server := ClientConfig.server_addr config in
  '(client, info) ← lift (context (lit "connect to server") (map_err connect_failure_display (connect e config)));
  _ ← eprintln (connected_line server info);
  _ ← lift (context (lit "open TUN device") (build_async e (device_settings cli)));
  name ← lift (context (lit "TUN name") (device_name e));
  _ ← eprintln (up_lines cli name);
  let netstack := Dataplane.new_config (Z.to_nat (mtu cli)) in
  handle ← lift (Dataplane.spawn (build_stack e) netstack client);
  _ ← eprintln (lit "connected; press Ctrl-C to disconnect");
  mret handle.

(** The end of [run], once the tunnel has returned. *)
Definition finish (s : Dataplane.Stats) : stm (list rstr) chain () := eprintln (disconnected_line s).

(** A run of the program: the tunnel works until Ctrl-C ([ls1]), winds down
    ([ls2]), and [join] has its result. [o] is the tunnel at the end. *)
Inductive run (e : env) (cli : Cli) :
    list rstr → list (Dataplane.label (U:=U)) → Dataplane.orch (U:=U) (W:=W) → Prop :=
| run_until_ctrl_c o0 ls1 o1 ls2 o2 s p0 p1 p2 :
    start e cli [] = (Ok o0, p0) →
    Dataplane.runs o0 ls1 o1 →
    eprintln (lit "disconnecting…") p0 = (Ok (), p1) →
    Dataplane.runs (Dataplane.trigger_shutdown o1) ls2 o2 →
    Dataplane.join o2 = Ready s →
    finish s p1 = (Ok (), p2) →
    run e cli p2 (ls1 ++ [Dataplane.quiet Dataplane.HOther] ++ ls2) o2.

(** Where [start] stops, and what it has printed by then. *)
Lemma start_ok e cli o0 printed :
  start e cli [] = (Ok o0, printed) →
  ∃ config client info name, build_config (url cli) = Ok config ∧
    connect e config = Ok (client, info) ∧ build_async e (device_settings cli) = Ok () ∧
    device_name e = Ok name ∧
    Dataplane.spawn (build_stack e) (Dataplane.new_config (Z.to_nat (mtu cli))) client = Ok o0 ∧
    printed = [connected_line (ClientConfig.server_addr config) info; up_lines cli name;
               lit "connected; press Ctrl-C to disconnect"].
Proof.
  unfold start, mbind, stm_bind, lift, eprintln, modify, mret, stm_ret.
  destruct (blocking e) as [[]|x|]; cbn [context map_err]; [|done..].
  destruct (build_config (url cli)) as [config|x|]; [|done..].
  destruct (connect e config) as [[client info]|x|] eqn:Hc; cbn [context map_err]; [|done..].
  destruct (build_async e (device_settings cli)) as [[]|x|]; cbn [context map_err]; [|done..].
  destruct (device_name e) as [name|x|]; cbn [context map_err]; [|done..].
  destruct (Dataplane.spawn _ _ _) as [o|x|] eqn:Hs; [|done..].
  intros [= <- <-]. exists config, client, info, name. by split_and!.
Qed.

(** The tunnel's steps are one run from where it was spawned. *)
Lemma runs_app (o0 o1 o2 : Dataplane.orch (U:=U) (W:=W)) ls1 ls2 :
  Dataplane.runs o0 ls1 o1 → Dataplane.runs o1 ls2 o2 → Dataplane.runs o0 (ls1 ++ ls2) o2.
Proof.
  intros Hr1. induction 1 as [|ls2 o l o' Hr2 IH Hs]; [by rewrite app_nil_r|].
  rewrite app_assoc. by eapply Dataplane.runs_snoc.
Qed.

Lemma run_runs e cli p ls o :
  run e cli p ls o → ∃ o0 p0, start e cli [] = (Ok o0, p0) ∧ Dataplane.runs o0 ls o ∧
    p = p0 ++ [lit "disconnecting…"; disconnected_line (Dataplane.snapshot o)] ∧
    Dataplane.at_phase o = Dataplane.Ended.
Proof.
  intros [o0 ls1 o1 ls2 o2 s p0 p1 p2 Hst Hr1 Hp1 Hr2 Hj Hp2]. exists o0, p0.
  injection Hp1 as <-. injection Hp2 as <-.
  unfold Dataplane.join in Hj. destruct (Dataplane.at_phase o2) eqn:Hph; try done. injection Hj as <-.
  split_and!; [done| |by rewrite <-app_assoc|done].
  apply (runs_app _ _ _ _ _ Hr1). eapply runs_app; [|exact Hr2].
  apply (Dataplane.runs_snoc o1 [] o1); [apply Dataplane.runs_nil|apply Dataplane.step_signal].
Qed.

(** C18: The program reports what it did. Whatever the tunnel's tasks did between
    the connection and the return, the five lines it prints end with the sums
    over all of it (modulo the width of a counter) of the bytes each way, the
    flows and sessions opened and the failures, of a configuration read from
    the link; the netstack's read buffer holds a packet of the device's MTU; and
    at the end no relay, session or live reply task is left. *)
Theorem run_reports e cli p ls o :
  is_u 16 (mtu cli) → run e cli p ls o →
  ∃ config client info name, build_config (url cli) = Ok config ∧ connect e config = Ok (client, info) ∧
    p = [connected_line (ClientConfig.server_addr config) info; up_lines cli name;
         lit "connected; press Ctrl-C to disconnect"; lit "disconnecting…";
         disconnected_line (Dataplane.totals ls)] ∧
    (device_mtu (device_settings cli) ≤ Z.of_nat (length (Netstack.buf (Dataplane.stack o))))%Z ∧
    Dataplane.relays o = ∅ ∧ Session.map (Dataplane.sessions o) = ∅ ∧
    (∀ k t, Session.tasks (Dataplane.sessions o) !! k = Some t → Session.aborted t = true).
Proof.
  intros Hm Hr. destruct (run_runs _ _ _ _ _ Hr) as (o0 & p0 & Hst & Hruns & -> & Hend).
  destruct (start_ok _ _ _ _ Hst) as (config & client & info & name & Hcfg & Hcon & _ & _ & Hsp & ->).
  destruct (Dataplane.spawn_init _ _ _ _ Hsp) as (n0 & Hb & -> & Hsn).
  destruct (Dataplane.init_counts (U:=U) (Dataplane.new_config (Z.to_nat (mtu cli))) n0 client) as [Hrg Hz].
  destruct (Dataplane.runs_counts _ _ _ Hrg Hz Hruns) as [_ Hsnap].
  destruct (Dataplane.tunnel_runs _ _ _ _ _ Hsn Hruns) as (_ & Hn & _).
  destruct (Dataplane.ended_clean _ _ _ _ _ Hsn Hruns Hend) as (Hrl & Hmap & Htasks).
  exists config, client, info, name. split_and!; [done|done|by rewrite Hsnap| |done..].
  rewrite (Netstack.i_buf _ _ _ (Netstack.net_runs_inv _ _ _ _ _ Hb Hn)). destruct Hm. cbn. lia.
Qed.

End tun.

(** ** A concrete run: connect, Ctrl-C, return *)

#[local] Existing Instance Session.plain_addr_text.
#[local] Existing Instance Session.ex_upstream.
#[local] Existing Instance Link.sample_percent.
#[local] Existing Instance Link.sample_form.
#[local] Program Instance ex_resolver : Resolver := {| to_socket_addrs _ p := Ok [socket_addr (V4 0x01020304) p] |}.
Next Obligation. intros host p l [= <-]. by repeat constructor. Qed.
Next Obligation. done. Qed.

Definition ex_info : Transport.HandshakeInfo :=
  {| Transport.udp_enabled := true; Transport.tx := 7; Transport.server_addr := socket_addr (V4 0x01020304) 443 |}.
Definition ex_env : env (W:=Session.udp_world (St:=())) := {|
  blocking := Ok ();
  connect _ := Ok (Session.ex_world, ex_info);
  build_async _ := Ok ();
  device_name := Ok (lit "utun4");
  build_stack := Netstack.ex_builder;
|}.
Definition ex_cli : Cli := cli_defaults (lit "hysteria2://a@h:443/").
Definition ex_o0 : Dataplane.ex_orch := Dataplane.init (Dataplane.new_config 1500) Netstack.ex_net Session.ex_world.
Definition ex_d1 : Dataplane.ex_orch := Dataplane.trigger_shutdown ex_o0.
Definition ex_d2 : Dataplane.ex_orch := Dataplane.set_phase Dataplane.Draining ex_d1.
Definition ex_d3 : Dataplane.ex_orch :=
  Dataplane.set_phase Dataplane.Stopped (Dataplane.set_stack (Netstack.shutdown (Dataplane.stack ex_d2)) ex_d2).
Definition ex_d4 : Dataplane.ex_orch :=
  Dataplane.set_phase Dataplane.Ended (Dataplane.set_sessions (Session.drop (Dataplane.sessions ex_d3)) ex_d3).
Definition ex_wind_down : list (Dataplane.label (U:=nat)) :=
  [Dataplane.quiet Dataplane.HBreak; Dataplane.ex_torn ex_d3; Dataplane.ex_torn ex_d4].
Definition ex_labels : list (Dataplane.label (U:=nat)) := [Dataplane.quiet Dataplane.HOther] ++ ex_wind_down.
Definition ex_printed : list rstr := (start (U:=nat) ex_env ex_cli []).2.

Lemma ex_wind_runs : Dataplane.runs ex_d1 ex_wind_down ex_d4.
Proof.
  apply (Dataplane.runs_snoc ex_d1 [Dataplane.quiet Dataplane.HBreak; Dataplane.ex_torn ex_d3] ex_d3).
  2:{ apply Dataplane.step_teardown, (Dataplane.teardown_return ex_d3). reflexivity. }
  apply (Dataplane.runs_snoc ex_d1 [Dataplane.quiet Dataplane.HBreak] ex_d2).
  2:{ apply Dataplane.step_teardown, (Dataplane.teardown_infra ex_d2); reflexivity. }
  apply (Dataplane.runs_snoc ex_d1 [] ex_d1); [apply Dataplane.runs_nil|].
  apply (Dataplane.step_turn Dataplane.ShutdownChanged); reflexivity.
Qed.

Lemma run_reports_witness :
  ∃ p, run ex_env ex_cli p ex_labels ex_d4 ∧
    last p = Some (lit "disconnected (tx=0 rx=0 tcp_flows=0 udp_sessions=0 flow_errors=0)").
Proof.
  assert (Hrun : run ex_env ex_cli ((ex_printed ++ [lit "disconnecting…"]) ++
    [disconnected_line (Dataplane.snapshot ex_d4)]) ex_labels ex_d4).
  { apply (run_until_ctrl_c ex_env ex_cli ex_o0 [] ex_o0 ex_wind_down ex_d4 (Dataplane.snapshot ex_d4)
      ex_printed (ex_printed ++ [lit "disconnecting…"])).
    - apply run_result. vm_compute. reflexivity.
    - apply Dataplane.runs_nil.
    - reflexivity.
    - exact ex_wind_runs.
    - reflexivity.
    - reflexivity. }
  eexists. split; [exact Hrun|].
  destruct (run_reports ex_env ex_cli _ _ _ ltac:(split; reflexivity || (vm_compute; discriminate)) Hrun)
    as (config & client & info & name & _ & _ & Hp & _).
  rewrite Hp. vm_compute. reflexivity.
Defined.

End Tun.
