(* ===== verification/WireTests.v ===== *)
(** * WireTests: the unit tests of [internal/], run on the model

    The tests of the wire formats, of fragmentation, of the port grammar and of
    the authentication headers, translated and evaluated: the model gives the
    answers that the repository's own tests ask of the code. A test is the
    conjunction of its assertions; where the code draws at random, the test is
    run for a given sequence of draws. *)
From S2P Require Import Prelude IoRead RustStr Errors Varint Proxy Frag PortUnion Obfs Http.

Declare Scope test_scope.
Notation "a == b" := (bool_decide (a = b)) (at level 70, no associativity) : test_scope.
Local Open Scope test_scope.

(** [assert_eq!] and [assert!], in order. *)
Definition checks (asserts : list bool) : bool := forallb Datatypes.id asserts.
Definition is_err {E A} (m : outcome E A) : bool := match m with Err _ => true | _ => false end.
Definition bytes_of (l : list Z) : list byte := z2b <$> l.

Module VarintTests.
Import Varint.
Local Open Scope Z_scope.

Definition len_matches_the_encoding_boundaries : bool :=
  checks [len 0 == 1%nat; len MAX_VAR_INT1 == 1%nat; len (MAX_VAR_INT1 + 1) == 2%nat;
          len MAX_VAR_INT2 == 2%nat; len (MAX_VAR_INT2 + 1) == 4%nat; len MAX_VAR_INT4 == 4%nat;
          len (MAX_VAR_INT4 + 1) == 8%nat; len MAX_VAR_INT8 == 8%nat].

Definition put_then_read_round_trips_each_length : bool :=
  checks ((λ v,
    match put (E := io_error) (replicate 8 x00) v with
    | Ok (buf, n) => checks [n == len v; read (take n buf) == Ok (v, [])]
    | _ => false
    end) <$> [0; 1; MAX_VAR_INT1; MAX_VAR_INT1 + 1; MAX_VAR_INT2; MAX_VAR_INT2 + 1; MAX_VAR_INT4;
              MAX_VAR_INT4 + 1; MAX_VAR_INT8]).

Definition read_decodes_rfc9000_sample_vectors : bool :=
  checks ((λ '(bytes, want), (fst <$> read (bytes_of bytes)) == Ok want) <$>
    [([0xc2; 0x19; 0x7c; 0x5e; 0xff; 0x14; 0xe8; 0x8c], 151288809941952652);
     ([0x9d; 0x7f; 0x3e; 0x7d], 494878333); ([0x7b; 0xbd], 15293); ([0x25], 37); ([0x40; 0x25], 37)]).

Definition read_errors_on_a_short_buffer : bool :=
  checks [is_err (read []); is_err (read (bytes_of [0x80; 0x01]))].

Example varint_tests : checks [len_matches_the_encoding_boundaries; put_then_read_round_trips_each_length;
  read_decodes_rfc9000_sample_vectors; read_errors_on_a_short_buffer] = true.
Proof. vm_compute. reflexivity. Qed.
End VarintTests.

Module ProxyTests.
Import Proxy.

Definition udp_message_serialize_too_small : bool :=
  serialize (E := io_error)
    {| session_id := 66; packet_id := 77; frag_id := 2; frag_count := 5; addr := lit "random_addr";
       data := lit "random_data" |} (replicate 20 x00) == Ok None.

Definition golden : UdpMessage :=
  {| session_id := 1; packet_id := 1; frag_id := 0; frag_count := 1; addr := lit "example.com:80";
     data := lit "GET /nothing HTTP/1.1" ++ [x0d; x0a] |}.
Definition udp_message_roundtrip_golden : bool :=
  let want := bytes_of
    [0x0; 0x0; 0x0; 0x1; 0x0; 0x1; 0x0; 0x1; 0xe; 0x65; 0x78; 0x61; 0x6d; 0x70; 0x6c; 0x65;
     0x2e; 0x63; 0x6f; 0x6d; 0x3a; 0x38; 0x30; 0x47; 0x45; 0x54; 0x20; 0x2f; 0x6e; 0x6f;
     0x74; 0x68; 0x69; 0x6e; 0x67; 0x20; 0x48; 0x54; 0x54; 0x50; 0x2f; 0x31; 0x2e; 0x31;
     0xd; 0xa]%Z in
  match serialize (E := io_error) golden (replicate MAX_UDP_SIZE x00) with
  | Ok (Some (buf, n)) => checks [take n buf == want; parse_udp_message want == Ok golden]
  | _ => false
  end.

Definition udp_message_roundtrip_large : bool :=
  let long := concat (replicate 10 (lit "some_random_goofy_ahh_address_which_is_very_long_")) in
  let msg := {| session_id := 1329655244; packet_id := 62233; frag_id := 8; frag_count := 19;
                addr := long ++ lit ":9000";
                data := lit "God is great, beer is good, and people are crazy." |} in
  match serialize (E := io_error) msg (replicate MAX_UDP_SIZE x00) with
  | Ok (Some (buf, n)) => checks [n == size msg; parse_udp_message (take n buf) == Ok msg]
  | _ => false
  end.

Definition udp_message_malformed : bool :=
  checks ((λ data, is_err (parse_udp_message (bytes_of data))) <$>
    [[]; [0; 0; 0; 0]; [0; 0; 0; 0; 0; 0; 0; 0; 0; 0; 0; 0];
     [0x66; 0xCC; 0xFF; 0xFF; 0x11; 0x22; 0x33; 0x44; 0x55];
     [0x66; 0xCC; 0xFF; 0xFF; 0x11; 0x22; 0x33; 0x44; 0x90; 0xAA; 0xBB; 0xCC; 0xDD; 0xEE; 0xFF]]%Z).

Definition write_tcp_request_cases (rng : nat → Z) : bool :=
  checks ((λ '(addr, want_prefix),
    match write_tcp_request rng addr with
    | Ok buf => checks [take (length want_prefix) buf == want_prefix;
                        bool_decide (length want_prefix < length buf)]
    | _ => false
    end) <$>
    [(lit "google.com:443", [x44; x01; x0e] ++ lit "google.com:443");
     (lit "client-api.arkoselabs.com:8080", [x44; x01; x1e] ++ lit "client-api.arkoselabs.com:8080");
     ([], [x44; x01; x00])]).

Definition read_tcp_response_cases : bool :=
  checks ((λ '(data, want_ok, want_msg, want_err),
    match read_tcp_response data with
    | Ok (ok, msg, _) => checks [negb want_err; ok == want_ok; msg == want_msg]
    | Err _ => want_err
    | Panic => false
    end) <$>
    [([x00; x0b] ++ lit "hello world" ++ [x00], true, lit "hello world", false);
     ([x01; x06] ++ lit "stop!!" ++ [x05] ++ lit "xxxxx", false, lit "stop!!", false);
     ([x01; x00; x05] ++ lit "xxxxx", false, [], false);
     ([x00; x0b] ++ lit "hoho", false, [], true);
     ([x01; x05] ++ lit "jesus" ++ [x05] ++ lit "x", false, [], true)]).

Example proxy_tests : checks [udp_message_serialize_too_small; udp_message_roundtrip_golden;
  udp_message_roundtrip_large; udp_message_malformed; write_tcp_request_cases Z.of_nat;
  read_tcp_response_cases] = true.
Proof. vm_compute. reflexivity. Qed.
End ProxyTests.

Module FragTests.
Import Proxy Frag.

Definition msg (packet_id frag_id frag_count : Z) (data : rstr) : UdpMessage :=
  {| session_id := 123; packet_id := packet_id; frag_id := frag_id; frag_count := frag_count;
     addr := lit "test:123"; data := data |}.

Definition frag_udp_message_cases : bool :=
  checks ((λ '(data, max_size, want),
    frag_udp_message (E := io_error) true (msg 123 0 1 data) max_size ==
    Ok ((λ '(fid, fc, d), msg 123 fid fc d) <$> want)) <$>
    [(lit "hello", 100%nat, [(0, 1, lit "hello")]);
     (lit "hello", 20%nat, [(0, 2, lit "hel"); (1, 2, lit "lo")]);
     (lit "abcdefgh", 19%nat, [(0, 4, lit "ab"); (1, 4, lit "cd"); (2, 4, lit "ef"); (3, 4, lit "gh")])]%Z).

Definition defragger_cases : list (UdpMessage * option UdpMessage) :=
  [(msg 987 0 1 (lit "hello"), Some (msg 987 0 1 (lit "hello")));
   (msg 987 0 2 (lit "hello "), None);
   (msg 987 1 2 (lit "moto"), Some (msg 987 0 1 (lit "hello moto")));
   (msg 987 0 3 (lit "deco"), None);
   (msg 987 1 3 (lit "*"), None);
   (msg 987 2 3 (lit "27"), Some (msg 987 0 1 (lit "deco*27")));
   (msg 233 1 2 (lit "shinsekai"), None);
   (msg 244 1 2 (lit "what???"), None);
   (msg 233 1 2 (lit " annaijo"), None);
   (msg 233 88 2 (lit "shinsekai"), None);
   (msg 233 0 2 (lit "shinsekai"), Some (msg 233 0 1 (lit "shinsekai annaijo")))].
Definition defragger_sequence : bool :=
  match feed_all (E := io_error) true defragger_default defragger_cases.*1 with
  | Ok (_, answers) => answers == defragger_cases.*2
  | _ => false
  end.

Example frag_tests : checks [frag_udp_message_cases; defragger_sequence] = true.
Proof. vm_compute. reflexivity. Qed.
End FragTests.

Module PortUnionTests.
Import PortUnion.
Local Open Scope Z_scope.

Definition union (ranges : list (Z * Z)) : list PortRange :=
  (λ '(s, e), {| start := s; end_ := e |}) <$> ranges.

Definition parse_cases : bool :=
  checks ((λ '(input, want), parse_port_union (lit input) == Some (union want)) <$>
    [("all"%string, [(0, 65535)]); ("*"%string, [(0, 65535)]); ("1234"%string, [(1234, 1234)]);
     ("5678,1234,9012"%string, [(1234, 1234); (5678, 5678); (9012, 9012)]);
     ("1234-1240"%string, [(1234, 1240)]); ("1240-1234"%string, [(1234, 1240)]);
     ("5678,1200-1236,9100-9012,1234-1240"%string, [(1200, 1240); (5678, 5678); (9012, 9100)]);
     ("5678,1200-1236,65531-65535,65532-65534,9100-9012,1234-1240"%string,
       [(1200, 1240); (5678, 5678); (9012, 9100); (65531, 65535)]);
     ("5678,1200-1236,65532-65535,65531-65534,9100-9012,1234-1240"%string,
       [(1200, 1240); (5678, 5678); (9012, 9100); (65531, 65535)])]) &&
  checks ((λ input, parse_port_union (lit input) == None) <$>
    [""; "1234-"; "1234-ggez"; "233,"; "1234-1240-1250"; "-,,"; "http"]%string).

Definition ports_expansion : bool :=
  checks [ports (union [(1234, 1234)]) == [1234];
          ports (union [(1234, 1236)]) == [1234; 1235; 1236];
          ports (union [(1234, 1236); (5678, 5680); (9000, 9002)]) ==
            [1234; 1235; 1236; 5678; 5679; 5680; 9000; 9001; 9002];
          ports (union [(65535, 65535)]) == [65535];
          ports (union [(65530, 65535)]) == [65530; 65531; 65532; 65533; 65534; 65535];
          ports (union [(65530, 65535); (1234, 1236)]) ==
            [65530; 65531; 65532; 65533; 65534; 65535; 1234; 1235; 1236]].

Definition contains_checks_ranges : bool :=
  let u := union [(1000, 2000); (3000, 3000)] in
  checks [contains u 1500; contains u 3000; negb (contains u 2500)].

Example portunion_tests : checks [parse_cases; ports_expansion; contains_checks_ranges] = true.
Proof. vm_compute. reflexivity. Qed.
End PortUnionTests.

Module ObfsTests.
Import Obfs.

Definition psk_below_minimum_is_rejected : bool := checks [is_err (new (lit "abc")); is_ok (new (lit "abcd"))].

(** The other two run with a given hash; the thousand rounds with the inputs of
    the [rounds] asked for, the two calls with their draws. *)
Definition round_input (round : Z) : list byte :=
  (λ i, z2b (Z.lxor (Z.land (Z.of_nat i) 255) (Z.land round 255))) <$> seq 0 1200.
Definition average (f : SalamanderObfuscator → bool) : bool :=
  match new (lit "average_password") with Ok obfs => f obfs | _ => false end.
Definition obfuscate_deobfuscate_roundtrips `{Blake2b256} (rng : nat → Z) (rounds : list Z) : bool :=
  average (λ obfs, checks ((λ round,
    let input := round_input round in
    match obfuscate (E := io_error) obfs rng input (replicate 2048 x00) with
    | Ok (o_out, n) =>
      match deobfuscate (E := io_error) obfs (take n o_out) (replicate 2048 x00) with
      | Ok (d_out, m) => checks [n == length input + SALT_LEN; m == length input; take m d_out == input]
      | _ => false
      end
    | _ => false
    end) <$> rounds)).
Definition ciphertext_differs_each_call_via_salt `{Blake2b256} (rng_a rng_b : nat → Z) : bool :=
  average (λ obfs,
    let call rng := obfuscate (E := io_error) obfs rng (replicate 64 x00) (replicate 2048 x00) in
    match call rng_a, call rng_b with
    | Ok (a, na), Ok (b, nb) => negb (take na a == take nb b)
    | _, _ => false
    end).

#[local] Existing Instance Obfs.sample_blake.
Example obfs_tests : checks [psk_below_minimum_is_rejected;
  obfuscate_deobfuscate_roundtrips Z.of_nat [0; 1; 254; 999]%Z;
  ciphertext_differs_each_call_via_salt Z.of_nat (λ _, 7%Z)] = true.
Proof. vm_compute. reflexivity. Qed.
End ObfsTests.

Module HttpTests.
Import Http.

Definition auth_request_to_header_sets_fields_and_pads (rng : nat → Z) : bool :=
  let h := auth_request_to_header (∅ : gmap (list byte) rstr)
             {| auth := lit "secret-token"; req_rx := 100000 |} rng in
  checks [header_get h REQUEST_HEADER_AUTH == Some (lit "secret-token");
          header_get h COMMON_HEADER_CC_RX == Some (lit "100000");
          match header_get h COMMON_HEADER_PADDING with
          | Some p => bool_decide (256 ≤ length p)
          | None => false
          end].

Definition one_header (k v : rstr) : gmap (list byte) rstr := header_set ∅ k v.

Definition auth_response_from_header_parses : bool :=
  let h := header_set (one_header RESPONSE_HEADER_UDP_ENABLED (lit "true")) COMMON_HEADER_CC_RX (lit "42") in
  auth_response_from_header h == {| udp_enabled := true; resp_rx := 42; rx_auto := false |}.

Definition auth_response_from_header_parses_bool_variants : bool :=
  let enabled v := udp_enabled (auth_response_from_header (one_header RESPONSE_HEADER_UDP_ENABLED (lit v))) in
  checks (enabled <$> ["1"; "t"; "T"; "TRUE"; "true"; "True"]%string) &&
  checks (negb ∘ enabled <$> ["0"; "false"; "no"; ""; "yes"]%string) &&
  negb (udp_enabled (auth_response_from_header (∅ : gmap (list byte) rstr))).

Definition auth_response_from_header_rx_auto : bool :=
  auth_response_from_header (one_header COMMON_HEADER_CC_RX (lit "auto")) ==
  {| udp_enabled := false; resp_rx := 0; rx_auto := true |}.

Example http_tests : checks [auth_request_to_header_sets_fields_and_pads Z.of_nat;
  auth_response_from_header_parses; auth_response_from_header_parses_bool_variants;
  auth_response_from_header_rx_auto] = true.
Proof. vm_compute. reflexivity. Qed.
End HttpTests.
