(* ===== verification/ClientTests.v ===== *)
(** * ClientTests: the unit tests of the client crate, run on the model

    The tests of [client/] and of the congestion controller, and those of the
    [conn-error] crate, translated and evaluated. Name resolution is that of an
    address literal; instants are chosen. *)
From Stdlib Require Import Floats.SpecFloat.
From S2P Require Import Prelude IoRead RustStr Errors Profile Proxy PortUnion Net ClientConfig Tls Hop UdpSession.
From S2P Require Import Transport Counting Brutal WireTests.
Local Open Scope test_scope.

Module ConfigTests.
Import ClientConfig.
Local Open Scope Z_scope.

#[local] Existing Instance Net.SocketAddr_eq_dec.
#[local] Existing Instance PortUnion.PortRange_eq_dec.

Definition localhost : Net.IpAddr := Net.V4 0x7f000001.
Definition config : Config :=
  new (Net.socket_addr localhost 443) (lit "auth") {| server_name := []; ca := None |}.
Definition accepted (c : Config) : bool := is_ok (verify_and_fill c).1.
Definition filled (c : Config) : Config := (verify_and_fill c).2.
Definition with_hop (min max : Z) (c : Config) : Config :=
  {| server_addr := server_addr c; auth := auth c; tls := tls c; quic := quic c; bandwidth := bandwidth c;
     fast_open := fast_open c; obfs := obfs c; hop_ports := PortUnion.parse_port_union (lit "1000-2000");
     hop_interval := {| min := min; max := max |} |}.

Definition defaults_are_filled : bool :=
  let q := quic (filled config) in
  checks [accepted config; initial_stream_receive_window q == 8388608;
          max_connection_receive_window q == 20971520; max_idle_timeout q == from_secs 30;
          keep_alive_period q == from_secs 10].

Definition window_below_minimum_is_rejected : bool :=
  match (verify_and_fill (set_quic (set_isrw 1024 default_quic) config)).1 with
  | Err err => Errors.field err == lit "QUICConfig.InitialStreamReceiveWindow"
  | _ => false
  end.

Definition idle_timeout_bounds_are_enforced : bool :=
  let idle v := accepted (set_quic (set_idle (from_secs v) default_quic) config) in
  checks [negb (idle 1); negb (idle 200); idle 20].

Definition keep_alive_bounds_are_enforced : bool :=
  let keep v := accepted (set_quic (set_keep_alive (from_secs v) default_quic) config) in
  checks [negb (keep 1); negb (keep 90)].

Definition hop_interval_is_validated_only_with_hop_ports : bool :=
  checks [accepted (with_hop 0 0 config); min (hop_interval (filled (with_hop 0 0 config))) == DEFAULT_HOP_INTERVAL;
          negb (accepted (with_hop (from_secs 1) (from_secs 1) config));
          accepted (set_hop_interval {| min := from_secs 1; max := from_secs 1 |} config)].

Definition hop_interval_partial_and_reversed_are_rejected : bool :=
  checks [negb (accepted (with_hop (from_secs 10) 0 config));
          negb (accepted (with_hop (from_secs 30) (from_secs 10) config))].

(** The addresses of the tests are literals. *)
#[local] Program Instance literals : Resolver := {|
  to_socket_addrs host port :=
    if bool_decide (host = lit "127.0.0.1") then Ok [Net.socket_addr localhost port]
    else if bool_decide (host = lit "::1") then Ok [Net.socket_addr (Net.V6 1) port]
    else Err (lit "not a literal");
|}.
Next Obligation. intros host port l. cbv beta. repeat case_bool_decide; intros [= <-]; by repeat constructor. Qed.
Next Obligation. intros host port. cbv beta. by repeat case_bool_decide. Qed.

Definition profile (server auth sni : rstr) (obfs : option (rstr * rstr)) (fast_open : bool) : Profile.Profile :=
  {| Profile.server := server; Profile.auth := auth; Profile.tls := {| Profile.sni := sni |};
     Profile.obfs := (λ '(t, p), {| Profile.obfs_type := t; Profile.password := p |}) <$> obfs;
     Profile.fast_open := fast_open |}.

Definition from_profile_maps_connection_fields : bool :=
  match from_profile (profile (lit "127.0.0.1:8443") (lit "secret") (lit "example.com")
          (Some (lit "salamander", lit "pw")) true) with
  | Ok c => checks [server_addr c == Net.socket_addr localhost 8443; auth c == lit "secret";
      server_name (tls c) == lit "example.com"; ca (tls c) == None; obfs c == Some (lit "pw"); fast_open c;
      hop_ports c == None]
  | _ => false
  end.

Definition from_profile_defaults_sni_and_enables_port_hopping : bool :=
  match from_profile (profile (lit "127.0.0.1:8000-8002") (lit "a") [] None false) with
  | Ok c => checks [server_name (tls c) == lit "127.0.0.1"; Net.port (server_addr c) == 8000;
      match hop_ports c with Some hop => PortUnion.contains hop 8001 | None => false end]
  | _ => false
  end.

Definition from_profile_handles_ipv6_hosts : bool :=
  match from_profile (profile (lit "[::1]:8443") [] [] None false),
        from_profile (profile (lit "::1") [] [] None false) with
  | Ok c, Ok c' => checks [server_addr c == Net.socket_addr (Net.V6 1) 8443; server_name (tls c) == lit "::1";
      server_addr c' == Net.socket_addr (Net.V6 1) 443]
  | _, _ => false
  end.

Definition from_profile_rejects_unsupported_obfs : bool :=
  is_err (from_profile (profile (lit "127.0.0.1:443") [] [] (Some (lit "gecko", lit "x")) false)).

Example config_tests : checks [defaults_are_filled; window_below_minimum_is_rejected;
  idle_timeout_bounds_are_enforced; keep_alive_bounds_are_enforced;
  hop_interval_is_validated_only_with_hop_ports; hop_interval_partial_and_reversed_are_rejected;
  from_profile_maps_connection_fields; from_profile_defaults_sni_and_enables_port_hopping;
  from_profile_handles_ipv6_hosts; from_profile_rejects_unsupported_obfs] = true.
Proof. vm_compute. reflexivity. Qed.
End ConfigTests.

Module HopTests.
Import ClientConfig.
Local Open Scope Z_scope.

Definition next_delay_with_equal_bounds_is_constant (d : Z) : bool :=
  Hop.next_delay (E := io_error) {| min := from_secs 7; max := from_secs 7 |} d == Ok (from_secs 7).

Definition next_delay_stays_within_inclusive_bounds (draws : list Z) : bool :=
  checks ((λ d,
    match Hop.next_delay (E := io_error) {| min := from_secs 10; max := from_secs 30 |} d with
    | Ok delay => (from_secs 10 <=? delay) && (delay <=? from_secs 30)
    | _ => false
    end) <$> draws).

Example hop_tests : checks [next_delay_with_equal_bounds_is_constant 3;
  next_delay_stays_within_inclusive_bounds [0; 1; from_secs 20; from_secs 20 + 1; 2 ^ 64 - 1]] = true.
Proof. vm_compute. reflexivity. Qed.
End HopTests.

Module ErrorsTests.
Import Errors.
Local Open Scope Z_scope.

Definition ALL : list ConnError := [Unknown; AuthFailed; ServerUnreachable; Timeout].

Definition code_roundtrips_for_every_variant : bool := checks ((λ err, from_code (code err) == err) <$> ALL).
Definition unrecognized_codes_map_to_unknown : bool :=
  checks ((λ c, from_code c == Unknown) <$> [-1; 3; 5; 42; 2 ^ 31 - 1; - 2 ^ 31]).
Definition codes_are_the_stable_contract : bool := (code <$> ALL) == [0; 1; 2; 4].
Definition default_is_unknown : bool := default_conn_error == Unknown.
Definition display_strings_are_stable : bool :=
  (conn_error_display <$> ALL) ==
  [lit "unknown error"; lit "authentication failed"; lit "server unreachable"; lit "connection timed out"].

Definition each_category_maps_to_its_conn_error : bool :=
  (from_failure <$> [FConfig (lit "x"); FUnreachable (lit "x"); FTimeout (lit "x"); FAuth (lit "x")]) ==
  [Unknown; ServerUnreachable; Timeout; AuthFailed].
Definition display_carries_the_category_and_cause : bool :=
  connect_failure_display (FTimeout (lit "idle for 5s")) == lit "connection timed out: idle for 5s".

Example errors_tests : checks [code_roundtrips_for_every_variant; unrecognized_codes_map_to_unknown;
  codes_are_the_stable_contract; default_is_unknown; display_strings_are_stable; each_category_maps_to_its_conn_error;
  display_carries_the_category_and_cause] = true.
Proof. vm_compute. reflexivity. Qed.
End ErrorsTests.

Module UdpTests.
Import Proxy UdpSession Net.

(** The fake transport records what is sent. *)
Definition send_message (m : UdpMessage) : stm (list UdpMessage) SendError () := modify (λ sent, sent ++ [m]).
Definition message (session_id : Z) (addr data : rstr) : UdpMessage :=
  {| session_id := session_id; packet_id := 0; frag_id := 0; frag_count := 1; addr := addr; data := data |}.

(** One poll of a session's [receive]. *)
Definition receives (h : nat) (w : manager) : option (Poll (outcome io_error (list byte * rstr)) * manager) :=
  c ← conns w !! h;
  match receive true h c w with Ok r => Some r | _ => None end.

Definition udp_session_manager : bool :=
  match new_udp new with
  | (Ok conn1, w) =>
    match new_udp w with
    | (Ok conn2, w) =>
      let msg1 := message 1 (lit "random.site.com:9000") (lit "hello friend") in
      let msg2 := message 2 (lit "another.site.org:8000") (lit "mr robot") in
      let '(r1, sent) := send send_message true 1 7 (data msg1) (addr msg1) [] in
      let '(r2, sent) := send send_message true 2 7 (data msg2) (addr msg2) sent in
      let resp1 := message 1 (addr msg1) (lit "goodbye captain price") in
      let resp2 := message 2 (addr msg2) (lit "white rose") in
      let w1 := (feed resp1 w).2 in
      checks [is_ok r1; is_ok r2; sent == [msg1; msg2]] &&
      match receives conn1 w1 with
      | Some (got1, w) =>
        let w2 := (feed resp2 w).2 in
        match receives conn2 w2 with
        | Some (got2, w) =>
          let w := (feed (message 55 (lit "burgerking.com:27017") (lit "impossible whopper")) w).2 in
          let pending1 := receives conn1 w in
          let closed1 := receives conn1 (close conn1 w) in
          let w := close conn1 w in
          let pending2 := receives conn2 w in
          let w := cleanup w in
          let closed2 := receives conn2 w in
          let eof r := match r with Some (Ready (Err UnexpectedEof), _) => true | _ => false end in
          let waits r := match r with Some (Pending, _) => true | _ => false end in
          checks [match got1 with Ready (Ok r) => r == (data resp1, addr resp1) | _ => false end;
                  match got2 with Ready (Ok r) => r == (data resp2, addr resp2) | _ => false end;
                  waits pending1; eof closed1; waits pending2; eof closed2;
                  is_err (new_udp w).1; count w == 0]
        | None => false
        end
      | None => false
      end
    | _ => false
    end
  | _ => false
  end.

Example udp_tests : udp_session_manager = true.
Proof. vm_compute. reflexivity. Qed.
End UdpTests.

Module TransportTests.
Local Open Scope Z_scope.

Definition effective_tx_matches_go_rules : bool :=
  checks [Transport.effective_tx true 100 200 == 0; Transport.effective_tx false 0 200 == 200;
          Transport.effective_tx false 300 200 == 200; Transport.effective_tx false 150 200 == 150].

Example transport_tests : effective_tx_matches_go_rules = true.
Proof. reflexivity. Qed.
End TransportTests.

Module CountTests.
Import Net Counting.

(** The duplex: what was written to the far end, what the far end has sent. *)
Record duplex := { written : list byte; arrived : list byte }.
#[local] Instance duplex_read : AsyncRead duplex io_error := fun buf s =>
  let n := Nat.min (remaining buf) (length (arrived s)) in
  match arrived s with
  | [] => (Pending, buf, s)
  | _ => (Ready (Ok ()), put_slice (take n (arrived s)) buf,
          {| written := written s; arrived := drop n (arrived s) |})
  end.
#[local] Instance duplex_write : AsyncWrite duplex io_error := {|
  poll_write data s := (Ready (Ok (length data)), {| written := written s ++ data; arrived := arrived s |});
  poll_flush s := (Ready (Ok ()), s);
  poll_shutdown s := (Ready (Ok ()), s);
|}.

Definition counts_reads_and_writes_once : bool :=
  let counted := Counting.new {| written := []; arrived := [] |} 0 0 in
  let '(_, counted) := poll_write (S := Counting duplex) (E := io_error) (lit "hello") counted in
  let '(_, counted) := poll_flush (S := Counting duplex) (E := io_error) counted in
  let sent := tx counted in
  let far := {| inner := {| written := written (inner counted); arrived := lit "worldly" |};
                tx := tx counted; rx := rx counted |} in
  let '(_, _, counted) := poll_read (S := Counting duplex) (E := io_error) {| filled := []; remaining := 7 |} far in
  checks [sent == 5%Z; rx counted == 7%Z].

Example count_tests : counts_reads_and_writes_once = true.
Proof. vm_compute. reflexivity. Qed.
End CountTests.

Module BrutalTests.
Import Brutal.
Local Open Scope Z_scope.

Definition MTU : Z := 1200.
Definition now : Z := 7 * 10 ^ 9.
Definition sender : BrutalSender := new 1000000 now MTU.
Definition millis (n : Z) : Z := n * 10 ^ 6.

(** [(a - b).abs() < eps]. *)
Definition near (a b eps : f64) : bool := SFltb (SFabs (SFsub 53 1024 a b)) eps.
Definition one : f64 := f64_of_u64 1.
Definition epsilon : f64 := f64_div one (f64_of_u64 (2 ^ 52)).
Definition nano : f64 := f64_div one (f64_of_u64 (10 ^ 9)).
Definition ratio (a b : Z) : f64 := f64_div (f64_of_u64 a) (f64_of_u64 b).

(** A call, with overflow checks; the tests' calls do not fail. *)
Definition after {A} (m : stm BrutalSender Empty_set A) (s : BrutalSender) : BrutalSender := (m s).2.
Definition samples (at_ acks losses : Z) : BrutalSender → BrutalSender := after (add_samples true at_ acks losses).

Definition window_before_any_rtt_is_the_initial_window : bool :=
  checks [window sender == INITIAL_WINDOW; initial_window sender == INITIAL_WINDOW].
Definition window_is_bandwidth_delay_product_times_multiplier : bool :=
  window (set_rtt (millis 100) sender) == 200000.
Definition window_is_floored_at_one_datagram : bool := window (set_rtt (millis 1) (new 1 now MTU)) == MTU.
Definition ack_rate_stays_one_below_the_sample_threshold : bool := near (ack_rate (samples now 10 5 sender)) one epsilon.
Definition ack_rate_tracks_the_loss_fraction : bool := near (ack_rate (samples now 90 10 sender)) (ratio 9 10) nano.
Definition ack_rate_is_clamped_to_the_floor : bool := near (ack_rate (samples now 10 90 sender)) MIN_ACK_RATE nano.
Definition a_lower_ack_rate_inflates_the_window : bool :=
  window (set_ack_rate MIN_ACK_RATE (set_rtt (millis 100) sender)) == 250000.
Definition on_congestion_event_translates_bytes_to_packets_and_clamps : bool :=
  near (ack_rate (after (on_congestion_event true now (MTU * 60)) sender)) MIN_ACK_RATE nano.
Definition ecn_only_event_records_nothing : bool :=
  near (ack_rate (after (on_congestion_event true now 0) sender)) one epsilon.
Definition stale_samples_are_evicted_after_the_window : bool :=
  near (ack_rate (samples (now + 6 * 10 ^ 9) 90 10 (samples now 100 0 sender))) (ratio 9 10) nano.
Definition samples_in_the_same_second_accumulate : bool :=
  near (ack_rate (samples now 5 5 (samples now 45 0 sender))) (ratio 50 55) nano.
Definition mtu_update_changes_the_window_floor : bool :=
  window (after (on_mtu_update 1400) (set_rtt (millis 1) (new 1 now MTU))) == 1400.

Example brutal_tests : checks [window_before_any_rtt_is_the_initial_window;
  window_is_bandwidth_delay_product_times_multiplier; window_is_floored_at_one_datagram;
  ack_rate_stays_one_below_the_sample_threshold; ack_rate_tracks_the_loss_fraction;
  ack_rate_is_clamped_to_the_floor; a_lower_ack_rate_inflates_the_window;
  on_congestion_event_translates_bytes_to_packets_and_clamps; ecn_only_event_records_nothing;
  stale_samples_are_evicted_after_the_window; samples_in_the_same_second_accumulate;
  mtu_update_changes_the_window_floor] = true.
Proof. vm_compute. reflexivity. Qed.
End BrutalTests.

Module TlsTests.
Import ClientConfig Tls.

(** Both tests, over a rustls that only knows some certificates. *)
Definition platform_verifier_config_negotiates_h3 `{Rustls} : bool :=
  match build_rustls_client_config {| server_name := lit "example.com"; ca := None |} with
  | Ok config => alpn_protocols config == [lit "h3"]
  | _ => false
  end.
Definition invalid_ca `{Rustls} : bool :=
  is_err (build_rustls_client_config {| server_name := lit "example.com"; ca := Some (lit "not a certificate") |}).

Example tls_tests : checks [@platform_verifier_config_negotiates_h3 sample_rustls; @invalid_ca sample_rustls] = true.
Proof. vm_compute. reflexivity. Qed.
End TlsTests.
